(* ===== verification/_CoqProject ===== *)
-Q . S2P
Prelude.v
Bytes.v
Text.v
Reader.v
Display.v
Object.v
Container.v
Node.v
Build.v
Walk.v
BTree.v
Forest.v
Omap.v
Checkpoint.v
Volume.v
FsRecord.v
Inode.v
Dir.v
Extent.v
Xattr.v
Decmpfs.v
Compression.v
FileData.v
Snapshot.v
Spaceman.v
Reaper.v
Sealed.v
Keybag.v
Apfs.v
Session.v
Messages.v
Typing.v
Damage.v
Work.v
ForensicVfs.v
Vfs.v
Mounted.v
Workers.v
Files.v
Layout.v
Format.v
Tests.v
ImageTests.v
