(* ===== verification/Prelude.v ===== *)
(** * A verified model of the APFS reader [apfs_core]

    [apfs_core] ([src/src/], Rust) reads the Apple File System from any source that can
    be read and sought.  It goes from the container superblock through the checkpoint
    ring to the live superblock, through the container's object map to each volume,
    through the volume's object map to the nodes of its file-system tree, and from the
    records of that tree to directories, inodes, extents, attributes and content.  An
    adapter mounts a volume, live or at a snapshot, as a file system that several threads
    share.  Every byte it reads is untrusted.  This development translates the crate into
    executable definitions and proves what its operations promise.

    ** Files, in dependency order

    - [Prelude], [Bytes] ([bytes.rs]), [Text] (Rust's lossy UTF-8 conversion and the four
      copies of [decode_cstr]): integers, slices, the stable sort, field reads, strings.
    - [Reader] ([ApfsError] of [lib.rs]): errors, outcomes, and the source.  [Display]:
      the messages of the errors.
    - [Object] ([object.rs]), [Container] ([container.rs], [fusion.rs]): the object
      header, Fletcher-64, the container superblock.
    - [Node] ([btree.rs]: header and entries of one node), [Build] (the image builders of
      the test module of [snapshot.rs]), [Walk] (the recursion that [descend],
      [descend_virtual] and [descend_snap] share), [BTree] ([btree.rs]: the full walk and
      the keyed descent), [Forest] (a writer of trees of any shape), [Omap] ([omap.rs]).
    - [Checkpoint] ([checkpoint.rs]), [Volume] ([volume.rs]).
    - [FsRecord] ([fsrecord.rs]), [Inode] ([inode.rs]), [Dir] ([dir.rs]), [Extent]
      ([extent.rs]: extents and streams), [Xattr] ([xattr.rs]).
    - [Decmpfs] ([decmpfs.rs]), [Compression] ([compression.rs]: the decoders), [FileData]
      ([read_data] and [data_size] of [extent.rs], [read_compressed] of
      [compression.rs]).
    - [Snapshot] ([snapshot.rs]), [Spaceman] ([spaceman.rs]), [Reaper] ([reaper.rs]),
      [Sealed] ([sealed.rs]), [Keybag] ([encryption.rs]).
    - [Apfs] ([ApfsContainer] of [lib.rs]), [Session]: the container, and any sequence of
      operations over one reader.  [Messages]: the errors they raise and what their
      messages say.  [Typing]: the types of the answers.  [Damage]: the same
      operations over two images that differ in damaged blocks.  [Work]: the same
      operations over a source that logs what it is asked to read.
    - [ForensicVfs] (the interface of the crate [forensic_vfs]), [Vfs] ([vfs.rs]: mounting
      and the operations of the adapter), [Mounted] (what they answer), [Workers] (threads
      over one handle), [Files] and [Layout] (a writer of files and of whole containers with
      snapshots), [Format] (reading them back).
    - [Tests], [ImageTests]: the unit tests of the crate, run on the model; those over a
      binary fixture with the fixture as a parameter.

    A definition keeps the name of the Rust item it translates; a method of a type [T] is
    in the module [T], whose record is [T.t].  An accessor of a private field [x] is a
    definition over the projection [self_x]; a public field is its projection.  The body
    of a loop or of a callback is a definition of its own ([scan_block], [omap_visit],
    [list_dir_visit], ...).

    ** How the program is modelled

    - Integers are [Z].  [usize] is the 64-bit [u64].  Where the source adds with a bare
      [+], divides with a bare [/], indexes or slices, and the operands are not bounded by
      the types of the fields they come from, the model uses [add_u64], [div_u64],
      [index] or [index_range], which give the outcome [Panic]; so "never panics" is a
      theorem.  A read into a slice of a buffer takes the slice with [index_range] too
      ([read_slice], for the one site in [read_stream]).  Sums of a few field offsets and [u16] or [u32] fields are plain sums;
      [Node.node_sums_fit] shows for the densest of them that they fit.
    - A result is an [outcome]: [Ok], [Err] with the crate's error enum, or [Panic].
    - An operation on [R: Read + Seek] is [M R A := R -> outcome A * R]: the reader's
      state is threaded through every call, and is left where the operation stopped, on
      errors too.  [ReadSeek] is what the crate calls of the two traits and
      [LawfulReader] what it relies on: what is read depends on the offset and not on the
      position before the seek, and reading stores nothing.  [Cursor] is the instance the
      crate's tests use.  [Stable] operations answer the same from any position; [eval] is
      their value.
    - A callback [FnMut] is a function on the state it captures, threaded by the walk.
    - An operation of the adapter is an [access]: an answer given without the lock, or a
      [critical] section, the calls into the reader it makes under the lock, each with its
      continuation.  [run_access] locks, runs and releases; a panic under the lock poisons
      it, as the five methods of [vfs.rs] that take the lock do.  [Workers] interleaves any number of threads at those calls: its state is the
      handle, the holder of the lock and what each worker has left, is doing and has been
      answered, and [advance] is the step of one worker.  A free lock goes
      to any waiting worker: nothing is assumed of the scheduler.
    - The types of [forensic_vfs] are the class [ForensicVfs]: constructors the adapter
      builds are inductive, what the crate keeps abstract is a field, and [LawfulVfs] is
      the one law used (setting a flag sets it).
    - [HashSet] is [gset].  [Vec] is a list.  A [String] is the list of its UTF-8 bytes.
    - Allocation does not fail.

    ** Termination

    The three tree walks recurse on the budget the source counts up to: 64 levels
    ([MAX_BTREE_DEPTH], [MAX_FSTREE_DEPTH], [MAX_SNAP_TREE_DEPTH]) minus the depth, and a
    spent budget gives the source's own [CycleGuard] error, so no fuel is added.  The
    walk of the reap lists recurses on 4096 minus the ids seen, likewise.  Loops over
    counts recurse on the count the source caps.  The UTF-8 scanner recurses on the length
    of its input, which [Text] shows is enough.  Threads: [Workers] shows that every run
    ends, within five steps for each call, by a rank that each step decreases.

    ** What the theorems show

    - Refinement of an abstract specification: [resolve] is the newest mapping of the
      object map; directories, lookup, paths, attributes and extents are those of the
      file system the leaf records describe; snapshots are the metadata records of their
      tree; [is_block_free] is the stored allocation.  Well-formed trees are those a
      source stores ([stored]), with exact separators ([separated]) and ordered keys.
    - Equivalence of the optimised walks with the full ones: the keyed descent of an
      object map, the pruned walk of a file-system tree, and [data_size] against
      [read_data].
    - The functional behaviour of opening a container, of choosing its live checkpoint, of
      resolving its volumes, of reading a stream byte by byte, of reading a compressed
      file whose attributes are embedded or in streams, of mounting a snapshot, of listing pending deletions and of reporting keybags.
    - Types: whatever the source, the answers of opening, parsing and every query are
      within the widths, caps and encodings the code states of them.
    - Safety: every node and value slice is in bounds, a decoded file has its stated
      length or is refused, volume operations never panic, and answers do not depend on
      the operations before.  When blocks of an image are damaged, one word each, every
      metadata query gives its answer on the undamaged image or an error that names the
      damage, never another answer.
    - Work: on any image the walks, searches and queries make a bounded number of reads;
      [ring_is_unbounded] shows the one loop whose bound an image chooses.
    - The adapter: its operations refine the abstract file system of the volume's records;
      windowed reads reassemble the content; a handle keeps its type; refusals are named
      and come before the lock; mounting at a transaction gives the live volume, the frozen
      volume of that snapshot, or [SnapshotNotFound].
    - Concurrency: under every schedule the lock excludes, each worker gets the answers
      its calls give alone, and every call is answered without a fairness assumption.
    - The whole program: an image that [Layout.format] writes for any number of snapshots
      and the live volume, each with any list of files, in object maps, snapshot trees and
      file trees of any shape whose nodes fit their blocks, lists those snapshots, mounts
      at every one of these times, and lists, looks up and reads back exactly the files of
      that time; it mounts at no other.
    - Round trips against encoders: nodes, record keys, names, inodes, extended fields,
      attributes, snapshot records, integrity metadata, inline and forked compression.
    - Errors: whatever an operation raises carries the crate's own names only, and two such
      errors with one message are the same error, or both I/O errors, whose texts are the
      platform's.
    - Behaviour at the limits: the ring address overflow, containers of blocks larger than
      4096 bytes, a snapshot tree whose ids meet its root's block number, and a bitmap
      shorter than its chunk.

    ** What is not modelled

    Third-party code is a parameter where an operation uses it: the zlib, LZVN and LZFSE
    codecs, [chrono]'s calendar conversion, and the crate [forensic_vfs].  The binary
    fixtures are not read: a unit test over one is a function of the fixture's bytes, and
    the theorem about it says what the test takes from them.  The integration tests of
    [tests/] are not modelled: they run the crate over such fixtures and compare with the
    output of other tools.  The text of an I/O error is a parameter, as the platform words
    it. *)
From stdpp Require Export base tactics numbers list list_numbers gmap sets sorting strings.
From Stdlib Require Export ZArith Lia ZifyBool.
From Stdlib Require Export Strings.Byte.

#[global] Open Scope Z_scope.

(** ** Notations, hint databases *)

Declare Scope apfs_scope.
Delimit Scope apfs_scope with apfs.
#[global] Open Scope apfs_scope.

(** A byte buffer, [&[u8]] or [Vec<u8>]. *)
Abbreviation bytes := (list byte).

(** [rust] holds the facts on integers, ranges and buffers that [auto] closes;
    [bufs] the rewriting rules of buffers. *)
Create HintDb rust discriminated.
#[export] Hint Constants Opaque : rust.
#[export] Hint Variables Transparent : rust.
Create Rewrite HintDb bufs.

#[export] Instance byte_eq_decision : EqDecision byte := byte_eq_dec.

(** ** Machine integers

    An unsigned integer of the source is a [Z]; [usize] is the 64-bit [u64]. *)

Definition u64_max : Z := 2 ^ 64 - 1.

Definition in_u8 (z : Z) : Prop := 0 <= z < 2 ^ 8.
Definition in_u16 (z : Z) : Prop := 0 <= z < 2 ^ 16.
Definition in_u32 (z : Z) : Prop := 0 <= z < 2 ^ 32.
Definition in_u64 (z : Z) : Prop := 0 <= z < 2 ^ 64.

(** [u64::saturating_mul], [u64::checked_mul], [usize::checked_add],
    [usize::checked_sub], [usize::saturating_sub]. *)
Definition saturating_mul (a b : Z) : Z := Z.min (a * b) u64_max.
Definition checked_mul (a b : Z) : option Z :=
  if a * b <=? u64_max then Some (a * b) else None.
Definition checked_add (a b : Z) : option Z :=
  if a + b <=? u64_max then Some (a + b) else None.
Definition checked_sub (a b : Z) : option Z :=
  if b <=? a then Some (a - b) else None.
Definition saturating_sub (a b : Z) : Z := Z.max 0 (a - b).

(** The value of a [u8]. *)
Definition byte_val (b : byte) : Z := Z.of_N (Byte.to_N b).

(** The [u8] of an integer, taken modulo 256 ([as u8]). *)
Definition byte_of (z : Z) : byte :=
  match Byte.of_N (Z.to_N (z `mod` 256)) with Some b => b | None => x00 end.

(** ** Slices *)

Definition zlen {A} (l : list A) : Z := Z.of_nat (length l).

(** [l.get(a..b)]: the slice, or [None] when the range is not inside [l]. *)
Definition get_range {A} (l : list A) (a b : Z) : option (list A) :=
  if (0 <=? a) && (a <=? b) && (b <=? zlen l)
  then Some (take (Z.to_nat (b - a)) (drop (Z.to_nat a) l))
  else None.

(** [l.get(a..)]. *)
Definition get_from {A} (l : list A) (a : Z) : option (list A) := get_range l a (zlen l).

(** [l.get(i)]. *)
Definition get {A} (l : list A) (i : Z) : option A :=
  if 0 <=? i then l !! Z.to_nat i else None.

(** [vec![0u8; n]]. *)
Definition zeroed (n : Z) : bytes := replicate (Z.to_nat n) x00.

(** The bytes of an ASCII string constant of the source. *)
Definition str (s : string) : bytes := String.list_byte_of_string s.

(** ** The standard library's stable sort, [slice::sort_by_key] *)
Section sort_by_key.
Context {A : Type} (f : A → Z).

Fixpoint insert_by_key (x : A) (l : list A) : list A :=
  match l with
  | [] => [x]
  | y :: l' => if f x <=? f y then x :: y :: l' else y :: insert_by_key x l'
  end.

Fixpoint sort_by_key (l : list A) : list A :=
  match l with
  | [] => []
  | x :: l' => insert_by_key x (sort_by_key l')
  end.

Definition key_le (x y : A) : Prop := f x <= f y.
End sort_by_key.

(** ** Monadic folds: a [for] loop whose body may return early *)
Section foldM.
Context {M : Type → Type} `{MRet M, MBind M} {A S : Type}.

Fixpoint foldM (body : A → S → M S) (l : list A) (s : S) : M S :=
  match l with
  | [] => mret s
  | x :: l' => body x s ≫= foldM body l'
  end.
End foldM.

(** ** Tactics *)

(** Turn every boolean comparison of integers in sight into a fact. *)
Ltac zbool :=
  repeat match goal with
  | H : (_ && _) = true |- _ => apply andb_true_iff in H; destruct H
  | H : (_ && _) = false |- _ => apply andb_false_iff in H
  | H : (_ || _) = false |- _ => apply orb_false_iff in H; destruct H
  | H : (_ || _) = true |- _ => apply orb_true_iff in H
  | H : (_ <=? _) = true |- _ => apply Z.leb_le in H
  | H : (_ <=? _) = false |- _ => apply Z.leb_gt in H
  | H : (_ <? _) = true |- _ => apply Z.ltb_lt in H
  | H : (_ <? _) = false |- _ => apply Z.ltb_ge in H
  | H : (_ =? _) = true |- _ => apply Z.eqb_eq in H
  | H : (_ =? _) = false |- _ => apply Z.eqb_neq in H
  | H : negb _ = true |- _ => apply negb_true_iff in H
  | H : negb _ = false |- _ => apply negb_false_iff in H
  end.

(** Split on the first [if] or [match] of the goal, keeping the equation. *)
Ltac split_if :=
  match goal with
  | |- context [if ?b then _ else _] => destruct b eqn:?; zbool
  end.

(** Close a goal on the range of an unsigned integer. *)
Ltac urange := unfold in_u8, in_u16, in_u32, in_u64, u64_max in *; lia.

(** ** Integers *)

Lemma byte_val_range b : 0 <= byte_val b < 256.
Proof. unfold byte_val. pose proof (Byte.to_N_bounded b). lia. Qed.
#[export] Hint Resolve byte_val_range : rust.

Lemma byte_val_inj a b : byte_val a = byte_val b → a = b.
Proof.
  unfold byte_val. intros E%N2Z.inj.
  pose proof (Byte.of_to_N a). pose proof (Byte.of_to_N b). congruence.
Qed.

Lemma byte_val_of z : byte_val (byte_of z) = z `mod` 256.
Proof.
  unfold byte_of, byte_val. pose proof (Z.mod_pos_bound z 256).
  destruct (Byte.of_N (Z.to_N (z `mod` 256))) as [b|] eqn:E.
  - apply Byte.to_of_N in E. rewrite E. lia.
  - pose proof (Byte.to_of_N_option_map (Z.to_N (z `mod` 256))) as Ho.
    rewrite E in Ho. simpl in Ho. destruct (_ <=? _)%N eqn:Hle; [done|].
    apply N.leb_gt in Hle. lia.
Qed.

Lemma byte_of_val b : byte_of (byte_val b) = b.
Proof.
  apply byte_val_inj. rewrite byte_val_of, Z.mod_small; auto with rust.
Qed.

Lemma saturating_mul_range a b : 0 <= a → 0 <= b → in_u64 (saturating_mul a b).
Proof. unfold saturating_mul. intros. nia || urange. Qed.

Lemma checked_mul_Some a b c : checked_mul a b = Some c ↔ c = a * b ∧ a * b <= u64_max.
Proof. unfold checked_mul. split_if; naive_solver lia. Qed.

Lemma checked_add_Some a b c : checked_add a b = Some c ↔ c = a + b ∧ a + b <= u64_max.
Proof. unfold checked_add. split_if; naive_solver lia. Qed.

Lemma checked_sub_Some a b c : checked_sub a b = Some c ↔ c = a - b ∧ b <= a.
Proof. unfold checked_sub. split_if; naive_solver lia. Qed.

(** ** Slices *)

Lemma zlen_nonneg {A} (l : list A) : 0 <= zlen l.
Proof. unfold zlen. lia. Qed.
#[export] Hint Resolve zlen_nonneg : rust.

Lemma zlen_nil {A} : zlen (@nil A) = 0.
Proof. done. Qed.

Lemma zlen_cons {A} (x : A) l : zlen (x :: l) = 1 + zlen l.
Proof. unfold zlen. simpl. lia. Qed.

Lemma zlen_app {A} (l k : list A) : zlen (l ++ k) = zlen l + zlen k.
Proof. unfold zlen. rewrite length_app. lia. Qed.

Lemma zlen_zeroed n : 0 <= n → zlen (zeroed n) = n.
Proof. unfold zlen, zeroed. intros. rewrite length_replicate. lia. Qed.

Lemma zlen_take {A} (l : list A) n : zlen (take n l) = Z.min (Z.of_nat n) (zlen l).
Proof. unfold zlen. rewrite length_take. lia. Qed.

Lemma zlen_drop {A} (l : list A) n : zlen (drop n l) = Z.max 0 (zlen l - Z.of_nat n).
Proof. unfold zlen. rewrite length_drop. lia. Qed.
#[export] Hint Rewrite @zlen_nil @zlen_cons @zlen_app @zlen_take @zlen_drop : bufs.

Lemma get_range_Some {A} (l : list A) a b s :
  get_range l a b = Some s ↔
  (0 <= a <= b ∧ b <= zlen l) ∧ s = take (Z.to_nat (b - a)) (drop (Z.to_nat a) l).
Proof. unfold get_range. split_if; naive_solver lia. Qed.

Lemma get_range_None {A} (l : list A) a b :
  get_range l a b = None ↔ ¬ (0 <= a <= b ∧ b <= zlen l).
Proof. unfold get_range. split_if; naive_solver lia. Qed.

Lemma get_range_length {A} (l : list A) a b s : get_range l a b = Some s → zlen s = b - a.
Proof.
  intros [? ->]%get_range_Some. autorewrite with bufs. unfold zlen in *. lia.
Qed.

Lemma get_range_all {A} (l : list A) : get_range l 0 (zlen l) = Some l.
Proof.
  apply get_range_Some. split; [unfold zlen; lia|].
  rewrite Z.sub_0_r. unfold zlen. by rewrite Nat2Z.id, drop_0, firstn_all.
Qed.

(** A range that skips a prefix; a range inside a prefix; a range that is exactly
    the middle. *)
Lemma get_range_app_r {A} (p l : list A) a b :
  0 <= a → get_range (p ++ l) (zlen p + a) (zlen p + b) = get_range l a b.
Proof.
  intros Ha. unfold get_range, zlen. rewrite length_app.
  replace (Z.to_nat (Z.of_nat (length p) + a)) with (length p + Z.to_nat a)%nat by lia.
  rewrite drop_app_add.
  replace (Z.of_nat (length p) + b - (Z.of_nat (length p) + a)) with (b - a) by lia.
  repeat split_if; try done; exfalso; lia.
Qed.

Lemma get_range_app_l {A} (p l : list A) a b :
  b <= zlen p → get_range (p ++ l) a b = get_range p a b.
Proof.
  intros Hb. unfold get_range. rewrite zlen_app. pose proof (zlen_nonneg l).
  repeat split_if; try done; try (exfalso; lia).
  f_equal. unfold zlen in *.
  destruct (decide (Z.to_nat a ≤ length p)%nat); [|lia].
  rewrite drop_app_le by lia. rewrite take_app_le; [done|rewrite length_drop; lia].
Qed.

Lemma get_range_middle {A} (p m l : list A) a b :
  a = zlen p → b = zlen p + zlen m → get_range (p ++ m ++ l) a b = Some m.
Proof.
  intros -> ->. replace (zlen p) with (zlen p + 0) at 1 by lia.
  rewrite get_range_app_r, get_range_app_l by lia. apply get_range_all.
Qed.

(** A range past a prefix; the range that is a prefix. *)
Lemma get_range_skip {A} (p l : list A) a b :
  zlen p <= a → get_range (p ++ l) a b = get_range l (a - zlen p) (b - zlen p).
Proof.
  intros. replace a with (zlen p + (a - zlen p)) at 1 by lia.
  replace b with (zlen p + (b - zlen p)) at 1 by lia. apply get_range_app_r. lia.
Qed.

Lemma get_range_here {A} (m l : list A) a b : a = 0 → b = zlen m → get_range (m ++ l) a b = Some m.
Proof. intros -> ->. by apply (get_range_middle []). Qed.

(** ** The stable sort *)
Section sort_lemmas.
Context {A : Type} (f : A → Z).
Notation le := (key_le f).

#[export] Instance key_le_trans : Transitive le.
Proof. unfold key_le. intros ???; lia. Qed.

Lemma insert_by_key_perm x l : insert_by_key f x l ≡ₚ x :: l.
Proof.
  induction l as [|y l IH]; simpl; [done|]. split_if; [done|].
  rewrite IH. apply Permutation_swap.
Qed.

Lemma sort_by_key_perm l : sort_by_key f l ≡ₚ l.
Proof. induction l as [|x l IH]; simpl; [done|]. by rewrite insert_by_key_perm, IH. Qed.

Lemma insert_by_key_sorted x l : StronglySorted le l → StronglySorted le (insert_by_key f x l).
Proof.
  induction 1 as [|y l Hs IH Hy]; simpl; [by repeat constructor|].
  split_if.
  - constructor; [by constructor|]. constructor; [done|].
    eapply Forall_impl; [done|]. unfold key_le in *. intros; simpl in *; lia.
  - constructor; [done|]. rewrite insert_by_key_perm. constructor; [|done].
    unfold key_le. lia.
Qed.

Lemma sort_by_key_sorted l : StronglySorted le (sort_by_key f l).
Proof. induction l; simpl; [constructor|]. by apply insert_by_key_sorted. Qed.

(** Elements of one key keep their order. *)
Lemma sort_by_key_stable l k :
  filter (λ x, f x = k) (sort_by_key f l) = filter (λ x, f x = k) l.
Proof.
  assert (Hins : ∀ x l, filter (λ x, f x = k) (insert_by_key f x l)
                      = filter (λ x, f x = k) (x :: l)).
  { intros x l'. induction l' as [|y l' IH]; simpl; [done|].
    split_if; [done|]. rewrite filter_cons, IH, !filter_cons.
    repeat case_decide; try done; lia. }
  induction l as [|x l IH]; simpl; [done|].
  rewrite Hins, !filter_cons, IH. done.
Qed.

(** A sorted list is left alone. *)
Lemma sort_by_key_id l : StronglySorted le l → sort_by_key f l = l.
Proof.
  induction 1 as [|x l Hs IH Hx]; simpl; [done|]. rewrite IH.
  destruct l as [|y l]; simpl; [done|].
  apply Forall_cons in Hx as [Hxy _]. unfold key_le in Hxy.
  by replace (f x <=? f y) with true by lia.
Qed.
End sort_lemmas.

(** ** Sublists and filters *)

Lemma sublist_Forall {A} (P : A → Prop) l k : l `sublist_of` k → Forall P k → Forall P l.
Proof. induction 1; intros Hf; try constructor; inversion Hf; subst; auto. Qed.

Lemma filter_none {A} (P : A → Prop) `{∀ x, Decision (P x)} l :
  Forall (λ x, ¬ P x) l → filter P l = [].
Proof. induction 1; [done|]. rewrite filter_cons. by case_decide. Qed.

(** ** Folds *)

Lemma fold_left_filter {A B} (P : B → Prop) `{∀ x, Decision (P x)} (g : A → B → A) l a :
  (∀ a x, ¬ P x → g a x = a) → fold_left g l a = fold_left g (filter P l) a.
Proof.
  intros Hg. revert a. induction l as [|x l IH]; intros a; simpl; [done|].
  rewrite filter_cons. case_decide; simpl; [apply IH|]. rewrite Hg by done. apply IH.
Qed.

Lemma fold_left_id {A B} (g : A → B → A) l a :
  (∀ a x, x ∈ l → g a x = a) → fold_left g l a = a.
Proof.
  revert a. induction l as [|x l IH]; intros a Hg; simpl; [done|].
  rewrite Hg by set_solver. apply IH. set_solver.
Qed.
