(* ===== verification/Bytes.v ===== *)
(** * Bounds-checked little-endian reads ([src/src/bytes.rs])

    [le_u16], [le_u32], [le_u64] and [arr] read a field of an untrusted buffer and
    yield zero where the field runs past its end.  [to_le_bytes] is the standard
    library's encoder; the theorems relate the two and bound every read. *)
From S2P Require Import Prelude.

(** [uN::from_le_bytes]. *)
Fixpoint from_le_bytes (l : bytes) : Z :=
  match l with
  | [] => 0
  | b :: l' => byte_val b + 256 * from_le_bytes l'
  end.

(** [uN::to_le_bytes], [n] bytes wide. *)
Fixpoint to_le_bytes (n : nat) (z : Z) : bytes :=
  match n with
  | O => []
  | S n' => byte_of z :: to_le_bytes n' (z / 256)
  end.

(** [uN::from_be_bytes]. *)
Definition from_be_bytes (l : bytes) : Z := from_le_bytes (rev l).

(** The common shape of the readers: a zeroed array, overwritten when the range is
    inside the buffer. *)
Definition le_read (n : nat) (data : bytes) (offset : Z) : Z :=
  match get_range data offset (offset + Z.of_nat n) with
  | Some s => from_le_bytes s
  | None => from_le_bytes (replicate n x00)
  end.

Definition le_u16 (data : bytes) (offset : Z) : Z := le_read 2 data offset.
Definition le_u32 (data : bytes) (offset : Z) : Z := le_read 4 data offset.
Definition le_u64 (data : bytes) (offset : Z) : Z := le_read 8 data offset.

Definition arr (n : nat) (data : bytes) (offset : Z) : bytes :=
  match get_range data offset (offset + Z.of_nat n) with
  | Some s => s
  | None => replicate n x00
  end.

(** ** Encoding and decoding *)

Lemma length_to_le_bytes n z : length (to_le_bytes n z) = n.
Proof. revert z. induction n; intros; simpl; auto. Qed.

Lemma zlen_to_le_bytes n z : zlen (to_le_bytes n z) = Z.of_nat n.
Proof. unfold zlen. by rewrite length_to_le_bytes. Qed.
#[export] Hint Rewrite zlen_to_le_bytes : bufs.

Lemma from_le_bytes_range l : 0 <= from_le_bytes l < 256 ^ zlen l.
Proof.
  induction l as [|b l IH]; [done|].
  rewrite zlen_cons, Z.pow_add_r by auto with rust zarith.
  pose proof (byte_val_range b). simpl. lia.
Qed.

Lemma from_to_le_bytes n z : from_le_bytes (to_le_bytes n z) = z `mod` 256 ^ Z.of_nat n.
Proof.
  revert z. induction n as [|n IH]; intros z; simpl; [by rewrite Z.mod_1_r|].
  rewrite IH, byte_val_of.
  change (Z.of_nat (S n)) with (Z.of_nat (1 + n)). rewrite Nat2Z.inj_add, Z.pow_add_r by lia.
  change (256 ^ Z.of_nat 1) with 256.
  rewrite Z.rem_mul_r by (try apply Z.pow_pos_nonneg; lia). done.
Qed.

Lemma to_from_le_bytes l : to_le_bytes (length l) (from_le_bytes l) = l.
Proof.
  induction l as [|b l IH]; [done|]. pose proof (byte_val_range b). cbn [length to_le_bytes from_le_bytes].
  f_equal.
  - apply byte_val_inj. rewrite byte_val_of.
    rewrite (Z.mul_comm 256), Z.mod_add, Z.mod_small by lia. done.
  - rewrite (Z.mul_comm 256), Z.div_add, Z.div_small, Z.add_0_l by lia. apply IH.
Qed.

Lemma from_le_bytes_inj l k : length l = length k → from_le_bytes l = from_le_bytes k → l = k.
Proof.
  intros Hl E. rewrite <- (to_from_le_bytes l), <- (to_from_le_bytes k). by rewrite Hl, E.
Qed.

Lemma from_le_bytes_zeros n : from_le_bytes (replicate n x00) = 0.
Proof. induction n; simpl; [done|]. rewrite IHn. done. Qed.

(** ** The readers *)

Lemma le_read_in n data off :
  0 <= off → off + Z.of_nat n <= zlen data →
  le_read n data off = from_le_bytes (take n (drop (Z.to_nat off) data)).
Proof.
  intros. unfold le_read.
  rewrite (proj2 (get_range_Some _ _ _ (take n (drop (Z.to_nat off) data)))); [done|].
  split; [lia|]. do 2 f_equal. lia.
Qed.

Lemma le_read_out n data off : zlen data < off + Z.of_nat n → le_read n data off = 0.
Proof.
  intros. unfold le_read. rewrite (proj2 (get_range_None _ _ _)) by lia.
  apply from_le_bytes_zeros.
Qed.

Lemma le_read_range n data off : 0 <= le_read n data off < 256 ^ Z.of_nat n.
Proof.
  unfold le_read. destruct (get_range _ _ _) as [s|] eqn:E.
  - apply get_range_length in E. pose proof (from_le_bytes_range s). rewrite E in *.
    by replace (Z.of_nat n) with (off + Z.of_nat n - off) by lia.
  - rewrite from_le_bytes_zeros. split; [lia|]. apply Z.pow_pos_nonneg; lia.
Qed.

Lemma le_u16_range data off : in_u16 (le_u16 data off).
Proof. apply (le_read_range 2). Qed.
Lemma le_u32_range data off : in_u32 (le_u32 data off).
Proof. apply (le_read_range 4). Qed.
Lemma le_u64_range data off : in_u64 (le_u64 data off).
Proof. apply (le_read_range 8). Qed.
#[export] Hint Resolve le_u16_range le_u32_range le_u64_range : rust.

(** Put the range of every read of the goal in the context. *)
Ltac le_ranges :=
  repeat match goal with
  | |- context [le_u16 ?d ?o] =>
      lazymatch goal with H : in_u16 (le_u16 d o) |- _ => fail | _ => pose proof (le_u16_range d o) end
  | |- context [le_u32 ?d ?o] =>
      lazymatch goal with H : in_u32 (le_u32 d o) |- _ => fail | _ => pose proof (le_u32_range d o) end
  | |- context [le_u64 ?d ?o] =>
      lazymatch goal with H : in_u64 (le_u64 d o) |- _ => fail | _ => pose proof (le_u64_range d o) end
  end.

Lemma length_arr n data off : length (arr n data off) = n.
Proof.
  unfold arr. destruct (get_range _ _ _) eqn:E; [|by rewrite length_replicate].
  apply get_range_length in E. unfold zlen in E. lia.
Qed.

(** A field encoded in the middle of a buffer is read back. *)
Lemma le_read_app n pre post v :
  0 <= v < 256 ^ Z.of_nat n →
  le_read n (pre ++ to_le_bytes n v ++ post) (zlen pre) = v.
Proof.
  intros Hv. unfold le_read.
  rewrite get_range_middle by (autorewrite with bufs; lia).
  rewrite from_to_le_bytes. by apply Z.mod_small.
Qed.

(** A read that stays inside a prefix, or that skips it. *)
Lemma le_read_app_l n p l off :
  off + Z.of_nat n <= zlen p → le_read n (p ++ l) off = le_read n p off.
Proof. intros. unfold le_read. by rewrite get_range_app_l. Qed.

Lemma le_read_app_r n p l off :
  0 <= off → le_read n (p ++ l) (zlen p + off) = le_read n l off.
Proof.
  intros. unfold le_read. by rewrite <- Z.add_assoc, get_range_app_r.
Qed.
