(* ===== verification/Text.v ===== *)
(** * Text: UTF-8 repair and NUL-terminated names

    A Rust [String] is modelled by its bytes.  [scan] is one step of the standard
    library's UTF-8 scanner (the one under [String::from_utf8_lossy] and
    [str::from_utf8]); [decode_cstr] is the helper of the same name that
    [src/src/dir.rs], [inode.rs], [xattr.rs] and [snapshot.rs] each carry. *)
From S2P Require Import Prelude.

(** ** The standard library's scanner *)

(** One scan at the start of a non-empty buffer: a character of [n] bytes, or an
    ill-formed sequence of [n] bytes. *)
Inductive scanned := Char (n : nat) | Bad (n : nat).

Definition byte_at (l : bytes) (i : nat) : Z :=
  match l !! i with Some b => byte_val b | None => 0 end.

(** [byte & 192 == TAG_CONT_U8]. *)
Definition is_cont (z : Z) : bool := Z.land z 192 =? 128.

Definition between (lo hi z : Z) : bool := (lo <=? z) && (z <=? hi).

Definition utf8_char_width (b : Z) : Z :=
  if between 0x00 0x7F b then 1
  else if between 0xC2 0xDF b then 2
  else if between 0xE0 0xEF b then 3
  else if between 0xF0 0xF4 b then 4
  else 0.

(** Second bytes of the three- and four-byte forms: no overlong form, no surrogate,
    nothing above U+10FFFF. *)
Definition second3 (b0 b1 : Z) : bool :=
  (b0 =? 0xE0) && between 0xA0 0xBF b1
  || between 0xE1 0xEC b0 && between 0x80 0xBF b1
  || (b0 =? 0xED) && between 0x80 0x9F b1
  || between 0xEE 0xEF b0 && between 0x80 0xBF b1.

Definition second4 (b0 b1 : Z) : bool :=
  (b0 =? 0xF0) && between 0x90 0xBF b1
  || between 0xF1 0xF3 b0 && between 0x80 0xBF b1
  || (b0 =? 0xF4) && between 0x80 0x8F b1.

Definition scan (l : bytes) : scanned :=
  let b0 := byte_at l 0 in
  let b1 := byte_at l 1 in
  match utf8_char_width b0 with
  | 1 => Char 1
  | 2 => if is_cont b1 then Char 2 else Bad 1
  | 3 => if second3 b0 b1 then if is_cont (byte_at l 2) then Char 3 else Bad 2 else Bad 1
  | 4 => if second4 b0 b1
         then if is_cont (byte_at l 2)
              then if is_cont (byte_at l 3) then Char 4 else Bad 3
              else Bad 2
         else Bad 1
  | _ => Bad 1
  end.

(** U+FFFD. *)
Definition REPLACEMENT : bytes := [xef; xbf; xbd].

(** Every scan consumes a byte, so the length is fuel enough. *)
Fixpoint lossy_loop (fuel : nat) (l : bytes) : bytes :=
  match fuel, l with
  | S fuel', _ :: _ =>
      match scan l with
      | Char n => take n l ++ lossy_loop fuel' (drop n l)
      | Bad n => REPLACEMENT ++ lossy_loop fuel' (drop n l)
      end
  | _, _ => []
  end.

Fixpoint utf8_loop (fuel : nat) (l : bytes) : bool :=
  match fuel, l with
  | S fuel', _ :: _ =>
      match scan l with
      | Char n => utf8_loop fuel' (drop n l)
      | Bad _ => false
      end
  | _, _ => true
  end.

(** [String::from_utf8_lossy]; [str::from_utf8(..).is_ok()]. *)
Definition from_utf8_lossy (l : bytes) : bytes := lossy_loop (length l) l.
Definition is_utf8 (l : bytes) : bool := utf8_loop (length l) l.

(** [data.iter().position(|&b| b == 0).unwrap_or(data.len())]. *)
Definition nul_position (data : bytes) : nat :=
  match list_find (λ b, b = x00) data with
  | Some (i, _) => i
  | None => length data
  end.

Definition decode_cstr (data : bytes) : bytes :=
  from_utf8_lossy (take (nul_position data) data).

(** ** The scanner consumes at least one byte and only bytes that exist *)

Lemma byte_at_Some l i : 0 < byte_at l i → ∃ b, l !! i = Some b.
Proof. unfold byte_at. destruct (l !! i); [eauto|lia]. Qed.

Lemma byte_at_lt l i : 0 < byte_at l i → (i < length l)%nat.
Proof. intros [b Hb]%byte_at_Some. by eapply lookup_lt_Some. Qed.

Lemma is_cont_pos z : is_cont z = true → z ≠ 0.
Proof. by intros E ->. Qed.

Lemma byte_at_nonneg l i : 0 <= byte_at l i.
Proof. unfold byte_at. destruct (l !! i); [apply byte_val_range|lia]. Qed.

Lemma is_cont_lt l i : is_cont (byte_at l i) = true → (i < length l)%nat.
Proof.
  intros H%is_cont_pos. apply byte_at_lt. pose proof (byte_at_nonneg l i). lia.
Qed.

Lemma second3_lt l b0 : second3 b0 (byte_at l 1) = true → (1 < length l)%nat.
Proof. unfold second3, between. intros. apply byte_at_lt. lia. Qed.

Lemma second4_lt l b0 : second4 b0 (byte_at l 1) = true → (1 < length l)%nat.
Proof. unfold second4, between. intros. apply byte_at_lt. lia. Qed.

Definition consumed (s : scanned) : nat := match s with Char n | Bad n => n end.

Lemma scan_consumed l : l ≠ [] → (0 < consumed (scan l) ≤ length l)%nat.
Proof.
  intros Hl. destruct l as [|b l]; [done|]. set (k := b :: l) in *.
  assert (0 < length k)%nat by (simpl; lia).
  unfold scan. generalize (byte_at k 0) as b0. intros b0.
  unfold utf8_char_width.
  repeat split_if; cbn [consumed]; repeat match goal with
  | H : is_cont _ = true |- _ => apply is_cont_lt in H
  | H : second3 _ _ = true |- _ => apply second3_lt in H
  | H : second4 _ _ = true |- _ => apply second4_lt in H
  end; lia.
Qed.

(** A scan only looks at the bytes it accepts. *)
Lemma scan_Char_app l n k : l ≠ [] → scan l = Char n → scan (take n l ++ k) = Char n.
Proof.
  intros Hl E. pose proof (scan_consumed l Hl) as Hn. rewrite E in Hn. cbn in Hn.
  assert (Hat : ∀ i, (i < n)%nat → byte_at (take n l ++ k) i = byte_at l i).
  { intros i Hi. unfold byte_at.
    rewrite lookup_app_l by (rewrite length_take; lia). by rewrite lookup_take_lt. }
  unfold scan in E |- *. rewrite (Hat 0%nat) by lia. revert E Hat.
  generalize (byte_at l 0) as b0. intros b0 E Hat. unfold utf8_char_width in *.
  repeat match type of E with
  | context [if ?b then _ else _] => destruct b eqn:?
  end; try discriminate E; injection E as <-; rewrite ?Hat by lia; repeat case_match; congruence.
Qed.

(** ** Loops *)

Lemma drop_consumed_lt l : l ≠ [] → (length (drop (consumed (scan l)) l) < length l)%nat.
Proof. intros Hl. pose proof (scan_consumed l Hl). rewrite length_drop. lia. Qed.

Lemma lossy_loop_fuel f1 f2 l :
  (length l ≤ f1)%nat → (length l ≤ f2)%nat → lossy_loop f1 l = lossy_loop f2 l.
Proof.
  revert f2 l. induction f1 as [|f1 IH]; intros f2 [|b l] H1 H2;
    try (destruct f2; simpl in *; done || lia).
  destruct f2 as [|f2]; [simpl in *; lia|]. cbn [lossy_loop].
  pose proof (drop_consumed_lt (b :: l) ltac:(done)) as Hd.
  destruct (scan (b :: l)) as [n|n]; cbn [consumed] in Hd; f_equal; apply IH; cbn [length] in *; lia.
Qed.

Lemma utf8_loop_fuel f1 f2 l :
  (length l ≤ f1)%nat → (length l ≤ f2)%nat → utf8_loop f1 l = utf8_loop f2 l.
Proof.
  revert f2 l. induction f1 as [|f1 IH]; intros f2 [|b l] H1 H2;
    try (destruct f2; simpl in *; done || lia).
  destruct f2 as [|f2]; [simpl in *; lia|]. cbn [utf8_loop].
  pose proof (drop_consumed_lt (b :: l) ltac:(done)) as Hd.
  destruct (scan (b :: l)) as [n|n]; cbn [consumed] in Hd; [|done]. apply IH; cbn [length] in *; lia.
Qed.

(** The defining equations, without fuel. *)
Lemma from_utf8_lossy_step l : l ≠ [] →
  from_utf8_lossy l =
    match scan l with
    | Char n => take n l ++ from_utf8_lossy (drop n l)
    | Bad n => REPLACEMENT ++ from_utf8_lossy (drop n l)
    end.
Proof.
  intros Hl. pose proof (drop_consumed_lt l Hl) as Hd. unfold from_utf8_lossy at 1.
  destruct l as [|b l]; [done|]. cbn [length lossy_loop].
  destruct (scan (b :: l)) as [n|n]; cbn [consumed] in Hd; f_equal;
    apply lossy_loop_fuel; cbn [length] in *; lia.
Qed.

Lemma is_utf8_step l : l ≠ [] →
  is_utf8 l = match scan l with Char n => is_utf8 (drop n l) | Bad _ => false end.
Proof.
  intros Hl. pose proof (drop_consumed_lt l Hl) as Hd. unfold is_utf8 at 1.
  destruct l as [|b l]; [done|]. cbn [length utf8_loop].
  destruct (scan (b :: l)) as [n|n]; cbn [consumed] in Hd; [|done].
  apply utf8_loop_fuel; cbn [length] in *; lia.
Qed.

(** Induction along the scanner. *)
Lemma scan_ind (P : bytes → Prop) :
  P [] → (∀ l, l ≠ [] → P (drop (consumed (scan l)) l) → P l) → ∀ l, P l.
Proof.
  intros H0 Hs l. remember (length l) as k eqn:Hk. revert l Hk.
  induction (lt_wf k) as [k _ IH]. intros l ->.
  destruct (decide (l = [])) as [->|Hl]; [done|].
  apply Hs; [done|]. eapply IH; [|done]. by apply drop_consumed_lt.
Qed.

Lemma is_utf8_Char_app l n k : l ≠ [] → scan l = Char n →
  is_utf8 (take n l ++ k) = is_utf8 k.
Proof.
  intros Hl E. pose proof (scan_consumed l Hl) as Hn. rewrite E in Hn. cbn in Hn.
  rewrite is_utf8_step; [|destruct l; [done|destruct n; [lia|done]]].
  rewrite (scan_Char_app l n k) by done.
  rewrite drop_app_length'; [done|rewrite length_take; lia].
Qed.

(** The repaired text is well formed. *)
Lemma from_utf8_lossy_utf8 l : is_utf8 (from_utf8_lossy l) = true.
Proof.
  induction l as [|l Hl IH] using scan_ind; [done|].
  rewrite from_utf8_lossy_step by done.
  destruct (scan l) as [n|n] eqn:E; cbn [consumed] in IH.
  - by rewrite (is_utf8_Char_app l n).
  - change REPLACEMENT with (take 3 REPLACEMENT). by rewrite (is_utf8_Char_app REPLACEMENT 3).
Qed.

(** Well-formed text is left alone. *)
Lemma from_utf8_lossy_id l : is_utf8 l = true → from_utf8_lossy l = l.
Proof.
  induction l as [|l Hl IH] using scan_ind; [done|].
  rewrite is_utf8_step, from_utf8_lossy_step by done.
  destruct (scan l) as [n|n]; [|done]. cbn [consumed] in IH.
  intros Hu. rewrite (IH Hu). apply take_drop.
Qed.

Lemma elem_of_take_sub (n : nat) (l : bytes) b : b ∈ take n l → b ∈ l.
Proof. rewrite <- (take_drop n l) at 2. set_solver. Qed.

Lemma elem_of_drop_sub (n : nat) (l : bytes) b : b ∈ drop n l → b ∈ l.
Proof. rewrite <- (take_drop n l) at 2. set_solver. Qed.

(** The repair writes no byte of its own below 0x80. *)
Lemma from_utf8_lossy_ascii_bytes l b :
  byte_val b < 0x80 → b ∈ from_utf8_lossy l → b ∈ l.
Proof.
  intros Hb. induction l as [|l Hl IH] using scan_ind; [done|].
  rewrite from_utf8_lossy_step by done.
  destruct (scan l) as [n|n]; cbn [consumed] in IH; rewrite elem_of_app.
  - intros [H|H]; [by eapply elem_of_take_sub|].
    apply IH in H. by eapply elem_of_drop_sub.
  - intros [H|H].
    + exfalso. unfold REPLACEMENT in H. rewrite !elem_of_cons, elem_of_nil in H.
      destruct H as [->|[->|[->|[]]]]; vm_compute in Hb; done.
    + apply IH in H. by eapply elem_of_drop_sub.
Qed.

(** Plain ASCII is well formed. *)
Lemma is_utf8_ascii l : Forall (λ b, byte_val b < 0x80) l → is_utf8 l = true.
Proof.
  induction 1 as [|b l Hb Hl IH]; [done|].
  rewrite is_utf8_step by done. unfold scan, utf8_char_width, byte_at. cbn [lookup list_lookup].
  pose proof (byte_val_range b). unfold between.
  replace ((0 <=? byte_val b) && (byte_val b <=? 127)) with true by lia.
  by rewrite drop_0 || done.
Qed.

(** ** NUL-terminated names *)

Lemma take_nul_position data : Forall (λ b, b ≠ x00) (take (nul_position data) data).
Proof.
  unfold nul_position. destruct (list_find _ data) as [[i b]|] eqn:E.
  - apply list_find_Some in E as (Hi & -> & Hlt). apply Forall_lookup. intros j c Hj.
    apply lookup_take_Some in Hj as [Hj ?]. eauto.
  - apply list_find_None in E. rewrite firstn_all. done.
Qed.

Lemma nul_position_app s t : Forall (λ b, b ≠ x00) s → nul_position (s ++ x00 :: t) = length s.
Proof.
  intros Hs. unfold nul_position.
  rewrite (proj2 (list_find_Some _ _ (length s) x00)); [done|].
  split; [|split; [done|]].
  - by rewrite lookup_app_r, Nat.sub_diag by lia.
  - intros j c Hj Hlt. rewrite lookup_app_l in Hj by done.
    by eapply Forall_lookup in Hs.
Qed.

(** A decoded name is well-formed text without NUL. *)
Lemma decode_cstr_spec data :
  is_utf8 (decode_cstr data) = true ∧ x00 ∉ decode_cstr data.
Proof.
  split; [apply from_utf8_lossy_utf8|]. unfold decode_cstr. intros Hin.
  apply from_utf8_lossy_ascii_bytes in Hin; [|done].
  pose proof (take_nul_position data) as Hf. rewrite Forall_forall in Hf. by apply (Hf x00).
Qed.

(** A well-formed name followed by its NUL is read back, whatever follows. *)
Lemma decode_cstr_nul s t :
  is_utf8 s = true → x00 ∉ s → decode_cstr (s ++ x00 :: t) = s.
Proof.
  intros Hu Hs. unfold decode_cstr.
  rewrite nul_position_app.
  - rewrite take_app_length. by apply from_utf8_lossy_id.
  - apply Forall_forall. intros b Hb ->. done.
Qed.
