(* ===== verification/Reader.v ===== *)
(** * Errors, outcomes and the byte source ([src/src/lib.rs])

    [ApfsError] is the crate's error enum.  [outcome] is the result of an operation:
    a value, an error, or [Panic], a Rust panic (an arithmetic overflow under overflow
    checks, an index out of bounds).  [M R A] is an operation that uses a source
    [R: Read + Seek].  [ReadSeek] is the part of the two traits the crate calls, and
    [LawfulReader] what it relies on: reading does not change what is stored.
    [Cursor] is [std::io::Cursor] over a byte buffer, the instance of the tests. *)
From S2P Require Import Prelude.

(** ** Errors *)

(** [std::io::ErrorKind], as far as the crate looks at it. *)
Inductive ErrorKind := UnexpectedEof | OtherKind.
Record io_error := IoError { kind : ErrorKind }.

Inductive ApfsError :=
  | Io (source : io_error)
  | NoValidSuperblock (checked : Z) (last_magic : Z)
  | ChecksumMismatch (block stored computed : Z)
  | OmapUnresolved (oid xid : Z)
  | UnexpectedObjectType (structure : string) (expected found : Z)
  | UnsupportedFusion
  | UnsupportedSpacemanCab (count : Z)
  | FieldOutOfRange (structure field : string) (value cap : Z)
  | CycleGuard (cap : Z)
  | CheckpointTreeUnsupported (area : string)
  | SnapshotNotFound (xid : Z)
  | Decmpfs (why : string).

Inductive outcome (A : Type) : Type :=
  | Ok (a : A)
  | Err (e : ApfsError)
  | Panic.
Arguments Ok {A} a.
Arguments Err {A} e.
Arguments Panic {A}.

#[export] Instance outcome_ret : MRet outcome := @Ok.
#[export] Instance outcome_bind : MBind outcome := λ A B k m,
  match m with Ok a => k a | Err e => Err e | Panic => Panic end.

(** [opt.ok_or(e)]. *)
Definition ok_or {A} (e : ApfsError) (o : option A) : outcome A :=
  match o with Some a => Ok a | None => Err e end.

(** [res.map(f)]. *)
Definition outcome_map {A B} (f : A → B) (o : outcome A) : outcome B :=
  a ← o; mret (f a).

(** [a + b] on [u64] under overflow checks. *)
Definition add_u64 (a b : Z) : outcome Z :=
  if a + b <=? u64_max then Ok (a + b) else Panic.

(** [a / b], [l[i]], [&l[a..b]]: the three partial operators. *)
Definition div_u64 (a b : Z) : outcome Z := if b =? 0 then Panic else Ok (a / b).
Definition index {A} (l : list A) (i : Z) : outcome A :=
  match get l i with Some x => Ok x | None => Panic end.
Definition index_range {A} (l : list A) (a b : Z) : outcome (list A) :=
  match get_range l a b with Some s => Ok s | None => Panic end.

(** ** Sources *)

(** [seek(SeekFrom::Start(off))], and [read_exact] on a buffer of [n] bytes, which
    gives the filled buffer. *)
Class ReadSeek (R : Type) := {
  rs_seek : Z → R → (io_error + unit) * R;
  rs_read_exact : Z → R → (io_error + bytes) * R;
}.

Definition M (R A : Type) : Type := R → outcome A * R.

#[export] Instance M_ret R : MRet (M R) := λ A a r, (Ok a, r).
#[export] Instance M_bind R : MBind (M R) := λ A B k m r,
  match m r with
  | (Ok a, r') => k a r'
  | (Err e, r') => (Err e, r')
  | (Panic, r') => (Panic, r')
  end.

(** A pure outcome as an operation; [Err(e)]. *)
Definition lift {R A} (o : outcome A) : M R A := λ r, (o, r).
Definition throw {R A} (e : ApfsError) : M R A := lift (Err e).

(** [reader.seek(..)?] and [reader.read_exact(..)?]; the [?] converts the error. *)
Definition io {R A} (m : R → (io_error + A) * R) : M R A := λ r,
  match m r with
  | (inl e, r') => (Err (Io e), r')
  | (inr a, r') => (Ok a, r')
  end.
Definition seek {R} `{ReadSeek R} (off : Z) : M R unit := io (rs_seek off).
Definition read_exact {R} `{ReadSeek R} (n : Z) : M R bytes := io (rs_read_exact n).

(** [match reader.read_exact(..)] with an arm of its own for [UnexpectedEof]. *)
Definition read_exact_eof {R} `{ReadSeek R} (n : Z) : M R (option bytes) := λ r,
  match rs_read_exact n r with
  | (inr buf, r') => (Ok (Some buf), r')
  | (inl e, r') =>
      match kind e with
      | UnexpectedEof => (Ok None, r')
      | OtherKind => (Err (Io e), r')
      end
  end.

(** The value of an operation started at [r]. *)
Definition eval {R A} (m : M R A) (r : R) : outcome A := (m r).1.

(** The reads every component performs: a seek, then the buffer. *)
Definition read_at {R} `{ReadSeek R} (off n : Z) : M R bytes :=
  _ ← seek off; read_exact n.
Definition read_at_eof {R} `{ReadSeek R} (off n : Z) : M R (option bytes) :=
  _ ← seek off; read_exact_eof n.

(** A seek, then [read_exact] into a slice of a buffer: the slice is taken after the seek,
    and panics when it is out of bounds. *)
Definition read_slice {R} `{ReadSeek R} (off : Z) (slice : outcome bytes) : M R bytes :=
  _ ← seek off; window ← lift slice; read_exact (zlen window).

(** [same_source r r']: two states of one source, which differ in position only. *)
Class LawfulReader (R : Type) `{ReadSeek R} := {
  same_source : relation R;
  #[global] same_source_equiv :: Equivalence same_source;
  seek_value off r r' : same_source r r' → (rs_seek off r).1 = (rs_seek off r').1;
  seek_keeps off r : same_source (rs_seek off r).2 r;
  read_value off n r r' : same_source r r' →
    (rs_read_exact n (rs_seek off r).2).1 = (rs_read_exact n (rs_seek off r').2).1;
  read_keeps n r : same_source (rs_read_exact n r).2 r;
  read_length n r buf : 0 <= n → (rs_read_exact n r).1 = inr buf → zlen buf = n;
}.

(** ** [std::io::Cursor<&[u8]>] *)
Record Cursor := { cur_data : bytes; cur_pos : Z }.

Definition cursor_seek (off : Z) (c : Cursor) : (io_error + unit) * Cursor :=
  (inr tt, {| cur_data := cur_data c; cur_pos := off |}).

Definition cursor_read_exact (n : Z) (c : Cursor) : (io_error + bytes) * Cursor :=
  match get_range (cur_data c) (cur_pos c) (cur_pos c + n) with
  | Some buf => (inr buf, {| cur_data := cur_data c; cur_pos := cur_pos c + n |})
  | None =>
      (inl (IoError UnexpectedEof),
       {| cur_data := cur_data c; cur_pos := Z.max (cur_pos c) (zlen (cur_data c)) |})
  end.

#[export] Instance cursor_read_seek : ReadSeek Cursor :=
  {| rs_seek := cursor_seek; rs_read_exact := cursor_read_exact |}.

Definition cursor (data : bytes) : Cursor := {| cur_data := data; cur_pos := 0 |}.

(** ** Stable operations

    An operation is stable when its value does not depend on the position it starts
    at and it leaves the source as it was.  [eval] is then a monad morphism. *)
Class Stable {R} `{LawfulReader R} {A} (m : M R A) : Prop := {
  stable_value r r' : same_source r r' → eval m r = eval m r';
  stable_keeps r : same_source (m r).2 r;
}.

Create HintDb stable discriminated.
#[export] Hint Constants Opaque : stable.
#[export] Hint Variables Transparent : stable.

(** ** The cursor is lawful *)

#[export] Program Instance cursor_lawful : LawfulReader Cursor :=
  {| same_source c c' := cur_data c = cur_data c' |}.
Next Obligation. split; [intros ?|intros ???|intros ?????]; congruence. Qed.
Next Obligation. done. Qed.
Next Obligation. done. Qed.
Next Obligation.
  intros off n c c' E. simpl. unfold cursor_read_exact. simpl. rewrite E. by case_match.
Qed.
Next Obligation. intros n c. simpl. unfold cursor_read_exact. by case_match. Qed.
Next Obligation.
  intros n c buf Hn. simpl. unfold cursor_read_exact. case_match eqn:E; [|done].
  intros [= <-]. apply get_range_length in E. lia.
Qed.

(** ** Outcomes *)

Lemma ok_or_Ok {A} e (o : option A) a : ok_or e o = Ok a ↔ o = Some a.
Proof. destruct o; naive_solver. Qed.

Lemma bind_Ok {A B} (a : A) (k : A → outcome B) : (Ok a ≫= k) = k a.
Proof. done. Qed.

Lemma outcome_map_Ok {A B} (f : A → B) a : outcome_map f (Ok a) = Ok (f a).
Proof. done. Qed.

Lemma outcome_bind_Ok {A B} (m : outcome A) (k : A → outcome B) b :
  (m ≫= k) = Ok b ↔ ∃ a, m = Ok a ∧ k a = Ok b.
Proof. destruct m; simpl; naive_solver. Qed.

Lemma bind_no_panic {A B} (o : outcome A) (k : A → outcome B) :
  o ≠ Panic → (∀ a, o = Ok a → k a ≠ Panic) → (o ≫= k) ≠ Panic.
Proof. destruct o; simpl; auto. Qed.

Lemma bind_no_err {A B} (m : outcome A) (k : A → outcome B) e :
  m ≠ Err e → (∀ a, k a ≠ Err e) → (m ≫= k) ≠ Err e.
Proof. intros Hm Hk. destruct m; simpl; congruence || done. Qed.

Lemma add_u64_no_err a b e : add_u64 a b ≠ Err e.
Proof. unfold add_u64. by destruct (_ <=? _). Qed.

Lemma div_u64_Ok a b : b ≠ 0 → div_u64 a b = Ok (a / b).
Proof. intros. unfold div_u64. by rewrite (proj2 (Z.eqb_neq _ _)). Qed.

Lemma add_u64_Ok a b : a + b <= u64_max → add_u64 a b = Ok (a + b).
Proof. intros. unfold add_u64. by rewrite (proj2 (Z.leb_le _ _)). Qed.

Lemma index_range_Ok {A} (l : list A) a b :
  0 <= a <= b → b <= zlen l → ∃ s, index_range l a b = Ok s ∧ get_range l a b = Some s.
Proof.
  intros. unfold index_range. destruct (get_range l a b) eqn:E; [eauto|].
  apply get_range_None in E. lia.
Qed.

(** Split the binds of an outcome known to be [Ok]. *)
Ltac inv_ok :=
  repeat match goal with
  | H : (_ ≫= _) = Ok _ |- _ => apply outcome_bind_Ok in H as (? & ? & ?)
  | H : mret _ = Ok _ |- _ => injection H as ?
  | H : Ok _ = Ok _ |- _ => injection H as ?
  | H : Err _ = Ok _ |- _ => discriminate H
  | H : Panic = Ok _ |- _ => discriminate H
  | H : ok_or _ _ = Ok _ |- _ => apply ok_or_Ok in H
  | H : (let '(_, _) := ?p in _) = _ |- _ => destruct p eqn:?
  | H : (if ?b then _ else _) = Ok _ |- _ => destruct b eqn:?
  | H : match ?o with Some _ => _ | None => _ end = Ok _ |- _ => destruct o eqn:?
  end; simplify_eq.

Lemma foldM_no_panic {A S} (body : A → S → outcome S) l s :
  (∀ x s, x ∈ l → body x s ≠ Panic) → foldM body l s ≠ Panic.
Proof.
  revert s. induction l as [|x l IH]; intros s Hb; simpl; [done|].
  pose proof (Hb x s ltac:(set_solver)). destruct (body x s); simpl; [|done|done].
  apply IH. set_solver.
Qed.

Lemma foldM_app {A S} (body : A → S → outcome S) l k s :
  foldM body (l ++ k) s = foldM body l s ≫= foldM body k.
Proof.
  revert s. induction l as [|x l IH]; intros s; simpl; [done|].
  destruct (body x s); simpl; auto.
Qed.

(** A loop whose turns all return is a fold. *)
Lemma foldM_pure {A S} (body : A → S → outcome S) (g : S → A → S) l s :
  (∀ x s, x ∈ l → body x s = Ok (g s x)) → foldM body l s = Ok (fold_left g l s).
Proof.
  revert s. induction l as [|x l IH]; intros s Hb; simpl; [done|].
  rewrite Hb by set_solver. simpl. apply IH. set_solver.
Qed.

(** ** Operations equal at every state *)

Lemma M_bind_ext {R A B} (m m' : M R A) (k k' : A → M R B) r :
  m r = m' r → (∀ a r', k a r' = k' a r') → (m ≫= k) r = (m' ≫= k') r.
Proof.
  intros Hm Hk. cbv [mbind M_bind]. rewrite Hm. destruct (m' r) as [[] ?]; auto.
Qed.

Lemma M_bind_assoc {R A B C} (m : M R A) (k : A → M R B) (k' : B → M R C) r :
  ((m ≫= k) ≫= k') r = (m ≫= λ a, k a ≫= k') r.
Proof. cbv [mbind M_bind]. by destruct (m r) as [[] ?]. Qed.

Lemma foldM_ext {R A S} (f g : A → S → M R S) l s r :
  (∀ x s r, f x s r = g x s r) → foldM f l s r = foldM g l s r.
Proof.
  intros Hf. revert s r. induction l as [|x l IH]; intros s r; simpl; [done|].
  apply M_bind_ext; auto.
Qed.

(** The same, while a property of the state is kept. *)
Lemma foldM_ext_inv {R A S} (P : S → Prop) (f g : A → S → M R S) l s r :
  (∀ x s r, P s → f x s r = g x s r) →
  (∀ x s r s' r', P s → g x s r = (Ok s', r') → P s') →
  P s → foldM f l s r = foldM g l s r.
Proof.
  intros Hf Hg. revert s r. induction l as [|x l IH]; intros s r Hs; [done|]. cbn [foldM].
  cbv [mbind M_bind]. rewrite (Hf x s r Hs). destruct (g x s r) as [[s'|e|] r'] eqn:E; [|done..].
  apply IH. by eapply Hg.
Qed.

Lemma foldM_inv {R A S} (P : S → Prop) (g : A → S → M R S) l s r s' r' :
  (∀ x s r s' r', P s → g x s r = (Ok s', r') → P s') →
  P s → foldM g l s r = (Ok s', r') → P s'.
Proof.
  intros Hg. revert s r. induction l as [|x l IH]; intros s r Hs; cbn [foldM]; [by intros [= -> _]|].
  cbv [mbind M_bind]. destruct (g x s r) as [[s1|e|] r1] eqn:E; [|done..]. apply IH. by eapply Hg.
Qed.

Lemma eval_ext {R A} (m m' : M R A) r : m r = m' r → eval m r = eval m' r.
Proof. unfold eval. by intros ->. Qed.

(** ** [eval] *)
Lemma eval_pair {R A} (m : M R A) r o r' : m r = (o, r') → eval m r = o.
Proof. unfold eval. by intros ->. Qed.

Section stable.
Context {R : Type} `{LawfulReader R}.

Lemma eval_proper {A} (m : M R A) : Stable m → Proper (same_source ==> eq) (eval m).
Proof. intros Hm r r'. apply stable_value. Qed.

Lemma Stable_ret {A} (a : A) : Stable (mret (M := M R) a).
Proof. split; [done|]. intros r. done. Qed.

Lemma Stable_lift {A} (o : outcome A) : Stable (lift (R := R) o).
Proof. split; [done|]. intros r. done. Qed.

Lemma Stable_throw {A} e : Stable (throw (R := R) (A := A) e).
Proof. apply Stable_lift. Qed.

Lemma eval_bind {A B} (m : M R A) (k : A → M R B) r :
  Stable m → (∀ a, Stable (k a)) → eval (m ≫= k) r = eval m r ≫= λ a, eval (k a) r.
Proof.
  intros Hm Hk. pose proof (stable_keeps (m := m) r) as Hr. unfold eval in *.
  cbv [mbind M_bind outcome_bind]. destruct (m r) as [[a|e|] r'] eqn:E; try done.
  by apply (stable_value (m := k a)).
Qed.

Lemma Stable_bind {A B} (m : M R A) (k : A → M R B) :
  Stable m → (∀ a, Stable (k a)) → Stable (m ≫= k).
Proof.
  intros Hm Hk. split.
  - intros r r' Hr. rewrite !eval_bind by done. rewrite (stable_value (m := m) r r' Hr).
    destruct (eval m r'); simpl; try done. by apply stable_value.
  - intros r. pose proof (stable_keeps (m := m) r) as Hr.
    cbv [mbind M_bind]. destruct (m r) as [[a|e|] r'] eqn:E; try done.
    etrans; [apply (stable_keeps (m := k a))|done].
Qed.

Lemma Stable_read_at off n : Stable (read_at (R := R) off n).
Proof.
  assert (Hv : ∀ r, read_at off n r =
    match rs_seek off r with
    | (inl e, r') => (Err (Io e), r')
    | (inr _, r') => io (rs_read_exact n) r'
    end).
  { intros r. unfold read_at, seek, read_exact, io. cbv [mbind M_bind].
    by destruct (rs_seek off r) as [[e|[]] r']. }
  split.
  - intros r r' Hr. unfold eval. rewrite !Hv.
    pose proof (seek_value off r r' Hr). pose proof (read_value off n r r' Hr) as Hrd.
    destruct (rs_seek off r) as [[e|[]] r1], (rs_seek off r') as [[e'|[]] r1'];
      simplify_eq/=; try done.
    unfold io. by destruct (rs_read_exact n r1) as [[]], (rs_read_exact n r1') as [[]]; simplify_eq/=.
  - intros r. rewrite Hv. pose proof (seek_keeps off r) as Hs.
    destruct (rs_seek off r) as [[e|[]] r1]; simpl in *; [done|]. unfold io.
    pose proof (read_keeps n r1) as Hk.
    destruct (rs_read_exact n r1) as [[] r2]; simpl in *; by etrans.
Qed.

Lemma Stable_read_at_eof off n : Stable (read_at_eof (R := R) off n).
Proof.
  assert (Hv : ∀ r, read_at_eof off n r =
    match rs_seek off r with
    | (inl e, r') => (Err (Io e), r')
    | (inr _, r') => read_exact_eof n r'
    end).
  { intros r. unfold read_at_eof, seek, io. cbv [mbind M_bind].
    by destruct (rs_seek off r) as [[e|[]] r']. }
  split.
  - intros r r' Hr. unfold eval. rewrite !Hv.
    pose proof (seek_value off r r' Hr). pose proof (read_value off n r r' Hr) as Hrd.
    destruct (rs_seek off r) as [[e|[]] r1], (rs_seek off r') as [[e'|[]] r1'];
      simplify_eq/=; try done.
    unfold read_exact_eof.
    destruct (rs_read_exact n r1) as [[]], (rs_read_exact n r1') as [[]]; simplify_eq/=; by repeat case_match.
  - intros r. rewrite Hv. pose proof (seek_keeps off r) as Hs.
    destruct (rs_seek off r) as [[e|[]] r1]; simpl in *; [done|]. unfold read_exact_eof.
    pose proof (read_keeps n r1) as Hk.
    destruct (rs_read_exact n r1) as [[e|] r2]; simpl in *; [destruct (kind e)|]; simpl; by etrans.
Qed.

Lemma Stable_foldM {A S} (body : A → S → M R S) l s :
  (∀ x s, Stable (body x s)) → Stable (foldM body l s).
Proof.
  intros Hb. revert s. induction l as [|x l IH]; intros s; simpl; [apply Stable_ret|].
  apply Stable_bind; auto.
Qed.

(** A fold over the source is the fold of the values. *)
Lemma eval_foldM {A S} (body : A → S → M R S) l s r :
  (∀ x s, Stable (body x s)) →
  eval (foldM body l s) r = foldM (λ x s, eval (body x s) r) l s.
Proof.
  intros Hb. revert s. induction l as [|x l IH]; intros s; simpl; [done|].
  rewrite eval_bind by (auto using Stable_foldM).
  destruct (eval (body x s) r); simpl; auto.
Qed.

Lemma eval_ret {A} (a : A) r : eval (mret (M := M R) a) r = Ok a.
Proof. done. Qed.
Lemma eval_lift {A} (o : outcome A) r : eval (lift (R := R) o) r = o.
Proof. done. Qed.
Lemma eval_throw {A} e r : eval (throw (R := R) (A := A) e) r = Err e.
Proof. done. Qed.

(** A read of a block gives a block of that length. *)
Lemma read_at_length off n r buf : 0 <= n → eval (read_at (R := R) off n) r = Ok buf → zlen buf = n.
Proof.
  unfold eval, read_at, seek, read_exact, io. cbv [mbind M_bind].
  destruct (rs_seek off r) as [[e|[]] r1]; [done|]. intros Hn.
  pose proof (read_length n r1) as Hl. destruct (rs_read_exact n r1) as [[e|b] r2]; simpl in *; [done|].
  intros [= <-]. by apply Hl.
Qed.

Lemma read_at_eof_no_panic off n r : eval (read_at_eof (R := R) off n) r ≠ Panic.
Proof.
  unfold eval, read_at_eof, seek, read_exact_eof, io. cbv [mbind M_bind].
  destruct (rs_seek off r) as [[e|[]] r1]; [done|].
  destruct (rs_read_exact n r1) as [[e|b] r2]; [by destruct (kind e)|done].
Qed.

(** The two reads of a block agree on what is there. *)
Lemma read_at_eof_Some off n r buf :
  eval (read_at_eof (R := R) off n) r = Ok (Some buf) ↔ eval (read_at off n) r = Ok buf.
Proof.
  unfold eval, read_at_eof, read_at, seek, read_exact, read_exact_eof, io. cbv [mbind M_bind].
  destruct (rs_seek off r) as [[e|[]] r1]; [done|].
  destruct (rs_read_exact n r1) as [[e|b] r2]; [by destruct (kind e)|]. simpl. naive_solver.
Qed.

(** A slice in bounds is filled by the read of its length. *)
Lemma read_slice_Ok off window r : read_slice (R := R) off (Ok window) r = read_at off (zlen window) r.
Proof. unfold read_slice, read_at. cbv [mbind M_bind]. by destruct (seek off r) as [[a|e|] r']. Qed.

(** A slice that cannot be taken is never read into. *)
Lemma read_slice_bad off slice r buf : eval (read_slice (R := R) off slice) r = Ok buf → ∃ window, slice = Ok window.
Proof.
  destruct slice as [window|e|]; [by eexists|..]; unfold eval, read_slice; cbv [mbind M_bind];
    by destruct (seek off r) as [[a|e'|] r'].
Qed.

Lemma Stable_read_slice off slice : Stable (read_slice (R := R) off slice).
Proof.
  assert (Hk : ∀ r, same_source (seek off r).2 r).
  { intros r. unfold seek, io. pose proof (seek_keeps off r). by destruct (rs_seek off r) as [[e|[]] r']. }
  destruct slice as [window|e|].
  - destruct (Stable_read_at off (zlen window)) as [Hv Hs]. split.
    + intros r r' Hr. unfold eval. rewrite !read_slice_Ok. by apply Hv.
    + intros r. rewrite read_slice_Ok. apply Hs.
  - split.
    + intros r r' Hr. unfold eval, read_slice, seek, io. cbv [mbind M_bind]. pose proof (seek_value off r r' Hr).
      by destruct (rs_seek off r) as [[?|[]] ?], (rs_seek off r') as [[?|[]] ?]; simplify_eq/=.
    + intros r. unfold read_slice. cbv [mbind M_bind]. specialize (Hk r). by destruct (seek off r) as [[a|e'|] r'].
  - split.
    + intros r r' Hr. unfold eval, read_slice, seek, io. cbv [mbind M_bind]. pose proof (seek_value off r r' Hr).
      by destruct (rs_seek off r) as [[?|[]] ?], (rs_seek off r') as [[?|[]] ?]; simplify_eq/=.
    + intros r. unfold read_slice. cbv [mbind M_bind]. specialize (Hk r). by destruct (seek off r) as [[a|e'|] r'].
Qed.

(** A read never panics. *)
Lemma read_at_no_panic off n r : eval (read_at (R := R) off n) r ≠ Panic.
Proof.
  unfold eval, read_at, seek, read_exact, io. cbv [mbind M_bind].
  destruct (rs_seek off r) as [[e|[]] r1]; [done|]. by destruct (rs_read_exact n r1) as [[e|b] r2].
Qed.
End stable.

#[export] Hint Resolve Stable_ret Stable_lift Stable_throw Stable_read_at Stable_read_at_eof
  Stable_read_slice Stable_bind Stable_foldM : stable.

(** ** Panic freedom

    An operation that cannot panic, whatever the source does. *)
Definition Safe {R A} (m : M R A) : Prop := ∀ r, eval m r ≠ Panic.

Create HintDb safe discriminated.
#[export] Hint Constants Opaque : safe.
#[export] Hint Variables Transparent : safe.

Section safe.
Context {R : Type} `{ReadSeek R}.

Lemma Safe_ret {A} (a : A) : Safe (mret (M := M R) a).
Proof. by intros r. Qed.

Lemma Safe_lift {A} (o : outcome A) : o ≠ Panic → Safe (lift (R := R) o).
Proof. by intros Ho r. Qed.

Lemma Safe_throw {A} e : Safe (throw (R := R) (A := A) e).
Proof. by intros r. Qed.

Lemma Safe_bind {A B} (m : M R A) (k : A → M R B) : Safe m → (∀ a, Safe (k a)) → Safe (m ≫= k).
Proof.
  intros Hm Hk r. specialize (Hm r). unfold eval in *. cbv [mbind M_bind].
  destruct (m r) as [[a|e|] r']; [apply Hk|done|done].
Qed.

Lemma Safe_foldM {A S} (body : A → S → M R S) l s : (∀ x s, Safe (body x s)) → Safe (foldM body l s).
Proof.
  intros Hb. revert s. induction l as [|x l IH]; intros s; simpl; [apply Safe_ret|]. by apply Safe_bind.
Qed.

Lemma Safe_io {A} (m : R → (io_error + A) * R) : Safe (io m).
Proof. intros r. unfold eval, io. by destruct (m r) as [[] ?]. Qed.

Lemma Safe_read_at off n : Safe (read_at (R := R) off n).
Proof. apply Safe_bind; [apply Safe_io|intros; apply Safe_io]. Qed.

Lemma Safe_read_at_eof off n : Safe (read_at_eof (R := R) off n).
Proof.
  apply Safe_bind; [apply Safe_io|]. intros _ r. unfold eval, read_exact_eof.
  destruct (rs_read_exact n r) as [[e|] ?]; [by destruct (kind e)|done].
Qed.

Lemma Safe_ext {A} (m m' : M R A) : (∀ r, m r = m' r) → Safe m → Safe m'.
Proof. intros He Hm r. rewrite <- (eval_ext _ _ _ (He r)). apply Hm. Qed.
End safe.
#[export] Hint Resolve Safe_ret Safe_throw Safe_bind Safe_foldM Safe_read_at Safe_read_at_eof : safe.

Lemma ok_or_no_panic {A} e (o : option A) : ok_or e o ≠ Panic.
Proof. by destruct o. Qed.
#[export] Hint Resolve ok_or_no_panic : safe.

(** Prove an operation safe by following its binds and branches. *)
Ltac solve_safe :=
  intros; unfold throw;
  repeat first
  [ progress intros
  | solve [eauto with safe]
  | apply Safe_bind
  | apply Safe_foldM
  | apply Safe_lift
  | match goal with
    | |- Safe (if ?b then _ else _) => destruct b
    | |- Safe (match ?x with _ => _ end) => destruct x
    | |- Safe (let '(_, _) := ?x in _) => destruct x
    end ].

(** Prove an operation stable by following its binds and branches. *)
Ltac solve_stable :=
  intros; unfold throw;
  repeat first
  [ progress intros
  | solve [eauto with stable]
  | apply Stable_bind
  | apply Stable_foldM
  | match goal with
    | |- Stable (if ?b then _ else _) => destruct b
    | |- Stable (match ?x with _ => _ end) => destruct x
    | |- Stable (let '(_, _) := ?x in _) => destruct x
    end ].

(** Push [eval] through the binds of the goal. *)
Ltac eval_step := rewrite eval_bind by solve_stable.

(** A read of the cursor: the slice of its data. *)
Lemma cursor_read_at data off n :
  eval (read_at off n) (cursor data) =
    match get_range data off (off + n) with
    | Some buf => Ok buf
    | None => Err (Io (IoError UnexpectedEof))
    end.
Proof.
  unfold eval, read_at, seek, read_exact, io. cbv [mbind M_bind]. simpl.
  unfold cursor_read_exact. simpl. by destruct (get_range _ _ _).
Qed.
