(* ===== verification/Display.v ===== *)
(** * Error messages ([src/src/lib.rs])

    The [Display] of [ApfsError], which [thiserror] derives from the format string on
    each variant: decimal fields, and hexadecimal ones padded to a width that counts the
    [0x].  The virtual file system hands these messages to its callers. *)
From stdpp Require Import pretty.
From Stdlib Require Import Ascii.
From S2P Require Import Prelude Reader.
#[local] Open Scope Z_scope.

(** ** Numbers *)

(** [{n}]. *)
Definition decimal (z : Z) : string := pretty (Z.to_N z).

(** One lower-case hexadecimal digit. *)
Definition hex_digit (d : Z) : Ascii.ascii :=
  Ascii.ascii_of_N (Z.to_N (if d <? 10 then 48 + d else 87 + d)).

(** The digits of [z], at least one and at most [fuel]. *)
Fixpoint hex_digits (fuel : nat) (z : Z) (acc : string) : string :=
  match fuel with
  | O => acc
  | S fuel' =>
      let acc := String (hex_digit (z `mod` 16)) acc in
      if z <? 16 then acc else hex_digits fuel' (z / 16) acc
  end.

Fixpoint zeros (n : nat) : string := match n with O => "" | S n' => String "0"%char (zeros n') end.

(** [{z:#0<width>x}] of a [u64], and [{z:#x}] with the width 2. *)
Definition hex (width : nat) (z : Z) : string :=
  let digits := hex_digits 16 z "" in
  "0x" +:+ zeros (width - 2 - String.length digits) +:+ digits.

(** ** Messages *)
Section display.
(** The [Display] of an I/O error, which the source's platform words. *)
Context (io_display : io_error → string).

Definition to_string (e : ApfsError) : string :=
  match e with
  | Io source => "i/o error: " +:+ io_display source
  | NoValidSuperblock checked last_magic =>
      "no valid NXSB superblock found (checked " +:+ decimal checked +:+
      " checkpoint slots; last magic seen: " +:+ hex 10 last_magic +:+ ")"
  | ChecksumMismatch block stored computed =>
      "object checksum mismatch at block " +:+ decimal block +:+ ": stored " +:+ hex 18 stored +:+
      ", computed " +:+ hex 18 computed
  | OmapUnresolved oid xid =>
      "omap could not resolve virtual oid " +:+ hex 2 oid +:+ " at xid " +:+ decimal xid
  | UnexpectedObjectType structure expected found =>
      "unexpected object type in " +:+ structure +:+ ": expected " +:+ hex 6 expected +:+
      ", found " +:+ hex 10 found
  | UnsupportedFusion =>
      "unsupported Fusion container (tier-2 device present); Fusion addressing not yet implemented"
  | UnsupportedSpacemanCab count =>
      "unsupported space-manager CAB tier (sm_cab_count = " +:+ decimal count +:+
      "); only inline CIB layout is implemented"
  | FieldOutOfRange structure field value cap =>
      "structural field out of range in " +:+ structure +:+ ": " +:+ field +:+ " = " +:+ decimal value +:+
      " (cap " +:+ decimal cap +:+ ")"
  | CycleGuard cap =>
      "tree walk exceeded depth cap " +:+ decimal cap +:+ " (possible cyclic object graph)"
  | CheckpointTreeUnsupported area =>
      "checkpoint " +:+ area +:+ " area is tree-backed; B-tree resolution not yet implemented"
  | SnapshotNotFound xid =>
      "no snapshot with transaction id " +:+ decimal xid +:+ " (and it is not the live volume's xid)"
  | Decmpfs why => "decmpfs decode failure: " +:+ why
  end.
End display.

(** ** Lemmas *)

(** What a list of digits stands for: the inverse of [hex_digits]. *)
Definition digit_value (c : Ascii.ascii) : Z :=
  let n := Z.of_N (Ascii.N_of_ascii c) in if n <? 58 then n - 48 else n - 87.

Fixpoint hex_value (acc : Z) (s : string) : Z :=
  match s with
  | EmptyString => acc
  | String c s' => hex_value (16 * acc + digit_value c) s'
  end.

Lemma digit_value_hex_digit d : 0 <= d < 16 → digit_value (hex_digit d) = d.
Proof.
  intros Hd. assert (Hall : Forall (λ n, digit_value (hex_digit (Z.of_nat n)) = Z.of_nat n) (seq 0 16))
    by (repeat constructor; by vm_compute).
  rewrite Forall_forall in Hall. specialize (Hall (Z.to_nat d)). rewrite Z2Nat.id in Hall by lia.
  apply Hall, elem_of_seq. lia.
Qed.

Lemma hex_digits_value fuel z s : 0 <= z < 16 ^ Z.of_nat fuel → (0 < fuel)%nat →
  ∃ n, hex_value 0 (hex_digits fuel z s) = hex_value z s ∧
    String.length (hex_digits fuel z s) = (n + String.length s)%nat ∧ (0 < n ≤ fuel)%nat.
Proof.
  revert z s. induction fuel as [|fuel IH]; intros z s Hz Hf; [lia|]. cbn [hex_digits].
  pose proof (Z.mod_pos_bound z 16 ltac:(lia)) as Hm.
  destruct (Z.ltb_spec z 16) as [Hlt|Hge].
  - exists 1%nat. cbn [hex_value String.length]. rewrite digit_value_hex_digit, Z.mod_small by lia.
    split_and!; [f_equal; lia|lia|lia|lia].
  - assert (Hz' : 0 <= z / 16 < 16 ^ Z.of_nat fuel).
    { split; [apply Z.div_pos; lia|]. apply Z.div_lt_upper_bound; [lia|].
      rewrite Nat2Z.inj_succ, Z.pow_succ_r in Hz by lia. lia. }
    assert (0 < fuel)%nat by (destruct fuel; [cbn in Hz'; lia|lia]).
    destruct (IH (z / 16) (String (hex_digit (z `mod` 16)) s) Hz' ltac:(lia)) as (n & E1 & E2 & Hn).
    exists (S n). rewrite E1, E2. cbn [hex_value String.length]. rewrite digit_value_hex_digit by lia.
    split_and!; [f_equal; pose proof (Z.div_mod z 16); lia|lia|lia|lia].
Qed.

Lemma hex_value_zeros n s : hex_value 0 (zeros n +:+ s) = hex_value 0 s.
Proof. induction n as [|n IH]; [done|exact IH]. Qed.

(** The hexadecimal text of a [u64] is its value, whatever the width. *)
Lemma hex_reads_back width z : in_u64 z →
  ∃ digits, hex width z = "0x" +:+ digits ∧ hex_value 0 digits = z.
Proof.
  intros Hz. unfold hex. eexists. split; [done|]. rewrite hex_value_zeros.
  destruct (hex_digits_value 16 z "") as (n & E & _ & _); [exact Hz|lia|]. by rewrite E.
Qed.

#[export] Instance decimal_inj_on : Inj (=) (=) (λ n : N, decimal (Z.of_N n)).
Proof. intros n m. unfold decimal. rewrite !N2Z.id. apply (inj pretty). Qed.

Lemma hex_inj width z z' : in_u64 z → in_u64 z' → hex width z = hex width z' → z = z'.
Proof.
  intros Hz Hz' E. destruct (hex_reads_back width z Hz) as (d & Ed & <-), (hex_reads_back width z' Hz') as (d' & Ed' & <-).
  rewrite Ed, Ed' in E. by apply (inj (String.append "0x")) in E as ->.
Qed.

(** ** A message says which error it is *)

(** No character of the text is [c]. *)
Fixpoint lacks (c : Ascii.ascii) (s : string) : Prop :=
  match s with EmptyString => True | String a s' => a ≠ c ∧ lacks c s' end.

Lemma lacks_app c s t : lacks c (s +:+ t) ↔ lacks c s ∧ lacks c t.
Proof. induction s as [|a s IH]; simpl; [tauto|]. rewrite IH. tauto. Qed.

(** Two texts that end at the first [c] agree on what is before it and after it. *)
Lemma split_at c s s' t t' : lacks c s → lacks c s' → s +:+ String c t = s' +:+ String c t' → s = s' ∧ t = t'.
Proof.
  revert s'. induction s as [|a s IH]; intros [|a' s'] Hs Hs'; simpl in *.
  - by intros [= ->].
  - intros [= -> _]. tauto.
  - intros [= -> _]. tauto.
  - intros [= -> E]. destruct (IH s') as [-> ->]; tauto.
Qed.

(** Printed digits are neither spaces nor punctuation. *)
Definition delimiter (c : Ascii.ascii) : Prop := c = " "%char ∨ c = ":"%char ∨ c = ","%char ∨ c = ")"%char.

Lemma pretty_N_char_lacks c x : delimiter c → pretty_N_char x ≠ c.
Proof. unfold pretty_N_char, delimiter. intros [->|[->|[->| ->]]]; repeat case_match; discriminate. Qed.

Lemma decimal_lacks c z : delimiter c → lacks c (decimal z).
Proof.
  intros Hc. unfold decimal, pretty, pretty_N. case_decide.
  { simpl. split; [by apply (pretty_N_char_lacks c 0)|done]. }
  assert (Hgen : ∀ x s, lacks c s → lacks c (pretty_N_go x s)); [|by apply Hgen].
  intros x. induction (N.lt_wf_0 x) as [x _ IH]. intros s Hs.
  destruct (decide (0 < x)%N) as [Hx|Hx].
  - rewrite pretty_N_go_step by done. apply IH; [by apply N.div_lt|]. split; [by apply pretty_N_char_lacks|done].
  - replace x with 0%N by lia. by rewrite pretty_N_go_0.
Qed.

Lemma hex_digit_lacks c d : delimiter c → 0 <= d < 16 → hex_digit d ≠ c.
Proof.
  intros Hc Hd. assert (Hv : d = digit_value (hex_digit d)) by (by rewrite digit_value_hex_digit).
  intros E. rewrite E in Hv. destruct Hc as [->|[->|[->| ->]]]; vm_compute in Hv; lia.
Qed.

Lemma hex_lacks c width z : delimiter c → 0 <= z → lacks c (hex width z).
Proof.
  intros Hc Hz. unfold hex. rewrite !lacks_app. split_and!.
  - destruct Hc as [->|[->|[->| ->]]]; repeat split; discriminate.
  - induction (width - 2 - String.length _)%nat as [|n IH]; [done|]. split; [|done].
    destruct Hc as [->|[->|[->| ->]]]; discriminate.
  - assert (Hgen : ∀ fuel z s, 0 <= z → lacks c s → lacks c (hex_digits fuel z s)); [|by apply Hgen].
    clear z Hz. induction fuel as [|fuel IH]; intros z s Hz Hs; [done|]. cbn [hex_digits].
    assert (lacks c (String (hex_digit (z `mod` 16)) s)).
    { split; [apply hex_digit_lacks; [done|apply Z.mod_pos_bound; lia]|done]. }
    destruct (z <? 16); [done|]. apply IH; [apply Z.div_pos; lia|done].
Qed.

Lemma decimal_inj z z' : 0 <= z → 0 <= z' → decimal z = decimal z' → z = z'.
Proof. unfold decimal. intros Hz Hz' E%(inj pretty). lia. Qed.

(** The names an error can carry: the literals of the crate. *)
Definition structures : list string :=
  ["nx_superblock"; "apfs_superblock"; "omap_phys"; "spaceman_phys"; "integrity_meta_phys"; "j_dstream"; "j_file_extent";
   "com.apple.decmpfs j_xattr_dstream"].
Definition fields : list string :=
  ["nx_block_size"; "size"; "phys_block_num"; "sm_blocks_per_chunk/sm_chunks_per_cib"; "block"; "chunk_index"; "cib_index";
   "chunk_info_index"; "block.len"].
Definition areas : list string := ["descriptor"].

Definition named (e : ApfsError) : bool :=
  match e with
  | UnexpectedObjectType structure _ _ => bool_decide (structure ∈ structures)
  | FieldOutOfRange structure field _ _ => bool_decide (structure ∈ structures) && bool_decide (field ∈ fields)
  | CheckpointTreeUnsupported area => bool_decide (area ∈ areas)
  | _ => true
  end.

(** The integers of an error are in their Rust types. *)
Definition fits (e : ApfsError) : Prop :=
  match e with
  | NoValidSuperblock checked last_magic => in_u64 checked ∧ in_u32 last_magic
  | ChecksumMismatch block stored computed => in_u64 block ∧ in_u64 stored ∧ in_u64 computed
  | OmapUnresolved oid xid => in_u64 oid ∧ in_u64 xid
  | UnexpectedObjectType _ expected found => in_u32 expected ∧ in_u32 found
  | UnsupportedSpacemanCab count => in_u64 count
  | FieldOutOfRange _ _ value cap => in_u64 value ∧ in_u64 cap
  | CycleGuard cap => in_u64 cap
  | SnapshotNotFound xid => in_u64 xid
  | Io _ | UnsupportedFusion | CheckpointTreeUnsupported _ | Decmpfs _ => True
  end.

(** The names have no punctuation of the message. *)
Fixpoint lacksb (c : Ascii.ascii) (s : string) : bool :=
  match s with EmptyString => true | String a s' => bool_decide (a ≠ c) && lacksb c s' end.

Lemma lacksb_spec c s : lacksb c s = true → lacks c s.
Proof. induction s as [|a s IH]; simpl; [done|]. rewrite andb_true_iff, bool_decide_eq_true. tauto. Qed.

Lemma names_lack c names s : forallb (lacksb c) names = true → bool_decide (s ∈ names) = true → lacks c s.
Proof.
  rewrite forallb_forall, bool_decide_eq_true. intros Hall Hs. apply lacksb_spec, Hall. by apply list_elem_of_In.
Qed.

Lemma structure_lacks s : bool_decide (s ∈ structures) = true → lacks ":" s.
Proof. by apply names_lack. Qed.
Lemma field_lacks s : bool_decide (s ∈ fields) = true → lacks " " s.
Proof. by apply names_lack. Qed.
Lemma area_lacks s : bool_decide (s ∈ areas) = true → lacks " " s.
Proof. by apply names_lack. Qed.

(** A field and the text after it, which begins with a delimiter. *)
Lemma split_field c sep s s' t t' : lacks c s → lacks c s' →
  s +:+ String c sep +:+ t = s' +:+ String c sep +:+ t' → s = s' ∧ t = t'.
Proof. intros Hs Hs' [-> E]%split_at; [|done..]. by apply (inj (String.append sep)) in E. Qed.

Lemma decimal_field c sep z z' t t' : delimiter c → in_u64 z → in_u64 z' →
  decimal z +:+ String c sep +:+ t = decimal z' +:+ String c sep +:+ t' → z = z' ∧ t = t'.
Proof.
  intros Hc [] [] [E ->]%split_field; [|by apply decimal_lacks..]. split; [|done]. by apply decimal_inj in E.
Qed.

Lemma hex_field width c sep z z' t t' : delimiter c → in_u64 z → in_u64 z' →
  hex width z +:+ String c sep +:+ t = hex width z' +:+ String c sep +:+ t' → z = z' ∧ t = t'.
Proof.
  intros Hc Hz Hz' [E ->]%split_field; [|apply hex_lacks; [done|apply Hz || apply Hz']..].
  split; [|done]. by apply hex_inj in E.
Qed.

(** The same for the last field. *)
Lemma decimal_last c sep z z' : delimiter c → in_u64 z → in_u64 z' →
  decimal z +:+ String c sep = decimal z' +:+ String c sep → z = z'.
Proof. intros Hc [] [] [E _]%split_at; [by apply decimal_inj in E|by apply decimal_lacks..]. Qed.

Lemma hex_last width c sep z z' : delimiter c → in_u64 z → in_u64 z' →
  hex width z +:+ String c sep = hex width z' +:+ String c sep → z = z'.
Proof. intros Hc Hz Hz' [E _]%split_at; [by apply hex_inj in E|apply hex_lacks; [done|apply Hz || apply Hz']..]. Qed.

Lemma in_u32_u64 z : in_u32 z → in_u64 z.
Proof. unfold in_u32, in_u64. lia. Qed.

(** What [fits] says of a field. *)
Ltac bounded := first [tauto | apply in_u32_u64; tauto].

Ltac peel E :=
  repeat match type of E with
  | ?s +:+ _ = ?s +:+ _ => apply (inj (String.append s)) in E
  end.

(** Errors with the same text are the same error, or are both of the source. *)
Lemma to_string_inj io_display e e' :
  fits e → fits e' → named e = true → named e' = true → to_string io_display e = to_string io_display e' →
  e = e' ∨ ∃ source source', e = Io source ∧ e' = Io source' ∧ io_display source = io_display source'.
Proof.
  assert (Hsp : delimiter " "%char) by (by left). assert (Hcol : delimiter ":"%char) by (right; by left).
  assert (Hcom : delimiter ","%char) by (right; right; by left). assert (Hpar : delimiter ")"%char) by (by repeat right).
  intros He He' Hn Hn' E. destruct e, e'; simpl in He, He', Hn, Hn'; unfold to_string in E; try discriminate E; peel E;
    [right; by repeat eexists|left..].
  - apply (decimal_field " ") in E as [-> E]; [|tauto..]. apply (hex_last 10 ")") in E as ->; [done|bounded..].
  - apply (decimal_field ":") in E as [-> E]; [|tauto..]. apply (hex_field 18 ",") in E as [-> E]; [|tauto..].
    apply hex_inj in E as ->; tauto.
  - apply (hex_field 2 " ") in E as [-> E]; [|tauto..]. by apply decimal_inj in E as ->; [|apply He|apply He'].
  - apply (split_field ":") in E as [-> E]; [|by apply structure_lacks..]. peel E.
    apply (hex_field 6 ",") in E as [-> E]; [|bounded..]. apply hex_inj in E as ->; bounded.
  - done.
  - apply (decimal_last ")") in E as ->; done.
  - apply andb_true_iff in Hn as [Hn1 Hn2], Hn' as [Hn1' Hn2'].
    apply (split_field ":") in E as [-> E]; [|by apply structure_lacks..]. peel E.
    apply (split_field " ") in E as [-> E]; [|by apply field_lacks..].
    apply (decimal_field " ") in E as [-> E]; [|tauto..]. apply (decimal_last ")") in E as ->; tauto.
  - apply (decimal_last " ") in E as ->; done.
  - apply (split_at " ") in E as [-> _]; [done|by apply area_lacks..].
  - apply (decimal_last " ") in E as ->; done.
  - by subst.
Qed.
