(* ===== verification/Object.v ===== *)
(** * Object headers and the Fletcher-64 checksum ([src/src/object.rs])

    [ObjPhys.parse] reads the 32-byte header every object starts with.
    [fletcher64_checksum] is the checksum over a block whose first eight bytes count
    as zero.  The theorems give the checksum in closed form, its range, and what it
    detects; [seal] is a block with its checksum written in. *)
From S2P Require Import Prelude Bytes.

Definition OBJ_PHYS_LEN : Z := 32.

Definition fletcher64_stored (block : bytes) : Z := le_u64 block 0.

Module ObjPhys.
Record t := mk {
  cksum : Z;
  oid : Z;
  xid : Z;
  obj_type_raw : Z;
  subtype : Z;
}.

Definition parse (block : bytes) : option t :=
  if zlen block <? OBJ_PHYS_LEN then None
  else Some {|
    cksum := le_u64 block 0;
    oid := le_u64 block 8;
    xid := le_u64 block 16;
    obj_type_raw := le_u32 block 24;
    subtype := le_u32 block 28;
  |}.

Definition obj_type (h : t) : Z := Z.land (obj_type_raw h) 0xffff.
End ObjPhys.

(** ** Fletcher-64 *)

Definition MOD : Z := 0xffffffff.

(** [block.chunks_exact(4)], each chunk read as a little-endian [u32]. *)
Fixpoint words (block : bytes) : list Z :=
  match block with
  | b0 :: b1 :: b2 :: b3 :: rest => from_le_bytes [b0; b1; b2; b3] :: words rest
  | _ => []
  end.

(** The loop: [i] enumerates the words, the first two count as zero. *)
Fixpoint fletcher_loop (i : Z) (ws : list Z) (sum_lo sum_hi : Z) : Z * Z :=
  match ws with
  | [] => (sum_lo, sum_hi)
  | w :: ws' =>
      let v := if i <? 2 then 0 else w in
      let sum_lo := (sum_lo + v) `mod` MOD in
      let sum_hi := (sum_hi + sum_lo) `mod` MOD in
      fletcher_loop (i + 1) ws' sum_lo sum_hi
  end.

Definition fletcher64_checksum (block : bytes) : Z :=
  let '(sum_lo, sum_hi) := fletcher_loop 0 (words block) 0 0 in
  let check_lo := MOD - (sum_lo + sum_hi) `mod` MOD in
  let check_hi := MOD - (sum_lo + check_lo) `mod` MOD in
  Z.lor (Z.shiftl check_hi 32) check_lo.

(** The gate every parser and walker applies before it trusts a block. *)
Definition cksum_ok (block : bytes) : bool :=
  fletcher64_stored block =? fletcher64_checksum block.

(** A block with its checksum written into its first eight bytes. *)
Definition seal (block : bytes) : bytes :=
  to_le_bytes 8 (fletcher64_checksum block) ++ drop 8 block.

(** ** Reference: the sums as polynomials *)

(** [Σ w] and [Σ (n - i) w_i] over the words after the checksum field. *)
Fixpoint word_sum (ws : list Z) : Z :=
  match ws with [] => 0 | w :: ws' => w + word_sum ws' end.
Fixpoint weighted_sum (ws : list Z) : Z :=
  match ws with [] => 0 | w :: ws' => zlen ws * w + weighted_sum ws' end.

Definition body_words (block : bytes) : list Z := drop 2 (words block).

(** ** The header *)

Lemma obj_phys_parse_None block : ObjPhys.parse block = None ↔ zlen block < 32.
Proof. unfold ObjPhys.parse, OBJ_PHYS_LEN. split_if; naive_solver lia. Qed.

Lemma obj_phys_parse_Some block h : ObjPhys.parse block = Some h →
  32 <= zlen block ∧ ObjPhys.oid h = le_u64 block 8 ∧ ObjPhys.xid h = le_u64 block 16
  ∧ ObjPhys.obj_type_raw h = le_u32 block 24.
Proof. unfold ObjPhys.parse, OBJ_PHYS_LEN. split_if; [done|]. by intros [= <-]. Qed.

Lemma obj_type_range h : 0 <= ObjPhys.obj_type h < 2 ^ 16.
Proof. unfold ObjPhys.obj_type. change 0xffff with (Z.ones 16). rewrite Z.land_ones by lia. by apply Z.mod_pos_bound. Qed.

(** ** The loop in closed form *)

Lemma mod_congr a b m k : a = b + k * m → a `mod` m = b `mod` m.
Proof. intros ->. apply Z_mod_plus_full. Qed.

Lemma mod_eq_iff a b m : m ≠ 0 → a `mod` m = b `mod` m ↔ ∃ q, a = b + q * m.
Proof.
  intros Hm. split; [|by intros [q ->%mod_congr]].
  rewrite !Z.mod_eq by done. intros E. exists (a / m - b / m). lia.
Qed.

Lemma mod_add_cancel a b c m :
  0 <= a < m → 0 <= b < m → (a + c) `mod` m = (b + c) `mod` m → a = b.
Proof.
  intros Ha Hb E. rewrite !Z.mod_eq in E by lia.
  assert (a - b = m * ((a + c) / m - (b + c) / m)) by lia.
  assert ((a + c) / m - (b + c) / m = 0) by nia. lia.
Qed.

(** Disjoint halves: the bitwise or is a sum. *)
Lemma or_is_add a b : 0 <= a < 2 ^ 32 → 0 <= b → Z.lor a (b * 2 ^ 32) = a + b * 2 ^ 32.
Proof.
  intros Ha Hb. rewrite <- Z.shiftl_mul_pow2 by lia.
  rewrite <- Z.add_lor_land. replace (Z.land _ _) with 0; [lia|].
  symmetry. apply Z.bits_inj'. intros n Hn. rewrite Z.land_spec, Z.bits_0.
  destruct (decide (n < 32)).
  - rewrite Z.shiftl_spec_low by lia. apply andb_false_r.
  - by rewrite <- (Z.mod_small a (2 ^ 32)), Z.mod_pow2_bits_high by lia.
Qed.

Lemma fletcher_loop_range i ws lo hi lo' hi' :
  0 <= lo < MOD → 0 <= hi < MOD → fletcher_loop i ws lo hi = (lo', hi') →
  0 <= lo' < MOD ∧ 0 <= hi' < MOD.
Proof.
  revert i lo hi. induction ws as [|w ws IH]; intros i lo hi Hlo Hhi; simpl; [naive_solver|].
  apply IH; apply Z.mod_pos_bound; done.
Qed.

Lemma fletcher_loop_sums i ws lo hi lo' hi' :
  2 <= i → fletcher_loop i ws lo hi = (lo', hi') →
  lo' `mod` MOD = (lo + word_sum ws) `mod` MOD ∧
  hi' `mod` MOD = (hi + zlen ws * lo + weighted_sum ws) `mod` MOD.
Proof.
  revert i lo hi. induction ws as [|w ws IH]; intros i lo hi Hi; cbn [fletcher_loop word_sum weighted_sum].
  - intros [= <- <-]. change (zlen (@nil Z)) with 0. split; f_equal; lia.
  - replace (i <? 2) with false by lia. intros E.
    apply IH in E as [-> ->]; [|lia]. rewrite !zlen_cons. split.
    + rewrite Zplus_mod_idemp_l. f_equal. lia.
    + apply (mod_congr _ _ _ (- (((hi + (lo + w) `mod` MOD) / MOD)
                                 + (1 + zlen ws) * ((lo + w) / MOD)))).
      rewrite !Z.mod_eq by done. ring.
Qed.

(** The two sums of a block, whatever its checksum field holds. *)
Lemma fletcher_block_sums block lo hi :
  fletcher_loop 0 (words block) 0 0 = (lo, hi) →
  lo = word_sum (body_words block) `mod` MOD ∧ hi = weighted_sum (body_words block) `mod` MOD.
Proof.
  intros E. pose proof E as Hr. apply fletcher_loop_range in Hr as [Hlo Hhi]; [|done..].
  rewrite <- (Z.mod_small lo MOD), <- (Z.mod_small hi MOD) by done.
  unfold body_words. destruct (words block) as [|w0 [|w1 ws]]; simpl in E.
  - by injection E as <- <-.
  - by injection E as <- <-.
  - apply fletcher_loop_sums in E as [-> ->]; [|done]. rewrite Z.mul_0_r. done.
Qed.

Lemma fletcher64_closed block :
  let lo := word_sum (body_words block) `mod` MOD in
  let hi := weighted_sum (body_words block) `mod` MOD in
  let check_lo := MOD - (lo + hi) `mod` MOD in
  let check_hi := MOD - (lo + check_lo) `mod` MOD in
  fletcher64_checksum block = check_lo + 2 ^ 32 * check_hi ∧
  0 < check_lo <= MOD ∧ 0 < check_hi <= MOD.
Proof.
  cbv zeta. unfold fletcher64_checksum.
  destruct (fletcher_loop 0 (words block) 0 0) as [lo hi] eqn:E.
  apply fletcher_block_sums in E as [<- <-].
  pose proof (Z.mod_pos_bound (lo + hi) MOD ltac:(done)).
  set (clo := MOD - (lo + hi) `mod` MOD) in *.
  pose proof (Z.mod_pos_bound (lo + clo) MOD ltac:(done)).
  split; [|lia]. unfold MOD in *.
  rewrite Z.lor_comm, Z.shiftl_mul_pow2 by lia. rewrite or_is_add by lia. lia.
Qed.

(** ** Words of a block *)

Lemma words_app p l k : zlen p = 4 * Z.of_nat k → words (p ++ l) = words p ++ words l ∧ zlen (words p) = Z.of_nat k.
Proof.
  revert p. induction k as [|k IH]; intros p Hp.
  - destruct p; [done|]. rewrite zlen_cons in Hp. pose proof (zlen_nonneg p). lia.
  - destruct p as [|a [|b [|c [|d p]]]]; rewrite ?zlen_cons in Hp;
      try (pose proof (zlen_nonneg p)); unfold zlen in *; simpl in *; try lia.
    destruct (IH p) as [-> Hk]; [lia|]. split; [done|]. lia.
Qed.

Lemma words_one w : length w = 4%nat → words w = [from_le_bytes w].
Proof. by destruct w as [|a [|b [|c [|d [|]]]]]. Qed.

Lemma body_words_drop8 block block' :
  drop 8 block = drop 8 block' → 8 <= zlen block → 8 <= zlen block' →
  body_words block = body_words block'.
Proof.
  unfold body_words, zlen. intros E Hl Hl'.
  do 8 (destruct block as [|? block]; [simpl in *; lia|]).
  do 8 (destruct block' as [|? block']; [simpl in *; lia|]).
  simpl in *. rewrite !drop_0 in *. congruence.
Qed.

(** The checksum does not depend on the field it is stored in. *)
Lemma fletcher64_drop8 block block' :
  drop 8 block = drop 8 block' → 8 <= zlen block → 8 <= zlen block' →
  fletcher64_checksum block = fletcher64_checksum block'.
Proof.
  intros E Hl Hl'. rewrite (proj1 (fletcher64_closed block)), (proj1 (fletcher64_closed block')).
  by rewrite (body_words_drop8 block block').
Qed.

Lemma fletcher64_range block : in_u64 (fletcher64_checksum block).
Proof.
  destruct (fletcher64_closed block) as (-> & Hlo & Hhi). unfold MOD in *. urange.
Qed.

(** Equal checksums mean congruent sums, and conversely. *)
Lemma fletcher64_eq_iff block block' :
  fletcher64_checksum block = fletcher64_checksum block' ↔
  word_sum (body_words block) `mod` MOD = word_sum (body_words block') `mod` MOD ∧
  weighted_sum (body_words block) `mod` MOD = weighted_sum (body_words block') `mod` MOD.
Proof.
  pose proof (fletcher64_closed block) as (E & Hlo & Hhi).
  pose proof (fletcher64_closed block') as (E' & Hlo' & Hhi'). rewrite E, E'. clear E E'.
  pose proof (Z.mod_pos_bound (word_sum (body_words block)) MOD ltac:(done)).
  pose proof (Z.mod_pos_bound (word_sum (body_words block')) MOD ltac:(done)).
  pose proof (Z.mod_pos_bound (weighted_sum (body_words block)) MOD ltac:(done)).
  pose proof (Z.mod_pos_bound (weighted_sum (body_words block')) MOD ltac:(done)).
  set (lo := word_sum _ `mod` _) in *. set (lo' := word_sum (body_words block') `mod` _) in *.
  set (hi := weighted_sum _ `mod` _) in *. set (hi' := weighted_sum (body_words block') `mod` _) in *.
  split; [|by intros [-> ->]]. unfold MOD in *. intros E.
  assert ((lo + hi) `mod` 4294967295 = (lo' + hi') `mod` 4294967295) as E1 by lia.
  rewrite E1 in *. set (clo := 4294967295 - (lo' + hi') `mod` 4294967295) in *.
  assert ((lo + clo) `mod` 4294967295 = (lo' + clo) `mod` 4294967295) as E2 by lia.
  clearbody lo lo' hi hi' clo. clear E Hhi Hhi' Hlo Hlo'.
  assert (lo = lo') as -> by (apply (mod_add_cancel _ _ clo 4294967295); lia).
  split; [done|]. rewrite !(Z.add_comm lo') in E1.
  by apply (mod_add_cancel _ _ lo' 4294967295) in E1.
Qed.

(** Changing one body word changes both sums by the difference. *)
Lemma sums_replace p w l :
  word_sum (p ++ w :: l) = word_sum (p ++ l) + w ∧
  weighted_sum (p ++ w :: l) = weighted_sum (p ++ 0 :: l) + (1 + zlen l) * w.
Proof.
  induction p as [|x p [IH1 IH2]]; cbn [app word_sum weighted_sum]; [rewrite !zlen_cons; split; ring|].
  rewrite IH1, IH2. rewrite !zlen_cons, !zlen_app, !zlen_cons. split; ring.
Qed.

Lemma body_words_split pre w post k :
  zlen pre = 4 * Z.of_nat k → (2 ≤ k)%nat → length w = 4%nat →
  body_words (pre ++ w ++ post) = drop 2 (words pre) ++ from_le_bytes w :: words post.
Proof.
  intros Hp Hk Hw. unfold body_words.
  destruct (words_app pre (w ++ post) k Hp) as [-> Hl].
  destruct (words_app w post 1) as [-> _]; [unfold zlen; lia|].
  rewrite (words_one w) by done. rewrite drop_app_le by (unfold zlen in Hl; lia). done.
Qed.

Lemma word_range w : length w = 4%nat → 0 <= from_le_bytes w <= MOD.
Proof.
  intros Hw. pose proof (from_le_bytes_range w) as Hr. unfold zlen in Hr. rewrite Hw in Hr.
  unfold MOD. simpl in Hr. lia.
Qed.

Lemma fletcher64_word_iff pre w w' post k :
  zlen pre = 4 * Z.of_nat k → (2 ≤ k)%nat → length w = 4%nat → length w' = 4%nat →
  fletcher64_checksum (pre ++ w ++ post) = fletcher64_checksum (pre ++ w' ++ post) ↔
  from_le_bytes w `mod` MOD = from_le_bytes w' `mod` MOD.
Proof.
  intros Hp Hk Hw Hw'. rewrite fletcher64_eq_iff.
  rewrite (body_words_split pre w post k), (body_words_split pre w' post k) by done.
  destruct (sums_replace (drop 2 (words pre)) (from_le_bytes w) (words post)) as [-> ->].
  destruct (sums_replace (drop 2 (words pre)) (from_le_bytes w') (words post)) as [-> ->].
  rewrite !mod_eq_iff by done. split.
  - intros [[q E] _]. exists q. lia.
  - intros [q ->]. split; [exists q|exists ((1 + zlen (words post)) * q)]; ring.
Qed.

Lemma sums_append l a b :
  word_sum (l ++ [a; b]) = word_sum l + a + b ∧
  weighted_sum (l ++ [a; b]) = weighted_sum l + 2 * word_sum l + 2 * a + b.
Proof.
  induction l as [|x l [IH1 IH2]]; cbn [app word_sum weighted_sum].
  - rewrite !zlen_cons. change (zlen (@nil Z)) with 0. split; ring.
  - rewrite IH1, IH2, !zlen_cons, zlen_app, !zlen_cons. change (zlen (@nil Z)) with 0. split; ring.
Qed.

(** The gate detects every corruption of one word of the body, but the exchange of all
    zeroes and all ones. *)
Lemma cksum_word_iff pre w w' post k :
  let zeros := [x00; x00; x00; x00] in let ones := [xff; xff; xff; xff] in
  zlen pre = 4 * Z.of_nat k → (2 ≤ k)%nat → length w = 4%nat → length w' = 4%nat →
  cksum_ok (pre ++ w ++ post) = true →
  cksum_ok (pre ++ w' ++ post) = true ↔
  w = w' ∨ (w = zeros ∧ w' = ones) ∨ (w = ones ∧ w' = zeros).
Proof.
  cbv zeta. intros Hp Hk Hw Hw' Hok.
  assert (Hst : fletcher64_stored (pre ++ w ++ post) = fletcher64_stored (pre ++ w' ++ post)).
  { unfold fletcher64_stored, le_u64. rewrite !le_read_app_l by lia. done. }
  unfold cksum_ok in *. apply Z.eqb_eq in Hok. rewrite Z.eqb_eq, <- Hst, Hok.
  rewrite (fletcher64_word_iff pre w w' post k) by done.
  pose proof (word_range w Hw) as Hr. pose proof (word_range w' Hw') as Hr'.
  assert (Hinj : ∀ x y, length x = 4%nat → length y = 4%nat → x = y ↔ from_le_bytes x = from_le_bytes y)
    by (intros x y Hx Hy; split; [by intros ->|apply from_le_bytes_inj; congruence]).
  rewrite !Hinj by done.
  change (from_le_bytes [x00; x00; x00; x00]) with 0.
  change (from_le_bytes [xff; xff; xff; xff]) with MOD.
  rewrite mod_eq_iff by done. unfold MOD in *. split.
  - intros [q E]. assert (q = 0 ∨ q = 1 ∨ q = -1) as [->|[->| ->]] by lia; lia.
  - intros [E|[[-> ->]|[-> ->]]]; [exists 0|exists (-1)|exists 1]; lia.
Qed.

Lemma sums_app l k :
  word_sum (l ++ k) = word_sum l + word_sum k ∧
  weighted_sum (l ++ k) = weighted_sum l + zlen k * word_sum l + weighted_sum k.
Proof.
  induction l as [|w l [IH1 IH2]]; [simpl; lia|]. cbn [app word_sum weighted_sum]. rewrite IH1, IH2.
  split; [lia|]. rewrite !zlen_cons, zlen_app. ring.
Qed.

(** A checked block passes the gate again when cut short only if the words it loses
    leave both sums as they were. *)
Lemma cksum_prefix_iff pre tail k :
  zlen pre = 4 * Z.of_nat k → (2 ≤ k)%nat → cksum_ok (pre ++ tail) = true →
  cksum_ok pre = true ↔
    word_sum (words tail) `mod` MOD = 0 ∧
    (zlen (words tail) * word_sum (body_words pre) + weighted_sum (words tail)) `mod` MOD = 0.
Proof.
  intros Hp Hk Hc. unfold cksum_ok in *. rewrite Z.eqb_eq in Hc |- *.
  assert (Hs : fletcher64_stored (pre ++ tail) = fletcher64_stored pre).
  { unfold fletcher64_stored, le_u64. rewrite le_read_app_l by lia. done. }
  rewrite Hs in Hc. rewrite Hc, (eq_comm _ (fletcher64_checksum pre)), fletcher64_eq_iff.
  destruct (words_app pre tail k Hp) as [Hw Hwl].
  assert (Hb : body_words (pre ++ tail) = body_words pre ++ words tail).
  { unfold body_words. rewrite Hw, drop_app_le; [done|]. unfold zlen in Hwl. lia. }
  rewrite Hb. destruct (sums_app (body_words pre) (words tail)) as [-> ->].
  set (s := word_sum (body_words pre)). set (t := weighted_sum (body_words pre)).
  set (a := word_sum (words tail)). set (b := zlen (words tail) * s). set (c := weighted_sum (words tail)).
  rewrite (eq_comm (s `mod` MOD)), (eq_comm (t `mod` MOD)).
  rewrite !mod_eq_iff by done. rewrite <- (Z.mod_0_l MOD) by done. rewrite !mod_eq_iff by done.
  split; intros [[q1 E1] [q2 E2]]; (split; [exists q1|exists q2]; lia).
Qed.

(** ** Properties *)

(** [fletcher64_checksum] is Fletcher-64: with [lo] and [hi] the plain and the
    weighted sum of the words after the checksum field, both halves of the result are
    in [1, 2^32 - 1], and appending the two halves to the words brings both sums to
    zero modulo 2^32 - 1. *)
Theorem fletcher64_appended_sums_vanish block :
  let check_lo := fletcher64_checksum block `mod` 2 ^ 32 in
  let check_hi := fletcher64_checksum block / 2 ^ 32 in
  let ws := body_words block ++ [check_lo; check_hi] in
  0 < check_lo <= MOD ∧ 0 < check_hi <= MOD ∧
  word_sum ws `mod` MOD = 0 ∧ weighted_sum ws `mod` MOD = 0.
Proof.
  pose proof (fletcher64_closed block) as (E & Hlo & Hhi). cbv zeta. rewrite E. clear E.
  set (lo := word_sum (body_words block) `mod` MOD) in *.
  set (hi := weighted_sum (body_words block) `mod` MOD) in *.
  set (clo := MOD - (lo + hi) `mod` MOD) in *. set (chi := MOD - (lo + clo) `mod` MOD) in *.
  replace ((clo + 2 ^ 32 * chi) `mod` 2 ^ 32) with clo
    by (rewrite Z.mul_comm, Z_mod_plus_full, Z.mod_small by (unfold MOD in *; lia); done).
  replace ((clo + 2 ^ 32 * chi) / 2 ^ 32) with chi
    by (rewrite Z.mul_comm, Z.div_add, Z.div_small by (unfold MOD in *; lia); lia).
  destruct (sums_append (body_words block) clo chi) as [-> ->].
  do 2 (split; [done|]).
  assert (Hc : ∃ q, clo = - (lo + hi) + q * MOD)
    by (exists (1 + (lo + hi) / MOD); unfold clo; rewrite Z.mod_eq by done; ring).
  assert (Hd : ∃ q, chi = - (lo + clo) + q * MOD)
    by (exists (1 + (lo + clo) / MOD); unfold chi; rewrite Z.mod_eq by done; ring).
  assert (Hl : ∃ q, word_sum (body_words block) = lo + q * MOD)
    by (exists (word_sum (body_words block) / MOD); unfold lo; rewrite Z.mod_eq by done; ring).
  assert (Hh : ∃ q, weighted_sum (body_words block) = hi + q * MOD)
    by (exists (weighted_sum (body_words block) / MOD); unfold hi; rewrite Z.mod_eq by done; ring).
  clearbody lo hi clo chi. destruct Hc as [q1 E1], Hd as [q2 E2], Hl as [q3 ->], Hh as [q4 ->].
  split; (trans (0 `mod` MOD); [apply mod_eq_iff; [done|]|done]).
  - exists (q3 + q2). lia.
  - exists (q4 + 2 * q3 + q1 + q2). lia.
Qed.

(** Writing a block's checksum into its first eight bytes makes the block pass the
    gate, and changes nothing after them. *)
Lemma seal_cksum_ok block :
  8 <= zlen block →
  cksum_ok (seal block) = true ∧ zlen (seal block) = zlen block ∧ drop 8 (seal block) = drop 8 block.
Proof.
  intros Hl. unfold seal.
  assert (Hd : drop 8 (to_le_bytes 8 (fletcher64_checksum block) ++ drop 8 block) = drop 8 block)
    by (apply drop_app_length'; by rewrite length_to_le_bytes).
  assert (Hz : zlen (to_le_bytes 8 (fletcher64_checksum block) ++ drop 8 block) = zlen block)
    by (autorewrite with bufs; lia).
  split; [|done]. unfold cksum_ok. apply Z.eqb_eq.
  rewrite (fletcher64_drop8 (_ ++ _) block) by (done || lia).
  unfold fletcher64_stored, le_u64. apply (le_read_app 8 []).
  apply fletcher64_range.
Qed.
