(* ===== verification/Container.v ===== *)
(** * The container superblock ([src/src/container.rs], [src/src/fusion.rs])

    [NxSuperblock.parse] validates a block (length, magic, checksum, in that order)
    and reads the container's geometry.  [is_fusion] is the check that refuses a
    two-device container. *)
From S2P Require Import Prelude Bytes Reader Object.

Definition NX_MAGIC : Z := 0x4253584E.
Definition NX_INCOMPAT_FUSION : Z := 0x100.
Definition NX_MINIMUM_BLOCK_SIZE : Z := 4096.
Definition NX_MAXIMUM_BLOCK_SIZE : Z := 65536.
Definition NX_MAX_FILE_SYSTEMS : Z := 100.
Definition XP_BLOCKS_TREE_FLAG : Z := 0x80000000.

Module NxSuperblock.
Definition OFF_MAGIC : Z := 32.
Definition OFF_BLOCK_SIZE : Z := 36.
Definition OFF_BLOCK_COUNT : Z := 40.
Definition OFF_INCOMPAT_FEATURES : Z := 64.
Definition OFF_UUID : Z := 72.
Definition OFF_SPACEMAN_OID : Z := 152.
Definition OFF_REAPER_OID : Z := 168.
Definition OFF_XP_DESC_BLOCKS : Z := 104.
Definition OFF_XP_DATA_BLOCKS : Z := 108.
Definition OFF_XP_DESC_BASE : Z := 112.
Definition OFF_XP_DATA_BASE : Z := 120.
Definition OFF_OMAP_OID : Z := 160.
Definition OFF_MAX_FILE_SYSTEMS : Z := 180.
Definition OFF_FS_OID : Z := 184.

Record t := mk {
  xid : Z;
  uuid : bytes;
  block_size : Z;
  block_count : Z;
  incompatible_features : Z;
  xp_desc_base : Z;
  xp_desc_blocks : Z;
  xp_data_base : Z;
  xp_data_blocks : Z;
  omap_oid : Z;
  spaceman_oid : Z;
  reaper_oid : Z;
  fs_oids : list Z;
  desc_is_tree : bool;
  data_is_tree : bool;
}.

(** The loop over [nx_fs_oid[]]: the slots that are not zero. *)
Definition read_fs_oids (block : bytes) (max_fs : Z) : list Z :=
  filter (λ oid, oid ≠ 0)
    ((λ i, le_u64 block (OFF_FS_OID + i * 8)) <$> seqZ 0 max_fs).

Definition parse (block : bytes) : outcome t :=
  if zlen block <? OFF_MAGIC + 4 then Err (NoValidSuperblock 1 0) else
  let magic := le_u32 block OFF_MAGIC in
  if negb (magic =? NX_MAGIC) then Err (NoValidSuperblock 1 magic) else
  let stored := fletcher64_stored block in
  let computed := fletcher64_checksum block in
  if negb (stored =? computed) then Err (ChecksumMismatch (le_u64 block 8) stored computed) else
  let desc_blocks_raw := le_u32 block OFF_XP_DESC_BLOCKS in
  let data_blocks_raw := le_u32 block OFF_XP_DATA_BLOCKS in
  let max_fs := Z.min (le_u32 block OFF_MAX_FILE_SYSTEMS) NX_MAX_FILE_SYSTEMS in
  Ok {|
    xid := le_u64 block 16;
    uuid := arr 16 block OFF_UUID;
    block_size := le_u32 block OFF_BLOCK_SIZE;
    block_count := le_u64 block OFF_BLOCK_COUNT;
    incompatible_features := le_u64 block OFF_INCOMPAT_FEATURES;
    xp_desc_base := le_u64 block OFF_XP_DESC_BASE;
    xp_desc_blocks := Z.ldiff desc_blocks_raw XP_BLOCKS_TREE_FLAG;
    xp_data_base := le_u64 block OFF_XP_DATA_BASE;
    xp_data_blocks := Z.ldiff data_blocks_raw XP_BLOCKS_TREE_FLAG;
    omap_oid := le_u64 block OFF_OMAP_OID;
    spaceman_oid := le_u64 block OFF_SPACEMAN_OID;
    reaper_oid := le_u64 block OFF_REAPER_OID;
    fs_oids := read_fs_oids block max_fs;
    desc_is_tree := negb (Z.land desc_blocks_raw XP_BLOCKS_TREE_FLAG =? 0);
    data_is_tree := negb (Z.land data_blocks_raw XP_BLOCKS_TREE_FLAG =? 0);
  |}.

Definition xp_desc_is_tree (sb : t) : bool := desc_is_tree sb.
Definition xp_data_is_tree (sb : t) : bool := data_is_tree sb.
End NxSuperblock.

(** ** [src/src/fusion.rs] *)

Definition is_fusion (superblock : NxSuperblock.t) : bool :=
  negb (Z.land (NxSuperblock.incompatible_features superblock) NX_INCOMPAT_FUSION =? 0).

Definition FUSION_TIER2_DEVICE_BYTE_ADDR : Z := 0x4000000000000000.

Definition translate_address (_paddr : Z) : outcome Z := Err UnsupportedFusion.

(** [nx_block_size] is inside the range the format allows, the guard that
    [resolve_live_checkpoint] and [volume_superblock_addrs] both apply. *)
Definition block_size_ok (block_size : Z) : bool :=
  (NX_MINIMUM_BLOCK_SIZE <=? block_size) && (block_size <=? NX_MAXIMUM_BLOCK_SIZE).

(** ** Lemmas *)

(** The three gates, in their order. *)
Lemma nx_parse_cases block :
  NxSuperblock.parse block =
    if zlen block <? 36 then Err (NoValidSuperblock 1 0)
    else if negb (le_u32 block 32 =? NX_MAGIC) then Err (NoValidSuperblock 1 (le_u32 block 32))
    else if negb (cksum_ok block)
    then Err (ChecksumMismatch (le_u64 block 8) (fletcher64_stored block) (fletcher64_checksum block))
    else NxSuperblock.parse block.
Proof.
  unfold NxSuperblock.parse at 1, cksum_ok, NxSuperblock.OFF_MAGIC.
  change (32 + 4) with 36.
  destruct (zlen block <? 36) eqn:E1; [done|].
  destruct (le_u32 block 32 =? NX_MAGIC) eqn:E2; [|done].
  destruct (fletcher64_stored block =? fletcher64_checksum block) eqn:E3; [|done].
  unfold NxSuperblock.parse, NxSuperblock.OFF_MAGIC. change (32 + 4) with 36. by rewrite E1, E2, E3.
Qed.

Lemma nx_parse_gates block sb : NxSuperblock.parse block = Ok sb →
  36 <= zlen block ∧ le_u32 block 32 = NX_MAGIC ∧ cksum_ok block = true.
Proof.
  rewrite nx_parse_cases. repeat split_if; try discriminate. intros _. repeat split; lia || done.
Qed.

Lemma nx_parse_Ok block :
  36 <= zlen block → le_u32 block 32 = NX_MAGIC → cksum_ok block = true →
  is_Some (match NxSuperblock.parse block with Ok sb => Some sb | _ => None end).
Proof.
  intros H1 H2 H3. unfold NxSuperblock.parse, NxSuperblock.OFF_MAGIC, cksum_ok in *.
  rewrite H2, H3. replace (zlen block <? 32 + 4) with false by lia. simpl. eauto.
Qed.

Lemma nx_parse_no_panic block : NxSuperblock.parse block ≠ Panic.
Proof. unfold NxSuperblock.parse. by repeat split_if. Qed.

(** [x & !FLAG] on a [u32] is the low 31 bits; the flag test is the sign of the rest. *)
Lemma clear_tree_flag x : in_u32 x →
  Z.ldiff x XP_BLOCKS_TREE_FLAG = x `mod` 2 ^ 31 ∧
  negb (Z.land x XP_BLOCKS_TREE_FLAG =? 0) = (2 ^ 31 <=? x).
Proof.
  intros Hx. unfold in_u32 in Hx.
  change XP_BLOCKS_TREE_FLAG with (Z.shiftl 1 31).
  assert (Hb : Z.land x (Z.shiftl 1 31) = if Z.testbit x 31 then 2 ^ 31 else 0).
  { apply Z.bits_inj'. intros n Hn. rewrite Z.land_spec.
    destruct (decide (n = 31)) as [->|Hne].
    - destruct (Z.testbit x 31); [done|]. by rewrite Z.bits_0.
    - rewrite Z.shiftl_1_l, Z.pow2_bits_false, andb_false_r by lia.
      destruct (Z.testbit x 31); [by rewrite Z.pow2_bits_false by lia|by rewrite Z.bits_0]. }
  assert (Ht : Z.testbit x 31 = (2 ^ 31 <=? x)).
  { rewrite Z.testbit_eqb by lia. pose proof (Z.div_mod x (2 ^ 31) ltac:(done)).
    pose proof (Z.mod_pos_bound x (2 ^ 31) ltac:(done)).
    assert (0 <= x / 2 ^ 31 < 2) as Hd by (split; [apply Z.div_pos|apply Z.div_lt_upper_bound]; lia).
    assert (x / 2 ^ 31 = 0 ∨ x / 2 ^ 31 = 1) as [E|E] by lia; rewrite E in *; simpl; lia. }
  split.
  - rewrite Z.sub_nocarry_ldiff || idtac.
    apply Z.bits_inj'. intros n Hn. rewrite Z.ldiff_spec, Z.shiftl_1_l.
    destruct (Z.lt_trichotomy n 31) as [Hlt|[->|Hgt]].
    + by rewrite Z.pow2_bits_false, Z.mod_pow2_bits_low, andb_true_r by lia.
    + rewrite Z.pow2_bits_true, Z.mod_pow2_bits_high by lia. apply andb_false_r.
    + rewrite Z.pow2_bits_false, Z.mod_pow2_bits_high, andb_true_r by lia.
      rewrite <- (Z.mod_small x (2 ^ 32)), Z.mod_pow2_bits_high by lia. done.
  - rewrite Hb, Ht. by destruct (2 ^ 31 <=? x).
Qed.

Lemma fs_oids_spec block max_fs oid :
  oid ∈ NxSuperblock.read_fs_oids block max_fs ↔
  oid ≠ 0 ∧ ∃ i, 0 <= i < max_fs ∧ oid = le_u64 block (184 + i * 8).
Proof.
  unfold NxSuperblock.read_fs_oids, NxSuperblock.OFF_FS_OID.
  rewrite list_elem_of_filter, list_elem_of_fmap. setoid_rewrite elem_of_seqZ.
  split; intros (? & i & ?); (split; [done|]); exists i; naive_solver lia.
Qed.

Lemma fs_oids_length block max_fs :
  0 <= max_fs → zlen (NxSuperblock.read_fs_oids block max_fs) <= max_fs.
Proof.
  intros. unfold NxSuperblock.read_fs_oids, zlen.
  pose proof (length_filter (λ oid, oid ≠ 0) ((λ i, le_u64 block (NxSuperblock.OFF_FS_OID + i * 8)) <$> seqZ 0 max_fs)) as Hl.
  rewrite length_fmap, length_seqZ in Hl. lia.
Qed.

(** Fields of a parsed superblock are in the range of their types. *)
Lemma nx_parse_ranges block sb : NxSuperblock.parse block = Ok sb →
  in_u32 (NxSuperblock.block_size sb) ∧ 0 <= NxSuperblock.xp_desc_blocks sb < 2 ^ 31 ∧
  in_u64 (NxSuperblock.xp_desc_base sb) ∧ in_u64 (NxSuperblock.omap_oid sb) ∧
  in_u64 (NxSuperblock.xid sb) ∧ zlen (NxSuperblock.fs_oids sb) <= NX_MAX_FILE_SYSTEMS.
Proof.
  unfold NxSuperblock.parse. repeat split_if; try discriminate. intros [= <-]. simpl.
  split; [apply le_u32_range|].
  split; [rewrite (proj1 (clear_tree_flag _ (le_u32_range _ _))); by apply Z.mod_pos_bound|].
  split; [apply le_u64_range|]. split; [apply le_u64_range|]. split; [apply le_u64_range|].
  le_ranges. etrans; [apply fs_oids_length|]; unfold NX_MAX_FILE_SYSTEMS in *;
    pose proof (le_u32_range block NxSuperblock.OFF_MAX_FILE_SYSTEMS); urange.
Qed.
