(* ===== verification/Node.v ===== *)
(** * B-tree nodes ([src/src/btree.rs], the node layout)

    [parse_node_header] and [node_entries] decode one [btree_node_phys_t] block: the
    header, the table of contents (fixed or variable entries), and the key and value
    slices it points at.  Every offset comes from the image; the theorems bound the
    slices, and show that no sum of the decoder can overflow [usize]. *)
From S2P Require Import Prelude Bytes Reader Object.

Definition BTNODE_FIXED_KV_SIZE : Z := 0x4.
Definition BTNODE_ROOT : Z := 0x1.
Definition BTNODE_LEAF : Z := 0x2.

Definition OFF_BTN_FLAGS : Z := 32.
Definition OFF_BTN_LEVEL : Z := 34.
Definition OFF_BTN_NKEYS : Z := 36.
Definition OFF_BTN_TABLE_SPACE : Z := 40.
Definition BTN_DATA_OFF : Z := 56.
Definition BTREE_NODE_MIN_LEN : Z := BTN_DATA_OFF.
Definition BTREE_INFO_LEN : Z := 40.
Definition TOC_FIXED_LEN : Z := 4.
Definition TOC_VAR_LEN : Z := 8.
Definition MAX_BTN_NKEYS : Z := 2 ^ 20.

Inductive BTreeSubtype := Omap | FsTree.

Definition fixed_key_len (s : BTreeSubtype) : Z := match s with Omap => 16 | FsTree => 0 end.
Definition fixed_leaf_val_len (s : BTreeSubtype) : Z := match s with Omap => 16 | FsTree => 0 end.
Definition fixed_branch_val_len (s : BTreeSubtype) : Z := match s with Omap | FsTree => 8 end.

Module BTreeNodeHeader.
Record t := mk { flags : Z; level : Z; nkeys : Z }.

Definition is_leaf (h : t) : bool :=
  negb (Z.land (flags h) BTNODE_LEAF =? 0) || (level h =? 0).
Definition is_root (h : t) : bool := negb (Z.land (flags h) BTNODE_ROOT =? 0).
Definition is_fixed_kv (h : t) : bool := negb (Z.land (flags h) BTNODE_FIXED_KV_SIZE =? 0).
End BTreeNodeHeader.
Import BTreeNodeHeader(is_leaf, is_root, is_fixed_kv).

Record Entry := mkEntry { key : bytes; value : bytes }.

Definition parse_node_header (block : bytes) : option BTreeNodeHeader.t :=
  if zlen block <? BTREE_NODE_MIN_LEN then None
  else Some {|
    BTreeNodeHeader.flags := le_u16 block OFF_BTN_FLAGS;
    BTreeNodeHeader.level := le_u16 block OFF_BTN_LEVEL;
    BTreeNodeHeader.nkeys := le_u32 block OFF_BTN_NKEYS;
  |}.

(** ** The entries of a node

    What [node_entries] computes before its loop. *)
Record layout := {
  fixed : bool;
  entry_len : Z;
  key_len : Z;
  val_len : Z;
  toc_start : Z;
  key_area : Z;
  val_base : Z;
}.

Definition node_layout (block : bytes) (hdr : BTreeNodeHeader.t) (subtype : BTreeSubtype) : layout :=
  let toc_off := le_u16 block OFF_BTN_TABLE_SPACE in
  let toc_len := le_u16 block (OFF_BTN_TABLE_SPACE + 2) in
  {|
    fixed := is_fixed_kv hdr;
    entry_len := if is_fixed_kv hdr then TOC_FIXED_LEN else TOC_VAR_LEN;
    key_len := fixed_key_len subtype;
    val_len := if is_leaf hdr then fixed_leaf_val_len subtype else fixed_branch_val_len subtype;
    toc_start := BTN_DATA_OFF + toc_off;
    key_area := BTN_DATA_OFF + toc_off + toc_len;
    val_base := if is_root hdr then saturating_sub (zlen block) BTREE_INFO_LEN else zlen block;
  |}.

(** One turn of the loop: leave it, skip the entry, or push it. *)
Inductive toc_step := Break | Continue | Push (e : Entry).

(** The offsets a TOC entry at [e] gives: key start, key length, value offset and
    value length. *)
Definition toc_offsets (block : bytes) (l : layout) (e : Z) : Z * Z * Z * Z :=
  let koff := le_u16 block e in
  if fixed l
  then (key_area l + koff, key_len l, le_u16 block (e + 2), val_len l)
  else (key_area l + koff, le_u16 block (e + 2), le_u16 block (e + 4), le_u16 block (e + 6)).

Definition toc_entry (block : bytes) (l : layout) (i : Z) : toc_step :=
  let e := toc_start l + i * entry_len l in
  if (key_area l <? e + entry_len l) || (zlen block <? e + entry_len l) then Break else
  let '(kstart, this_key_len, voff, this_val_len) := toc_offsets block l e in
  match checked_sub (val_base l) voff with
  | None => Continue
  | Some vstart =>
      match get_range block kstart (kstart + this_key_len),
            get_range block vstart (vstart + this_val_len) with
      | Some k, Some v => Push {| key := k; value := v |}
      | _, _ => Continue
      end
  end.

(** [for i in 0..nkeys], [n] turns left. *)
Fixpoint toc_loop (block : bytes) (l : layout) (n : nat) (i : Z) : list Entry :=
  match n with
  | O => []
  | S n' =>
      match toc_entry block l i with
      | Break => []
      | Continue => toc_loop block l n' (i + 1)
      | Push e => e :: toc_loop block l n' (i + 1)
      end
  end.

Definition node_entries (block : bytes) (subtype : BTreeSubtype) : list Entry :=
  match parse_node_header block with
  | None => []
  | Some hdr =>
      let nkeys := Z.min (BTreeNodeHeader.nkeys hdr) MAX_BTN_NKEYS in
      toc_loop block (node_layout block hdr subtype) (Z.to_nat nkeys) 0
  end.

(** Every sum of turn [i] on [usize]: the table's bounds, the entry's, and the ends of
    the two slices. *)
Definition toc_sums (block : bytes) (l : layout) (i : Z) : list Z :=
  let e := toc_start l + i * entry_len l in
  let '(kstart, this_key_len, voff, this_val_len) := toc_offsets block l e in
  [toc_start l; key_area l; i * entry_len l; e; e + entry_len l; e + 6; kstart; kstart + this_key_len] ++
  match checked_sub (val_base l) voff with Some vstart => [vstart; vstart + this_val_len] | None => [] end.

(** ** Reference: the slice of a block an entry was cut from *)

Definition slice_of (block s : bytes) : Prop :=
  ∃ a, 0 <= a ∧ get_range block a (a + zlen s) = Some s.

(** ** Lemmas *)

Lemma parse_node_header_Some block : 56 <= zlen block → ∃ hdr, parse_node_header block = Some hdr.
Proof.
  unfold parse_node_header, BTREE_NODE_MIN_LEN, BTN_DATA_OFF. intros. split_if; [lia|eauto].
Qed.

Lemma parse_node_header_None block : parse_node_header block = None ↔ zlen block < 56.
Proof.
  unfold parse_node_header, BTREE_NODE_MIN_LEN, BTN_DATA_OFF. split_if; naive_solver lia.
Qed.

Lemma toc_entry_Push block l i e : toc_entry block l i = Push e →
  toc_start l + i * entry_len l + entry_len l <= key_area l ∧
  slice_of block (key e) ∧ slice_of block (value e).
Proof.
  unfold toc_entry. split_if; [done|].
  destruct (toc_offsets _ _ _) as [[[ks kl] vo] vl].
  destruct (checked_sub _ _) as [vs|]; [|done].
  destruct (get_range block ks _) as [k|] eqn:Ek; [|done].
  destruct (get_range block vs _) as [v|] eqn:Ev; [|done].
  intros [= <-]. simpl. split; [lia|].
  pose proof (get_range_length _ _ _ _ Ek) as Hk. pose proof (get_range_length _ _ _ _ Ev) as Hv.
  split; [exists ks|exists vs]; (split;
    [apply get_range_Some in Ek; apply get_range_Some in Ev; lia|]).
  - by rewrite Hk, Z.add_simpl_l.
  - by rewrite Hv, Z.add_simpl_l.
Qed.

Lemma toc_loop_Forall block l n i (P : Entry → Prop) :
  (∀ j e, i <= j → toc_entry block l j = Push e → P e) → Forall P (toc_loop block l n i).
Proof.
  revert i. induction n as [|n IH]; intros i HP; simpl; [constructor|].
  destruct (toc_entry block l i) eqn:E; [constructor| |constructor; [by eapply HP|]];
    apply IH; intros j e' Hj; apply HP; lia.
Qed.

(** The loop pushes at most one entry a turn, and none past the table. *)
Lemma toc_loop_length block l n i :
  0 < entry_len l → (length (toc_loop block l n i) ≤ n)%nat ∧
  zlen (toc_loop block l n i) * entry_len l <= Z.max 0 (key_area l - toc_start l - i * entry_len l).
Proof.
  intros Hp. revert i. induction n as [|n IH]; intros i; simpl; [unfold zlen; simpl; lia|].
  destruct (IH (i + 1)) as [IH1 IH2].
  destruct (toc_entry block l i) eqn:E; [unfold zlen; simpl; lia|lia|].
  apply toc_entry_Push in E as [He _]. rewrite zlen_cons. simpl. lia.
Qed.

Lemma slice_of_length block s : slice_of block s → zlen s <= zlen block.
Proof. intros (a & Ha & E). apply get_range_Some in E. pose proof (zlen_nonneg s). lia. Qed.

(** ** Properties *)

(** C28 [node_entries] reads inside the node: every key and every value it yields is a
    slice of the block, the entries number at most [btn_nkeys] and at most what the
    table of contents has room for, and a block shorter than the header has none. *)
Theorem node_entries_in_bounds block subtype :
  Forall (λ e, slice_of block (key e) ∧ slice_of block (value e)) (node_entries block subtype) ∧
  zlen (node_entries block subtype) <= le_u32 block 36 ∧
  zlen (node_entries block subtype) * 4 <= le_u16 block 42 ∧
  (zlen block < 56 → node_entries block subtype = []).
Proof.
  unfold node_entries. destruct (parse_node_header block) as [hdr|] eqn:E.
  2:{ split; [constructor|]. pose proof (le_u32_range block 36). pose proof (le_u16_range block 42).
      unfold zlen at 1 2. simpl. repeat split; urange. }
  assert (Hk : BTreeNodeHeader.nkeys hdr = le_u32 block 36).
  { revert E. unfold parse_node_header. split_if; [done|]. by intros [= <-]. }
  split; [|split; [|split]].
  - apply toc_loop_Forall. intros j e _ He. by apply toc_entry_Push in He as [_ He].
  - destruct (toc_loop_length block (node_layout block hdr subtype)
      (Z.to_nat (Z.min (BTreeNodeHeader.nkeys hdr) MAX_BTN_NKEYS)) 0) as [Hl _].
    { simpl. by destruct (is_fixed_kv hdr). }
    unfold zlen. rewrite Hk in *. pose proof (le_u32_range block 36). urange.
  - destruct (toc_loop_length block (node_layout block hdr subtype)
      (Z.to_nat (Z.min (BTreeNodeHeader.nkeys hdr) MAX_BTN_NKEYS)) 0) as [_ Hl].
    { simpl. by destruct (is_fixed_kv hdr). }
    simpl in Hl. unfold OFF_BTN_TABLE_SPACE in Hl. change (40 + 2) with 42 in Hl.
    pose proof (le_u16_range block 42). pose proof (le_u16_range block 40).
    unfold TOC_FIXED_LEN, TOC_VAR_LEN in Hl. unfold zlen in *.
    destruct (is_fixed_kv hdr); urange.
  - intros Hs. apply parse_node_header_None in Hs. congruence.
Qed.

(** No sum of the decoder overflows: whatever the image says, every offset
    [node_entries] adds up, in every turn its key cap allows, is a [usize], for every
    buffer Rust can hold. *)
Theorem node_sums_fit block hdr subtype i :
  zlen block < 2 ^ 63 → 0 <= i < MAX_BTN_NKEYS →
  Forall in_u64 (toc_sums block (node_layout block hdr subtype) i).
Proof.
  unfold MAX_BTN_NKEYS. intros Hl Hi. pose proof (zlen_nonneg block). unfold toc_sums.
  assert (Hen : 4 <= entry_len (node_layout block hdr subtype) <= 8) by (simpl; destruct (is_fixed_kv hdr); done).
  assert (Hts : 56 <= toc_start (node_layout block hdr subtype) <= 56 + 2 ^ 16 ∧
    56 <= key_area (node_layout block hdr subtype) <= 56 + 2 ^ 17 ∧
    0 <= val_base (node_layout block hdr subtype) <= zlen block ∧
    0 <= key_len (node_layout block hdr subtype) <= 16 ∧ 0 <= val_len (node_layout block hdr subtype) <= 16).
  { pose proof (le_u16_range block OFF_BTN_TABLE_SPACE). pose proof (le_u16_range block (OFF_BTN_TABLE_SPACE + 2)).
    unfold in_u16 in *. simpl. unfold BTN_DATA_OFF, saturating_sub, BTREE_INFO_LEN.
    destruct (is_root hdr), (is_leaf hdr), subtype; simpl; lia. }
  destruct Hts as (Hts & Hka & Hvb & Hkl & Hvl).
  set (l := node_layout block hdr subtype) in *. clearbody l.
  assert (He : 0 <= i * entry_len l <= 2 ^ 20 * 8) by nia.
  set (e := toc_start l + i * entry_len l).
  assert (Hoff : ∃ ks kl vo vl, toc_offsets block l e = (ks, kl, vo, vl) ∧
    56 <= ks <= 56 + 2 ^ 18 ∧ 0 <= kl <= 2 ^ 16 ∧ 0 <= vo <= 2 ^ 16 ∧ 0 <= vl <= 2 ^ 16).
  { unfold toc_offsets. pose proof (le_u16_range block e). pose proof (le_u16_range block (e + 2)).
    pose proof (le_u16_range block (e + 4)). pose proof (le_u16_range block (e + 6)). unfold in_u16 in *.
    destruct (fixed l); do 4 eexists; (split; [reflexivity|lia]). }
  destruct Hoff as (ks & kl & vo & vl & -> & Hks & Hkl' & Hvo & Hvl'). unfold in_u64.
  apply Forall_app. split; [repeat constructor; lia|].
  destruct (checked_sub _ _) as [vs|] eqn:Hcs; [|constructor]. apply checked_sub_Some in Hcs.
  repeat constructor; lia.
Qed.

Lemma node_sums_fit_witness :
  toc_sums (replicate 100 xff) (node_layout (replicate 100 xff) (BTreeNodeHeader.mk 0 0 0xffffffff) FsTree) 1048575
    = [65591; 131126; 8388600; 8454191; 8454199; 8454197; 131126; 131126; 100; 100] ∧
  Forall in_u64 (toc_sums (replicate 100 xff) (node_layout (replicate 100 xff) (BTreeNodeHeader.mk 0 0 0xffffffff) FsTree) 1048575).
Proof.
  split; [vm_compute; reflexivity|].
  apply (node_sums_fit (replicate 100 xff) (BTreeNodeHeader.mk 0 0 0xffffffff) FsTree 1048575); [vm_compute; reflexivity|].
  unfold MAX_BTN_NKEYS. lia.
Defined.
