(* ===== verification/Build.v ===== *)
(** * Writing nodes ([src/src/snapshot.rs], the builders of its test module)

    The crate only reads; its tests build the blocks it reads.  [btree_node] and
    [omap_leaf] are those builders, over any block size.  [encode_node] is what they
    share, and the theorem is the round trip: [node_entries] of an encoded node is the
    list of records it was built from, so the decoder loses and invents nothing. *)
From S2P Require Import Prelude Bytes Object Node.
Import BTreeNodeHeader(is_leaf, is_root, is_fixed_kv).

(** One entry of the table of contents. *)
Definition toc_field (fixed_kv : bool) (koff klen voff vlen : Z) : bytes :=
  if fixed_kv
  then to_le_bytes 2 koff ++ to_le_bytes 2 voff
  else to_le_bytes 2 koff ++ to_le_bytes 2 klen ++ to_le_bytes 2 voff ++ to_le_bytes 2 vlen.

(** The table of contents: the next key offset and value offset are threaded. *)
Fixpoint toc_bytes (fixed_kv : bool) (records : list Entry) (key_off val_off : Z) : bytes :=
  match records with
  | [] => []
  | e :: records' =>
      let v_reversed := val_off + zlen (value e) in
      toc_field fixed_kv key_off (zlen (key e)) v_reversed (zlen (value e)) ++ toc_bytes fixed_kv records' (key_off + zlen (key e)) v_reversed
  end.

Definition node_flags (root leaf fixed_kv : bool) : Z :=
  (if root then BTNODE_ROOT else 0) + (if leaf then BTNODE_LEAF else 0)
  + (if fixed_kv then BTNODE_FIXED_KV_SIZE else 0).

Definition footer_len (root : bool) : Z := if root then BTREE_INFO_LEN else 0.

Definition key_bytes (records : list Entry) : bytes := concat (map key records).

(** The values, which grow down from the footer: the last record comes first. *)
Definition value_bytes (records : list Entry) : bytes := concat (map value (rev records)).

Definition node_used (root fixed_kv : bool) (records : list Entry) : Z :=
  BTN_DATA_OFF + zlen (toc_bytes fixed_kv records 0 0) + zlen (key_bytes records)
  + zlen (value_bytes records) + footer_len root.

Definition encode_node (bs oid xid o_type o_subtype : Z) (root leaf fixed_kv : bool) (level : Z)
    (records : list Entry) : bytes :=
  let toc := toc_bytes fixed_kv records 0 0 in
  seal (zeroed 8 ++ to_le_bytes 8 oid ++ to_le_bytes 8 xid ++ to_le_bytes 4 o_type ++
        to_le_bytes 4 o_subtype ++ to_le_bytes 2 (node_flags root leaf fixed_kv) ++
        to_le_bytes 2 level ++ to_le_bytes 4 (zlen records) ++ to_le_bytes 2 0 ++
        to_le_bytes 2 (zlen toc) ++ zeroed 12 ++
        toc ++ key_bytes records ++ zeroed (bs - node_used root fixed_kv records) ++
        value_bytes records ++ zeroed (footer_len root)).

(** [btree_node]: a variable-length root, leaf or one level above the leaves. *)
Definition btree_node (bs oid xid : Z) (leaf : bool) (records : list Entry) : bytes :=
  encode_node bs oid xid 0x40000002 0x10 true leaf false (if leaf then 0 else 1) records.

Definition omap_key (oid xid : Z) : bytes := to_le_bytes 8 oid ++ to_le_bytes 8 xid.

(** [omap_leaf]: a fixed-length leaf that maps each [(virt, xid)] to [phys]. *)
Definition omap_leaf (bs oid : Z) (maps : list (Z * Z * Z)) : bytes :=
  encode_node bs oid 0 0x40000002 0x0b true true true 0
    ((λ m, {| key := omap_key m.1.1 m.1.2; value := zeroed 8 ++ to_le_bytes 8 m.2 |}) <$> maps).

(** [block[off..off + data.len()].copy_from_slice(data)]. *)
Definition put (block : bytes) (f : Z * bytes) : bytes :=
  take (Z.to_nat f.1) block ++ f.2 ++ drop (Z.to_nat f.1 + length f.2) block.

(** [obj_hdr] and [seal] around the fields of an object. *)
Definition obj_block (bs oid xid o_type o_subtype : Z) (fields : list (Z * bytes)) : bytes :=
  seal (fold_left put
    ([(8, to_le_bytes 8 oid); (16, to_le_bytes 8 xid); (24, to_le_bytes 4 o_type);
      (28, to_le_bytes 4 o_subtype)] ++ fields) (zeroed bs)).

(** [image]: blocks at their indices, zeroes between, the last block of an index. *)
Definition image (bs : Z) (blocks : list (Z * bytes)) : bytes :=
  let max := foldr Z.max 0 blocks.*1 in
  concat ((λ i, match list_find (λ b, b.1 = i) (rev blocks) with
                | Some (_, b) => b.2
                | None => zeroed bs
                end) <$> seqZ 0 (max + 1)).

(** The record lengths a fixed-length node of a subtype has. *)
Definition record_fits (subtype : BTreeSubtype) (leaf fixed_kv : bool) (e : Entry) : Prop :=
  if fixed_kv
  then zlen (key e) = fixed_key_len subtype ∧
       zlen (value e) = (if leaf then fixed_leaf_val_len subtype else fixed_branch_val_len subtype)
  else True.

(** ** Reading fields *)

Lemma le_read_skip n p l off : zlen p <= off → le_read n (p ++ l) off = le_read n l (off - zlen p).
Proof. intros. replace off with (zlen p + (off - zlen p)) at 1 by lia. apply le_read_app_r. lia. Qed.

Lemma le_read_here n v l : 0 <= v < 256 ^ Z.of_nat n → le_read n (to_le_bytes n v ++ l) 0 = v.
Proof. apply (le_read_app n []). Qed.

(** Walk a read over a concatenation to the field it is for. *)
Ltac read_field :=
  unfold le_u16, le_u32, le_u64;
  repeat (rewrite le_read_skip by (autorewrite with bufs; rewrite ?zlen_to_le_bytes, ?zlen_zeroed; lia);
          autorewrite with bufs; rewrite ?zlen_to_le_bytes, ?zlen_zeroed by lia);
  match goal with |- le_read _ (_ ++ _) ?o = _ => replace o with 0 by lia end;
  apply le_read_here.

Lemma zlen_toc_field fx a b c d : zlen (toc_field fx a b c d) = if fx then TOC_FIXED_LEN else TOC_VAR_LEN.
Proof. by destruct fx. Qed.
#[export] Hint Rewrite zlen_toc_field : bufs.

(** Componentwise equality of offsets, each a read of one field. *)
Ltac by_fields :=
  repeat match goal with |- (_, _) = (_, _) => apply (f_equal2 pair) end;
  try apply (f_equal (Z.add _)); first [reflexivity | read_field; assumption].

Lemma toc_offsets_field pre a b c d post l :
  in_u16 a → in_u16 b → in_u16 c → in_u16 d →
  (fixed l = true → b = key_len l ∧ d = val_len l) →
  toc_offsets (pre ++ toc_field (fixed l) a b c d ++ post) l (zlen pre) = (key_area l + a, b, c, d).
Proof.
  unfold in_u16. intros Ha Hb Hc Hd Hl. pose proof (zlen_nonneg pre).
  assert (Hskip : ∀ k n, 0 <= k → le_read n (pre ++ toc_field (fixed l) a b c d ++ post) (zlen pre + k)
    = le_read n (toc_field (fixed l) a b c d ++ post) k) by (intros; by apply le_read_app_r).
  unfold toc_offsets, le_u16. rewrite !Hskip by lia. rewrite <- (Z.add_0_r (zlen pre)), Hskip by lia.
  assert (Ha' : 0 <= a < 256 ^ Z.of_nat 2) by done. assert (Hb' : 0 <= b < 256 ^ Z.of_nat 2) by done.
  assert (Hc' : 0 <= c < 256 ^ Z.of_nat 2) by done. assert (Hd' : 0 <= d < 256 ^ Z.of_nat 2) by done.
  unfold toc_field. destruct (fixed l).
  - destruct Hl as [-> ->]; [done|]. rewrite <- !app_assoc.
    by_fields.
  - rewrite <- !app_assoc. by_fields.
Qed.

Lemma toc_bytes_app fx rs1 rs2 k v :
  toc_bytes fx (rs1 ++ rs2) k v =
  toc_bytes fx rs1 k v ++ toc_bytes fx rs2 (k + zlen (key_bytes rs1)) (v + zlen (value_bytes rs1)).
Proof.
  revert k v. induction rs1 as [|e rs1 IH]; intros k v.
  { simpl. unfold zlen. simpl. by rewrite !Z.add_0_r. }
  cbn [app toc_bytes]. rewrite IH, <- app_assoc. do 3 f_equal.
  - unfold key_bytes. simpl. autorewrite with bufs. lia.
  - unfold value_bytes. simpl. rewrite map_app, concat_app. simpl. autorewrite with bufs. lia.
Qed.

Lemma zlen_toc_bytes fx rs k v :
  zlen (toc_bytes fx rs k v) = zlen rs * (if fx then TOC_FIXED_LEN else TOC_VAR_LEN).
Proof.
  revert k v. induction rs as [|e rs IH]; intros k v; [done|]. cbn [toc_bytes].
  rewrite zlen_app, IH, zlen_cons. destruct fx; autorewrite with bufs; rewrite ?zlen_to_le_bytes;
    unfold TOC_FIXED_LEN, TOC_VAR_LEN; lia.
Qed.

Lemma value_bytes_cons_app rs1 e rs2 :
  value_bytes (rs1 ++ e :: rs2) = value_bytes rs2 ++ value e ++ value_bytes rs1.
Proof.
  unfold value_bytes. rewrite rev_app_distr. simpl. rewrite !map_app, !concat_app. simpl.
  by rewrite app_nil_r, <- app_assoc.
Qed.

Section round_trip.
Context (bs oid xid o_type o_subtype : Z) (root leaf fixed_kv : bool) (level : Z).
Context (subtype : BTreeSubtype) (records : list Entry).
Notation toc := (toc_bytes fixed_kv records 0 0).
Notation block := (encode_node bs oid xid o_type o_subtype root leaf fixed_kv level records).
Context (Hlevel : in_u16 level) (Hleaf : leaf = false → level ≠ 0).
Context (Hbs : node_used root fixed_kv records <= bs) (Hmax : bs <= 65536).

(** Pull the header out of the block. *)
Lemma encode_node_shape : ∃ hdr,
  block = hdr ++ toc ++ key_bytes records ++ zeroed (bs - node_used root fixed_kv records)
    ++ value_bytes records ++ zeroed (footer_len root) ∧
  zlen hdr = 56 ∧ le_u16 hdr 32 = node_flags root leaf fixed_kv ∧ le_u16 hdr 34 = level ∧
  le_u32 hdr 36 = zlen records ∧ le_u16 hdr 40 = 0 ∧ le_u16 hdr 42 = zlen toc.
Proof.
  unfold encode_node, seal. set (c := fletcher64_checksum _). clearbody c.
  rewrite drop_app_length' by (by unfold zeroed; rewrite length_replicate).
  pose proof (zlen_toc_bytes fixed_kv records 0 0) as Ht.
  pose proof (zlen_nonneg (key_bytes records)). pose proof (zlen_nonneg (value_bytes records)).
  pose proof (zlen_nonneg records).
  unfold node_used, footer_len, BTREE_INFO_LEN, BTN_DATA_OFF, TOC_FIXED_LEN, TOC_VAR_LEN in *.
  exists (to_le_bytes 8 c ++ to_le_bytes 8 oid ++ to_le_bytes 8 xid ++ to_le_bytes 4 o_type ++
      to_le_bytes 4 o_subtype ++ to_le_bytes 2 (node_flags root leaf fixed_kv) ++
      to_le_bytes 2 level ++ to_le_bytes 4 (zlen records) ++ to_le_bytes 2 0 ++
      to_le_bytes 2 (zlen toc) ++ zeroed 12).
  split_and!.
  - by rewrite <- !app_assoc.
  - autorewrite with bufs. rewrite ?zlen_to_le_bytes, zlen_zeroed by lia. lia.
  - read_field. by destruct root, leaf, fixed_kv.
  - read_field. done.
  - read_field. destruct root, fixed_kv; lia.
  - read_field. lia.
  - read_field. destruct root, fixed_kv; lia.
Qed.
Lemma encode_node_cksum : cksum_ok block = true.
Proof.
  apply seal_cksum_ok. rewrite zlen_app, zlen_zeroed by done.
  match goal with |- _ <= _ + zlen ?l => pose proof (zlen_nonneg l) end. lia.
Qed.

Lemma encode_node_length : zlen block = bs.
Proof.
  destruct encode_node_shape as (hdr & -> & Hh & _). autorewrite with bufs. rewrite Hh.
  rewrite !zlen_zeroed by (unfold footer_len, BTREE_INFO_LEN; destruct root; lia).
  unfold node_used, BTN_DATA_OFF. lia.
Qed.

Context (Hfits : Forall (record_fits subtype leaf fixed_kv) records).

Definition encoded_header : BTreeNodeHeader.t :=
  {| BTreeNodeHeader.flags := node_flags root leaf fixed_kv;
     BTreeNodeHeader.level := level; BTreeNodeHeader.nkeys := zlen records |}.

Definition encoded_layout : layout :=
  {| fixed := fixed_kv; entry_len := if fixed_kv then TOC_FIXED_LEN else TOC_VAR_LEN;
     key_len := fixed_key_len subtype;
     val_len := if leaf then fixed_leaf_val_len subtype else fixed_branch_val_len subtype;
     toc_start := 56; key_area := 56 + zlen toc; val_base := bs - footer_len root |}.

Lemma encoded_is_leaf : is_leaf encoded_header = leaf.
Proof.
  unfold is_leaf, encoded_header, node_flags. simpl.
  destruct root, leaf, fixed_kv; simpl; try done; specialize (Hleaf eq_refl); lia.
Qed.

Lemma encode_node_header : parse_node_header block = Some encoded_header.
Proof.
  pose proof encode_node_length as Hl. pose proof (zlen_toc_bytes fixed_kv records 0 0) as Ht.
  pose proof (zlen_nonneg (key_bytes records)). pose proof (zlen_nonneg (value_bytes records)).
  pose proof (zlen_nonneg toc).
  assert (56 <= bs) by (unfold node_used, footer_len, BTREE_INFO_LEN, BTN_DATA_OFF in *; destruct root; lia).
  unfold parse_node_header, BTREE_NODE_MIN_LEN, BTN_DATA_OFF. rewrite Hl.
  replace (bs <? 56) with false by lia. destruct encode_node_shape as (hdr & -> & Hh & Hr1 & Hr2 & Hr3 & _).
  unfold le_u16, le_u32 in *. rewrite !le_read_app_l by (rewrite Hh; unfold OFF_BTN_FLAGS, OFF_BTN_LEVEL, OFF_BTN_NKEYS; lia).
  f_equal. unfold encoded_header, OFF_BTN_FLAGS, OFF_BTN_LEVEL, OFF_BTN_NKEYS. by rewrite Hr1, Hr2, Hr3.
Qed.

Lemma encode_node_layout : node_layout block encoded_header subtype = encoded_layout.
Proof.
  unfold node_layout, encoded_layout. rewrite encoded_is_leaf, encode_node_length.
  destruct encode_node_shape as (hdr & -> & Hh & _ & _ & _ & Hr4 & Hr5).
  unfold le_u16 in *. rewrite !le_read_app_l by (rewrite Hh; unfold OFF_BTN_TABLE_SPACE; lia).
  unfold OFF_BTN_TABLE_SPACE. change (40 + 2) with 42. rewrite Hr4, Hr5.
  assert (Hr : is_root encoded_header = root) by (unfold encoded_header, node_flags; by destruct root, leaf, fixed_kv).
  assert (Hf : is_fixed_kv encoded_header = fixed_kv) by (unfold encoded_header, node_flags; by destruct root, leaf, fixed_kv).
  rewrite Hr, Hf. unfold footer_len, saturating_sub, BTN_DATA_OFF.
  pose proof (zlen_toc_bytes fixed_kv records 0 0) as Ht.
  pose proof (zlen_nonneg (key_bytes records)). pose proof (zlen_nonneg (value_bytes records)).
  f_equal. unfold node_used, footer_len, BTN_DATA_OFF, BTREE_INFO_LEN in *.
  pose proof (zlen_nonneg toc). destruct root; lia.
Qed.

(** The block around one record. *)
Lemma encode_node_split rs1 e rs2 : records = rs1 ++ e :: rs2 →
  let w := if fixed_kv then TOC_FIXED_LEN else TOC_VAR_LEN in
  ∃ hdr t1 t2 k1 k2 pad v1 v2,
    block = hdr ++ t1 ++
      toc_field fixed_kv (zlen k1) (zlen (key e)) (zlen v1 + zlen (value e)) (zlen (value e))
      ++ t2 ++ k1 ++ key e ++ k2 ++ pad ++ v2 ++ value e ++ v1 ++ zeroed (footer_len root) ∧
    zlen hdr = 56 ∧ zlen t1 = zlen rs1 * w ∧ zlen t1 + w + zlen t2 = zlen toc.
Proof.
  intros Hrs w. destruct encode_node_shape as (hdr & -> & Hh & _).
  exists hdr, (toc_bytes fixed_kv rs1 0 0),
    (toc_bytes fixed_kv rs2 (zlen (key_bytes rs1) + zlen (key e)) (zlen (value_bytes rs1) + zlen (value e))),
    (key_bytes rs1), (key_bytes rs2), (zeroed (bs - node_used root fixed_kv records)),
    (value_bytes rs1), (value_bytes rs2).
  split_and!; [|done|apply zlen_toc_bytes|rewrite !zlen_toc_bytes, Hrs, zlen_app, zlen_cons; fold w; lia].
  set (pad := zeroed _). clearbody pad. rewrite Hrs, toc_bytes_app, value_bytes_cons_app.
  cbn [toc_bytes]. rewrite !Z.add_0_l. unfold key_bytes. rewrite map_app, concat_app. simpl.
  by rewrite <- !app_assoc.
Qed.

(** One turn of the decoder reads back one record. *)
Lemma toc_entry_encoded rs1 e rs2 : records = rs1 ++ e :: rs2 →
  toc_entry block encoded_layout (zlen rs1) = Push e.
Proof.
  intros Hrs. pose proof encode_node_length as Hlen.
  assert (Hfit : record_fits subtype leaf fixed_kv e)
    by (rewrite Hrs in Hfits; by apply Forall_app in Hfits as [_ [? _]%Forall_cons]).
  destruct (encode_node_split _ _ _ Hrs) as (hdr & t1 & t2 & k1 & k2 & pad & v1 & v2 & Hb & Hh & Ht1 & Ht).
  assert (Hf : zlen (zeroed (footer_len root)) = footer_len root)
    by (apply zlen_zeroed; by destruct root).
  rewrite Hb in Hlen |- *. clear Hb. set (foot := zeroed _) in *. clearbody foot.
  autorewrite with bufs in Hlen.
  assert (Hnn : ∀ l : bytes, 0 <= zlen l) by (intros; apply zlen_nonneg).
  pose proof (Hnn t1). pose proof (Hnn t2). pose proof (Hnn k1). pose proof (Hnn k2).
  pose proof (Hnn v1). pose proof (Hnn v2). pose proof (Hnn pad). pose proof (Hnn foot).
  pose proof (Hnn (key e)). pose proof (Hnn (value e)).
  set (w := if fixed_kv then _ else _) in *.
  assert (Hw : 0 < w <= 8) by (by destruct fixed_kv).
  pose proof (toc_offsets_field (hdr ++ t1) (zlen k1) (zlen (key e)) (zlen v1 + zlen (value e))
    (zlen (value e)) (t2 ++ k1 ++ key e ++ k2 ++ pad ++ v2 ++ value e ++ v1 ++ foot) encoded_layout) as Hoff.
  cbn [fixed key_len val_len key_area encoded_layout] in Hoff.
  rewrite zlen_app, Hh, Ht1, <- !app_assoc in Hoff.
  unfold toc_entry. cbn [toc_start entry_len key_area val_base encoded_layout]. fold w.
  rewrite Hoff;
    [|unfold in_u16; lia..|intros Hfx; unfold record_fits in Hfit; by rewrite Hfx in Hfit].
  autorewrite with bufs. fold w. rewrite Hlen.
  replace (_ || _) with false by lia.
  rewrite (proj2 (checked_sub_Some _ _ (bs - footer_len root - (zlen v1 + zlen (value e))))) by lia.
  rewrite !(get_range_skip hdr), !(get_range_skip t1), !(get_range_skip (toc_field _ _ _ _ _)),
    !(get_range_skip t2), !(get_range_skip k1) by (autorewrite with bufs; fold w; lia).
  autorewrite with bufs. fold w. rewrite (get_range_here (key e)) by lia.
  rewrite (get_range_skip (key e)), (get_range_skip k2), (get_range_skip pad), (get_range_skip v2)
    by (autorewrite with bufs; fold w; lia).
  rewrite (get_range_here (value e)) by lia. by destruct e.
Qed.

Lemma toc_loop_encoded rs1 rs2 : records = rs1 ++ rs2 →
  toc_loop block encoded_layout (length rs2) (zlen rs1) = rs2.
Proof.
  revert rs1. induction rs2 as [|e rs2 IH]; intros rs1 Hrs; [done|].
  cbn [length toc_loop]. rewrite (toc_entry_encoded rs1 e rs2 Hrs). f_equal.
  rewrite <- (IH (rs1 ++ [e])) at 2 by by rewrite <- app_assoc.
  by rewrite zlen_app.
Qed.

Lemma node_entries_encoded : node_entries block subtype = records.
Proof.
  unfold node_entries. rewrite encode_node_header, encode_node_layout. cbn [BTreeNodeHeader.nkeys encoded_header].
  pose proof (zlen_toc_bytes fixed_kv records 0 0) as Ht.
  pose proof (zlen_nonneg (key_bytes records)). pose proof (zlen_nonneg (value_bytes records)).
  assert (zlen records <= 65536).
  { unfold node_used, footer_len, BTREE_INFO_LEN, BTN_DATA_OFF, TOC_FIXED_LEN, TOC_VAR_LEN in *.
    pose proof (zlen_nonneg records). destruct root, fixed_kv; lia. }
  unfold MAX_BTN_NKEYS. rewrite Z.min_l by lia. unfold zlen at 1. rewrite Nat2Z.id.
  by apply (toc_loop_encoded []).
Qed.
End round_trip.

(** C27 Encoding and decoding a node are inverse: [node_entries] of a block built from a
    list of records is that list, for variable-length and fixed-length nodes, roots and
    inner nodes, leaves and index nodes, whenever the records fit the block. *)
Theorem node_roundtrip bs oid xid o_type o_subtype root leaf fixed_kv level subtype records :
  in_u16 level → (leaf = false → level ≠ 0) →
  node_used root fixed_kv records <= bs → bs <= 65536 →
  Forall (record_fits subtype leaf fixed_kv) records →
  let block := encode_node bs oid xid o_type o_subtype root leaf fixed_kv level records in
  zlen block = bs ∧ cksum_ok block = true ∧
  (∃ hdr, parse_node_header block = Some hdr ∧ is_leaf hdr = leaf) ∧
  node_entries block subtype = records.
Proof.
  intros Hl Hf Hu Hm Hr. cbv zeta. split; [by apply encode_node_length|]. split.
  - apply encode_node_cksum; done.
  - split; [|by apply node_entries_encoded]. eexists. split; [by apply (encode_node_header _ _ _ _ _ _ _ _ _ subtype)|].
    by apply (encoded_is_leaf bs _ _ _ _ subtype).
Qed.

Lemma node_roundtrip_witness :
  let rs := [ {| key := str "ab"; value := str "1" |}; {| key := str "b"; value := str "234" |} ] in
  node_entries (encode_node 128 7 9 0x40000002 0x10 true true false 0 rs) FsTree = rs.
Proof.
  apply (node_roundtrip 128 7 9 0x40000002 0x10 true true false 0 FsTree);
    [done|done|vm_compute; discriminate|done|by repeat constructor].
Defined.
