(* ===== verification/Walk.v ===== *)
(** * The tree walk: one theory for three walkers

    [descend] ([btree.rs]), [descend_virtual] ([dir.rs]) and [descend_snap]
    ([snapshot.rs]) are the same recursion over different ways to fetch a node and
    different choices of children: a depth cap, a set of visited ids, and a visit of
    the leaf entries in order.  [walk] is that recursion with the fetch and the choice
    abstracted; the three files show that their walker is an instance.

    [tree] is the shape a walk unfolds on the source and [stored] relates it to the
    blocks.  [walk_Ok_iff] is the contract: a walk returns exactly when the source
    holds a tree of bounded height without a repeated id, and then it has visited that
    tree's leaf entries in order. *)
From S2P Require Import Prelude Bytes Reader Object Node.
Import BTreeNodeHeader(is_leaf).

(** [keep m l]: the elements of [l] whose mark in [m] is set. *)
Fixpoint keep {B} (m : list bool) (l : list B) : list B :=
  match m, l with
  | b :: m', x :: l' => if b then x :: keep m' l' else keep m' l'
  | _, _ => []
  end.

(** The child id an index entry holds: the first eight bytes of its value. *)
Definition child_id (e : Entry) : Z := le_u64 (value e) 0.

(** No entry pruned. *)
Definition all_children (es : list Entry) : list bool := (λ _, true) <$> es.

(** Run the callback on the entries of a leaf, in order. *)
Definition visit_all {S} (visit : S → bytes → bytes → S) (es : list Entry) (s : S) : S :=
  fold_left (λ s e, visit s (key e) (value e)) es s.

(** ** The abstract walk *)
Section walk.
Context {R : Type} `{ReadSeek R}.
Context (fetch : Z → M R (option bytes)) (cap : Z) (mask : list Entry → list bool).
Context (subtype : BTreeSubtype) {S : Type} (visit : S → bytes → bytes → S).

Definition children (buf : bytes) : list Entry :=
  let es := node_entries buf subtype in keep (mask es) es.

Fixpoint walk (budget : nat) (id : Z) (st : gset Z * S) : M R (gset Z * S) :=
  match budget with
  | O => throw (CycleGuard cap)
  | Datatypes.S budget' =>
      let '(visited, s) := st in
      if decide (id ∈ visited) then throw (CycleGuard cap) else
      let visited := {[id]} ∪ visited in
      node ← fetch id;
      match node with
      | None => mret (visited, s)
      | Some buf =>
          match parse_node_header buf with
          | None => mret (visited, s)
          | Some hdr =>
              if is_leaf hdr
              then mret (visited, visit_all visit (node_entries buf subtype) s)
              else foldM (walk budget') (child_id <$> children buf) (visited, s)
          end
      end
  end.
End walk.

(** ** Trees *)

(** [Hole]: a node the walkers skip (an address past the end of the address space, or
    a block shorter than a node header). *)
Inductive tree :=
  | Hole (id : Z)
  | Leaf (id : Z) (es : list Entry)
  | Index (id : Z) (kids : list (Entry * tree)).

Definition tree_id (t : tree) : Z :=
  match t with Hole id | Leaf id _ | Index id _ => id end.

Fixpoint ids (t : tree) : list Z :=
  match t with
  | Hole id | Leaf id _ => [id]
  | Index id kids => id :: concat (map (λ k, ids k.2) kids)
  end.

Fixpoint entries (t : tree) : list Entry :=
  match t with
  | Hole _ => []
  | Leaf _ es => es
  | Index _ kids => concat (map (λ k, entries k.2) kids)
  end.

Fixpoint height (t : tree) : nat :=
  match t with
  | Hole _ | Leaf _ _ => 1
  | Index _ kids => 1 + list_max (map (λ k, height k.2) kids)
  end.

(** The tree a pruned walk unfolds. *)
Fixpoint prune (mask : list Entry → list bool) (t : tree) : tree :=
  match t with
  | Index id kids => Index id (keep (mask kids.*1) (map (λ k, (k.1, prune mask k.2)) kids))
  | _ => t
  end.

Section stored.
Context {R : Type} `{ReadSeek R}.
Context (fetch : Z → M R (option bytes)) (mask : list Entry → list bool) (subtype : BTreeSubtype).
Context (r : R).

(** The blocks of the source hold the tree. *)
Inductive stored : tree → Prop :=
  | stored_hole id node :
      eval (fetch id) r = Ok node →
      (node = None ∨ ∃ buf, node = Some buf ∧ parse_node_header buf = None) →
      stored (Hole id)
  | stored_leaf id buf hdr :
      eval (fetch id) r = Ok (Some buf) → parse_node_header buf = Some hdr → is_leaf hdr = true →
      stored (Leaf id (node_entries buf subtype))
  | stored_index id buf hdr kids :
      eval (fetch id) r = Ok (Some buf) → parse_node_header buf = Some hdr → is_leaf hdr = false →
      children mask subtype buf = kids.*1 →
      Forall (λ k, tree_id k.2 = child_id k.1 ∧ stored k.2) kids →
      stored (Index id kids).
End stored.

(** Read the tree under an id, as deep as [n] levels. *)
Section load.
Context {R : Type} `{ReadSeek R}.
Context (fetch : Z → M R (option bytes)) (mask : list Entry → list bool) (subtype : BTreeSubtype).
Context (r : R).

Fixpoint load (n : nat) (id : Z) : option tree :=
  match n with
  | O => None
  | Datatypes.S n' =>
      match eval (fetch id) r with
      | Ok None => Some (Hole id)
      | Ok (Some buf) =>
          match parse_node_header buf with
          | None => Some (Hole id)
          | Some hdr =>
              if is_leaf hdr then Some (Leaf id (node_entries buf subtype))
              else
                kids ← mapM (λ e, t ← load n' (child_id e); Some (e, t)) (children mask subtype buf);
                Some (Index id kids)
          end
      | _ => None
      end
  end.
End load.

(** A tree a walk of [budget] levels accepts. *)
Definition well_shaped (budget : nat) (t : tree) : Prop :=
  NoDup (ids t) ∧ (height t ≤ budget)%nat.

(** ** Induction over trees *)

Lemma tree_ind' (P : tree → Prop) :
  (∀ id, P (Hole id)) → (∀ id es, P (Leaf id es)) →
  (∀ id kids, Forall (λ k, P k.2) kids → P (Index id kids)) → ∀ t, P t.
Proof.
  intros HH HL HI. fix IH 1. intros [id|id es|id kids]; [apply HH|apply HL|apply HI].
  induction kids as [|k kids IHk]; constructor; [apply IH|apply IHk].
Qed.

Lemma tree_id_in_ids t : tree_id t ∈ ids t.
Proof. destruct t; simpl; set_solver. Qed.

Lemma list_max_le l n : (list_max l ≤ n)%nat ↔ Forall (λ x, x ≤ n)%nat l.
Proof. apply list_max_le. Qed.

Lemma keep_fmap {A B} (f : A → B) m l : keep m (f <$> l) = f <$> keep m l.
Proof. revert l. induction m as [|[] m IH]; intros [|x l]; simpl; try done; f_equal; apply IH. Qed.

Lemma keep_all {A B} (l : list A) (k : list B) : length l = length k → keep ((λ _, true) <$> l) k = k.
Proof.
  revert k. induction l as [|x l IH]; intros [|y k]; simpl; try done. intros [=]. f_equal. by apply IH.
Qed.

Lemma keep_sublist {A} m (l : list A) : keep m l `sublist_of` l.
Proof.
  revert l. induction m as [|[] m IH]; intros [|x l]; simpl; try by constructor.
  all: apply sublist_nil_l.
Qed.

Lemma visit_all_cons {S} (visit : S → bytes → bytes → S) e es s :
  visit_all visit (e :: es) s = visit_all visit es (visit s (key e) (value e)).
Proof. done. Qed.

Lemma visit_all_app {S} (visit : S → bytes → bytes → S) l k s :
  visit_all visit (l ++ k) s = visit_all visit k (visit_all visit l s).
Proof. apply fold_left_app. Qed.

Lemma stored_mask_ext {R} `{ReadSeek R} fetch (mask mask' : list Entry → list bool) subtype (r : R) t :
  (∀ es, mask' es = mask es) → stored fetch mask subtype r t → stored fetch mask' subtype r t.
Proof.
  intros Hm. induction t as [id|id es|id kids IH] using tree_ind'; inversion 1 as [|? buf hdr|? buf hdr ? Hf Hp Hl Hc Hk];
    simplify_eq; [by eapply stored_hole|by eapply stored_leaf|].
  eapply stored_index; [done..| |].
  - unfold children. rewrite Hm. exact Hc.
  - rewrite Forall_forall in *. intros k Hin. destruct (Hk k Hin). auto.
Qed.

Lemma load_stored {R} `{ReadSeek R} fetch mask subtype (r : R) n id t :
  load fetch mask subtype r n id = Some t → tree_id t = id ∧ stored fetch mask subtype r t.
Proof.
  revert id t. induction n as [|n IH]; intros id t E; [done|]. cbn [load] in E.
  destruct (eval (fetch id) r) as [[buf|]| |] eqn:Hf; [| |done..].
  2:{ injection E as <-. split; [done|]. eapply stored_hole; eauto. }
  destruct (parse_node_header buf) as [hdr|] eqn:Hp.
  2:{ injection E as <-. split; [done|]. eapply stored_hole; eauto. }
  destruct (is_leaf hdr) eqn:Hl.
  { injection E as <-. split; [done|]. by eapply stored_leaf. }
  apply bind_Some in E as (kids & Hk & [= <-]). split; [done|].
  apply mapM_Some in Hk. eapply stored_index; [done..| |].
  - clear -Hk. induction Hk as [|e k es kids (t & _ & [= <-])%bind_Some _ IHk]; [done|].
    by rewrite fmap_cons, <- IHk.
  - clear -Hk IH. induction Hk as [|e k es kids (t & Ht & [= <-])%bind_Some _ IHk]; constructor; auto.
Qed.

(** ** The walk of a stored tree *)
Section walk_lemmas.
Context {R : Type} `{LawfulReader R}.
Context (fetch : Z → M R (option bytes)) {Hfetch : ∀ id, Stable (fetch id)}.
Context (cap : Z) (mask : list Entry → list bool) (subtype : BTreeSubtype).
Context {S : Type} (visit : S → bytes → bytes → S).

Notation run := (walk fetch cap mask subtype visit).
Notation holds := (stored fetch mask subtype).

Lemma Stable_walk budget id st : Stable (run budget id st).
Proof.
  revert id st. induction budget as [|n IH]; intros id st; simpl; [solve_stable|].
  destruct st as [seen s]. case_decide; [solve_stable|].
  apply Stable_bind; [done|]. intros [buf|]; [|solve_stable].
  destruct (parse_node_header buf) as [hdr|]; [|solve_stable].
  destruct (is_leaf hdr); [solve_stable|]. by apply Stable_foldM.
Qed.
#[local] Hint Resolve Stable_walk Hfetch : stable.

(** One level of a walk, as values. *)
Lemma eval_walk_S n id visited s r :
  eval (run (Datatypes.S n) id (visited, s)) r =
    if decide (id ∈ visited) then Err (CycleGuard cap) else
    node ← eval (fetch id) r;
    match node with
    | None => Ok ({[id]} ∪ visited, s)
    | Some buf =>
        match parse_node_header buf with
        | None => Ok ({[id]} ∪ visited, s)
        | Some hdr =>
            if is_leaf hdr
            then Ok ({[id]} ∪ visited, visit_all visit (node_entries buf subtype) s)
            else foldM (λ id st, eval (run n id st) r)
                   (child_id <$> children mask subtype buf) ({[id]} ∪ visited, s)
        end
    end.
Proof.
  cbn [walk]. case_decide; [done|].
  rewrite eval_bind; [|done|].
  - destruct (eval (fetch id) r) as [[buf|]| |]; simpl; try done.
    destruct (parse_node_header buf) as [hdr|]; [|done].
    destruct (is_leaf hdr); [done|]. apply eval_foldM. intros; apply Stable_walk.
  - intros [buf|]; [|solve_stable]. destruct (parse_node_header buf) as [hdr|]; [|solve_stable].
    destruct (is_leaf hdr); [solve_stable|]. apply Stable_foldM, Stable_walk.
Qed.

(** Inversion of [stored], one equation per shape. *)
Lemma stored_hole_inv r id : holds r (Hole id) →
  ∃ node, eval (fetch id) r = Ok node ∧
    (node = None ∨ ∃ buf, node = Some buf ∧ parse_node_header buf = None).
Proof. inversion 1; eauto. Qed.

Lemma stored_leaf_inv r id es : holds r (Leaf id es) →
  ∃ buf hdr, eval (fetch id) r = Ok (Some buf) ∧ parse_node_header buf = Some hdr ∧
    is_leaf hdr = true ∧ es = node_entries buf subtype.
Proof. inversion 1; naive_solver. Qed.

Lemma stored_index_inv r id kids : holds r (Index id kids) →
  ∃ buf hdr, eval (fetch id) r = Ok (Some buf) ∧ parse_node_header buf = Some hdr ∧
    is_leaf hdr = false ∧ children mask subtype buf = kids.*1 ∧
    Forall (λ k, tree_id k.2 = child_id k.1 ∧ holds r k.2) kids.
Proof. inversion 1; naive_solver. Qed.

Definition walks_in_order (t : tree) : Prop := ∀ n visited s r,
  holds r t → well_shaped n t → (∀ i, i ∈ ids t → i ∉ visited) →
  ∃ visited', eval (run n (tree_id t) (visited, s)) r = Ok (visited', visit_all visit (entries t) s)
    ∧ ∀ i, i ∈ visited' ↔ i ∈ visited ∨ i ∈ ids t.

Lemma walk_kids r n kids visited s :
  Forall (λ k, walks_in_order k.2) kids →
  Forall (λ k, tree_id k.2 = child_id k.1 ∧ holds r k.2) kids →
  NoDup (concat (map (λ k, ids k.2) kids)) →
  Forall (λ k, height k.2 ≤ n)%nat kids →
  (∀ i, i ∈ concat (map (λ k, ids k.2) kids) → i ∉ visited) →
  ∃ visited',
    foldM (λ id st, eval (run n id st) r) (child_id <$> kids.*1) (visited, s)
      = Ok (visited', visit_all visit (concat (map (λ k, entries k.2) kids)) s)
    ∧ ∀ i, i ∈ visited' ↔ i ∈ visited ∨ i ∈ concat (map (λ k, ids k.2) kids).
Proof.
  intros Hw. revert visited s.
  induction Hw as [|[e t] kids Ht Hw IH]; intros visited s Hst Hnd Hh Hfresh; simpl in *.
  { exists visited. split; [done|]. set_solver. }
  apply Forall_cons in Hst as [[Hid Hst] Hsts]. apply Forall_cons in Hh as [Hh Hhs].
  apply NoDup_app in Hnd as (Hnd & Hdisj & Hnds). simpl in *.
  destruct (Ht n visited s r) as (v1 & Ev1 & Hv1); [done|done|intros i Hi; apply Hfresh, elem_of_app; auto|].
  simpl in Ev1. rewrite <- Hid, Ev1. simpl.
  destruct (IH v1 (visit_all visit (entries t) s)) as (v2 & E & Hv2); [done|done|done| |].
  { intros i Hi. rewrite Hv1. intros [Hv|Ht']; [|by eapply Hdisj]. apply (Hfresh i); [|done]. apply elem_of_app; auto. }
  exists v2. rewrite visit_all_app. split; [exact E|]. intros i. rewrite Hv2, Hv1, elem_of_app. tauto.
Qed.

(** Completeness: a stored tree is walked, and its entries visited in order. *)
Lemma walk_stored t : walks_in_order t.
Proof.
  induction t as [id|id es|id kids IH] using tree_ind'; intros n visited s r Hst [Hnd Hh] Hfresh;
    (destruct n as [|n]; [simpl in Hh; lia|]); cbn [tree_id]; rewrite eval_walk_S;
    (rewrite decide_False by (apply Hfresh; simpl; set_solver)).
  - apply stored_hole_inv in Hst as (node & -> & [->|(buf & -> & Hp)]); simpl; rewrite ?Hp;
      eexists; (split; [done|]); set_solver.
  - apply stored_leaf_inv in Hst as (buf & hdr & -> & Hp & Hl & ->). simpl. rewrite Hp, Hl.
    eexists; split; [done|]. set_solver.
  - apply stored_index_inv in Hst as (buf & hdr & -> & Hp & Hl & Hc & Hk). simpl. rewrite Hp, Hl, Hc.
    simpl in Hnd, Hh. apply NoDup_cons in Hnd as [Hid Hnd].
    destruct (walk_kids r n kids ({[id]} ∪ visited) s) as (v & -> & Hv); try done.
    + apply le_S_n, list_max_le in Hh. by apply Forall_map in Hh.
    + intros i Hi [->%elem_of_singleton|Hv]%elem_of_union; [done|].
      apply (Hfresh i); [|done]. simpl. apply elem_of_cons; auto.
    + eexists; split; [done|]. intros i. simpl.
      rewrite Hv, elem_of_union, elem_of_singleton, elem_of_cons. tauto.
Qed.

(** Soundness: a walk that returns unfolds a stored tree. *)
Definition unfolds (n : nat) (id : Z) : Prop := ∀ visited s r visited' s',
  eval (run n id (visited, s)) r = Ok (visited', s') →
  ∃ t, tree_id t = id ∧ holds r t ∧ well_shaped n t ∧ (∀ i, i ∈ ids t → i ∉ visited) ∧
    s' = visit_all visit (entries t) s ∧ (∀ i, i ∈ visited' ↔ i ∈ visited ∨ i ∈ ids t).

Lemma unfold_kids n r es : (∀ id, unfolds n id) → ∀ visited s visited' s',
  foldM (λ id st, eval (run n id st) r) (child_id <$> es) (visited, s) = Ok (visited', s') →
  ∃ kids, kids.*1 = es ∧
    Forall (λ k, tree_id k.2 = child_id k.1 ∧ holds r k.2) kids ∧
    NoDup (concat (map (λ k, ids k.2) kids)) ∧
    Forall (λ k, height k.2 ≤ n)%nat kids ∧
    (∀ i, i ∈ concat (map (λ k, ids k.2) kids) → i ∉ visited) ∧
    s' = visit_all visit (concat (map (λ k, entries k.2) kids)) s ∧
    (∀ i, i ∈ visited' ↔ i ∈ visited ∨ i ∈ concat (map (λ k, ids k.2) kids)).
Proof.
  intros Hu. induction es as [|e es IH]; intros visited s visited' s' E.
  - injection E as <- <-. exists []. repeat split; try constructor; simpl; set_solver.
  - rewrite fmap_cons in E. cbn [foldM] in E. apply outcome_bind_Ok in E as ([v1 s1] & E1 & E).
    apply Hu in E1 as (t & Hid & Ht & [Hnd Hh] & Hf & -> & Hv1).
    apply IH in E as (kids & <- & Hk & Hnds & Hhs & Hfs & -> & Hv).
    exists ((e, t) :: kids). simpl. repeat split; [by constructor| | |..].
    + apply NoDup_app. split; [done|]. split; [|done].
      intros i Hi Hin. apply (Hfs i Hin), Hv1. auto.
    + by constructor.
    + intros i [Hi|Hi]%elem_of_app; [by apply Hf|]. intros Hv'. apply (Hfs i Hi), Hv1. auto.
    + by rewrite visit_all_app.
    + rewrite Hv, Hv1, elem_of_app. tauto.
    + rewrite Hv, Hv1, elem_of_app. tauto.
Qed.

Lemma walk_unfolds n id : unfolds n id.
Proof.
  revert id. induction n as [|n IH]; intros id visited s r visited' s' E; [done|].
  rewrite eval_walk_S in E. case_decide as Hid; [done|].
  apply outcome_bind_Ok in E as (node & Ef & E).
  assert (Hone : ∀ t, ids t = [id] → (∀ i, i ∈ ids t → i ∉ visited) ∧
    ∀ i, i ∈ {[id]} ∪ visited ↔ i ∈ visited ∨ i ∈ ids t).
  { intros t ->. split; [set_solver|]. intros i. rewrite elem_of_union, elem_of_singleton, list_elem_of_singleton. tauto. }
  assert (Hhole : (node = None ∨ ∃ buf, node = Some buf ∧ parse_node_header buf = None) →
    visited' = {[id]} ∪ visited → s' = s →
    ∃ t, tree_id t = id ∧ holds r t ∧ well_shaped (Datatypes.S n) t ∧ (∀ i, i ∈ ids t → i ∉ visited) ∧
    s' = visit_all visit (entries t) s ∧ (∀ i, i ∈ visited' ↔ i ∈ visited ∨ i ∈ ids t)).
  { intros Hn -> ->. exists (Hole id). destruct (Hone (Hole id) eq_refl).
    repeat split; try done; [by eapply stored_hole|apply NoDup_singleton|simpl; lia|naive_solver..]. }
  destruct node as [buf|]; [|injection E as <- <-; auto].
  destruct (parse_node_header buf) as [hdr|] eqn:Hp; [|injection E as <- <-; eauto].
  clear Hhole. destruct (is_leaf hdr) eqn:Hl.
  - injection E as <- <-. exists (Leaf id (node_entries buf subtype)).
    destruct (Hone (Leaf id (node_entries buf subtype)) eq_refl).
    repeat split; try done; [by eapply stored_leaf|apply NoDup_singleton|simpl; lia|naive_solver..].
  - clear Hone. apply (unfold_kids n r) in E as (kids & Hc & Hk & Hnds & Hhs & Hfs & -> & Hv); [|done].
    exists (Index id kids). split; [done|].
    split; [by eapply stored_index|]. split; [split|split; [|split; [done|]]]; simpl.
    + apply NoDup_cons. split; [|done]. intros Hi. apply (Hfs id Hi). set_solver.
    + apply le_n_S, list_max_le. by apply Forall_map.
    + intros i [->|Hi]%elem_of_cons; [done|]. intros Hv'. apply (Hfs i Hi). set_solver.
    + intros i. rewrite Hv, elem_of_union, elem_of_singleton, elem_of_cons. tauto.
Qed.

(** The contract of a walk from nothing visited. *)
Lemma walk_Ok_iff n id s r s' :
  (∃ visited', eval (run n id (∅, s)) r = Ok (visited', s')) ↔
  ∃ t, tree_id t = id ∧ holds r t ∧ well_shaped n t ∧ s' = visit_all visit (entries t) s.
Proof.
  split.
  - intros [v E]. apply walk_unfolds in E as (t & ? & ? & ? & _ & ? & _). eauto.
  - intros (t & <- & Ht & Hw & ->). destruct (walk_stored t n ∅ s r) as (v & E & _); [done|done|set_solver|].
    eauto.
Qed.

(** A walk panics only if a fetch does. *)
Lemma walk_no_panic r : (∀ id, eval (fetch id) r ≠ Panic) →
  ∀ n id st, eval (run n id st) r ≠ Panic.
Proof.
  intros Hf n. induction n as [|n IH]; intros id [visited s]; [done|].
  rewrite eval_walk_S. case_decide; [done|]. specialize (Hf id).
  destruct (eval (fetch id) r) as [[buf|]| |]; simpl; try done.
  destruct (parse_node_header buf) as [hdr|]; [|done]. destruct (is_leaf hdr); [done|].
  apply foldM_no_panic. intros; apply IH.
Qed.
End walk_lemmas.

(** The visited set only grows. *)
Lemma walk_visited_grows {R} (fetch : Z → M R (option bytes)) cap mask subtype {S} (visit : S → bytes → bytes → S)
    n id st (r : R) st' (r' : R) x :
  x ∈ st.1 → walk fetch cap mask subtype visit n id st r = (Ok st', r') → x ∈ st'.1.
Proof.
  revert id st r st' r'. induction n as [|n IH]; intros id [visited s] r st' r' Hx; [done|]. cbn [walk].
  case_decide; [done|]. cbv [mbind M_bind]. destruct (fetch id r) as [[node|e|] r1]; [|done..].
  simpl in Hx. assert (Hin : x ∈ {[id]} ∪ visited) by set_solver.
  destruct node as [buf|]; [|by intros [= <- <-]].
  destruct (parse_node_header buf) as [hdr|]; [|by intros [= <- <-]].
  destruct (is_leaf hdr); [by intros [= <- <-]|].
  apply (foldM_inv (λ st, x ∈ st.1)); [|done]. intros. by eapply IH.
Qed.

(** ** Pruned walks *)

(** The entries a full walk visits and a pruned one may skip: none satisfies [P]. *)
Inductive covered (P : Entry → Prop) (mask : list Entry → list bool) : tree → Prop :=
  | covered_hole id : covered P mask (Hole id)
  | covered_leaf id es : covered P mask (Leaf id es)
  | covered_index id kids :
      Forall2 (λ b k, b = false → Forall (λ e, ¬ P e) (entries k.2)) (mask kids.*1) kids →
      Forall (λ k, covered P mask k.2) kids →
      covered P mask (Index id kids).

Lemma concat_keep_sublist {A B} (f g : A → list B) m l :
  Forall (λ x, f x `sublist_of` g x) l → concat (map f (keep m l)) `sublist_of` concat (map g l).
Proof.
  intros Hf. revert m. induction Hf as [|x l Hx Hf IH]; intros [|[] m]; simpl; try done.
  - apply sublist_nil_l.
  - by apply sublist_app.
  - apply (sublist_app []); [apply sublist_nil_l|done].
Qed.

Section prune.
Context (mask : list Entry → list bool).

Lemma prune_index id kids :
  prune mask (Index id kids) =
    Index id (keep (mask kids.*1) ((λ k, (k.1, prune mask k.2)) <$> kids)).
Proof. done. Qed.

Lemma prune_id t : tree_id (prune mask t) = tree_id t.
Proof. by destruct t. Qed.

Lemma prune_ids t : ids (prune mask t) `sublist_of` ids t.
Proof.
  induction t as [id|id es|id kids IH] using tree_ind'; [done..|].
  rewrite prune_index, keep_fmap. cbn [ids]. constructor.
  change (map ?f (?g <$> ?l)) with (f <$> (g <$> l)). rewrite <- list_fmap_compose.
  by apply concat_keep_sublist.
Qed.

Lemma prune_height t : (height (prune mask t) ≤ height t)%nat.
Proof.
  induction t as [id|id es|id kids IH] using tree_ind'; [done..|].
  rewrite prune_index, keep_fmap. cbn [height]. apply le_n_S, list_max_le.
  apply Forall_map, Forall_fmap. eapply sublist_Forall; [apply keep_sublist|].
  apply Forall_forall. intros k Hk. simpl. etrans; [by eapply Forall_forall in IH|].
  assert (Forall (λ x, x ≤ list_max (map (λ k, height k.2) kids))%nat (map (λ k, height k.2) kids))
    as Hm by by apply list_max_le.
  apply Forall_map in Hm. by eapply Forall_forall in Hm.
Qed.

Lemma prune_well_shaped n t : well_shaped n t → well_shaped n (prune mask t).
Proof.
  intros [Hnd Hh]. split; [by eapply sublist_NoDup; [|apply prune_ids]|].
  pose proof (prune_height t). lia.
Qed.

Lemma stored_prune {R} `{ReadSeek R} fetch subtype (r : R) t :
  stored fetch all_children subtype r t → stored fetch mask subtype r (prune mask t).
Proof.
  induction t as [id|id es|id kids IH] using tree_ind'; inversion 1 as [|? buf hdr|? buf hdr ? Hf Hp Hl Hc Hk];
    simplify_eq/=; [by eapply stored_hole|by eapply stored_leaf|].
  unfold children, all_children in Hc. rewrite keep_all in Hc by done.
  eapply stored_index; [done..|unfold children|].
  - rewrite Hc. change (map ?f kids) with (f <$> kids). rewrite !keep_fmap, <- list_fmap_compose. done.
  - change (map ?f kids) with (f <$> kids). rewrite keep_fmap. apply Forall_fmap.
    eapply sublist_Forall; [apply keep_sublist|]. apply Forall_forall. intros k Hin.
    eapply Forall_forall in Hk as [? ?]; [|done]. simpl. rewrite prune_id. split; [done|].
    eapply Forall_forall in IH; [|done]. by apply IH.
Qed.

(** Pruning loses no entry that satisfies [P]. *)
Lemma prune_filter (P : Entry → Prop) `{∀ e, Decision (P e)} t :
  covered P mask t → filter P (entries (prune mask t)) = filter P (entries t).
Proof.
  induction t as [id|id es|id kids IH] using tree_ind'; [done..|].
  intros Hc. inversion Hc as [| |? ? Hm Hk]; subst. rewrite prune_index, keep_fmap. cbn [entries].
  clear Hc. induction Hm as [|b k m l Hb Hm IHm]; [done|].
  apply Forall_cons in IH as [IH1 IH]. apply Forall_cons in Hk as [Hk1 Hk]. specialize (IHm IH Hk).
  destruct b; simpl; rewrite ?filter_app.
  - rewrite IH1 by done. f_equal. exact IHm.
  - rewrite (filter_none P (entries k.2)) by auto. exact IHm.
Qed.
End prune.

(** A callback that ignores entries outside [P] sees the filtered entries. *)
Lemma visit_all_filter {S} (visit : S → bytes → bytes → S) (P : Entry → Prop) `{∀ e, Decision (P e)} es s :
  (∀ s e, ¬ P e → visit s (key e) (value e) = s) →
  visit_all visit es s = visit_all visit (filter P es) s.
Proof. intros Hv. apply fold_left_filter. auto. Qed.
