(* ===== verification/BTree.v ===== *)
(** * Physically stored B-trees ([src/src/btree.rs], the walks)

    [for_each_leaf_entry] visits every leaf entry of a tree whose children are block
    numbers; [find_leaf] follows one path to the leaf whose range covers a target.
    The theorems: the full walk is the walk of [Walk.v] over verified blocks, so it
    returns exactly on well-shaped trees; and on a tree with exact separators the
    keyed descent lands on the leaf that holds the target's floor. *)
From S2P Require Import Prelude Bytes Reader Object Node Walk.
Import BTreeNodeHeader(is_leaf).

Definition MAX_BTREE_DEPTH : Z := 64.

(** The error of a block whose checksum fails: it names the object id the block
    claims, or [paddr] when the block is too short to have one. *)
Definition checksum_error (paddr : Z) (buf : bytes) : ApfsError :=
  ChecksumMismatch
    (match ObjPhys.parse buf with Some h => ObjPhys.oid h | None => paddr end)
    (fletcher64_stored buf) (fletcher64_checksum buf).

Section btree.
Context {R : Type} `{ReadSeek R}.

Definition read_verified_node (paddr block_size : Z) : M R (option bytes) :=
  match checked_mul paddr block_size with
  | None => mret None
  | Some offset =>
      buf ← read_at offset block_size;
      if cksum_ok buf then mret (Some buf) else throw (checksum_error paddr buf)
  end.

Section walks.
Context (block_size : Z) (subtype : BTreeSubtype) {S : Type} (visit : S → bytes → bytes → S).

(** [budget] is [MAX_BTREE_DEPTH - depth]; the visited set and the state of the
    callback are threaded. *)
Fixpoint descend (budget : nat) (paddr : Z) (st : gset Z * S) : M R (gset Z * S) :=
  match budget with
  | O => throw (CycleGuard MAX_BTREE_DEPTH)
  | Datatypes.S budget' =>
      let '(visited, s) := st in
      if decide (paddr ∈ visited) then throw (CycleGuard MAX_BTREE_DEPTH) else
      let visited := {[paddr]} ∪ visited in
      node ← read_verified_node paddr block_size;
      match node with
      | None => mret (visited, s)
      | Some buf =>
          match parse_node_header buf with
          | None => mret (visited, s)
          | Some hdr =>
              if is_leaf hdr
              then mret (visited, visit_all visit (node_entries buf subtype) s)
              else
                let children := (λ e, le_u64 (value e) 0) <$> node_entries buf subtype in
                foldM (descend budget') children (visited, s)
          end
      end
  end.

Definition for_each_leaf_entry (root_paddr : Z) (s : S) : M R S :=
  st ← descend (Z.to_nat MAX_BTREE_DEPTH) root_paddr (∅, s);
  mret st.2.

Context (cmp : bytes → comparison).

(** The loop over an index node's entries: [child] so far. *)
Fixpoint pick_child (es : list Entry) (child : Z) : Z :=
  match es with
  | [] => child
  | e :: es' =>
      match cmp (key e) with
      | Gt => child
      | _ => pick_child es' (le_u64 (value e) 0)
      end
  end.

(** [for _ in 0..MAX_BTREE_DEPTH], [n] turns left. *)
Fixpoint find_leaf_loop (n : nat) (visited : gset Z) (paddr : Z) (s : S) : M R S :=
  match n with
  | O => throw (CycleGuard MAX_BTREE_DEPTH)
  | Datatypes.S n' =>
      if decide (paddr ∈ visited) then throw (CycleGuard MAX_BTREE_DEPTH) else
      let visited := {[paddr]} ∪ visited in
      node ← read_verified_node paddr block_size;
      match node with
      | None => mret s
      | Some buf =>
          match parse_node_header buf with
          | None => mret s
          | Some hdr =>
              if is_leaf hdr
              then mret (visit_all visit (node_entries buf subtype) s)
              else
                match node_entries buf subtype with
                | [] => mret s
                | (first :: _) as es =>
                    find_leaf_loop n' visited (pick_child es (le_u64 (value first) 0)) s
                end
          end
      end
  end.

Definition find_leaf (root_paddr : Z) (s : S) : M R S :=
  find_leaf_loop (Z.to_nat MAX_BTREE_DEPTH) ∅ root_paddr s.
End walks.
End btree.

(** ** Reference: the landing leaf of a search *)

Section landing.
Context (cmp : bytes → comparison).

(** The last child whose separator is not above the target, else the first. *)
Fixpoint pick {B} (kids : list (Entry * B)) (b : B) : B :=
  match kids with
  | [] => b
  | (e, b') :: kids' => match cmp (key e) with Gt => b | _ => pick kids' b' end
  end.

Fixpoint landing (t : tree) : list Entry :=
  match t with
  | Hole _ => []
  | Leaf _ es => es
  | Index _ kids =>
      let found := map (λ k, (k.1, landing k.2)) kids in
      match found with [] => [] | k :: _ => pick found k.2 end
  end.
End landing.

(** A tree with exact separators: every index node has children, no child is empty,
    and a separator is its child's first key. *)
Inductive separated {K} (proj : bytes → K) : tree → Prop :=
  | separated_leaf id es : separated proj (Leaf id es)
  | separated_index id kids :
      kids ≠ [] →
      Forall (λ k, ∃ e0, head (entries k.2) = Some e0 ∧ proj (key e0) = proj (key k.1)) kids →
      Forall (λ k, separated proj k.2) kids →
      separated proj (Index id kids).

(** ** Blocks *)
Section btree_lemmas.
Context {R : Type} `{LawfulReader R}.

#[export] Instance Stable_read_verified_node paddr bs : Stable (read_verified_node (R := R) paddr bs).
Proof. unfold read_verified_node. solve_stable. Qed.
#[local] Hint Resolve Stable_read_verified_node : stable.

(** A node that is read has passed the checksum and has the block's length. *)
Lemma read_verified_node_Some paddr bs r buf : 0 <= bs →
  eval (read_verified_node (R := R) paddr bs) r = Ok (Some buf) →
  cksum_ok buf = true ∧ zlen buf = bs ∧ paddr * bs <= u64_max ∧
  eval (read_at (R := R) (paddr * bs) bs) r = Ok buf.
Proof.
  intros Hbs. unfold read_verified_node. destruct (checked_mul _ _) as [off|] eqn:Hm; [|done].
  apply checked_mul_Some in Hm as [-> Hm]. rewrite eval_bind by solve_stable. intros E.
  apply outcome_bind_Ok in E as (b & Hb & E). destruct (cksum_ok b) eqn:Hc; [|done].
  injection E as <-. pose proof Hb as Hl. apply read_at_length in Hl; done.
Qed.

Lemma read_verified_node_no_panic paddr bs r : eval (read_verified_node (R := R) paddr bs) r ≠ Panic.
Proof.
  unfold read_verified_node. destruct (checked_mul _ _); [|done].
  rewrite eval_bind by solve_stable. pose proof (read_at_no_panic z bs r).
  destruct (eval _ r); simpl; [by case_match|done|done].
Qed.

Section walks.
Context (bs : Z) (subtype : BTreeSubtype) {S : Type} (visit : S → bytes → bytes → S).
Notation fetch := (λ p, read_verified_node (R := R) p bs).
Notation holds := (stored fetch all_children subtype).

(** [descend] is the walk over verified blocks. *)
Lemma descend_walk n p st r :
  descend bs subtype visit n p st r
  = walk fetch MAX_BTREE_DEPTH all_children subtype visit n p st r.
Proof.
  revert p st r. induction n as [|n IH]; intros p [visited s] r; [done|]. cbn [descend walk].
  case_decide; [done|]. apply M_bind_ext; [done|]. intros [buf|] r'; [|done].
  destruct (parse_node_header buf); [|done]. case_match; [done|].
  unfold children, all_children. rewrite keep_all by done. by apply foldM_ext.
Qed.

Lemma Stable_descend n p st : Stable (descend (R := R) bs subtype visit n p st).
Proof.
  assert (Hst : Stable (walk fetch MAX_BTREE_DEPTH all_children subtype visit n p st)) by apply Stable_walk, _.
  destruct Hst as [Hv Hk]. split.
  - intros r r' Hr. rewrite !(eval_ext _ _ _ (descend_walk _ _ _ _)). by apply Hv.
  - intros r. rewrite descend_walk. apply Hk.
Qed.
#[local] Hint Resolve Stable_descend : stable.

Lemma Stable_for_each_leaf_entry p s : Stable (for_each_leaf_entry (R := R) bs subtype visit p s).
Proof. unfold for_each_leaf_entry. solve_stable. Qed.

(** The contract of the full walk. *)
Lemma for_each_leaf_entry_Ok_iff root s r s' :
  eval (for_each_leaf_entry bs subtype visit root s) r = Ok s' ↔
  ∃ t, tree_id t = root ∧ holds r t ∧ well_shaped (Z.to_nat MAX_BTREE_DEPTH) t ∧
    s' = visit_all visit (entries t) s.
Proof.
  unfold for_each_leaf_entry. rewrite eval_bind by solve_stable.
  rewrite (eval_ext _ _ _ (descend_walk _ _ _ _)).
  rewrite <- (walk_Ok_iff fetch MAX_BTREE_DEPTH all_children subtype visit).
  split.
  - intros ([v s1] & E & [= <-])%outcome_bind_Ok. eauto.
  - intros [v ->]. done.
Qed.

Context (cmp : bytes → comparison).

Lemma Stable_find_leaf_loop n visited p s :
  Stable (find_leaf_loop (R := R) bs subtype visit cmp n visited p s).
Proof.
  revert visited p s. induction n as [|n IH]; intros visited p s; cbn [find_leaf_loop]; solve_stable.
Qed.
#[local] Hint Resolve Stable_find_leaf_loop : stable.

Lemma Stable_find_leaf p s : Stable (find_leaf (R := R) bs subtype visit cmp p s).
Proof. apply Stable_find_leaf_loop. Qed.
End walks.
End btree_lemmas.
#[export] Hint Resolve Stable_read_verified_node Stable_for_each_leaf_entry Stable_find_leaf_loop
  Stable_find_leaf : stable.

(** ** Panic freedom *)
Section safe.
Context {R : Type} `{ReadSeek R}.

Lemma Safe_read_verified_node p bs : Safe (read_verified_node (R := R) p bs).
Proof. unfold read_verified_node. solve_safe. Qed.
#[local] Hint Resolve Safe_read_verified_node : safe.

Lemma Safe_find_leaf {S} bs subtype (visit : S → bytes → bytes → S) cmp p s :
  Safe (find_leaf (R := R) bs subtype visit cmp p s).
Proof.
  unfold find_leaf. generalize (∅ : gset Z). revert p s.
  induction (Z.to_nat MAX_BTREE_DEPTH) as [|n IH]; intros p s visited; cbn [find_leaf_loop]; solve_safe.
Qed.

Lemma Safe_for_each_leaf_entry {S} bs subtype (visit : S → bytes → bytes → S) p s :
  Safe (for_each_leaf_entry (R := R) bs subtype visit p s).
Proof.
  unfold for_each_leaf_entry. apply Safe_bind; [|solve_safe]. generalize (∅ : gset Z, s). clear s. revert p.
  induction (Z.to_nat MAX_BTREE_DEPTH) as [|n IH]; intros p st; cbn [descend]; solve_safe.
Qed.
End safe.
#[export] Hint Resolve Safe_read_verified_node Safe_find_leaf Safe_for_each_leaf_entry : safe.

(** ** The keyed descent *)
Section find_leaf.
Context {R : Type} `{LawfulReader R}.
Context (bs : Z) (subtype : BTreeSubtype) {S : Type} (visit : S → bytes → bytes → S).
Context (cmp : bytes → comparison).
Notation holds := (stored (λ p, read_verified_node (R := R) p bs) all_children subtype).

(** The child both [pick_child] and [pick] choose. *)
Lemma pick_spec kids k0 :
  ∃ pre k post, k0 :: kids = pre ++ k :: post ∧
    pick_child cmp kids.*1 (child_id k0.1) = child_id k.1 ∧
    (∀ B (f : tree → B), pick cmp (map (λ k, (k.1, f k.2)) kids) (f k0.2) = f k.2) ∧
    (pre = [] ∨ cmp (key k.1) ≠ Gt) ∧
    (∀ k' post', post = k' :: post' → cmp (key k'.1) = Gt).
Proof.
  revert k0. induction kids as [|k1 kids IH]; intros k0.
  { exists [], k0, []. split_and!; auto. done. }
  destruct (cmp (key k1.1)) eqn:Hc.
  3:{ exists [], k0, (k1 :: kids). simpl. rewrite Hc. split_and!; auto. naive_solver. }
  all: destruct (IH k1) as (pre & k & post & Hk & Hp & Hf & Hpre & Hpost);
    exists (k0 :: pre), k, post; simpl; rewrite Hc; split_and!; auto; [by rewrite Hk|];
    destruct Hpre as [->|]; [right|by right]; injection Hk as <- <-; congruence.
Qed.

(** The first turn over [k0] itself changes nothing. *)
Lemma pick_spec_first k0 kids :
  ∃ pre k post, k0 :: kids = pre ++ k :: post ∧
    pick_child cmp (k0 :: kids).*1 (child_id k0.1) = child_id k.1 ∧
    (∀ B (f : tree → B), pick cmp (map (λ k, (k.1, f k.2)) (k0 :: kids)) (f k0.2) = f k.2) ∧
    (pre = [] ∨ cmp (key k.1) ≠ Gt) ∧
    (cmp (key k0.1) = Gt ∨ ∀ k' post', post = k' :: post' → cmp (key k'.1) = Gt).
Proof.
  destruct (cmp (key k0.1)) eqn:Hc.
  3:{ exists [], k0, kids. simpl. rewrite Hc. split_and!; auto. }
  all: destruct (pick_spec kids k0) as (pre & k & post & Hk & Hp & Hf & Hpre & Hpost);
    exists pre, k, post; simpl; rewrite Hc; split_and!; auto.
Qed.

(** The descent visits the landing leaf of a stored tree. *)
Lemma find_leaf_loop_landing r t : ∀ n visited s,
  holds r t → well_shaped n t → (∀ i, i ∈ ids t → i ∉ visited) →
  eval (find_leaf_loop bs subtype visit cmp n visited (tree_id t) s) r
    = Ok (visit_all visit (landing cmp t) s).
Proof.
  induction t as [id|id es|id kids IH] using tree_ind'; intros n visited s Hst [Hnd Hh] Hfresh;
    (destruct n as [|n]; [simpl in Hh; lia|]); cbn [tree_id find_leaf_loop];
    (rewrite decide_False by (apply Hfresh; simpl; set_solver)); eval_step.
  - apply stored_hole_inv in Hst as (node & -> & [->|(buf & -> & Hp)]); simpl; rewrite ?Hp; done.
  - apply stored_leaf_inv in Hst as (buf & hdr & -> & Hp & Hl & ->). simpl. by rewrite Hp, Hl.
  - apply stored_index_inv in Hst as (buf & hdr & -> & Hp & Hl & Hc & Hk).
    cbn [mbind outcome_bind]. rewrite Hp, Hl.
    unfold children, all_children in Hc. rewrite keep_all in Hc by done. rewrite Hc.
    destruct kids as [|k0 kids]; [done|]. cbn [fmap list_fmap].
    destruct (pick_spec_first k0 kids) as (pre & k & post & Hks & Hpk & Hf & _).
    cbn [fmap list_fmap] in Hpk. unfold child_id in Hpk.
    cbn [landing map snd]. cbn [map] in Hf. rewrite Hpk, Hf. fold (child_id k.1).
    assert (Hin : k ∈ k0 :: kids) by (rewrite Hks; set_solver).
    pose proof (proj1 (Forall_forall _ _) Hk k Hin) as [<- Hkst].
    apply (proj1 (Forall_forall _ _) IH k Hin); [done|split|].
    + apply NoDup_cons in Hnd as [_ Hnd]. rewrite Hks in Hnd.
      rewrite map_app, concat_app in Hnd. apply NoDup_app in Hnd as (_ & _ & Hnd).
      simpl in Hnd. by apply NoDup_app in Hnd as (Hnd & _).
    + apply le_S_n in Hh. cbn [height] in Hh. apply list_max_le in Hh. apply Forall_map in Hh.
      by apply (proj1 (Forall_forall _ _) Hh k Hin).
    + assert (Hsub : ∀ i, i ∈ ids k.2 → i ∈ concat (map (λ k, ids k.2) (k0 :: kids))).
      { intros i Hi. rewrite Hks, map_app, concat_app. simpl. rewrite !elem_of_app. auto. }
      intros i Hi [->%elem_of_singleton|Hv]%elem_of_union.
      * apply NoDup_cons in Hnd as [Hid _]. by apply Hid, Hsub.
      * apply (Hfresh i); [|done]. apply elem_of_cons. right. by apply Hsub.
Qed.

Lemma find_leaf_landing r t s :
  holds r t → well_shaped (Z.to_nat MAX_BTREE_DEPTH) t →
  eval (find_leaf bs subtype visit cmp (tree_id t) s) r = Ok (visit_all visit (landing cmp t) s).
Proof. intros. apply find_leaf_loop_landing; [done..|set_solver]. Qed.
End find_leaf.

(** On a tree with exact separators the landing leaf holds the floor of the target:
    what is left of it in key order is below the leaf's own first key, what is right of
    it is above the target. *)
Section separated.
Context {K : Type} (proj : bytes → K) (lt : relation K) (cmpK : K → comparison).
Context (cmp_mono : ∀ a b, lt a b → cmpK a = Gt → cmpK b = Gt).
Notation cmp := (λ k, cmpK (proj k)).
Notation ekey := (λ e, proj (key e)).

Lemma separated_inv id kids : separated proj (Index id kids) →
  kids ≠ [] ∧
  Forall (λ k, ∃ e0, head (entries k.2) = Some e0 ∧ proj (key e0) = proj (key k.1)) kids ∧
  Forall (λ k, separated proj k.2) kids.
Proof. by inversion 1. Qed.

Lemma sorted_Gt l e : StronglySorted lt (ekey <$> l) → head l = Some e → cmp (key e) = Gt →
  Forall (λ e, cmp (key e) = Gt) l.
Proof.
  destruct l as [|e' l]; [done|]. intros Hs [= ->] He. constructor; [done|].
  rewrite fmap_cons in Hs. inversion_clear Hs as [|?? _ Hall]. rewrite Forall_fmap in Hall.
  eapply Forall_impl; [done|]. simpl. eauto.
Qed.

Notation flat kids := (concat (map (λ k, entries k.2) kids)).
Notation exact := (Forall (λ k, ∃ e0, head (entries k.2) = Some e0 ∧ proj (key e0) = proj (key k.1))).

Lemma flat_Gt kids : exact kids → StronglySorted lt (ekey <$> flat kids) →
  (∀ k kids', kids = k :: kids' → cmp (key k.1) = Gt) → Forall (λ e, cmp (key e) = Gt) (flat kids).
Proof.
  destruct kids as [|k kids]; [constructor|]. intros [(e0 & He & Hp) _]%Forall_cons Hs HGt.
  apply (sorted_Gt _ e0); [done| |rewrite Hp; eauto].
  simpl. by destruct (entries k.2).
Qed.

Lemma landing_split t : separated proj t → StronglySorted lt (ekey <$> entries t) →
  ∃ pre post, entries t = pre ++ landing cmp t ++ post ∧
    Forall (λ e, cmp (key e) = Gt) post ∧
    (pre = [] ∨ ∃ e0, head (landing cmp t) = Some e0 ∧ cmp (key e0) ≠ Gt).
Proof.
  induction t as [id|id es|id kids IH] using tree_ind'; intros Hsep Hs.
  { by inversion Hsep. }
  { exists [], []. rewrite app_nil_r. auto. }
  apply separated_inv in Hsep as (Hne & Hheads & Hseps).
  destruct kids as [|k0 kids]; [done|].
  destruct (pick_spec_first cmp k0 kids) as (pre & k & post & Hks & _ & Hf & Hpre & Hpost).
  cbn [landing map snd]. cbn [map] in Hf. rewrite Hf. clear Hf.
  cbn [entries] in *.
  assert (Hcat : flat (k0 :: kids) = flat pre ++ entries k.2 ++ flat post).
  { by rewrite Hks, map_app, concat_app. }
  assert (Hpost' : Forall (λ e, cmp (key e) = Gt) (flat post)).
  { destruct Hpost as [HGt|HGt].
    - assert (Hall : Forall (λ e, cmp (key e) = Gt) (flat (k0 :: kids))).
      { apply flat_Gt; [done..|naive_solver]. }
      rewrite Hcat in Hall. by apply Forall_app in Hall as [_ [_ Hall]%Forall_app].
    - rewrite Hcat, !fmap_app in Hs. apply StronglySorted_app in Hs as (_ & _ & (_ & _ & Hs)%StronglySorted_app).
      apply flat_Gt; [|done|done]. rewrite Hks in Hheads. by apply Forall_app in Hheads as [_ [_ Hh]%Forall_cons]. }
  rewrite Hks in IH, Hheads, Hseps. apply Forall_app in IH as [_ [IH _]%Forall_cons].
  apply Forall_app in Hheads as [_ [(e0 & He0 & Hp0) _]%Forall_cons].
  apply Forall_app in Hseps as [_ [Hsep _]%Forall_cons].
  rewrite Hcat, !fmap_app in Hs. apply StronglySorted_app in Hs as (_ & _ & (_ & Hs & _)%StronglySorted_app).
  destruct (IH Hsep Hs) as (p & q & Hpq & Hq & Hp).
  exists (flat pre ++ p), (q ++ flat post).
  split_and!; [by rewrite Hcat, Hpq, <- !app_assoc|by apply Forall_app|].
  destruct Hp as [->|Hp]; [|by right]. rewrite app_nil_r.
  destruct Hpre as [->|Hpre]; [by left|]. right. rewrite <- Hp0 in Hpre.
  rewrite Hpq in He0. simpl in He0. destruct (landing cmp k.2) as [|e l]; [|injection He0 as ->; eauto].
  simpl in He0. destruct q; [done|]. injection He0 as ->. by apply Forall_cons in Hq as [? _].
Qed.
End separated.
