(* ===== verification/Forest.v ===== *)
(** * Writing trees of any shape

    The builders of [Build] write one node.  A writer of a whole tree also decides how
    the records are cut into leaves and how many index levels there are.  [shape] is that
    decision; [grow] fills a shape with records, numbers its nodes in preorder and puts
    into every index the first key of each child; [node_block] is the block of a node.
    Whatever the shape, the grown tree holds exactly the records, with exact separators
    and distinct ids, and the blocks of its nodes store it. *)
From S2P Require Import Prelude Bytes Reader Object Node Build Walk BTree.

(** ** The writer *)

(** A leaf of [n] records, or an index of children. *)
Inductive shape :=
  | SLeaf (n : nat)
  | SIndex (kids : list shape).

(** The records a shape holds, its nodes, its levels. *)
Fixpoint count (s : shape) : nat :=
  match s with SLeaf n => n | SIndex kids => list_sum (map count kids) end.
Fixpoint size (s : shape) : nat :=
  match s with SLeaf _ => 1 | SIndex kids => S (list_sum (map size kids)) end.
Fixpoint levels (s : shape) : nat :=
  match s with SLeaf _ => 1 | SIndex kids => S (list_max (map levels kids)) end.

(** No leaf and no index is empty. *)
Fixpoint full (s : shape) : bool :=
  match s with
  | SLeaf n => (0 <? n)%nat
  | SIndex kids => match kids with [] => false | _ => forallb full kids end
  end.

(** A tree of one leaf may be empty. *)
Definition root_full (s : shape) : bool := match s with SLeaf _ => true | SIndex _ => full s end.

(** The index entry of a child: its first key, and its id. *)
Definition separator (t : tree) : Entry :=
  {| key := match head (entries t) with Some e => key e | None => [] end;
     value := to_le_bytes 8 (tree_id t) |}.

Section kids.
Context (grow : shape → Z → list Entry → tree).

Fixpoint grow_kids (kids : list shape) (id : Z) (rs : list Entry) : list (Entry * tree) :=
  match kids with
  | [] => []
  | s :: kids' =>
      let t := grow s id (take (count s) rs) in
      (separator t, t) :: grow_kids kids' (id + Z.of_nat (size s)) (drop (count s) rs)
  end.
End kids.

Fixpoint grow (s : shape) (id : Z) (rs : list Entry) : tree :=
  match s with
  | SLeaf _ => Leaf id rs
  | SIndex kids => Index id (grow_kids grow kids (id + 1) rs)
  end.

(** The root has an id of its own; the other nodes are numbered from [next]. *)
Definition grow_at (s : shape) (root next : Z) (rs : list Entry) : tree :=
  match s with
  | SLeaf _ => Leaf root rs
  | SIndex kids => Index root (grow_kids grow kids next rs)
  end.

(** The nodes of a tree in preorder, and the block of a node. *)
Fixpoint nodes (t : tree) : list tree :=
  t :: match t with Index _ kids => concat (map (λ k, nodes k.2) kids) | _ => [] end.

Definition node_records (n : tree) : list Entry :=
  match n with Hole _ => [] | Leaf _ es => es | Index _ kids => kids.*1 end.
Definition leaf_node (n : tree) : bool := match n with Index _ _ => false | _ => true end.

(** What the nodes of one tree have in common: the transaction and the subtype of their
    headers, whether records have a fixed length, and the id of the root. *)
Record node_format := { nf_xid : Z; nf_subtype : Z; nf_fixed : bool; nf_root : Z }.

Definition is_root_node (f : node_format) (n : tree) : bool := bool_decide (tree_id n = nf_root f).

Definition node_block (f : node_format) (n : tree) : bytes :=
  encode_node 4096 (tree_id n) (nf_xid f) 0x40000002 (nf_subtype f) (is_root_node f n) (leaf_node n) (nf_fixed f)
    (Z.of_nat (height n) - 1) (node_records n).

Definition node_fits (f : node_format) (n : tree) : bool :=
  node_used (is_root_node f n) (nf_fixed f) (node_records n) <=? 4096.

(** A shape for these records whose nodes fit their blocks. *)
Record fills (f : node_format) (next : Z) (s : shape) (rs : list Entry) : Prop := {
  fl_count : length rs = count s;
  fl_full : root_full s = true;
  fl_levels : (levels s ≤ 64)%nat;
  fl_nodes : Forall (λ n, node_fits f n = true) (nodes (grow_at s (nf_root f) next rs));
}.

(** ** The grown tree *)

Lemma shape_ind' (P : shape → Prop) :
  (∀ n, P (SLeaf n)) → (∀ kids, Forall P kids → P (SIndex kids)) → ∀ s, P s.
Proof.
  intros HL HI. fix IH 1. intros [n|kids]; [apply HL|apply HI].
  induction kids as [|s kids IHk]; constructor; [apply IH|apply IHk].
Qed.

Lemma grow_eq s id rs : grow s id rs = grow_at s id (id + 1) rs.
Proof. by destruct s. Qed.

Lemma tree_id_grow_at s root next rs : tree_id (grow_at s root next rs) = root.
Proof. by destruct s. Qed.

Lemma tree_id_grow s id rs : tree_id (grow s id rs) = id.
Proof. by destruct s. Qed.

Lemma take_drop_length {A} (rs : list A) n m : length rs = (n + m)%nat → length (take n rs) = n ∧ length (drop n rs) = m.
Proof. intros. rewrite length_take, length_drop. lia. Qed.

(** The records are in the leaves, in order. *)
Lemma grow_kids_entries kids :
  Forall (λ s, ∀ id rs, length rs = count s → entries (grow s id rs) = rs) kids →
  ∀ id rs, length rs = list_sum (map count kids) → concat (map (λ k, entries k.2) (grow_kids grow kids id rs)) = rs.
Proof.
  induction 1 as [|s kids Hs _ IH]; intros id rs Hl; [symmetry; by apply nil_length_inv|].
  apply take_drop_length in Hl as [Ht Hd]. cbn [grow_kids map concat snd].
  by rewrite Hs, IH, take_drop.
Qed.

Lemma grow_entries s id rs : length rs = count s → entries (grow s id rs) = rs.
Proof.
  revert id rs. induction s as [n|kids IH] using shape_ind'; intros id rs Hl; [done|]. by apply grow_kids_entries.
Qed.

Lemma grow_at_entries s root next rs : length rs = count s → entries (grow_at s root next rs) = rs.
Proof.
  destruct s as [n|kids]; [done|]. intros Hl. apply grow_kids_entries; [|done].
  apply Forall_true. intros; by apply grow_entries.
Qed.

(** The nodes are numbered from [next]. *)
Lemma grow_kids_ids kids :
  Forall (λ s, ∀ id rs, ids (grow s id rs) = seqZ id (Z.of_nat (size s))) kids →
  ∀ id rs, concat (map (λ k, ids k.2) (grow_kids grow kids id rs)) = seqZ id (Z.of_nat (list_sum (map size kids))).
Proof.
  induction 1 as [|s kids Hs _ IH]; intros id rs; [done|]. cbn [grow_kids map concat snd].
  rewrite Hs, IH. change (list_sum (size s :: map size kids)) with (size s + list_sum (map size kids))%nat.
  rewrite Nat2Z.inj_add, seqZ_app by lia. done.
Qed.

Lemma grow_ids s id rs : ids (grow s id rs) = seqZ id (Z.of_nat (size s)).
Proof.
  revert id rs. induction s as [n|kids IH] using shape_ind'; intros id rs; [done|]. cbn [grow ids size].
  rewrite grow_kids_ids by done. rewrite (seqZ_cons id) by lia. f_equal; f_equal; lia.
Qed.

Lemma grow_at_ids s root next rs : ids (grow_at s root next rs) = root :: seqZ next (Z.of_nat (size s) - 1).
Proof.
  destruct s as [n|kids]; [done|]. cbn [grow_at ids size].
  rewrite grow_kids_ids by (apply Forall_true; intros; apply grow_ids). f_equal. f_equal. lia.
Qed.

(** The levels of the tree are those of the shape. *)
Lemma grow_kids_height kids : Forall (λ s, ∀ id rs, height (grow s id rs) = levels s) kids →
  ∀ id rs, map (λ k, height k.2) (grow_kids grow kids id rs) = map levels kids.
Proof. induction 1 as [|s kids Hs _ IH]; intros id rs; [done|]. cbn [grow_kids map snd]. by rewrite Hs, IH. Qed.

Lemma grow_height s id rs : height (grow s id rs) = levels s.
Proof.
  revert id rs. induction s as [n|kids IH] using shape_ind'; intros id rs; [done|]. cbn [grow height levels].
  by rewrite grow_kids_height.
Qed.

Lemma grow_at_height s root next rs : height (grow_at s root next rs) = levels s.
Proof.
  destruct s as [n|kids]; [done|]. cbn [grow_at height levels].
  by rewrite grow_kids_height by (apply Forall_true; intros; apply grow_height).
Qed.

(** Without empty leaves every subtree has a first record. *)
Lemma full_count s : full s = true → (0 < count s)%nat.
Proof.
  induction s as [n|kids IH] using shape_ind'; cbn [full count]; [intros ?%Nat.ltb_lt; lia|].
  destruct IH as [|s kids Hs _]; [done|]. intros [Hf _]%andb_true_iff. specialize (Hs Hf). cbn [map list_sum fold_right]. lia.
Qed.

Lemma full_kids kids : full (SIndex kids) = true → kids ≠ [] ∧ Forall (λ s, full s = true) kids.
Proof. cbn [full]. destruct kids as [|s kids]; [done|]. intros Hf. split; [done|].
  apply Forall_forall. intros x Hx. rewrite forallb_forall in Hf. by apply Hf, list_elem_of_In. Qed.

Lemma separator_key s id rs : full s = true → length rs = count s →
  ∃ e, e ∈ rs ∧ head (entries (grow s id rs)) = Some e ∧ key (separator (grow s id rs)) = key e.
Proof.
  intros Hf Hl. pose proof (full_count s Hf) as Hc. unfold separator. rewrite grow_entries by done.
  destruct rs as [|e rs]; simpl in *; [lia|]. exists e. split; [by left|done].
Qed.

(** Separators are exact. *)
Lemma grow_kids_separated {K} (proj : bytes → K) kids :
  Forall (λ s, ∀ id rs, full s = true → length rs = count s → separated proj (grow s id rs)) kids →
  Forall (λ s, full s = true) kids →
  ∀ id rs, length rs = list_sum (map count kids) →
  Forall (λ k, (∃ e0, head (entries k.2) = Some e0 ∧ proj (key e0) = proj (key k.1)) ∧ separated proj k.2)
    (grow_kids grow kids id rs).
Proof.
  induction 1 as [|s kids Hs _ IH]; intros Hf id rs Hl; [constructor|].
  apply Forall_cons in Hf as [Hf Hfs]. apply take_drop_length in Hl as [Ht Hd]. cbn [grow_kids].
  constructor; [|by apply IH]. cbn [fst snd]. split; [|by apply Hs].
  destruct (separator_key s id (take (count s) rs) Hf Ht) as (e & _ & Hh & Hk). exists e. by rewrite Hk.
Qed.

Lemma separated_kids {K} (proj : bytes → K) root kids next rs :
  Forall (λ s, ∀ id rs, full s = true → length rs = count s → separated proj (grow s id rs)) kids →
  full (SIndex kids) = true → length rs = count (SIndex kids) →
  separated proj (Index root (grow_kids grow kids next rs)).
Proof.
  intros IH [Hne Hf]%full_kids Hl.
  pose proof (grow_kids_separated proj kids IH Hf next rs Hl) as [Hh Hs]%Forall_and.
  constructor; [|exact Hh|exact Hs]. by destruct kids.
Qed.

Lemma grow_separated {K} (proj : bytes → K) s id rs :
  full s = true → length rs = count s → separated proj (grow s id rs).
Proof.
  revert id rs. induction s as [n|kids IH] using shape_ind'; intros id rs Hf Hl; [constructor|].
  by apply separated_kids.
Qed.

Lemma grow_at_separated {K} (proj : bytes → K) s root next rs :
  root_full s = true → length rs = count s → separated proj (grow_at s root next rs).
Proof.
  destruct s as [n|kids]; intros Hf Hl; [constructor|]. apply separated_kids; [|done..].
  apply Forall_true. intros s id rs'. apply grow_separated.
Qed.

(** *** The nodes *)

Lemma ids_nodes t : ids t = tree_id <$> nodes t.
Proof.
  induction t as [id|id es|id kids IH] using tree_ind'; [done..|]. cbn [ids nodes]. rewrite fmap_cons. f_equal.
  induction IH as [|k kids Hk _ IHk]; [done|]. cbn [map concat]. by rewrite fmap_app, <- Hk, <- IHk.
Qed.

Lemma length_nodes s root next rs : length (nodes (grow_at s root next rs)) = size s.
Proof.
  rewrite <- (length_fmap tree_id), <- ids_nodes, grow_at_ids. cbn [length]. rewrite length_seqZ. destruct s; cbn [size]; lia.
Qed.

(** The [j]-th node after the root has the [j]-th id from [next]. *)
Lemma grow_at_tail s root next rs j n : tail (nodes (grow_at s root next rs)) !! j = Some n → tree_id n = next + Z.of_nat j.
Proof.
  intros Hn. assert (E : tree_id <$> nodes (grow_at s root next rs) = root :: seqZ next (Z.of_nat (size s) - 1))
    by by rewrite <- ids_nodes, grow_at_ids.
  destruct (nodes _) as [|n0 l]; [done|]. injection E as _ E. cbn [tail] in Hn.
  pose proof (f_equal (λ l, l !! j) E) as Ej. cbv beta in Ej. rewrite list_lookup_fmap, Hn in Ej. cbn in Ej.
  symmetry in Ej. apply lookup_seqZ in Ej as [-> _]. done.
Qed.

Lemma nodes_height t : Forall (λ n, 1 ≤ height n ≤ height t)%nat (nodes t).
Proof.
  induction t as [id|id es|id kids IH] using tree_ind'; [by repeat constructor..|]. cbn [nodes]. constructor.
  { cbn [height]. lia. }
  apply Forall_concat. rewrite Forall_map. apply Forall_forall. intros k Hk. rewrite Forall_forall in IH.
  eapply Forall_impl; [by apply IH|]. intros n [Hn1 Hn2]. cbn [height].
  assert (height k.2 ≤ list_max (map (λ k, height k.2) kids))%nat; [|lia].
  pose proof (proj1 (list_max_le (map (λ k, height k.2) kids) _) (le_n _)) as Hall.
  rewrite Forall_map in Hall. by apply (proj1 (Forall_forall _ _) Hall).
Qed.

(** What a node of a grown tree holds: records, or an entry of eight bytes for each
    child, with the key of a record. *)
Definition node_ok (rs : list Entry) (n : tree) : Prop :=
  match n with
  | Hole _ => False
  | Leaf _ es => es ⊆ rs
  | Index _ kids => kids ≠ [] ∧
      Forall (λ k, value k.1 = to_le_bytes 8 (tree_id k.2) ∧ ∃ e, e ∈ rs ∧ key k.1 = key e) kids
  end.

Lemma node_ok_mono rs rs' n : rs ⊆ rs' → node_ok rs n → node_ok rs' n.
Proof.
  intros Hr. destruct n as [|id es|id kids]; [done|cbn; intros He; set_solver|].
  intros [Hne Hk]. split; [done|]. eapply Forall_impl; [exact Hk|]. cbn. naive_solver.
Qed.

Lemma grow_kids_nodes kids :
  Forall (λ s, ∀ id rs, full s = true → length rs = count s →
    Forall (node_ok rs) (nodes (grow s id rs))) kids →
  Forall (λ s, full s = true) kids →
  ∀ id rs, length rs = list_sum (map count kids) →
  Forall (λ k, value k.1 = to_le_bytes 8 (tree_id k.2) ∧ ∃ e, e ∈ rs ∧ key k.1 = key e) (grow_kids grow kids id rs) ∧
  Forall (node_ok rs) (concat (map (λ k, nodes k.2) (grow_kids grow kids id rs))).
Proof.
  induction 1 as [|s kids Hs _ IH]; intros Hf id rs Hl; [split; constructor|].
  apply Forall_cons in Hf as [Hf Hfs]. apply take_drop_length in Hl as [Ht Hd].
  destruct (IH Hfs (id + Z.of_nat (size s)) (drop (count s) rs)) as [Hk Hn]; [done|].
  assert (Hsub : ∀ e, e ∈ drop (count s) rs → e ∈ rs) by (intros e He; rewrite <- (take_drop (count s) rs); set_solver).
  assert (Hsub' : ∀ e, e ∈ take (count s) rs → e ∈ rs) by (intros e He; rewrite <- (take_drop (count s) rs); set_solver).
  cbn [grow_kids map concat snd]. split.
  - constructor; [|eapply Forall_impl; [exact Hk|]; cbn; naive_solver]. cbn [fst snd].
    split; [unfold separator; cbn [value]; by rewrite tree_id_grow|].
    destruct (separator_key s id (take (count s) rs) Hf Ht) as (e & He & _ & Hke). eauto.
  - apply Forall_app. split.
    + eapply Forall_impl; [by apply (Hs id (take (count s) rs))|]. intros n. by apply node_ok_mono.
    + eapply Forall_impl; [exact Hn|]. intros n. by apply node_ok_mono.
Qed.

Lemma index_nodes root kids next rs :
  Forall (λ s, ∀ id rs, full s = true → length rs = count s →
    Forall (node_ok rs) (nodes (grow s id rs))) kids →
  full (SIndex kids) = true → length rs = count (SIndex kids) →
  Forall (node_ok rs) (nodes (Index root (grow_kids grow kids next rs))).
Proof.
  intros IH [Hne Hf]%full_kids Hl. destruct (grow_kids_nodes kids IH Hf next rs Hl) as [Hk Hn].
  cbn [nodes]. constructor; [|exact Hn]. split; [by destruct kids|exact Hk].
Qed.

Lemma grow_nodes s id rs : full s = true → length rs = count s →
  Forall (node_ok rs) (nodes (grow s id rs)).
Proof.
  revert id rs. induction s as [n|kids IH] using shape_ind'; intros id rs Hf Hl; [constructor; [intros e He; exact He|constructor]|].
  by apply index_nodes.
Qed.

Lemma grow_at_nodes s root next rs : root_full s = true →
  length rs = count s → Forall (node_ok rs) (nodes (grow_at s root next rs)).
Proof.
  destruct s as [n|kids]; intros Hf Hl; [constructor; [intros e He; exact He|constructor]|].
  apply index_nodes; [|done..]. apply Forall_true. intros s id rs'. apply grow_nodes.
Qed.

(** The level of a node is a [u16], and an index is above its leaves. *)
Lemma node_level rs n : node_ok rs n → (height n ≤ 64)%nat →
  in_u16 (Z.of_nat (height n) - 1) ∧ (leaf_node n = false → Z.of_nat (height n) - 1 ≠ 0).
Proof.
  intros Hok Hh. pose proof (nodes_height n) as Hn. destruct (nodes n) as [|t l] eqn:E; [by destruct n|].
  apply Forall_cons in Hn as [Ht _]. split; [unfold in_u16; lia|]. clear E Ht.
  destruct n as [|id es|id [|k kids]]; [done..|by destruct Hok|]. intros _. cbn [height map list_max fold_right].
  pose proof (nodes_height k.2) as Hk. destruct (nodes k.2) as [|t' l'] eqn:E; [by destruct k.2|].
  apply Forall_cons in Hk as [[] _]. lia.
Qed.

(** A node of a filled shape: what it holds and its place among the levels. *)
Lemma fills_node f next s rs n : fills f next s rs → n ∈ nodes (grow_at s (nf_root f) next rs) →
  node_ok rs n ∧ (height n ≤ 64)%nat ∧ node_fits f n = true.
Proof.
  intros [Hc Hf Hl Hn] Hin. split; [|split].
  - by apply (proj1 (Forall_forall _ _) (grow_at_nodes s (nf_root f) next rs Hf Hc)).
  - pose proof (proj1 (Forall_forall _ _) (nodes_height _) n Hin) as Hh. rewrite grow_at_height in Hh. lia.
  - by apply (proj1 (Forall_forall _ _) Hn).
Qed.

(** Its block is one whole block with a good checksum. *)
Lemma fills_block f next s rs n : fills f next s rs → n ∈ nodes (grow_at s (nf_root f) next rs) →
  zlen (node_block f n) = 4096 ∧ cksum_ok (node_block f n) = true.
Proof.
  intros Hfill Hin. destruct (fills_node _ _ _ _ _ Hfill Hin) as (Hok & Hh & Hfits). apply Z.leb_le in Hfits.
  destruct (node_level rs n Hok Hh) as [Hl Hnz]. split; [|unfold node_block; apply encode_node_cksum; exact Hnz].
  unfold node_block. apply encode_node_length; [exact Hl|exact Hnz|exact Hfits|done].
Qed.

(** ** The blocks store the tree *)
Section stored.
Context {R : Type} `{ReadSeek R}.
Context (fetch : Z → M R (option bytes)) (subtype : BTreeSubtype) (r : R) (f : node_format) (rs : list Entry).
Context (Hleaf : Forall (record_fits subtype true (nf_fixed f)) rs).
Context (Hindex : nf_fixed f = true → fixed_branch_val_len subtype = 8).

(** A node of the tree whose block is on the source. *)
Definition held (n : tree) : Prop :=
  node_ok rs n ∧ (height n ≤ 64)%nat ∧ node_fits f n = true ∧ in_u64 (tree_id n) ∧
  eval (fetch (tree_id n)) r = Ok (Some (node_block f n)).

Lemma node_records_fit n : node_ok rs n → Forall (record_fits subtype (leaf_node n) (nf_fixed f)) (node_records n).
Proof.
  destruct n as [|id es|id kids]; [done| |]; cbn [node_ok leaf_node node_records].
  - intros He. apply Forall_forall. intros e Hin. by apply (proj1 (Forall_forall _ _) Hleaf), He.
  - intros [_ Hk]. apply Forall_fmap. eapply Forall_impl; [exact Hk|]. intros k (Hv & e & He & Hke).
    pose proof (proj1 (Forall_forall _ _) Hleaf e He) as Hfit. unfold record_fits in *. cbn [compose].
    destruct (nf_fixed f); [|done]. rewrite Hke, Hv, Hindex, zlen_to_le_bytes by done. by destruct Hfit.
Qed.

(** The header and the records of a node's block. *)
Lemma node_block_decodes n : node_ok rs n → (height n ≤ 64)%nat → node_fits f n = true →
  (∃ hdr, parse_node_header (node_block f n) = Some hdr ∧ BTreeNodeHeader.is_leaf hdr = leaf_node n) ∧
  node_entries (node_block f n) subtype = node_records n.
Proof.
  intros Hok Hh Hfits%Z.leb_le. destruct (node_level rs n Hok Hh) as [Hlevel Hnz].
  pose proof (node_records_fit n Hok) as Hfit. unfold node_block. split.
  - eexists. split; [by apply (encode_node_header _ _ _ _ _ _ _ _ _ subtype)|].
    by apply (encoded_is_leaf 4096 _ _ _ _ subtype).
  - by apply node_entries_encoded.
Qed.

Lemma held_stored t : Forall held (nodes t) → stored fetch all_children subtype r t.
Proof.
  induction t as [id|id es|id kids IH] using tree_ind'; intros Hn; cbn [nodes] in Hn;
    apply Forall_cons in Hn as [(Hok & Hh & Hfits & _ & Hf) Hn]; [done| |].
  - destruct (node_block_decodes (Leaf id es) Hok Hh Hfits) as [(hdr & Hp & Hl) He].
    change es with (node_records (Leaf id es)). rewrite <- He. by eapply stored_leaf.
  - destruct (node_block_decodes (Index id kids) Hok Hh Hfits) as [(hdr & Hp & Hl) He].
    eapply stored_index; [exact Hf|exact Hp|exact Hl| |].
    + unfold children. rewrite He. cbn [node_records]. by apply keep_all.
    + apply Forall_concat in Hn. rewrite Forall_map in Hn. destruct Hok as [_ Hk].
      rewrite !Forall_forall in *. intros k Hin. specialize (Hn k Hin). split; [|by apply IH].
      unfold child_id. rewrite (proj1 (Hk k Hin)). rewrite <- (app_nil_r (to_le_bytes 8 _)).
      assert (Hid : in_u64 (tree_id k.2)) by (destruct k.2; apply Forall_cons in Hn as [(_ & _ & _ & Hid & _) _]; exact Hid).
      symmetry. read_field. exact Hid.
Qed.
End stored.

(** The whole contract: a shape that is filled with records and held on the source is a
    stored tree of these records. *)
Lemma grown_tree {R} `{ReadSeek R} fetch subtype (r : R) f next s rs :
  fills f next s rs → in_u64 (nf_root f) → 0 <= next → next + Z.of_nat (size s) <= 2 ^ 64 →
  ¬ next <= nf_root f < next + Z.of_nat (size s) - 1 →
  Forall (record_fits subtype true (nf_fixed f)) rs → (nf_fixed f = true → fixed_branch_val_len subtype = 8) →
  (∀ n, n ∈ nodes (grow_at s (nf_root f) next rs) → eval (fetch (tree_id n)) r = Ok (Some (node_block f n))) →
  let t := grow_at s (nf_root f) next rs in
  tree_id t = nf_root f ∧ entries t = rs ∧ stored fetch all_children subtype r t ∧ well_shaped 64 t ∧
  ∀ K (proj : bytes → K), separated proj t.
Proof.
  intros Hfill Hid H0 Hb Hroot Hr Hx Hfetch t. pose proof Hfill as [Hc Hf Hl _]. split_and!.
  - apply tree_id_grow_at.
  - by apply grow_at_entries.
  - apply (held_stored fetch subtype r f rs Hr Hx), Forall_forall. intros n Hin.
    destruct (fills_node _ _ _ _ _ Hfill Hin) as (Hok & Hh & Hfits). split_and!; [done..| |by apply Hfetch].
    assert (Hi : tree_id n ∈ ids t) by (rewrite ids_nodes; by apply list_elem_of_fmap_2). unfold t in Hi.
    rewrite grow_at_ids in Hi. apply elem_of_cons in Hi as [->|Hi%elem_of_seqZ]; [done|unfold in_u64; lia].
  - unfold t. split; [|by rewrite grow_at_height]. rewrite grow_at_ids. apply NoDup_cons. split; [|apply NoDup_seqZ].
    rewrite elem_of_seqZ. lia.
  - intros K proj. by apply grow_at_separated.
Qed.
