(* ===== verification/Omap.v ===== *)
(** * Object maps ([src/src/omap.rs])

    [ObjectMap.parse] reads an [omap_phys_t]; [resolve] maps a virtual object id at a
    transaction to a block by one keyed descent.  The abstract specification is the
    newest mapping over all the entries of the tree: [resolve] refines it, although it
    reads one leaf. *)
From S2P Require Import Prelude Bytes Reader Object Node Build Walk BTree.

Definition OBJECT_TYPE_OMAP : Z := 0xb.
Definition OFF_OM_FLAGS : Z := 32.
Definition OFF_OM_TREE_TYPE : Z := 40.
Definition OFF_OM_TREE_OID : Z := 48.
Definition OFF_OM_SNAPSHOT_TREE_OID : Z := 56.
Definition OMAP_PHYS_MIN_LEN : Z := OFF_OM_TREE_OID + 8.

Module OmapEntry.
Record t := mk { oid : Z; xid : Z; paddr : Z; size : Z; flags : Z }.
End OmapEntry.

Module ObjectMap.
Record t := mk { self_flags : Z; self_tree_type : Z; self_tree_oid : Z; self_snapshot_tree_oid : Z }.

(** The accessors of the private fields. *)
Definition flags (self : t) : Z := self_flags self.
Definition tree_type (self : t) : Z := self_tree_type self.
Definition tree_oid (self : t) : Z := self_tree_oid self.
Definition snapshot_tree_oid (self : t) : Z := self_snapshot_tree_oid self.

Definition parse (block : bytes) : outcome t :=
  if zlen block <? OMAP_PHYS_MIN_LEN
  then Err (UnexpectedObjectType "omap_phys" OBJECT_TYPE_OMAP 0) else
  match ObjPhys.parse block with
  | None => Err (UnexpectedObjectType "omap_phys" OBJECT_TYPE_OMAP 0)
  | Some hdr =>
      if negb (ObjPhys.obj_type hdr =? OBJECT_TYPE_OMAP)
      then Err (UnexpectedObjectType "omap_phys" OBJECT_TYPE_OMAP (ObjPhys.obj_type_raw hdr)) else
      let stored := fletcher64_stored block in
      let computed := fletcher64_checksum block in
      if negb (stored =? computed) then Err (ChecksumMismatch (ObjPhys.oid hdr) stored computed) else
      Ok {|
        self_flags := le_u32 block OFF_OM_FLAGS;
        self_tree_type := le_u32 block OFF_OM_TREE_TYPE;
        self_tree_oid := le_u64 block OFF_OM_TREE_OID;
        self_snapshot_tree_oid := le_u64 block OFF_OM_SNAPSHOT_TREE_OID;
      |}
  end.
End ObjectMap.

(** [omap_key]: the object id and the transaction id of a key. *)
Definition decode_omap_key (key : bytes) : Z * Z := (le_u64 key 0, le_u64 key 8).

(** [Ord] on a pair of integers. *)
Definition cmp_pair (a b : Z * Z) : comparison :=
  match a.1 ?= b.1 with Eq => a.2 ?= b.2 | c => c end.

Definition omap_entry (key value : bytes) : OmapEntry.t :=
  {| OmapEntry.oid := le_u64 key 0; OmapEntry.xid := le_u64 key 8;
     OmapEntry.flags := le_u32 value 0; OmapEntry.size := le_u32 value 4;
     OmapEntry.paddr := le_u64 value 8 |}.

(** The callback of [resolve]: [best] so far. *)
Definition omap_visit (oid xid : Z) (best : option OmapEntry.t) (key value : bytes) : option OmapEntry.t :=
  let k_oid := le_u64 key 0 in
  let k_xid := le_u64 key 8 in
  if negb (k_oid =? oid) || (xid <? k_xid) then best else
  match best with
  | None => Some (omap_entry key value)
  | Some b => if OmapEntry.xid b <? k_xid then Some (omap_entry key value) else best
  end.

Definition omap_cmp (oid xid : Z) (key : bytes) : comparison := cmp_pair (decode_omap_key key) (oid, xid).

Definition resolve {R} `{ReadSeek R} (om : ObjectMap.t) (oid xid block_size : Z) : M R OmapEntry.t :=
  best ← find_leaf block_size Omap (omap_visit oid xid) (omap_cmp oid xid) (ObjectMap.tree_oid om) None;
  lift (ok_or (OmapUnresolved oid xid) best).

(** [omap_block]: the object map of a tree root. *)
Definition omap_block (bs oid tree_block : Z) : bytes :=
  seal (zeroed 8 ++ to_le_bytes 8 oid ++ to_le_bytes 8 0 ++ to_le_bytes 4 0x0b ++ to_le_bytes 4 0 ++
        zeroed 8 ++ to_le_bytes 4 0x40000002 ++ zeroed 4 ++ to_le_bytes 8 tree_block ++ zeroed (bs - 56)).

(** ** Specification *)

(** An entry that maps [oid] at [xid] or before. *)
Definition candidate (oid xid : Z) (e : Entry) : Prop :=
  le_u64 (key e) 0 = oid ∧ le_u64 (key e) 8 <= xid.

(** The newest mapping of [oid] at [xid] among the entries of a tree. *)
Definition newest (oid xid : Z) (es : list Entry) (e : Entry) : Prop :=
  e ∈ es ∧ candidate oid xid e ∧
  ∀ e', e' ∈ es → candidate oid xid e' → le_u64 (key e') 8 <= le_u64 (key e) 8.

(** Strict order of the keys. *)
Definition omap_lt (a b : Z * Z) : Prop := cmp_pair a b = Lt.

(** A well-formed object-map tree on the source. *)
Record omap_tree {R} `{ReadSeek R} (bs : Z) (r : R) (t : tree) : Prop := {
  ot_stored : stored (λ p, read_verified_node p bs) all_children Omap r t;
  ot_shape : well_shaped (Z.to_nat MAX_BTREE_DEPTH) t;
  ot_separated : separated decode_omap_key t;
  ot_sorted : StronglySorted omap_lt ((λ e, decode_omap_key (key e)) <$> entries t);
}.

(** ** A two-level object map, for the witnesses *)

Definition demo_omap : bytes :=
  image 256
    [ (0, encode_node 256 0 0 0x40000002 0x0b true false true 1
            [ {| key := omap_key 5 1; value := to_le_bytes 8 1 |};
              {| key := omap_key 7 2; value := to_le_bytes 8 2 |} ]);
      (1, omap_leaf 256 1 [(5, 1, 100); (5, 4, 101)]);
      (2, omap_leaf 256 2 [(7, 2, 102); (9, 3, 103)]) ].

Definition demo_om : ObjectMap.t :=
  {| ObjectMap.self_flags := 0; ObjectMap.self_tree_type := 0x40000002; ObjectMap.self_tree_oid := 0;
     ObjectMap.self_snapshot_tree_oid := 0 |}.

Definition demo_omap_tree : tree :=
  Eval vm_compute in
    match load (λ p, read_verified_node p 256) all_children Omap (cursor demo_omap) 3 0 with
    | Some t => t
    | None => Hole 0
    end.

(** ** Order *)

#[export] Instance candidate_dec oid xid e : Decision (candidate oid xid e).
Proof. unfold candidate. apply _. Defined.

Lemma cmp_pair_cases a b :
  (cmp_pair a b = Lt ↔ a.1 < b.1 ∨ (a.1 = b.1 ∧ a.2 < b.2)) ∧
  (cmp_pair a b = Gt ↔ b.1 < a.1 ∨ (a.1 = b.1 ∧ b.2 < a.2)) ∧
  (cmp_pair a b = Eq ↔ a.1 = b.1 ∧ a.2 = b.2).
Proof.
  unfold cmp_pair. destruct (Z.compare_spec a.1 b.1); [destruct (Z.compare_spec a.2 b.2)|..];
    repeat split; intros; try lia; done.
Qed.

Lemma omap_lt_iff a b : omap_lt a b ↔ a.1 < b.1 ∨ (a.1 = b.1 ∧ a.2 < b.2).
Proof. apply cmp_pair_cases. Qed.

Lemma omap_cmp_mono oid xid a b : omap_lt a b → cmp_pair a (oid, xid) = Gt → cmp_pair b (oid, xid) = Gt.
Proof. rewrite omap_lt_iff. rewrite !(proj1 (proj2 (cmp_pair_cases _ _))). simpl. lia. Qed.

Lemma omap_visit_skip oid xid best k v : ¬ candidate oid xid {| key := k; value := v |} →
  omap_visit oid xid best k v = best.
Proof. unfold candidate, omap_visit. simpl. intros. by replace (_ || _) with true by lia. Qed.

Lemma omap_visit_take oid xid best k v : candidate oid xid {| key := k; value := v |} →
  omap_visit oid xid best k v =
    match best with
    | Some b => if OmapEntry.xid b <? le_u64 k 8 then Some (omap_entry k v) else best
    | None => Some (omap_entry k v)
    end.
Proof. unfold candidate, omap_visit. simpl. intros. by replace (_ || _) with false by lia. Qed.

Notation newest_of oid xid es := (visit_all (omap_visit oid xid) es None).

(** The scan keeps the greatest transaction of what it has seen. *)
Lemma newest_of_spec oid xid es :
  match newest_of oid xid es with
  | None => Forall (λ e, ¬ candidate oid xid e) es
  | Some b => ∃ e, newest oid xid es e ∧ b = omap_entry (key e) (value e)
  end.
Proof.
  induction es as [|e es IH] using rev_ind; [constructor|].
  rewrite visit_all_app. cbn [visit_all fold_left].
  destruct (decide (candidate oid xid e)) as [Hc|Hc].
  - rewrite omap_visit_take by (by destruct e). destruct (newest_of oid xid es) as [b|].
    + destruct IH as (e0 & (Hin & Hc0 & Hmax) & ->). simpl. destruct (_ <? _) eqn:Hlt; zbool.
      * exists e. split; [|done]. split; [set_solver|]. split; [done|].
        intros e' [He'|He'%list_elem_of_singleton]%elem_of_app Hc'; [|subst; lia].
        specialize (Hmax _ He' Hc'). lia.
      * exists e0. split; [|done]. split; [set_solver|]. split; [done|].
        intros e' [He'|He'%list_elem_of_singleton]%elem_of_app Hc'; [auto|subst; lia].
    + exists e. split; [|done]. split; [set_solver|]. split; [done|].
      intros e' [He'|He'%list_elem_of_singleton]%elem_of_app Hc'; [|subst; lia].
      by apply (proj1 (Forall_forall _ _) IH) in He'.
  - rewrite omap_visit_skip by (by destruct e).
    destruct (newest_of oid xid es) as [b|].
    + destruct IH as (e0 & (Hin & Hc0 & Hmax) & ->). exists e0. split; [|done].
      split; [set_solver|]. split; [done|].
      intros e' [He'|He'%list_elem_of_singleton]%elem_of_app Hc'; [auto|by subst].
    + apply Forall_app. auto.
Qed.

(** With distinct keys the newest mapping is one entry. *)
Lemma newest_unique oid xid es e e' :
  StronglySorted omap_lt ((λ e, decode_omap_key (key e)) <$> es) →
  newest oid xid es e → newest oid xid es e' → e = e'.
Proof.
  intros Hs (Hin & [Ho Hx] & Hmax) (Hin' & [Ho' Hx'] & Hmax').
  assert (Hk : decode_omap_key (key e) = decode_omap_key (key e')).
  { unfold decode_omap_key. f_equal; [congruence|].
    pose proof (Hmax e' Hin' ltac:(done)). pose proof (Hmax' e Hin ltac:(done)). lia. }
  clear Hmax Hmax'. induction es as [|e0 es IH]; [by apply not_elem_of_nil in Hin|].
  rewrite fmap_cons in Hs. inversion_clear Hs as [|?? Hs' Hall].
  apply elem_of_cons in Hin as [->|Hin], Hin' as [->|Hin']; auto; exfalso.
  - rewrite Forall_fmap, Forall_forall in Hall. specialize (Hall _ Hin'). simpl in Hall.
    rewrite Hk in Hall. apply omap_lt_iff in Hall. lia.
  - rewrite Forall_fmap, Forall_forall in Hall. specialize (Hall _ Hin). simpl in Hall.
    rewrite Hk in Hall. apply omap_lt_iff in Hall. lia.
Qed.

(** The landing leaf has the newest mapping of the whole tree. *)
Lemma newest_of_landing oid xid t :
  separated decode_omap_key t →
  StronglySorted omap_lt ((λ e, decode_omap_key (key e)) <$> entries t) →
  newest_of oid xid (landing (omap_cmp oid xid) t) = newest_of oid xid (entries t).
Proof.
  intros Hsep Hs.
  destruct (landing_split decode_omap_key omap_lt (λ k, cmp_pair k (oid, xid)) (omap_cmp_mono oid xid) t Hsep Hs)
    as (pre & post & Hsplit & Hpost & Hpre).
  change (λ k, cmp_pair (decode_omap_key k) (oid, xid)) with (omap_cmp oid xid) in *.
  rewrite Hsplit, !visit_all_app.
  assert (Hskip : ∀ l b, Forall (λ e, ¬ candidate oid xid e) l → visit_all (omap_visit oid xid) l b = b).
  { intros l b Hl. apply fold_left_id. intros a x Hx. apply omap_visit_skip.
    rewrite Forall_forall in Hl. destruct x. by apply Hl. }
  rewrite (Hskip post).
  2:{ eapply Forall_impl; [done|]. intros e He [Hc1 Hc2]. unfold omap_cmp in He.
      apply cmp_pair_cases in He. simpl in He. lia. }
  destruct Hpre as [->|(e0 & He0 & Hle)]; [done|].
  destruct (landing (omap_cmp oid xid) t) as [|e1 l]; [done|]. injection He0 as ->.
  cbn [visit_all fold_left].
  assert (Hlt : Forall (λ e, omap_lt (decode_omap_key (key e)) (decode_omap_key (key e0))) pre).
  { rewrite Hsplit, !fmap_app in Hs. apply StronglySorted_app in Hs as (Hs & _).
    apply Forall_forall. intros e He. apply Hs.
    - apply list_elem_of_fmap. eauto.
    - rewrite elem_of_app, fmap_cons. left. apply elem_of_cons. auto. }
  f_equal. pose proof (newest_of_spec oid xid pre) as Hp.
  destruct (newest_of oid xid pre) as [b|]; [|done].
  destruct Hp as (e & (Hin & [Ho Hx] & _) & ->).
  rewrite Forall_forall in Hlt. specialize (Hlt _ Hin). apply omap_lt_iff in Hlt. simpl in Hlt.
  assert (Hle' : ¬ (oid < le_u64 (key e0) 0 ∨ (le_u64 (key e0) 0 = oid ∧ xid < le_u64 (key e0) 8))).
  { intros Hc. apply Hle. unfold omap_cmp. by apply cmp_pair_cases. }
  rewrite !omap_visit_take by (destruct e0; unfold candidate; simpl in *; lia).
  simpl. by replace (_ <? _) with true by lia.
Qed.

Lemma Stable_resolve {R} `{LawfulReader R} om oid xid bs : Stable (resolve (R := R) om oid xid bs).
Proof. unfold resolve. solve_stable. Qed.
#[export] Hint Resolve Stable_resolve : stable.

Lemma Safe_resolve {R} `{ReadSeek R} om oid xid bs : Safe (resolve (R := R) om oid xid bs).
Proof. unfold resolve. solve_safe. Qed.
#[export] Hint Resolve Safe_resolve : safe.

(** ** Properties *)
Section properties.
Context {R : Type} `{LawfulReader R}.
Context (om : ObjectMap.t) (oid xid bs : Z) (r : R).

Lemma resolve_landing t :
  omap_tree bs r t → tree_id t = ObjectMap.tree_oid om →
  eval (resolve om oid xid bs) r = ok_or (OmapUnresolved oid xid) (newest_of oid xid (entries t)).
Proof.
  intros [Hst Hw Hsep Hs] Hid. unfold resolve. rewrite <- Hid.
  rewrite eval_bind by solve_stable. rewrite find_leaf_landing by done.
  cbn [mbind outcome_bind]. by rewrite newest_of_landing.
Qed.

(** C6 [resolve] refines the abstract object map: on a well-formed tree (ordered
    distinct keys, exact separators, no cycle, at most 64 levels) it returns the
    newest mapping of the object at or before the transaction, among all the leaf
    entries of the tree, and the error [OmapUnresolved] exactly when there is none. *)
Theorem resolve_newest t :
  omap_tree bs r t → tree_id t = ObjectMap.tree_oid om →
  (∀ e, newest oid xid (entries t) e →
    eval (resolve om oid xid bs) r = Ok (omap_entry (key e) (value e))) ∧
  (eval (resolve om oid xid bs) r = Err (OmapUnresolved oid xid) ↔
    ∀ e, e ∈ entries t → ¬ candidate oid xid e) ∧
  (∀ m, eval (resolve om oid xid bs) r = Ok m →
    OmapEntry.oid m = oid ∧ OmapEntry.xid m <= xid ∧
    ∃ e, newest oid xid (entries t) e ∧ m = omap_entry (key e) (value e)).
Proof.
  intros Ht Hid. rewrite (resolve_landing t Ht Hid). destruct Ht as [_ _ _ Hs].
  pose proof (newest_of_spec oid xid (entries t)) as Hn.
  destruct (newest_of oid xid (entries t)) as [b|]; simpl.
  - destruct Hn as (e0 & He0 & ->). pose proof He0 as (Hin & [Ho Hx] & _).
    split; [|split; [split|]].
    + intros e He. by rewrite (newest_unique _ _ _ _ _ Hs He He0).
    + done.
    + intros Hnone. by destruct (Hnone e0).
    + intros m [= <-]. simpl. eauto.
  - rewrite Forall_forall in Hn. split; [|split; [done|done]].
    intros e (Hin & Hc & _). by destruct (Hn e).
Qed.

(** The keyed descent is the optimisation of a scan: on a well-formed tree,
    [resolve] gives the outcome of [for_each_leaf_entry] over the whole tree with the
    same callback, although it reads one path. *)
Theorem resolve_is_full_scan t :
  omap_tree bs r t → tree_id t = ObjectMap.tree_oid om →
  eval (resolve om oid xid bs) r =
  eval (best ← for_each_leaf_entry bs Omap (omap_visit oid xid) (ObjectMap.tree_oid om) None;
        lift (ok_or (OmapUnresolved oid xid) best)) r.
Proof.
  intros Ht Hid. rewrite (resolve_landing t Ht Hid). rewrite eval_bind by solve_stable.
  rewrite (proj2 (for_each_leaf_entry_Ok_iff bs Omap (omap_visit oid xid) _ None r (newest_of oid xid (entries t)))).
  - done.
  - exists t. destruct Ht. auto.
Qed.
End properties.

Lemma demo_omap_ok : omap_tree 256 (cursor demo_omap) demo_omap_tree.
Proof.
  assert (Hl : load (λ p, read_verified_node p 256) all_children Omap (cursor demo_omap) 3 0
    = Some demo_omap_tree) by (vm_compute; reflexivity).
  apply load_stored in Hl as [_ Hst]. split; [done| | |].
  - split; [apply (bool_decide_unpack _); vm_compute; exact I|vm_compute; lia].
  - unfold demo_omap_tree. repeat first [constructor|done|eexists].
  - repeat constructor.
Qed.

(** Go through the entries of a concrete list. *)
Ltac each_entry He :=
  repeat (apply elem_of_cons in He as [->|He];
    [vm_compute in *; first [discriminate | intros ?; discriminate | exfalso; auto]|]);
  by apply not_elem_of_nil in He.

Lemma resolve_newest_witness :
  eval (resolve demo_om 5 3 256) (cursor demo_omap) = Ok (OmapEntry.mk 5 1 100 0 0) ∧
  eval (resolve demo_om 7 1 256) (cursor demo_omap) = Err (OmapUnresolved 7 1).
Proof.
  split.
  - destruct (resolve_newest demo_om 5 3 256 (cursor demo_omap) demo_omap_tree demo_omap_ok eq_refl) as [Hn _].
    apply (Hn {| key := omap_key 5 1; value := zeroed 8 ++ to_le_bytes 8 100 |}).
    split; [vm_compute; by left|]. split; [by vm_compute|].
    intros e He [Ho Hx]. each_entry He.
  - apply (resolve_newest demo_om 7 1 256 (cursor demo_omap) demo_omap_tree demo_omap_ok eq_refl).
    intros e He [Ho Hx]. each_entry He.
Defined.

Lemma resolve_is_full_scan_witness :
  eval (resolve demo_om 9 9 256) (cursor demo_omap) = Ok (OmapEntry.mk 9 3 103 0 0) ∧
  eval (resolve demo_om 9 9 256) (cursor demo_omap) =
  eval (best ← for_each_leaf_entry 256 Omap (omap_visit 9 9) 0 None;
        lift (ok_or (OmapUnresolved 9 9) best)) (cursor demo_omap).
Proof.
  split; [vm_compute; reflexivity|].
  apply (resolve_is_full_scan demo_om 9 9 256 (cursor demo_omap) demo_omap_tree demo_omap_ok eq_refl).
Defined.
