(* ===== verification/Checkpoint.v ===== *)
(** * The checkpoint ring ([src/src/checkpoint.rs])

    [resolve_live_checkpoint] scans the descriptor area for the superblock with the
    largest transaction whose checksum holds, then collects the ephemeral mappings of
    that transaction.  The specification states the choice over the slots of the ring;
    a slot past the end of the source counts as unreadable.  The sum [desc_base + i] is
    the one arithmetic operation of the scan that can overflow, and the theorems say
    exactly when it does. *)
From S2P Require Import Prelude Bytes Reader Object Node Build Container.

Definition OBJECT_TYPE_NX_SUPERBLOCK : Z := 0x1.
Definition OBJECT_TYPE_CHECKPOINT_MAP : Z := 0xc.
Definition CPM_COUNT_OFF : Z := 36.
Definition CPM_MAP_OFF : Z := 40.
Definition CHECKPOINT_MAPPING_LEN : Z := 40.
Definition MAX_CPM_COUNT : Z := 4096.

Module CheckpointMapping.
Record t := mk { oid : Z; paddr : Z; obj_type : Z; subtype : Z }.
End CheckpointMapping.

Module LiveCheckpoint.
Record t := mk {
  superblock_paddr : Z;
  xid : Z;
  mappings : list CheckpointMapping.t;
}.
End LiveCheckpoint.

(** The mapping loop over one checkpoint-map block. *)
Definition block_mappings (buf : bytes) : list CheckpointMapping.t :=
  let count := Z.min (le_u32 buf CPM_COUNT_OFF) MAX_CPM_COUNT in
  (λ m,
    let off := CPM_MAP_OFF + m * CHECKPOINT_MAPPING_LEN in
    {| CheckpointMapping.obj_type := le_u32 buf off;
       CheckpointMapping.subtype := le_u32 buf (off + 4);
       CheckpointMapping.oid := le_u64 buf (off + 24);
       CheckpointMapping.paddr := le_u64 buf (off + 32) |}) <$> seqZ 0 count.

(** The state of the first loop: [best], [checked], [last_magic]. *)
Record scan_state := { best : option (Z * Z); checked : Z; last_magic : Z }.

(** The body of the first loop once [buf] is read. *)
Definition scan_block (paddr : Z) (buf : bytes) (st : scan_state) : scan_state :=
  let st := {| best := best st; checked := checked st + 1; last_magic := last_magic st |} in
  match ObjPhys.parse buf with
  | None => st
  | Some hdr =>
      if negb (ObjPhys.obj_type hdr =? OBJECT_TYPE_NX_SUPERBLOCK) then st else
      let magic := le_u32 buf 32 in
      let st := {| best := best st; checked := checked st; last_magic := magic |} in
      if negb (magic =? NX_MAGIC) then st else
      if negb (fletcher64_stored buf =? fletcher64_checksum buf) then st else
      match best st with
      | Some (bx, _) =>
          if bx <? ObjPhys.xid hdr
          then {| best := Some (ObjPhys.xid hdr, paddr); checked := checked st; last_magic := last_magic st |}
          else st
      | None => {| best := Some (ObjPhys.xid hdr, paddr); checked := checked st; last_magic := last_magic st |}
      end
  end.

(** The body of the second loop once [buf] is read. *)
Definition collect_block (xid : Z) (buf : bytes) (mappings : list CheckpointMapping.t) :
    list CheckpointMapping.t :=
  match ObjPhys.parse buf with
  | None => mappings
  | Some hdr =>
      if negb (ObjPhys.obj_type hdr =? OBJECT_TYPE_CHECKPOINT_MAP) || negb (ObjPhys.xid hdr =? xid)
      then mappings else
      if negb (fletcher64_stored buf =? fletcher64_checksum buf) then mappings else
      mappings ++ block_mappings buf
  end.

Section checkpoint.
Context {R : Type} `{ReadSeek R}.

Definition read_block (paddr block_size : Z) : M R (option bytes) :=
  match checked_mul paddr block_size with
  | None => mret None
  | Some offset => read_at_eof offset block_size
  end.

Definition scan_slot (desc_base block_size i : Z) (st : scan_state) : M R scan_state :=
  paddr ← lift (add_u64 desc_base i);
  node ← read_block paddr block_size;
  mret (match node with None => st | Some buf => scan_block paddr buf st end).

Definition collect_slot (desc_base block_size xid i : Z) (ms : list CheckpointMapping.t) :
    M R (list CheckpointMapping.t) :=
  paddr ← lift (add_u64 desc_base i);
  node ← read_block paddr block_size;
  mret (match node with None => ms | Some buf => collect_block xid buf ms end).

Definition resolve_live_checkpoint (bootstrap : NxSuperblock.t) : M R LiveCheckpoint.t :=
  if NxSuperblock.xp_desc_is_tree bootstrap then throw (CheckpointTreeUnsupported "descriptor") else
  let block_size := NxSuperblock.block_size bootstrap in
  if negb (block_size_ok block_size)
  then throw (FieldOutOfRange "nx_superblock" "nx_block_size" block_size NX_MAXIMUM_BLOCK_SIZE) else
  let desc_base := NxSuperblock.xp_desc_base bootstrap in
  let slots := seqZ 0 (NxSuperblock.xp_desc_blocks bootstrap) in
  st ← foldM (scan_slot desc_base block_size) slots {| best := None; checked := 0; last_magic := 0 |};
  match best st with
  | None => throw (NoValidSuperblock (checked st) (last_magic st))
  | Some (xid, superblock_paddr) =>
      mappings ← foldM (collect_slot desc_base block_size xid) slots [];
      mret {| LiveCheckpoint.superblock_paddr := superblock_paddr;
              LiveCheckpoint.xid := xid; LiveCheckpoint.mappings := mappings |}
  end.
End checkpoint.

(** ** Specification *)

(** The transaction of a block that is a superblock with a good checksum. *)
Definition nxsb_xid (buf : bytes) : option Z :=
  hdr ← ObjPhys.parse buf;
  if (ObjPhys.obj_type hdr =? OBJECT_TYPE_NX_SUPERBLOCK) && (le_u32 buf 32 =? NX_MAGIC) && cksum_ok buf
  then Some (ObjPhys.xid hdr) else None.

(** The mappings of a block that is a checkpoint map of transaction [xid]. *)
Definition map_mappings (xid : Z) (buf : bytes) : list CheckpointMapping.t :=
  match ObjPhys.parse buf with
  | Some hdr =>
      if (ObjPhys.obj_type hdr =? OBJECT_TYPE_CHECKPOINT_MAP) && (ObjPhys.xid hdr =? xid) && cksum_ok buf
      then block_mappings buf else []
  | None => []
  end.

(** What the slots of a ring hold: slot [i] of [n], or nothing past the end. *)
Section ring.
Context (slot : Z → option bytes) (n : Z).

(** Slot [i] holds a superblock of transaction [x]. *)
Definition holds_nxsb (i x : Z) : Prop :=
  0 <= i < n ∧ ∃ buf, slot i = Some buf ∧ nxsb_xid buf = Some x.

(** The first slot among those of the largest transaction. *)
Definition newest_slot (i x : Z) : Prop :=
  holds_nxsb i x ∧ ∀ j y, holds_nxsb j y → y < x ∨ (y = x ∧ i <= j).

Definition ring_mappings (x : Z) : list CheckpointMapping.t :=
  concat ((λ i, match slot i with Some buf => map_mappings x buf | None => [] end) <$> seqZ 0 n).
End ring.

(** ** The scan *)

Lemma scan_block_best paddr buf st :
  best (scan_block paddr buf st) =
    match nxsb_xid buf with
    | None => best st
    | Some x =>
        match best st with
        | Some (bx, _) => if bx <? x then Some (x, paddr) else best st
        | None => Some (x, paddr)
        end
    end.
Proof.
  unfold scan_block, nxsb_xid, cksum_ok. destruct (ObjPhys.parse buf) as [hdr|]; [|done]. simpl.
  destruct (ObjPhys.obj_type hdr =? _); [|done]. destruct (le_u32 buf 32 =? _); [|done].
  destruct (fletcher64_stored buf =? _); [|done]. simpl.
  destruct (best st) as [[bx p]|] eqn:E; simpl; [|done]. by destruct (bx <? _).
Qed.

Lemma collect_block_mappings xid buf ms : collect_block xid buf ms = ms ++ map_mappings xid buf.
Proof.
  unfold collect_block, map_mappings, cksum_ok. destruct (ObjPhys.parse buf) as [hdr|]; [|by rewrite app_nil_r].
  destruct (ObjPhys.obj_type hdr =? _), (ObjPhys.xid hdr =? _), (fletcher64_stored buf =? _);
    simpl; by rewrite ?app_nil_r.
Qed.

Section scan.
Context (slot : Z → option bytes) (desc_base : Z).

Definition scan_step (st : scan_state) (i : Z) : scan_state :=
  match slot i with None => st | Some buf => scan_block (desc_base + i) buf st end.

Definition collect_step (xid : Z) (ms : list CheckpointMapping.t) (i : Z) : list CheckpointMapping.t :=
  match slot i with None => ms | Some buf => collect_block xid buf ms end.

(** The invariant of the first loop, after [n] turns. *)
Lemma scan_newest st0 n : best st0 = None → 0 <= n →
  match best (fold_left scan_step (seqZ 0 n) st0) with
  | None => ∀ i x, ¬ holds_nxsb slot n i x
  | Some (x, paddr) => ∃ i, paddr = desc_base + i ∧ newest_slot slot n i x
  end.
Proof.
  intros H0 Hn. pattern n. apply natlike_ind; [| |done]; clear n Hn.
  { simpl. rewrite H0. intros i x [Hi _]. lia. }
  intros n Hn IH. rewrite <- Z.add_1_r, (seqZ_app 0 n 1), fold_left_app by lia. simpl.
  replace (Z.of_nat 0 + (0 + n)) with n by lia.
  set (st := fold_left scan_step (seqZ 0 n) st0) in *. clearbody st.
  assert (Hold : ∀ j y, holds_nxsb slot (n + 1) j y ↔ holds_nxsb slot n j y ∨
    (j = n ∧ ∃ buf, slot n = Some buf ∧ nxsb_xid buf = Some y)).
  { intros j y. unfold holds_nxsb. split.
    - intros [Hj Hb]. destruct (decide (j = n)) as [->|]; [by right|left]. split; [lia|done].
    - intros [[Hj Hb]|[-> Hb]]; (split; [lia|done]). }
  unfold scan_step at 1. destruct (slot n) as [buf|] eqn:Hs.
  2:{ assert (Heq : ∀ j y, holds_nxsb slot (n + 1) j y ↔ holds_nxsb slot n j y) by (intros; rewrite Hold; naive_solver).
      destruct (best st) as [[x p]|]; [|by setoid_rewrite Heq].
      destruct IH as (i & -> & Hi & Hm). exists i. split; [done|]. split; [by apply Heq|].
      intros j y Hj. by apply Hm, Heq. }
  rewrite scan_block_best. destruct (nxsb_xid buf) as [x|] eqn:Hx.
  2:{ assert (Heq : ∀ j y, holds_nxsb slot (n + 1) j y ↔ holds_nxsb slot n j y) by (intros; rewrite Hold; naive_solver).
      destruct (best st) as [[x p]|]; [|by setoid_rewrite Heq].
      destruct IH as (i & -> & Hi & Hm). exists i. split; [done|]. split; [by apply Heq|].
      intros j y Hj. by apply Hm, Heq. }
  destruct (best st) as [[bx p]|].
  - destruct IH as (i & -> & Hi & Hm). destruct (bx <? x) eqn:Hlt; zbool.
    + exists n. split; [done|]. split; [apply Hold; eauto|].
      intros j y [Hj|[-> Hb]]%Hold; [|naive_solver lia]. specialize (Hm _ _ Hj). lia.
    + exists i. split; [done|]. split; [apply Hold; auto|].
      intros j y [Hj|[-> Hb]]%Hold; [auto|]. destruct Hi as [Hi _].
      destruct Hb as (b & [= <-] & Hy). rewrite Hx in Hy. injection Hy as ->. lia.
  - exists n. split; [done|]. split; [apply Hold; eauto|].
    intros j y [Hj|[-> Hb]]%Hold; [by apply IH in Hj|naive_solver lia].
Qed.

Lemma collect_all xid n ms :
  fold_left (collect_step xid) (seqZ 0 n) ms = ms ++ ring_mappings slot n xid.
Proof.
  unfold ring_mappings. generalize (seqZ 0 n). intros l. revert ms.
  induction l as [|i l IH]; intros ms; simpl; [by rewrite app_nil_r|].
  rewrite IH. unfold collect_step. destruct (slot i); [|done].
  by rewrite collect_block_mappings, <- app_assoc.
Qed.
End scan.

(** ** The operations as values *)
Section eval_checkpoint.
Context {R : Type} `{LawfulReader R}.

Lemma Stable_read_block p bs : Stable (read_block (R := R) p bs).
Proof. unfold read_block. solve_stable. Qed.
#[local] Hint Resolve Stable_read_block : stable.

Lemma Stable_scan_slot base bs i st : Stable (scan_slot (R := R) base bs i st).
Proof. unfold scan_slot. solve_stable. Qed.

Lemma Stable_collect_slot base bs x i ms : Stable (collect_slot (R := R) base bs x i ms).
Proof. unfold collect_slot. solve_stable. Qed.
#[local] Hint Resolve Stable_scan_slot Stable_collect_slot : stable.

Lemma Stable_resolve_live_checkpoint sb : Stable (resolve_live_checkpoint (R := R) sb).
Proof. unfold resolve_live_checkpoint. solve_stable. Qed.

Lemma read_block_no_panic p bs r : eval (read_block (R := R) p bs) r ≠ Panic.
Proof. unfold read_block. case_match; [apply read_at_eof_no_panic|done]. Qed.

(** What slot [i] holds. *)
Definition slot_of (r : R) (base bs i : Z) : option bytes :=
  match eval (read_block (base + i) bs) r with Ok o => o | _ => None end.

(** Reading a slot is no I/O failure: it succeeds or meets the end of the source. *)
Definition readable (r : R) (bs : Z) : Prop := ∀ p, ∃ o, eval (read_block p bs) r = Ok o.

Lemma eval_scan_slot base bs i st r : readable r bs → base + i <= u64_max →
  eval (scan_slot base bs i st) r = Ok (scan_step (slot_of r base bs) base st i).
Proof.
  intros Hr Hi. unfold scan_slot, add_u64. replace (base + i <=? u64_max) with true by lia.
  rewrite eval_bind by solve_stable. rewrite eval_lift, bind_Ok.
  rewrite eval_bind by solve_stable. unfold scan_step, slot_of.
  destruct (Hr (base + i)) as [o ->]. simpl. by destruct o.
Qed.

Lemma eval_collect_slot base bs x i ms r : readable r bs → base + i <= u64_max →
  eval (collect_slot base bs x i ms) r = Ok (collect_step (slot_of r base bs) x ms i).
Proof.
  intros Hr Hi. unfold collect_slot, add_u64. replace (base + i <=? u64_max) with true by lia.
  rewrite eval_bind by solve_stable. rewrite eval_lift, bind_Ok.
  rewrite eval_bind by solve_stable. unfold collect_step, slot_of.
  destruct (Hr (base + i)) as [o ->]. simpl. by destruct o.
Qed.

Lemma eval_scan base bs n st r : readable r bs → base + n <= 2 ^ 64 →
  eval (foldM (scan_slot base bs) (seqZ 0 n) st) r =
  Ok (fold_left (scan_step (slot_of r base bs) base) (seqZ 0 n) st).
Proof.
  intros Hr Hn. rewrite eval_foldM by solve_stable. apply foldM_pure.
  intros i s' Hi%elem_of_seqZ. apply eval_scan_slot; [done|]. unfold u64_max. lia.
Qed.

(** The slot whose address overflows panics. *)
Lemma scan_overflow base bs n st r : readable r bs → in_u64 base → 2 ^ 64 < base + n →
  eval (foldM (scan_slot base bs) (seqZ 0 n) st) r = Panic.
Proof.
  intros Hr [Hb0 Hb] Hn. set (k := 2 ^ 64 - base).
  assert (Hp : ∀ s, eval (scan_slot base bs k s) r = Panic).
  { intros s. unfold scan_slot. rewrite eval_bind by solve_stable. rewrite eval_lift.
    unfold add_u64. by replace (base + k <=? u64_max) with false by (unfold u64_max; lia). }
  replace n with (k + (1 + (n - k - 1))) by lia.
  rewrite (seqZ_app 0 k) by lia. rewrite (seqZ_app _ 1) by lia.
  rewrite eval_foldM by solve_stable. rewrite foldM_app.
  rewrite <- (eval_foldM (scan_slot base bs) (seqZ 0 k)) by solve_stable.
  rewrite eval_scan by (done || lia). cbn [mbind outcome_bind].
  rewrite foldM_app. replace (seqZ (0 + k) 1) with [k] by (unfold seqZ; simpl; f_equal; lia).
  cbn [foldM]. by rewrite Hp.
Qed.
End eval_checkpoint.
#[export] Hint Resolve Stable_read_block Stable_scan_slot Stable_collect_slot
  Stable_resolve_live_checkpoint : stable.

(** ** Properties *)
Section properties.
Context {R : Type} `{LawfulReader R}.
Context (sb : NxSuperblock.t) (r : R).
Notation n := (NxSuperblock.xp_desc_blocks sb).
Notation base := (NxSuperblock.xp_desc_base sb).
Notation bs := (NxSuperblock.block_size sb).
Notation slot := (slot_of r base bs).

(** The two loops as folds, when no address overflows. *)
Lemma eval_resolve_live :
  NxSuperblock.desc_is_tree sb = false → block_size_ok bs = true → base + n <= 2 ^ 64 →
  readable r bs →
  let st := fold_left (scan_step slot base) (seqZ 0 n) {| best := None; checked := 0; last_magic := 0 |} in
  eval (resolve_live_checkpoint sb) r =
    match best st with
    | None => Err (NoValidSuperblock (checked st) (last_magic st))
    | Some (x, paddr) =>
        Ok {| LiveCheckpoint.superblock_paddr := paddr; LiveCheckpoint.xid := x;
              LiveCheckpoint.mappings := ring_mappings slot n x |}
    end.
Proof.
  intros Ht Hbs Hov Hr st. unfold resolve_live_checkpoint, NxSuperblock.xp_desc_is_tree.
  rewrite Ht, Hbs. cbn [negb]. rewrite eval_bind by solve_stable. rewrite eval_scan by done.
  rewrite bind_Ok. fold st. destruct (best st) as [[x p]|]; [|done].
  rewrite eval_bind by solve_stable. rewrite eval_foldM by solve_stable.
  rewrite (foldM_pure _ (collect_step slot x)).
  - by rewrite bind_Ok, collect_all.
  - intros j s Hj%elem_of_seqZ. apply eval_collect_slot; [done|]. unfold u64_max. lia.
Qed.

Lemma resolve_live_overflow :
  NxSuperblock.desc_is_tree sb = false → block_size_ok bs = true → in_u64 base →
  readable r bs → 2 ^ 64 < base + n → eval (resolve_live_checkpoint sb) r = Panic.
Proof.
  intros Ht Hbs Hb Hr Hn. unfold resolve_live_checkpoint, NxSuperblock.xp_desc_is_tree. rewrite Ht, Hbs. cbn [negb].
  rewrite eval_bind by solve_stable. by rewrite scan_overflow.
Qed.

(** A resolution that returns passed the guards, and its superblock is the newest. *)
Lemma resolve_live_Ok lc :
  in_u64 base → 0 <= n → readable r bs → eval (resolve_live_checkpoint sb) r = Ok lc →
  NxSuperblock.desc_is_tree sb = false ∧ block_size_ok bs = true ∧ base + n <= 2 ^ 64 ∧
  ∃ i, LiveCheckpoint.superblock_paddr lc = base + i ∧ newest_slot slot n i (LiveCheckpoint.xid lc) ∧
    LiveCheckpoint.mappings lc = ring_mappings slot n (LiveCheckpoint.xid lc).
Proof.
  intros Hb Hn Hr E.
  assert (Ht : NxSuperblock.desc_is_tree sb = false).
  { revert E. unfold resolve_live_checkpoint, NxSuperblock.xp_desc_is_tree. by destruct (NxSuperblock.desc_is_tree sb). }
  assert (Hbs : block_size_ok bs = true).
  { revert E. unfold resolve_live_checkpoint, NxSuperblock.xp_desc_is_tree. rewrite Ht. by destruct (block_size_ok bs). }
  assert (Hov : base + n <= 2 ^ 64).
  { apply Z.nlt_ge. intros Hlt. by rewrite resolve_live_overflow in E. }
  split_and!; try done. rewrite eval_resolve_live in E by done.
  pose proof (scan_newest slot base {| best := None; checked := 0; last_magic := 0 |} n eq_refl Hn) as Hbest.
  destruct (best _) as [[x p]|]; [|done]. injection E as <-.
  destruct Hbest as (i & -> & Hi). by exists i.
Qed.

(** C7 The live checkpoint is the newest valid one: over a readable source, when the
    descriptor area is contiguous, the block size is in range and the addresses of the
    ring do not overflow, [resolve_live_checkpoint] returns the first slot among those
    that hold a superblock of the largest transaction with a good checksum, and exactly
    the mappings of the good checkpoint maps of that transaction, in ring order; it
    fails with [NoValidSuperblock] exactly when no slot holds such a superblock. *)
Theorem live_checkpoint_newest :
  NxSuperblock.desc_is_tree sb = false → block_size_ok bs = true → 0 <= n → base + n <= 2 ^ 64 →
  readable r bs →
  match eval (resolve_live_checkpoint sb) r with
  | Ok lc =>
      ∃ i, LiveCheckpoint.superblock_paddr lc = base + i ∧
        newest_slot slot n i (LiveCheckpoint.xid lc) ∧
        LiveCheckpoint.mappings lc = ring_mappings slot n (LiveCheckpoint.xid lc)
  | Err e => (∃ c m, e = NoValidSuperblock c m) ∧ ∀ i x, ¬ holds_nxsb slot n i x
  | Panic => False
  end.
Proof.
  intros Ht Hbs Hn Hov Hr. rewrite eval_resolve_live by done. cbv zeta.
  pose proof (scan_newest slot base {| best := None; checked := 0; last_magic := 0 |} n eq_refl Hn) as Hbest.
  destruct (best _) as [[x p]|]; [|eauto]. destruct Hbest as (i & -> & Hi). by exists i.
Qed.

(** C36 The scan overflows exactly past the address space: over a readable source, with
    both guards passed and a base that is a [u64], [resolve_live_checkpoint] panics in
    [desc_base + i] exactly when the ring ends past 2^64.  Both fields come from the
    superblock, so a crafted image reaches the panic. *)
Theorem live_checkpoint_panics_iff_ring_overflows :
  NxSuperblock.desc_is_tree sb = false → block_size_ok bs = true → in_u64 base →
  readable r bs →
  eval (resolve_live_checkpoint sb) r = Panic ↔ 2 ^ 64 < base + n.
Proof.
  intros Ht Hbs Hb Hr. split; [|by apply resolve_live_overflow].
  intros Hp. apply Z.nle_gt. intros Hn. revert Hp.
  rewrite eval_resolve_live by done. cbv zeta. by destruct (best _) as [[x p]|].
Qed.
End properties.

(** The cursor reads every slot. *)
Lemma cursor_readable data bs : readable (cursor data) bs.
Proof.
  intros p. unfold read_block. destruct (checked_mul p bs) as [off|]; [|by eexists].
  unfold eval, read_at_eof, seek, read_exact_eof, io. cbv [mbind M_bind]. simpl.
  unfold cursor_read_exact. simpl. destruct (get_range _ _ _); simpl; by eexists.
Qed.

(** ** A ring for the witnesses: transactions 5 and 7, a map of 7, and a superblock of
    transaction 9 whose checksum is broken. *)
Definition demo_sb (base blocks : Z) : NxSuperblock.t :=
  NxSuperblock.mk 7 (zeroed 16) 4096 64 2 base blocks 0 0 0 0 0 [] false false.

Definition demo_ring : bytes :=
  image 4096
    [ (1, obj_block 4096 1 5 0x80000001 0 [(32, to_le_bytes 4 NX_MAGIC)]);
      (2, obj_block 4096 2 7 0x4000000c 0
            [(36, to_le_bytes 4 1); (40, to_le_bytes 4 5); (64, to_le_bytes 8 1024); (72, to_le_bytes 8 33)]);
      (3, obj_block 4096 1 7 0x80000001 0 [(32, to_le_bytes 4 NX_MAGIC)]);
      (4, put (obj_block 4096 1 9 0x80000001 0 [(32, to_le_bytes 4 NX_MAGIC)]) (100, [x01])) ].

Lemma live_checkpoint_newest_witness :
  eval (resolve_live_checkpoint (demo_sb 1 4)) (cursor demo_ring)
  = Ok (LiveCheckpoint.mk 3 7 [CheckpointMapping.mk 1024 33 5 0]) ∧
  match eval (resolve_live_checkpoint (demo_sb 1 4)) (cursor demo_ring) with
  | Ok lc =>
      ∃ i, LiveCheckpoint.superblock_paddr lc = 1 + i ∧
        newest_slot (slot_of (cursor demo_ring) 1 4096) 4 i (LiveCheckpoint.xid lc) ∧
        LiveCheckpoint.mappings lc =
          ring_mappings (slot_of (cursor demo_ring) 1 4096) 4 (LiveCheckpoint.xid lc)
  | Err e => (∃ c m, e = NoValidSuperblock c m) ∧
      ∀ i x, ¬ holds_nxsb (slot_of (cursor demo_ring) 1 4096) 4 i x
  | Panic => False
  end.
Proof.
  split; [vm_compute; reflexivity|].
  apply (live_checkpoint_newest (demo_sb 1 4) (cursor demo_ring)); [reflexivity|reflexivity|done|done|].
  apply cursor_readable.
Defined.

Lemma live_checkpoint_panics_iff_ring_overflows_witness :
  eval (resolve_live_checkpoint (demo_sb (2 ^ 64 - 2) 4)) (cursor demo_ring) = Panic.
Proof.
  apply (live_checkpoint_panics_iff_ring_overflows (demo_sb (2 ^ 64 - 2) 4) (cursor demo_ring));
    [reflexivity|reflexivity|done| |done]. apply cursor_readable.
Defined.
