(* ===== verification/Volume.v ===== *)
(** * The volume superblock ([src/src/volume.rs])

    [ApfsVolume.parse] applies four gates (length, object type, signature, checksum)
    before it trusts a field; [with_omap_oid] is the graft a snapshot mount uses. *)
From S2P Require Import Prelude Bytes Text Reader Object Node Build Container Omap.

Definition APFS_MAGIC : Z := 0x42535041.
Definition OBJECT_TYPE_FS : Z := 0xd.

Module ApfsVolume.
Definition OFF_MAGIC : Z := 32.
Definition OFF_FS_INDEX : Z := 36.
Definition OFF_FEATURES : Z := 40.
Definition OFF_RO_COMPAT_FEATURES : Z := 48.
Definition OFF_INCOMPAT_FEATURES : Z := 56.
Definition OFF_ROOT_TREE_TYPE : Z := 116.
Definition OFF_OMAP_OID : Z := 128.
Definition OFF_ROOT_TREE_OID : Z := 136.
Definition OFF_EXTENTREF_TREE_OID : Z := 144.
Definition OFF_SNAP_META_TREE_OID : Z := 152.
Definition OFF_VOL_UUID : Z := 240.
Definition OFF_FS_FLAGS : Z := 256.
Definition OFF_VOLNAME : Z := 704.
Definition VOLNAME_LEN : Z := 256.
Definition APSB_MIN_LEN : Z := OFF_VOLNAME + VOLNAME_LEN.

Record t := mk {
  self_oid : Z;
  self_xid : Z;
  self_fs_index : Z;
  self_features : Z;
  self_readonly_compatible_features : Z;
  self_incompatible_features : Z;
  self_root_tree_type : Z;
  self_omap_oid : Z;
  self_root_tree_oid : Z;
  self_extentref_tree_oid : Z;
  self_snap_meta_tree_oid : Z;
  self_uuid : bytes;
  self_fs_flags : Z;
  self_name : bytes;
}.

(** The accessors of the private fields. *)
Definition oid (self : t) : Z := self_oid self.
Definition xid (self : t) : Z := self_xid self.
Definition fs_index (self : t) : Z := self_fs_index self.
Definition features (self : t) : Z := self_features self.
Definition readonly_compatible_features (self : t) : Z := self_readonly_compatible_features self.
Definition incompatible_features (self : t) : Z := self_incompatible_features self.
Definition root_tree_type (self : t) : Z := self_root_tree_type self.
Definition omap_oid (self : t) : Z := self_omap_oid self.
Definition root_tree_oid (self : t) : Z := self_root_tree_oid self.
Definition extentref_tree_oid (self : t) : Z := self_extentref_tree_oid self.
Definition snap_meta_tree_oid (self : t) : Z := self_snap_meta_tree_oid self.
Definition uuid (self : t) : bytes := self_uuid self.
Definition fs_flags (self : t) : Z := self_fs_flags self.
Definition name (self : t) : bytes := self_name self.

(** A name is a [String]: the UTF-8 bytes. *)
Definition decode_volname (block : bytes) (offset len : Z) : bytes :=
  match get_range block offset (offset + len) with
  | None => []
  | Some field => decode_cstr field
  end.

Definition parse (block : bytes) : outcome t :=
  if zlen block <? APSB_MIN_LEN
  then Err (UnexpectedObjectType "apfs_superblock" APFS_MAGIC 0) else
  match ObjPhys.parse block with
  | None => Err (UnexpectedObjectType "apfs_superblock" APFS_MAGIC 0)
  | Some hdr =>
      if negb (ObjPhys.obj_type hdr =? OBJECT_TYPE_FS)
      then Err (UnexpectedObjectType "apfs_superblock" OBJECT_TYPE_FS (ObjPhys.obj_type_raw hdr)) else
      let magic := le_u32 block OFF_MAGIC in
      if negb (magic =? APFS_MAGIC)
      then Err (UnexpectedObjectType "apfs_superblock" APFS_MAGIC magic) else
      let stored := fletcher64_stored block in
      let computed := fletcher64_checksum block in
      if negb (stored =? computed) then Err (ChecksumMismatch (ObjPhys.oid hdr) stored computed) else
      let name := decode_volname block OFF_VOLNAME VOLNAME_LEN in
      Ok {|
        self_oid := ObjPhys.oid hdr;
        self_xid := ObjPhys.xid hdr;
        self_fs_index := le_u32 block OFF_FS_INDEX;
        self_features := le_u64 block OFF_FEATURES;
        self_readonly_compatible_features := le_u64 block OFF_RO_COMPAT_FEATURES;
        self_incompatible_features := le_u64 block OFF_INCOMPAT_FEATURES;
        self_root_tree_type := le_u32 block OFF_ROOT_TREE_TYPE;
        self_omap_oid := le_u64 block OFF_OMAP_OID;
        self_root_tree_oid := le_u64 block OFF_ROOT_TREE_OID;
        self_extentref_tree_oid := le_u64 block OFF_EXTENTREF_TREE_OID;
        self_snap_meta_tree_oid := le_u64 block OFF_SNAP_META_TREE_OID;
        self_uuid := arr 16 block OFF_VOL_UUID;
        self_fs_flags := le_u64 block OFF_FS_FLAGS;
        self_name := name;
      |}
  end.

Definition with_omap_oid (v : t) (omap : Z) : t :=
  {| self_oid := self_oid v; self_xid := self_xid v; self_fs_index := self_fs_index v; self_features := self_features v;
     self_readonly_compatible_features := self_readonly_compatible_features v;
     self_incompatible_features := self_incompatible_features v; self_root_tree_type := self_root_tree_type v;
     self_omap_oid := omap; self_root_tree_oid := self_root_tree_oid v;
     self_extentref_tree_oid := self_extentref_tree_oid v; self_snap_meta_tree_oid := self_snap_meta_tree_oid v;
     self_uuid := self_uuid v; self_fs_flags := self_fs_flags v; self_name := self_name v |}.
End ApfsVolume.

(** [apsb]: a minimal volume superblock. *)
Definition apsb (bs oid xid omap_oid root_oid snap_meta_oid : Z) (name : bytes) : bytes :=
  obj_block bs oid xid 0xd 0
    [ (32, to_le_bytes 4 APFS_MAGIC); (128, to_le_bytes 8 omap_oid); (136, to_le_bytes 8 root_oid);
      (152, to_le_bytes 8 snap_meta_oid); (704, name) ].

(** ** Lemmas *)

Lemma volume_parse_gates block v : ApfsVolume.parse block = Ok v →
  960 <= zlen block ∧ le_u32 block 32 = APFS_MAGIC ∧ cksum_ok block = true.
Proof.
  unfold ApfsVolume.parse. destruct (zlen block <? _) eqn:E1; [done|].
  destruct (ObjPhys.parse block) as [hdr|]; [|done].
  destruct (ObjPhys.obj_type hdr =? _); [|done]. cbn [negb].
  destruct (le_u32 block _ =? APFS_MAGIC) eqn:E2; [|done]. cbn [negb].
  destruct (fletcher64_stored block =? _) eqn:E3; [|done]. intros _.
  unfold ApfsVolume.APSB_MIN_LEN, ApfsVolume.OFF_VOLNAME, ApfsVolume.VOLNAME_LEN in E1. zbool.
  split; [lia|]. split; [done|]. unfold cksum_ok. by apply Z.eqb_eq.
Qed.

Lemma volume_parse_no_panic block : ApfsVolume.parse block ≠ Panic.
Proof.
  unfold ApfsVolume.parse. destruct (_ <? _); [done|]. destruct (ObjPhys.parse block); [|done].
  by repeat destruct (negb _).
Qed.

Lemma omap_parse_gates block om : ObjectMap.parse block = Ok om →
  56 <= zlen block ∧ cksum_ok block = true.
Proof.
  unfold ObjectMap.parse. destruct (zlen block <? _) eqn:E1; [done|].
  destruct (ObjPhys.parse block) as [hdr|]; [|done].
  destruct (ObjPhys.obj_type hdr =? _); [|done]. cbn [negb].
  destruct (fletcher64_stored block =? _) eqn:E3; [|done]. intros _.
  unfold OMAP_PHYS_MIN_LEN, OFF_OM_TREE_OID in E1. zbool.
  split; [lia|]. unfold cksum_ok. by apply Z.eqb_eq.
Qed.

Lemma omap_parse_no_panic block : ObjectMap.parse block ≠ Panic.
Proof.
  unfold ObjectMap.parse. destruct (_ <? _); [done|]. destruct (ObjPhys.parse block); [|done].
  by repeat destruct (negb _).
Qed.

#[export] Hint Resolve volume_parse_no_panic omap_parse_no_panic nx_parse_no_panic : safe.

(** A volume name is well-formed text without NUL. *)
Lemma volume_name_ok block v : ApfsVolume.parse block = Ok v →
  is_utf8 (ApfsVolume.name v) = true ∧ x00 ∉ ApfsVolume.name v.
Proof.
  intros E. pose proof (volume_parse_gates _ _ E) as (Hl & _).
  revert E. unfold ApfsVolume.parse. destruct (_ <? _); [done|].
  destruct (ObjPhys.parse block) as [hdr|]; [|done].
  destruct (negb _); [done|]. destruct (negb _); [done|]. destruct (negb _); [done|].
  intros [= <-]. cbn [ApfsVolume.name]. unfold ApfsVolume.decode_volname.
  destruct (get_range _ _ _); [apply decode_cstr_spec|]. split; [done|]. apply not_elem_of_nil.
Qed.

(** ** Properties *)

(** No corrupted superblock or object-map header is trusted: when the container
    superblock, the volume superblock or the object map of a block parses, and one
    32-bit word of the block after its checksum field is replaced by a different one,
    the changed block does not parse, unless the two words are all zeroes and all
    ones (which Fletcher-64 cannot tell apart). *)
Theorem corrupted_header_rejected pre w w' post k :
  zlen pre = 4 * Z.of_nat k → (2 ≤ k)%nat → length w = 4%nat → length w' = 4%nat → w ≠ w' →
  ¬ (w = [x00; x00; x00; x00] ∧ w' = [xff; xff; xff; xff]) →
  ¬ (w = [xff; xff; xff; xff] ∧ w' = [x00; x00; x00; x00]) →
  (∀ sb sb', NxSuperblock.parse (pre ++ w ++ post) = Ok sb → NxSuperblock.parse (pre ++ w' ++ post) ≠ Ok sb') ∧
  (∀ v v', ApfsVolume.parse (pre ++ w ++ post) = Ok v → ApfsVolume.parse (pre ++ w' ++ post) ≠ Ok v') ∧
  (∀ om om', ObjectMap.parse (pre ++ w ++ post) = Ok om → ObjectMap.parse (pre ++ w' ++ post) ≠ Ok om').
Proof.
  intros Hp Hk Hw Hw' Hne H01 H10.
  assert (Hc : ¬ (cksum_ok (pre ++ w ++ post) = true ∧ cksum_ok (pre ++ w' ++ post) = true)).
  { intros [Hok Hok']. apply (cksum_word_iff pre w w' post k) in Hok'; [|done..].
    destruct Hok' as [?|[?|?]]; auto. }
  split_and!; intros a b Ha Hb; apply Hc.
  - apply nx_parse_gates in Ha as (_ & _ & ?), Hb as (_ & _ & ?). done.
  - apply volume_parse_gates in Ha as (_ & _ & ?), Hb as (_ & _ & ?). done.
  - apply omap_parse_gates in Ha as (_ & ?), Hb as (_ & ?). done.
Qed.

Definition demo_apsb : bytes := apsb 1024 1026 7 40 1030 50 (str "Data").

Lemma corrupted_header_rejected_witness :
  (∃ v, ApfsVolume.parse (take 136 demo_apsb ++ [x06; x04; x00; x00] ++ drop 140 demo_apsb) = Ok v ∧
        ApfsVolume.root_tree_oid v = 1030 ∧ ApfsVolume.name v = str "Data") ∧
  ∀ v', ApfsVolume.parse (take 136 demo_apsb ++ [x07; x04; x00; x00] ++ drop 140 demo_apsb) ≠ Ok v'.
Proof.
  assert (Hv : ∃ v, ApfsVolume.parse (take 136 demo_apsb ++ [x06; x04; x00; x00] ++ drop 140 demo_apsb) = Ok v ∧
    ApfsVolume.root_tree_oid v = 1030 ∧ ApfsVolume.name v = str "Data").
  { eexists. split; [vm_compute; reflexivity|]. split; reflexivity. }
  split; [exact Hv|]. destruct Hv as (v & Hv & _). intros v'.
  destruct (corrupted_header_rejected (take 136 demo_apsb) [x06; x04; x00; x00] [x07; x04; x00; x00]
    (drop 140 demo_apsb) 34) as (_ & Hvol & _); [vm_compute; reflexivity|lia|done|done|done|by intros []|by intros []|].
  by apply (Hvol v).
Defined.
