(* ===== verification/FsRecord.v ===== *)
(** * File-system records ([src/src/fsrecord.rs])

    [decode_jkey] splits a record key into object id and type; [parse_xfields] walks an
    extended-field blob.  The theorems are the two round trips and the safety of the
    walk, whose one indexing operation cannot be out of bounds. *)
From S2P Require Import Prelude Bytes Reader Node Build.

Inductive RecordType :=
  | SnapMetadata | Extent | Inode | Xattr | SiblingLink | DstreamId | CryptoState
  | FileExtent | DirRec | DirStats | SnapName | SiblingMap | FileInfo.

#[export] Instance RecordType_eq_dec : EqDecision RecordType.
Proof. solve_decision. Defined.

Module RecordType.
Definition from_u4 (value : Z) : option RecordType :=
  match value with
  | 1 => Some SnapMetadata
  | 2 => Some Extent
  | 3 => Some Inode
  | 4 => Some Xattr
  | 5 => Some SiblingLink
  | 6 => Some DstreamId
  | 7 => Some CryptoState
  | 8 => Some FileExtent
  | 9 => Some DirRec
  | 10 => Some DirStats
  | 11 => Some SnapName
  | 12 => Some SiblingMap
  | 13 => Some FileInfo
  | _ => None
  end.

(** [ty as u8]: the discriminants of the enum. *)
Definition to_u4 (ty : RecordType) : Z :=
  match ty with
  | SnapMetadata => 1 | Extent => 2 | Inode => 3 | Xattr => 4 | SiblingLink => 5
  | DstreamId => 6 | CryptoState => 7 | FileExtent => 8 | DirRec => 9 | DirStats => 10
  | SnapName => 11 | SiblingMap => 12 | FileInfo => 13
  end.
End RecordType.

Definition OBJ_TYPE_SHIFT : Z := 60.
Definition OBJ_ID_MASK : Z := 0x0fffffffffffffff.

Definition decode_jkey (obj_id_and_type : Z) : Z * option RecordType :=
  let oid := Z.land obj_id_and_type OBJ_ID_MASK in
  let ty := Z.land (Z.shiftr obj_id_and_type OBJ_TYPE_SHIFT) 0xf in
  (oid, RecordType.from_u4 ty).

(** The key word of a record, [(ty << 60) | id]. *)
Definition jkey (ty id : Z) : Z := Z.lor (Z.shiftl ty OBJ_TYPE_SHIFT) id.

(** [decode_jkey(le_u64(key, 0))], as every walker applies it. *)
Definition record_key (key : bytes) : Z * option RecordType := decode_jkey (le_u64 key 0).

Definition OFF_XF_NUM_EXTS : Z := 0.
Definition XF_DESC_OFF : Z := 4.
Definition XF_DESC_LEN : Z := 4.
Definition MAX_XF_NUM_EXTS : Z := 4096.

(** [(x_size + 7) & !7]. *)
Definition align8 (n : Z) : Z := Z.ldiff (n + 7) 7.

(** [for i in 0..num], [n] turns left.  The [usize] sums are checked in the source;
    [data[d]] is an index. *)
Fixpoint xfields_loop (data : bytes) (n : nat) (i value_off : Z) : outcome (list (Z * bytes)) :=
  match n with
  | O => Ok []
  | S n' =>
      let d := XF_DESC_OFF + i * XF_DESC_LEN in
      x_type ← index data d;
      let x_size := le_u16 data (d + 2) in
      match checked_add value_off x_size with
      | None => Ok []
      | Some e =>
          match get_range data value_off e with
          | None => Ok []
          | Some value =>
              match checked_add value_off (align8 x_size) with
              | None => Ok [(byte_val x_type, value)]
              | Some next =>
                  rest ← xfields_loop data n' (i + 1) next;
                  Ok ((byte_val x_type, value) :: rest)
              end
          end
      end
  end.

Definition parse_xfields (data : bytes) : outcome (list (Z * bytes)) :=
  if zlen data <? XF_DESC_OFF then Ok [] else
  let num := Z.min (le_u16 data OFF_XF_NUM_EXTS) MAX_XF_NUM_EXTS in
  let desc_end := num * XF_DESC_LEN + XF_DESC_OFF in
  if zlen data <? desc_end then Ok [] else
  xfields_loop data (Z.to_nat num) 0 desc_end.

(** ** Writing a blob *)

Definition xf_desc (f : Z * bytes) : bytes := [byte_of f.1; x00] ++ to_le_bytes 2 (zlen f.2).
Definition xf_value (f : Z * bytes) : bytes := f.2 ++ zeroed (align8 (zlen f.2) - zlen f.2).
Definition xf_values (fs : list (Z * bytes)) : bytes := concat (xf_value <$> fs).
Definition encode_xfields (fs : list (Z * bytes)) : bytes :=
  to_le_bytes 2 (zlen fs) ++ to_le_bytes 2 (zlen (xf_values fs)) ++
  concat (xf_desc <$> fs) ++ xf_values fs.

Definition xfield_ok (f : Z * bytes) : Prop := in_u8 f.1 ∧ zlen f.2 < 2 ^ 16.

(** ** Keys *)

Lemma OBJ_ID_MASK_ones : OBJ_ID_MASK = Z.ones 60.
Proof. reflexivity. Qed.

Lemma decode_jkey_div_mod w : in_u64 w → decode_jkey w = (w `mod` 2 ^ 60, RecordType.from_u4 (w / 2 ^ 60)).
Proof.
  intros [H0 H1]. unfold decode_jkey, OBJ_TYPE_SHIFT. rewrite OBJ_ID_MASK_ones, Z.land_ones by done.
  rewrite Z.shiftr_div_pow2 by done. change 0xf with (Z.ones 4). rewrite Z.land_ones by done.
  rewrite (Z.mod_small (w / 2 ^ 60)); [done|]. split; [by apply Z.div_pos|]. by apply Z.div_lt_upper_bound.
Qed.

Lemma jkey_sum ty id : 0 <= id < 2 ^ 60 → 0 <= ty → jkey ty id = id + ty * 2 ^ 60.
Proof.
  intros Hid Hty. unfold jkey, OBJ_TYPE_SHIFT. rewrite Z.shiftl_mul_pow2 by done.
  rewrite Z.lor_comm. symmetry. apply Z.add_nocarry_lxor || idtac.
  rewrite <- Z.lxor_lor.
  - apply Z.add_nocarry_lxor. apply Z.bits_inj'. intros n Hn. rewrite Z.land_spec, Z.bits_0.
    destruct (decide (n < 60)).
    + rewrite Z.mul_pow2_bits_low by done. apply andb_false_r.
    + rewrite <- (Z.mod_small id (2 ^ 60)), Z.mod_pow2_bits_high by lia. done.
  - apply Z.bits_inj'. intros n Hn. rewrite Z.land_spec, Z.bits_0.
    destruct (decide (n < 60)).
    + rewrite Z.mul_pow2_bits_low by done. apply andb_false_r.
    + rewrite <- (Z.mod_small id (2 ^ 60)), Z.mod_pow2_bits_high by lia. done.
Qed.

Lemma from_to_u4 ty : RecordType.from_u4 (RecordType.to_u4 ty) = Some ty.
Proof. by destruct ty. Qed.

Lemma to_from_u4 v ty : RecordType.from_u4 v = Some ty → v = RecordType.to_u4 ty.
Proof. unfold RecordType.from_u4. repeat case_match; try discriminate; by intros [= <-]. Qed.

Lemma decode_jkey_oid w : 0 <= (decode_jkey w).1 < 2 ^ 60.
Proof. unfold decode_jkey. rewrite OBJ_ID_MASK_ones, Z.land_ones by done. by apply Z.mod_pos_bound. Qed.

(** ** Extended fields *)

Lemma align8_spec n : 0 <= n → n <= align8 n < n + 8 ∧ align8 n `mod` 8 = 0.
Proof.
  intros Hn. unfold align8. change 7 with (Z.ones 3) at 2 4 6. rewrite Z.ldiff_ones_r by done.
  rewrite Z.shiftl_mul_pow2, Z.shiftr_div_pow2 by done. change (2 ^ 3) with 8.
  pose proof (Z.div_mod (n + 7) 8 ltac:(done)). pose proof (Z.mod_pos_bound (n + 7) 8 ltac:(done)).
  split; [lia|]. apply Z.mod_mul. done.
Qed.

Lemma index_Ok {A} (l : list A) i : 0 <= i < zlen l → ∃ x, index l i = Ok x.
Proof.
  unfold index, get, zlen. intros Hi. replace (0 <=? i) with true by lia.
  destruct (lookup_lt_is_Some_2 l (Z.to_nat i)) as [x ->]; [lia|eauto].
Qed.

(** The loop stays in bounds. *)
Lemma xfields_loop_ok data n i off :
  0 <= i → XF_DESC_OFF + (i + Z.of_nat n) * XF_DESC_LEN <= zlen data →
  ∃ fs, xfields_loop data n i off = Ok fs ∧ (length fs ≤ n)%nat ∧
    Forall (λ f, in_u8 f.1 ∧ slice_of data f.2) fs.
Proof.
  revert i off. induction n as [|n IH]; intros i off Hi Hd; [exists []; by repeat constructor|].
  cbn [xfields_loop]. unfold XF_DESC_OFF, XF_DESC_LEN in *.
  destruct (index_Ok data (4 + i * 4)) as [b ->]; [lia|]. rewrite bind_Ok.
  destruct (checked_add off _) as [e|] eqn:He; [|exists []; split; [done|split; [simpl; lia|constructor]]].
  destruct (get_range data off e) as [v|] eqn:Hv; [|exists []; split; [done|split; [simpl; lia|constructor]]].
  assert (Hf : in_u8 (byte_val b) ∧ slice_of data v).
  { split; [pose proof (byte_val_range b); urange|]. exists off.
    pose proof (get_range_length _ _ _ _ Hv) as Hl. pose proof Hv as [? _]%get_range_Some.
    split; [lia|]. by rewrite Hl, Zplus_minus. }
  destruct (checked_add off (align8 _)) as [next|].
  - destruct (IH (i + 1) next) as (fs & -> & Hl & Hfs); [lia|lia|]. rewrite bind_Ok.
    eexists. split; [done|]. split; [simpl; lia|]. by constructor.
  - eexists. split; [done|]. split; [simpl; lia|]. constructor; [done|constructor].
Qed.

Lemma zlen_xf_descs fs : zlen (concat (xf_desc <$> fs)) = 4 * zlen fs.
Proof.
  induction fs as [|f fs IH]; [done|]. rewrite fmap_cons. cbn [concat].
  rewrite zlen_app, IH, zlen_cons. unfold xf_desc. autorewrite with bufs. lia.
Qed.

Lemma zlen_xf_value f : zlen (xf_value f) = align8 (zlen f.2).
Proof.
  unfold xf_value. pose proof (align8_spec (zlen f.2) (zlen_nonneg _)).
  rewrite zlen_app, zlen_zeroed by lia. lia.
Qed.

(** One field, read where the encoder put it. *)
Lemma xfields_loop_encoded hdr fs1 fs2 :
  zlen hdr = 4 → Forall xfield_ok (fs1 ++ fs2) →
  4 + 4 * zlen (fs1 ++ fs2) + zlen (xf_values (fs1 ++ fs2)) <= u64_max →
  xfields_loop (hdr ++ concat (xf_desc <$> fs1 ++ fs2) ++ xf_values (fs1 ++ fs2)) (length fs2) (zlen fs1)
    (4 + 4 * zlen (fs1 ++ fs2) + zlen (xf_values fs1)) = Ok fs2.
Proof.
  intros Hh. revert fs1. induction fs2 as [|f fs2 IH]; intros fs1 Hok Hmax; [done|].
  specialize (IH (fs1 ++ [f])). rewrite <- app_assoc in IH. cbn [app] in IH. specialize (IH Hok Hmax).
  assert (Hd : hdr ++ concat (xf_desc <$> fs1 ++ f :: fs2) ++ xf_values (fs1 ++ f :: fs2) =
    (hdr ++ concat (xf_desc <$> fs1)) ++ xf_desc f ++
    concat (xf_desc <$> fs2) ++ xf_values fs1 ++ xf_value f ++ xf_values fs2).
  { unfold xf_values. rewrite !fmap_app, !concat_app, !fmap_cons. cbn [concat]. by rewrite <- !app_assoc. }
  assert (Hv : zlen (xf_values (fs1 ++ f :: fs2)) = zlen (xf_values fs1) + align8 (zlen f.2) + zlen (xf_values fs2)).
  { unfold xf_values. rewrite fmap_app, concat_app, fmap_cons. cbn [concat].
    rewrite !zlen_app, zlen_xf_value. lia. }
  assert (Hv2 : zlen (xf_values (fs1 ++ [f])) = zlen (xf_values fs1) + align8 (zlen f.2)).
  { unfold xf_values. rewrite fmap_app, concat_app. cbn [concat fmap list_fmap].
    rewrite app_nil_r, zlen_app. by rewrite zlen_xf_value. }
  assert (HN : zlen (fs1 ++ f :: fs2) = zlen fs1 + 1 + zlen fs2) by (rewrite zlen_app, zlen_cons; lia).
  assert (H1 : zlen (fs1 ++ [f]) = zlen fs1 + 1) by (by rewrite zlen_app).
  rewrite Hv2, H1 in IH. rewrite Hv in Hmax.
  assert (Hp : zlen (hdr ++ concat (xf_desc <$> fs1)) = 4 + zlen fs1 * 4)
    by (rewrite zlen_app, zlen_xf_descs; lia).
  assert (Hdf : zlen (xf_desc f) = 4) by (unfold xf_desc; by autorewrite with bufs).
  pose proof (zlen_xf_descs fs2) as Hd2.
  apply Forall_app in Hok as [_ [[Hty Hsz] _]%Forall_cons].
  pose proof (zlen_nonneg f.2). pose proof (zlen_nonneg fs1). pose proof (zlen_nonneg fs2).
  pose proof (zlen_nonneg (xf_values fs1)). pose proof (zlen_nonneg (xf_values fs2)).
  pose proof (align8_spec (zlen f.2) (zlen_nonneg _)) as [Hal _].
  rewrite Hd in IH |- *. set (pre := hdr ++ concat (xf_desc <$> fs1)) in *.
  set (N := zlen (fs1 ++ f :: fs2)) in *. clearbody N.
  cbn [length xfields_loop]. unfold XF_DESC_OFF, XF_DESC_LEN.
  assert (Hi : index (pre ++ xf_desc f ++ concat (xf_desc <$> fs2) ++ xf_values fs1 ++ xf_value f ++ xf_values fs2)
    (4 + zlen fs1 * 4) = Ok (byte_of f.1)).
  { unfold index, get. replace (0 <=? _) with true by lia. rewrite lookup_app_r by (unfold zlen in *; lia).
    replace (Z.to_nat (4 + zlen fs1 * 4) - length pre)%nat with 0%nat by (unfold zlen in *; lia). done. }
  rewrite Hi, bind_Ok.
  assert (Hs : le_u16 (pre ++ xf_desc f ++ concat (xf_desc <$> fs2) ++ xf_values fs1 ++ xf_value f ++ xf_values fs2)
    (4 + zlen fs1 * 4 + 2) = zlen f.2).
  { unfold le_u16, xf_desc. rewrite le_read_skip by lia. rewrite Hp.
    replace (4 + zlen fs1 * 4 + 2 - (4 + zlen fs1 * 4)) with 2 by lia.
    rewrite <- !app_assoc, le_read_skip by done. apply le_read_here. lia. }
  rewrite Hs.
  rewrite (proj2 (checked_add_Some _ (zlen f.2) _)) by (split; [done|lia]).
  rewrite (proj2 (checked_add_Some _ (align8 _) _)) by (split; [done|lia]).
  rewrite (get_range_skip pre), (get_range_skip (xf_desc f)), (get_range_skip (concat _)),
    (get_range_skip (xf_values fs1)) by lia.
  unfold xf_value at 1. rewrite <- app_assoc, get_range_here by lia.
  replace (4 + 4 * N + zlen (xf_values fs1) + align8 (zlen f.2)) with
    (4 + 4 * N + (zlen (xf_values fs1) + align8 (zlen f.2))) by lia.
  rewrite IH, bind_Ok. unfold in_u8 in Hty. rewrite byte_val_of, Z.mod_small by lia. by destruct f.
Qed.

(** The walk of a blob returns, on every input. *)
Lemma parse_xfields_total data :
  ∃ fs, parse_xfields data = Ok fs ∧ zlen fs <= le_u16 data 0 ∧
    Forall (λ f, in_u8 f.1 ∧ slice_of data f.2) fs.
Proof.
  pose proof (le_u16_range data 0) as Hr. unfold parse_xfields, OFF_XF_NUM_EXTS, MAX_XF_NUM_EXTS.
  destruct (zlen data <? _); [exists []; split; [done|split; [simpl; unfold zlen; simpl; urange|constructor]]|].
  destruct (zlen data <? Z.min _ _ * _ + _) eqn:E;
    [exists []; split; [done|split; [simpl; unfold zlen; simpl; urange|constructor]]|zbool].
  destruct (xfields_loop_ok data (Z.to_nat (Z.min (le_u16 data 0) 4096)) 0
    (Z.min (le_u16 data 0) 4096 * XF_DESC_LEN + XF_DESC_OFF)) as (fs & -> & Hl & Hfs);
    [done|unfold XF_DESC_LEN, XF_DESC_OFF in *; urange|].
  exists fs. split; [done|]. split; [unfold zlen; urange|done].
Qed.

(** The walk reads a written blob back. *)
Lemma parse_xfields_encoded fs :
  Forall xfield_ok fs → zlen fs <= MAX_XF_NUM_EXTS → parse_xfields (encode_xfields fs) = Ok fs.
Proof.
  intros Hok Hn. pose proof (zlen_nonneg fs) as H0. unfold MAX_XF_NUM_EXTS in Hn.
  assert (Hvals : 0 <= zlen (xf_values fs) <= zlen fs * 2 ^ 17).
  { clear Hn. induction Hok as [|f fs [Hty Hsz] Hok IH]; [done|]. unfold xf_values. rewrite fmap_cons. cbn [concat].
    rewrite zlen_app, zlen_cons, zlen_xf_value. specialize (IH (zlen_nonneg _)). fold (xf_values fs).
    pose proof (align8_spec (zlen f.2) (zlen_nonneg _)) as [? _]. pose proof (zlen_nonneg f.2). lia. }
  assert (Hlen : zlen (encode_xfields fs) = 4 + 4 * zlen fs + zlen (xf_values fs)).
  { unfold encode_xfields. autorewrite with bufs. rewrite zlen_xf_descs. lia. }
  unfold parse_xfields. rewrite Hlen. unfold XF_DESC_OFF, XF_DESC_LEN, MAX_XF_NUM_EXTS.
  assert (Hnum : le_u16 (encode_xfields fs) OFF_XF_NUM_EXTS = zlen fs).
  { unfold encode_xfields, OFF_XF_NUM_EXTS. unfold le_u16. apply le_read_here. lia. }
  rewrite Hnum. rewrite Z.min_l by lia.
  replace (_ <? 4) with false by lia. replace (_ <? _) with false by lia.
  replace (Z.to_nat (zlen fs)) with (length fs) by (unfold zlen; lia).
  pose proof (xfields_loop_encoded (to_le_bytes 2 (zlen fs) ++ to_le_bytes 2 (zlen (xf_values fs))) [] fs) as He.
  cbn [app] in He. rewrite <- app_assoc in He. unfold encode_xfields.
  replace (zlen fs * 4 + 4) with (4 + 4 * zlen fs + zlen (xf_values [])) by (change (zlen (xf_values [])) with 0; lia).
  apply He; [by autorewrite with bufs|done|unfold u64_max; lia].
Qed.

(** ** Properties *)

Lemma decode_jkey_jkey ty id : 0 <= id < 2 ^ 60 → decode_jkey (jkey (RecordType.to_u4 ty) id) = (id, Some ty).
Proof.
  intros Hid. rewrite jkey_sum by (try done; by destruct ty).
  rewrite decode_jkey_div_mod by (unfold in_u64; destruct ty; simpl; lia).
  rewrite Z.mod_add, Z.mod_small, Z.div_add, Z.div_small by lia. f_equal. apply from_to_u4.
Qed.

(** A key word and the pair of an object id and a record type are inverse: packing a
    60-bit id and a type and decoding gives them back, and a key word that decodes to a
    type is the packing of what it decodes to; the id is returned even when the type is
    undefined. *)
Theorem jkey_roundtrip :
  (∀ ty id, 0 <= id < 2 ^ 60 → decode_jkey (jkey (RecordType.to_u4 ty) id) = (id, Some ty)) ∧
  (∀ w id ty, in_u64 w → decode_jkey w = (id, Some ty) → w = jkey (RecordType.to_u4 ty) id) ∧
  (∀ w, in_u64 w → (decode_jkey w).1 = w `mod` 2 ^ 60).
Proof.
  split_and!.
  - apply decode_jkey_jkey.
  - intros w id ty Hw. rewrite decode_jkey_div_mod by done. intros [= <- Hty].
    rewrite <- (to_from_u4 _ _ Hty). pose proof (Z.mod_pos_bound w (2 ^ 60) ltac:(done)).
    rewrite jkey_sum; [|done|unfold in_u64 in Hw; apply Z.div_pos; lia].
    pose proof (Z.div_mod w (2 ^ 60) ltac:(done)). lia.
  - intros w Hw. by rewrite decode_jkey_div_mod.
Qed.

(** C33 The walk of an extended-field blob is safe on every input: it returns (no index is
    out of bounds), with at most [xf_num_exts] fields, each value a slice of the blob;
    and it reads back every blob that the format's rules can write: a descriptor per
    field, then the values, each padded to eight bytes. *)
Theorem parse_xfields_safe_and_exact :
  (∀ data, ∃ fs, parse_xfields data = Ok fs ∧ zlen fs <= le_u16 data 0 ∧
    Forall (λ f, in_u8 f.1 ∧ slice_of data f.2) fs) ∧
  (∀ fs, Forall xfield_ok fs → zlen fs <= MAX_XF_NUM_EXTS → parse_xfields (encode_xfields fs) = Ok fs).
Proof.
  split.
  - apply parse_xfields_total.
  - apply parse_xfields_encoded.
Qed.

Lemma jkey_roundtrip_witness :
  decode_jkey (jkey 9 2) = (2, Some DirRec) ∧ decode_jkey (jkey (RecordType.to_u4 DirRec) 2) = (2, Some DirRec).
Proof. split; [vm_compute; reflexivity|]. apply jkey_roundtrip. lia. Defined.

Lemma parse_xfields_safe_and_exact_witness :
  parse_xfields (encode_xfields [(4, str "a.txt" ++ [x00]); (8, zeroed 40)]) = Ok [(4, str "a.txt" ++ [x00]); (8, zeroed 40)].
Proof.
  apply parse_xfields_safe_and_exact; [|vm_compute; intros ?; discriminate].
  repeat constructor; vm_compute; intros ?; discriminate.
Defined.
