(* ===== verification/Inode.v ===== *)
(** * Inodes ([src/src/inode.rs])

    [Inode.parse] decodes a [j_inode_val_t] and its extended fields.  [chrono]'s
    [DateTime::from_timestamp] is a parameter.  The theorem is that decoding an inode
    is total and inverse to writing one. *)
From S2P Require Import Prelude Bytes Text Reader Node Build FsRecord.

(** [x as i32], [x as i64]. *)
Definition as_i32 (z : Z) : Z := (z + 2 ^ 31) `mod` 2 ^ 32 - 2 ^ 31.
Definition as_i64 (z : Z) : Z := (z + 2 ^ 63) `mod` 2 ^ 64 - 2 ^ 63.

Definition OFF_XFIELDS : Z := 92.
Definition INO_EXT_TYPE_NAME : Z := 4.
Definition INO_EXT_TYPE_DSTREAM : Z := 8.
Definition NS_PER_SEC : Z := 1000000000.

Module Inode.
Definition OFF_PARENT_ID : Z := 0.
Definition OFF_PRIVATE_ID : Z := 8.
Definition OFF_CREATE_TIME : Z := 16.
Definition OFF_MOD_TIME : Z := 24.
Definition OFF_CHANGE_TIME : Z := 32.
Definition OFF_ACCESS_TIME : Z := 40.
Definition OFF_INTERNAL_FLAGS : Z := 48.
Definition OFF_NCHILDREN : Z := 56.
Definition OFF_BSD_FLAGS : Z := 68.
Definition OFF_OWNER : Z := 72.
Definition OFF_GROUP : Z := 76.
Definition OFF_MODE : Z := 80.

Record t := mk {
  oid : Z;
  parent_id : Z;
  private_id : Z;
  create_time : Z;
  mod_time : Z;
  change_time : Z;
  access_time : Z;
  internal_flags : Z;
  nlink_or_nchildren : Z;
  bsd_flags : Z;
  uid : Z;
  gid : Z;
  mode : Z;
  name : option bytes;
  size : option Z;
}.

(** The [match] on a field of the loop: the name and the size so far. *)
Definition xfield_step (st : option bytes * option Z) (f : Z * bytes) : option bytes * option Z :=
  if f.1 =? INO_EXT_TYPE_NAME then (Some (decode_cstr f.2), st.2)
  else if f.1 =? INO_EXT_TYPE_DSTREAM then (st.1, Some (le_u64 f.2 0))
  else st.

Definition parse (oid : Z) (value : bytes) : outcome t :=
  st ← (if OFF_XFIELDS <? zlen value
        then
          blob ← index_range value OFF_XFIELDS (zlen value);
          fields ← parse_xfields blob;
          Ok (fold_left xfield_step fields (None, None))
        else Ok (None, None));
  Ok {|
    oid := oid;
    parent_id := le_u64 value OFF_PARENT_ID;
    private_id := le_u64 value OFF_PRIVATE_ID;
    create_time := le_u64 value OFF_CREATE_TIME;
    mod_time := le_u64 value OFF_MOD_TIME;
    change_time := le_u64 value OFF_CHANGE_TIME;
    access_time := le_u64 value OFF_ACCESS_TIME;
    internal_flags := le_u64 value OFF_INTERNAL_FLAGS;
    nlink_or_nchildren := as_i32 (le_u32 value OFF_NCHILDREN);
    bsd_flags := le_u32 value OFF_BSD_FLAGS;
    uid := le_u32 value OFF_OWNER;
    gid := le_u32 value OFF_GROUP;
    mode := le_u16 value OFF_MODE;
    name := st.1;
    size := st.2;
  |}.

(** A [j_inode_val_t] that holds an inode; [reserved] are the eight bytes between the
    link count and the flags. *)
Definition encode (i : t) (reserved : bytes) (xfields : list (Z * bytes)) : bytes :=
  to_le_bytes 8 (parent_id i) ++ to_le_bytes 8 (private_id i) ++ to_le_bytes 8 (create_time i) ++
  to_le_bytes 8 (mod_time i) ++ to_le_bytes 8 (change_time i) ++ to_le_bytes 8 (access_time i) ++
  to_le_bytes 8 (internal_flags i) ++ to_le_bytes 4 (nlink_or_nchildren i) ++ reserved ++
  to_le_bytes 4 (bsd_flags i) ++ to_le_bytes 4 (uid i) ++ to_le_bytes 4 (gid i) ++
  to_le_bytes 2 (mode i) ++ zeroed 10 ++ encode_xfields xfields.

Definition in_range (i : t) : Prop :=
  in_u64 (parent_id i) ∧ in_u64 (private_id i) ∧ in_u64 (create_time i) ∧ in_u64 (mod_time i) ∧
  in_u64 (change_time i) ∧ in_u64 (access_time i) ∧ in_u64 (internal_flags i) ∧
  - 2 ^ 31 <= nlink_or_nchildren i < 2 ^ 31 ∧ in_u32 (bsd_flags i) ∧ in_u32 (uid i) ∧
  in_u32 (gid i) ∧ in_u16 (mode i).
End Inode.

(** ** Timestamps *)
Section datetime.
Context {DateTime : Type} (from_timestamp : Z → Z → option DateTime).

Definition ns_to_datetime (ns : Z) : option DateTime :=
  let secs := as_i64 (ns / NS_PER_SEC) in
  let nanos := (ns `mod` NS_PER_SEC) `mod` 2 ^ 32 in
  from_timestamp secs nanos.

Definition created (i : Inode.t) : option DateTime := ns_to_datetime (Inode.create_time i).
Definition modified (i : Inode.t) : option DateTime := ns_to_datetime (Inode.mod_time i).
Definition changed (i : Inode.t) : option DateTime := ns_to_datetime (Inode.change_time i).
Definition accessed (i : Inode.t) : option DateTime := ns_to_datetime (Inode.access_time i).
End datetime.

(** ** Lemmas *)

Lemma as_i32_id z : - 2 ^ 31 <= z < 2 ^ 31 → as_i32 (z `mod` 2 ^ 32) = z.
Proof.
  intros Hz. unfold as_i32. rewrite Zplus_mod_idemp_l. rewrite Z.mod_small; lia.
Qed.

(** The two casts of [ns_to_datetime] lose nothing. *)
Lemma ns_split ns : in_u64 ns →
  let secs := as_i64 (ns / NS_PER_SEC) in
  let nanos := (ns `mod` NS_PER_SEC) `mod` 2 ^ 32 in
  0 <= secs ∧ 0 <= nanos < NS_PER_SEC ∧ secs * NS_PER_SEC + nanos = ns.
Proof.
  intros [H0 H1]. cbv zeta. unfold NS_PER_SEC, as_i64.
  pose proof (Z.div_mod ns 1000000000 ltac:(done)). pose proof (Z.mod_pos_bound ns 1000000000 ltac:(done)).
  assert (0 <= ns / 1000000000 < 2 ^ 63) by (split; [by apply Z.div_pos|apply Z.div_lt_upper_bound; lia]).
  rewrite (Z.mod_small (_ `mod` _)) by lia. rewrite Z.mod_small by lia. lia.
Qed.

(** Parsing an inode never fails. *)
Lemma inode_parse_total oid value : ∃ i, Inode.parse oid value = Ok i ∧ Inode.oid i = oid.
Proof.
  unfold Inode.parse. destruct (OFF_XFIELDS <? zlen value) eqn:E; zbool; [|by eexists].
  destruct (index_range_Ok value OFF_XFIELDS (zlen value)) as (blob & -> & _); [unfold OFF_XFIELDS in *; lia|lia|].
  rewrite bind_Ok. destruct (parse_xfields_total blob) as (fs & -> & _). by eexists.
Qed.

(** A size that is parsed is a [u64]. *)
Lemma inode_parse_size oid value i : Inode.parse oid value = Ok i → 0 <= default 0 (Inode.size i).
Proof.
  intros (st & Hst & [= <-])%outcome_bind_Ok. cbn [Inode.size].
  destruct (OFF_XFIELDS <? zlen value); [|by injection Hst as <-].
  apply outcome_bind_Ok in Hst as (blob & _ & Hst). apply outcome_bind_Ok in Hst as (fields & _ & [= <-]).
  enough (Hgen : ∀ st, 0 <= default 0 st.2 → 0 <= default 0 (fold_left Inode.xfield_step fields st).2) by by apply Hgen.
  induction fields as [|f fields IH]; intros st Hst; [done|]. simpl. apply IH. unfold Inode.xfield_step.
  destruct (f.1 =? _); [done|]. destruct (f.1 =? _); [|done]. simpl. apply le_u64_range.
Qed.

Section encode.
Context (i : Inode.t) (reserved : bytes) (xfields : list (Z * bytes)).
Notation value := (Inode.encode i reserved xfields).
Context (Hr : Inode.in_range i) (Hres : zlen reserved = 8).

Lemma encode_inode_blob : ∃ p, value = p ++ encode_xfields xfields ∧ zlen p = 92.
Proof.
  eexists. split; [unfold Inode.encode; rewrite !app_assoc; reflexivity|].
  autorewrite with bufs. rewrite Hres, zlen_zeroed by done. done.
Qed.

Lemma encode_inode_fields :
  le_u64 value 0 = Inode.parent_id i ∧ le_u64 value 8 = Inode.private_id i ∧
  le_u64 value 16 = Inode.create_time i ∧ le_u64 value 24 = Inode.mod_time i ∧
  le_u64 value 32 = Inode.change_time i ∧ le_u64 value 40 = Inode.access_time i ∧
  le_u64 value 48 = Inode.internal_flags i ∧
  le_u32 value 56 = Inode.nlink_or_nchildren i `mod` 2 ^ 32 ∧
  le_u32 value 68 = Inode.bsd_flags i ∧ le_u32 value 72 = Inode.uid i ∧
  le_u32 value 76 = Inode.gid i ∧ le_u16 value 80 = Inode.mode i.
Proof.
  destruct Hr as (?&?&?&?&?&?&?&?&?&?&?&?). unfold Inode.encode.
  split_and!; try (read_field; done).
  unfold le_u32. repeat (rewrite le_read_skip by (autorewrite with bufs; lia); autorewrite with bufs).
  unfold le_read. rewrite get_range_here by (autorewrite with bufs; lia).
  by rewrite from_to_le_bytes.
Qed.
End encode.

(** The record of an inode is parsed back. *)
Lemma inode_parse_encode i reserved fs :
  Inode.in_range i → zlen reserved = 8 → Forall xfield_ok fs → zlen fs <= MAX_XF_NUM_EXTS →
  fold_left Inode.xfield_step fs (None, None) = (Inode.name i, Inode.size i) →
  Inode.parse (Inode.oid i) (Inode.encode i reserved fs) = Ok i.
Proof.
  intros Hr Hres Hok Hn Hst.
  destruct (encode_inode_fields i reserved fs Hr Hres) as (?&?&?&?&?&?&?&H8&?&?&?&?).
  destruct (encode_inode_blob i reserved fs Hres) as (p & Hv & Hp).
  unfold Inode.parse. change Inode.OFF_NCHILDREN with 56. rewrite H8, as_i32_id by apply Hr.
  assert (Hblob : index_range (Inode.encode i reserved fs) OFF_XFIELDS (zlen (Inode.encode i reserved fs))
    = Ok (encode_xfields fs)).
  { unfold index_range. rewrite Hv, zlen_app, Hp. unfold OFF_XFIELDS. rewrite get_range_skip by lia.
    rewrite Hp. replace (92 - 92) with 0 by lia. replace (92 + _ - 92) with (zlen (encode_xfields fs)) by lia.
    by rewrite get_range_all. }
  assert (Hlen : OFF_XFIELDS <? zlen (Inode.encode i reserved fs) = true).
  { rewrite Hv, zlen_app, Hp. unfold encode_xfields, OFF_XFIELDS. autorewrite with bufs.
    pose proof (zlen_nonneg (concat (xf_desc <$> fs))). pose proof (zlen_nonneg (xf_values fs)). lia. }
  rewrite Hlen, Hblob, bind_Ok, parse_xfields_encoded, bind_Ok, bind_Ok, Hst by done.
  destruct i; simpl in *. by repeat f_equal.
Qed.

(** ** Properties *)

(** C32 Decoding an inode is total and inverse to writing one: [Inode.parse] returns an
    inode on every byte string, however short, and on the record that holds an inode's
    fields, its link count as a signed integer, and a blob of extended fields, it
    returns that inode, with the name and the size the blob gives. *)
Theorem inode_roundtrip :
  (∀ oid value, ∃ i, Inode.parse oid value = Ok i ∧ Inode.oid i = oid) ∧
  (∀ i reserved fs, Inode.in_range i → zlen reserved = 8 → Forall xfield_ok fs → zlen fs <= MAX_XF_NUM_EXTS →
    fold_left Inode.xfield_step fs (None, None) = (Inode.name i, Inode.size i) →
    Inode.parse (Inode.oid i) (Inode.encode i reserved fs) = Ok i).
Proof.
  split; [apply inode_parse_total|]. intros. by apply inode_parse_encode.
Qed.

Lemma inode_roundtrip_witness :
  let i := Inode.mk 16 2 16 1000000000 2 3 4 0 (-1) 0 501 20 33188 (Some (str "a.txt")) (Some 12) in
  Inode.parse 16 (Inode.encode i (zeroed 8)
    [(4, str "a.txt" ++ [x00]); (8, to_le_bytes 8 12 ++ zeroed 32)]) = Ok i.
Proof.
  cbv zeta. apply (proj2 inode_roundtrip (Inode.mk 16 2 16 1000000000 2 3 4 0 (-1) 0 501 20 33188
    (Some (str "a.txt")) (Some 12))); [repeat split; done|done|repeat constructor; done|done|by vm_compute].
Defined.
