(* ===== verification/Dir.v ===== *)
(** * Directories and the file-system tree ([src/src/dir.rs])

    [descend_virtual] walks the file-system tree, whose nodes are virtual: each is
    resolved through the volume's object map.  A keyed walk skips the children whose key
    range cannot hold the target object.  The specification is the volume as an abstract
    file system, read off the list of all leaf records; [list_dir], [lookup_child],
    [load_inode] and [open_path] are shown to refine it. *)
From S2P Require Import Prelude Bytes Text Reader Object Node Build Walk BTree Omap Volume FsRecord Inode.
Import BTreeNodeHeader(is_leaf).

Definition ROOT_DIR_INO_NUM : Z := 2.
Definition J_DREC_LEN_MASK : Z := 0x3ff.
Definition OFF_DREC_FILE_ID : Z := 0.
Definition OFF_DREC_DATE_ADDED : Z := 8.
Definition OFF_DREC_FLAGS : Z := 16.
Definition MAX_FSTREE_DEPTH : Z := 64.

Module DirEntry.
Record t := mk { name : bytes; file_id : Z; date_added : Z; flags : Z }.
End DirEntry.

(** [key.get(off..off + len)] decoded, when [len > 0]. *)
Definition name_at (key : bytes) (off len : Z) : option bytes :=
  if 0 <? len then name ← get_range key off (off + len); Some (decode_cstr name) else None.

Definition decode_drec_name (key : bytes) : option bytes :=
  let hashed_len := Z.land (le_u32 key 8) J_DREC_LEN_MASK in
  match name_at key 12 hashed_len with
  | Some name => Some name
  | None => name_at key 10 (le_u16 key 8)
  end.

Definition parse_dir_entry (key value : bytes) : option DirEntry.t :=
  name ← decode_drec_name key;
  Some {|
    DirEntry.name := name;
    DirEntry.file_id := le_u64 value OFF_DREC_FILE_ID;
    DirEntry.date_added := le_u64 value OFF_DREC_DATE_ADDED;
    DirEntry.flags := le_u16 value OFF_DREC_FLAGS;
  |}.

(** ** The walk *)

Definition child_may_contain_oid (sep_oid : Z) (next_sep_oid : option Z) (target : Z) : bool :=
  (sep_oid <=? target) && match next_sep_oid with None => true | Some next => target <=? next end.

Definition key_oid (key : bytes) : Z := (record_key key).1.

(** The test of the child loop: [e] is the entry of this turn, [rest] what follows it. *)
Definition child_relevant (target : option Z) (e : Entry) (rest : list Entry) : bool :=
  match target with
  | None => true
  | Some target =>
      child_may_contain_oid (key_oid (key e)) ((λ e, key_oid (key e)) <$> head rest) target
  end.

Section walk.
Context {R : Type} `{ReadSeek R}.

(** The child loop: [f] is the recursive call. *)
Fixpoint for_children {St} (target : option Z) (f : Z → St → M R St) (es : list Entry) (st : St) : M R St :=
  match es with
  | [] => mret st
  | e :: rest =>
      st ← (if child_relevant target e rest then f (le_u64 (value e) 0) st else mret st);
      for_children target f rest st
  end.

Context (omap : ObjectMap.t) (xid block_size : Z).

(** Resolve a node, read its block, verify it. *)
Definition fetch_virtual (node_oid : Z) : M R bytes :=
  entry ← resolve omap node_oid xid block_size;
  let offset := saturating_mul (OmapEntry.paddr entry) block_size in
  buf ← read_at offset block_size;
  if cksum_ok buf then mret buf else throw (checksum_error (OmapEntry.paddr entry) buf).

Context (target_oid : option Z) {S : Type} (visit : S → bytes → bytes → S).

(** [budget] is [MAX_FSTREE_DEPTH - depth]. *)
Fixpoint descend_virtual (budget : nat) (node_oid : Z) (st : gset Z * S) : M R (gset Z * S) :=
  match budget with
  | O => throw (CycleGuard MAX_FSTREE_DEPTH)
  | Datatypes.S budget' =>
      let '(visited, s) := st in
      if decide (node_oid ∈ visited) then throw (CycleGuard MAX_FSTREE_DEPTH) else
      let visited := {[node_oid]} ∪ visited in
      buf ← fetch_virtual node_oid;
      match parse_node_header buf with
      | None => mret (visited, s)
      | Some hdr =>
          if is_leaf hdr
          then mret (visited, visit_all visit (node_entries buf FsTree) s)
          else for_children target_oid (descend_virtual budget') (node_entries buf FsTree) (visited, s)
      end
  end.
End walk.

Section dir.
Context {R : Type} `{ReadSeek R}.
Context (volume : ApfsVolume.t).

Definition read_omap (block_size : Z) : M R ObjectMap.t :=
  let omap_off := saturating_mul (ApfsVolume.omap_oid volume) block_size in
  buf ← read_at omap_off block_size;
  lift (ObjectMap.parse buf).

Definition walk_fs_tree {S} (block_size : Z) (target_oid : option Z) (visit : S → bytes → bytes → S) (s : S) : M R S :=
  omap ← read_omap block_size;
  st ← descend_virtual omap (ApfsVolume.xid volume) block_size target_oid visit
         (Z.to_nat MAX_FSTREE_DEPTH) (ApfsVolume.root_tree_oid volume) (∅, s);
  mret st.2.

Definition for_each_fs_record_for_oid {S} (block_size target_oid : Z) (visit : S → bytes → bytes → S) (s : S) : M R S :=
  walk_fs_tree block_size (Some target_oid) visit s.

Definition list_dir_visit (parent_oid : Z) (out : list DirEntry.t) (key value : bytes) : list DirEntry.t :=
  let '(oid, ty) := decode_jkey (le_u64 key 0) in
  if bool_decide (ty ≠ Some DirRec) || negb (oid =? parent_oid) then out else
  match parse_dir_entry key value with
  | None => out
  | Some entry => out ++ [entry]
  end.

Definition list_dir (parent_oid block_size : Z) : M R (list DirEntry.t) :=
  for_each_fs_record_for_oid block_size parent_oid (list_dir_visit parent_oid) [].

Definition lookup_visit (parent_oid : Z) (name : bytes) (found : option Z) (key value : bytes) : option Z :=
  match found with
  | Some _ => found
  | None =>
      let '(oid, ty) := decode_jkey (le_u64 key 0) in
      if bool_decide (ty ≠ Some DirRec) || negb (oid =? parent_oid) then found else
      match parse_dir_entry key value with
      | None => found
      | Some entry => if bool_decide (DirEntry.name entry = name) then Some (DirEntry.file_id entry) else found
      end
  end.

Definition lookup_child (parent_oid : Z) (name : bytes) (block_size : Z) : M R (option Z) :=
  for_each_fs_record_for_oid block_size parent_oid (lookup_visit parent_oid name) None.

Definition inode_visit (oid : Z) (value : option bytes) (key val : bytes) : option bytes :=
  match value with
  | Some _ => value
  | None =>
      let '(k_oid, ty) := decode_jkey (le_u64 key 0) in
      if bool_decide (ty = Some FsRecord.Inode) && (k_oid =? oid) then Some val else value
  end.

Definition load_inode (oid block_size : Z) : M R Inode.t :=
  value ← for_each_fs_record_for_oid block_size oid (inode_visit oid) None;
  value ← lift (ok_or (OmapUnresolved oid (ApfsVolume.xid volume)) value);
  lift (Inode.parse oid value).

(** [path.split('/')]. *)
Fixpoint split_slash (path : bytes) : list bytes :=
  match path with
  | [] => [[]]
  | b :: path' =>
      let parts := split_slash path' in
      if decide (b = x2f) then [] :: parts
      else match parts with p :: ps => (b :: p) :: ps | [] => [[b]] end
  end.

Definition components (path : bytes) : list bytes := filter (λ c, c ≠ []) (split_slash path).

Definition open_path (path : bytes) (block_size : Z) : M R Inode.t :=
  current ← foldM (λ component current,
      found ← lookup_child current component block_size;
      match found with
      | Some child => mret child
      | None => throw (OmapUnresolved current (ApfsVolume.xid volume))
      end) (components path) ROOT_DIR_INO_NUM;
  load_inode current block_size.
End dir.

(** ** The abstract file system of a list of records *)
Section abstract.
Context (records : list Entry).

(** The records of one object and type, in order. *)
Definition records_of (oid : Z) (ty : RecordType) : list Entry :=
  filter (λ e, record_key (key e) = (oid, Some ty)) records.

Definition directory (parent : Z) : list DirEntry.t :=
  omap (λ e, parse_dir_entry (key e) (value e)) (records_of parent DirRec).

Definition child (parent : Z) (name : bytes) : option Z :=
  DirEntry.file_id <$> head (filter (λ d, DirEntry.name d = name) (directory parent)).

Definition inode_value (oid : Z) : option bytes := value <$> head (records_of oid FsRecord.Inode).

(** Follow the components; the directory of the first missing one on failure. *)
Fixpoint resolve_components (cs : list bytes) (current : Z) : Z + Z :=
  match cs with
  | [] => inr current
  | c :: cs' =>
      match child current c with
      | Some next => resolve_components cs' next
      | None => inl current
      end
  end.
End abstract.

(** The walk of [Walk.v] this one is an instance of. *)
Definition fetch_node {R} `{ReadSeek R} (om : ObjectMap.t) (xid bs p : Z) : M R (option bytes) :=
  buf ← fetch_virtual om xid bs p; mret (Some buf).

Fixpoint fs_mask (target : option Z) (es : list Entry) : list bool :=
  match es with [] => [] | e :: rest => child_relevant target e rest :: fs_mask target rest end.

(** A well-formed file-system tree of a volume on the source: it hangs off the volume's
    object map, its separators are exact and its records are ordered by object id. *)
Record fs_tree {R} `{ReadSeek R} (volume : ApfsVolume.t) (bs : Z) (r : R) (om : ObjectMap.t) (t : tree) : Prop := {
  ft_omap : eval (read_omap volume bs) r = Ok om;
  ft_root : tree_id t = ApfsVolume.root_tree_oid volume;
  ft_stored : stored (fetch_node om (ApfsVolume.xid volume) bs) all_children FsTree r t;
  ft_shape : well_shaped (Z.to_nat MAX_FSTREE_DEPTH) t;
  ft_separated : separated key_oid t;
  ft_sorted : StronglySorted Z.le ((λ e, key_oid (key e)) <$> entries t);
}.

(** ** The walk as an instance *)
Section walk_lemmas.
Context {R : Type} `{LawfulReader R}.

Lemma Stable_fetch_virtual om xid bs p : Stable (fetch_virtual (R := R) om xid bs p).
Proof. unfold fetch_virtual. solve_stable. Qed.
#[local] Hint Resolve Stable_fetch_virtual : stable.

#[export] Instance Stable_fetch_node om xid bs p : Stable (fetch_node (R := R) om xid bs p).
Proof. unfold fetch_node. solve_stable. Qed.

Lemma fetch_node_bind om xid bs p {A} (k : option bytes → M R A) r :
  (fetch_node om xid bs p ≫= k) r = (fetch_virtual om xid bs p ≫= λ buf, k (Some buf)) r.
Proof. unfold fetch_node. by rewrite M_bind_assoc. Qed.

Lemma for_children_keep {St} target (f : Z → St → M R St) es st r :
  for_children target f es st r = foldM f (child_id <$> keep (fs_mask target es) es) st r.
Proof.
  revert st r. induction es as [|e es IH]; intros st r; [done|]. cbn [for_children fs_mask keep].
  destruct (child_relevant target e es); cbn [fmap list_fmap foldM].
  - apply M_bind_ext; [done|]. intros. apply IH.
  - apply IH.
Qed.

Lemma for_children_ext {St} target (f g : Z → St → M R St) es st r :
  (∀ x s r, f x s r = g x s r) → for_children target f es st r = for_children target g es st r.
Proof. intros Hf. rewrite !for_children_keep. by apply foldM_ext. Qed.

Lemma descend_virtual_walk om xid bs target {S} (visit : S → bytes → bytes → S) n p st r :
  descend_virtual om xid bs target visit n p st r =
  walk (fetch_node om xid bs) MAX_FSTREE_DEPTH (fs_mask target) FsTree visit n p st r.
Proof.
  revert p st r. induction n as [|n IH]; intros p [visited s] r; [done|]. cbn [descend_virtual walk].
  case_decide; [done|]. rewrite fetch_node_bind. apply M_bind_ext; [done|]. intros buf r'.
  destruct (parse_node_header buf) as [hdr|]; [|done]. destruct (is_leaf hdr); [done|].
  rewrite (for_children_ext _ _ _ _ _ _ IH). apply for_children_keep.
Qed.

Lemma Stable_descend_virtual om xid bs target {S} (visit : S → bytes → bytes → S) n p st :
  Stable (descend_virtual (R := R) om xid bs target visit n p st).
Proof.
  assert (Hst : Stable (walk (fetch_node om xid bs) MAX_FSTREE_DEPTH (fs_mask target) FsTree visit n p st))
    by apply Stable_walk, _.
  destruct Hst as [Hv Hk]. split.
  - intros r r' Hr. rewrite !(eval_ext _ _ _ (descend_virtual_walk _ _ _ _ _ _ _ _ _)). by apply Hv.
  - intros r. rewrite descend_virtual_walk. apply Hk.
Qed.
#[local] Hint Resolve Stable_descend_virtual : stable.

Lemma Stable_read_omap v bs : Stable (read_omap (R := R) v bs).
Proof. unfold read_omap. solve_stable. Qed.
#[local] Hint Resolve Stable_read_omap : stable.

Lemma Stable_walk_fs_tree v bs target {S} (visit : S → bytes → bytes → S) s :
  Stable (walk_fs_tree (R := R) v bs target visit s).
Proof. unfold walk_fs_tree. solve_stable. Qed.
End walk_lemmas.
#[export] Hint Resolve Stable_fetch_virtual Stable_descend_virtual Stable_read_omap Stable_walk_fs_tree : stable.

(** Whatever the image, a walk that returns has visited some list of entries. *)
Lemma for_each_fs_record_Ok {R} `{LawfulReader R} v bs oid {S} (visit : S → bytes → bytes → S) s r s' :
  eval (for_each_fs_record_for_oid v bs oid visit s) r = Ok s' → ∃ es, s' = visit_all visit es s.
Proof.
  unfold for_each_fs_record_for_oid, walk_fs_tree. rewrite eval_bind by solve_stable.
  intros (om & _ & E)%outcome_bind_Ok. rewrite eval_bind in E by solve_stable.
  apply outcome_bind_Ok in E as ([seen s1] & E & [= <-]).
  rewrite (eval_ext _ _ _ (descend_virtual_walk _ _ _ _ _ _ _ _ _)) in E.
  apply walk_unfolds in E as (t & _ & _ & _ & _ & -> & _); [eauto|apply _].
Qed.

(** ** Panic freedom *)
Section safe.
Context {R : Type} `{ReadSeek R}.

Lemma Safe_for_children {St} target (f : Z → St → M R St) es st :
  (∀ x s, Safe (f x s)) → Safe (for_children target f es st).
Proof.
  intros Hf. revert st. induction es as [|e es IH]; intros st; cbn [for_children]; solve_safe.
Qed.
#[local] Hint Resolve Safe_for_children : safe.

Lemma Safe_fetch_virtual om xid bs p : Safe (fetch_virtual (R := R) om xid bs p).
Proof. unfold fetch_virtual. solve_safe. Qed.
#[local] Hint Resolve Safe_fetch_virtual : safe.

Lemma Safe_walk_fs_tree v bs target {S} (visit : S → bytes → bytes → S) s :
  Safe (walk_fs_tree (R := R) v bs target visit s).
Proof.
  unfold walk_fs_tree. apply Safe_bind; [unfold read_omap; solve_safe|]. intros om.
  apply Safe_bind; [|solve_safe]. generalize (∅ : gset Z, s) (ApfsVolume.root_tree_oid v).
  induction (Z.to_nat MAX_FSTREE_DEPTH) as [|n IH]; intros st p; cbn [descend_virtual]; solve_safe.
Qed.

Lemma inode_parse_no_panic oid value : Inode.parse oid value ≠ Panic.
Proof. destruct (inode_parse_total oid value) as (i & -> & _). done. Qed.
End safe.
#[export] Hint Resolve Safe_fetch_virtual Safe_walk_fs_tree inode_parse_no_panic : safe.

Lemma Safe_for_each_fs_record_for_oid {R} `{ReadSeek R} v bs oid {S} (visit : S → bytes → bytes → S) s :
  Safe (for_each_fs_record_for_oid (R := R) v bs oid visit s).
Proof. apply Safe_walk_fs_tree. Qed.

Lemma Stable_for_each_fs_record_for_oid {R} `{LawfulReader R} v bs oid {S} (visit : S → bytes → bytes → S) s :
  Stable (for_each_fs_record_for_oid (R := R) v bs oid visit s).
Proof. apply Stable_walk_fs_tree. Qed.
#[export] Hint Resolve Safe_for_each_fs_record_for_oid Stable_for_each_fs_record_for_oid : safe stable.

Section nav.
Context {R : Type}.

Lemma Safe_list_dir `{ReadSeek R} v p bs : Safe (list_dir (R := R) v p bs).
Proof. unfold list_dir. solve_safe. Qed.
Lemma Safe_lookup_child `{ReadSeek R} v p n bs : Safe (lookup_child (R := R) v p n bs).
Proof. unfold lookup_child. solve_safe. Qed.
Lemma Safe_load_inode `{ReadSeek R} v o bs : Safe (load_inode (R := R) v o bs).
Proof. unfold load_inode. solve_safe. Qed.
Lemma Stable_list_dir `{LawfulReader R} v p bs : Stable (list_dir (R := R) v p bs).
Proof. unfold list_dir. solve_stable. Qed.
Lemma Stable_lookup_child `{LawfulReader R} v p n bs : Stable (lookup_child (R := R) v p n bs).
Proof. unfold lookup_child. solve_stable. Qed.
Lemma Stable_load_inode `{LawfulReader R} v o bs : Stable (load_inode (R := R) v o bs).
Proof. unfold load_inode. solve_stable. Qed.
End nav.
#[export] Hint Resolve Safe_list_dir Safe_lookup_child Safe_load_inode : safe.
#[export] Hint Resolve Stable_list_dir Stable_lookup_child Stable_load_inode : stable.

Lemma Safe_open_path {R} `{ReadSeek R} v p bs : Safe (open_path (R := R) v p bs).
Proof. unfold open_path. solve_safe. Qed.
Lemma Stable_open_path {R} `{LawfulReader R} v p bs : Stable (open_path (R := R) v p bs).
Proof. unfold open_path. solve_stable. Qed.
#[export] Hint Resolve Safe_open_path : safe.
#[export] Hint Resolve Stable_open_path : stable.

(** ** What a keyed walk skips *)
Section covered.
Context (target : Z).
Notation wanted := (λ e : Entry, key_oid (key e) = target).
Notation koid := (λ e : Entry, key_oid (key e)).
Notation flat kids := (concat (map (λ k : Entry * tree, entries k.2) kids)).
Notation exact := (Forall (λ k : Entry * tree, ∃ e0, head (entries k.2) = Some e0 ∧ key_oid (key e0) = key_oid (key k.1))).

(** Every record of a forest is at or after its first separator. *)
Lemma flat_ge k kids e : exact (k :: kids) → StronglySorted Z.le (koid <$> flat (k :: kids)) →
  e ∈ flat (k :: kids) → key_oid (key k.1) <= koid e.
Proof.
  intros [(e0 & He0 & <-) _]%Forall_cons Hs He. simpl in *.
  destruct (entries k.2) as [|e1 es]; [done|]. injection He0 as ->. simpl in *.
  inversion_clear Hs as [|?? _ Hall]. apply elem_of_cons in He as [->|He]; [done|].
  rewrite Forall_fmap, Forall_forall in Hall. by apply Hall.
Qed.

Lemma fs_mask_skips kids : exact kids → StronglySorted Z.le (koid <$> flat kids) →
  Forall2 (λ b k, b = false → Forall (λ e, ¬ wanted e) (entries k.2)) (fs_mask (Some target) kids.*1) kids.
Proof.
  induction kids as [|k kids IH]; intros Hex Hs; [constructor|]. cbn [fmap list_fmap fs_mask].
  assert (Hs' := Hs). simpl in Hs'. rewrite fmap_app in Hs'. apply StronglySorted_app in Hs' as (Hrel & Hk & Hrest).
  constructor; [|apply IH; [by apply Forall_cons in Hex as [_ ?]|done]].
  intros Hb. apply Forall_forall. intros e He Hw.
  assert (Hlow : key_oid (key k.1) <= koid e).
  { eapply (flat_ge k kids); [done..|]. simpl. apply elem_of_app. by left. }
  simpl in Hw, Hlow. unfold child_relevant, child_may_contain_oid in Hb. apply andb_false_iff in Hb as [Hb|Hb]; [lia|].
  destruct kids as [|k' kids]; [done|]. simpl in Hb.
  apply Forall_cons in Hex as [_ Hex]. pose proof Hex as [(e0 & He0 & Hk') _]%Forall_cons.
  assert (Hle : koid e <= koid e0).
  { apply Hrel; apply list_elem_of_fmap; [eauto|]. exists e0. split; [done|]. simpl.
    destruct (entries k'.2); [done|]. injection He0 as ->. by left. }
  simpl in *. lia.
Qed.

Lemma fs_mask_covered t : separated key_oid t → StronglySorted Z.le (koid <$> entries t) →
  covered wanted (fs_mask (Some target)) t.
Proof.
  induction t as [id|id es|id kids IH] using tree_ind'; intros Hsep Hs; [constructor..|].
  apply separated_inv in Hsep as (_ & Hex & Hseps). cbn [entries] in Hs.
  constructor; [by apply fs_mask_skips|].
  clear Hex. induction kids as [|k kids IHk]; constructor.
  - apply Forall_cons in IH as [IH _], Hseps as [Hsep _]. apply IH; [done|].
    simpl in Hs. rewrite fmap_app in Hs. by apply StronglySorted_app in Hs as (_ & ? & _).
  - apply Forall_cons in IH as [_ IH], Hseps as [_ Hseps]. apply IHk; [done|done|].
    simpl in Hs. rewrite fmap_app in Hs. by apply StronglySorted_app in Hs as (_ & _ & ?).
Qed.
End covered.

(** ** The keyed walk of a well-formed tree *)
Section keyed.
Context {R : Type} `{LawfulReader R}.
Context (volume : ApfsVolume.t) (bs : Z) (r : R) (om : ObjectMap.t) (t : tree).
Context (Ht : fs_tree volume bs r om t).

Lemma keyed_walk {S} target (visit : S → bytes → bytes → S) s :
  (∀ s e, key_oid (key e) ≠ target → visit s (key e) (value e) = s) →
  eval (for_each_fs_record_for_oid volume bs target visit s) r = Ok (visit_all visit (entries t) s).
Proof.
  intros Hv. destruct Ht as [Hom Hroot Hst Hsh Hsep Hs].
  unfold for_each_fs_record_for_oid, walk_fs_tree. rewrite eval_bind by solve_stable.
  rewrite Hom, bind_Ok, eval_bind by solve_stable. rewrite <- Hroot, (eval_ext _ _ _ (descend_virtual_walk _ _ _ _ _ _ _ _ _)).
  destruct (walk_stored (fetch_node om (ApfsVolume.xid volume) bs) MAX_FSTREE_DEPTH (fs_mask (Some target)) FsTree visit
    (prune (fs_mask (Some target)) t) (Z.to_nat MAX_FSTREE_DEPTH) ∅ s r) as (v & E & _);
    [by apply stored_prune|by apply prune_well_shaped|set_solver|].
  rewrite prune_id in E. rewrite E, bind_Ok, eval_ret. f_equal. cbn [snd].
  rewrite (visit_all_filter visit (λ e, key_oid (key e) = target) (entries (prune _ _))) by auto.
  rewrite (visit_all_filter visit (λ e, key_oid (key e) = target) (entries t)) by auto.
  by rewrite prune_filter by by apply fs_mask_covered.
Qed.

Lemma full_walk {S} (visit : S → bytes → bytes → S) s :
  eval (walk_fs_tree volume bs None visit s) r = Ok (visit_all visit (entries t) s).
Proof.
  destruct Ht as [Hom Hroot Hst Hsh _ _]. unfold walk_fs_tree. rewrite eval_bind by solve_stable.
  rewrite Hom, bind_Ok, eval_bind by solve_stable. rewrite <- Hroot, (eval_ext _ _ _ (descend_virtual_walk _ _ _ _ _ _ _ _ _)).
  assert (Hm : ∀ es, fs_mask None es = all_children es) by (induction es; simpl; by f_equal).
  destruct (walk_stored (fetch_node om (ApfsVolume.xid volume) bs) MAX_FSTREE_DEPTH (fs_mask None) FsTree visit
    t (Z.to_nat MAX_FSTREE_DEPTH) ∅ s r) as (v & -> & _); [|done|set_solver|done].
  by apply (stored_mask_ext _ all_children).
Qed.

(** The guard of a callback, on a record of another object or type. *)
Lemma other_record (oid parent : Z) (ty : option RecordType) (k : RecordType) :
  (oid, ty) ≠ (parent, Some k) → bool_decide (ty ≠ Some k) || negb (oid =? parent) = true.
Proof.
  intros Hne. case_bool_decide as Hty; [done|]. subst. destruct (oid =? parent) eqn:E; [|done].
  zbool. by subst.
Qed.

(** The records a directory listing keeps. *)
Lemma list_dir_visit_all parent es out :
  visit_all (list_dir_visit parent) es out = out ++ directory es parent.
Proof.
  revert out. induction es as [|e es IH]; intros out; [by rewrite app_nil_r|].
  rewrite visit_all_cons, IH.
  unfold directory, records_of. rewrite filter_cons. unfold list_dir_visit, record_key.
  destruct (decode_jkey (le_u64 (key e) 0)) as [oid ty] eqn:E.
  destruct (decide ((oid, ty) = (parent, Some DirRec))) as [[= -> ->]|Hne].
  - rewrite bool_decide_false by (intros Hn; by apply Hn). rewrite Z.eqb_refl. simpl.
    destruct (parse_dir_entry (key e) (value e)); simpl; [by rewrite <- app_assoc|done].
  - by rewrite (other_record _ _ _ _ Hne).
Qed.

Lemma lookup_visit_all parent name es found :
  visit_all (lookup_visit parent name) es found =
    match found with Some _ => found | None => child es parent name end.
Proof.
  revert found. induction es as [|e es IH]; intros found; [by destruct found|].
  rewrite visit_all_cons, IH.
  destruct found as [f|]; [done|]. unfold child, directory, records_of. rewrite filter_cons.
  unfold lookup_visit, record_key. destruct (decode_jkey (le_u64 (key e) 0)) as [oid ty] eqn:E.
  destruct (decide ((oid, ty) = (parent, Some DirRec))) as [[= -> ->]|Hne].
  - rewrite bool_decide_false by (intros Hn; by apply Hn). rewrite Z.eqb_refl. simpl.
    destruct (parse_dir_entry (key e) (value e)) as [d|]; simpl; [|done].
    rewrite filter_cons. case_bool_decide; by case_decide.
  - by rewrite (other_record _ _ _ _ Hne).
Qed.

Lemma inode_visit_all oid es v :
  visit_all (inode_visit oid) es v = match v with Some _ => v | None => inode_value es oid end.
Proof.
  revert v. induction es as [|e es IH]; intros v; [by destruct v|].
  rewrite visit_all_cons, IH.
  destruct v as [v|]; [done|]. unfold inode_value, records_of. rewrite filter_cons.
  unfold inode_visit, record_key. destruct (decode_jkey (le_u64 (key e) 0)) as [o ty] eqn:E.
  destruct (decide ((o, ty) = (oid, Some FsRecord.Inode))) as [[= -> ->]|Hne].
  - rewrite bool_decide_true by done. by rewrite Z.eqb_refl.
  - pose proof (other_record _ _ _ _ Hne) as Ho.
    rewrite bool_decide_not, <- negb_andb in Ho. by rewrite (proj1 (negb_true_iff _) Ho).
Qed.
End keyed.

(** ** Record names *)

(** A directory-record key in its hashed and its unhashed form. *)
Definition hashed_drec_key (parent hash : Z) (name : bytes) : bytes :=
  to_le_bytes 8 (jkey 9 parent) ++ to_le_bytes 4 (zlen name + 1 + hash * 2 ^ 10) ++ name ++ [x00].
Definition unhashed_drec_key (parent : Z) (name : bytes) : bytes :=
  to_le_bytes 8 (jkey 9 parent) ++ to_le_bytes 2 (zlen name + 1) ++ name ++ [x00].

Lemma name_at_found key off len name :
  get_range key off (off + len) = Some (name ++ [x00]) → 0 < len → is_utf8 name = true → x00 ∉ name →
  name_at key off len = Some name.
Proof.
  intros Hg Hl Hu Hn. unfold name_at. replace (0 <? len) with true by lia. rewrite Hg. simpl.
  f_equal. by apply decode_cstr_nul.
Qed.

Lemma land_1023 z : Z.land z J_DREC_LEN_MASK = z `mod` 2 ^ 10.
Proof. change J_DREC_LEN_MASK with (Z.ones 10). by rewrite Z.land_ones. Qed.

(** The low ten bits of a word depend on its first two bytes only. *)
Lemma le_u32_low10 key : le_u32 key 8 `mod` 2 ^ 10 = 0 ∨ le_u32 key 8 `mod` 2 ^ 10 = le_u16 key 8 `mod` 2 ^ 10.
Proof.
  destruct (decide (12 <= zlen key)) as [Hl|Hl].
  - right. unfold le_u32, le_u16. rewrite !le_read_in by lia.
    change (Z.to_nat 8) with 8%nat. destruct (drop 8 key) as [|b0 [|b1 [|b2 [|b3 l]]]] eqn:E;
      try (apply (f_equal (@length _)) in E; rewrite length_drop in E; unfold zlen in Hl; simpl in E; lia).
    cbn [take from_le_bytes]. rewrite firstn_O. cbn [from_le_bytes]. change (2 ^ 10) with 1024. rewrite (mod_eq_iff _ _ 1024) by done.
    exists (64 * (byte_val b2 + 256 * byte_val b3)). lia.
  - left. unfold le_u32. by rewrite le_read_out by lia.
Qed.

(** ** Splitting a path *)

Lemma split_slash_name c rest : x2f ∉ c →
  split_slash (c ++ x2f :: rest) = c :: split_slash rest ∧ split_slash c = [c].
Proof.
  induction c as [|b c IH]; intros Hc.
  - split; [|done]. cbn [app split_slash]. by rewrite decide_True.
  - apply not_elem_of_cons in Hc as [Hb Hc]. destruct (IH Hc) as [E1 E2].
    cbn [app split_slash]. rewrite !(decide_False (P := b = x2f)) by done. by rewrite E1, E2.
Qed.

Lemma components_slash rest : components (x2f :: rest) = components rest.
Proof. unfold components. cbn [split_slash]. rewrite decide_True by done. by rewrite filter_cons_False by auto. Qed.

Lemma components_replicate n rest : components (replicate n x2f ++ rest) = components rest.
Proof. induction n as [|n IH]; [done|]. cbn [replicate app]. by rewrite components_slash. Qed.

(** Names separated by any number of slashes are the components. *)
Lemma components_slashes n names : Forall (λ c, c ≠ [] ∧ x2f ∉ c) names →
  components (concat ((λ c, replicate (S n) x2f ++ c) <$> names)) = names.
Proof.
  induction 1 as [|c names [Hne Hc] Hns IH]; [done|]. rewrite fmap_cons. cbn [concat].
  rewrite <- app_assoc, components_replicate. destruct names as [|c' names].
  - cbn [fmap list_fmap concat]. rewrite app_nil_r. unfold components.
    destruct (split_slash_name c [] Hc) as [_ ->]. by rewrite filter_cons_True.
  - rewrite fmap_cons in IH |- *. cbn [concat replicate app] in IH |- *. rewrite components_slash in IH.
    unfold components at 1. destruct (split_slash_name c (((replicate n x2f ++ c') ++
      concat ((λ c, x2f :: replicate n x2f ++ c) <$> names))) Hc) as [-> _].
    rewrite filter_cons_True by done. f_equal. exact IH.
Qed.

(** The name of a hashed key is decoded as written. *)
Lemma decode_hashed_drec parent hash name :
  0 <= hash < 2 ^ 22 → zlen name < 1023 → is_utf8 name = true → x00 ∉ name →
  decode_drec_name (hashed_drec_key parent hash name) = Some name.
Proof.
  intros Hh Hl Hu Hn. pose proof (zlen_nonneg name) as H0.
  unfold decode_drec_name. rewrite !land_1023. unfold hashed_drec_key.
  assert (He : le_u32 (to_le_bytes 8 (jkey 9 parent) ++ to_le_bytes 4 (zlen name + 1 + hash * 2 ^ 10) ++ name ++ [x00]) 8
    = zlen name + 1 + hash * 2 ^ 10) by (read_field; lia).
  rewrite He, Z.mod_add, Z.mod_small by lia. rewrite (name_at_found _ _ _ name); [done| |lia|done|done].
  rewrite !get_range_skip by (autorewrite with bufs; lia). autorewrite with bufs.
  rewrite <- (app_nil_r (name ++ [x00])) at 1. apply get_range_here; autorewrite with bufs; unfold zlen; simpl; lia.
Qed.

(** ** Properties *)

(** Directory-record names survive the guess between the two key forms: the name of a
    hashed key and the name of an unhashed key are both decoded as written, for every
    well-formed name without NUL that the ten-bit length field can hold. *)
Theorem drec_name_roundtrip parent hash name :
  0 <= parent < 2 ^ 60 → 0 <= hash < 2 ^ 22 → zlen name < 1023 → is_utf8 name = true → x00 ∉ name →
  decode_drec_name (hashed_drec_key parent hash name) = Some name ∧
  decode_drec_name (unhashed_drec_key parent name) = Some name.
Proof.
  intros Hp Hh Hl Hu Hn. pose proof (zlen_nonneg name) as H0.
  split; [by apply decode_hashed_drec|]. unfold decode_drec_name. rewrite !land_1023.
  unfold unhashed_drec_key. set (key := to_le_bytes 8 _ ++ _).
  assert (He : le_u16 key 8 = zlen name + 1) by (unfold key; read_field; lia).
  assert (Hk : zlen key = 11 + zlen name) by (unfold key; autorewrite with bufs; unfold zlen; simpl; lia).
  assert (Hhash : name_at key 12 (le_u32 key 8 `mod` 2 ^ 10) = None).
  { unfold name_at. destruct (le_u32_low10 key) as [->| ->]; [done|]. rewrite He, Z.mod_small by lia.
    replace (0 <? _) with true by lia. rewrite (proj2 (get_range_None _ _ _)) by lia. done. }
  rewrite Hhash, He. apply name_at_found; [|lia|done|done]. unfold key.
  rewrite !get_range_skip by (autorewrite with bufs; lia). autorewrite with bufs.
  rewrite <- (app_nil_r (name ++ [x00])) at 1. apply get_range_here; autorewrite with bufs; unfold zlen; simpl; lia.
Qed.

Section properties.
Context {R : Type} `{LawfulReader R}.
Context (volume : ApfsVolume.t) (bs : Z) (r : R) (om : ObjectMap.t) (t : tree).

(** C22 Skipping children loses nothing: on a well-formed file-system tree, a walk keyed to
    one object and a full walk give the same outcome, for every callback that ignores
    the records of other objects. *)
Theorem keyed_walk_is_full_walk {S} target (visit : S → bytes → bytes → S) s :
  fs_tree volume bs r om t →
  (∀ s e, key_oid (key e) ≠ target → visit s (key e) (value e) = s) →
  eval (for_each_fs_record_for_oid volume bs target visit s) r = eval (walk_fs_tree volume bs None visit s) r.
Proof. intros Ht Hv. by rewrite (keyed_walk _ _ _ _ _ Ht), (full_walk _ _ _ _ _ Ht). Qed.

Lemma list_dir_eval parent : fs_tree volume bs r om t →
  eval (list_dir volume parent bs) r = Ok (directory (entries t) parent).
Proof.
  intros Ht. unfold list_dir. rewrite (keyed_walk _ _ _ _ _ Ht).
  - by rewrite list_dir_visit_all.
  - intros s [k v] Hne. unfold list_dir_visit, key_oid, record_key in *. cbn [key value] in *.
    destruct (decode_jkey (le_u64 k 0)) as [oid ty]. rewrite other_record; [done|]. by intros [= -> ->].
Qed.

Lemma lookup_child_eval parent name : fs_tree volume bs r om t →
  eval (lookup_child volume parent name bs) r = Ok (child (entries t) parent name).
Proof.
  intros Ht. unfold lookup_child. rewrite (keyed_walk _ _ _ _ _ Ht).
  - by rewrite lookup_visit_all.
  - intros [s|] [k v] Hne; [done|]. unfold lookup_visit, key_oid, record_key in *. cbn [key value] in *.
    destruct (decode_jkey (le_u64 k 0)) as [oid ty]. rewrite other_record; [done|]. by intros [= -> ->].
Qed.

Lemma load_inode_eval oid : fs_tree volume bs r om t →
  eval (load_inode volume oid bs) r =
    match inode_value (entries t) oid with
    | Some v => Inode.parse oid v
    | None => Err (OmapUnresolved oid (ApfsVolume.xid volume))
    end.
Proof.
  intros Ht. unfold load_inode. rewrite eval_bind by solve_stable.
  rewrite (keyed_walk _ _ _ _ _ Ht), bind_Ok.
  - rewrite inode_visit_all, eval_bind by solve_stable. by destruct (inode_value (entries t) oid).
  - intros [s|] [k v] Hne; [done|]. unfold inode_visit, key_oid, record_key in *. cbn [key value] in *.
    destruct (decode_jkey (le_u64 k 0)) as [o ty].
    assert (Hn : bool_decide (ty ≠ Some FsRecord.Inode) || negb (o =? oid) = true)
      by (apply other_record; by intros [= -> ->]).
    rewrite bool_decide_not, <- negb_andb in Hn. by rewrite (proj1 (negb_true_iff _) Hn).
Qed.

(** C21 Directories refine the abstract file system: on a well-formed file-system tree,
    [list_dir] returns the entries of the parent's directory records, in key order,
    [lookup_child] the file id of the first of them with the name, and so an entry is
    found exactly when the listing has one of that name. *)
Theorem directory_refines parent :
  fs_tree volume bs r om t →
  eval (list_dir volume parent bs) r = Ok (directory (entries t) parent) ∧
  (∀ name, eval (lookup_child volume parent name bs) r = Ok (child (entries t) parent name)) ∧
  (∀ name, is_Some (child (entries t) parent name) ↔
    ∃ d, d ∈ directory (entries t) parent ∧ DirEntry.name d = name).
Proof.
  intros Ht. split_and!; [by apply list_dir_eval|intros; by apply lookup_child_eval|].
  intros name. unfold child. rewrite fmap_is_Some.
  destruct (filter _ _) as [|d ds] eqn:E; simpl.
  - split; [by intros []|]. intros (d & Hd & Hn).
    assert (Hin : d ∈ filter (λ d, DirEntry.name d = name) (directory (entries t) parent))
      by (by apply list_elem_of_filter).
    rewrite E in Hin. by apply not_elem_of_nil in Hin.
  - split; [|by eexists]. intros _. exists d.
    assert (Hin : d ∈ filter (λ d, DirEntry.name d = name) (directory (entries t) parent)) by (rewrite E; left).
    apply list_elem_of_filter in Hin as [? ?]. auto.
Qed.

(** C9 Path resolution refines the abstract file system: on a well-formed tree, [open_path]
    follows the components of the path from the root directory, which for a path
    written as names after one or more slashes are those names; it returns the inode
    record it ends at.  When a component is missing it names the directory where the path
    broke, and when the inode record is missing the object. *)
Theorem open_path_refines path :
  fs_tree volume bs r om t →
  (∀ names n, Forall (λ c, c ≠ [] ∧ x2f ∉ c) names →
    components (concat ((λ c, replicate (S n) x2f ++ c) <$> names)) = names) ∧
  eval (open_path volume path bs) r =
    match resolve_components (entries t) (components path) ROOT_DIR_INO_NUM with
    | inl dir => Err (OmapUnresolved dir (ApfsVolume.xid volume))
    | inr ino =>
        match inode_value (entries t) ino with
        | Some v => Inode.parse ino v
        | None => Err (OmapUnresolved ino (ApfsVolume.xid volume))
        end
    end.
Proof.
  intros Ht. split.
  { intros names n. apply components_slashes. }
  unfold open_path.
  rewrite eval_bind by (solve_stable). rewrite eval_foldM by solve_stable.
  generalize ROOT_DIR_INO_NUM. induction (components path) as [|c cs IH]; intros cur; simpl.
  - by apply load_inode_eval.
  - rewrite eval_bind by solve_stable. rewrite lookup_child_eval, bind_Ok by done.
    destruct (child (entries t) cur c) as [next|]; [|done]. rewrite eval_ret, bind_Ok. apply IH.
Qed.
End properties.

(** ** A volume for the witnesses: a root directory with a file and a subdirectory, over
    two leaves. *)
Definition demo_volume : ApfsVolume.t :=
  ApfsVolume.mk 1026 7 0 0 0 0 2 0 100 0 0 (zeroed 16) 0 (str "Data").

Definition demo_file : Inode.t :=
  Inode.mk 16 2 16 1 2 3 4 0 1 0 501 20 33188 (Some (str "a.txt")) (Some 12).
Definition demo_dir_inode (oid : Z) : Inode.t :=
  Inode.mk oid 1 oid 1 2 3 4 0 2 0 501 20 16877 None None.

Definition demo_drec (parent : Z) (name : string) (ino : Z) : Entry :=
  {| key := hashed_drec_key parent 77 (str name);
     value := to_le_bytes 8 ino ++ to_le_bytes 8 5 ++ to_le_bytes 2 8 |}.
Definition demo_inode_rec (i : Inode.t) (fs : list (Z * bytes)) : Entry :=
  {| key := to_le_bytes 8 (jkey 3 (Inode.oid i)); value := Inode.encode i (zeroed 8) fs |}.
Definition demo_file_fields : list (Z * bytes) :=
  [(4, str "a.txt" ++ [x00]); (8, to_le_bytes 8 12 ++ zeroed 32)].

Definition demo_fs : bytes :=
  image 512
    [ (0, omap_block 512 0 1);
      (1, omap_leaf 512 1 [(100, 7, 2); (101, 7, 3); (102, 7, 4)]);
      (2, btree_node 512 100 7 false
            [ {| key := to_le_bytes 8 (jkey 3 2); value := to_le_bytes 8 101 |};
              {| key := to_le_bytes 8 (jkey 3 16); value := to_le_bytes 8 102 |} ]);
      (3, btree_node 512 101 7 true
            [ demo_inode_rec (demo_dir_inode 2) []; demo_drec 2 "a.txt" 16; demo_drec 2 "sub" 17 ]);
      (4, btree_node 512 102 7 true
            [ demo_inode_rec demo_file demo_file_fields; demo_inode_rec (demo_dir_inode 17) [];
              demo_drec 17 "b" 18 ]) ].

Definition demo_fs_om : ObjectMap.t :=
  {| ObjectMap.self_flags := 0; ObjectMap.self_tree_type := 0x40000002; ObjectMap.self_tree_oid := 1;
     ObjectMap.self_snapshot_tree_oid := 0 |}.

Definition demo_fs_tree : tree :=
  Eval vm_compute in
    match load (fetch_node demo_fs_om 7 512) all_children FsTree (cursor demo_fs) 3 100 with
    | Some t => t
    | None => Hole 0
    end.

Lemma demo_fs_ok : fs_tree demo_volume 512 (cursor demo_fs) demo_fs_om demo_fs_tree.
Proof.
  assert (Hl : load (fetch_node demo_fs_om 7 512) all_children FsTree (cursor demo_fs) 3 100
    = Some demo_fs_tree) by (vm_compute; reflexivity).
  apply load_stored in Hl as [Hid Hst]. split; [by vm_compute|done|done| | |].
  - split; [apply (bool_decide_unpack _); vm_compute; exact I|vm_compute; lia].
  - unfold demo_fs_tree. repeat first [constructor|done|eexists].
  - change (StronglySorted Z.le [2; 2; 2; 16; 17; 17]). repeat constructor; lia.
Qed.

(** A volume whose file-system tree is one leaf, with content blocks after it. *)
Definition one_leaf_fs (bs : Z) (records : list Entry) (content : list (Z * bytes)) : bytes :=
  image bs ([ (0, omap_block bs 0 1); (1, omap_leaf bs 1 [(100, 7, 2)]);
              (2, btree_node bs 100 7 true records) ] ++ content).

Lemma one_leaf_fs_ok bs data records :
  eval (read_omap demo_volume bs) (cursor data) = Ok demo_fs_om →
  load (fetch_node demo_fs_om 7 bs) all_children FsTree (cursor data) 1 100 = Some (Leaf 100 records) →
  StronglySorted Z.le ((λ e, key_oid (key e)) <$> records) →
  fs_tree demo_volume bs (cursor data) demo_fs_om (Leaf 100 records).
Proof.
  intros Hom Hl Hs. apply load_stored in Hl as [_ Hst]. split; [done|done|done| |constructor|done].
  split; [apply NoDup_singleton|vm_compute; lia].
Qed.

Lemma keyed_walk_is_full_walk_witness :
  let count := λ (n : Z) (k _ : bytes), if key_oid k =? 2 then n + 1 else n in
  eval (for_each_fs_record_for_oid demo_volume 512 2 count 0) (cursor demo_fs) = Ok 3 ∧
  eval (for_each_fs_record_for_oid demo_volume 512 2 count 0) (cursor demo_fs)
  = eval (walk_fs_tree demo_volume 512 None count 0) (cursor demo_fs).
Proof.
  cbv zeta. split; [vm_compute; reflexivity|].
  apply (keyed_walk_is_full_walk demo_volume 512 (cursor demo_fs) demo_fs_om demo_fs_tree 2 _ 0 demo_fs_ok).
  intros n e Hne. cbv beta. by rewrite (proj2 (Z.eqb_neq _ _) Hne).
Defined.

Lemma drec_name_roundtrip_witness :
  decode_drec_name (hashed_drec_key 2 4194303 (str "a.txt")) = Some (str "a.txt") ∧
  decode_drec_name (unhashed_drec_key 2 (str "a.txt")) = Some (str "a.txt").
Proof.
  apply (drec_name_roundtrip 2 4194303 (str "a.txt")); [done|done|done|by vm_compute|].
  apply (bool_decide_unpack _). vm_compute. exact I.
Defined.

Lemma directory_refines_witness :
  eval (list_dir demo_volume 2 512) (cursor demo_fs)
    = Ok [DirEntry.mk (str "a.txt") 16 5 8; DirEntry.mk (str "sub") 17 5 8] ∧
  eval (lookup_child demo_volume 2 (str "sub") 512) (cursor demo_fs) = Ok (Some 17).
Proof.
  destruct (directory_refines demo_volume 512 (cursor demo_fs) demo_fs_om demo_fs_tree 2 demo_fs_ok) as (Hl & Hc & _).
  split; [rewrite Hl|rewrite Hc]; vm_compute; reflexivity.
Defined.

Lemma open_path_refines_witness :
  eval (open_path demo_volume (str "//a.txt") 512) (cursor demo_fs) = Ok demo_file ∧
  eval (open_path demo_volume (str "/sub/b") 512) (cursor demo_fs) = Err (OmapUnresolved 18 7) ∧
  eval (open_path demo_volume (str "/sub/c/d") 512) (cursor demo_fs) = Err (OmapUnresolved 17 7).
Proof.
  pose proof (λ p, proj2 (open_path_refines demo_volume 512 (cursor demo_fs) demo_fs_om demo_fs_tree p demo_fs_ok)) as Hp.
  rewrite !Hp. split_and!; vm_compute; reflexivity.
Defined.
