(* ===== verification/Extent.v ===== *)
(** * File extents ([src/src/extent.rs], the physical reads)

    [list_extents] gathers the extents of a data stream in logical order; [read_stream]
    assembles the stream into a buffer of exactly its logical size.  The output buffer
    is the state of the loop: each extent is copied over what is there, as [read_exact]
    into a slice of it does.  The slice panics when it is out of bounds ([read_slice]), so
    that it never does is a lemma here, [Safe_read_stream], and not a convention.  The
    specification says, byte by byte, where the content comes from. *)
From S2P Require Import Prelude Bytes Reader Object Node Build Walk BTree Omap Volume FsRecord Inode Dir.

Definition J_FILE_EXTENT_LEN_MASK : Z := 0x00ffffffffffffff.
Definition OFF_FEXT_KEY_LOGICAL : Z := 8.
Definition OFF_FEXT_LEN_AND_FLAGS : Z := 0.
Definition OFF_FEXT_PHYS_BLOCK : Z := 8.
Definition MAX_FILE_BYTES : Z := 2 ^ 34.

Module FileExtent.
Record t := mk { logical_offset : Z; len : Z; phys_block_num : Z }.
End FileExtent.

Definition parse_extent (key value : bytes) : FileExtent.t :=
  {| FileExtent.logical_offset := le_u64 key OFF_FEXT_KEY_LOGICAL;
     FileExtent.len := Z.land (le_u64 value OFF_FEXT_LEN_AND_FLAGS) J_FILE_EXTENT_LEN_MASK;
     FileExtent.phys_block_num := le_u64 value OFF_FEXT_PHYS_BLOCK |}.

Definition extents_visit (stream_oid : Z) (out : list FileExtent.t) (key value : bytes) : list FileExtent.t :=
  let '(oid, ty) := decode_jkey (le_u64 key 0) in
  if bool_decide (ty ≠ Some FileExtent) || negb (oid =? stream_oid) then out
  else out ++ [parse_extent key value].

Section extent.
Context {R : Type} `{ReadSeek R}.
Context (volume : ApfsVolume.t).

Definition list_extents (stream_oid block_size : Z) : M R (list FileExtent.t) :=
  out ← for_each_fs_record_for_oid volume block_size stream_oid (extents_visit stream_oid) [];
  mret (sort_by_key FileExtent.logical_offset out).

(** One turn of the loop of [read_stream].  The error of [ok_or] is built whether or not
    it is used, so its division by [block_size] runs on every extent that is read. *)
Definition read_extent (size block_size : Z) (ext : FileExtent.t) (out : bytes) : M R bytes :=
  let start := FileExtent.logical_offset ext in
  if (size <=? start) || (FileExtent.phys_block_num ext =? 0) then mret out else
  let avail := size - start in
  let copy_len := Z.min (FileExtent.len ext) avail in
  cap ← lift (div_u64 u64_max block_size);
  byte_off ← lift (ok_or
    (FieldOutOfRange "j_file_extent" "phys_block_num" (FileExtent.phys_block_num ext) cap)
    (checked_mul (FileExtent.phys_block_num ext) block_size));
  piece ← read_slice byte_off (last ← add_u64 start copy_len; index_range out start last);
  mret (put out (start, piece)).

Definition read_stream (stream_oid logical_size block_size : Z) : M R bytes :=
  if MAX_FILE_BYTES <? logical_size
  then throw (FieldOutOfRange "j_dstream" "size" logical_size MAX_FILE_BYTES) else
  extents ← list_extents stream_oid block_size;
  let size := logical_size in
  foldM (read_extent size block_size) extents (zeroed size).
End extent.

(** ** Specification *)

(** The extents of a stream among the records of a volume, in key order. *)
Definition extents_of (records : list Entry) (stream_oid : Z) : list FileExtent.t :=
  (λ e, parse_extent (key e) (value e)) <$> records_of records stream_oid FileExtent.

(** The extent holds data for byte [i] of the stream. *)
Definition covers (i : Z) (ext : FileExtent.t) : Prop :=
  FileExtent.phys_block_num ext ≠ 0 ∧
  FileExtent.logical_offset ext <= i < FileExtent.logical_offset ext + FileExtent.len ext.

#[export] Instance covers_dec i ext : Decision (covers i ext).
Proof. unfold covers. apply _. Defined.

(** Byte [i] of the stream over an image: from the last extent that covers it, or zero. *)
Definition stream_byte (data : bytes) (bs : Z) (exts : list FileExtent.t) (i : Z) : option byte :=
  match last (filter (covers i) exts) with
  | Some ext => get data (FileExtent.phys_block_num ext * bs + (i - FileExtent.logical_offset ext))
  | None => Some x00
  end.

(** ** Lemmas *)

Lemma parse_extent_ranges key value :
  in_u64 (FileExtent.logical_offset (parse_extent key value)) ∧
  0 <= FileExtent.len (parse_extent key value) < 2 ^ 56 ∧
  in_u64 (FileExtent.phys_block_num (parse_extent key value)).
Proof.
  unfold parse_extent. cbn [FileExtent.logical_offset FileExtent.len FileExtent.phys_block_num].
  split; [apply le_u64_range|]. split; [|apply le_u64_range].
  change J_FILE_EXTENT_LEN_MASK with (Z.ones 56). rewrite Z.land_ones by done. by apply Z.mod_pos_bound.
Qed.

Lemma extents_visit_all stream es out :
  visit_all (extents_visit stream) es out = out ++ extents_of es stream.
Proof.
  revert out. induction es as [|e es IH]; intros out; [by rewrite app_nil_r|].
  rewrite visit_all_cons, IH. unfold extents_of, records_of. rewrite filter_cons.
  unfold extents_visit, record_key. destruct (decode_jkey (le_u64 (key e) 0)) as [oid ty].
  destruct (decide ((oid, ty) = (stream, Some FileExtent))) as [[= -> ->]|Hne].
  - rewrite bool_decide_false by (intros Hn; by apply Hn). rewrite Z.eqb_refl. simpl. by rewrite <- app_assoc.
  - by rewrite (other_record _ _ _ _ Hne).
Qed.

Lemma zlen_put b off piece : 0 <= off → off + zlen piece <= zlen b → zlen (put b (off, piece)) = zlen b.
Proof.
  intros. unfold put. cbn [fst snd]. autorewrite with bufs.
  unfold zlen in *. lia.
Qed.

(** What a copy changes. *)
Lemma get_put b off piece i : 0 <= off → off + zlen piece <= zlen b → 0 <= i →
  get (put b (off, piece)) i =
    if (off <=? i) && (i <? off + zlen piece) then get piece (i - off) else get b i.
Proof.
  intros Ho Hb Hi. unfold put, get. cbn [fst snd]. replace (0 <=? i) with true by lia.
  unfold zlen in *. destruct (Z.ltb_spec i off).
  - replace (off <=? i) with false by lia. simpl.
    rewrite lookup_app_l by (rewrite length_take; lia). rewrite lookup_take_lt by lia. done.
  - replace (off <=? i) with true by lia. rewrite lookup_app_r by (rewrite length_take; lia).
    rewrite length_take, Nat.min_l by lia. simpl. split_if.
    + replace (0 <=? i - off) with true by lia. rewrite lookup_app_l by lia. f_equal. lia.
    + rewrite lookup_app_r by lia. rewrite lookup_drop. f_equal. lia.
Qed.

Lemma get_zeroed n i : 0 <= i < n → get (zeroed n) i = Some x00.
Proof.
  intros. unfold get, zeroed. replace (0 <=? i) with true by lia. apply lookup_replicate. split; [done|lia].
Qed.

Lemma get_get_range {A} (l : list A) a b s i :
  get_range l a b = Some s → 0 <= i < b - a → get s i = get l (a + i).
Proof.
  intros [[? ?] ->]%get_range_Some Hi. unfold get.
  replace (0 <=? i) with true by lia. replace (0 <=? a + i) with true by lia.
  rewrite lookup_take_lt by lia. rewrite lookup_drop. f_equal. lia.
Qed.

Section extent_lemmas.
Context {R : Type}.

Lemma Safe_list_extents `{ReadSeek R} v s bs : Safe (list_extents (R := R) v s bs).
Proof. unfold list_extents. solve_safe. Qed.

Lemma Stable_list_extents `{LawfulReader R} v s bs : Stable (list_extents (R := R) v s bs).
Proof. unfold list_extents. solve_stable. Qed.

Lemma Stable_read_extent `{LawfulReader R} size bs ext out : Stable (read_extent (R := R) size bs ext out).
Proof. unfold read_extent. solve_stable. Qed.
End extent_lemmas.
#[export] Hint Resolve Safe_list_extents : safe.
#[export] Hint Resolve Stable_list_extents Stable_read_extent : stable.

Lemma Stable_read_stream {R} `{LawfulReader R} v s size bs : Stable (read_stream (R := R) v s size bs).
Proof. unfold read_stream. solve_stable. Qed.
#[export] Hint Resolve Stable_read_stream : stable.

(** The slice an extent is read into is in bounds, since it is cut at the logical size;
    with a longer one the source panics.  The buffer can only be shorter than the size
    when the size is negative, and then no extent is read. *)
Lemma extent_slice (out : bytes) start len size : 0 <= start < size → 0 <= len → zlen out = size → size <= MAX_FILE_BYTES →
  ∃ window, (last ← add_u64 start (Z.min len (size - start)); index_range out start last) = Ok window ∧
    zlen window = Z.min len (size - start).
Proof.
  intros Hs Hl Hz Hm. unfold MAX_FILE_BYTES in Hm. rewrite add_u64_Ok, bind_Ok by (unfold u64_max; lia).
  destruct (index_range_Ok out start (start + Z.min len (size - start))) as (w & E & Hg); [lia|lia|].
  exists w. split; [exact E|]. apply get_range_length in Hg. lia.
Qed.

Lemma read_extent_no_panic {R} `{LawfulReader R} size bs ext out r :
  bs ≠ 0 → 0 <= FileExtent.logical_offset ext → 0 <= FileExtent.len ext → zlen out = Z.max 0 size → size <= MAX_FILE_BYTES →
  eval (read_extent (R := R) size bs ext out) r ≠ Panic.
Proof.
  intros Hbs Ho Hl Hz Hm. unfold read_extent. destruct (_ || _) eqn:E; [done|]. zbool.
  rewrite eval_bind by solve_stable. rewrite eval_lift, div_u64_Ok, bind_Ok by done.
  rewrite eval_bind by solve_stable. apply bind_no_panic; [rewrite eval_lift; apply ok_or_no_panic|]. intros off _.
  destruct (extent_slice out (FileExtent.logical_offset ext) (FileExtent.len ext) size) as (w & -> & _); [lia..|].
  rewrite eval_bind by solve_stable. apply bind_no_panic; [|done].
  rewrite (eval_ext _ _ _ (read_slice_Ok off w r)). apply read_at_no_panic.
Qed.

(** The loop keeps the length of the buffer. *)
Lemma read_extent_length {R} `{LawfulReader R} size bs ext out r out' :
  0 <= FileExtent.logical_offset ext → 0 <= FileExtent.len ext → zlen out = Z.max 0 size →
  eval (read_extent (R := R) size bs ext out) r = Ok out' → zlen out' = Z.max 0 size.
Proof.
  intros Ho Hl Hz. unfold read_extent. destruct (_ || _) eqn:E; [by intros [= <-]|]. zbool.
  rewrite eval_bind by solve_stable. rewrite eval_lift. intros (cap & _ & E)%outcome_bind_Ok.
  rewrite eval_bind in E by solve_stable. apply outcome_bind_Ok in E as (off & _ & E).
  rewrite eval_bind in E by solve_stable. apply outcome_bind_Ok in E as (piece & Hp & [= <-]).
  destruct (read_slice_bad _ _ _ _ Hp) as [w Ew]. rewrite Ew in Hp.
  rewrite (eval_ext _ _ _ (read_slice_Ok off w r)) in Hp. apply read_at_length in Hp; [|apply zlen_nonneg].
  apply outcome_bind_Ok in Ew as (last & _ & Ew). unfold index_range in Ew.
  destruct (get_range out _ _) as [w'|] eqn:Eg; [|done]. injection Ew as ->.
  pose proof (get_range_length _ _ _ _ Eg). apply get_range_Some in Eg as [? _]. rewrite zlen_put; lia.
Qed.

Lemma list_extents_Ok {R} `{LawfulReader R} v stream bs r exts :
  eval (list_extents v stream bs) r = Ok exts →
  ∃ es, exts = sort_by_key FileExtent.logical_offset (extents_of es stream).
Proof.
  unfold list_extents. rewrite eval_bind by solve_stable. intros (out & E & [= <-])%outcome_bind_Ok.
  apply for_each_fs_record_Ok in E as (es & ->). exists es. by rewrite extents_visit_all.
Qed.

Definition extent_ok (ext : FileExtent.t) : Prop :=
  in_u64 (FileExtent.logical_offset ext) ∧ 0 <= FileExtent.len ext < 2 ^ 56 ∧ in_u64 (FileExtent.phys_block_num ext).

Lemma extents_of_ok es stream : Forall extent_ok (extents_of es stream).
Proof. apply Forall_fmap, Forall_forall. intros e _. apply parse_extent_ranges. Qed.

Lemma sorted_extents_ok es stream :
  Forall extent_ok (sort_by_key FileExtent.logical_offset (extents_of es stream)).
Proof. rewrite sort_by_key_perm. apply extents_of_ok. Qed.

Lemma read_stream_length {R} `{LawfulReader R} v stream size bs r out : 0 <= size →
  eval (read_stream v stream size bs) r = Ok out → zlen out = size.
Proof.
  intros Hs. unfold read_stream. destruct (_ <? _) eqn:Hcap; [done|]. zbool. rewrite eval_bind by solve_stable.
  intros (exts & Hex & E)%outcome_bind_Ok. apply list_extents_Ok in Hex as (es & Hex).
  assert (Hok : Forall extent_ok exts) by (subst; apply sorted_extents_ok).
  rewrite eval_foldM in E by solve_stable. clear Hex es. assert (Hz := zlen_zeroed size Hs).
  revert E Hz. generalize (zeroed size). induction Hok as [|ext exts (H1 & H2 & _) Hok IH]; intros b E Hz; simpl in E.
  { by injection E as <-. }
  apply outcome_bind_Ok in E as (b' & Hb & E). apply (IH b'); [done|].
  apply (read_extent_length size bs ext b r) in Hb; [|unfold in_u64 in *; lia..]. by rewrite Hb, Z.max_r.
Qed.

(** [read_stream] never panics, whatever extents the image holds: every slice it reads
    into is in bounds. *)
Lemma Safe_read_stream {R} `{LawfulReader R} v stream size bs : bs ≠ 0 → Safe (read_stream (R := R) v stream size bs).
Proof.
  intros Hbs r. unfold read_stream. destruct (_ <? _) eqn:Hcap; [done|]. zbool. rewrite eval_bind by solve_stable.
  apply bind_no_panic; [apply Safe_list_extents|]. intros exts (es & Hex)%list_extents_Ok.
  assert (Hok : Forall extent_ok exts) by (subst; apply sorted_extents_ok). clear Hex es.
  rewrite eval_foldM by solve_stable. assert (Hz : zlen (zeroed size) = Z.max 0 size) by (unfold zlen, zeroed; rewrite length_replicate; lia).
  revert Hz. generalize (zeroed size). induction Hok as [|ext exts ((H1 & _) & H2 & _) Hok IH]; intros b Hz; [done|].
  cbn [foldM]. apply bind_no_panic; [apply read_extent_no_panic; lia|]. intros b' Hb. apply IH.
  apply (read_extent_length size bs ext b r); [lia..|done].
Qed.
#[export] Hint Resolve Safe_read_stream : safe.

(** ** The bytes, over an image *)
Section bytes.
Context (data : bytes) (size bs : Z).

Lemma eval_read_extent ext out : extent_ok ext → 0 < bs → zlen out = size → size <= MAX_FILE_BYTES →
  eval (read_extent size bs ext out) (cursor data) =
    if (size <=? FileExtent.logical_offset ext) || (FileExtent.phys_block_num ext =? 0) then Ok out else
    let n := Z.min (FileExtent.len ext) (size - FileExtent.logical_offset ext) in
    let off := FileExtent.phys_block_num ext * bs in
    if u64_max <? off
    then Err (FieldOutOfRange "j_file_extent" "phys_block_num" (FileExtent.phys_block_num ext) (u64_max / bs))
    else match get_range data off (off + n) with
         | Some piece => Ok (put out (FileExtent.logical_offset ext, piece))
         | None => Err (Io (IoError UnexpectedEof))
         end.
Proof.
  intros ((Ho & _) & (Hl & _) & _) Hbs Hz Hm. unfold read_extent, div_u64, checked_mul. replace (bs =? 0) with false by lia.
  destruct (_ || _) eqn:Hskip; [done|]. zbool. rewrite eval_bind by solve_stable. rewrite eval_lift, bind_Ok.
  rewrite eval_bind by solve_stable. rewrite eval_lift. cbv zeta.
  destruct (u64_max <? _) eqn:E1; zbool.
  - by replace (_ <=? u64_max) with false by lia.
  - replace (_ <=? u64_max) with true by lia. cbn [ok_or]. rewrite bind_Ok.
    destruct (extent_slice out (FileExtent.logical_offset ext) (FileExtent.len ext) size) as (w & -> & Hw); [lia..|].
    rewrite eval_bind by solve_stable. rewrite (eval_ext _ _ _ (read_slice_Ok _ w _)), Hw, cursor_read_at. by destruct (get_range _ _ _).
Qed.

(** The buffer after one extent. *)
Lemma read_extent_bytes ext out out' exts :
  extent_ok ext → 0 < bs → 0 <= size <= MAX_FILE_BYTES → zlen out = size →
  (∀ i, 0 <= i < size → get out i = stream_byte data bs exts i) →
  eval (read_extent size bs ext out) (cursor data) = Ok out' →
  zlen out' = size ∧ ∀ i, 0 <= i < size → get out' i = stream_byte data bs (exts ++ [ext]) i.
Proof.
  intros Hok Hbs [Hs Hm] Hz Hout E. split.
  { rewrite <- (Z.max_r 0 size) by lia. destruct Hok as (? & ? & ?). eapply read_extent_length; [..|exact E]; unfold in_u64 in *; lia. }
  rewrite eval_read_extent in E by done. intros i Hi. unfold stream_byte.
  rewrite filter_app, filter_cons, filter_nil.
  destruct Hok as ((Hl0 & _) & Hlen & _).
  destruct (_ || _) eqn:Hskip.
  - injection E as <-. rewrite decide_False, app_nil_r by (unfold covers; lia). by apply Hout.
  - cbv zeta in E. destruct (u64_max <? _); [done|]. destruct (get_range _ _ _) as [piece|] eqn:Hg; [|done].
    injection E as <-. zbool. pose proof (get_range_length _ _ _ _ Hg) as Hp.
    rewrite get_put by lia. destruct (decide (covers i ext)) as [Hc|Hc].
    + rewrite last_snoc. destruct Hc as [_ Hc]. replace (_ && _) with true by lia.
      rewrite (get_get_range _ _ _ _ _ Hg) by lia. done.
    + rewrite app_nil_r. replace (_ && _) with false by (unfold covers in Hc; lia). by apply Hout.
Qed.

Lemma read_extents_bytes exts out :
  Forall extent_ok exts → 0 < bs → 0 <= size <= MAX_FILE_BYTES →
  foldM (λ ext out, eval (read_extent size bs ext out) (cursor data)) exts (zeroed size) = Ok out →
  zlen out = size ∧ ∀ i, 0 <= i < size → get out i = stream_byte data bs exts i.
Proof.
  intros Hok Hbs Hs. revert out. induction exts as [|ext exts IH] using rev_ind; intros out E.
  - injection E as <-. split; [apply zlen_zeroed; lia|]. intros i Hi. by apply get_zeroed.
  - apply Forall_app in Hok as [Hok [Hext _]%Forall_cons]. rewrite foldM_app in E.
    apply outcome_bind_Ok in E as (b & Hb & E). destruct (IH Hok b Hb) as [Hz Hbytes].
    cbn [foldM] in E. apply outcome_bind_Ok in E as (b' & Hb' & [= <-]).
    by apply (read_extent_bytes ext b).
Qed.

(** The extents that are read lie inside the image. *)
Definition extent_in_image (ext : FileExtent.t) : Prop :=
  FileExtent.phys_block_num ext = 0 ∨ size <= FileExtent.logical_offset ext ∨
  FileExtent.phys_block_num ext * bs + Z.min (FileExtent.len ext) (size - FileExtent.logical_offset ext) <= zlen data.

Lemma read_extents_total exts out :
  Forall extent_ok exts → Forall extent_in_image exts → 0 < bs → zlen out = size → size <= MAX_FILE_BYTES →
  zlen data <= u64_max →
  ∃ out', foldM (λ ext out, eval (read_extent size bs ext out) (cursor data)) exts out = Ok out'.
Proof.
  intros Hok Hin Hbs Hz Hm Hd. revert out Hz. induction Hok as [|ext exts Hext Hok IH]; intros out Hz; [by eexists|].
  apply Forall_cons in Hin as [Hi Hin]. cbn [foldM].
  assert (∃ out', eval (read_extent size bs ext out) (cursor data) = Ok out') as [out' E].
  { rewrite eval_read_extent by done. destruct (_ || _) eqn:Hskip; [by eexists|]. zbool. cbv zeta.
    destruct Hext as ((? & ?) & ? & (? & ?)). destruct Hi as [?|[?|Hi]]; [lia..|].
    replace (u64_max <? _) with false by lia.
    destruct (get_range _ _ _) eqn:Hg; [by eexists|]. apply get_range_None in Hg. nia. }
  rewrite E, bind_Ok. apply IH; [done|]. destruct Hext as (? & ? & ?). pose proof (zlen_nonneg out).
  rewrite <- (Z.max_r 0 size) by lia. eapply read_extent_length; [..|exact E]; unfold in_u64 in *; lia.
Qed.

(** An extent that was read lies in the image. *)
Lemma read_extents_in_image exts out out' :
  Forall extent_ok exts → 0 < bs → 0 <= size <= MAX_FILE_BYTES → zlen out = size →
  foldM (λ ext out, eval (read_extent size bs ext out) (cursor data)) exts out = Ok out' →
  Forall extent_in_image exts.
Proof.
  intros Hok Hbs Hs. revert out. induction Hok as [|ext exts Hext Hok IH]; intros out Hz E; [constructor|].
  cbn [foldM] in E. apply outcome_bind_Ok in E as (b & Hb & E). constructor.
  - rewrite eval_read_extent in Hb by (try done; lia). unfold extent_in_image. destruct (_ || _) eqn:Hskip; zbool; [lia|].
    cbv zeta in Hb. destruct (u64_max <? _); [done|]. destruct (get_range _ _ _) eqn:Hg; [|done].
    apply get_range_Some in Hg as [? _]. lia.
  - apply (IH b); [|done]. destruct Hext as (? & ? & ?). rewrite <- (Z.max_r 0 size) by lia.
    eapply read_extent_length; [..|exact Hb]; unfold in_u64 in *; lia.
Qed.

(** [out] is the content of a stream of [size] bytes: what its extents hold, all of it in
    the image. *)
Definition streamed (exts : list FileExtent.t) (out : bytes) : Prop :=
  Forall extent_in_image exts ∧ zlen out = size ∧ ∀ i, 0 <= i < size → get out i = stream_byte data bs exts i.

Lemma streamed_unique exts out out' : streamed exts out → streamed exts out' → out = out'.
Proof.
  intros (_ & Hz & Hb) (_ & Hz' & Hb'). apply list_eq. intros i. unfold zlen in *.
  destruct (decide (i < length out)%nat) as [Hi|Hi].
  - specialize (Hb (Z.of_nat i)). specialize (Hb' (Z.of_nat i)). unfold get in *.
    replace (0 <=? Z.of_nat i) with true in * by lia. rewrite Nat2Z.id in *. rewrite Hb, Hb' by lia. done.
  - rewrite !lookup_ge_None_2 by lia. done.
Qed.
End bytes.

(** ** Properties *)
Section properties.
Context {R : Type} `{LawfulReader R}.
Context (volume : ApfsVolume.t) (bs : Z) (r : R) (om : ObjectMap.t) (t : tree).

Lemma list_extents_eval stream : fs_tree volume bs r om t →
  eval (list_extents volume stream bs) r
  = Ok (sort_by_key FileExtent.logical_offset (extents_of (entries t) stream)).
Proof.
  intros Ht. unfold list_extents. rewrite eval_bind by solve_stable. rewrite (keyed_walk _ _ _ _ _ Ht).
  - rewrite bind_Ok, extents_visit_all. done.
  - intros s [k v] Hne. unfold extents_visit, key_oid, record_key in *. cbn [key value] in *.
    destruct (decode_jkey (le_u64 k 0)) as [oid ty]. rewrite other_record; [done|]. by intros [= -> ->].
Qed.

(** The extent list is complete and ordered: on a well-formed file-system tree,
    [list_extents] returns exactly the extents of the stream's records, sorted by logical
    offset, and extents of one offset stay in key order. *)
Theorem list_extents_sorted stream :
  fs_tree volume bs r om t →
  ∃ exts, eval (list_extents volume stream bs) r = Ok exts ∧
    exts ≡ₚ extents_of (entries t) stream ∧
    StronglySorted (key_le FileExtent.logical_offset) exts ∧
    ∀ o, filter (λ e, FileExtent.logical_offset e = o) exts
       = filter (λ e, FileExtent.logical_offset e = o) (extents_of (entries t) stream).
Proof.
  intros Ht. rewrite (list_extents_eval stream Ht). eexists. split; [done|].
  split; [apply sort_by_key_perm|]. split; [apply sort_by_key_sorted|]. apply sort_by_key_stable.
Qed.
End properties.

(** A stream is read exactly when it is under the cap and in the image, and then it is the
    stream's content. *)
Lemma read_stream_iff volume bs data om t stream size out :
  fs_tree volume bs (cursor data) om t → 0 < bs → 0 <= size → zlen data <= u64_max →
  eval (read_stream volume stream size bs) (cursor data) = Ok out ↔
  size <= MAX_FILE_BYTES ∧
  streamed data size bs (sort_by_key FileExtent.logical_offset (extents_of (entries t) stream)) out.
Proof.
  intros Ht Hbs Hs Hd. pose proof (sorted_extents_ok (entries t) stream) as Hok.
  unfold read_stream. destruct (_ <? _) eqn:Hcap; zbool; [split; [done|lia]|].
  rewrite eval_bind by solve_stable. rewrite (list_extents_eval _ _ _ _ _ _ Ht), bind_Ok, eval_foldM by solve_stable.
  revert Hok. generalize (sort_by_key FileExtent.logical_offset (extents_of (entries t) stream)). intros exts Hok.
  assert (Hsound : ∀ o, foldM (λ ext out, eval (read_extent size bs ext out) (cursor data)) exts (zeroed size) = Ok o →
    streamed data size bs exts o).
  { intros o E. split; [|by apply read_extents_bytes].
    eapply read_extents_in_image; [done|done|lia|by apply zlen_zeroed|exact E]. }
  split; [intros E; split; [done|by apply Hsound]|]. intros [_ Hst]. pose proof Hst as [Hin _].
  destruct (read_extents_total data size bs exts (zeroed size)) as [o E]; [done..|by apply zlen_zeroed|done|done|].
  rewrite E. f_equal. eapply streamed_unique; [by apply Hsound|done].
Qed.

(** C10 A stream is read byte for byte: over an image, on a well-formed file-system tree,
    a stream that [read_stream] returns has exactly the logical size, and each byte is
    the image byte the last extent over it points at, or zero in a hole; and it is
    returned whenever the size is under the cap and the extents that hold data for it
    lie inside the image. *)
Theorem read_stream_exact volume bs data om t stream size :
  fs_tree volume bs (cursor data) om t → 0 < bs → 0 <= size → zlen data <= u64_max →
  let exts := sort_by_key FileExtent.logical_offset (extents_of (entries t) stream) in
  (∀ out, eval (read_stream volume stream size bs) (cursor data) = Ok out →
    zlen out = size ∧ ∀ i, 0 <= i < size → get out i = stream_byte data bs exts i) ∧
  (size <= MAX_FILE_BYTES → Forall (extent_in_image data size bs) exts →
    ∃ out, eval (read_stream volume stream size bs) (cursor data) = Ok out).
Proof.
  intros Ht Hbs Hs Hd. cbv zeta. split.
  - intros out E%(read_stream_iff _ _ _ _ _ _ _ _ Ht Hbs Hs Hd). apply E.
  - intros Hmax Hin.
    destruct (read_extents_total data size bs _ (zeroed size) (sorted_extents_ok (entries t) stream) Hin Hbs)
      as [out E]; [by apply zlen_zeroed|done|done|]. exists out.
    unfold read_stream. replace (_ <? _) with false by lia. rewrite eval_bind by solve_stable.
    by rewrite (list_extents_eval _ _ _ _ _ _ Ht), bind_Ok, eval_foldM by solve_stable.
Qed.

(** ** A fragmented file for the witnesses: four bytes of block 3, a hole, and a tail in
    block 4 whose extent runs past the logical size. *)
Definition demo_extent (stream off len phys : Z) : Entry :=
  {| key := to_le_bytes 8 (jkey 8 stream) ++ to_le_bytes 8 off;
     value := to_le_bytes 8 len ++ to_le_bytes 8 phys ++ to_le_bytes 8 0 |}.

Definition demo_extent_records : list Entry :=
  [demo_extent 16 0 4 3; demo_extent 16 4 4 0; demo_extent 16 8 256 4].

Definition demo_extent_fs : bytes :=
  one_leaf_fs 256 demo_extent_records
    [(3, str "abcdefgh" ++ zeroed 248); (4, str "ijklmnop" ++ zeroed 248)].

Lemma demo_extent_fs_ok :
  fs_tree demo_volume 256 (cursor demo_extent_fs) demo_fs_om (Leaf 100 demo_extent_records).
Proof.
  apply one_leaf_fs_ok; [vm_compute; reflexivity|vm_compute; reflexivity|].
  change (StronglySorted Z.le [16; 16; 16]). repeat constructor; lia.
Qed.

Lemma list_extents_sorted_witness :
  ∃ exts, eval (list_extents demo_volume 16 256) (cursor demo_extent_fs) = Ok exts ∧ length exts = 3%nat.
Proof.
  destruct (list_extents_sorted demo_volume 256 (cursor demo_extent_fs) demo_fs_om _ 16 demo_extent_fs_ok)
    as (exts & Hx & Hp & _).
  exists exts. split; [exact Hx|]. apply Permutation_length in Hp. rewrite Hp. vm_compute. reflexivity.
Defined.

Lemma read_stream_exact_witness :
  ∃ out, eval (read_stream demo_volume 16 12 256) (cursor demo_extent_fs) = Ok out ∧
    zlen out = 12 ∧ get out 3 = Some x64 ∧ get out 5 = Some x00 ∧ get out 8 = Some x69.
Proof.
  destruct (read_stream_exact demo_volume 256 demo_extent_fs demo_fs_om _ 16 12 demo_extent_fs_ok)
    as [Hsound Htotal]; [done|done|vm_compute; discriminate|].
  destruct Htotal as [out Hout]; [done| |].
  - change (sort_by_key _ _) with [FileExtent.mk 0 4 3; FileExtent.mk 4 4 0; FileExtent.mk 8 256 4].
    rewrite !Forall_cons. split; [right; right; vm_compute; discriminate|]. split; [by left|].
    split; [right; right; vm_compute; discriminate|constructor].
  - exists out. split; [exact Hout|]. destruct (Hsound out Hout) as [Hz Hb]. split; [exact Hz|].
    rewrite !Hb by lia. split_and!; vm_compute; reflexivity.
Defined.
