(* ===== verification/Xattr.v ===== *)
(** * Extended attributes ([src/src/xattr.rs])

    [parse_xattr] decodes a record into an embedded value or a reference to a data
    stream; [get_xattr] finds an attribute by name, and [decmpfs_header],
    [resource_fork] and [symlink_target] are the three the reader interprets. *)
From S2P Require Import Prelude Bytes Text Reader Object Node Build Walk BTree Omap Volume FsRecord Inode Dir Extent.

Definition XATTR_DATA_STREAM : Z := 0x0001.
Definition XATTR_DATA_EMBEDDED : Z := 0x0002.
Definition XATTR_NAME_DECMPFS : bytes := str "com.apple.decmpfs".
Definition XATTR_NAME_RESOURCE_FORK : bytes := str "com.apple.ResourceFork".
Definition XATTR_NAME_SYMLINK : bytes := str "com.apple.fs.symlink".
Definition OFF_XATTR_KEY_NAME_LEN : Z := 8.
Definition OFF_XATTR_KEY_NAME : Z := 10.
Definition OFF_XATTR_VAL_FLAGS : Z := 0.
Definition OFF_XATTR_VAL_XDATA_LEN : Z := 2.
Definition OFF_XATTR_VAL_XDATA : Z := 4.
Definition OFF_XDSTREAM_OBJ_ID : Z := 0.
Definition OFF_XDSTREAM_SIZE : Z := 8.
Definition MAX_DECMPFS_XATTR_BYTES : Z := 2 ^ 20.

Inductive XattrValue :=
  | Embedded (data : bytes)
  | Stream (dstream_oid size : Z).

Module Xattr.
Record t := mk { name : bytes; flags : Z; value : XattrValue }.
End Xattr.

Definition parse_xattr (key value : bytes) : option Xattr.t :=
  let name_len := le_u16 key OFF_XATTR_KEY_NAME_LEN in
  if name_len =? 0 then None else
  name_bytes ← get_range key OFF_XATTR_KEY_NAME (OFF_XATTR_KEY_NAME + name_len);
  let name := decode_cstr name_bytes in
  let flags := le_u16 value OFF_XATTR_VAL_FLAGS in
  let xdata_len := le_u16 value OFF_XATTR_VAL_XDATA_LEN in
  let xdata := default [] (get_range value OFF_XATTR_VAL_XDATA (OFF_XATTR_VAL_XDATA + xdata_len)) in
  Some {|
    Xattr.name := name;
    Xattr.flags := flags;
    Xattr.value :=
      if negb (Z.land flags XATTR_DATA_STREAM =? 0)
      then Stream (le_u64 xdata OFF_XDSTREAM_OBJ_ID) (le_u64 xdata OFF_XDSTREAM_SIZE)
      else Embedded xdata;
  |}.

Definition xattrs_visit (inode_oid : Z) (out : list Xattr.t) (key value : bytes) : list Xattr.t :=
  let '(oid, ty) := decode_jkey (le_u64 key 0) in
  if bool_decide (ty ≠ Some Xattr) || negb (oid =? inode_oid) then out else
  match parse_xattr key value with
  | Some x => out ++ [x]
  | None => out
  end.

(** [into_iter().find(|x| x.name == name).map(|x| x.value)]. *)
Definition find_xattr (name : bytes) (xattrs : list Xattr.t) : option XattrValue :=
  Xattr.value <$> head (filter (λ x, Xattr.name x = name) xattrs).

Section xattr.
Context {R : Type} `{ReadSeek R}.
Context (volume : ApfsVolume.t).

Definition list_xattrs (inode_oid block_size : Z) : M R (list Xattr.t) :=
  for_each_fs_record_for_oid volume block_size inode_oid (xattrs_visit inode_oid) [].

Definition get_xattr (inode_oid : Z) (name : bytes) (block_size : Z) : M R (option XattrValue) :=
  xattrs ← list_xattrs inode_oid block_size;
  mret (find_xattr name xattrs).

Definition decmpfs_header (inode_oid block_size : Z) : M R (option bytes) :=
  v ← get_xattr inode_oid XATTR_NAME_DECMPFS block_size;
  match v with
  | Some (Embedded data) => mret (Some data)
  | Some (Stream dstream_oid size) =>
      if MAX_DECMPFS_XATTR_BYTES <? size
      then throw (FieldOutOfRange "com.apple.decmpfs j_xattr_dstream" "size" size MAX_DECMPFS_XATTR_BYTES) else
      data ← read_stream volume dstream_oid size block_size;
      mret (Some data)
  | None => mret None
  end.

Definition resource_fork (inode_oid block_size : Z) : M R (option bytes) :=
  v ← get_xattr inode_oid XATTR_NAME_RESOURCE_FORK block_size;
  match v with
  | Some (Embedded data) => mret (Some data)
  | Some (Stream dstream_oid size) =>
      data ← read_stream volume dstream_oid size block_size;
      mret (Some data)
  | None => mret None
  end.

Definition symlink_target (inode_oid block_size : Z) : M R (option bytes) :=
  v ← get_xattr inode_oid XATTR_NAME_SYMLINK block_size;
  mret (match v with
        | Some (Embedded data) => Some (decode_cstr data)
        | Some (Stream _ _) | None => None
        end).
End xattr.

(** ** Specification *)

(** The attributes of an inode among the records of a volume. *)
Definition xattrs_of (records : list Entry) (inode_oid : Z) : list Xattr.t :=
  omap (λ e, parse_xattr (key e) (value e)) (records_of records inode_oid Xattr).

(** [out] is the value of an attribute of an image: the bytes of an embedded value, or the
    content of a stream of at most [cap] bytes. *)
Definition stored (data : bytes) (bs : Z) (records : list Entry) (cap : Z) (v : XattrValue) (out : bytes) : Prop :=
  match v with
  | Embedded embedded => out = embedded
  | Stream oid size =>
      size <= cap ∧
      streamed data size bs (sort_by_key FileExtent.logical_offset (extents_of records oid)) out
  end.

(** An attribute record, as [j_xattr_key_t] and [j_xattr_val_t] lay it out. *)
Definition xattr_key (inode_oid : Z) (name : bytes) : bytes :=
  to_le_bytes 8 (jkey 4 inode_oid) ++ to_le_bytes 2 (zlen name + 1) ++ name ++ [x00].
Definition xattr_val (flags : Z) (xdata : bytes) : bytes :=
  to_le_bytes 2 flags ++ to_le_bytes 2 (zlen xdata) ++ xdata.

(** ** Lemmas *)

Lemma xattrs_visit_all ino es out :
  visit_all (xattrs_visit ino) es out = out ++ xattrs_of es ino.
Proof.
  revert out. induction es as [|e es IH]; intros out; [by rewrite app_nil_r|].
  rewrite visit_all_cons, IH. unfold xattrs_of, records_of. rewrite filter_cons.
  unfold xattrs_visit, record_key. destruct (decode_jkey (le_u64 (key e) 0)) as [oid ty].
  destruct (decide ((oid, ty) = (ino, Some FsRecord.Xattr))) as [[= -> ->]|Hne].
  - rewrite bool_decide_false by (intros Hn; by apply Hn). rewrite Z.eqb_refl. simpl.
    destruct (parse_xattr (key e) (value e)); simpl; [by rewrite <- app_assoc|done].
  - by rewrite (other_record _ _ _ _ Hne).
Qed.

Section xattr_lemmas.
Context {R : Type}.

Lemma Safe_get_xattr `{ReadSeek R} v i n bs : Safe (get_xattr (R := R) v i n bs).
Proof. unfold get_xattr, list_xattrs. solve_safe. Qed.
Lemma Stable_get_xattr `{LawfulReader R} v i n bs : Stable (get_xattr (R := R) v i n bs).
Proof. unfold get_xattr, list_xattrs. solve_stable. Qed.
#[local] Hint Resolve Safe_get_xattr : safe.
#[local] Hint Resolve Stable_get_xattr : stable.

Lemma Safe_decmpfs_header `{LawfulReader R} v i bs : bs ≠ 0 → Safe (decmpfs_header (R := R) v i bs).
Proof. intros. unfold decmpfs_header. solve_safe. Qed.
Lemma Stable_decmpfs_header `{LawfulReader R} v i bs : Stable (decmpfs_header (R := R) v i bs).
Proof. unfold decmpfs_header. solve_stable. Qed.
Lemma Safe_resource_fork `{LawfulReader R} v i bs : bs ≠ 0 → Safe (resource_fork (R := R) v i bs).
Proof. intros. unfold resource_fork. solve_safe. Qed.
Lemma Stable_resource_fork `{LawfulReader R} v i bs : Stable (resource_fork (R := R) v i bs).
Proof. unfold resource_fork. solve_stable. Qed.
Lemma Safe_symlink_target `{ReadSeek R} v i bs : Safe (symlink_target (R := R) v i bs).
Proof. unfold symlink_target. solve_safe. Qed.
Lemma Stable_symlink_target `{LawfulReader R} v i bs : Stable (symlink_target (R := R) v i bs).
Proof. unfold symlink_target. solve_stable. Qed.
End xattr_lemmas.
#[export] Hint Resolve Safe_get_xattr Safe_decmpfs_header Safe_resource_fork Safe_symlink_target : safe.
#[export] Hint Resolve Stable_get_xattr Stable_decmpfs_header Stable_resource_fork Stable_symlink_target : stable.

(** A value record is read back. *)
Lemma parse_xattr_encoded ino name flags xdata :
  0 <= ino < 2 ^ 60 → zlen name < 65535 → is_utf8 name = true → x00 ∉ name →
  in_u16 flags → zlen xdata < 65536 →
  parse_xattr (xattr_key ino name) (xattr_val flags xdata) =
    Some (Xattr.mk name flags
      (if negb (Z.land flags XATTR_DATA_STREAM =? 0) then Stream (le_u64 xdata 0) (le_u64 xdata 8) else Embedded xdata)).
Proof.
  intros Hi Hl Hu Hn Hf Hx. pose proof (zlen_nonneg name). pose proof (zlen_nonneg xdata).
  unfold parse_xattr, OFF_XATTR_KEY_NAME_LEN, OFF_XATTR_KEY_NAME, OFF_XATTR_VAL_FLAGS,
    OFF_XATTR_VAL_XDATA_LEN, OFF_XATTR_VAL_XDATA.
  assert (E1 : le_u16 (xattr_key ino name) 8 = zlen name + 1) by (unfold xattr_key; read_field; lia).
  assert (E2 : le_u16 (xattr_val flags xdata) 0 = flags)
    by (unfold xattr_val, le_u16; apply le_read_here; unfold in_u16 in *; lia).
  assert (E3 : le_u16 (xattr_val flags xdata) 2 = zlen xdata) by (unfold xattr_val; read_field; lia).
  rewrite E1, E2, E3. replace (zlen name + 1 =? 0) with false by lia.
  assert (E4 : get_range (xattr_key ino name) 10 (10 + (zlen name + 1)) = Some (name ++ [x00])).
  { unfold xattr_key. rewrite !get_range_skip by (autorewrite with bufs; lia). autorewrite with bufs.
    rewrite <- (app_nil_r (name ++ [x00])) at 1. apply get_range_here; autorewrite with bufs; unfold zlen; simpl; lia. }
  assert (E5 : get_range (xattr_val flags xdata) 4 (4 + zlen xdata) = Some xdata).
  { unfold xattr_val. rewrite !get_range_skip by (autorewrite with bufs; lia). autorewrite with bufs.
    rewrite <- (app_nil_r xdata) at 1. apply get_range_here; lia. }
  rewrite E4, E5. simpl. by rewrite decode_cstr_nul.
Qed.

(** What a record can hold: an embedded value is under 64 KiB, the fields of a stream are
    64-bit. *)
Definition value_ok (v : XattrValue) : Prop :=
  match v with
  | Embedded data => zlen data < 2 ^ 16
  | Stream oid size => in_u64 oid ∧ in_u64 size
  end.

Lemma parse_xattr_ok key val x : parse_xattr key val = Some x → value_ok (Xattr.value x).
Proof.
  unfold parse_xattr. destruct (_ =? 0); [done|]. destruct (get_range key _ _); [|done].
  cbn [mbind option_bind]. set (xdata := default [] _). intros [= <-].
  cbn [Xattr.value]. destruct (negb _); [split; apply le_u64_range|]. unfold value_ok, xdata.
  destruct (get_range val _ _) as [s|] eqn:Hg; [|done]. simpl.
  apply get_range_length in Hg. pose proof (le_u16_range val OFF_XATTR_VAL_XDATA_LEN).
  unfold OFF_XATTR_VAL_XDATA in *. unfold in_u16 in *. lia.
Qed.

Lemma find_xattr_ok name es ino v : find_xattr name (xattrs_of es ino) = Some v → value_ok v.
Proof.
  unfold find_xattr. destruct (head _) as [x|] eqn:Hh; [|done]. intros [= <-].
  assert (Hf : x ∈ filter (λ x, Xattr.name x = name) (xattrs_of es ino)).
  { destruct (filter _ _); [done|]. injection Hh as ->. left. }
  apply list_elem_of_filter in Hf as [_ Hf]. apply list_elem_of_omap in Hf as ([k val] & _ & Hp).
  by apply parse_xattr_ok in Hp.
Qed.

(** ** Properties *)

(** An attribute record says what was written: for every well-formed name without NUL
    and every flag word, the record of an embedded value decodes to that value, and the
    record of a stream value to the stream's id and size. *)
Theorem xattr_roundtrip ino name flags xdata dstream size :
  0 <= ino < 2 ^ 60 → zlen name < 65535 → is_utf8 name = true → x00 ∉ name →
  0 <= flags < 2 ^ 15 → zlen xdata < 65536 → in_u64 dstream → in_u64 size →
  parse_xattr (xattr_key ino name) (xattr_val (2 * flags) xdata) = Some (Xattr.mk name (2 * flags) (Embedded xdata)) ∧
  parse_xattr (xattr_key ino name) (xattr_val (2 * flags + 1) (to_le_bytes 8 dstream ++ to_le_bytes 8 size ++ zeroed 32))
    = Some (Xattr.mk name (2 * flags + 1) (Stream dstream size)).
Proof.
  intros Hi Hl Hu Hn Hf Hx Hd Hs. split.
  - rewrite parse_xattr_encoded by (try done; unfold in_u16; lia).
    replace (Z.land (2 * flags) XATTR_DATA_STREAM) with 0; [done|].
    symmetry. unfold XATTR_DATA_STREAM. change 1 with (Z.ones 1). rewrite Z.land_ones by done.
    rewrite Z.mul_comm. by apply Z.mod_mul.
  - rewrite parse_xattr_encoded; [|done..|unfold in_u16; lia|done].
    replace (Z.land (2 * flags + 1) XATTR_DATA_STREAM) with 1.
    + change (negb (1 =? 0)) with true. cbv iota. do 3 f_equal; unfold le_u64; [by apply le_read_here|].
      rewrite le_read_skip by done. by apply le_read_here.
    + symmetry. unfold XATTR_DATA_STREAM. change 1 with (Z.ones 1) at 2. rewrite Z.land_ones by done.
      rewrite Z.add_comm, (Z.mul_comm 2). by rewrite Z.mod_add.
Qed.

Section properties.
Context {R : Type} `{LawfulReader R}.
Context (volume : ApfsVolume.t) (bs : Z) (r : R) (om : ObjectMap.t) (t : tree).

Lemma list_xattrs_eval ino : fs_tree volume bs r om t →
  eval (list_xattrs volume ino bs) r = Ok (xattrs_of (entries t) ino).
Proof.
  intros Ht. unfold list_xattrs. rewrite (keyed_walk _ _ _ _ _ Ht).
  - by rewrite xattrs_visit_all.
  - intros s [k v] Hne. unfold xattrs_visit, key_oid, record_key in *. cbn [key value] in *.
    destruct (decode_jkey (le_u64 k 0)) as [oid ty]. rewrite other_record; [done|]. by intros [= -> ->].
Qed.

Lemma get_xattr_eval ino name : fs_tree volume bs r om t →
  eval (get_xattr volume ino name bs) r = Ok (find_xattr name (xattrs_of (entries t) ino)).
Proof.
  intros Ht. unfold get_xattr. rewrite eval_bind by (unfold list_xattrs; solve_stable).
  by rewrite list_xattrs_eval.
Qed.

(** C30 Attributes refine the records of the volume: on a well-formed file-system tree,
    [list_xattrs] returns the decodable attribute records of the inode in key order,
    [get_xattr] the value of the first one of the name, and a symbolic link's target is
    the text of its embedded [com.apple.fs.symlink] value, and nothing for a stream. *)
Theorem xattrs_refine ino :
  fs_tree volume bs r om t →
  eval (list_xattrs volume ino bs) r = Ok (xattrs_of (entries t) ino) ∧
  (∀ name, eval (get_xattr volume ino name bs) r = Ok (find_xattr name (xattrs_of (entries t) ino))) ∧
  (∀ target, eval (symlink_target volume ino bs) r = Ok (Some target) ↔
    ∃ data, find_xattr XATTR_NAME_SYMLINK (xattrs_of (entries t) ino) = Some (Embedded data) ∧
      target = decode_cstr data).
Proof.
  intros Ht. split_and!; [by apply list_xattrs_eval|intros; by apply get_xattr_eval|].
  intros target. unfold symlink_target. rewrite eval_bind by solve_stable.
  rewrite get_xattr_eval, bind_Ok, eval_ret by done.
  destruct (find_xattr _ _) as [[data|]|]; naive_solver.
Qed.
End properties.

(** The two attributes of a compressed file, over an image: the value of the attribute,
    embedded or in a stream, and nothing else. *)
Section values.
Context (volume : ApfsVolume.t) (bs : Z) (data : bytes) (om : ObjectMap.t) (t : tree).
Hypothesis Ht : fs_tree volume bs (cursor data) om t.
Hypothesis Hbs : 0 < bs.
Hypothesis Hd : zlen data <= u64_max.

Lemma decmpfs_header_iff ino v header :
  find_xattr XATTR_NAME_DECMPFS (xattrs_of (entries t) ino) = Some v →
  eval (decmpfs_header volume ino bs) (cursor data) = Ok header ↔
  ∃ out, header = Some out ∧ stored data bs (entries t) MAX_DECMPFS_XATTR_BYTES v out.
Proof.
  intros Hv. pose proof (find_xattr_ok _ _ _ _ Hv) as Hok.
  unfold decmpfs_header. rewrite eval_bind by solve_stable. rewrite (get_xattr_eval _ _ _ _ _ _ _ Ht), Hv, bind_Ok.
  destruct v as [d|oid size]; cbn [stored]; [rewrite eval_ret; naive_solver|].
  destruct (_ <? _) eqn:Hcap; zbool; [split; [done|intros (? & _ & ? & _); lia]|]. rewrite eval_bind by solve_stable.
  rewrite outcome_bind_Ok. setoid_rewrite (read_stream_iff _ _ _ _ _ _ _ _ Ht Hbs (proj1 (proj2 Hok)) Hd).
  unfold MAX_DECMPFS_XATTR_BYTES, MAX_FILE_BYTES in *. setoid_rewrite eval_ret.
  split; [intros (o & [_ Ho] & [= <-]); by exists o|]. intros (o & -> & ? & Ho). exists o. split_and!; [lia|exact Ho|done].
Qed.

Lemma resource_fork_iff ino v fork :
  find_xattr XATTR_NAME_RESOURCE_FORK (xattrs_of (entries t) ino) = Some v →
  eval (resource_fork volume ino bs) (cursor data) = Ok fork ↔
  ∃ out, fork = Some out ∧ stored data bs (entries t) MAX_FILE_BYTES v out.
Proof.
  intros Hv. pose proof (find_xattr_ok _ _ _ _ Hv) as Hok.
  unfold resource_fork. rewrite eval_bind by solve_stable. rewrite (get_xattr_eval _ _ _ _ _ _ _ Ht), Hv, bind_Ok.
  destruct v as [d|oid size]; cbn [stored]; [rewrite eval_ret; naive_solver|]. rewrite eval_bind by solve_stable.
  rewrite outcome_bind_Ok. setoid_rewrite (read_stream_iff _ _ _ _ _ _ _ _ Ht Hbs (proj1 (proj2 Hok)) Hd).
  setoid_rewrite eval_ret. naive_solver.
Qed.
End values.

(** ** Witnesses *)
Definition demo_link_records : list Entry :=
  [ {| key := xattr_key 16 XATTR_NAME_SYMLINK; value := xattr_val 6 (str "Dir1/Beth.txt" ++ [x00]) |} ].

Definition demo_link_fs : bytes := one_leaf_fs 256 demo_link_records [].

Lemma xattr_roundtrip_witness :
  parse_xattr (xattr_key 16 (str "user.a")) (xattr_val (2 * 1) (str "v"))
    = Some (Xattr.mk (str "user.a") (2 * 1) (Embedded (str "v"))) ∧
  parse_xattr (xattr_key 16 (str "user.a")) (xattr_val (2 * 0 + 1) (to_le_bytes 8 40 ++ to_le_bytes 8 5 ++ zeroed 32))
    = Some (Xattr.mk (str "user.a") (2 * 0 + 1) (Stream 40 5)).
Proof.
  assert (Hn : x00 ∉ str "user.a") by (apply (bool_decide_unpack _); vm_compute; exact I).
  split.
  - by apply (xattr_roundtrip 16 (str "user.a") 1 (str "v") 40 5).
  - by apply (xattr_roundtrip 16 (str "user.a") 0 (str "v") 40 5).
Defined.

Lemma xattrs_refine_witness :
  eval (symlink_target demo_volume 16 256) (cursor demo_link_fs) = Ok (Some (str "Dir1/Beth.txt")).
Proof.
  assert (Ht : fs_tree demo_volume 256 (cursor demo_link_fs) demo_fs_om (Leaf 100 demo_link_records)).
  { apply one_leaf_fs_ok; [vm_compute; reflexivity|vm_compute; reflexivity|].
    change (StronglySorted Z.le [16]). repeat constructor. }
  apply (xattrs_refine demo_volume 256 (cursor demo_link_fs) demo_fs_om _ 16 Ht).
  exists (str "Dir1/Beth.txt" ++ [x00]). split; vm_compute; reflexivity.
Defined.
