(* ===== verification/Decmpfs.v ===== *)
(** * Compression types ([src/src/decmpfs.rs])

    The header constants of [com.apple.decmpfs] and the map from a raw compression type
    to an algorithm and a place. *)
From S2P Require Import Prelude.

Definition MAGIC : Z := 0x636d7066.
Definition HEADER_LEN : Z := 16.
Definition COMPRESSION_TYPE_OFFSET : Z := 4.
Definition UNCOMPRESSED_SIZE_OFFSET : Z := 8.
Definition CHUNK_SIZE : Z := 65536.

Inductive Storage := Inline | ResourceFork.
Inductive Algorithm := Uncompressed | Zlib | Lzvn | Lzfse | LzBitmap.

#[export] Instance Storage_eq_dec : EqDecision Storage.
Proof. solve_decision. Defined.
#[export] Instance Algorithm_eq_dec : EqDecision Algorithm.
Proof. solve_decision. Defined.

Record Compression := { algorithm : Algorithm; storage : Storage }.

Definition classify (compression_type : Z) : option Compression :=
  match compression_type with
  | 1 | 9 => Some {| algorithm := Uncompressed; storage := Inline |}
  | 10 => Some {| algorithm := Uncompressed; storage := ResourceFork |}
  | 3 => Some {| algorithm := Zlib; storage := Inline |}
  | 4 => Some {| algorithm := Zlib; storage := ResourceFork |}
  | 7 => Some {| algorithm := Lzvn; storage := Inline |}
  | 8 => Some {| algorithm := Lzvn; storage := ResourceFork |}
  | 11 => Some {| algorithm := Lzfse; storage := Inline |}
  | 12 => Some {| algorithm := Lzfse; storage := ResourceFork |}
  | 13 => Some {| algorithm := LzBitmap; storage := Inline |}
  | 14 => Some {| algorithm := LzBitmap; storage := ResourceFork |}
  | _ => None
  end.

(** ** Lemmas *)

(** Odd types are inline, even ones in the resource fork. *)
Lemma classify_parity ty k : classify ty = Some k →
  (storage k = Inline ↔ Z.odd ty = true) ∧ (storage k = ResourceFork ↔ Z.even ty = true).
Proof. unfold classify. repeat case_match; try discriminate; intros [= <-]; simpl; repeat split; done. Qed.

Lemma classify_range ty : is_Some (classify ty) ↔ ty ∈ [1; 3; 4; 7; 8; 9; 10; 11; 12; 13; 14].
Proof.
  split.
  - unfold classify. intros [k E]. revert E. repeat case_match; try discriminate; intros _; set_solver.
  - intros Hin. repeat (apply elem_of_cons in Hin as [->|Hin]; [by eexists|]). by apply not_elem_of_nil in Hin.
Qed.
