(* ===== verification/Compression.v ===== *)
(** * Transparent decompression ([src/src/compression.rs])

    [decompress_decmpfs] decodes a compressed file from its attribute header and its
    resource fork.  The three codecs are third-party crates, so they are parameters:
    partial functions on bytes ([flate2], [lzvn-core], [lzfse_rust]).  The theorems hold
    for every codec, but the round trips, which assume that a decoder inverts the encoder
    that wrote the file. *)
From S2P Require Import Prelude Bytes Reader Decmpfs.

(** ** The checked readers *)

Definition read_checked (data : bytes) (offset n : Z) : outcome bytes :=
  e ← ok_or (Decmpfs "decmpfs read offset overflow") (checked_add offset n);
  ok_or (Decmpfs "decmpfs read out of bounds") (get_range data offset e).

Definition try_le_u32 (data : bytes) (offset : Z) : outcome Z :=
  outcome_map from_le_bytes (read_checked data offset 4).
Definition try_be_u32 (data : bytes) (offset : Z) : outcome Z :=
  outcome_map from_be_bytes (read_checked data offset 4).
Definition try_le_u64 (data : bytes) (offset : Z) : outcome Z :=
  outcome_map from_le_bytes (read_checked data offset 8).

Definition uncompressed_size (header : bytes) : outcome Z :=
  if zlen header <? HEADER_LEN
  then Err (Decmpfs "decmpfs xattr shorter than 16-byte header") else
  magic ← try_le_u32 header 0;
  if negb (magic =? MAGIC) then Err (Decmpfs "decmpfs bad magic (expected 'cmpf')") else
  try_le_u64 header UNCOMPRESSED_SIZE_OFFSET.

Definition unreachable_algorithm : outcome bytes := Err (Decmpfs "decmpfs unsupported algorithm").

Section codecs.
Context (zlib : bytes → option bytes) (lzvn : bytes → Z → option bytes) (lzfse : bytes → option bytes).

Definition inflate (data : bytes) : outcome bytes := ok_or (Decmpfs "decmpfs zlib codec error") (zlib data).
Definition lzvn_decode (chunk : bytes) (uncompressed_len : Z) : outcome bytes :=
  ok_or (Decmpfs "decmpfs lzvn codec error") (lzvn chunk uncompressed_len).
Definition lzfse_decode (stream : bytes) : outcome bytes := ok_or (Decmpfs "decmpfs lzfse codec error") (lzfse stream).

(** [payload.get(1..).unwrap_or(&[]).to_vec()]. *)
Definition after_marker (payload : bytes) : bytes := default [] (get_from payload 1).

Definition decode_inline (alg : Algorithm) (payload : bytes) (size compression_type : Z) : outcome bytes :=
  match alg with
  | Uncompressed => if compression_type =? 9 then Ok (after_marker payload) else Ok payload
  | Zlib => if decide (head payload = Some xff) then Ok (after_marker payload) else inflate payload
  | Lzvn => if decide (head payload = Some x06) then Ok (after_marker payload) else lzvn_decode payload size
  | Lzfse => lzfse_decode payload
  | LzBitmap => unreachable_algorithm
  end.

(** [for i in 0..num_blocks], [n] turns left.  [entry + 4] is the one unchecked sum. *)
Fixpoint zlib_blocks (fork : bytes) (table : Z) (n : nat) (i : Z) (out : bytes) : outcome bytes :=
  match n with
  | O => Ok out
  | S n' =>
      entry ← ok_or (Decmpfs "decmpfs zlib fork entry offset overflow")
        (b ← checked_add table 4; p ← checked_mul i 8; checked_add b p);
      offset ← try_le_u32 fork entry;
      entry4 ← add_u64 entry 4;
      size ← try_le_u32 fork entry4;
      start ← ok_or (Decmpfs "decmpfs zlib fork block start overflow") (checked_add table offset);
      e ← ok_or (Decmpfs "decmpfs zlib fork block end overflow") (checked_add start size);
      block ← ok_or (Decmpfs "decmpfs zlib fork block out of bounds") (get_range fork start e);
      decoded ← inflate block;
      zlib_blocks fork table n' (i + 1) (out ++ decoded)
  end.

Definition decode_zlib_resource_fork (fork : bytes) (size : Z) : outcome bytes :=
  header_size ← try_be_u32 fork 0;
  table ← ok_or (Decmpfs "decmpfs zlib fork table offset overflow") (checked_add header_size 4);
  num_blocks ← try_le_u32 fork table;
  zlib_blocks fork table (Z.to_nat num_blocks) 0 [].

(** The [match] on the algorithm inside the chunk loop. *)
Definition decode_chunk (alg : Algorithm) (chunk : bytes) (chunk_uncompressed : Z) : outcome bytes :=
  match alg with
  | Lzvn => lzvn_decode chunk chunk_uncompressed
  | Lzfse => lzfse_decode chunk
  | Uncompressed => Ok chunk
  | Zlib | LzBitmap => unreachable_algorithm
  end.

(** [for i in 0..n_slots], [n] turns left, with [out] and [src] so far.  [4 + i * 4] is
    unchecked. *)
Fixpoint chunks_loop (alg : Algorithm) (fork : bytes) (size : Z) (n : nat) (i src : Z) (out : bytes) : outcome bytes :=
  match n with
  | O => Ok out
  | S n' =>
      if size <=? zlen out then Ok out else
      slot ← add_u64 4 (i * 4);
      e ← try_le_u32 fork slot;
      if e <? src then Err (Decmpfs "decmpfs chunked fork end-offset goes backward") else
      chunk ← ok_or (Decmpfs "decmpfs chunked fork chunk out of bounds") (get_range fork src e);
      left ← ok_or (Decmpfs "decmpfs chunked fork size underflow") (checked_sub size (zlen out));
      let chunk_uncompressed := Z.min left CHUNK_SIZE in
      decoded ← decode_chunk alg chunk chunk_uncompressed;
      chunks_loop alg fork size n' (i + 1) e (out ++ decoded)
  end.

Definition decode_chunked_resource_fork (alg : Algorithm) (fork : bytes) (size : Z) : outcome bytes :=
  header_size ← try_le_u32 fork 0;
  n_slots ← ok_or (Decmpfs "decmpfs chunked fork header too small") (checked_sub (header_size / 4) 1);
  chunks_loop alg fork size (Z.to_nat n_slots) 0 header_size [].

Definition decode_resource_fork (alg : Algorithm) (fork : bytes) (size : Z) : outcome bytes :=
  match alg with
  | Zlib => decode_zlib_resource_fork fork size
  | Lzvn | Lzfse | Uncompressed => decode_chunked_resource_fork alg fork size
  | LzBitmap => unreachable_algorithm
  end.

Definition decompress_decmpfs (header : bytes) (fork : option bytes) : outcome bytes :=
  size ← uncompressed_size header;
  compression_type ← try_le_u32 header COMPRESSION_TYPE_OFFSET;
  match classify compression_type with
  | None =>
      Err (if compression_type =? 5
           then Decmpfs "decmpfs type 5 (de-dup generation store, no payload)"
           else Decmpfs "decmpfs unknown compression_type")
  | Some kind =>
      if decide (algorithm kind = LzBitmap) then Err (Decmpfs "decmpfs LZBitmap (no public spec)") else
      out ← match storage kind with
            | Inline =>
                payload ← ok_or (Decmpfs "decmpfs inline payload truncated") (get_from header HEADER_LEN);
                decode_inline (algorithm kind) payload size compression_type
            | ResourceFork =>
                fork ← ok_or (Decmpfs "decmpfs resource-fork type but no fork present") fork;
                decode_resource_fork (algorithm kind) fork size
            end;
      if negb (zlen out =? size) then Err (Decmpfs "decmpfs decoded length != uncompressed_size") else
      Ok out
  end.
End codecs.

(** ** Writing compressed files *)

Definition decmpfs_header_bytes (ty size : Z) : bytes :=
  to_le_bytes 4 MAGIC ++ to_le_bytes 4 ty ++ to_le_bytes 8 size.

(** The end offsets of the chunks of a fork, the first one starting at [src]. *)
Fixpoint chunk_ends (src : Z) (chunks : list bytes) : bytes :=
  match chunks with
  | [] => []
  | c :: cs => to_le_bytes 4 (src + zlen c) ++ chunk_ends (src + zlen c) cs
  end.

(** [HFSPlusCmpfLZVNRsrcHead] and the chunks. *)
Definition chunked_fork (chunks : list bytes) : bytes :=
  let header_size := 4 * (zlen chunks + 1) in
  to_le_bytes 4 header_size ++ chunk_ends header_size chunks ++ concat chunks.

(** The block table of a zlib fork, offsets relative to the table. *)
Fixpoint zlib_table (off : Z) (blocks : list bytes) : bytes :=
  match blocks with
  | [] => []
  | b :: bs => to_le_bytes 4 off ++ to_le_bytes 4 (zlen b) ++ zlib_table (off + zlen b) bs
  end.

(** [HFSPlusCmpfRsrcHead], the total, the table and the blocks. *)
Definition zlib_fork (blocks : list bytes) : bytes :=
  rev (to_le_bytes 4 256) ++ zeroed 252 ++ zeroed 4 ++
  to_le_bytes 4 (zlen blocks) ++ zlib_table (4 + 8 * zlen blocks) blocks ++ concat blocks.

(** The pieces of a file: each full but the last. *)
Fixpoint pieces (n : nat) (content : bytes) : list bytes :=
  match n with
  | O => []
  | S n' =>
      if decide (content = []) then []
      else take (Z.to_nat CHUNK_SIZE) content :: pieces n' (drop (Z.to_nat CHUNK_SIZE) content)
  end.

(** ** Lemmas *)

Lemma read_checked_no_panic data off n : read_checked data off n ≠ Panic.
Proof. unfold read_checked. destruct (checked_add off n); simpl; [by destruct (get_range _ _ _)|done]. Qed.

Lemma outcome_map_no_panic {A B} (f : A → B) o : o ≠ Panic → outcome_map f o ≠ Panic.
Proof. by destruct o. Qed.

Lemma try_le_u32_no_panic data off : try_le_u32 data off ≠ Panic.
Proof. apply outcome_map_no_panic, read_checked_no_panic. Qed.
Lemma try_le_u32_short data off : 0 <= off → off + 4 <= u64_max → zlen data < off + 4 →
  try_le_u32 data off = Err (Decmpfs "decmpfs read out of bounds").
Proof.
  intros. unfold try_le_u32, read_checked, checked_add. replace (_ <=? _) with true by lia. simpl.
  destruct (get_range _ _ _) eqn:E; [|done]. apply get_range_Some in E as [? _]. lia.
Qed.
Lemma try_be_u32_no_panic data off : try_be_u32 data off ≠ Panic.
Proof. apply outcome_map_no_panic, read_checked_no_panic. Qed.
Lemma try_le_u64_no_panic data off : try_le_u64 data off ≠ Panic.
Proof. apply outcome_map_no_panic, read_checked_no_panic. Qed.
#[export] Hint Resolve read_checked_no_panic try_le_u32_no_panic try_be_u32_no_panic try_le_u64_no_panic : safe.

Lemma uncompressed_size_no_panic header : uncompressed_size header ≠ Panic.
Proof.
  unfold uncompressed_size. destruct (_ <? _); [done|].
  apply bind_no_panic; [auto with safe|]. intros m _. destruct (negb _); auto with safe.
Qed.

Lemma read_checked_Ok data off n s : read_checked data off n = Ok s ↔
  get_range data off (off + n) = Some s ∧ off + n <= u64_max.
Proof.
  unfold read_checked. destruct (checked_add off n) as [e|] eqn:E; simpl.
  - apply checked_add_Some in E as [-> ?]. rewrite ok_or_Ok. naive_solver.
  - split; [done|]. intros [_ ?]. exfalso. unfold checked_add in E. replace (_ <=? _) with true in E by lia. done.
Qed.

Lemma try_le_u32_Ok data off v : try_le_u32 data off = Ok v → in_u32 v ∧ off + 4 <= zlen data ∧ 0 <= off.
Proof.
  unfold try_le_u32, outcome_map. intros (s & Hs & [= <-])%outcome_bind_Ok.
  apply read_checked_Ok in Hs as [Hs _]. pose proof (get_range_length _ _ _ _ Hs) as Hl.
  apply get_range_Some in Hs as [? _]. pose proof (from_le_bytes_range s) as Hr.
  replace (zlen s) with 4 in Hr by lia. split; [done|lia].
Qed.

(** A header's size field, when the header is accepted. *)
Lemma uncompressed_size_Ok header size : uncompressed_size header = Ok size →
  16 <= zlen header ∧ le_u32 header 0 = MAGIC ∧ size = le_u64 header 8 ∧ in_u64 size.
Proof.
  unfold uncompressed_size, HEADER_LEN. destruct (_ <? _) eqn:El; [done|]. zbool.
  intros (m & Hm & E)%outcome_bind_Ok. destruct (negb _) eqn:Em; [done|]. zbool.
  unfold try_le_u32, try_le_u64, outcome_map in *.
  apply outcome_bind_Ok in Hm as (s & Hs & [= <-]). apply outcome_bind_Ok in E as (s' & Hs' & [= <-]).
  unfold UNCOMPRESSED_SIZE_OFFSET in *. apply read_checked_Ok in Hs as [Hs _], Hs' as [Hs' _].
  assert (H1 : le_u32 header 0 = from_le_bytes s) by (unfold le_u32, le_read; change (Z.of_nat 4) with 4; by rewrite Hs).
  assert (H2 : le_u64 header 8 = from_le_bytes s') by (unfold le_u64, le_read; change (Z.of_nat 8) with 8; by rewrite Hs').
  split; [done|]. split; [congruence|]. split; [done|]. rewrite <- H2. apply le_u64_range.
Qed.

Section codec_lemmas.
Context (zlib : bytes → option bytes) (lzvn : bytes → Z → option bytes) (lzfse : bytes → option bytes).
Notation decompress := (decompress_decmpfs zlib lzvn lzfse).

Lemma zlib_blocks_no_panic fork table n i out : zlen fork <= u64_max - 4 →
  zlib_blocks zlib fork table n i out ≠ Panic.
Proof.
  intros Hf. revert i out. induction n as [|n IH]; intros i out; [done|]. cbn [zlib_blocks].
  apply bind_no_panic; [auto with safe|]. intros e _.
  apply bind_no_panic; [auto with safe|]. intros off Hoff%try_le_u32_Ok.
  apply bind_no_panic; [unfold add_u64; by replace (_ <=? _) with true by lia|]. intros e4 _.
  do 4 (apply bind_no_panic; [auto with safe|]; intros ? _).
  apply bind_no_panic; [unfold inflate; auto with safe|]. intros d _. apply IH.
Qed.

Lemma chunks_loop_no_panic alg fork size n i src out : 4 * (i + Z.of_nat n) <= u64_max →
  chunks_loop lzvn lzfse alg fork size n i src out ≠ Panic.
Proof.
  revert i src out. induction n as [|n IH]; intros i src out Hn; [done|]. cbn [chunks_loop].
  destruct (_ <=? zlen out); [done|].
  apply bind_no_panic; [unfold add_u64; by replace (_ <=? _) with true by lia|]. intros slot _.
  apply bind_no_panic; [auto with safe|]. intros e _. destruct (_ <? _); [done|].
  do 2 (apply bind_no_panic; [auto with safe|]; intros ? _).
  apply bind_no_panic; [destruct alg; cbn [decode_chunk]; unfold lzvn_decode, lzfse_decode; auto with safe; done|].
  intros d _. apply IH. lia.
Qed.

Lemma decompress_no_panic header fork : (∀ f, fork = Some f → zlen f <= u64_max - 4) →
  decompress header fork ≠ Panic.
Proof.
  intros Hf. unfold decompress_decmpfs.
  apply bind_no_panic; [apply uncompressed_size_no_panic|]. intros size _.
  apply bind_no_panic; [auto with safe|]. intros ty _.
  destruct (classify ty) as [[alg st]|]; [|by destruct (_ =? _)]. case_decide; [done|].
  apply bind_no_panic; [|intros out _; by destruct (negb _)]. destruct st; simpl.
  - apply bind_no_panic; [auto with safe|]. intros p _.
    unfold decode_inline, inflate, lzvn_decode, lzfse_decode.
    destruct alg; repeat case_decide; try destruct (_ =? _); auto with safe; done.
  - apply bind_no_panic; [auto with safe|]. intros f Hfk. apply ok_or_Ok in Hfk. specialize (Hf f Hfk).
    assert (Hc : ∀ a, decode_chunked_resource_fork lzvn lzfse a f size ≠ Panic).
    { intros a. apply bind_no_panic; [auto with safe|]. intros hs ([? ?] & _)%try_le_u32_Ok.
      apply bind_no_panic; [auto with safe|]. intros n Hn. apply ok_or_Ok, checked_sub_Some in Hn as [-> ?].
      apply chunks_loop_no_panic. pose proof (Z.div_le_upper_bound hs 4 (2 ^ 30)). unfold u64_max. lia. }
    destruct alg; simpl; try done.
    apply bind_no_panic; [auto with safe|]. intros hs _.
    apply bind_no_panic; [auto with safe|]. intros tb _.
    apply bind_no_panic; [auto with safe|]. intros nb _. by apply zlib_blocks_no_panic.
Qed.

Lemma decompress_length header fork out : decompress header fork = Ok out →
  uncompressed_size header = Ok (zlen out).
Proof.
  unfold decompress_decmpfs. intros (size & Hs & E)%outcome_bind_Ok.
  apply outcome_bind_Ok in E as (ty & _ & E). destruct (classify ty); [|by destruct (_ =? _)].
  case_decide; [done|]. apply outcome_bind_Ok in E as (o & _ & E).
  destruct (negb _) eqn:El; [done|]. injection E as ->. zbool. by subst.
Qed.
End codec_lemmas.

(** ** The round trips *)

Lemma try_le_u32_at pre v post off : off = zlen pre → in_u32 v → off + 4 <= u64_max →
  try_le_u32 (pre ++ to_le_bytes 4 v ++ post) off = Ok v.
Proof.
  intros -> Hv Ho. unfold try_le_u32, outcome_map.
  rewrite (proj2 (read_checked_Ok _ _ _ (to_le_bytes 4 v))).
  - rewrite bind_Ok. change (mret ?x) with (Ok x). f_equal. rewrite from_to_le_bytes. by apply Z.mod_small.
  - split; [|done]. by apply get_range_middle.
Qed.

Lemma try_le_u32_here v post : in_u32 v → try_le_u32 (to_le_bytes 4 v ++ post) 0 = Ok v.
Proof. intros. by apply (try_le_u32_at []). Qed.

Lemma uncompressed_size_encoded ty size post :
  in_u64 size → uncompressed_size (decmpfs_header_bytes ty size ++ post) = Ok size.
Proof.
  intros Hs. unfold uncompressed_size, decmpfs_header_bytes, HEADER_LEN.
  assert (Hl : zlen ((to_le_bytes 4 MAGIC ++ to_le_bytes 4 ty ++ to_le_bytes 8 size) ++ post) <? 16 = false).
  { autorewrite with bufs. pose proof (zlen_nonneg post). lia. }
  rewrite Hl, <- !app_assoc. rewrite try_le_u32_here by done. rewrite bind_Ok, Z.eqb_refl. cbn [negb].
  unfold try_le_u64, outcome_map. rewrite (proj2 (read_checked_Ok _ _ _ (to_le_bytes 8 size))).
  - rewrite bind_Ok. change (mret ?x) with (Ok x). f_equal. rewrite from_to_le_bytes. by apply Z.mod_small.
  - split; [|done]. rewrite app_assoc. by apply get_range_middle.
Qed.

Lemma compression_type_encoded ty size post :
  in_u32 ty → try_le_u32 (decmpfs_header_bytes ty size ++ post) COMPRESSION_TYPE_OFFSET = Ok ty.
Proof.
  intros Ht. unfold decmpfs_header_bytes. rewrite <- !app_assoc. by apply (try_le_u32_at (to_le_bytes 4 MAGIC)).
Qed.

Lemma payload_encoded ty size payload :
  get_from (decmpfs_header_bytes ty size ++ payload) HEADER_LEN = Some payload.
Proof.
  unfold get_from, HEADER_LEN. rewrite zlen_app.
  assert (Hl : zlen (decmpfs_header_bytes ty size) = 16) by done.
  rewrite get_range_skip by lia. rewrite Hl. replace (16 + zlen payload - 16) with (zlen payload) by lia.
  apply get_range_all.
Qed.

Lemma chunk_ends_app src a b :
  chunk_ends src (a ++ b) = chunk_ends src a ++ chunk_ends (src + zlen (concat a)) b.
Proof.
  revert src. induction a as [|c a IH]; intros src; cbn [app chunk_ends concat].
  - unfold zlen. simpl. by rewrite Z.add_0_r.
  - rewrite IH, zlen_app, <- app_assoc. do 3 f_equal. lia.
Qed.

Lemma zlen_chunk_ends src cs : zlen (chunk_ends src cs) = 4 * zlen cs.
Proof.
  revert src. induction cs as [|c cs IH]; intros src; [done|]. cbn [chunk_ends].
  rewrite zlen_app, IH, zlen_cons. autorewrite with bufs. lia.
Qed.

Lemma zlib_table_app off a b :
  zlib_table off (a ++ b) = zlib_table off a ++ zlib_table (off + zlen (concat a)) b.
Proof.
  revert off. induction a as [|c a IH]; intros off; cbn [app zlib_table concat].
  - unfold zlen. simpl. by rewrite Z.add_0_r.
  - rewrite IH, zlen_app, <- !app_assoc. do 4 f_equal. lia.
Qed.

Lemma zlen_zlib_table off bs : zlen (zlib_table off bs) = 8 * zlen bs.
Proof.
  revert off. induction bs as [|b bs IH]; intros off; [done|]. cbn [zlib_table].
  rewrite !zlen_app, IH, zlen_cons. autorewrite with bufs. lia.
Qed.

(** A list of pieces the writer makes: none empty, all full but the last. *)
Inductive pieced : list bytes → Prop :=
  | pieced_nil : pieced []
  | pieced_cons p ps :
      0 < zlen p <= CHUNK_SIZE → (ps = [] ∨ zlen p = CHUNK_SIZE) → pieced ps → pieced (p :: ps).

Lemma pieced_first p ps : pieced (p :: ps) → Z.min (zlen (concat (p :: ps))) CHUNK_SIZE = zlen p.
Proof.
  inversion 1 as [|?? Hp [->|Hf] _]; subst; cbn [concat]; [rewrite app_nil_r; lia|].
  rewrite zlen_app. pose proof (zlen_nonneg (concat ps)). lia.
Qed.

Lemma concat_pieces n content : (length content ≤ n)%nat → concat (pieces n content) = content.
Proof.
  revert content. induction n as [|n IH]; intros content Hn; cbn [pieces].
  - by destruct content; [|simpl in Hn; lia].
  - case_decide as Hc; [by subst|]. cbn [concat]. rewrite IH; [apply take_drop|].
    rewrite length_drop. assert (0 < length content)%nat by (by destruct content; [|cbn [length]; lia]).
    unfold CHUNK_SIZE. lia.
Qed.

Lemma pieces_pieced n content : (length content ≤ n)%nat → pieced (pieces n content).
Proof.
  revert content. induction n as [|n IH]; intros content Hn; cbn [pieces]; [constructor|].
  case_decide as Hc; [constructor|]. assert (0 < length content)%nat by (by destruct content; [|cbn [length]; lia]).
  constructor.
  - autorewrite with bufs. unfold CHUNK_SIZE, zlen. lia.
  - destruct (decide (length content <= Z.to_nat CHUNK_SIZE)%nat).
    + left. rewrite drop_ge by assumption. destruct n; [reflexivity|]. cbn [pieces]. by rewrite decide_True.
    + right. autorewrite with bufs. unfold CHUNK_SIZE, zlen in *. lia.
  - apply IH. rewrite length_drop. unfold CHUNK_SIZE. lia.
Qed.

Section fork_round_trips.
Context (zlib : bytes → option bytes) (lzvn : bytes → Z → option bytes) (lzfse : bytes → option bytes).
Context (enc : bytes → bytes).

(** The chunk loop reads back what [chunked_fork] wrote. *)
Lemma chunks_loop_encoded alg ps1 ps2 :
  let chunks := enc <$> ps1 ++ ps2 in
  (∀ p, p ∈ ps2 → decode_chunk lzvn lzfse alg (enc p) (zlen p) = Ok p) →
  pieced ps2 → zlen (chunked_fork chunks) < 2 ^ 32 →
  chunks_loop lzvn lzfse alg (chunked_fork chunks) (zlen (concat (ps1 ++ ps2))) (length ps2) (zlen ps1)
    (4 * (zlen chunks + 1) + zlen (concat (enc <$> ps1))) (concat ps1)
  = Ok (concat (ps1 ++ ps2)).
Proof.
  cbv zeta. revert ps1. induction ps2 as [|p ps2 IH]; intros ps1 Hdec Hps Hlen; cbn [length chunks_loop].
  { by rewrite app_nil_r. }
  specialize (IH (ps1 ++ [p])). rewrite <- app_assoc in IH. cbn [app] in IH.
  pose proof (pieced_first _ _ Hps) as Hmin. inversion Hps as [|?? Hp _ Hps']; subst.
  set (hs := 4 * (zlen (enc <$> ps1 ++ p :: ps2) + 1)) in *.
  assert (Hcat : concat (ps1 ++ p :: ps2) = concat ps1 ++ concat (p :: ps2)) by apply concat_app.
  assert (Hfork : chunked_fork (enc <$> ps1 ++ p :: ps2) =
    (to_le_bytes 4 hs ++ chunk_ends hs (enc <$> ps1)) ++
    to_le_bytes 4 (hs + zlen (concat (enc <$> ps1)) + zlen (enc p)) ++
    (chunk_ends (hs + zlen (concat (enc <$> ps1)) + zlen (enc p)) (enc <$> ps2) ++
     concat (enc <$> ps1) ++ enc p ++ concat (enc <$> ps2))).
  { unfold chunked_fork. fold hs. rewrite fmap_app, fmap_cons, chunk_ends_app, concat_app.
    cbn [chunk_ends concat]. by rewrite <- !app_assoc. }
  assert (Hhs : hs = 4 * (zlen ps1 + 1 + zlen ps2 + 1))
    by (unfold hs, zlen; rewrite length_fmap, length_app; simpl; lia).
  set (E1 := zlen (concat (enc <$> ps1))) in *.
  pose proof (zlen_nonneg ps1). pose proof (zlen_nonneg ps2). pose proof (zlen_nonneg (enc p)).
  pose proof (zlen_nonneg (concat (enc <$> ps1))) as HE1. fold E1 in HE1.
  pose proof (zlen_nonneg (concat (enc <$> ps2))).
  assert (Hl1 : zlen (chunk_ends hs (enc <$> ps1)) = 4 * zlen ps1)
    by (rewrite zlen_chunk_ends; unfold zlen; by rewrite length_fmap).
  assert (Hl2 : zlen (chunk_ends (hs + E1 + zlen (enc p)) (enc <$> ps2)) = 4 * zlen ps2)
    by (rewrite zlen_chunk_ends; unfold zlen; by rewrite length_fmap).
  assert (Hl : zlen (chunked_fork (enc <$> ps1 ++ p :: ps2)) = hs + E1 + zlen (enc p) + zlen (concat (enc <$> ps2)))
    by (rewrite Hfork; autorewrite with bufs; fold E1; lia).
  rewrite Hcat, zlen_app in IH |- *. cbn [concat] in Hmin, IH |- *. rewrite zlen_app in Hmin, IH |- *.
  pose proof (zlen_nonneg (concat ps2)). replace (_ <=? zlen (concat ps1)) with false by lia.
  unfold add_u64. replace (4 + zlen ps1 * 4 <=? u64_max) with true by (unfold u64_max; lia). rewrite bind_Ok.
  assert (Hend : try_le_u32 (chunked_fork (enc <$> ps1 ++ p :: ps2)) (4 + zlen ps1 * 4) = Ok (hs + E1 + zlen (enc p))).
  { rewrite Hfork. apply try_le_u32_at; [autorewrite with bufs; lia|unfold in_u32; lia|unfold u64_max; lia]. }
  rewrite Hend, bind_Ok. replace (_ <? _) with false by lia.
  assert (Hget : get_range (chunked_fork (enc <$> ps1 ++ p :: ps2)) (hs + E1) (hs + E1 + zlen (enc p)) = Some (enc p)).
  { rewrite Hfork. repeat rewrite get_range_skip by (autorewrite with bufs; fold E1; lia).
    autorewrite with bufs. fold E1. apply get_range_here; lia. }
  rewrite Hget. cbn [ok_or]. rewrite bind_Ok.
  rewrite (proj2 (checked_sub_Some _ _ (zlen p + zlen (concat ps2)))) by lia. cbn [ok_or]. rewrite bind_Ok, Hmin.
  rewrite Hdec, bind_Ok by left.
  replace (zlen ps1 + 1) with (zlen (ps1 ++ [p])) by by rewrite zlen_app.
  replace (concat ps1 ++ p) with (concat (ps1 ++ [p])) by (rewrite concat_app; cbn [concat]; by rewrite app_nil_r).
  replace (hs + E1 + zlen (enc p)) with (hs + zlen (concat (enc <$> ps1 ++ [p])))
    by (rewrite fmap_app, concat_app, zlen_app; cbn [concat fmap list_fmap]; rewrite app_nil_r; fold E1; lia).
  apply IH; [intros q Hq; apply Hdec; by right|done|done].
Qed.

Lemma chunked_fork_decoded alg content :
  let chunks := enc <$> pieces (length content) content in
  (∀ p, p ∈ pieces (length content) content → decode_chunk lzvn lzfse alg (enc p) (zlen p) = Ok p) →
  zlen (chunked_fork chunks) < 2 ^ 32 →
  decode_chunked_resource_fork lzvn lzfse alg (chunked_fork chunks) (zlen content) = Ok content.
Proof.
  cbv zeta. set (ps := pieces _ _). intros Hdec Hlen.
  assert (Hc : concat ps = content) by by apply concat_pieces.
  assert (Hps : pieced ps) by by apply pieces_pieced.
  pose proof (chunks_loop_encoded alg [] ps Hdec Hps Hlen) as Hloop. cbn [app concat fmap list_fmap] in Hloop.
  unfold decode_chunked_resource_fork.
  assert (Hn : zlen (enc <$> ps) = zlen ps) by (unfold zlen; by rewrite length_fmap).
  assert (Hhs : in_u32 (4 * (zlen (enc <$> ps) + 1))).
  { unfold chunked_fork in Hlen. rewrite !zlen_app, zlen_chunk_ends in Hlen. autorewrite with bufs in Hlen.
    pose proof (zlen_nonneg (enc <$> ps)). pose proof (zlen_nonneg (concat (enc <$> ps))). unfold in_u32. lia. }
  assert (H0 : try_le_u32 (chunked_fork (enc <$> ps)) 0 = Ok (4 * (zlen (enc <$> ps) + 1)))
    by (unfold chunked_fork; by apply try_le_u32_here).
  rewrite H0, bind_Ok.
  rewrite (Z.mul_comm 4), Z.div_mul by done.
  rewrite (proj2 (checked_sub_Some _ _ (zlen ps))) by (pose proof (zlen_nonneg ps); lia).
  cbn [ok_or]. rewrite bind_Ok. 
  replace (Z.to_nat (zlen ps)) with (length ps) by (unfold zlen; lia).
  rewrite Hc in Hloop. rewrite <- Hloop. f_equal; try reflexivity. rewrite zlen_nil. lia.
Qed.

(** The zlib block loop reads back what [zlib_fork] wrote. *)
Lemma zlib_blocks_encoded ps1 ps2 :
  let blocks := enc <$> ps1 ++ ps2 in
  (∀ p, p ∈ ps2 → zlib (enc p) = Some p) → zlen (zlib_fork blocks) < 2 ^ 32 →
  zlib_blocks zlib (zlib_fork blocks) 260 (length ps2) (zlen ps1) (concat ps1) = Ok (concat (ps1 ++ ps2)).
Proof.
  cbv zeta. revert ps1. induction ps2 as [|p ps2 IH]; intros ps1 Hdec Hlen; cbn [length zlib_blocks].
  { by rewrite app_nil_r. }
  specialize (IH (ps1 ++ [p])). rewrite <- app_assoc in IH. cbn [app] in IH.
  set (N := zlen (enc <$> ps1 ++ p :: ps2)) in *.
  set (hdr := rev (to_le_bytes 4 256) ++ zeroed 252 ++ zeroed 4 ++ to_le_bytes 4 N).
  assert (Hhdr : zlen hdr = 264) by (by vm_compute).
  set (E1 := zlen (concat (enc <$> ps1))) in *.
  assert (Hfork : zlib_fork (enc <$> ps1 ++ p :: ps2) =
    (hdr ++ zlib_table (4 + 8 * N) (enc <$> ps1)) ++
    to_le_bytes 4 (4 + 8 * N + E1) ++ to_le_bytes 4 (zlen (enc p)) ++
    zlib_table (4 + 8 * N + E1 + zlen (enc p)) (enc <$> ps2) ++
    concat (enc <$> ps1) ++ enc p ++ concat (enc <$> ps2)).
  { unfold zlib_fork, hdr. fold N. rewrite fmap_app, fmap_cons, zlib_table_app, concat_app.
    cbn [zlib_table concat]. fold E1. by rewrite <- !app_assoc. }
  assert (HN : N = zlen ps1 + 1 + zlen ps2) by (unfold N, zlen; rewrite length_fmap, length_app; simpl; lia).
  pose proof (zlen_nonneg ps1). pose proof (zlen_nonneg ps2). pose proof (zlen_nonneg (enc p)).
  pose proof (zlen_nonneg (concat (enc <$> ps1))) as HE1. fold E1 in HE1.
  pose proof (zlen_nonneg (concat (enc <$> ps2))).
  assert (Hl1 : zlen (zlib_table (4 + 8 * N) (enc <$> ps1)) = 8 * zlen ps1)
    by (rewrite zlen_zlib_table; unfold zlen; by rewrite length_fmap).
  assert (Hl2 : zlen (zlib_table (4 + 8 * N + E1 + zlen (enc p)) (enc <$> ps2)) = 8 * zlen ps2)
    by (rewrite zlen_zlib_table; unfold zlen; by rewrite length_fmap).
  assert (Hl : zlen (zlib_fork (enc <$> ps1 ++ p :: ps2)) = 264 + 8 * N + E1 + zlen (enc p) + zlen (concat (enc <$> ps2)))
    by (rewrite Hfork; autorewrite with bufs; fold E1; lia).
  rewrite (proj2 (checked_add_Some 260 4 264)) by (split; [done|unfold u64_max; lia]). cbn [mbind option_bind].
  rewrite (proj2 (checked_mul_Some (zlen ps1) 8 (zlen ps1 * 8))) by (split; [done|unfold u64_max; lia]). cbn [mbind option_bind].
  rewrite (proj2 (checked_add_Some 264 (zlen ps1 * 8) (264 + zlen ps1 * 8))) by (split; [done|unfold u64_max; lia]).
  cbn [ok_or]. rewrite bind_Ok.
  assert (Hoff : try_le_u32 (zlib_fork (enc <$> ps1 ++ p :: ps2)) (264 + zlen ps1 * 8) = Ok (4 + 8 * N + E1)).
  { rewrite Hfork. apply try_le_u32_at; [autorewrite with bufs; lia|unfold in_u32; lia|unfold u64_max; lia]. }
  assert (Hsize : try_le_u32 (zlib_fork (enc <$> ps1 ++ p :: ps2)) (264 + zlen ps1 * 8 + 4) = Ok (zlen (enc p))).
  { rewrite Hfork, (app_assoc _ (to_le_bytes 4 _)).
    apply try_le_u32_at; [autorewrite with bufs; lia|unfold in_u32; lia|unfold u64_max; lia]. }
  rewrite Hoff, bind_Ok. unfold add_u64. replace (_ <=? u64_max) with true by (unfold u64_max; lia). rewrite bind_Ok, Hsize, bind_Ok.
  rewrite (proj2 (checked_add_Some 260 _ (260 + (4 + 8 * N + E1)))) by (split; [done|unfold u64_max; lia]).
  cbn [ok_or]. rewrite bind_Ok.
  rewrite (proj2 (checked_add_Some _ (zlen (enc p)) _)) by (split; [done|unfold u64_max; lia]).
  cbn [ok_or]. rewrite bind_Ok.
  assert (Hget : get_range (zlib_fork (enc <$> ps1 ++ p :: ps2)) (260 + (4 + 8 * N + E1)) (260 + (4 + 8 * N + E1) + zlen (enc p))
    = Some (enc p)).
  { rewrite Hfork. repeat rewrite get_range_skip by (autorewrite with bufs; fold E1; lia).
    autorewrite with bufs. fold E1. apply get_range_here; lia. }
  rewrite Hget. cbn [ok_or]. rewrite bind_Ok. unfold inflate. rewrite Hdec by left. cbn [ok_or]. rewrite bind_Ok.
  replace (zlen ps1 + 1) with (zlen (ps1 ++ [p])) by by rewrite zlen_app.
  replace (concat ps1 ++ p) with (concat (ps1 ++ [p])) by (rewrite concat_app; cbn [concat]; by rewrite app_nil_r).
  apply IH; [intros q Hq; apply Hdec; by right|done].
Qed.

Lemma zlib_fork_decoded content size :
  let blocks := enc <$> pieces (length content) content in
  (∀ p, p ∈ pieces (length content) content → zlib (enc p) = Some p) → zlen (zlib_fork blocks) < 2 ^ 32 →
  decode_zlib_resource_fork zlib (zlib_fork blocks) size = Ok content.
Proof.
  cbv zeta. set (ps := pieces _ _). intros Hdec Hlen.
  assert (Hc : concat ps = content) by by apply concat_pieces.
  pose proof (zlib_blocks_encoded [] ps Hdec Hlen) as Hloop. cbn [app concat fmap list_fmap] in Hloop.
  assert (Hn : zlen (enc <$> ps) = zlen ps) by (unfold zlen; by rewrite length_fmap).
  assert (Hsz : 264 + 8 * zlen ps <= zlen (zlib_fork (enc <$> ps))).
  { unfold zlib_fork. rewrite !zlen_app, zlen_zlib_table, Hn. pose proof (zlen_nonneg (concat (enc <$> ps))).
    change (zlen (rev (to_le_bytes 4 256))) with 4. autorewrite with bufs. rewrite !zlen_zeroed by done. lia. }
  unfold decode_zlib_resource_fork.
  assert (H0 : try_be_u32 (zlib_fork (enc <$> ps)) 0 = Ok 256).
  { unfold try_be_u32, outcome_map. rewrite (proj2 (read_checked_Ok _ _ _ (rev (to_le_bytes 4 256)))); [done|].
    split; [|done]. unfold zlib_fork. by apply get_range_here. }
  rewrite H0, bind_Ok. change (checked_add 256 4) with (Some 260). cbn [ok_or]. rewrite bind_Ok.
  assert (H1 : try_le_u32 (zlib_fork (enc <$> ps)) 260 = Ok (zlen ps)).
  { unfold zlib_fork. rewrite Hn. rewrite !(app_assoc (rev _)), !(app_assoc (_ ++ zeroed 252)).
    apply try_le_u32_at; [done|pose proof (zlen_nonneg ps); unfold in_u32; lia|done]. }
  rewrite H1, bind_Ok. replace (Z.to_nat (zlen ps)) with (length ps) by (unfold zlen; lia).
  by rewrite <- Hc, <- Hloop.
Qed.
End fork_round_trips.

(** ** Properties *)
Section properties.
Context (zlib : bytes → option bytes) (lzvn : bytes → Z → option bytes) (lzfse : bytes → option bytes).

(** The decoder on a header with an inline payload. *)
Lemma decompress_inline ty alg payload content :
  in_u32 ty → in_u64 (zlen content) → classify ty = Some {| algorithm := alg; storage := Inline |} → alg ≠ LzBitmap →
  decode_inline zlib lzvn lzfse alg payload (zlen content) ty = Ok content →
  decompress_decmpfs zlib lzvn lzfse (decmpfs_header_bytes ty (zlen content) ++ payload) None = Ok content.
Proof.
  intros Ht Hs Hk Ha Hd. unfold decompress_decmpfs.
  rewrite uncompressed_size_encoded, bind_Ok, compression_type_encoded, bind_Ok, Hk by done.
  rewrite decide_False by done. cbn [storage algorithm]. rewrite payload_encoded. cbn [ok_or]. rewrite bind_Ok, Hd, bind_Ok.
  by rewrite Z.eqb_refl.
Qed.

(** The decoder on a header with a resource fork. *)
Lemma decompress_fork ty alg fork content :
  in_u32 ty → in_u64 (zlen content) → classify ty = Some {| algorithm := alg; storage := ResourceFork |} → alg ≠ LzBitmap →
  decode_resource_fork zlib lzvn lzfse alg fork (zlen content) = Ok content →
  decompress_decmpfs zlib lzvn lzfse (decmpfs_header_bytes ty (zlen content)) (Some fork) = Ok content.
Proof.
  intros Ht Hs Hk Ha Hd. unfold decompress_decmpfs. rewrite <- (app_nil_r (decmpfs_header_bytes _ _)).
  rewrite uncompressed_size_encoded, bind_Ok, compression_type_encoded, bind_Ok, Hk by done.
  rewrite decide_False by done. cbn [storage algorithm ok_or]. rewrite bind_Ok, Hd, bind_Ok. by rewrite Z.eqb_refl.
Qed.

Lemma after_marker_cons b l : after_marker (b :: l) = l.
Proof.
  unfold after_marker, get_from. rewrite zlen_cons. change (b :: l) with ([b] ++ l).
  rewrite get_range_skip by done. change (zlen [b]) with 1. replace (1 + zlen l - 1) with (zlen l) by lia.
  change (1 - 1) with 0. by rewrite get_range_all.
Qed.

(** C11 What the decoder accepts is sound: a payload that decodes has a header of at least
    16 bytes with the magic, and the content has exactly the length the header declares;
    and with a resource fork that fits the address space no input makes the decoder
    panic. *)
Theorem decompress_sound header fork :
  (∀ f, fork = Some f → zlen f <= u64_max - 4) →
  match decompress_decmpfs zlib lzvn lzfse header fork with
  | Ok out => 16 <= zlen header ∧ le_u32 header 0 = MAGIC ∧ zlen out = le_u64 header 8
  | Err _ => True
  | Panic => False
  end.
Proof.
  intros Hf. pose proof (decompress_no_panic zlib lzvn lzfse header fork Hf) as Hp.
  destruct (decompress_decmpfs zlib lzvn lzfse header fork) as [out|e|] eqn:E; [|done|done].
  apply decompress_length, uncompressed_size_Ok in E as (? & ? & ? & _). auto.
Qed.

(** Inline payloads are decoded: the four stored forms (type 1 verbatim, type 9 after
    its marker byte, type 3 after 0xff, type 7 after 0x06) give the content back with any
    codec, and the coded forms (types 3, 7 and 11) whenever the codec inverts the encoder
    and the coded payload does not start with the marker of the stored form. *)
Lemma inline_decoded content marker zc vc fc :
  zlen content < 2 ^ 64 →
  zlib zc = Some content → head zc ≠ Some xff →
  lzvn vc (zlen content) = Some content → head vc ≠ Some x06 →
  lzfse fc = Some content →
  let file := λ ty payload, decompress_decmpfs zlib lzvn lzfse (decmpfs_header_bytes ty (zlen content) ++ payload) None in
  file 1 content = Ok content ∧ file 9 (marker :: content) = Ok content ∧
  file 3 (xff :: content) = Ok content ∧ file 7 (x06 :: content) = Ok content ∧
  file 3 zc = Ok content ∧ file 7 vc = Ok content ∧ file 11 fc = Ok content.
Proof.
  intros Hl Hz Hz' Hv Hv' Hf. cbv zeta. pose proof (zlen_nonneg content).
  assert (Hs : in_u64 (zlen content)) by (unfold in_u64; lia).
  split_and!; (eapply decompress_inline; [done|done|reflexivity|done|]); cbn [decode_inline].
  - done.
  - by rewrite after_marker_cons.
  - rewrite decide_True by done. by rewrite after_marker_cons.
  - rewrite decide_True by done. by rewrite after_marker_cons.
  - rewrite decide_False by done. unfold inflate. by rewrite Hz.
  - rewrite decide_False by done. unfold lzvn_decode. by rewrite Hv.
  - unfold lzfse_decode. by rewrite Hf.
Qed.

(** Resource forks are decoded: the content of a file, cut into 64 KiB pieces, coded
    piece by piece and laid out as the format's two fork layouts do, is read back
    (types 4, 8, 10 and 12), whenever the codec inverts the encoder on each piece, told
    the length of that piece, and the fork is under 4 GiB. *)
Lemma fork_decoded content zenc venc fenc :
  let ps := pieces (length content) content in
  let file := λ ty fork, decompress_decmpfs zlib lzvn lzfse (decmpfs_header_bytes ty (zlen content)) (Some fork) in
  zlen content < 2 ^ 64 →
  (∀ p, p ∈ ps → zlib (zenc p) = Some p) → zlen (zlib_fork (zenc <$> ps)) < 2 ^ 32 →
  (∀ p, p ∈ ps → lzvn (venc p) (zlen p) = Some p) → zlen (chunked_fork (venc <$> ps)) < 2 ^ 32 →
  (∀ p, p ∈ ps → lzfse (fenc p) = Some p) → zlen (chunked_fork (fenc <$> ps)) < 2 ^ 32 →
  zlen (chunked_fork ps) < 2 ^ 32 →
  file 4 (zlib_fork (zenc <$> ps)) = Ok content ∧ file 8 (chunked_fork (venc <$> ps)) = Ok content ∧
  file 10 (chunked_fork ps) = Ok content ∧ file 12 (chunked_fork (fenc <$> ps)) = Ok content.
Proof.
  intros ps file Hl Hz Hzl Hv Hvl Hf Hfl Hul. pose proof (zlen_nonneg content).
  assert (Hs : in_u64 (zlen content)) by (unfold in_u64; lia).
  unfold file. split_and!; (eapply decompress_fork; [done|done|reflexivity|done|]); cbn [decode_resource_fork].
  - by apply zlib_fork_decoded.
  - apply chunked_fork_decoded; [|done]. intros p Hp. cbn [decode_chunk]. unfold lzvn_decode. by rewrite Hv.
  - assert (Hid : (λ p : bytes, p) <$> ps = ps) by apply list_fmap_id.
    rewrite <- Hid at 1. apply chunked_fork_decoded; [done|]. fold ps. by rewrite Hid.
  - apply chunked_fork_decoded; [|done]. intros p Hp. cbn [decode_chunk]. unfold lzfse_decode. by rewrite Hf.
Qed.
(** C31 Round trip of the compressed files the decoder reads, over all storage types.
    Inline payloads: the four stored forms (type 1 verbatim, type 9 after its marker byte,
    type 3 after 0xff, type 7 after 0x06) give the content back with any codec, and the
    coded forms (types 3, 7 and 11) whenever the codec inverts the encoder and the coded
    payload does not start with the marker of the stored form.  Resource forks: the
    content, cut into 64 KiB pieces, coded piece by piece and laid out as the format's two
    fork layouts do, is read back (types 4, 8, 10 and 12), whenever the codec inverts the
    encoder on each piece, told the length of that piece, and the fork is under 4 GiB. *)
Theorem decmpfs_roundtrip content :
  zlen content < 2 ^ 64 →
  let file := λ ty payload fork,
    decompress_decmpfs zlib lzvn lzfse (decmpfs_header_bytes ty (zlen content) ++ payload) fork in
  (∀ marker zc vc fc,
     zlib zc = Some content → head zc ≠ Some xff →
     lzvn vc (zlen content) = Some content → head vc ≠ Some x06 →
     lzfse fc = Some content →
     file 1 content None = Ok content ∧ file 9 (marker :: content) None = Ok content ∧
     file 3 (xff :: content) None = Ok content ∧ file 7 (x06 :: content) None = Ok content ∧
     file 3 zc None = Ok content ∧ file 7 vc None = Ok content ∧ file 11 fc None = Ok content) ∧
  (∀ zenc venc fenc, let ps := pieces (length content) content in
     (∀ p, p ∈ ps → zlib (zenc p) = Some p) → zlen (zlib_fork (zenc <$> ps)) < 2 ^ 32 →
     (∀ p, p ∈ ps → lzvn (venc p) (zlen p) = Some p) → zlen (chunked_fork (venc <$> ps)) < 2 ^ 32 →
     (∀ p, p ∈ ps → lzfse (fenc p) = Some p) → zlen (chunked_fork (fenc <$> ps)) < 2 ^ 32 →
     zlen (chunked_fork ps) < 2 ^ 32 →
     file 4 [] (Some (zlib_fork (zenc <$> ps))) = Ok content ∧
     file 8 [] (Some (chunked_fork (venc <$> ps))) = Ok content ∧
     file 10 [] (Some (chunked_fork ps)) = Ok content ∧
     file 12 [] (Some (chunked_fork (fenc <$> ps))) = Ok content).
Proof.
  intros Hl file. split; [intros; unfold file; apply inline_decoded; assumption|].
  intros zenc venc fenc ps. intros. unfold file. cbv beta. rewrite !app_nil_r.
  apply fork_decoded; assumption.
Qed.
End properties.

(** ** Witnesses: codecs that take the length they are told, or drop a first byte. *)
Definition demo_codec (data : bytes) : option bytes := match data with x78 :: l => Some l | _ => None end.
Definition demo_lzvn (data : bytes) (n : Z) : option bytes := get_range data 0 n.

Lemma decompress_sound_witness :
  match decompress_decmpfs demo_codec demo_lzvn demo_codec (decmpfs_header_bytes 10 5) (Some (chunked_fork [str "hello"])) with
  | Ok out => 16 <= zlen (decmpfs_header_bytes 10 5) ∧ le_u32 (decmpfs_header_bytes 10 5) 0 = MAGIC ∧
      zlen out = le_u64 (decmpfs_header_bytes 10 5) 8
  | Err _ => True
  | Panic => False
  end ∧
  decompress_decmpfs demo_codec demo_lzvn demo_codec (decmpfs_header_bytes 10 5) (Some (chunked_fork [str "hello"]))
  = Ok (str "hello").
Proof.
  split; [|vm_compute; reflexivity].
  apply decompress_sound. intros f [= <-]. vm_compute. discriminate.
Defined.

Lemma decmpfs_roundtrip_witness :
  let file := decompress_decmpfs demo_codec demo_lzvn demo_codec in
  file (decmpfs_header_bytes 9 5 ++ xcc :: str "hello") None = Ok (str "hello") ∧
  file (decmpfs_header_bytes 3 5 ++ x78 :: str "hello") None = Ok (str "hello") ∧
  file (decmpfs_header_bytes 4 5) (Some (zlib_fork [x78 :: str "hello"])) = Ok (str "hello") ∧
  file (decmpfs_header_bytes 8 5) (Some (chunked_fork [str "hello" ++ [x06]])) = Ok (str "hello").
Proof.
  assert (Hps : pieces (length (str "hello")) (str "hello") = [str "hello"]) by (vm_compute; reflexivity).
  destruct (decmpfs_roundtrip demo_codec demo_lzvn demo_codec (str "hello")) as [Hinline Hfork]; [done|].
  destruct (Hinline xcc (x78 :: str "hello") (str "hello" ++ [x06]) (x78 :: str "hello"))
    as (_ & H9 & _ & _ & H3 & _); [done|done|by vm_compute|done|done|].
  destruct (Hfork (cons x78) (λ p, p ++ [x06]) (cons x78)) as (H4 & H8 & _); rewrite ?Hps;
    try (vm_compute; reflexivity).
  - intros p ->%list_elem_of_singleton. by vm_compute.
  - rewrite Hps in H4, H8. split_and!; [exact H9|exact H3|exact H4|exact H8].
Defined.
