(* ===== verification/FileData.v ===== *)
(** * File content ([read_data] and [data_size] of [src/src/extent.rs], [read_compressed]
    of [src/src/compression.rs])

    The dispatch between an ordinary stream and a compressed file.  The theorems are the
    contract between the two operations a client combines, the panic freedom of every
    operation on a volume, and the content of a compressed file end to end. *)
From S2P Require Import Prelude Bytes Reader Object Node Build Walk BTree Omap Volume FsRecord Inode Dir Extent Xattr Decmpfs Compression.

Section file_data.
Context (zlib : bytes → option bytes) (lzvn : bytes → Z → option bytes) (lzfse : bytes → option bytes).
Context {R : Type} `{ReadSeek R}.
Context (volume : ApfsVolume.t).

Definition read_compressed (inode : Inode.t) (header : bytes) (block_size : Z) : M R bytes :=
  compression_type ← lift (try_le_u32 header COMPRESSION_TYPE_OFFSET);
  let needs_fork :=
    match classify compression_type with
    | Some c => bool_decide (storage c = ResourceFork)
    | None => false
    end in
  fork ← (if needs_fork then resource_fork volume (Inode.oid inode) block_size else mret None);
  lift (decompress_decmpfs zlib lzvn lzfse header fork).

Definition read_data (inode : Inode.t) (block_size : Z) : M R bytes :=
  header ← decmpfs_header volume (Inode.oid inode) block_size;
  match header with
  | Some header => read_compressed inode header block_size
  | None =>
      let size := default 0 (Inode.size inode) in
      read_stream volume (Inode.private_id inode) size block_size
  end.

Definition data_size (inode : Inode.t) (block_size : Z) : M R Z :=
  header ← decmpfs_header volume (Inode.oid inode) block_size;
  match header with
  | Some header => lift (uncompressed_size header)
  | None => mret (default 0 (Inode.size inode))
  end.
End file_data.

(** ** Specification *)

(** [fork] is what the decoder of a file of compression type [ty] is given: the value of the
    resource-fork attribute when the type keeps its payload there, and nothing otherwise. *)
Definition fork_stored (data : bytes) (bs : Z) (records : list Entry) (ino ty : Z) (fork : option bytes) : Prop :=
  match storage <$> classify ty with
  | Some ResourceFork =>
      match find_xattr XATTR_NAME_RESOURCE_FORK (xattrs_of records ino) with
      | Some v => ∃ f, fork = Some f ∧ stored data bs records MAX_FILE_BYTES v f
      | None => fork = None
      end
  | _ => fork = None
  end.

(** ** Lemmas *)
Section lemmas.
Context (zlib : bytes → option bytes) (lzvn : bytes → Z → option bytes) (lzfse : bytes → option bytes).
Context {R : Type}.

Lemma Stable_read_compressed `{LawfulReader R} v i h bs : Stable (read_compressed zlib lzvn lzfse (R := R) v i h bs).
Proof. unfold read_compressed. solve_stable. Qed.
#[local] Hint Resolve Stable_read_compressed : stable.

Lemma eval_read_compressed `{LawfulReader R} v i h bs r :
  eval (read_compressed zlib lzvn lzfse v i h bs) r =
  (ty ← try_le_u32 h COMPRESSION_TYPE_OFFSET;
   fork ← eval (if match classify ty with Some c => bool_decide (storage c = ResourceFork) | None => false end
      then resource_fork v (Inode.oid i) bs else mret None) r;
   decompress_decmpfs zlib lzvn lzfse h fork).
Proof.
  unfold read_compressed. rewrite eval_bind by solve_stable. rewrite eval_lift.
  destruct (try_le_u32 h _); [|done..]. rewrite !bind_Ok. by rewrite eval_bind by solve_stable.
Qed.

Lemma Stable_read_data `{LawfulReader R} v i bs : Stable (read_data zlib lzvn lzfse (R := R) v i bs).
Proof. unfold read_data. solve_stable. Qed.

Lemma Stable_data_size `{LawfulReader R} v i bs : Stable (data_size (R := R) v i bs).
Proof. unfold data_size. solve_stable. Qed.

(** A fork that is read fits the address space: it is embedded in a record of at most
    64 KiB, or a stream under the cap. *)
Lemma resource_fork_length `{LawfulReader R} v ino bs r f :
  eval (resource_fork v ino bs) r = Ok (Some f) → zlen f <= MAX_FILE_BYTES.
Proof.
  unfold resource_fork. rewrite eval_bind by solve_stable. intros (x & Hx & E)%outcome_bind_Ok.
  unfold get_xattr, list_xattrs in Hx. rewrite eval_bind in Hx by solve_stable.
  apply outcome_bind_Ok in Hx as (xs & Hxs & [= <-]). apply for_each_fs_record_Ok in Hxs as (es & ->).
  rewrite xattrs_visit_all in E. cbn [app] in E.
  destruct (find_xattr _ _) as [value|] eqn:Hv; [|done]. apply find_xattr_ok in Hv.
  destruct value as [d|oid size]; cbn [value_ok] in Hv.
  - injection E as <-. unfold MAX_FILE_BYTES. lia.
  - rewrite eval_bind in E by solve_stable. apply outcome_bind_Ok in E as (d & Hd & [= ->]).
    assert (Hcap : size <= MAX_FILE_BYTES).
    { revert Hd. unfold read_stream. destruct (_ <? _) eqn:Hc; [done|]. zbool. lia. }
    apply read_stream_length in Hd; unfold in_u64 in *; lia.
Qed.

Lemma read_compressed_no_panic `{LawfulReader R} v i h bs r : bs ≠ 0 →
  eval (read_compressed zlib lzvn lzfse v i h bs) r ≠ Panic.
Proof.
  intros Hbs. unfold read_compressed. rewrite eval_bind by solve_stable.
  apply bind_no_panic; [apply try_le_u32_no_panic|]. intros ty _. rewrite eval_bind by solve_stable.
  apply bind_no_panic.
  - destruct (classify ty) as [c|]; [|done]. case_bool_decide; [by apply Safe_resource_fork|done].
  - intros fork Hf. rewrite eval_lift. apply decompress_no_panic. intros f ->.
    assert (Hr : eval (resource_fork v (Inode.oid i) bs) r = Ok (Some f))
      by (destruct (classify ty) as [c|]; [case_bool_decide|]; done).
    apply resource_fork_length in Hr. unfold MAX_FILE_BYTES in Hr. unfold u64_max. lia.
Qed.

Lemma read_data_no_panic `{LawfulReader R} v i bs r : bs ≠ 0 →
  eval (read_data zlib lzvn lzfse v i bs) r ≠ Panic.
Proof.
  intros Hbs. unfold read_data. rewrite eval_bind by (solve_stable; apply Stable_read_compressed).
  apply bind_no_panic; [by apply Safe_decmpfs_header|]. intros [h|] _.
  - by apply read_compressed_no_panic.
  - by apply Safe_read_stream.
Qed.

Lemma data_size_no_panic `{LawfulReader R} v i bs r : bs ≠ 0 → eval (data_size v i bs) r ≠ Panic.
Proof.
  intros Hbs. unfold data_size. rewrite eval_bind by solve_stable.
  apply bind_no_panic; [by apply Safe_decmpfs_header|]. intros [h|] _; [|done].
  apply uncompressed_size_no_panic.
Qed.
End lemmas.
#[export] Hint Resolve Stable_read_compressed Stable_read_data Stable_data_size : stable.

(** ** Properties *)
Section properties.
Context (zlib : bytes → option bytes) (lzvn : bytes → Z → option bytes) (lzfse : bytes → option bytes).
Context {R : Type} `{LawfulReader R}.

(** [data_size] announces what [read_data] delivers: on any source and any volume,
    whatever the codecs do, when [read_data] returns a file's content, [data_size]
    returns its length, for ordinary and for compressed files. *)
Lemma data_size_is_read_length volume inode bs r out :
  0 <= default 0 (Inode.size inode) →
  eval (read_data zlib lzvn lzfse volume inode bs) r = Ok out →
  eval (data_size volume inode bs) r = Ok (zlen out).
Proof.
  intros Hs. unfold read_data, data_size. rewrite !eval_bind by solve_stable.
  intros (h & Hh & E)%outcome_bind_Ok. rewrite Hh, bind_Ok. destruct h as [h|].
  - rewrite eval_lift. unfold read_compressed in E. rewrite eval_bind in E by solve_stable.
    apply outcome_bind_Ok in E as (ty & _ & E). rewrite eval_bind in E by solve_stable.
    apply outcome_bind_Ok in E as (fork & _ & E). rewrite eval_lift in E.
    by apply decompress_length in E.
  - rewrite eval_ret. apply read_stream_length in E; [|done]. by rewrite E.
Qed.

(** C26 No image makes the volume layer panic: over any lawful source, for any volume record,
    object, name and path and any codecs, with a block size that is not zero, listing,
    lookup, path resolution, extents, attributes, content and size return a value or an
    error. *)
Theorem volume_operations_never_panic volume bs r :
  bs ≠ 0 →
  (∀ oid, eval (list_dir volume oid bs) r ≠ Panic) ∧
  (∀ oid name, eval (lookup_child volume oid name bs) r ≠ Panic) ∧
  (∀ oid, eval (load_inode volume oid bs) r ≠ Panic) ∧
  (∀ path, eval (open_path volume path bs) r ≠ Panic) ∧
  (∀ oid, eval (list_extents volume oid bs) r ≠ Panic) ∧
  (∀ oid size, eval (read_stream volume oid size bs) r ≠ Panic) ∧
  (∀ oid, eval (symlink_target volume oid bs) r ≠ Panic) ∧
  (∀ inode, eval (data_size volume inode bs) r ≠ Panic) ∧
  (∀ inode, eval (read_data zlib lzvn lzfse volume inode bs) r ≠ Panic).
Proof.
  intros Hbs. split_and!; intros.
  - apply Safe_list_dir.
  - apply Safe_lookup_child.
  - apply Safe_load_inode.
  - apply Safe_open_path.
  - apply Safe_list_extents.
  - by apply Safe_read_stream.
  - apply Safe_symlink_target.
  - by apply data_size_no_panic.
  - by apply read_data_no_panic.
Qed.

End properties.

(** The content of a compressed file, over an image. *)
Section compressed.
Context (volume : ApfsVolume.t) (bs : Z) (data : bytes) (om : ObjectMap.t) (t : tree).

(** The resource fork the decoder is given. *)
Lemma fork_stored_iff ino ty fork : fs_tree volume bs (cursor data) om t → 0 < bs → zlen data <= u64_max →
  fork_stored data bs (entries t) ino ty fork ↔
  eval (if match classify ty with Some c => bool_decide (storage c = ResourceFork) | None => false end
        then resource_fork volume ino bs else mret None) (cursor data) = Ok fork.
Proof.
  intros Ht Hbs Hd. unfold fork_stored. destruct (classify ty) as [[alg [|]]|]; simpl; rewrite ?eval_ret; [naive_solver| |naive_solver].
  destruct (find_xattr _ _) as [v|] eqn:Hv; [by rewrite (resource_fork_iff _ _ _ _ _ Ht Hbs Hd _ _ _ Hv)|].
  unfold resource_fork. rewrite eval_bind by solve_stable.
  rewrite (get_xattr_eval _ _ _ _ _ _ _ Ht), Hv, bind_Ok, eval_ret. naive_solver.
Qed.

Context (zlib : bytes → option bytes) (lzvn : bytes → Z → option bytes) (lzfse : bytes → option bytes).

(** C12 The content of a compressed file is the decoding of its attributes, wherever they are
    stored: over an image with a well-formed file-system tree, for an inode with a
    [com.apple.decmpfs] attribute, embedded or in a stream, the content is the decoder's
    result, errors included, on the value of that attribute and, when the compression
    type keeps its payload in the resource fork, on the value of that attribute, embedded
    or in a stream; content that is returned can only come from there, and not from the
    inode's own data stream.  A header too short for a type, and a stream over its cap,
    are refused by name. *)
Theorem compressed_file_content inode v :
  fs_tree volume bs (cursor data) om t → 0 < bs → zlen data <= u64_max →
  find_xattr XATTR_NAME_DECMPFS (xattrs_of (entries t) (Inode.oid inode)) = Some v →
  let content := eval (read_data zlib lzvn lzfse volume inode bs) (cursor data) in
  let header_stored := stored data bs (entries t) MAX_DECMPFS_XATTR_BYTES v in
  (∀ header ty fork, header_stored header → try_le_u32 header COMPRESSION_TYPE_OFFSET = Ok ty →
    fork_stored data bs (entries t) (Inode.oid inode) ty fork →
    content = decompress_decmpfs zlib lzvn lzfse header fork) ∧
  (∀ out, content = Ok out → ∃ header ty fork, header_stored header ∧
    try_le_u32 header COMPRESSION_TYPE_OFFSET = Ok ty ∧
    fork_stored data bs (entries t) (Inode.oid inode) ty fork ∧
    decompress_decmpfs zlib lzvn lzfse header fork = Ok out) ∧
  (∀ header, header_stored header → zlen header < 8 → content = Err (Decmpfs "decmpfs read out of bounds")) ∧
  (∀ oid size, v = Stream oid size → MAX_DECMPFS_XATTR_BYTES < size →
    content = Err (FieldOutOfRange "com.apple.decmpfs j_xattr_dstream" "size" size MAX_DECMPFS_XATTR_BYTES)) ∧
  (∀ header ty oid size, header_stored header → try_le_u32 header COMPRESSION_TYPE_OFFSET = Ok ty →
    storage <$> classify ty = Some ResourceFork →
    find_xattr XATTR_NAME_RESOURCE_FORK (xattrs_of (entries t) (Inode.oid inode)) = Some (Stream oid size) →
    MAX_FILE_BYTES < size → content = Err (FieldOutOfRange "j_dstream" "size" size MAX_FILE_BYTES)).
Proof.
  intros Ht Hbs Hd Hv. cbv zeta.
  assert (Hh : ∀ h, eval (decmpfs_header volume (Inode.oid inode) bs) (cursor data) = Ok h ↔
    ∃ out, h = Some out ∧ stored data bs (entries t) MAX_DECMPFS_XATTR_BYTES v out)
    by (intros; by apply (decmpfs_header_iff _ _ _ _ _ Ht Hbs Hd)).
  assert (Hc : ∀ header, stored data bs (entries t) MAX_DECMPFS_XATTR_BYTES v header →
    eval (read_data zlib lzvn lzfse volume inode bs) (cursor data) =
    (ty ← try_le_u32 header COMPRESSION_TYPE_OFFSET;
     fork ← eval (if match classify ty with Some c => bool_decide (storage c = ResourceFork) | None => false end
        then resource_fork volume (Inode.oid inode) bs else mret None) (cursor data);
     decompress_decmpfs zlib lzvn lzfse header fork)).
  { intros header H1. unfold read_data. rewrite eval_bind by solve_stable.
    rewrite (proj2 (Hh (Some header))) by eauto. rewrite bind_Ok. refine (eval_read_compressed _ _ _ _ _ _ _ _). }
  split_and!.
  - intros header ty fork H1 H2 H3%fork_stored_iff; [|done..]. by rewrite (Hc _ H1), H2, bind_Ok, H3.
  - intros out E. assert (E' := E). unfold read_data in E'. rewrite eval_bind in E' by solve_stable.
    apply outcome_bind_Ok in E' as (h & (header & _ & H1)%Hh & _). rewrite (Hc _ H1) in E.
    apply outcome_bind_Ok in E as (ty & H2 & (fork & H3%fork_stored_iff & E)%outcome_bind_Ok); [|done..].
    by exists header, ty, fork.
  - intros header H1 Hz. rewrite (Hc _ H1). by rewrite try_le_u32_short by (unfold COMPRESSION_TYPE_OFFSET, u64_max; lia).
  - intros oid size -> Hcap. unfold read_data, decmpfs_header. rewrite !eval_bind by solve_stable.
    rewrite (get_xattr_eval _ _ _ _ _ _ _ Ht), Hv, bind_Ok. by replace (_ <? _) with true by lia.
  - intros header ty oid size H1 H2 Hst Hf Hcap. rewrite (Hc _ H1), H2, bind_Ok.
    destruct (classify ty) as [[alg ?]|]; [injection Hst as ->|done]. simpl. unfold resource_fork.
    rewrite eval_bind by solve_stable. rewrite (get_xattr_eval _ _ _ _ _ _ _ Ht), Hf, bind_Ok.
    unfold read_stream. by replace (_ <? _) with true by lia.
Qed.
End compressed.

(** ** A compressed file for the witnesses *)
Definition demo_compressed : Inode.t :=
  Inode.mk 16 2 16 1 2 3 4 0 1 0 501 20 33188 None None.
Definition demo_compressed_header : bytes := decmpfs_header_bytes 9 5 ++ xcc :: str "hello".
Definition demo_compressed_records : list Entry :=
  [ {| key := xattr_key 16 XATTR_NAME_DECMPFS; value := xattr_val 2 demo_compressed_header |} ].
Definition demo_compressed_fs : bytes := one_leaf_fs 256 demo_compressed_records [].

Lemma demo_compressed_fs_ok :
  fs_tree demo_volume 256 (cursor demo_compressed_fs) demo_fs_om (Leaf 100 demo_compressed_records).
Proof.
  apply one_leaf_fs_ok; [vm_compute; reflexivity|vm_compute; reflexivity|].
  change (StronglySorted Z.le [16]). repeat constructor.
Qed.

(** The same content with both attributes in streams, the fork in chunks. *)
Definition demo_fork : bytes := chunked_fork [str "hello"].
Definition demo_fork_header : bytes := decmpfs_header_bytes 10 5.
Definition demo_fork_records : list Entry :=
  [ {| key := xattr_key 16 XATTR_NAME_RESOURCE_FORK; value := xattr_val 1 (to_le_bytes 8 41 ++ to_le_bytes 8 (zlen demo_fork)) |};
    {| key := xattr_key 16 XATTR_NAME_DECMPFS; value := xattr_val 1 (to_le_bytes 8 40 ++ to_le_bytes 8 16) |};
    demo_extent 40 0 512 3; demo_extent 41 0 512 4 ].
Definition demo_fork_fs : bytes :=
  one_leaf_fs 512 demo_fork_records
    [(3, demo_fork_header ++ zeroed 496); (4, demo_fork ++ zeroed (512 - zlen demo_fork))].

Lemma demo_fork_fs_ok :
  fs_tree demo_volume 512 (cursor demo_fork_fs) demo_fs_om (Leaf 100 demo_fork_records).
Proof.
  apply one_leaf_fs_ok; [vm_compute; reflexivity|vm_compute; reflexivity|].
  change (StronglySorted Z.le [16; 16; 40; 41]). repeat constructor; lia.
Qed.

Lemma demo_fork_stored :
  stored demo_fork_fs 512 demo_fork_records MAX_DECMPFS_XATTR_BYTES (Stream 40 16) demo_fork_header ∧
  fork_stored demo_fork_fs 512 demo_fork_records 16 10 (Some demo_fork).
Proof.
  assert (Hd : zlen demo_fork_fs <= u64_max) by (vm_compute; discriminate). split.
  - assert (H : eval (decmpfs_header demo_volume 16 512) (cursor demo_fork_fs) = Ok (Some demo_fork_header))
      by (vm_compute; reflexivity).
    apply (decmpfs_header_iff demo_volume 512 demo_fork_fs demo_fs_om (Leaf 100 demo_fork_records)
      demo_fork_fs_ok ltac:(lia) Hd 16 (Stream 40 16)) in H as (out & [= <-] & Hs); [exact Hs|vm_compute; reflexivity].
  - apply (fork_stored_iff demo_volume 512 demo_fork_fs demo_fs_om (Leaf 100 demo_fork_records) 16 10 _
      demo_fork_fs_ok ltac:(lia) Hd). vm_compute. reflexivity.
Qed.

Lemma compressed_file_content_witness :
  eval (read_data demo_codec demo_lzvn demo_codec demo_volume demo_compressed 256) (cursor demo_compressed_fs)
  = Ok (str "hello") ∧
  eval (read_data demo_codec demo_lzvn demo_codec demo_volume demo_compressed 512) (cursor demo_fork_fs)
  = Ok (str "hello").
Proof.
  split.
  - destruct (compressed_file_content demo_volume 256 demo_compressed_fs demo_fs_om _
      demo_codec demo_lzvn demo_codec demo_compressed (Embedded demo_compressed_header) demo_compressed_fs_ok) as [Hc _];
      [lia|vm_compute; discriminate|vm_compute; reflexivity|].
    rewrite (Hc demo_compressed_header 9 None); vm_compute; reflexivity.
  - destruct (compressed_file_content demo_volume 512 demo_fork_fs demo_fs_om _
      demo_codec demo_lzvn demo_codec demo_compressed (Stream 40 16) demo_fork_fs_ok) as [Hc _];
      [lia|vm_compute; discriminate|vm_compute; reflexivity|].
    destruct demo_fork_stored as [Hh Hf].
    rewrite (Hc demo_fork_header 10 (Some demo_fork) Hh); [vm_compute; reflexivity|vm_compute; reflexivity|exact Hf].
Defined.

Lemma volume_operations_never_panic_witness :
  eval (open_path demo_volume (str "/x") 256) (cursor (zeroed 100)) ≠ Panic.
Proof.
  destruct (volume_operations_never_panic demo_codec demo_lzvn demo_codec demo_volume 256 (cursor (zeroed 100)))
    as (_ & _ & _ & Hp & _); [done|]. apply Hp.
Defined.
