(* ===== verification/Snapshot.v ===== *)
(** * Snapshots ([src/src/snapshot.rs])

    [descend_snap] walks the snapshot-metadata tree: its root is a block address, its
    other nodes are virtual.  [list_snapshots] and [resolve_snapshot_xid] read its
    records, [mount_snapshot] turns one into a volume that reads through the live object
    map at the snapshot's transaction. *)
From S2P Require Import Prelude Bytes Text Reader Object Node Build Walk BTree Omap Volume FsRecord Dir.
Import BTreeNodeHeader(is_leaf).

Definition OBJECT_SUBTYPE_SNAPMETATREE : Z := 0x10.
Definition OFF_SNAP_NAME_KEY_LEN : Z := 8.
Definition OFF_SNAP_NAME_KEY_NAME : Z := 10.
Definition OFF_SNAP_EXTENTREF_TREE_OID : Z := 0.
Definition OFF_SNAP_SBLOCK_OID : Z := 8.
Definition OFF_SNAP_CREATE_TIME : Z := 16.
Definition OFF_SNAP_CHANGE_TIME : Z := 24.
Definition OFF_SNAP_INUM : Z := 32.
Definition OFF_SNAP_FLAGS : Z := 44.
Definition OFF_SNAP_NAME_LEN : Z := 48.
Definition OFF_SNAP_NAME : Z := 50.
Definition MAX_SNAP_TREE_DEPTH : Z := 64.
Definition MAX_SNAP_NAME_LEN : Z := 4096.

Module Snapshot.
Record t := mk {
  xid : Z;
  name : bytes;
  create_time : Z;
  change_time : Z;
  sblock_oid : Z;
  extentref_tree_oid : Z;
  inum : Z;
  flags : Z;
}.
End Snapshot.

Definition parse_snap_metadata (xid : Z) (value : bytes) : Snapshot.t :=
  let name_len := Z.min (le_u16 value OFF_SNAP_NAME_LEN) MAX_SNAP_NAME_LEN in
  let name :=
    match get_range value OFF_SNAP_NAME (OFF_SNAP_NAME + name_len) with
    | Some data => decode_cstr data
    | None => []
    end in
  {| Snapshot.xid := xid;
     Snapshot.name := name;
     Snapshot.create_time := le_u64 value OFF_SNAP_CREATE_TIME;
     Snapshot.change_time := le_u64 value OFF_SNAP_CHANGE_TIME;
     Snapshot.sblock_oid := le_u64 value OFF_SNAP_SBLOCK_OID;
     Snapshot.extentref_tree_oid := le_u64 value OFF_SNAP_EXTENTREF_TREE_OID;
     Snapshot.inum := le_u64 value OFF_SNAP_INUM;
     Snapshot.flags := le_u32 value OFF_SNAP_FLAGS |}.

Definition decode_snap_name_key (key : bytes) : option bytes :=
  let name_len := Z.min (le_u16 key OFF_SNAP_NAME_KEY_LEN) MAX_SNAP_NAME_LEN in
  if name_len =? 0 then None else
  decode_cstr <$> get_range key OFF_SNAP_NAME_KEY_NAME (OFF_SNAP_NAME_KEY_NAME + name_len).

Definition snapshots_visit (out : list Snapshot.t) (key value : bytes) : list Snapshot.t :=
  let '(xid, ty) := decode_jkey (le_u64 key 0) in
  if bool_decide (ty = Some SnapMetadata) then out ++ [parse_snap_metadata xid value] else out.

Definition snap_name_visit (name : bytes) (found : option Z) (key value : bytes) : option Z :=
  match found with
  | Some _ => found
  | None =>
      let '(_, ty) := decode_jkey (le_u64 key 0) in
      if bool_decide (ty ≠ Some SnapName) then found else
      if bool_decide (decode_snap_name_key key = Some name) then Some (le_u64 value 0) else found
  end.

Section snapshot.
Context {R : Type} `{ReadSeek R}.

(** The block of a node: a root by address, another node through the object map. *)
Definition fetch_snap (omap : ObjectMap.t) (xid block_size : Z) (is_root : bool) (node_oid : Z) : M R bytes :=
  paddr ← (if is_root then mret node_oid
           else entry ← resolve omap node_oid xid block_size; mret (OmapEntry.paddr entry));
  let offset := saturating_mul paddr block_size in
  buf ← read_at offset block_size;
  if cksum_ok buf then mret buf else throw (checksum_error paddr buf).

Section descend.
Context (omap : ObjectMap.t) (xid block_size : Z) {S : Type} (visit : S → bytes → bytes → S).

(** [budget] is [MAX_SNAP_TREE_DEPTH - depth]. *)
Fixpoint descend_snap (budget : nat) (is_root : bool) (node_oid : Z) (st : gset Z * S) : M R (gset Z * S) :=
  match budget with
  | O => throw (CycleGuard MAX_SNAP_TREE_DEPTH)
  | Datatypes.S budget' =>
      let '(visited, s) := st in
      if decide (node_oid ∈ visited) then throw (CycleGuard MAX_SNAP_TREE_DEPTH) else
      let visited := {[node_oid]} ∪ visited in
      buf ← fetch_snap omap xid block_size is_root node_oid;
      match parse_node_header buf with
      | None => mret (visited, s)
      | Some hdr =>
          if is_leaf hdr
          then mret (visited, visit_all visit (node_entries buf FsTree) s)
          else
            let children := (λ e, le_u64 (value e) 0) <$> node_entries buf FsTree in
            foldM (descend_snap budget' false) children (visited, s)
      end
  end.
End descend.

Definition for_each_snap_record {S} (volume : ApfsVolume.t) (block_size : Z) (visit : S → bytes → bytes → S) (s : S) : M R S :=
  omap ← read_omap volume block_size;
  st ← descend_snap omap (ApfsVolume.xid volume) block_size visit
         (Z.to_nat MAX_SNAP_TREE_DEPTH) true (ApfsVolume.snap_meta_tree_oid volume) (∅, s);
  mret st.2.

Definition list_snapshots (volume : ApfsVolume.t) (block_size : Z) : M R (list Snapshot.t) :=
  out ← for_each_snap_record volume block_size snapshots_visit [];
  mret (sort_by_key Snapshot.xid out).

Definition resolve_snapshot_xid (volume : ApfsVolume.t) (name : bytes) (block_size : Z) : M R (option Z) :=
  for_each_snap_record volume block_size (snap_name_visit name) None.

Definition mount_snapshot (live_volume : ApfsVolume.t) (snapshot : Snapshot.t) (block_size : Z) : M R ApfsVolume.t :=
  let offset := saturating_mul (Snapshot.sblock_oid snapshot) block_size in
  buf ← read_at offset block_size;
  v ← lift (ApfsVolume.parse buf);
  mret (ApfsVolume.with_omap_oid v (ApfsVolume.omap_oid live_volume)).
End snapshot.

Definition snap_meta_tree_subtype : Z := OBJECT_SUBTYPE_SNAPMETATREE.

(** ** Writing snapshot records: the builders of the test module *)
Definition snap_jkey (ty id : Z) : bytes := to_le_bytes 8 (jkey ty id).

Definition snap_meta_val (sblock create : Z) (name : bytes) : bytes :=
  let name_b := name ++ [x00] in
  fold_left put
    [ (OFF_SNAP_SBLOCK_OID, to_le_bytes 8 sblock); (OFF_SNAP_CREATE_TIME, to_le_bytes 8 create);
      (OFF_SNAP_NAME_LEN, to_le_bytes 2 (zlen name_b)) ] (zeroed OFF_SNAP_NAME) ++ name_b.

Definition snap_name_key (name : bytes) : bytes :=
  let name_b := name ++ [x00] in
  snap_jkey 11 0 ++ to_le_bytes 2 (zlen name_b) ++ name_b.

(** ** Specification *)

(** The snapshots among the records of the tree, and the transaction a name names. *)
Definition snapshots_of (records : list Entry) : list Snapshot.t :=
  (λ e, parse_snap_metadata (key_oid (key e)) (value e)) <$>
    filter (λ e, (record_key (key e)).2 = Some SnapMetadata) records.

Definition snapshot_named (records : list Entry) (name : bytes) : option Z :=
  (λ e, le_u64 (value e) 0) <$>
    head (filter (λ e, (record_key (key e)).2 = Some SnapName ∧ decode_snap_name_key (key e) = Some name) records).

(** The fetch of the walk of [Walk.v] that [descend_snap] is: only the root's own id is a
    block address. *)
Definition fetch_snap_node {R} `{ReadSeek R} (om : ObjectMap.t) (xid bs root p : Z) : M R (option bytes) :=
  buf ← fetch_snap om xid bs (bool_decide (p = root)) p; mret (Some buf).

(** A well-formed snapshot-metadata tree of a volume on the source. *)
Record snap_tree {R} `{ReadSeek R} (volume : ApfsVolume.t) (bs : Z) (r : R) (om : ObjectMap.t) (t : tree) : Prop := {
  st_omap : eval (read_omap volume bs) r = Ok om;
  st_root : tree_id t = ApfsVolume.snap_meta_tree_oid volume;
  st_stored : stored (fetch_snap_node om (ApfsVolume.xid volume) bs (ApfsVolume.snap_meta_tree_oid volume))
    all_children FsTree r t;
  st_shape : well_shaped (Z.to_nat MAX_SNAP_TREE_DEPTH) t;
}.

(** ** The walk as an instance *)
Section walk_lemmas.
Context {R : Type} `{LawfulReader R}.

Lemma Stable_fetch_snap om xid bs is_root p : Stable (fetch_snap (R := R) om xid bs is_root p).
Proof. unfold fetch_snap. solve_stable. Qed.
#[local] Hint Resolve Stable_fetch_snap : stable.

#[export] Instance Stable_fetch_snap_node om xid bs root p : Stable (fetch_snap_node (R := R) om xid bs root p).
Proof. unfold fetch_snap_node. solve_stable. Qed.

Lemma Stable_descend_snap om xid bs {S} (visit : S → bytes → bytes → S) n is_root p st :
  Stable (descend_snap (R := R) om xid bs visit n is_root p st).
Proof.
  revert is_root p st. induction n as [|n IH]; intros is_root p st; cbn [descend_snap]; solve_stable.
Qed.
#[local] Hint Resolve Stable_descend_snap : stable.

(** Below the root, whose id is visited, and at the root itself. *)
Lemma descend_snap_walk om xid bs root {S} (visit : S → bytes → bytes → S) n p st r :
  let is_root := bool_decide (p = root) in
  is_root = true ∨ root ∈ st.1 →
  descend_snap om xid bs visit n (if decide (root ∈ st.1) then false else is_root) p st r =
  walk (fetch_snap_node om xid bs root) MAX_SNAP_TREE_DEPTH all_children FsTree visit n p st r.
Proof.
  cbv zeta. revert p st r. induction n as [|n IH]; intros p [visited s] r Hroot; [done|]. cbn [descend_snap walk].
  destruct (decide (p ∈ visited)) as [|Hp]; [done|]. simpl in Hroot. cbn [fst].
  assert (Hflag : (if decide (root ∈ visited) then false else bool_decide (p = root)) = bool_decide (p = root)).
  { destruct (decide (root ∈ visited)); [|done]. symmetry. apply bool_decide_false. by intros ->. }
  rewrite Hflag.
  change (fetch_snap_node om xid bs root p)
    with (fetch_snap (R := R) om xid bs (bool_decide (p = root)) p ≫= λ buf, mret (Some buf)).
  rewrite M_bind_assoc. apply M_bind_ext; [done|]. intros buf r'.
  cbv [mbind M_bind mret M_ret]. destruct (parse_node_header buf) as [hdr|]; [|done].
  destruct (is_leaf hdr); [done|]. unfold children, all_children. rewrite keep_all by done.
  assert (Hin : root ∈ {[p]} ∪ visited).
  { destruct Hroot as [->%bool_decide_eq_true_1|?]; set_solver. }
  apply (foldM_ext_inv (λ st : gset Z * S, root ∈ st.1)); [| |done].
  - intros x st r1 Hst. rewrite <- IH by auto. by rewrite decide_True.
  - intros x st r1 st' r2 Hst E. by eapply walk_visited_grows.
Qed.

Lemma Stable_for_each_snap_record {S} v bs (visit : S → bytes → bytes → S) s :
  Stable (for_each_snap_record (R := R) v bs visit s).
Proof. unfold for_each_snap_record. solve_stable. Qed.
#[local] Hint Resolve Stable_for_each_snap_record : stable.

Lemma Stable_list_snapshots v bs : Stable (list_snapshots (R := R) v bs).
Proof. unfold list_snapshots. solve_stable. Qed.

Lemma Stable_mount_snapshot v s bs : Stable (mount_snapshot (R := R) v s bs).
Proof. unfold mount_snapshot. solve_stable. Qed.
End walk_lemmas.
#[export] Hint Resolve Stable_for_each_snap_record Stable_list_snapshots Stable_mount_snapshot : stable.

Section safe.
Context {R : Type} `{ReadSeek R}.

Lemma Safe_for_each_snap_record {S} v bs (visit : S → bytes → bytes → S) s :
  Safe (for_each_snap_record (R := R) v bs visit s).
Proof.
  unfold for_each_snap_record. apply Safe_bind; [unfold read_omap; solve_safe|]. intros om.
  apply Safe_bind; [|solve_safe].
  assert (Hf : ∀ b p, Safe (fetch_snap (R := R) om (ApfsVolume.xid v) bs b p)) by (unfold fetch_snap; solve_safe).
  generalize (∅ : gset Z, s) true (ApfsVolume.snap_meta_tree_oid v).
  induction (Z.to_nat MAX_SNAP_TREE_DEPTH) as [|n IH]; intros st b p; cbn [descend_snap]; solve_safe.
Qed.

Lemma Safe_mount_snapshot v s bs : Safe (mount_snapshot (R := R) v s bs).
Proof. unfold mount_snapshot. solve_safe. Qed.
End safe.
#[export] Hint Resolve Safe_for_each_snap_record Safe_mount_snapshot : safe.

(** ** What the callbacks collect *)

Lemma snapshots_visit_all es out : visit_all snapshots_visit es out = out ++ snapshots_of es.
Proof.
  revert out. induction es as [|e es IH]; intros out; [by rewrite app_nil_r|].
  rewrite visit_all_cons, IH. unfold snapshots_of, snapshots_visit. rewrite filter_cons.
  unfold key_oid, record_key. destruct (decode_jkey (le_u64 (key e) 0)) as [x ty] eqn:E. cbn [snd].
  destruct (decide (ty = Some SnapMetadata)) as [->|Hne].
  - rewrite bool_decide_true by done. rewrite fmap_cons, E, <- app_assoc. done.
  - by rewrite bool_decide_false.
Qed.

Lemma snap_name_visit_all name es found :
  visit_all (snap_name_visit name) es found =
    match found with Some _ => found | None => snapshot_named es name end.
Proof.
  revert found. induction es as [|e es IH]; intros found; [by destruct found|].
  rewrite visit_all_cons, IH. destruct found as [x|]; [done|]. unfold snapshot_named, snap_name_visit.
  rewrite filter_cons. unfold record_key. destruct (decode_jkey (le_u64 (key e) 0)) as [x ty]. cbn [snd].
  destruct (decide (ty = Some SnapName)) as [->|Hne].
  - rewrite bool_decide_false by (intros Hn; by apply Hn).
    case_bool_decide as Hk; [by rewrite decide_True|]. by rewrite decide_False by tauto.
  - rewrite bool_decide_true by done. by rewrite decide_False by tauto.
Qed.

(** ** Properties *)
Section properties.
Context {R : Type} `{LawfulReader R}.
Context (volume : ApfsVolume.t) (bs : Z) (r : R) (om : ObjectMap.t) (t : tree).

Lemma for_each_snap_record_walk {S} (visit : S → bytes → bytes → S) s :
  eval (read_omap volume bs) r = Ok om →
  let root := ApfsVolume.snap_meta_tree_oid volume in
  eval (for_each_snap_record volume bs visit s) r =
    (st ← eval (walk (fetch_snap_node om (ApfsVolume.xid volume) bs root) MAX_SNAP_TREE_DEPTH all_children FsTree visit
            (Z.to_nat MAX_SNAP_TREE_DEPTH) root (∅, s)) r;
     Ok st.2).
Proof.
  intros Hom root. unfold for_each_snap_record. fold root.
  rewrite eval_bind; [|solve_stable|intros; apply Stable_bind; [apply Stable_descend_snap|solve_stable]].
  rewrite Hom, bind_Ok, eval_bind; [|apply Stable_descend_snap|solve_stable].
  pose proof (descend_snap_walk om (ApfsVolume.xid volume) bs root visit (Z.to_nat MAX_SNAP_TREE_DEPTH)
    root (∅, s) r) as Hw. cbv zeta in Hw. rewrite decide_False, bool_decide_true in Hw by (done || set_solver).
  by rewrite (eval_ext _ _ _ (Hw (or_introl eq_refl))).
Qed.

Lemma for_each_snap_record_eval {S} (visit : S → bytes → bytes → S) s :
  snap_tree volume bs r om t →
  eval (for_each_snap_record volume bs visit s) r = Ok (visit_all visit (entries t) s).
Proof.
  intros [Hom Hroot Hst Hsh]. rewrite for_each_snap_record_walk by done. rewrite <- Hroot in *.
  destruct (walk_stored (fetch_snap_node om (ApfsVolume.xid volume) bs (tree_id t)) MAX_SNAP_TREE_DEPTH all_children
    FsTree visit t (Z.to_nat MAX_SNAP_TREE_DEPTH) ∅ s r) as (v & E & _); [exact Hst|exact Hsh|set_solver|].
  by rewrite E, bind_Ok.
Qed.

Lemma list_snapshots_eval : snap_tree volume bs r om t →
  eval (list_snapshots volume bs) r = Ok (sort_by_key Snapshot.xid (snapshots_of (entries t))).
Proof.
  intros Ht. unfold list_snapshots. rewrite eval_bind by solve_stable.
  by rewrite (for_each_snap_record_eval _ _ Ht), bind_Ok, snapshots_visit_all.
Qed.

(** C13 Snapshots are enumerated completely: on a well-formed snapshot-metadata tree (root
    by address, other nodes virtual), [list_snapshots] returns exactly the snapshots of
    its metadata records, ordered by transaction, and [resolve_snapshot_xid] the
    transaction of the first name record of that name. *)
Theorem snapshots_complete :
  snap_tree volume bs r om t →
  (∃ snaps, eval (list_snapshots volume bs) r = Ok snaps ∧ snaps ≡ₚ snapshots_of (entries t) ∧
    StronglySorted (key_le Snapshot.xid) snaps) ∧
  (∀ name, eval (resolve_snapshot_xid volume name bs) r = Ok (snapshot_named (entries t) name)).
Proof.
  intros Ht. split.
  - rewrite (list_snapshots_eval Ht). eexists. split; [done|]. split; [apply sort_by_key_perm|apply sort_by_key_sorted].
  - intros name. unfold resolve_snapshot_xid. by rewrite (for_each_snap_record_eval _ _ Ht), snap_name_visit_all.
Qed.

(** Mounting a snapshot grafts the live object map: the mounted volume has the root
    tree, the transaction and the name of the superblock frozen at the snapshot, which
    has passed its gates, and the object map of the live volume. *)
Theorem mount_snapshot_grafts live snapshot v :
  eval (mount_snapshot live snapshot bs) r = Ok v →
  ∃ block frozen,
    eval (read_at (saturating_mul (Snapshot.sblock_oid snapshot) bs) bs) r = Ok block ∧
    ApfsVolume.parse block = Ok frozen ∧ cksum_ok block = true ∧ le_u32 block 32 = APFS_MAGIC ∧
    ApfsVolume.omap_oid v = ApfsVolume.omap_oid live ∧
    ApfsVolume.root_tree_oid v = ApfsVolume.root_tree_oid frozen ∧
    ApfsVolume.xid v = ApfsVolume.xid frozen ∧ ApfsVolume.name v = ApfsVolume.name frozen ∧
    eval (read_omap v bs) r = eval (read_omap live bs) r.
Proof.
  unfold mount_snapshot. rewrite eval_bind by solve_stable. intros (block & Hb & E)%outcome_bind_Ok.
  rewrite eval_bind in E by solve_stable. rewrite eval_lift in E. apply outcome_bind_Ok in E as (frozen & Hf & E).
  injection E as <-. pose proof (volume_parse_gates _ _ Hf) as (_ & Hm & Hc).
  exists block, frozen. split_and!; try done.
Qed.

(** C39 One visited set holds the root's block number and the other nodes' virtual ids.
    So a tree whose root block is an index node with a child whose virtual id happens
    to be the root's block number is never listed, although the object map resolves
    that id to another block: [list_snapshots] gives no listing. *)
Theorem snap_root_collision_rejected buf hdr :
  let root := ApfsVolume.snap_meta_tree_oid volume in
  eval (read_omap volume bs) r = Ok om →
  eval (fetch_snap om (ApfsVolume.xid volume) bs true root) r = Ok buf →
  parse_node_header buf = Some hdr → is_leaf hdr = false →
  root ∈ (λ e, le_u64 (value e) 0) <$> node_entries buf FsTree →
  ∀ snaps, eval (list_snapshots volume bs) r ≠ Ok snaps.
Proof.
  intros root Hom Hbuf Hp Hl Hin snaps. unfold list_snapshots. rewrite eval_bind by solve_stable.
  rewrite for_each_snap_record_walk by done. fold root. intros E.
  apply outcome_bind_Ok in E as (out & E & _). apply outcome_bind_Ok in E as ([v s] & E & _).
  apply walk_unfolds in E as (t' & Hid & Hst & [Hnd _] & _); [|intros; apply Stable_fetch_snap_node].
  assert (Hf : eval (fetch_snap_node om (ApfsVolume.xid volume) bs root root) r = Ok (Some buf)).
  { unfold fetch_snap_node. rewrite bool_decide_true by done.
    rewrite eval_bind; [by rewrite Hbuf|apply Stable_fetch_snap|solve_stable]. }
  destruct t' as [id|id es|id kids]; simpl in Hid; subst id.
  - apply stored_hole_inv in Hst as (node & Hn & [->|(b & -> & Hb)]); congruence.
  - apply stored_leaf_inv in Hst as (b & h & Hn & Hb & Hlf & _). congruence.
  - apply stored_index_inv in Hst as (b & h & Hn & Hb & Hlf & Hc & Hk).
    assert (b = buf) as -> by congruence. simpl in Hnd. apply NoDup_cons in Hnd as [Hnot _]. apply Hnot.
    apply list_elem_of_fmap in Hin as (e & He & Hin).
    assert (He' : e ∈ kids.*1).
    { rewrite <- Hc. unfold children, all_children. by rewrite keep_all. }
    apply list_elem_of_fmap in He' as ([e' k] & -> & Hkin).
    rewrite Forall_forall in Hk. destruct (Hk _ Hkin) as [Hkid _]. simpl in *.
    apply list_elem_of_In, in_concat. exists (ids k). split.
    + apply in_map_iff. exists (e', k). split; [done|]. by apply list_elem_of_In.
    + apply list_elem_of_In. rewrite He. fold (child_id e'). rewrite <- Hkid. apply tree_id_in_ids.
Qed.
End properties.

(** C29 A snapshot's view does not move: two states of the source whose object maps agree
    on every mapping up to the snapshot's transaction resolve every object alike at that
    transaction, whatever later transactions added, so the walk of a mounted snapshot
    reads the same blocks. *)
Theorem snapshot_view_is_stable {R} `{LawfulReader R} om om' bs (r r' : R) t t' xid :
  omap_tree bs r t → tree_id t = ObjectMap.tree_oid om →
  omap_tree bs r' t' → tree_id t' = ObjectMap.tree_oid om' →
  filter (λ e, le_u64 (key e) 8 <= xid) (entries t) ≡ₚ filter (λ e, le_u64 (key e) 8 <= xid) (entries t') →
  ∀ oid, eval (resolve om oid xid bs) r = eval (resolve om' oid xid bs) r'.
Proof.
  intros Ht Hid Ht' Hid' Hsame oid.
  rewrite (resolve_landing _ _ _ _ _ _ Ht Hid), (resolve_landing _ _ _ _ _ _ Ht' Hid'). f_equal.
  pose proof (newest_of_spec oid xid (entries t)) as Hn. pose proof (newest_of_spec oid xid (entries t')) as Hn'.
  assert (Hcand : ∀ e, candidate oid xid e → e ∈ entries t ↔ e ∈ entries t').
  { intros e [_ Hx]. transitivity (e ∈ filter (λ e, le_u64 (key e) 8 <= xid) (entries t)).
    - rewrite list_elem_of_filter. tauto.
    - rewrite Hsame, list_elem_of_filter. tauto. }
  destruct (visit_all _ (entries t) None) as [b|], (visit_all _ (entries t') None) as [b'|].
  - destruct Hn as (e & (Hin & Hc & Hmax) & ->), Hn' as (e' & (Hin' & Hc' & Hmax') & ->).
    rewrite (newest_unique oid xid (entries t') e e'); [done|by destruct Ht'| |done].
    split; [by apply Hcand|]. split; [done|]. intros e0 He0 Hc0. apply Hmax; [by apply Hcand|done].
  - destruct Hn as (e & (Hin & Hc & _) & _). rewrite Forall_forall in Hn'.
    exfalso. apply (Hn' e); [by apply Hcand|done].
  - destruct Hn' as (e & (Hin & Hc & _) & _). rewrite Forall_forall in Hn.
    exfalso. apply (Hn e); [by apply Hcand|done].
  - done.
Qed.

(** A NUL-terminated name after a prefix of known length. *)
Lemma get_range_name data n name off :
  Z.of_nat n = off → drop n data = name ++ [x00] →
  get_range data off (off + (zlen name + 1)) = Some (name ++ [x00]).
Proof.
  intros <- Hd. pose proof (zlen_nonneg name). pose proof (f_equal length Hd) as Hl.
  rewrite length_drop, length_app in Hl. simpl in Hl. apply get_range_Some. unfold zlen in *. split; [lia|].
  rewrite Nat2Z.id, Hd. rewrite firstn_all2; [done|]. rewrite length_app. simpl. lia.
Qed.

(** Snapshot records are read back as they are written: a metadata record gives its
    transaction, its times and its superblock, with its name, and a name key gives its
    name, for every name of at most 4095 bytes without a NUL. *)
Theorem snap_record_roundtrip xid sblock create name :
  0 <= xid < 2 ^ 60 → in_u64 sblock → in_u64 create →
  is_utf8 name = true → x00 ∉ name → zlen name < MAX_SNAP_NAME_LEN →
  snapshots_of [ {| key := snap_jkey 1 xid; value := snap_meta_val sblock create name |} ]
    = [Snapshot.mk xid name create 0 sblock 0 0 0] ∧
  decode_snap_name_key (snap_name_key name) = Some name ∧
  record_key (snap_name_key name) = (0, Some SnapName).
Proof.
  intros Hx Hs Hc Hu Hn Hl.
  assert (Hv : snap_meta_val sblock create name =
    to_le_bytes 8 0 ++ to_le_bytes 8 sblock ++ to_le_bytes 8 create ++ to_le_bytes 8 0 ++ to_le_bytes 8 0 ++
    to_le_bytes 4 0 ++ to_le_bytes 4 0 ++ to_le_bytes 2 (zlen (name ++ [x00])) ++ name ++ [x00]) by reflexivity.
  pose proof (zlen_nonneg name). unfold MAX_SNAP_NAME_LEN in Hl.
  assert (Hlen : zlen (name ++ [x00]) = zlen name + 1) by (autorewrite with bufs; unfold zlen; simpl; lia).
  assert (Hkey : ∀ ty id rest, 0 <= id < 2 ^ 60 →
    record_key (snap_jkey (RecordType.to_u4 ty) id ++ rest) = (id, Some ty)).
  { intros ty id rest Hid. unfold record_key, snap_jkey, le_u64.
    rewrite le_read_here; [by apply decode_jkey_jkey|]. rewrite jkey_sum by (try done; by destruct ty).
    destruct ty; simpl; lia. }
  split_and!.
  - unfold snapshots_of. rewrite filter_cons. cbn [key value].
    pose proof (Hkey SnapMetadata xid [] Hx) as Hk. rewrite app_nil_r in Hk. cbn [RecordType.to_u4] in Hk.
    rewrite Hk, decide_True by done. cbn [fmap list_fmap map filter list_filter key value]. unfold key_oid. rewrite Hk. cbn [fst].
    rewrite Hv, Hlen. set (val := to_le_bytes 8 0 ++ _).
    assert (Hname : get_range val 50 (50 + (zlen name + 1)) = Some (name ++ [x00]))
      by (apply (get_range_name _ 50); reflexivity).
    assert (Hf : le_u16 val 48 = zlen name + 1 ∧ le_u64 val 16 = create ∧ le_u64 val 24 = 0 ∧
      le_u64 val 8 = sblock ∧ le_u64 val 0 = 0 ∧ le_u64 val 32 = 0 ∧ le_u32 val 44 = 0)
      by (unfold val; split_and!; read_field; done || lia).
    destruct Hf as (Hf1 & Hf2 & Hf3 & Hf4 & Hf5 & Hf6 & Hf7).
    unfold parse_snap_metadata, OFF_SNAP_NAME_LEN, OFF_SNAP_NAME, OFF_SNAP_EXTENTREF_TREE_OID, OFF_SNAP_SBLOCK_OID,
      OFF_SNAP_CREATE_TIME, OFF_SNAP_CHANGE_TIME, OFF_SNAP_INUM, OFF_SNAP_FLAGS, MAX_SNAP_NAME_LEN.
    rewrite Hf1, Z.min_l, Hname, Hf2, Hf3, Hf4, Hf5, Hf6, Hf7 by lia. by rewrite decode_cstr_nul.
  - unfold decode_snap_name_key, snap_name_key. rewrite Hlen. set (k := snap_jkey _ _ ++ _).
    assert (Hnl : le_u16 k OFF_SNAP_NAME_KEY_LEN = zlen name + 1) by (unfold k, snap_jkey, OFF_SNAP_NAME_KEY_LEN; read_field; lia).
    rewrite Hnl, Z.min_l by (unfold MAX_SNAP_NAME_LEN; lia). rewrite (proj2 (Z.eqb_neq _ _)) by lia.
    rewrite (get_range_name k (Z.to_nat OFF_SNAP_NAME_KEY_NAME)) by reflexivity.
    cbn [fmap option_fmap option_map]. by rewrite decode_cstr_nul.
  - apply (Hkey SnapName 0). lia.
Qed.

(** ** Witnesses: a volume whose snapshot tree has a root by address and one virtual leaf *)
Definition snap_volume : ApfsVolume.t :=
  ApfsVolume.mk 1026 7 0 0 0 0 2 0 100 0 2 (zeroed 16) 0 (str "Data").

Definition snap_records : list Entry :=
  [ {| key := snap_jkey 1 5; value := snap_meta_val 4 1000 (str "snapA") |};
    {| key := snap_jkey 1 3; value := snap_meta_val 4 2000 (str "snapB") |};
    {| key := snap_name_key (str "snapA"); value := to_le_bytes 8 5 |} ].

(** The leaf's virtual id, and so its name in the index and in the object map. *)
Definition snap_image (leaf_oid : Z) : bytes :=
  image 1024
    [ (0, omap_block 1024 0 1); (1, omap_leaf 1024 1 [(leaf_oid, 7, 3)]);
      (2, btree_node 1024 2 7 false [ {| key := snap_jkey 1 3; value := to_le_bytes 8 leaf_oid |} ]);
      (3, btree_node 1024 leaf_oid 7 true snap_records);
      (4, apsb 1024 1026 5 0 1030 0 (str "Data")) ].

Definition snap_demo_tree : tree :=
  Index 2 [({| key := snap_jkey 1 3; value := to_le_bytes 8 1500 |}, Leaf 1500 snap_records)].

Lemma snap_demo_ok : snap_tree snap_volume 1024 (cursor (snap_image 1500)) demo_fs_om snap_demo_tree.
Proof.
  assert (Hl : load (fetch_snap_node demo_fs_om 7 1024 2) all_children FsTree (cursor (snap_image 1500)) 3 2
    = Some snap_demo_tree) by (vm_compute; reflexivity).
  apply load_stored in Hl as [_ Hst]. split; [by vm_compute|done|done|].
  split; [apply (bool_decide_unpack _); vm_compute; exact I|vm_compute; lia].
Qed.

Lemma snapshots_complete_witness :
  eval (resolve_snapshot_xid snap_volume (str "snapA") 1024) (cursor (snap_image 1500)) = Ok (Some 5) ∧
  (∃ snaps, eval (list_snapshots snap_volume 1024) (cursor (snap_image 1500)) = Ok snaps ∧
    snaps ≡ₚ snapshots_of snap_records) ∧
  eval (list_snapshots snap_volume 1024) (cursor (snap_image 1500)) =
    Ok [Snapshot.mk 3 (str "snapB") 2000 0 4 0 0 0; Snapshot.mk 5 (str "snapA") 1000 0 4 0 0 0].
Proof.
  destruct (snapshots_complete snap_volume 1024 (cursor (snap_image 1500)) demo_fs_om snap_demo_tree snap_demo_ok)
    as [(snaps & Hs & Hp & _) Hn].
  split; [rewrite Hn; vm_compute; reflexivity|]. split; [|vm_compute; reflexivity].
  exists snaps. split; [exact Hs|]. etrans; [exact Hp|]. by vm_compute.
Defined.

Lemma mount_snapshot_grafts_witness :
  ∃ v, eval (mount_snapshot snap_volume (Snapshot.mk 5 (str "snapA") 1000 0 4 0 0 0) 1024) (cursor (snap_image 1500)) = Ok v ∧
    ApfsVolume.omap_oid v = 0 ∧ ApfsVolume.xid v = 5 ∧ ApfsVolume.root_tree_oid v = 1030.
Proof.
  assert (Hm : ∃ v, eval (mount_snapshot snap_volume (Snapshot.mk 5 (str "snapA") 1000 0 4 0 0 0) 1024)
    (cursor (snap_image 1500)) = Ok v ∧ ApfsVolume.xid v = 5 ∧ ApfsVolume.root_tree_oid v = 1030)
    by (eexists; split; [vm_compute; reflexivity|split; reflexivity]).
  destruct Hm as (v & Hm & Hx & Hr). exists v. split; [exact Hm|].
  destruct (mount_snapshot_grafts 1024 (cursor (snap_image 1500)) snap_volume
    (Snapshot.mk 5 (str "snapA") 1000 0 4 0 0 0) v Hm) as (b & f & _ & _ & _ & _ & Ho & _).
  split; [exact Ho|]. split; [exact Hx|exact Hr].
Defined.

(** The object map resolves id 2 to block 3, but block 2 is the root. *)
Lemma snap_root_collision_rejected_witness :
  eval (resolve demo_fs_om 2 7 1024) (cursor (snap_image 2)) = Ok (OmapEntry.mk 2 7 3 0 0) ∧
  ∀ snaps, eval (list_snapshots snap_volume 1024) (cursor (snap_image 2)) ≠ Ok snaps.
Proof.
  split; [vm_compute; reflexivity|].
  assert (Hb : ∃ buf hdr, eval (fetch_snap demo_fs_om 7 1024 true 2) (cursor (snap_image 2)) = Ok buf ∧
    parse_node_header buf = Some hdr ∧ is_leaf hdr = false ∧
    (λ e, le_u64 (value e) 0) <$> node_entries buf FsTree = [2])
    by (eexists _, _; split; [vm_compute; reflexivity|split; [vm_compute; reflexivity|split; vm_compute; reflexivity]]).
  destruct Hb as (buf & hdr & Hb & Hp & Hl & Hc).
  apply (snap_root_collision_rejected snap_volume 1024 (cursor (snap_image 2)) demo_fs_om buf hdr);
    [vm_compute; reflexivity|exact Hb|exact Hp|exact Hl|rewrite Hc; apply list_elem_of_singleton; reflexivity].
Defined.

Lemma snap_record_roundtrip_witness :
  snapshots_of [ {| key := snap_jkey 1 5; value := snap_meta_val 4 1000 (str "snapA") |} ]
    = [Snapshot.mk 5 (str "snapA") 1000 0 4 0 0 0].
Proof.
  apply (snap_record_roundtrip 5 4 1000 (str "snapA")); [done|done|done|by vm_compute| |done].
  apply (bool_decide_unpack _). vm_compute. exact I.
Defined.

Definition one_mapping_omap : bytes := image 256 [(0, omap_leaf 256 0 [(5, 1, 100)])].
Definition two_mappings_omap : bytes := image 256 [(0, omap_leaf 256 0 [(5, 1, 100); (5, 9, 200)])].

(** A leaf that is the whole object map. *)
Lemma leaf_omap_ok data es :
  load (λ p, read_verified_node p 256) all_children Omap (cursor data) 1 0 = Some (Leaf 0 es) →
  StronglySorted omap_lt ((λ e, decode_omap_key (key e)) <$> es) → omap_tree 256 (cursor data) (Leaf 0 es).
Proof.
  intros Hl Hs. apply load_stored in Hl as [_ Hst]. split; [exact Hst| |constructor|exact Hs].
  split; [apply NoDup_singleton|vm_compute; lia].
Qed.

Lemma snapshot_view_is_stable_witness :
  eval (resolve demo_om 5 3 256) (cursor one_mapping_omap) = eval (resolve demo_om 5 3 256) (cursor two_mappings_omap) ∧
  eval (resolve demo_om 5 9 256) (cursor one_mapping_omap) ≠ eval (resolve demo_om 5 9 256) (cursor two_mappings_omap).
Proof.
  split; [|vm_compute; intros ?; discriminate].
  set (e1 := {| key := omap_key 5 1; value := zeroed 8 ++ to_le_bytes 8 100 |}).
  set (e2 := {| key := omap_key 5 9; value := zeroed 8 ++ to_le_bytes 8 200 |}).
  apply (snapshot_view_is_stable demo_om demo_om 256 (cursor one_mapping_omap) (cursor two_mappings_omap)
    (Leaf 0 [e1]) (Leaf 0 [e1; e2]) 3); [|reflexivity| |reflexivity|reflexivity];
    (apply leaf_omap_ok; [vm_compute; reflexivity|repeat constructor]).
Defined.
