(* ===== verification/Spaceman.v ===== *)
(** * The space manager ([src/src/spaceman.rs])

    [is_block_free] follows the space manager to the chunk-info block of a block's
    chunk, and reads the block's bit in the chunk's bitmap.  The specification is the
    allocation of the container as a predicate on block numbers, and what it means for
    a source to store it. *)
From S2P Require Import Prelude Bytes Reader Object Build.

Definition SM_BLOCKS_PER_CHUNK : Z := 36.
Definition SM_CHUNKS_PER_CIB : Z := 40.
Definition SM_DEV0 : Z := 48.
Definition DEV_BLOCK_COUNT : Z := 0.
Definition DEV_CHUNK_COUNT : Z := 8.
Definition DEV_CIB_COUNT : Z := 16.
Definition DEV_CAB_COUNT : Z := 20.
Definition DEV_ADDR_OFFSET : Z := 32.
Definition CIB_CHUNK_INFO_COUNT : Z := 36.
Definition CIB_CHUNK_INFO : Z := 40.
Definition CHUNK_INFO_LEN : Z := 32.
Definition CI_BITMAP_ADDR : Z := 24.

(** [bitmap.get(bit / 8).is_some_and(|byte| byte & (1 << (bit % 8)) != 0)]. *)
Definition bitmap_bit (bitmap : bytes) (bit : Z) : bool :=
  match get bitmap (bit / 8) with
  | Some b => negb (Z.land (byte_val b) (Z.shiftl 1 (bit `mod` 8)) =? 0)
  | None => false
  end.

Section spaceman.
Context {R : Type} `{ReadSeek R}.

Definition read_obj_block (paddr block_size : Z) : M R bytes :=
  buf ← read_at (saturating_mul paddr block_size) block_size;
  let stored := fletcher64_stored buf in
  let computed := fletcher64_checksum buf in
  if negb (stored =? computed) then throw (ChecksumMismatch (le_u64 buf 8) stored computed)
  else mret buf.

Definition sm_range (field : string) (value cap : Z) : ApfsError :=
  FieldOutOfRange "spaceman_phys" field value cap.

Definition is_block_free (spaceman_paddr block block_size : Z) : M R bool :=
  sm ← read_obj_block spaceman_paddr block_size;
  let blocks_per_chunk := le_u32 sm SM_BLOCKS_PER_CHUNK in
  let chunks_per_cib := le_u32 sm SM_CHUNKS_PER_CIB in
  let block_count := le_u64 sm (SM_DEV0 + DEV_BLOCK_COUNT) in
  let chunk_count := le_u64 sm (SM_DEV0 + DEV_CHUNK_COUNT) in
  let cib_count := le_u32 sm (SM_DEV0 + DEV_CIB_COUNT) in
  let cab_count := le_u32 sm (SM_DEV0 + DEV_CAB_COUNT) in
  let addr_offset := le_u32 sm (SM_DEV0 + DEV_ADDR_OFFSET) in
  if (blocks_per_chunk =? 0) || (chunks_per_cib =? 0)
  then throw (sm_range "sm_blocks_per_chunk/sm_chunks_per_cib" 0 1) else
  if block_count <=? block then throw (sm_range "block" block block_count) else
  if negb (cab_count =? 0) then throw (UnsupportedSpacemanCab cab_count) else
  chunk_index ← lift (div_u64 block blocks_per_chunk);
  if chunk_count <=? chunk_index then throw (sm_range "chunk_index" chunk_index chunk_count) else
  cib_idx ← lift (div_u64 chunk_index chunks_per_cib);
  let within_cib := chunk_index `mod` chunks_per_cib in
  if cib_count <=? cib_idx then throw (sm_range "cib_index" cib_idx cib_count) else
  slot ← lift (add_u64 addr_offset (cib_idx * 8));
  let cib_paddr := le_u64 sm slot in
  cib ← read_obj_block cib_paddr block_size;
  let ci_count := le_u32 cib CIB_CHUNK_INFO_COUNT in
  if ci_count <=? within_cib then throw (sm_range "chunk_info_index" within_cib ci_count) else
  let ci_off := CIB_CHUNK_INFO + within_cib * CHUNK_INFO_LEN in
  let bitmap_addr := le_u64 cib (ci_off + CI_BITMAP_ADDR) in
  if bitmap_addr =? 0 then mret true else
  bitmap ← read_at (saturating_mul bitmap_addr block_size) block_size;
  let bit := block `mod` blocks_per_chunk in
  mret (negb (bitmap_bit bitmap bit)).
End spaceman.

(** ** Specification *)

(** The geometry a space-manager block states for the main device. *)
Record geometry := {
  per_chunk : Z; per_cib : Z; blocks : Z; chunks : Z; cibs : Z; cabs : Z; addresses : Z;
}.
Definition sm_geometry (sm : bytes) : geometry :=
  {| per_chunk := le_u32 sm 36; per_cib := le_u32 sm 40; blocks := le_u64 sm 48; chunks := le_u64 sm 56;
     cibs := le_u32 sm 64; cabs := le_u32 sm 68; addresses := le_u32 sm 80 |}.

(** The device is covered by its chunks, the chunks by the chunk-info blocks, and a
    chunk by one bitmap block. *)
Definition geometry_ok (bs : Z) (g : geometry) : Prop :=
  0 < per_chunk g ∧ 0 < per_cib g ∧ cabs g = 0 ∧
  blocks g <= chunks g * per_chunk g ∧ chunks g <= cibs g * per_cib g ∧ per_chunk g <= 8 * bs.

(** Bit [i] of a byte string, least significant bit first. *)
Definition bit_at (bitmap : bytes) (i : Z) : bool :=
  Z.testbit (match get bitmap (i / 8) with Some b => byte_val b | None => 0 end) (i `mod` 8).

(** [chunk_stored]: the source stores the allocation of the chunk's blocks. *)
Definition chunk_stored {R} `{ReadSeek R} (bs : Z) (r : R) (sm : bytes) (allocated : Z → bool) (chunk : Z) : Prop :=
  let g := sm_geometry sm in
  ∃ cib, eval (read_obj_block (le_u64 sm (addresses g + chunk / per_cib g * 8)) bs) r = Ok cib ∧
    chunk `mod` per_cib g < le_u32 cib 36 ∧
    let bitmap_addr := le_u64 cib (40 + chunk `mod` per_cib g * 32 + 24) in
    (bitmap_addr = 0 ∧ ∀ i, 0 <= i < per_chunk g → allocated (chunk * per_chunk g + i) = false) ∨
    (bitmap_addr ≠ 0 ∧ ∃ bitmap, eval (read_at (saturating_mul bitmap_addr bs) bs) r = Ok bitmap ∧
      ∀ i, 0 <= i < per_chunk g → allocated (chunk * per_chunk g + i) = bit_at bitmap i).

Record allocation_stored {R} `{ReadSeek R} (bs : Z) (r : R) (sm_paddr : Z) (sm : bytes) (allocated : Z → bool) : Prop := {
  as_block : eval (read_obj_block sm_paddr bs) r = Ok sm;
  as_geometry : geometry_ok bs (sm_geometry sm);
  as_chunks : ∀ chunk, 0 <= chunk < chunks (sm_geometry sm) → chunk_stored bs r sm allocated chunk;
}.

(** ** Lemmas *)

(** The mask test is the bit of the value. *)
Lemma land_bit v i : 0 <= i → negb (Z.land v (Z.shiftl 1 i) =? 0) = Z.testbit v i.
Proof.
  intros Hi. rewrite Z.shiftl_1_l. destruct (Z.testbit v i) eqn:E.
  - assert (Hn : Z.land v (2 ^ i) ≠ 0); [|by rewrite (proj2 (Z.eqb_neq _ _))].
    intros Hz. apply (f_equal (λ x, Z.testbit x i)) in Hz.
    by rewrite Z.land_spec, E, Z.pow2_bits_true, Z.bits_0 in Hz by lia.
  - assert (Hz : Z.land v (2 ^ i) = 0); [|by rewrite Hz].
    apply Z.bits_inj'. intros n Hn. rewrite Z.land_spec, Z.bits_0.
    destruct (decide (i = n)) as [->|Hne]; [by rewrite E|]. by rewrite Z.pow2_bits_false, andb_false_r.
Qed.

Lemma bitmap_bit_spec bitmap i : 0 <= i → bitmap_bit bitmap i = bit_at bitmap i.
Proof.
  intros Hi. unfold bitmap_bit, bit_at. pose proof (Z.mod_pos_bound i 8 ltac:(done)).
  destruct (get bitmap (i / 8)); [apply land_bit; lia|by rewrite Z.bits_0].
Qed.

Lemma Stable_read_obj_block {R} `{LawfulReader R} paddr bs : Stable (read_obj_block (R := R) paddr bs).
Proof. unfold read_obj_block. solve_stable. Qed.
#[export] Hint Resolve Stable_read_obj_block : stable.

Lemma Stable_is_block_free {R} `{LawfulReader R} sm b bs : Stable (is_block_free (R := R) sm b bs).
Proof. unfold is_block_free. solve_stable. Qed.
#[export] Hint Resolve Stable_is_block_free : stable.

Lemma Safe_read_obj_block {R} `{ReadSeek R} paddr bs : Safe (read_obj_block (R := R) paddr bs).
Proof. unfold read_obj_block. solve_safe. Qed.
#[export] Hint Resolve Safe_read_obj_block : safe.

(** A block that [read_obj_block] returns is the source's, and its checksum holds. *)
Lemma read_obj_block_Ok {R} `{LawfulReader R} paddr bs (r : R) buf :
  eval (read_obj_block paddr bs) r = Ok buf ↔
  eval (read_at (saturating_mul paddr bs) bs) r = Ok buf ∧ cksum_ok buf = true.
Proof.
  unfold read_obj_block, cksum_ok. rewrite eval_bind by solve_stable. rewrite outcome_bind_Ok.
  split.
  - intros (b & Hb & E). destruct (_ =? _) eqn:Hc; [|done]. by injection E as <-.
  - intros [Hb Hc]. exists buf. by rewrite Hc.
Qed.

(** ** Properties *)
Section properties.
Context {R : Type} `{LawfulReader R}.
Context (bs : Z) (r : R).

(** The computation after the space-manager block is read, with the guards in order. *)
Lemma is_block_free_guards sm_paddr block sm :
  eval (read_obj_block sm_paddr bs) r = Ok sm →
  let g := sm_geometry sm in
  let chunk := block / per_chunk g in
  eval (is_block_free sm_paddr block bs) r =
    if (per_chunk g =? 0) || (per_cib g =? 0) then Err (sm_range "sm_blocks_per_chunk/sm_chunks_per_cib" 0 1)
    else if blocks g <=? block then Err (sm_range "block" block (blocks g))
    else if negb (cabs g =? 0) then Err (UnsupportedSpacemanCab (cabs g))
    else if chunks g <=? chunk then Err (sm_range "chunk_index" chunk (chunks g))
    else if cibs g <=? chunk / per_cib g then Err (sm_range "cib_index" (chunk / per_cib g) (cibs g))
    else
      cib ← eval (read_obj_block (le_u64 sm (addresses g + chunk / per_cib g * 8)) bs) r;
      let within := chunk `mod` per_cib g in
      if le_u32 cib 36 <=? within then Err (sm_range "chunk_info_index" within (le_u32 cib 36)) else
      let bitmap_addr := le_u64 cib (40 + within * 32 + 24) in
      if bitmap_addr =? 0 then Ok true else
      bitmap ← eval (read_at (saturating_mul bitmap_addr bs) bs) r;
      Ok (negb (bitmap_bit bitmap (block `mod` per_chunk g))).
Proof.
  intros Hsm g chunk. unfold is_block_free. rewrite eval_bind by solve_stable. rewrite Hsm, bind_Ok.
  change (le_u32 sm SM_BLOCKS_PER_CHUNK) with (per_chunk g). change (le_u32 sm SM_CHUNKS_PER_CIB) with (per_cib g).
  change (le_u64 sm (SM_DEV0 + DEV_BLOCK_COUNT)) with (blocks g).
  change (le_u64 sm (SM_DEV0 + DEV_CHUNK_COUNT)) with (chunks g).
  change (le_u32 sm (SM_DEV0 + DEV_CIB_COUNT)) with (cibs g). change (le_u32 sm (SM_DEV0 + DEV_CAB_COUNT)) with (cabs g).
  change (le_u32 sm (SM_DEV0 + DEV_ADDR_OFFSET)) with (addresses g).
  assert (Hr : in_u32 (per_chunk g) ∧ in_u32 (per_cib g) ∧ in_u32 (cibs g) ∧ in_u32 (addresses g))
    by (split_and!; apply le_u32_range).
  destruct (per_chunk g =? 0) eqn:E1; [done|]. destruct (per_cib g =? 0) eqn:E2; [done|]. cbn [orb].
  destruct (blocks g <=? block); [done|]. destruct (negb (cabs g =? 0)); [done|].
  rewrite eval_bind by solve_stable. rewrite eval_lift, div_u64_Ok, bind_Ok by lia. fold chunk.
  destruct (chunks g <=? chunk); [done|].
  rewrite eval_bind by solve_stable. rewrite eval_lift, div_u64_Ok, bind_Ok by lia.
  destruct (cibs g <=? chunk / per_cib g) eqn:E3; [done|].
  rewrite eval_bind by solve_stable. rewrite eval_lift, add_u64_Ok, bind_Ok by urange.
  rewrite eval_bind by solve_stable.
  clear Hsm. destruct (eval (read_obj_block _ _) r) as [cib|e|]; [|done..]. rewrite !bind_Ok.
  unfold CIB_CHUNK_INFO_COUNT, CIB_CHUNK_INFO, CHUNK_INFO_LEN, CI_BITMAP_ADDR.
  destruct (le_u32 cib 36 <=? chunk `mod` per_cib g); [done|].
  destruct (le_u64 cib _ =? 0); [done|]. by rewrite eval_bind by solve_stable.
Qed.

(** C14 Free means free: on a space manager whose geometry covers the device,
    [is_block_free] answers the negation of the allocation the source stores, for every
    block of the device, and refuses every other block. *)
Theorem is_block_free_exact sm_paddr sm allocated block :
  allocation_stored bs r sm_paddr sm allocated → 0 <= block →
  eval (is_block_free sm_paddr block bs) r =
    if block <? blocks (sm_geometry sm) then Ok (negb (allocated block))
    else Err (FieldOutOfRange "spaceman_phys" "block" block (blocks (sm_geometry sm))).
Proof.
  intros [Hsm (Hpc & Hpi & Hcab & Hb & Hc & Hfit) Hchunks] Hpos. rewrite (is_block_free_guards _ _ _ Hsm).
  set (g := sm_geometry sm) in *. cbv zeta.
  rewrite (proj2 (Z.eqb_neq (per_chunk g) 0)), (proj2 (Z.eqb_neq (per_cib g) 0)) by lia. cbn [orb].
  destruct (blocks g <=? block) eqn:E1; [by replace (block <? blocks g) with false by lia|].
  replace (block <? blocks g) with true by lia. rewrite Hcab. cbn [negb Z.eqb].
  pose proof (Z.div_mod block (per_chunk g) ltac:(lia)) as Hdm.
  pose proof (Z.mod_pos_bound block (per_chunk g) Hpc) as Hm.
  set (chunk := block / per_chunk g) in *. set (i := block `mod` per_chunk g) in *.
  assert (Hch : 0 <= chunk < chunks g) by (split; [by apply Z.div_pos|nia]).
  replace (chunks g <=? chunk) with false by lia.
  assert (Hci : chunk / per_cib g < cibs g) by (apply Z.div_lt_upper_bound; lia).
  replace (cibs g <=? chunk / per_cib g) with false by lia.
  destruct (Hchunks chunk Hch) as (cib & Hcib & Hin & Hbits). fold g in Hcib, Hin, Hbits.
  rewrite Hcib, bind_Ok. replace (le_u32 cib 36 <=? _) with false by lia. cbv zeta in Hbits.
  assert (Hblk : block = chunk * per_chunk g + i) by lia.
  destruct Hbits as [[-> Hfree]|[Hne (bitmap & Hbm & Hbits)]].
  - cbn [Z.eqb]. by rewrite Hblk, Hfree.
  - rewrite (proj2 (Z.eqb_neq _ _) Hne), Hbm, bind_Ok, bitmap_bit_spec by lia. by rewrite Hblk, Hbits.
Qed.

(** C40 The chunk size is not checked against the bitmap's: when a chunk has more blocks
    than its bitmap block has bits, a block whose bit would lie past the bitmap is
    reported free whatever the container says, without an error. *)
Theorem past_bitmap_reported_free sm_paddr sm block cib bitmap :
  let g := sm_geometry sm in
  let chunk := block / per_chunk g in
  eval (read_obj_block sm_paddr bs) r = Ok sm →
  0 < per_chunk g → 0 < per_cib g → cabs g = 0 → 0 <= block < blocks g →
  chunk < chunks g → chunk / per_cib g < cibs g →
  eval (read_obj_block (le_u64 sm (addresses g + chunk / per_cib g * 8)) bs) r = Ok cib →
  chunk `mod` per_cib g < le_u32 cib 36 →
  eval (read_at (saturating_mul (le_u64 cib (40 + chunk `mod` per_cib g * 32 + 24)) bs) bs) r = Ok bitmap →
  0 <= bs → 8 * bs <= block `mod` per_chunk g →
  eval (is_block_free sm_paddr block bs) r = Ok true.
Proof.
  intros g chunk Hsm Hpc Hpi Hcab Hb Hch Hci Hcib Hin Hbm Hbs Hpast.
  rewrite (is_block_free_guards _ _ _ Hsm). fold g. fold chunk. cbv zeta.
  rewrite (proj2 (Z.eqb_neq (per_chunk g) 0)), (proj2 (Z.eqb_neq (per_cib g) 0)) by lia. cbn [orb].
  replace (blocks g <=? block) with false by lia. rewrite Hcab. cbn [negb Z.eqb].
  replace (chunks g <=? chunk) with false by lia. replace (cibs g <=? _) with false by lia.
  rewrite Hcib, bind_Ok. replace (le_u32 cib 36 <=? _) with false by lia. split_if; [done|].
  rewrite Hbm, bind_Ok. apply read_at_length in Hbm; [|done]. unfold bitmap_bit, get.
  assert (bs <= block `mod` per_chunk g / 8) by (apply Z.div_le_lower_bound; lia).
  replace (0 <=? _) with true by lia. rewrite lookup_ge_None_2; [done|]. unfold zlen in Hbm. lia.
Qed.
End properties.

(** The query never panics: its divisors are checked, and its address sum fits. *)
Lemma Safe_is_block_free {R} `{LawfulReader R} sm b bs : Safe (is_block_free (R := R) sm b bs).
Proof.
  intros r. destruct (eval (read_obj_block sm bs) r) as [buf|e|] eqn:Hsm.
  - rewrite (is_block_free_guards _ _ _ _ _ Hsm). cbv zeta. repeat (split_if; [done|]). clear Hsm.
    destruct (eval (read_obj_block _ _) r) as [cib|e|] eqn:Hc; [|done|by apply Safe_read_obj_block in Hc].
    rewrite bind_Ok. repeat (split_if; [done|]).
    destruct (eval (read_at _ _) r) as [bm|e|] eqn:Hb; [done|done|by apply Safe_read_at in Hb].
  - unfold is_block_free. rewrite eval_bind by solve_stable. by rewrite Hsm.
  - by apply Safe_read_obj_block in Hsm.
Qed.
#[export] Hint Resolve Safe_is_block_free : safe.

(** ** Witnesses: a device of 60 blocks in four chunks, over two chunk-info blocks *)
Definition spaceman_block (bs oid : Z) (g : geometry) (cib_addrs : list Z) : bytes :=
  obj_block bs oid 1 0x80000005 0
    ([ (36, to_le_bytes 4 (per_chunk g)); (40, to_le_bytes 4 (per_cib g)); (48, to_le_bytes 8 (blocks g));
       (56, to_le_bytes 8 (chunks g)); (64, to_le_bytes 4 (cibs g)); (68, to_le_bytes 4 (cabs g));
       (80, to_le_bytes 4 (addresses g)) ] ++
     imap (λ i a, (addresses g + Z.of_nat i * 8, to_le_bytes 8 a)) cib_addrs).

Definition cib_block (bs oid : Z) (bitmap_addrs : list Z) : bytes :=
  obj_block bs oid 1 0x40000007 0
    ((36, to_le_bytes 4 (zlen bitmap_addrs)) ::
     imap (λ i a, (40 + Z.of_nat i * 32 + 24, to_le_bytes 8 a)) bitmap_addrs).

Definition demo_geometry : geometry :=
  {| per_chunk := 16; per_cib := 2; blocks := 60; chunks := 4; cibs := 2; cabs := 0; addresses := 96 |}.
Definition demo_sm : bytes := spaceman_block 256 1 demo_geometry [2; 3].
Definition demo_bitmap_a : bytes := [xff; x01] ++ zeroed 254.
Definition demo_bitmap_b : bytes := [x00; x80] ++ zeroed 254.
Definition demo_device : bytes :=
  image 256 [ (1, demo_sm); (2, cib_block 256 2 [4; 0]); (3, cib_block 256 3 [5; 4]);
              (4, demo_bitmap_a); (5, demo_bitmap_b) ].

Definition demo_allocated (b : Z) : bool :=
  match b / 16 with
  | 0 | 3 => bit_at demo_bitmap_a (b `mod` 16)
  | 2 => bit_at demo_bitmap_b (b `mod` 16)
  | _ => false
  end.

Lemma demo_allocated_chunk c i : 0 <= i < 16 →
  demo_allocated (c * 16 + i) =
    match c with 0 | 3 => bit_at demo_bitmap_a i | 2 => bit_at demo_bitmap_b i | _ => false end.
Proof.
  intros Hi. unfold demo_allocated. rewrite Z.div_add_l, Z.div_small, Z.add_0_r by lia.
  by rewrite Z.add_comm, Z.mod_add, Z.mod_small by lia.
Qed.

Lemma demo_device_ok : allocation_stored 256 (cursor demo_device) 1 demo_sm demo_allocated.
Proof.
  split; [vm_compute; reflexivity|vm_compute; repeat split; done|].
  intros c Hc. assert (Hg : sm_geometry demo_sm = demo_geometry) by (vm_compute; reflexivity).
  unfold chunk_stored. rewrite Hg in *. cbn [chunks per_cib per_chunk addresses demo_geometry] in *.
  assert (c = 0 ∨ c = 1 ∨ c = 2 ∨ c = 3) as [->|[->|[->| ->]]] by lia;
    (eexists; split; [vm_compute; reflexivity|]; split; [vm_compute; reflexivity|]).
  - right. split; [vm_compute; discriminate|]. exists demo_bitmap_a. split; [vm_compute; reflexivity|].
    intros i Hi. by rewrite demo_allocated_chunk.
  - left. split; [vm_compute; reflexivity|]. intros i Hi. by rewrite demo_allocated_chunk.
  - right. split; [vm_compute; discriminate|]. exists demo_bitmap_b. split; [vm_compute; reflexivity|].
    intros i Hi. by rewrite demo_allocated_chunk.
  - right. split; [vm_compute; discriminate|]. exists demo_bitmap_a. split; [vm_compute; reflexivity|].
    intros i Hi. by rewrite demo_allocated_chunk.
Qed.

Lemma is_block_free_exact_witness :
  eval (is_block_free 1 8 256) (cursor demo_device) = Ok false ∧
  eval (is_block_free 1 9 256) (cursor demo_device) = Ok true ∧
  eval (is_block_free 1 47 256) (cursor demo_device) = Ok false ∧
  eval (is_block_free 1 60 256) (cursor demo_device) = Err (FieldOutOfRange "spaceman_phys" "block" 60 60).
Proof.
  pose proof (λ b, is_block_free_exact 256 (cursor demo_device) 1 demo_sm demo_allocated b demo_device_ok) as Hf.
  split_and!; (rewrite Hf; [vm_compute; reflexivity|lia]).
Defined.

(** The same chunks said to have 4096 blocks each: block 3000 is past the bitmap. *)
Definition wide_sm : bytes :=
  spaceman_block 256 1
    {| per_chunk := 4096; per_cib := 2; blocks := 4096; chunks := 1; cibs := 1; cabs := 0; addresses := 96 |} [2].
Definition wide_device : bytes :=
  image 256 [ (1, wide_sm); (2, cib_block 256 2 [4]); (4, replicate 256 xff) ].

Lemma past_bitmap_reported_free_witness :
  eval (is_block_free 1 2000 256) (cursor wide_device) = Ok false ∧
  eval (is_block_free 1 3000 256) (cursor wide_device) = Ok true.
Proof.
  split; [vm_compute; reflexivity|].
  apply (past_bitmap_reported_free 256 (cursor wide_device) 1 wide_sm 3000 (cib_block 256 2 [4]) (replicate 256 xff));
    first [vm_compute; reflexivity|split; vm_compute; [intros ?; discriminate|reflexivity]|vm_compute; intros ?; discriminate].
Defined.
