(* ===== verification/Reaper.v ===== *)
(** * The reaper ([src/src/reaper.rs])

    [pending_objects] lists the object being reaped and the entries of the chain of reap
    lists, whose links are ephemeral ids resolved through the checkpoint's mappings.  The
    specification is the chain itself, a finite path without repetition; the theorem says
    that the walk returns exactly on such a chain, and what it then returns. *)
From S2P Require Import Prelude Bytes Reader Object Build Checkpoint Spaceman.

Definition NR_HEAD : Z := 48.
Definition NR_TYPE : Z := 72.
Definition NR_OID : Z := 88.
Definition NRL_NEXT : Z := 32.
Definition NRL_COUNT : Z := 48.
Definition NRL_ENTRIES : Z := 64.
Definition NRLE_LEN : Z := 40.
Definition NRLE_TYPE : Z := 8.
Definition NRLE_OID : Z := 24.
Definition MAX_REAP_LISTS : Z := 4096.

Module ReapPending.
Record t := mk { oid : Z; obj_type : Z }.
End ReapPending.

(** [mappings.iter().find(|m| m.oid == oid).map(|m| m.paddr)]. *)
Definition find_mapping (mappings : list CheckpointMapping.t) (oid : Z) : option Z :=
  CheckpointMapping.paddr <$> (snd <$> list_find (λ m, CheckpointMapping.oid m = oid) mappings).

(** The object whose reaping is in progress. *)
Definition in_progress (reaper : bytes) : list ReapPending.t :=
  let nr_oid := le_u64 reaper NR_OID in
  if negb (nr_oid =? 0) then [ReapPending.mk nr_oid (le_u32 reaper NR_TYPE)] else [].

(** The body of the loop over the entries of a list block. *)
Definition push_entry (block : bytes) (i : Z) (out : list ReapPending.t) : list ReapPending.t :=
  let e := NRL_ENTRIES + i * NRLE_LEN in
  let oid := le_u64 block (e + NRLE_OID) in
  if negb (oid =? 0) then out ++ [ReapPending.mk oid (le_u32 block (e + NRLE_TYPE))] else out.

Definition entry_count (block : bytes) (max_entries : Z) : Z := Z.min (le_u32 block NRL_COUNT) max_entries.

Section reaper.
Context {R : Type} `{ReadSeek R}.

Section chain.
Context (mappings : list CheckpointMapping.t) (block_size max_entries : Z).

(** The [while] loop.  [budget] is [MAX_REAP_LISTS - seen.len()]: with none left, an
    insertion either repeats an id or makes the set too large. *)
Fixpoint reap_lists (budget : nat) (seen : gset Z) (next_oid : Z) (out : list ReapPending.t) :
    M R (list ReapPending.t) :=
  if next_oid =? 0 then mret out else
  match budget with
  | O => throw (CycleGuard MAX_REAP_LISTS)
  | S budget' =>
      if decide (next_oid ∈ seen) then throw (CycleGuard MAX_REAP_LISTS) else
      let seen := {[next_oid]} ∪ seen in
      paddr ← lift (ok_or (OmapUnresolved next_oid 0) (find_mapping mappings next_oid));
      block ← read_obj_block paddr block_size;
      let out := fold_left (λ out i, push_entry block i out) (seqZ 0 (entry_count block max_entries)) out in
      reap_lists budget' seen (le_u64 block NRL_NEXT) out
  end.
End chain.

Definition pending_objects (reaper_paddr : Z) (mappings : list CheckpointMapping.t) (block_size : Z) :
    M R (list ReapPending.t) :=
  reaper ← read_obj_block reaper_paddr block_size;
  let max_entries := saturating_sub block_size NRL_ENTRIES / NRLE_LEN in
  reap_lists mappings block_size max_entries (Z.to_nat MAX_REAP_LISTS) ∅ (le_u64 reaper NR_HEAD)
    (in_progress reaper).
End reaper.

(** ** Specification *)

(** The queued objects of a list block: its entries inside the block with an id. *)
Definition list_pending (bs : Z) (block : bytes) : list ReapPending.t :=
  let entry i := ReapPending.mk (le_u64 block (64 + i * 40 + 24)) (le_u32 block (64 + i * 40 + 8)) in
  filter (λ p, ReapPending.oid p ≠ 0) (entry <$> seqZ 0 (Z.min (le_u32 block 48) (Z.max 0 (bs - 64) / 40))).

(** The chain from an id: each link mapped, its block checksummed, until the id zero. *)
Inductive reap_chain {R} `{ReadSeek R} (mappings : list CheckpointMapping.t) (bs : Z) (r : R) :
    Z → list Z → list bytes → Prop :=
  | chain_end : reap_chain mappings bs r 0 [] []
  | chain_link oid paddr block oids blocks :
      oid ≠ 0 → find_mapping mappings oid = Some paddr →
      eval (read_obj_block paddr bs) r = Ok block →
      reap_chain mappings bs r (le_u64 block NRL_NEXT) oids blocks →
      reap_chain mappings bs r oid (oid :: oids) (block :: blocks).

(** ** Lemmas *)

Lemma find_mapping_Some mappings oid paddr :
  find_mapping mappings oid = Some paddr →
  ∃ m, m ∈ mappings ∧ CheckpointMapping.oid m = oid ∧ CheckpointMapping.paddr m = paddr.
Proof.
  unfold find_mapping. destruct (list_find _ _) as [[i m]|] eqn:E; [|done]. intros [= <-].
  apply list_find_Some in E as (Hm & Ho & _). exists m. split; [by eapply list_elem_of_lookup_2|done].
Qed.

Lemma push_entries block n out :
  fold_left (λ out i, push_entry block i out) (seqZ 0 n) out =
  out ++ filter (λ p, ReapPending.oid p ≠ 0)
    ((λ i, ReapPending.mk (le_u64 block (64 + i * 40 + 24)) (le_u32 block (64 + i * 40 + 8))) <$> seqZ 0 n).
Proof.
  generalize (seqZ 0 n). intros l. revert out. induction l as [|i l IH]; intros out; [by rewrite app_nil_r|].
  cbn [fold_left]. rewrite IH, fmap_cons, filter_cons. unfold push_entry, NRL_ENTRIES, NRLE_LEN, NRLE_OID, NRLE_TYPE.
  cbn [ReapPending.oid]. destruct (le_u64 block _ =? 0) eqn:E; cbn [negb].
  - rewrite decide_False; [done|]. lia.
  - rewrite decide_True by lia. by rewrite <- app_assoc.
Qed.

Lemma loop_entries bs block out :
  fold_left (λ out i, push_entry block i out)
    (seqZ 0 (entry_count block (saturating_sub bs NRL_ENTRIES / NRLE_LEN))) out = out ++ list_pending bs block.
Proof. apply push_entries. Qed.

Lemma Stable_reap_lists {R} `{LawfulReader R} mappings bs n k seen oid out :
  Stable (reap_lists (R := R) mappings bs n k seen oid out).
Proof. revert seen oid out. induction k as [|k IH]; intros seen oid out; cbn [reap_lists]; solve_stable. Qed.
#[export] Hint Resolve Stable_reap_lists : stable.

Lemma Safe_pending_objects {R} `{ReadSeek R} paddr mappings bs :
  Safe (pending_objects (R := R) paddr mappings bs).
Proof.
  unfold pending_objects. apply Safe_bind; [apply Safe_read_obj_block|]. intros reaper.
  generalize (∅ : gset Z) (le_u64 reaper NR_HEAD) (in_progress reaper).
  induction (Z.to_nat MAX_REAP_LISTS) as [|k IH]; intros seen oid out; cbn [reap_lists]; solve_safe.
Qed.
#[export] Hint Resolve Safe_pending_objects : safe.

Section properties.
Context {R : Type} `{LawfulReader R}.
Context (mappings : list CheckpointMapping.t) (bs : Z) (r : R).

Lemma chain_nonzero oid oids blocks : reap_chain mappings bs r oid oids blocks → Forall (λ x, x ≠ 0) oids.
Proof. induction 1; auto. Qed.

Lemma reap_lists_Ok k seen oid out result :
  eval (reap_lists mappings bs (saturating_sub bs NRL_ENTRIES / NRLE_LEN) k seen oid out) r = Ok result ↔
  ∃ oids blocks, reap_chain mappings bs r oid oids blocks ∧ NoDup oids ∧ (∀ x, x ∈ oids → x ∉ seen) ∧
    (length oids ≤ k)%nat ∧ result = out ++ concat (map (list_pending bs) blocks).
Proof.
  revert seen oid out. induction k as [|k IH]; intros seen oid out; cbn [reap_lists].
  - destruct (oid =? 0) eqn:E.
    + apply Z.eqb_eq in E as ->. split.
      * intros [= <-]. exists [], []. split; [constructor|]. split; [constructor|]. split; [set_solver|].
        split; [done|]. by rewrite app_nil_r.
      * intros (oids & blocks & Hc & _ & _ & _ & ->). inversion Hc; subst; [by rewrite app_nil_r|done].
    + split; [done|]. intros (oids & blocks & Hc & _ & _ & Hl & _). inversion Hc; subst; simpl in *; lia.
  - destruct (oid =? 0) eqn:E.
    + apply Z.eqb_eq in E as ->. split.
      * intros [= <-]. exists [], []. split; [constructor|]. split; [constructor|]. split; [set_solver|].
        split; [simpl; lia|]. by rewrite app_nil_r.
      * intros (oids & blocks & Hc & _ & _ & _ & ->). inversion Hc; subst; [by rewrite app_nil_r|done].
    + apply Z.eqb_neq in E. case_decide as Hseen.
      { split; [done|]. intros (oids & blocks & Hc & _ & Hf & _). inversion Hc; subst; [done|].
        exfalso. apply (Hf oid); [left|done]. }
      rewrite eval_bind by solve_stable. rewrite eval_lift.
      destruct (find_mapping mappings oid) as [paddr|] eqn:Hm; cbn [ok_or].
      2:{ split; [done|]. intros (oids & blocks & Hc & _). inversion Hc; subst; congruence. }
      rewrite bind_Ok, eval_bind by solve_stable.
      destruct (eval (read_obj_block paddr bs) r) as [block|e|] eqn:Hb.
      2,3: split; [done|]; intros (oids & blocks & Hc & _); inversion Hc; subst; congruence.
      rewrite bind_Ok, loop_entries, IH. split.
      * intros (oids & blocks & Hc & Hnd & Hf & Hl & ->). exists (oid :: oids), (block :: blocks).
        split; [by econstructor|]. split; [apply NoDup_cons; split; [|done]; intros Hin; apply (Hf oid Hin); set_solver|].
        split; [intros x [->|Hx]%elem_of_cons; [done|]; specialize (Hf x Hx); set_solver|].
        split; [simpl; lia|]. simpl. by rewrite <- app_assoc.
      * intros (oids & blocks & Hc & Hnd & Hf & Hl & ->). inversion Hc as [|? paddr' block' oids' blocks' _ Hm' Hb' Hc'];
          subst; [done|]. assert (paddr' = paddr) as -> by congruence. assert (block' = block) as -> by congruence.
        apply NoDup_cons in Hnd as [Hnot Hnd]. exists oids', blocks'. split; [done|]. split; [done|].
        split; [|split; [simpl in Hl; lia|simpl; by rewrite <- app_assoc]].
        intros x Hx [->%elem_of_singleton|Hs]%elem_of_union; [done|]. apply (Hf x); [by right|done].
Qed.

(** C24 The reaper's walk terminates and is complete: [pending_objects] returns a value
    exactly when the reap lists form a finite chain without repetition of at most 4096
    lists, all mapped and checksummed, and the value is the object in progress followed
    by the queued objects of the lists, in chain order.  On a longer or cyclic chain it
    gives an error, and it never panics. *)
Theorem pending_objects_complete reaper_paddr :
  (∀ result, eval (pending_objects reaper_paddr mappings bs) r = Ok result ↔
    ∃ reaper oids blocks,
      eval (read_obj_block reaper_paddr bs) r = Ok reaper ∧
      reap_chain mappings bs r (le_u64 reaper NR_HEAD) oids blocks ∧ NoDup oids ∧ zlen oids <= 4096 ∧
      result = in_progress reaper ++ concat (map (list_pending bs) blocks)) ∧
  eval (pending_objects reaper_paddr mappings bs) r ≠ Panic.
Proof.
  split; [|apply Safe_pending_objects]. intros result. unfold pending_objects. rewrite eval_bind by solve_stable.
  rewrite outcome_bind_Ok. setoid_rewrite reap_lists_Ok. unfold zlen, MAX_REAP_LISTS. split.
  - intros (reaper & Hr & oids & blocks & Hc & Hnd & _ & Hl & ->). exists reaper, oids, blocks.
    split_and!; try done. lia.
  - intros (reaper & oids & blocks & Hr & Hc & Hnd & Hl & ->). exists reaper. split; [done|].
    exists oids, blocks. split_and!; try done; lia.
Qed.
End properties.

(** ** Witnesses: a chain of two lists, and the same chain closed on itself *)
Definition reap_list_block (bs oid next : Z) (queued : list (Z * Z)) : bytes :=
  obj_block bs oid 1 0x80000012 0
    ([ (32, to_le_bytes 8 next); (48, to_le_bytes 4 (zlen queued)) ] ++
     concat (imap (λ i q, [ (64 + Z.of_nat i * 40 + 8, to_le_bytes 4 q.2);
                            (64 + Z.of_nat i * 40 + 24, to_le_bytes 8 q.1) ]) queued)).

Definition demo_reaper (last_next : Z) : bytes :=
  image 256
    [ (1, obj_block 256 1 1 0x80000011 0
            [ (48, to_le_bytes 8 500); (72, to_le_bytes 4 13); (88, to_le_bytes 8 1026) ]);
      (2, reap_list_block 256 500 501 [(1100, 2); (0, 3)]); (3, reap_list_block 256 501 last_next [(1200, 11)]) ].

Definition demo_mappings : list CheckpointMapping.t :=
  [CheckpointMapping.mk 500 2 0x80000012 0; CheckpointMapping.mk 501 3 0x80000012 0].

Lemma pending_objects_complete_witness :
  eval (pending_objects 1 demo_mappings 256) (cursor (demo_reaper 0))
    = Ok [ReapPending.mk 1026 13; ReapPending.mk 1100 2; ReapPending.mk 1200 11] ∧
  eval (pending_objects 1 demo_mappings 256) (cursor (demo_reaper 500)) = Err (CycleGuard 4096).
Proof.
  split; [|vm_compute; reflexivity].
  apply (proj1 (pending_objects_complete demo_mappings 256 (cursor (demo_reaper 0)) 1)).
  eexists _, [500; 501], _. split; [vm_compute; reflexivity|]. split; [|split; [|split]].
  - eapply chain_link; [done|reflexivity|vm_compute; reflexivity|].
    eapply chain_link; [vm_compute; intros ?; discriminate|vm_compute; reflexivity|vm_compute; reflexivity|].
    apply chain_end.
  - apply (bool_decide_unpack _). vm_compute. exact I.
  - vm_compute. intros ?. discriminate.
  - vm_compute. reflexivity.
Defined.
