(* ===== verification/Sealed.v ===== *)
(** * Sealed volumes ([src/src/sealed.rs])

    [IntegrityMeta.parse] reads the integrity metadata of a sealed volume: a length gate,
    then the checksum, then four fields.  Its hash trees are not read by the crate. *)
From S2P Require Import Prelude Bytes Reader Object Build.

Module IntegrityMeta.
Definition OFF_IM_VERSION : Z := 32.
Definition OFF_IM_FLAGS : Z := 36.
Definition OFF_IM_HASH_TYPE : Z := 40.
Definition OFF_IM_BROKEN_XID : Z := 48.
Definition INTEGRITY_META_MIN_LEN : Z := OFF_IM_BROKEN_XID + 8.

Record t := mk { version : Z; flags : Z; hash_type : Z; broken_xid : Z }.

Definition parse (block : bytes) : outcome t :=
  if zlen block <? INTEGRITY_META_MIN_LEN
  then Err (FieldOutOfRange "integrity_meta_phys" "block.len" (zlen block) INTEGRITY_META_MIN_LEN) else
  let stored := fletcher64_stored block in
  let computed := fletcher64_checksum block in
  if negb (stored =? computed) then Err (ChecksumMismatch (le_u64 block 8) stored computed) else
  Ok {| version := le_u32 block OFF_IM_VERSION; flags := le_u32 block OFF_IM_FLAGS;
        hash_type := le_u32 block OFF_IM_HASH_TYPE; broken_xid := le_u64 block OFF_IM_BROKEN_XID |}.

(** The block of some metadata, with [rest] after the fields. *)
Definition encode (oid xid : Z) (m : t) (rest : bytes) : bytes :=
  seal (zeroed 8 ++ to_le_bytes 8 oid ++ to_le_bytes 8 xid ++ to_le_bytes 4 0x1e ++ to_le_bytes 4 0 ++
        to_le_bytes 4 (version m) ++ to_le_bytes 4 (flags m) ++ to_le_bytes 4 (hash_type m) ++ zeroed 4 ++
        to_le_bytes 8 (broken_xid m) ++ rest).
End IntegrityMeta.
Import IntegrityMeta.

(** ** Lemmas *)

Lemma integrity_gates block m : parse block = Ok m → 56 <= zlen block ∧ cksum_ok block = true.
Proof.
  unfold parse, INTEGRITY_META_MIN_LEN, OFF_IM_BROKEN_XID, cksum_ok. destruct (zlen block <? _) eqn:E1; [done|].
  destruct (_ =? _); [|done]. intros _. split; [lia|done].
Qed.

(** ** Properties *)

(** Integrity metadata is believed only whole: [parse] is total, a block is accepted
    only with all its fields and a good checksum, a sealed encoding is read back as the
    metadata it encodes, and it is rejected after any change of one 32-bit word of its
    fields other than zeroes for ones. *)
Theorem integrity_meta_roundtrip oid xid m rest :
  in_u32 (version m) → in_u32 (flags m) → in_u32 (hash_type m) → in_u64 (broken_xid m) →
  parse (encode oid xid m rest) = Ok m ∧
  (∀ block, parse block ≠ Panic) ∧
  (∀ pre w w' post k m', encode oid xid m rest = pre ++ w ++ post →
    zlen pre = 4 * Z.of_nat k → (2 ≤ k)%nat → length w = 4%nat → length w' = 4%nat → w ≠ w' →
    ¬ (w = [x00; x00; x00; x00] ∧ w' = [xff; xff; xff; xff]) →
    ¬ (w = [xff; xff; xff; xff] ∧ w' = [x00; x00; x00; x00]) →
    parse (pre ++ w' ++ post) ≠ Ok m').
Proof.
  intros Hv Hf Hh Hb.
  set (body := zeroed 8 ++ to_le_bytes 8 oid ++ to_le_bytes 8 xid ++ to_le_bytes 4 0x1e ++ to_le_bytes 4 0 ++
    to_le_bytes 4 (version m) ++ to_le_bytes 4 (flags m) ++ to_le_bytes 4 (hash_type m) ++ zeroed 4 ++
    to_le_bytes 8 (broken_xid m) ++ rest).
  assert (Hl : zlen body = 56 + zlen rest) by (unfold body; autorewrite with bufs; rewrite ?zlen_to_le_bytes, ?zlen_zeroed by lia; lia).
  pose proof (zlen_nonneg rest). destruct (seal_cksum_ok body) as (Hck & Hlen & _); [lia|].
  fold body in Hck, Hlen. change (seal body) with (encode oid xid m rest) in Hck, Hlen.
  assert (Hp : parse (encode oid xid m rest) = Ok m).
  { unfold parse, INTEGRITY_META_MIN_LEN, OFF_IM_BROKEN_XID. rewrite (proj2 (Z.ltb_ge _ _)) by lia.
    unfold cksum_ok in Hck. rewrite Hck. cbn [negb].
    assert (He : ∃ c, encode oid xid m rest = to_le_bytes 8 c ++ drop 8 body) by (eexists; reflexivity).
    destruct He as [c ->]. unfold body, OFF_IM_VERSION, OFF_IM_FLAGS, OFF_IM_HASH_TYPE. rewrite drop_app_length'; [|done].
    f_equal. destruct m as [v fl h bx]. cbn [version flags hash_type broken_xid] in *.
    f_equal; read_field; done. }
  split; [done|]. split; [intros b; unfold parse; by repeat split_if|].
  intros pre w w' post k m' E Hpre Hk Hw Hw' Hne H01 H10 Hp'.
  apply integrity_gates in Hp' as [_ Hp']. rewrite E in Hck.
  apply (cksum_word_iff pre w w' post k Hpre Hk Hw Hw' Hck) in Hp'. naive_solver.
Qed.

Lemma integrity_meta_roundtrip_witness :
  parse (encode 1100 9 (mk 2 0 1 8) (zeroed 200)) = Ok (mk 2 0 1 8).
Proof. apply (integrity_meta_roundtrip 1100 9 (mk 2 0 1 8) (zeroed 200)); done. Defined.
