(* ===== verification/Keybag.v ===== *)
(** * Keybags ([src/src/encryption.rs])

    [read_keybag] walks the entries of a keybag locker and reports which tags it holds,
    without unwrapping a key.  The loop's two sums are on [usize]; the theorem shows that
    they fit for every buffer Rust can hold. *)
From S2P Require Import Prelude Bytes Reader Object Build.

Inductive KeybagTag :=
  | Unknown
  | WrappingKey
  | VolumeKey
  | VolumeUnlockRecords
  | VolumePassphraseHint
  | UserPayload.

#[export] Instance KeybagTag_eq_dec : EqDecision KeybagTag.
Proof. solve_decision. Defined.

Definition from_u16 (tag : Z) : KeybagTag :=
  match tag with
  | 0x01 => WrappingKey
  | 0x02 => VolumeKey
  | 0x03 => VolumeUnlockRecords
  | 0x04 => VolumePassphraseHint
  | 0xf8 => UserPayload
  | _ => Unknown
  end.

Module EncryptionState.
Record t := mk {
  encrypted : bool;
  tags_present : list KeybagTag;
  has_passphrase_hint : bool;
  unknown_tags : list (Z * Z);
}.
End EncryptionState.

Definition KL_NKEYS : Z := 2.
Definition KL_ENTRIES_OFF : Z := 16.
Definition KE_TAG : Z := 16.
Definition KE_KEYLEN : Z := 18.
Definition KE_HEADER_LEN : Z := 24.
Definition MAX_KEYBAG_ENTRIES : Z := 4096.

(** [if !tags_present.contains(&tag) { tags_present.push(tag) }]. *)
Definition push_tag (tag : KeybagTag) (tags_present : list KeybagTag) : list KeybagTag :=
  if decide (tag ∈ tags_present) then tags_present else tags_present ++ [tag].

(** The [for _ in 0..nkeys] loop, with its [break]. *)
Fixpoint keybag_loop (data : bytes) (n : nat) (off : Z) (tags_present : list KeybagTag) (unknown_tags : list (Z * Z)) :
    outcome (list KeybagTag * list (Z * Z)) :=
  match n with
  | O => Ok (tags_present, unknown_tags)
  | S n' =>
      header_end ← add_u64 off KE_HEADER_LEN;
      if zlen data <? header_end then Ok (tags_present, unknown_tags) else
      let raw_tag := le_u16 data (off + KE_TAG) in
      let tag := from_u16 raw_tag in
      let keylen := le_u16 data (off + KE_KEYLEN) in
      let unknown_tags := if bool_decide (tag = Unknown) then unknown_tags ++ [(raw_tag, off)] else unknown_tags in
      let tags_present := push_tag tag tags_present in
      let entry_len := Z.ldiff (KE_HEADER_LEN + keylen + 15) 15 in
      off ← add_u64 off (Z.max entry_len 16);
      keybag_loop data n' off tags_present unknown_tags
  end.

Definition read_keybag (data : bytes) : outcome EncryptionState.t :=
  let nkeys := Z.min (le_u16 data KL_NKEYS) MAX_KEYBAG_ENTRIES in
  '(tags_present, unknown_tags) ← keybag_loop data (Z.to_nat nkeys) KL_ENTRIES_OFF [] [];
  let has_passphrase_hint := bool_decide (VolumePassphraseHint ∈ tags_present) in
  let encrypted :=
    existsb (λ t, match t with WrappingKey | VolumeKey | VolumeUnlockRecords => true | _ => false end) tags_present in
  Ok {| EncryptionState.encrypted := encrypted;
        EncryptionState.tags_present := tags_present;
        EncryptionState.has_passphrase_hint := has_passphrase_hint;
        EncryptionState.unknown_tags := unknown_tags |}.

(** ** Specification: lockers *)

Record keybag_entry := { ke_uuid : bytes; ke_tag : Z; ke_key : bytes }.

(** The bytes an entry takes: its header and key, up to the next multiple of 16. *)
Definition entry_size (e : keybag_entry) : Z := (24 + zlen (ke_key e) + 15) / 16 * 16.

Definition entry_bytes (e : keybag_entry) : bytes :=
  ke_uuid e ++ to_le_bytes 2 (ke_tag e) ++ to_le_bytes 2 (zlen (ke_key e)) ++ zeroed 4 ++ ke_key e ++
  zeroed (entry_size e - (24 + zlen (ke_key e))).

Definition locker_bytes (es : list keybag_entry) (rest : bytes) : bytes :=
  to_le_bytes 2 2 ++ to_le_bytes 2 (zlen es) ++ zeroed 12 ++ concat (entry_bytes <$> es) ++ rest.

Definition entry_ok (e : keybag_entry) : Prop :=
  zlen (ke_uuid e) = 16 ∧ in_u16 (ke_tag e) ∧ in_u16 (zlen (ke_key e)).

(** The first occurrences of the tags, in order. *)
Definition tags_of (es : list keybag_entry) : list KeybagTag :=
  fold_left (λ l e, push_tag (from_u16 (ke_tag e)) l) es [].

(** The unrecognised tags with the offsets of their entries, from an offset on. *)
Fixpoint unknown_from (off : Z) (es : list keybag_entry) : list (Z * Z) :=
  match es with
  | [] => []
  | e :: es' =>
      (if bool_decide (from_u16 (ke_tag e) = Unknown) then [(ke_tag e, off)] else []) ++
      unknown_from (off + entry_size e) es'
  end.

(** ** Lemmas *)

Lemma clear_low4 x : 0 <= x → Z.ldiff x 15 = x / 16 * 16.
Proof.
  intros Hx. change 15 with (Z.ones 4). rewrite Z.ldiff_ones_r, Z.shiftr_div_pow2, Z.shiftl_mul_pow2 by lia. done.
Qed.

Lemma push_tag_elem t tag l : t ∈ push_tag tag l ↔ t = tag ∨ t ∈ l.
Proof. unfold push_tag. case_decide; set_solver. Qed.

Lemma push_tag_NoDup tag l : NoDup l → NoDup (push_tag tag l).
Proof.
  intros Hl. unfold push_tag. case_decide; [done|]. apply NoDup_app. split_and!; [done| |apply NoDup_singleton].
  set_solver.
Qed.

Lemma entry_size_bounds e : 24 + zlen (ke_key e) <= entry_size e < 24 + zlen (ke_key e) + 16.
Proof.
  unfold entry_size. pose proof (Z.div_mod (24 + zlen (ke_key e) + 15) 16 ltac:(done)).
  pose proof (Z.mod_pos_bound (24 + zlen (ke_key e) + 15) 16 ltac:(done)). lia.
Qed.

(** The sums of the loop fit as long as the offset stays within a turn of the buffer. *)
Lemma keybag_loop_no_panic data n off tags unk :
  zlen data < 2 ^ 63 → 0 <= off <= zlen data + 2 ^ 17 → keybag_loop data n off tags unk ≠ Panic.
Proof.
  intros Hd. revert off tags unk. induction n as [|n IH]; intros off tags unk Hoff; [done|].
  cbn [keybag_loop]. unfold KE_HEADER_LEN, KE_KEYLEN, KE_TAG.
  pose proof (le_u16_range data (off + 18)) as Hk. unfold in_u16 in Hk.
  rewrite (add_u64_Ok off 24), bind_Ok by urange. split_if; [done|].
  rewrite clear_low4 by lia. set (k := le_u16 data (off + 18)) in *.
  assert (Hs : (24 + k + 15) / 16 * 16 <= 24 + k + 15) by (pose proof (Z.div_mod (24 + k + 15) 16 ltac:(done));
    pose proof (Z.mod_pos_bound (24 + k + 15) 16 ltac:(done)); lia).
  rewrite add_u64_Ok, bind_Ok by urange. apply IH. lia.
Qed.

Lemma keybag_loop_no_err data n off tags unk e : keybag_loop data n off tags unk ≠ Err e.
Proof.
  revert off tags unk. induction n as [|n IH]; intros off tags unk; [done|]. cbn [keybag_loop].
  apply bind_no_err; [apply add_u64_no_err|]. intros h. destruct (zlen data <? h); [done|].
  apply bind_no_err; [apply add_u64_no_err|]. intros o. apply IH.
Qed.

Lemma keybag_loop_locker pre es rest tags unk :
  Forall entry_ok es → zlen (pre ++ concat (entry_bytes <$> es) ++ rest) < 2 ^ 63 →
  keybag_loop (pre ++ concat (entry_bytes <$> es) ++ rest) (length es) (zlen pre) tags unk =
  Ok (fold_left (λ l e, push_tag (from_u16 (ke_tag e)) l) es tags, unk ++ unknown_from (zlen pre) es).
Proof.
  intros Hes. revert pre tags unk. induction Hes as [|e es (Hu & Ht & Hk) Hes IH]; intros pre tags unk Hl.
  { cbn [length keybag_loop]. by rewrite app_nil_r. }
  rewrite fmap_cons in Hl |- *. cbn [concat length keybag_loop fold_left unknown_from] in Hl |- *.
  rewrite <- app_assoc in Hl |- *. pose proof (entry_size_bounds e) as Hsz.
  pose proof (zlen_nonneg pre). pose proof (zlen_nonneg (ke_key e)). pose proof (zlen_nonneg rest).
  pose proof (zlen_nonneg (concat (entry_bytes <$> es))).
  assert (Hlen : zlen (entry_bytes e) = entry_size e) by (unfold entry_bytes; autorewrite with bufs; rewrite ?zlen_to_le_bytes, ?zlen_zeroed by lia; lia).
  set (tail := concat (entry_bytes <$> es) ++ rest) in *.
  assert (Htag : le_u16 (pre ++ entry_bytes e ++ tail) (zlen pre + KE_TAG) = ke_tag e).
  { unfold KE_TAG, le_u16, entry_bytes. rewrite le_read_app_r by lia. rewrite <- !app_assoc. read_field. done. }
  assert (Hkey : le_u16 (pre ++ entry_bytes e ++ tail) (zlen pre + KE_KEYLEN) = zlen (ke_key e)).
  { unfold KE_KEYLEN, le_u16, entry_bytes. rewrite le_read_app_r by lia. rewrite <- !app_assoc. read_field. done. }
  rewrite Htag, Hkey. unfold KE_HEADER_LEN. rewrite !zlen_app in Hl. unfold tail in Hl. rewrite zlen_app in Hl.
  rewrite (add_u64_Ok _ 24), bind_Ok by urange.
  replace (zlen (pre ++ entry_bytes e ++ tail) <? zlen pre + 24) with false
    by (rewrite !zlen_app; unfold tail; rewrite zlen_app; lia).
  rewrite clear_low4 by lia. fold (entry_size e). rewrite Z.max_l by lia.
  rewrite add_u64_Ok, bind_Ok by urange. rewrite app_assoc.
  replace (zlen pre + entry_size e) with (zlen (pre ++ entry_bytes e)) by (rewrite zlen_app; lia).
  subst tail. rewrite IH by (rewrite !zlen_app; lia). f_equal. f_equal.
  case_bool_decide; by rewrite <- ?app_assoc.
Qed.

Lemma tags_fold es l :
  NoDup l →
  NoDup (fold_left (λ l e, push_tag (from_u16 (ke_tag e)) l) es l) ∧
  ∀ t, t ∈ fold_left (λ l e, push_tag (from_u16 (ke_tag e)) l) es l ↔
    t ∈ l ∨ ∃ e, e ∈ es ∧ from_u16 (ke_tag e) = t.
Proof.
  revert l. induction es as [|e es IH]; intros l Hl; cbn [fold_left].
  { split; [done|]. set_solver. }
  destruct (IH (push_tag (from_u16 (ke_tag e)) l)) as [Hnd Ht]; [by apply push_tag_NoDup|].
  split; [done|]. intros t. rewrite Ht, push_tag_elem. set_solver.
Qed.

Lemma from_u16_cases tag :
  (from_u16 tag = VolumePassphraseHint ↔ tag = 4) ∧
  (match from_u16 tag with WrappingKey | VolumeKey | VolumeUnlockRecords => true | _ => false end = true ↔ 1 <= tag <= 3).
Proof. unfold from_u16. repeat case_match; split; split; intros; try done; lia. Qed.

(** ** Properties *)

(** C34 A keybag is reported as it was written: on a locker of at most 4096 entries,
    [read_keybag] reports each tag once, in order of appearance, the offset of every
    entry whose tag it does not know, a passphrase hint when there is one, and
    encryption exactly when some entry is a wrapping key, a volume key or an unlock
    record.  On any other buffer it still returns, without panic. *)
Theorem keybag_reported es rest :
  Forall entry_ok es → zlen es <= MAX_KEYBAG_ENTRIES → zlen (locker_bytes es rest) < 2 ^ 63 →
  (∃ st, read_keybag (locker_bytes es rest) = Ok st ∧
    EncryptionState.tags_present st = tags_of es ∧ NoDup (tags_of es) ∧
    (∀ t, t ∈ tags_of es ↔ ∃ e, e ∈ es ∧ from_u16 (ke_tag e) = t) ∧
    EncryptionState.unknown_tags st = unknown_from 16 es ∧
    (EncryptionState.has_passphrase_hint st = true ↔ ∃ e, e ∈ es ∧ ke_tag e = 4) ∧
    (EncryptionState.encrypted st = true ↔ ∃ e, e ∈ es ∧ 1 <= ke_tag e <= 3)) ∧
  (∀ data, zlen data < 2 ^ 63 → ∃ st, read_keybag data = Ok st).
Proof.
  intros Hes Hn Hl. split.
  - pose proof (zlen_nonneg es). unfold MAX_KEYBAG_ENTRIES in Hn.
    assert (Hk : le_u16 (locker_bytes es rest) KL_NKEYS = zlen es)
      by (unfold locker_bytes, KL_NKEYS; read_field; lia).
    set (header := to_le_bytes 2 2 ++ to_le_bytes 2 (zlen es) ++ zeroed 12).
    assert (Hb : locker_bytes es rest = header ++ concat (entry_bytes <$> es) ++ rest)
      by (unfold locker_bytes, header; by rewrite <- !app_assoc).
    destruct (tags_fold es []) as [Hnd Ht]; [constructor|]. fold (tags_of es) in Hnd, Ht.
    assert (Ht' : ∀ t, t ∈ tags_of es ↔ ∃ e, e ∈ es ∧ from_u16 (ke_tag e) = t).
    { intros t. rewrite Ht. rewrite elem_of_nil. tauto. }
    eexists. split.
    { unfold read_keybag. rewrite Hk, Z.min_l by (unfold MAX_KEYBAG_ENTRIES; lia). unfold zlen at 1. rewrite Nat2Z.id.
      rewrite Hb in Hl |- *. change KL_ENTRIES_OFF with (zlen header).
      rewrite (keybag_loop_locker header es rest [] [] Hes Hl). rewrite bind_Ok. reflexivity. }
    cbn [EncryptionState.tags_present EncryptionState.unknown_tags EncryptionState.has_passphrase_hint
         EncryptionState.encrypted]. fold (tags_of es).
    split_and!; [done|done|exact Ht'|done| |].
    + rewrite bool_decide_eq_true, Ht'. by setoid_rewrite (proj1 (from_u16_cases _)).
    + rewrite existsb_exists. setoid_rewrite <- list_elem_of_In. setoid_rewrite Ht'. split.
      * intros (t & (e & He & <-) & Hm). exists e. split; [done|]. by apply from_u16_cases.
      * intros (e & He & Hm). exists (from_u16 (ke_tag e)). split; [eauto|]. by apply from_u16_cases.
  - intros data Hd. unfold read_keybag.
    pose proof (keybag_loop_no_panic data (Z.to_nat (Z.min (le_u16 data KL_NKEYS) MAX_KEYBAG_ENTRIES)) KL_ENTRIES_OFF [] []
      Hd ltac:(unfold KL_ENTRIES_OFF; pose proof (zlen_nonneg data); lia)) as Hp.
    pose proof (keybag_loop_no_err data (Z.to_nat (Z.min (le_u16 data KL_NKEYS) MAX_KEYBAG_ENTRIES)) KL_ENTRIES_OFF [] []) as He.
    destruct (keybag_loop _ _ _ _ _) as [[tags unk]|e|]; [|by destruct (He e)|done]. rewrite bind_Ok. eauto.
Qed.

(** ** Witness: a volume keybag with an unlock record, a hint and a vendor tag *)
Definition demo_locker : list keybag_entry :=
  [ {| ke_uuid := zeroed 16; ke_tag := 3; ke_key := zeroed 9 |}; {| ke_uuid := zeroed 16; ke_tag := 4; ke_key := str "hint" |};
    {| ke_uuid := zeroed 16; ke_tag := 0x90; ke_key := [] |} ].

Lemma keybag_reported_witness :
  ∃ st, read_keybag (locker_bytes demo_locker (zeroed 4)) = Ok st ∧
    EncryptionState.tags_present st = [VolumeUnlockRecords; VolumePassphraseHint; Unknown] ∧
    EncryptionState.unknown_tags st = [(0x90, 96)] ∧ EncryptionState.encrypted st = true.
Proof.
  destruct (keybag_reported demo_locker (zeroed 4)) as [(st & Hst & Ht & _ & _ & Hu & _ & He) _];
    [repeat constructor; vm_compute; intros ?; discriminate|vm_compute; intros ?; discriminate|vm_compute; reflexivity|].
  exists st. split; [exact Hst|]. split; [rewrite Ht; vm_compute; reflexivity|].
  split; [rewrite Hu; vm_compute; reflexivity|]. apply He. eexists. split; [left|].
  vm_compute. split; intros ?; discriminate.
Defined.
