(* ===== verification/Apfs.v ===== *)
(** * The container ([src/src/lib.rs])

    [open] reads the bootstrap superblock, refuses a Fusion container, resolves the live
    checkpoint and re-reads its superblock; the container then answers where its
    volumes, its space manager and its reaper are.  The theorems join the components:
    what an opened container is, when opening succeeds, and which superblock addresses
    it hands to the volume layer. *)
From S2P Require Import Prelude Bytes Reader Object Container Node Build Walk BTree Omap Checkpoint Volume FsRecord Inode Dir Extent Compression FileData Snapshot Spaceman Reaper.

Module ApfsContainer.
Record t (R : Type) := mk {
  reader : R;
  self_superblock : NxSuperblock.t;
  self_live_superblock_paddr : Z;
  self_checkpoint_mappings : list CheckpointMapping.t;
}.
Arguments mk {R}.
Arguments reader {R}.
Arguments self_superblock {R}.
Arguments self_live_superblock_paddr {R}.
Arguments self_checkpoint_mappings {R}.

(** The accessors of the private fields. *)
Definition superblock {R} (self : t R) : NxSuperblock.t := self_superblock self.
Definition live_superblock_paddr {R} (self : t R) : Z := self_live_superblock_paddr self.
Definition checkpoint_mappings {R} (self : t R) : list CheckpointMapping.t := self_checkpoint_mappings self.

Section container.
Context {R : Type} `{ReadSeek R}.

(** The body of [open] up to the construction of the container. *)
Definition open_state : M R (NxSuperblock.t * LiveCheckpoint.t) :=
  node ← read_at_eof 0 NX_MINIMUM_BLOCK_SIZE;
  match node with
  | None => throw (NoValidSuperblock 0 0)
  | Some block0 =>
      bootstrap ← lift (NxSuperblock.parse block0);
      if is_fusion bootstrap then throw UnsupportedFusion else
      live ← resolve_live_checkpoint bootstrap;
      let block_size := NxSuperblock.block_size bootstrap in
      let offset := saturating_mul (LiveCheckpoint.superblock_paddr live) block_size in
      buf ← read_at offset block_size;
      superblock ← lift (NxSuperblock.parse buf);
      mret (superblock, live)
  end.

Definition open (r : R) : outcome (t R) :=
  match open_state r with
  | (Ok (superblock, live), r') =>
      Ok {| reader := r'; self_superblock := superblock;
            self_live_superblock_paddr := LiveCheckpoint.superblock_paddr live;
            self_checkpoint_mappings := LiveCheckpoint.mappings live |}
  | (Err e, _) => Err e
  | (Panic, _) => Panic
  end.

Definition resolve_ephemeral (c : t R) (oid : Z) : option Z := find_mapping (checkpoint_mappings c) oid.

Definition spaceman_paddr (c : t R) : option Z :=
  resolve_ephemeral c (NxSuperblock.spaceman_oid (superblock c)).

Definition reaper_paddr (c : t R) : option Z :=
  resolve_ephemeral c (NxSuperblock.reaper_oid (superblock c)).

(** The addresses, as an operation of the container's reader. *)
Definition resolve_volumes (superblock : NxSuperblock.t) : M R (list Z) :=
  let block_size := NxSuperblock.block_size superblock in
  if negb (block_size_ok block_size)
  then throw (FieldOutOfRange "nx_superblock" "nx_block_size" block_size NX_MAXIMUM_BLOCK_SIZE) else
  let omap_off := saturating_mul (NxSuperblock.omap_oid superblock) block_size in
  buf ← read_at omap_off block_size;
  omap ← lift (ObjectMap.parse buf);
  let xid := NxSuperblock.xid superblock in
  foldM (λ fs_oid addrs,
    entry ← resolve omap fs_oid xid block_size;
    mret (addrs ++ [OmapEntry.paddr entry])) (NxSuperblock.fs_oids superblock) [].

(** [&mut self]: the container keeps its fields and its reader moves. *)
Definition volume_superblock_addrs (c : t R) : outcome (list Z) * t R :=
  let '(o, r') := resolve_volumes (superblock c) (reader c) in
  (o, {| reader := r'; self_superblock := superblock c; self_live_superblock_paddr := live_superblock_paddr c;
         self_checkpoint_mappings := checkpoint_mappings c |}).

Definition into_reader (c : t R) : R := reader c.
End container.
End ApfsContainer.
Import ApfsContainer.

(** ** Specification *)

(** The bootstrap is trusted for addressing: contiguous ring, block size in range, one
    device, and a ring inside the address space. *)
Definition addressable (bootstrap : NxSuperblock.t) : Prop :=
  is_fusion bootstrap = false ∧ NxSuperblock.desc_is_tree bootstrap = false ∧
  block_size_ok (NxSuperblock.block_size bootstrap) = true ∧
  NxSuperblock.xp_desc_base bootstrap + NxSuperblock.xp_desc_blocks bootstrap <= 2 ^ 64.

(** ** Lemmas *)
Section lemmas.
Context {R : Type} `{LawfulReader R}.

Lemma Stable_open_state : Stable (open_state (R := R)).
Proof. unfold open_state. solve_stable. Qed.

Lemma Stable_resolve_volumes sb : Stable (resolve_volumes (R := R) sb).
Proof. unfold resolve_volumes. solve_stable. Qed.

(** [open] is its state, with the reader it leaves. *)
Lemma open_Ok r c : open r = Ok c ↔
  ∃ live, open_state r = (Ok (superblock c, live), reader c) ∧
    live_superblock_paddr c = LiveCheckpoint.superblock_paddr live ∧
    checkpoint_mappings c = LiveCheckpoint.mappings live.
Proof.
  unfold open. destruct (open_state r) as [[[sb live]|e|] r'].
  - split; [intros [= <-]; eauto|]. destruct c as [rd sb' p ms]. simpl. by intros (? & [= -> -> ->] & -> & ->).
  - split; [done|]. by intros (? & ? & _).
  - split; [done|]. by intros (? & ? & _).
Qed.

(** A block the scan accepts is one the parser accepts, with the same transaction. *)
Lemma nxsb_parses buf x : nxsb_xid buf = Some x →
  ∃ sb, NxSuperblock.parse buf = Ok sb ∧ NxSuperblock.xid sb = x.
Proof.
  unfold nxsb_xid. destruct (ObjPhys.parse buf) as [hdr|] eqn:Hp; [|done]. simpl.
  destruct (_ =? OBJECT_TYPE_NX_SUPERBLOCK); [|done].
  destruct (le_u32 buf 32 =? NX_MAGIC) eqn:Hm; [|done]. destruct (cksum_ok buf) eqn:Hc; [|done].
  intros [= <-]. apply Z.eqb_eq in Hm. apply obj_phys_parse_Some in Hp as (_ & _ & -> & _).
  assert (Hl : 36 <= zlen buf).
  { apply Z.nlt_ge. intros Hl. unfold le_u32 in Hm. rewrite le_read_out in Hm by lia. by vm_compute in Hm. }
  unfold NxSuperblock.parse, NxSuperblock.OFF_MAGIC. rewrite Hm. unfold cksum_ok in Hc. rewrite Hc.
  replace (zlen buf <? 32 + 4) with false by lia. cbn [negb Z.eqb]. rewrite Z.eqb_refl. cbn [negb]. by eexists.
Qed.

(** The superblock of a slot is the block [open] reads again. *)
Lemma slot_superblock r base bs n i x :
  holds_nxsb (slot_of r base bs) n i x →
  ∃ buf sb, eval (read_at (saturating_mul (base + i) bs) bs) r = Ok buf ∧ NxSuperblock.parse buf = Ok sb ∧
    NxSuperblock.xid sb = x.
Proof.
  intros [_ (buf & Hs & Hx)]. destruct (nxsb_parses buf x Hx) as (sb & Hsb & Hxid). exists buf, sb.
  split; [|done]. unfold slot_of, read_block in Hs.
  destruct (checked_mul (base + i) bs) as [off|] eqn:Hm; [|done].
  apply checked_mul_Some in Hm as [-> Hm].
  destruct (eval (read_at_eof _ _) r) as [o| |] eqn:Hr; [|done..]. subst o.
  apply read_at_eof_Some in Hr. unfold saturating_mul. by rewrite Z.min_l.
Qed.

(** The value of opening, from a block zero that parses. *)
Lemma open_state_eval r block0 bootstrap :
  eval (read_at 0 4096) r = Ok block0 → NxSuperblock.parse block0 = Ok bootstrap →
  eval open_state r =
    if is_fusion bootstrap then Err UnsupportedFusion else
    live ← eval (resolve_live_checkpoint bootstrap) r;
    buf ← eval (read_at (saturating_mul (LiveCheckpoint.superblock_paddr live) (NxSuperblock.block_size bootstrap))
                  (NxSuperblock.block_size bootstrap)) r;
    superblock ← NxSuperblock.parse buf;
    Ok (superblock, live).
Proof.
  intros Hb Hp. unfold open_state. rewrite eval_bind by solve_stable.
  apply read_at_eof_Some in Hb. unfold NX_MINIMUM_BLOCK_SIZE. rewrite Hb, bind_Ok.
  rewrite eval_bind by solve_stable. rewrite eval_lift, Hp, bind_Ok. destruct (is_fusion bootstrap); [done|].
  rewrite eval_bind by solve_stable. destruct (eval (resolve_live_checkpoint _) r); [|done..]. rewrite !bind_Ok.
  rewrite eval_bind by solve_stable. destruct (eval (read_at _ _) r) as [buf| |]; [|done..]. rewrite !bind_Ok.
  rewrite eval_bind by solve_stable. rewrite eval_lift. by destruct (NxSuperblock.parse buf).
Qed.
End lemmas.

(** ** Properties *)
Section properties.
Context {R : Type} `{LawfulReader R}.
Context (r : R) (block0 : bytes) (bootstrap : NxSuperblock.t).
Notation n := (NxSuperblock.xp_desc_blocks bootstrap).
Notation base := (NxSuperblock.xp_desc_base bootstrap).
Notation bs := (NxSuperblock.block_size bootstrap).
Notation slot := (slot_of r base bs).

(** C8 What opening a container gives: over a readable source whose block zero parses,
    [open] succeeds exactly when the bootstrap is addressable and some slot of the ring
    holds a valid superblock; the opened container then has the superblock of the newest
    such slot, its address, and the mappings of the checkpoint maps of its transaction,
    and its reader has not changed what is stored. *)
Theorem open_live_state :
  eval (read_at 0 4096) r = Ok block0 → NxSuperblock.parse block0 = Ok bootstrap → readable r bs →
  ((∃ c, open r = Ok c) ↔ addressable bootstrap ∧ ∃ i x, holds_nxsb slot n i x) ∧
  (∀ c, open r = Ok c →
    ∃ i, newest_slot slot n i (NxSuperblock.xid (superblock c)) ∧
      live_superblock_paddr c = base + i ∧
      (∃ buf, eval (read_at (saturating_mul (base + i) bs) bs) r = Ok buf ∧
        NxSuperblock.parse buf = Ok (superblock c)) ∧
      checkpoint_mappings c = ring_mappings slot n (NxSuperblock.xid (superblock c)) ∧
      same_source (reader c) r).
Proof.
  intros Hb0 Hp Hr. pose proof (nx_parse_ranges _ _ Hp) as (_ & Hn & Hbase & _).
  pose proof (open_state_eval r block0 bootstrap Hb0 Hp) as Ev.
  assert (Hopen : ∀ c, open r = Ok c → addressable bootstrap ∧
    ∃ i, newest_slot slot n i (NxSuperblock.xid (superblock c)) ∧ live_superblock_paddr c = base + i ∧
      (∃ buf, eval (read_at (saturating_mul (base + i) bs) bs) r = Ok buf ∧ NxSuperblock.parse buf = Ok (superblock c)) ∧
      checkpoint_mappings c = ring_mappings slot n (NxSuperblock.xid (superblock c)) ∧ same_source (reader c) r).
  { intros c (live & Ho & Hpa & Hm)%open_Ok. unfold eval at 1 in Ev. rewrite Ho in Ev. simpl in Ev.
    destruct (is_fusion bootstrap) eqn:Hf; [done|]. symmetry in Ev.
    apply outcome_bind_Ok in Ev as (live' & Hlive & Ev). apply outcome_bind_Ok in Ev as (buf & Hbuf & Ev).
    apply outcome_bind_Ok in Ev as (sb & Hsb & [= -> ->]).
    apply resolve_live_Ok in Hlive as (Ht & Hbs & Hov & i & Hi & Hnew & Hms); [|done|lia|done].
    split; [done|]. exists i. destruct Hnew as [Hh Hmax].
    destruct (slot_superblock r base bs n i _ Hh) as (buf' & sb' & Hbuf' & Hsb' & Hxid).
    rewrite Hi in Hbuf. rewrite Hbuf in Hbuf'. injection Hbuf' as <-.
    assert (sb' = superblock c) as -> by congruence. rewrite Hxid, Hpa, Hm, Hi, Hms.
    split_and!; try done; [eauto|]. pose proof (stable_keeps (Stable := Stable_open_state) r) as Hk. by rewrite Ho in Hk. }
  split; [|intros c Hc; by apply Hopen].
  split.
  - intros [c Hc]. destruct (Hopen c Hc) as (Ha & i & [Hh _] & _). eauto.
  - intros [(Hf & Ht & Hbs & Hov) (i & x & Hh)]. rewrite Hf, eval_resolve_live in Ev by done. cbv zeta in Ev.
    pose proof (scan_newest slot base {| best := None; checked := 0; last_magic := 0 |} n eq_refl (proj1 Hn)) as Hbest.
    destruct (best _) as [[x' p]|]; [|by apply Hbest in Hh].
    destruct Hbest as (j & -> & [Hj _]). destruct (slot_superblock r base bs n j x' Hj) as (buf & sb & Hbuf & Hsb & _).
    rewrite bind_Ok in Ev. cbn [LiveCheckpoint.superblock_paddr] in Ev. rewrite Hbuf, bind_Ok, Hsb, bind_Ok in Ev.
    unfold open. unfold eval in Ev. destruct (open_state r) as [o r']. simpl in Ev. rewrite Ev. eauto.
Qed.

(** C38 Block zero is read as 4096 bytes whatever the container's block size: over a
    container of larger blocks, whose whole block zero passes the superblock's gates,
    [open] is refused with [ChecksumMismatch] unless the words after byte 4096 happen to
    leave both Fletcher sums as they were. *)
Theorem open_rejects_large_blocks tail :
  zlen block0 = 4096 → eval (read_at 0 4096) r = Ok block0 →
  NxSuperblock.parse (block0 ++ tail) = Ok bootstrap →
  ¬ (word_sum (words tail) `mod` MOD = 0 ∧
     (zlen (words tail) * word_sum (body_words block0) + weighted_sum (words tail)) `mod` MOD = 0) →
  open r = Err (ChecksumMismatch (le_u64 block0 8) (fletcher64_stored block0) (fletcher64_checksum block0)).
Proof.
  intros Hl Hb Hp Hne. apply nx_parse_gates in Hp as (_ & Hm & Hc).
  assert (Hc0 : cksum_ok block0 = false).
  { apply not_true_is_false. intros Ht. apply Hne. apply (cksum_prefix_iff block0 tail 1024); [lia|lia|done|done]. }
  assert (Hm0 : le_u32 block0 32 = NX_MAGIC).
  { rewrite <- Hm. unfold le_u32. symmetry. apply le_read_app_l. lia. }
  assert (Hparse : NxSuperblock.parse block0
    = Err (ChecksumMismatch (le_u64 block0 8) (fletcher64_stored block0) (fletcher64_checksum block0))).
  { rewrite nx_parse_cases, Hm0, Hc0, Z.eqb_refl. by replace (zlen block0 <? 36) with false by lia. }
  assert (Ev : eval open_state r
    = Err (ChecksumMismatch (le_u64 block0 8) (fletcher64_stored block0) (fletcher64_checksum block0))).
  { unfold open_state. rewrite eval_bind by solve_stable. apply read_at_eof_Some in Hb.
    unfold NX_MINIMUM_BLOCK_SIZE. rewrite Hb, bind_Ok, eval_bind by solve_stable. by rewrite eval_lift, Hparse. }
  unfold open. unfold eval in Ev. destruct (open_state r) as [o r']. simpl in Ev. by rewrite Ev.
Qed.
End properties.

Section volumes.
Context {R : Type} `{LawfulReader R}.

Lemma resolve_volumes_loop om xid bs r t oids acc :
  omap_tree bs r t → tree_id t = ObjectMap.tree_oid om →
  eval (foldM (λ fs_oid addrs, entry ← resolve om fs_oid xid bs; mret (addrs ++ [OmapEntry.paddr entry])) oids acc) r =
  match mapM (λ oid, OmapEntry.paddr <$> newest_of oid xid (entries t)) oids with
  | Some addrs => Ok (acc ++ addrs)
  | None =>
      Err (OmapUnresolved (default 0 (head (filter (λ oid, newest_of oid xid (entries t) = None) oids))) xid)
  end.
Proof.
  intros Ht Hid. revert acc. induction oids as [|oid oids IH]; intros acc.
  { simpl. by rewrite app_nil_r. }
  cbn [foldM]. rewrite eval_bind by solve_stable. rewrite eval_bind by solve_stable.
  rewrite (resolve_landing om oid xid bs r t Ht Hid). rewrite filter_cons. cbn [mapM].
  destruct (newest_of oid xid (entries t)) as [m|]; cbn [ok_or fmap option_fmap option_map].
  - rewrite bind_Ok, eval_ret, bind_Ok, IH, decide_False by done.
    destruct (mapM _ oids) as [addrs|]; simpl; [by rewrite <- app_assoc|done].
  - by rewrite decide_True.
Qed.

Lemma volumes_spec xid es oids :
  match mapM (λ oid, OmapEntry.paddr <$> newest_of oid xid es) oids with
  | Some addrs => Forall2 (λ oid a, ∃ e, newest oid xid es e ∧ a = le_u64 (value e) 8) oids addrs
  | None =>
      ∃ pre oid post, oids = pre ++ oid :: post ∧
        head (filter (λ oid, newest_of oid xid es = None) oids) = Some oid ∧
        (∀ x, x ∈ es → ¬ candidate oid xid x) ∧
        ∀ oid', oid' ∈ pre → ∃ x, x ∈ es ∧ candidate oid' xid x
  end.
Proof.
  induction oids as [|oid oids IH]; [constructor|]. cbn [mapM]. rewrite filter_cons.
  pose proof (newest_of_spec oid xid es) as Hn. destruct (newest_of oid xid es) as [m|] eqn:E; cbn [fmap option_fmap option_map].
  - rewrite decide_False by done. destruct Hn as (e & He & ->). cbn [mbind option_bind].
    destruct (mapM _ oids) as [addrs|]; simpl.
    + constructor; [|done]. by exists e.
    + destruct IH as (pre & o & post & -> & Hh & Hno & Hpre). exists (oid :: pre), o, post. split_and!; try done.
      intros o' [->|Ho]%elem_of_cons; [|by apply Hpre]. destruct He as (Hin & Hc & _). eauto.
  - rewrite decide_True by done. simpl. exists [], oid, oids. split_and!; try done.
    + by apply Forall_forall.
    + intros o' Ho. by apply not_elem_of_nil in Ho.
Qed.

(** C23 The container resolves its volumes: when the container's object map is a
    well-formed tree, [volume_superblock_addrs] returns, in slot order, the address of
    the newest mapping of every volume id at the container's transaction, or
    [OmapUnresolved] for the first id that has none; the fields of the container stay
    as they are. *)
Theorem volumes_resolved (c : ApfsContainer.t R) buf om t :
  let sb := superblock c in
  let bs := NxSuperblock.block_size sb in
  block_size_ok bs = true →
  eval (read_at (saturating_mul (NxSuperblock.omap_oid sb) bs) bs) (reader c) = Ok buf →
  ObjectMap.parse buf = Ok om → omap_tree bs (reader c) t → tree_id t = ObjectMap.tree_oid om →
  let '(o, c') := volume_superblock_addrs c in
  match o with
  | Ok addrs =>
      Forall2 (λ oid a, ∃ e, newest oid (NxSuperblock.xid sb) (entries t) e ∧ a = le_u64 (value e) 8)
        (NxSuperblock.fs_oids sb) addrs
  | Err e =>
      ∃ pre oid post, NxSuperblock.fs_oids sb = pre ++ oid :: post ∧ e = OmapUnresolved oid (NxSuperblock.xid sb) ∧
        (∀ x, x ∈ entries t → ¬ candidate oid (NxSuperblock.xid sb) x) ∧
        ∀ oid', oid' ∈ pre → ∃ x, x ∈ entries t ∧ candidate oid' (NxSuperblock.xid sb) x
  | Panic => False
  end ∧
  superblock c' = sb ∧ checkpoint_mappings c' = checkpoint_mappings c ∧ same_source (reader c') (reader c).
Proof.
  intros sb bs Hbs Hbuf Hom Ht Hid. unfold volume_superblock_addrs. fold sb.
  pose proof (stable_keeps (Stable := Stable_resolve_volumes sb) (reader c)) as Hk.
  assert (Ev := resolve_volumes_loop om (NxSuperblock.xid sb) bs (reader c) t (NxSuperblock.fs_oids sb) [] Ht Hid).
  assert (Er : eval (resolve_volumes sb) (reader c) = eval (foldM (λ fs_oid addrs,
    entry ← resolve om fs_oid (NxSuperblock.xid sb) bs; mret (addrs ++ [OmapEntry.paddr entry]))
    (NxSuperblock.fs_oids sb) []) (reader c)).
  { unfold resolve_volumes. fold bs. rewrite Hbs. cbn [negb]. rewrite eval_bind by solve_stable.
    rewrite Hbuf, bind_Ok, eval_bind by solve_stable. by rewrite eval_lift, Hom, bind_Ok. }
  rewrite Ev in Er. unfold eval in Er. destruct (resolve_volumes sb (reader c)) as [o r']. simpl in Er, Hk. subst o.
  split; [|done]. pose proof (volumes_spec (NxSuperblock.xid sb) (entries t) (NxSuperblock.fs_oids sb)) as Hs.
  destruct (mapM _ _) as [addrs|]; [exact Hs|]. destruct Hs as (pre & oid & post & E & Hh & Hno & Hpre).
  rewrite Hh. simpl. by exists pre, oid, post.
Qed.
End volumes.

(** ** Witnesses: a container of 4096-byte blocks with one volume

    Block zero is the bootstrap of transaction 5; the ring of blocks 1 to 4 holds the
    superblocks of transactions 5 and 7 and the checkpoint map of 7. *)
Definition nxsb_block (bs xid base desc_blocks omap_oid : Z) (fs_oids : list Z) : bytes :=
  obj_block bs 1 xid 0x80000001 0
    ([ (32, to_le_bytes 4 NX_MAGIC); (36, to_le_bytes 4 bs); (40, to_le_bytes 8 64);
       (104, to_le_bytes 4 desc_blocks); (112, to_le_bytes 8 base); (152, to_le_bytes 8 1024);
       (160, to_le_bytes 8 omap_oid); (168, to_le_bytes 8 1025); (180, to_le_bytes 4 (zlen fs_oids)) ] ++
     imap (λ i oid, (184 + Z.of_nat i * 8, to_le_bytes 8 oid)) fs_oids).

Definition demo_root_inode : Inode.t := Inode.mk 2 1 2 1 2 3 4 0 2 0 501 20 16877 None None.

Definition demo_container_map : bytes :=
  obj_block 4096 2 7 0x4000000c 0
    [ (36, to_le_bytes 4 1); (40, to_le_bytes 4 5); (64, to_le_bytes 8 1024); (72, to_le_bytes 8 33) ].

Definition demo_container : bytes :=
  image 4096
    [ (0, nxsb_block 4096 5 1 4 10 [1026]); (1, nxsb_block 4096 5 1 4 10 [1026]); (2, demo_container_map);
      (3, nxsb_block 4096 7 1 4 10 [1026]);
      (10, omap_block 4096 10 11); (11, omap_leaf 4096 11 [(1026, 5, 9); (1026, 7, 12)]);
      (12, apsb 4096 1026 7 13 100 0 (str "Data")); (13, omap_block 4096 13 14);
      (14, omap_leaf 4096 14 [(100, 7, 15)]);
      (15, btree_node 4096 100 7 true
             [ demo_inode_rec demo_root_inode []; demo_drec 2 "a.txt" 16; demo_inode_rec demo_file demo_file_fields ]) ].

Definition demo_bootstrap : NxSuperblock.t :=
  Eval vm_compute in
    match NxSuperblock.parse (nxsb_block 4096 5 1 4 10 [1026]) with Ok sb => sb | _ => demo_sb 0 0 end.

Lemma demo_block0 : ∃ block0, eval (read_at 0 4096) (cursor demo_container) = Ok block0 ∧
  NxSuperblock.parse block0 = Ok demo_bootstrap.
Proof. eexists. split; [vm_compute; reflexivity|vm_compute; reflexivity]. Qed.

Lemma open_live_state_witness :
  ∃ c, open (cursor demo_container) = Ok c ∧ NxSuperblock.xid (superblock c) = 7 ∧
    live_superblock_paddr c = 3 ∧ spaceman_paddr c = Some 33 ∧ reaper_paddr c = None ∧
    newest_slot (slot_of (cursor demo_container) 1 4096) 4 2 7.
Proof.
  assert (Ho : match open (cursor demo_container) with
    | Ok c => (NxSuperblock.xid (superblock c), live_superblock_paddr c, spaceman_paddr c, reaper_paddr c)
    | _ => (0, 0, None, None)
    end = (7, 3, Some 33, None)) by (vm_compute; reflexivity).
  destruct (open (cursor demo_container)) as [c|e|] eqn:E; [|discriminate Ho|discriminate Ho].
  injection Ho as Hx Hp Hs Hr. exists c. split_and!; [reflexivity|exact Hx|exact Hp|exact Hs|exact Hr|].
  destruct demo_block0 as (block0 & Hb & Hparse).
  destruct (open_live_state (cursor demo_container) block0 demo_bootstrap Hb Hparse (cursor_readable _ _)) as [_ Hlive].
  destruct (Hlive c E) as (i & Hi & Hpi & _). rewrite Hx in Hi. rewrite Hp in Hpi.
  change (NxSuperblock.xp_desc_base demo_bootstrap) with 1 in *.
  change (NxSuperblock.xp_desc_blocks demo_bootstrap) with 4 in *.
  change (NxSuperblock.block_size demo_bootstrap) with 4096 in *. assert (i = 2) as -> by lia. exact Hi.
Defined.

Definition demo_container_om : ObjectMap.t :=
  Eval vm_compute in match ObjectMap.parse (omap_block 4096 10 11) with Ok om => om | _ => demo_fs_om end.

Definition demo_container_tree : tree :=
  Leaf 11 [ {| key := omap_key 1026 5; value := zeroed 8 ++ to_le_bytes 8 9 |};
            {| key := omap_key 1026 7; value := zeroed 8 ++ to_le_bytes 8 12 |} ].

Definition demo_opened : ApfsContainer.t Cursor :=
  ApfsContainer.mk (cursor demo_container)
    (match NxSuperblock.parse (nxsb_block 4096 7 1 4 10 [1026]) with Ok sb => sb | _ => demo_bootstrap end) 3 [].

Lemma demo_container_tree_ok : omap_tree 4096 (cursor demo_container) demo_container_tree.
Proof.
  assert (Hl : load (λ p, read_verified_node p 4096) all_children Omap (cursor demo_container) 1 11
    = Some demo_container_tree) by (vm_compute; reflexivity).
  apply load_stored in Hl as [_ Hst]. split; [exact Hst| |constructor|repeat constructor].
  split; [apply NoDup_singleton|vm_compute; lia].
Qed.

Lemma volumes_resolved_witness :
  (volume_superblock_addrs demo_opened).1 = Ok [12] ∧
  same_source (reader (volume_superblock_addrs demo_opened).2) (cursor demo_container).
Proof.
  assert (Ha : (volume_superblock_addrs demo_opened).1 = Ok [12]) by (vm_compute; reflexivity).
  split; [exact Ha|].
  assert (Hbs : NxSuperblock.block_size (superblock demo_opened) = 4096) by (vm_compute; reflexivity).
  assert (Hoid : NxSuperblock.omap_oid (superblock demo_opened) = 10) by (vm_compute; reflexivity).
  pose proof (volumes_resolved demo_opened (omap_block 4096 10 11) demo_container_om demo_container_tree) as Hv.
  cbv zeta in Hv. rewrite Hbs, Hoid in Hv.
  specialize (Hv eq_refl ltac:(vm_compute; reflexivity) ltac:(vm_compute; reflexivity) demo_container_tree_ok eq_refl).
  destruct (volume_superblock_addrs demo_opened) as [o c']. destruct Hv as (_ & _ & _ & Hs). exact Hs.
Defined.

(** A container of 8192-byte blocks, good in every other way. *)
Definition large_block0 : bytes := nxsb_block 8192 7 1 1 10 [1026].
Definition large_container : bytes := image 8192 [(0, large_block0); (1, nxsb_block 8192 7 1 1 10 [1026])].

Definition large_bootstrap : NxSuperblock.t :=
  Eval vm_compute in match NxSuperblock.parse large_block0 with Ok sb => sb | _ => demo_bootstrap end.

Lemma open_rejects_large_blocks_witness :
  NxSuperblock.parse large_block0 = Ok large_bootstrap ∧
  eval (resolve_live_checkpoint large_bootstrap) (cursor large_container) = Ok (LiveCheckpoint.mk 1 7 []) ∧
  ∃ b s c, open (cursor large_container) = Err (ChecksumMismatch b s c).
Proof.
  assert (Hsb : NxSuperblock.parse large_block0 = Ok large_bootstrap) by (vm_compute; reflexivity).
  split; [exact Hsb|]. split; [vm_compute; reflexivity|]. do 3 eexists.
  apply (open_rejects_large_blocks (cursor large_container) (take 4096 large_block0) large_bootstrap
    (drop 4096 large_block0)); [vm_compute; reflexivity|vm_compute; reflexivity|rewrite take_drop; exact Hsb|].
  intros [_ Hw]. vm_compute in Hw. discriminate Hw.
Defined.
