(* ===== verification/Session.v ===== *)
(** * Sessions: operations in sequence over one reader

    Every operation of the crate takes the reader by mutable reference, seeks where it
    likes and leaves the position arbitrary ([src/src/lib.rs], the comment of
    [volume_superblock_addrs]).  A session is a sequence of queries over one reader, each
    answered with a value or an error; the theorem is that the answers do not depend on
    what was asked before. *)
From S2P Require Import Prelude Bytes Reader Object Container Omap Checkpoint Volume Inode Dir Extent Xattr Compression FileData Snapshot Spaceman Reaper Apfs.

Inductive query :=
  | VolumeAddrs (superblock : NxSuperblock.t)
  | ListDir (volume : ApfsVolume.t) (parent_oid block_size : Z)
  | LookupChild (volume : ApfsVolume.t) (parent_oid : Z) (name : bytes) (block_size : Z)
  | OpenPath (volume : ApfsVolume.t) (path : bytes) (block_size : Z)
  | ListXattrs (volume : ApfsVolume.t) (oid block_size : Z)
  | SymlinkTarget (volume : ApfsVolume.t) (oid block_size : Z)
  | ListExtents (volume : ApfsVolume.t) (oid block_size : Z)
  | ReadData (volume : ApfsVolume.t) (inode : Inode.t) (block_size : Z)
  | DataSize (volume : ApfsVolume.t) (inode : Inode.t) (block_size : Z)
  | ListSnapshots (volume : ApfsVolume.t) (block_size : Z)
  | MountSnapshot (live_volume : ApfsVolume.t) (snapshot : Snapshot.t) (block_size : Z)
  | IsBlockFree (spaceman_paddr block block_size : Z)
  | PendingObjects (reaper_paddr : Z) (mappings : list CheckpointMapping.t) (block_size : Z).

Definition answer (q : query) : Type :=
  match q with
  | VolumeAddrs _ => list Z
  | ListDir _ _ _ => list DirEntry.t
  | LookupChild _ _ _ _ => option Z
  | OpenPath _ _ _ => Inode.t
  | ListXattrs _ _ _ => list Xattr.t
  | SymlinkTarget _ _ _ => option bytes
  | ListExtents _ _ _ => list FileExtent.t
  | ReadData _ _ _ => bytes
  | DataSize _ _ _ => Z
  | ListSnapshots _ _ => list Snapshot.t
  | MountSnapshot _ _ _ => ApfsVolume.t
  | IsBlockFree _ _ _ => bool
  | PendingObjects _ _ _ => list ReapPending.t
  end.

(** The block size a query divides by. *)
Definition query_block_size (q : query) : Z :=
  match q with
  | ReadData _ _ bs | DataSize _ _ bs => bs
  | _ => 1
  end.

Section session.
Context (zlib : bytes → option bytes) (lzvn : bytes → Z → option bytes) (lzfse : bytes → option bytes).
Context {R : Type}.

Definition run `{ReadSeek R} (q : query) : M R (answer q) :=
  match q with
  | VolumeAddrs sb => ApfsContainer.resolve_volumes sb
  | ListDir v oid bs => list_dir v oid bs
  | LookupChild v oid name bs => lookup_child v oid name bs
  | OpenPath v path bs => open_path v path bs
  | ListXattrs v oid bs => list_xattrs v oid bs
  | SymlinkTarget v oid bs => symlink_target v oid bs
  | ListExtents v oid bs => list_extents v oid bs
  | ReadData v i bs => read_data zlib lzvn lzfse v i bs
  | DataSize v i bs => data_size v i bs
  | ListSnapshots v bs => list_snapshots v bs
  | MountSnapshot v s bs => mount_snapshot v s bs
  | IsBlockFree sm b bs => is_block_free sm b bs
  | PendingObjects p ms bs => pending_objects p ms bs
  end.

(** The caller goes on after an error; a panic ends nothing here, so that the theorem
    can exclude it. *)
Fixpoint session `{ReadSeek R} (qs : list query) (r : R) : list { q : query & outcome (answer q) } * R :=
  match qs with
  | [] => ([], r)
  | q :: qs' =>
      let '(o, r') := run q r in
      let '(answers, r'') := session qs' r' in
      (existT q o :: answers, r'')
  end.

#[export] Instance Stable_run `{LawfulReader R} q : Stable (run q).
Proof.
  destruct q; cbn [run answer]; try solve [eauto with stable].
  - apply Stable_resolve_volumes.
  - unfold list_xattrs. solve_stable.
  - unfold pending_objects. solve_stable.
Qed.

Lemma run_no_panic `{LawfulReader R} q r : query_block_size q ≠ 0 → eval (run q) r ≠ Panic.
Proof.
  destruct q; intros Hbs; cbn [run answer]; try solve [match goal with |- eval ?m r ≠ _ => enough (Hs : Safe m) by apply Hs; eauto with safe end].
  - enough (Hs : Safe (R := R) (ApfsContainer.resolve_volumes superblock)) by apply Hs. unfold ApfsContainer.resolve_volumes. solve_safe.
  - enough (Hs : Safe (R := R) (list_xattrs volume oid block_size)) by apply Hs. unfold list_xattrs. solve_safe.
  - by apply read_data_no_panic.
  - by apply data_size_no_panic.
  - enough (Hs : Safe (R := R) (list_snapshots volume block_size)) by apply Hs. unfold list_snapshots. solve_safe.
Qed.

(** C15 Queries do not disturb each other: in a session over a lawful reader, every query
    is answered, error or value, as it would be alone on the source as it was before the
    session, whatever the queries before it did to the reader's position; the source
    stays as it was, and with block sizes that are not zero no query panics. *)
Theorem session_answers_independent `{LawfulReader R} qs r :
  (session qs r).1 = (λ q, existT q (eval (run q) r)) <$> qs ∧ same_source (session qs r).2 r ∧
  Forall (λ q, query_block_size q ≠ 0 → eval (run q) r ≠ Panic) qs.
Proof.
  split_and!; [| |apply Forall_forall; intros; by apply run_no_panic].
  - assert (Hgen : ∀ r', same_source r' r → (session qs r').1 = (λ q, existT q (eval (run q) r)) <$> qs); [|by apply Hgen].
    induction qs as [|q qs IH]; intros r' Hr; [done|]. cbn [session]. rewrite fmap_cons.
    pose proof (stable_value (m := run q) r' r Hr) as Hv. pose proof (stable_keeps (m := run q) r') as Hk.
    unfold eval in Hv at 1. destruct (run q r') as [o r1]. simpl in *.
    specialize (IH r1 ltac:(by etrans)). destruct (session qs r1) as [answers r2]. simpl in *. by rewrite Hv, IH.
  - revert r. induction qs as [|q qs IH]; intros r; [done|]. cbn [session].
    pose proof (stable_keeps (m := run q) r) as Hk. destruct (run q r) as [o r1]. simpl in *.
    specialize (IH r1). destruct (session qs r1) as [answers r2]. simpl in *. by etrans.
Qed.
End session.

(** ** Witness: one session over the container of [Apfs.v] *)
Definition session_volume : ApfsVolume.t :=
  Eval vm_compute in match ApfsVolume.parse (apsb 4096 1026 7 13 100 0 (str "Data")) with Ok v => v | _ => demo_volume end.

Definition demo_session : list query :=
  [ OpenPath session_volume (str "/a.txt") 4096; OpenPath session_volume (str "/b.txt") 4096;
    VolumeAddrs demo_bootstrap; OpenPath session_volume (str "/a.txt") 4096 ].

Lemma session_answers_independent_witness :
  (session demo_codec demo_lzvn demo_codec demo_session (cursor demo_container)).1 =
    [ existT (OpenPath session_volume (str "/a.txt") 4096) (Ok demo_file);
      existT (OpenPath session_volume (str "/b.txt") 4096) (Err (OmapUnresolved 2 7));
      existT (VolumeAddrs demo_bootstrap) (Ok [9]);
      existT (OpenPath session_volume (str "/a.txt") 4096) (Ok demo_file) ].
Proof.
  destruct (session_answers_independent demo_codec demo_lzvn demo_codec demo_session (cursor demo_container)) as [Hs _].
  rewrite Hs. vm_compute. reflexivity.
Defined.
