(* ===== verification/Messages.v ===== *)
(** * The errors that are raised, and their messages

    [Display] prints an [ApfsError].  The names inside an error are [&'static str]s, which
    the type does not bound; here every operation that can fail is shown to use the
    crate's own literals only ([named]), which hold none of the punctuation that ends a
    name in a message.  [Raises] is closed under the combinators, so the proofs follow
    the code. *)
From S2P Require Import Prelude Bytes Reader Display Object Container Node Walk BTree Omap Checkpoint Volume FsRecord Inode Dir Extent Xattr Compression FileData Snapshot Spaceman Reaper Sealed Keybag Apfs Session.
#[local] Open Scope Z_scope.

(** ** Operations that raise named errors only *)
Class Named {A} (o : outcome A) : Prop := named_error e : o = Err e → named e = true.
Definition Raises {R A} (m : M R A) : Prop := ∀ r, Named (eval m r).

Create HintDb raises discriminated.
#[export] Hint Constants Opaque : raises.
#[export] Hint Variables Transparent : raises.

Section outcomes.
Lemma Named_Ok {A} (a : A) : Named (Ok a).
Proof. by intros e [=]. Qed.
Lemma Named_Panic {A} : Named (Panic (A := A)).
Proof. by intros e [=]. Qed.
Lemma Named_Err {A} e : named e = true → Named (Err (A := A) e).
Proof. by intros He e' [= <-]. Qed.

Lemma Named_bind {A B} (o : outcome A) (k : A → outcome B) : Named o → (∀ a, Named (k a)) → Named (o ≫= k).
Proof. intros Ho Hk. destruct o as [a|e|]; [apply Hk|intros e' [= <-]; by apply Ho|apply Named_Panic]. Qed.

Lemma Named_ok_or {A} e (o : option A) : named e = true → Named (ok_or e o).
Proof. intros He. destruct o; [apply Named_Ok|by apply Named_Err]. Qed.
Lemma Named_index {A} (l : list A) i : Named (index l i).
Proof. unfold index. case_match; [apply Named_Ok|apply Named_Panic]. Qed.
Lemma Named_index_range {A} (l : list A) a b : Named (index_range l a b).
Proof. unfold index_range. case_match; [apply Named_Ok|apply Named_Panic]. Qed.
Lemma Named_add_u64 a b : Named (add_u64 a b).
Proof. unfold add_u64. case_match; [apply Named_Ok|apply Named_Panic]. Qed.
Lemma Named_div_u64 a b : Named (div_u64 a b).
Proof. unfold div_u64. case_match; [apply Named_Panic|apply Named_Ok]. Qed.
End outcomes.
#[export] Hint Resolve Named_Ok Named_Panic Named_index Named_index_range Named_add_u64 Named_div_u64 : raises.
#[export] Hint Extern 1 (Named (Err _)) => apply Named_Err; reflexivity : raises.
#[export] Hint Extern 1 (Named (ok_or _ _)) => apply Named_ok_or; reflexivity : raises.

Section combinators.
Context {R : Type}.

Lemma Raises_lift {A} (o : outcome A) : Named o → Raises (lift (R := R) o).
Proof. by intros Ho r. Qed.
Lemma Raises_ret {A} (a : A) : Raises (mret (M := M R) a).
Proof. intros r. apply Named_Ok. Qed.

Lemma Raises_bind {A B} (m : M R A) (k : A → M R B) : Raises m → (∀ a, Raises (k a)) → Raises (m ≫= k).
Proof.
  intros Hm Hk r. specialize (Hm r). unfold eval in *. cbv [mbind M_bind].
  destruct (m r) as [[a|e|] r']; [apply Hk| |apply Named_Panic]. intros e' [= <-]. by apply Hm.
Qed.

Lemma Raises_foldM {A S} (body : A → S → M R S) l s : (∀ x s, Raises (body x s)) → Raises (foldM body l s).
Proof.
  intros Hb. revert s. induction l as [|x l IH]; intros s; simpl; [apply Raises_ret|]. by apply Raises_bind.
Qed.

Lemma Raises_io {A} (m : R → (io_error + A) * R) : Raises (io m).
Proof. intros r. unfold eval, io. destruct (m r) as [[] ?]; [by apply Named_Err|apply Named_Ok]. Qed.
End combinators.

Ltac solve_raises :=
  intros; unfold throw;
  repeat first
  [ progress intros
  | solve [eauto with raises]
  | apply Raises_bind
  | apply Raises_foldM
  | apply Raises_lift
  | apply Named_bind
  | match goal with
    | |- Raises (if ?b then _ else _) => destruct b
    | |- Raises (match ?x with _ => _ end) => destruct x
    | |- Raises (let '(_, _) := ?x in _) => destruct x
    | |- Named (if ?b then _ else _) => destruct b
    | |- Named (Err (if ?b then _ else _)) => destruct b
    | |- Named (match ?x with _ => _ end) => destruct x
    end ].
#[export] Hint Resolve Raises_lift Raises_ret Raises_io : raises.

(** ** Decoders *)
Lemma Named_nx_parse block : Named (NxSuperblock.parse block).
Proof. unfold NxSuperblock.parse. solve_raises. Qed.
Lemma Named_omap_parse block : Named (ObjectMap.parse block).
Proof. unfold ObjectMap.parse. solve_raises. Qed.
Lemma Named_volume_parse block : Named (ApfsVolume.parse block).
Proof. unfold ApfsVolume.parse. solve_raises. Qed.
Lemma Named_integrity_parse block : Named (IntegrityMeta.parse block).
Proof. unfold IntegrityMeta.parse. solve_raises. Qed.
#[export] Hint Resolve Named_nx_parse Named_omap_parse Named_volume_parse : raises.

Lemma Named_xfields_loop data n i off : Named (xfields_loop data n i off).
Proof. revert i off. induction n as [|n IH]; intros i off; cbn [xfields_loop]; solve_raises. Qed.
#[export] Hint Resolve Named_xfields_loop : raises.

Lemma Named_parse_xfields data : Named (parse_xfields data).
Proof. unfold parse_xfields. solve_raises. Qed.
#[export] Hint Resolve Named_parse_xfields : raises.

Lemma Named_inode_parse oid value : Named (Inode.parse oid value).
Proof. unfold Inode.parse. solve_raises. Qed.
#[export] Hint Resolve Named_inode_parse : raises.

Section codecs.
Context (zlib : bytes → option bytes) (lzvn : bytes → Z → option bytes) (lzfse : bytes → option bytes).

Lemma Named_read_checked data off n : Named (read_checked data off n).
Proof. unfold read_checked. solve_raises. Qed.
#[local] Hint Resolve Named_read_checked : raises.
Lemma Named_map {A B} (f : A → B) o : Named o → Named (outcome_map f o).
Proof. intros Ho. apply Named_bind; [done|]. intros a. apply Named_Ok. Qed.
Lemma Named_try_le_u32 data off : Named (try_le_u32 data off).
Proof. apply Named_map, Named_read_checked. Qed.
Lemma Named_try_be_u32 data off : Named (try_be_u32 data off).
Proof. apply Named_map, Named_read_checked. Qed.
Lemma Named_try_le_u64 data off : Named (try_le_u64 data off).
Proof. apply Named_map, Named_read_checked. Qed.
#[local] Hint Resolve Named_try_le_u32 Named_try_be_u32 Named_try_le_u64 : raises.

Lemma Named_uncompressed_size header : Named (uncompressed_size header).
Proof. unfold uncompressed_size. solve_raises. Qed.
#[local] Hint Resolve Named_uncompressed_size : raises.

Lemma Named_zlib_blocks fork table n i out : Named (zlib_blocks zlib fork table n i out).
Proof. revert i out. induction n as [|n IH]; intros i out; cbn [zlib_blocks]; unfold inflate; solve_raises. Qed.
Lemma Named_chunks_loop alg fork size n i src out : Named (chunks_loop lzvn lzfse alg fork size n i src out).
Proof.
  revert i src out. induction n as [|n IH]; intros i src out; cbn [chunks_loop]; [solve_raises|].
  unfold decode_chunk, lzvn_decode, lzfse_decode, unreachable_algorithm. solve_raises.
Qed.
#[local] Hint Resolve Named_zlib_blocks Named_chunks_loop : raises.

Lemma Named_decompress header fork : Named (decompress_decmpfs zlib lzvn lzfse header fork).
Proof.
  unfold decompress_decmpfs, decode_inline, decode_resource_fork, decode_zlib_resource_fork,
    decode_chunked_resource_fork, inflate, lzvn_decode, lzfse_decode, unreachable_algorithm. solve_raises.
Qed.
End codecs.
#[export] Hint Resolve Named_try_le_u32 Named_uncompressed_size Named_decompress : raises.

(** ** Operations *)
Section operations.
Context {R : Type} `{ReadSeek R}.

Lemma Raises_read_at off n : Raises (read_at (R := R) off n).
Proof. unfold read_at, seek, read_exact. solve_raises. Qed.
Lemma Raises_read_slice off slice : Named slice → Raises (read_slice (R := R) off slice).
Proof. unfold read_slice, seek, read_exact. solve_raises. Qed.
Lemma Raises_read_at_eof off n : Raises (read_at_eof (R := R) off n).
Proof.
  unfold read_at_eof, seek. apply Raises_bind; [solve_raises|]. intros _ r. unfold eval, read_exact_eof.
  destruct (rs_read_exact n r) as [[e|] ?]; [destruct (kind e); [apply Named_Ok|by apply Named_Err]|apply Named_Ok].
Qed.
#[local] Hint Resolve Raises_read_at Raises_read_at_eof : raises.
#[local] Hint Extern 1 (Raises (read_slice _ _)) => apply Raises_read_slice; solve_raises : raises.

Lemma Raises_find_leaf {S} bs subtype (visit : S → bytes → bytes → S) cmp p s :
  Raises (find_leaf (R := R) bs subtype visit cmp p s).
Proof.
  unfold find_leaf. generalize (Z.to_nat MAX_BTREE_DEPTH), (∅ : gset Z). intros n visited. revert visited p.
  induction n as [|n IH]; intros visited p; cbn [find_leaf_loop]; unfold read_verified_node; solve_raises.
Qed.
#[local] Hint Resolve Raises_find_leaf : raises.
Lemma Raises_resolve om oid xid bs : Raises (resolve (R := R) om oid xid bs).
Proof. unfold resolve. solve_raises. Qed.
#[local] Hint Resolve Raises_resolve : raises.

Lemma Raises_for_children {St} target (f : Z → St → M R St) es st :
  (∀ p st, Raises (f p st)) → Raises (for_children target f es st).
Proof. intros Hf. revert st. induction es as [|e es IH]; intros st; cbn [for_children]; solve_raises. Qed.
#[local] Hint Resolve Raises_for_children : raises.

Lemma Raises_walk_fs_tree v bs target {S} (visit : S → bytes → bytes → S) s :
  Raises (walk_fs_tree (R := R) v bs target visit s).
Proof.
  unfold walk_fs_tree, read_omap. apply Raises_bind; [solve_raises|]. intros om. apply Raises_bind; [|solve_raises].
  generalize (Z.to_nat MAX_FSTREE_DEPTH), (ApfsVolume.root_tree_oid v), (∅ : gset Z, s). intros n.
  induction n as [|n IH]; intros oid st; cbn [descend_virtual]; unfold fetch_virtual; solve_raises.
Qed.

Lemma Raises_for_each_fs_record_for_oid v bs oid {S} (visit : S → bytes → bytes → S) s :
  Raises (for_each_fs_record_for_oid (R := R) v bs oid visit s).
Proof. apply Raises_walk_fs_tree. Qed.
#[local] Hint Resolve Raises_for_each_fs_record_for_oid : raises.

Lemma Raises_for_each_snap_record v bs {S} (visit : S → bytes → bytes → S) s :
  Raises (for_each_snap_record (R := R) v bs visit s).
Proof.
  unfold for_each_snap_record, read_omap. apply Raises_bind; [solve_raises|]. intros om.
  apply Raises_bind; [|solve_raises].
  generalize (Z.to_nat MAX_SNAP_TREE_DEPTH), true, (ApfsVolume.snap_meta_tree_oid v), (∅ : gset Z, s). intros n.
  induction n as [|n IH]; intros root oid st; cbn [descend_snap]; unfold fetch_snap; solve_raises.
Qed.
#[local] Hint Resolve Raises_for_each_snap_record : raises.

Lemma Raises_lookup_child v oid name bs : Raises (lookup_child (R := R) v oid name bs).
Proof. unfold lookup_child. solve_raises. Qed.
#[local] Hint Resolve Raises_lookup_child : raises.
Lemma Raises_load_inode v oid bs : Raises (load_inode (R := R) v oid bs).
Proof. unfold load_inode. solve_raises. Qed.
#[local] Hint Resolve Raises_load_inode : raises.

Lemma Raises_read_stream v oid size bs : Raises (read_stream (R := R) v oid size bs).
Proof. unfold read_stream, list_extents, read_extent. solve_raises. Qed.
Lemma Raises_get_xattr v oid name bs : Raises (get_xattr (R := R) v oid name bs).
Proof. unfold get_xattr, list_xattrs. solve_raises. Qed.
#[local] Hint Resolve Raises_read_stream Raises_get_xattr : raises.
Lemma Raises_decmpfs_header v oid bs : Raises (decmpfs_header (R := R) v oid bs).
Proof. unfold decmpfs_header. solve_raises. Qed.
Lemma Raises_resource_fork v oid bs : Raises (resource_fork (R := R) v oid bs).
Proof. unfold resource_fork. solve_raises. Qed.
#[local] Hint Resolve Raises_decmpfs_header Raises_resource_fork : raises.

Lemma Raises_read_obj_block p bs : Raises (read_obj_block (R := R) p bs).
Proof. unfold read_obj_block. solve_raises. Qed.
#[local] Hint Resolve Raises_read_obj_block : raises.
Lemma Raises_reap_lists mappings bs n k seen oid out : Raises (reap_lists (R := R) mappings bs n k seen oid out).
Proof. revert seen oid out. induction k as [|k IH]; intros seen oid out; cbn [reap_lists]; solve_raises. Qed.
#[local] Hint Resolve Raises_reap_lists : raises.

Lemma Raises_open_state : Raises (ApfsContainer.open_state (R := R)).
Proof.
  unfold ApfsContainer.open_state, resolve_live_checkpoint, scan_slot, collect_slot, read_block. solve_raises.
Qed.

Lemma Raises_run zlib lzvn lzfse q : Raises (run zlib lzvn lzfse (R := R) q).
Proof.
  destruct q; cbn [run answer]; unfold ApfsContainer.resolve_volumes, list_dir, open_path, list_xattrs,
    symlink_target, list_extents, read_data, read_compressed, data_size, list_snapshots, mount_snapshot, is_block_free,
    pending_objects; solve_raises.
Qed.
End operations.

(** ** Properties *)
Section properties.
Context (zlib : bytes → option bytes) (lzvn : bytes → Z → option bytes) (lzfse : bytes → option bytes).
Context {R : Type} `{ReadSeek R}.

(** C35 An error's message identifies the error.  Whatever the source does, an error of
    opening a container, of any query and of the integrity metadata carries the crate's
    own names only; and two errors with such names and with integers in their Rust types
    that have the same message are the same variant with the same fields, or are both I/O
    errors, whose texts are then equal texts of the platform.  So the message that reaches
    a caller of the adapter names the object, transaction, block, checksums or sizes at
    fault, and an I/O error is never taken for one of the format. *)
Theorem message_identifies io_display :
  (∀ e e', fits e → fits e' → named e = true → named e' = true →
    to_string io_display e = to_string io_display e' →
    e = e' ∨ ∃ source source', e = Io source ∧ e' = Io source' ∧ io_display source = io_display source') ∧
  (∀ r e, ApfsContainer.open (R := R) r = Err e → named e = true) ∧
  (∀ q r e, eval (run zlib lzvn lzfse (R := R) q) r = Err e → named e = true) ∧
  (∀ block e, IntegrityMeta.parse block = Err e → named e = true).
Proof.
  split_and!.
  - intros e e'. apply to_string_inj.
  - intros r e. unfold ApfsContainer.open. pose proof (Raises_open_state r) as Ho. unfold eval in Ho.
    destruct (ApfsContainer.open_state r) as [[[sb live]|e'|] r']; [done|intros [= <-]; by apply Ho|done].
  - intros q r. apply Raises_run.
  - apply Named_integrity_parse.
Qed.
End properties.

(** ** Witness: an error of a query, its message, and what the message determines. *)
Lemma message_identifies_witness :
  let io_display e := match kind e with UnexpectedEof => "unexpected end of file"%string | OtherKind => "other"%string end in
  let e := FieldOutOfRange "spaceman_phys" "block" 60 60 in
  eval (run demo_codec demo_lzvn demo_codec (IsBlockFree 1 60 256)) (cursor demo_device) = Err e ∧
  to_string io_display e = "structural field out of range in spaceman_phys: block = 60 (cap 60)"%string ∧
  named e = true ∧
  ∀ e', fits e' → named e' = true → to_string io_display e = to_string io_display e' → e = e'.
Proof.
  intros io_display e.
  destruct (message_identifies demo_codec demo_lzvn demo_codec (R := Cursor) io_display) as (Hinj & _ & Hrun & _).
  assert (He : eval (run demo_codec demo_lzvn demo_codec (IsBlockFree 1 60 256)) (cursor demo_device) = Err e)
    by (vm_compute; reflexivity).
  split; [exact He|]. split; [vm_compute; reflexivity|]. split; [exact (Hrun _ _ _ He)|].
  intros e' Hf Hn E. destruct (Hinj e e') as [?|(s & s' & Hs & _)]; [|exact Hf|exact (Hrun _ _ _ He)|exact Hn|exact E|assumption|discriminate Hs].
  unfold fits, e, in_u64. lia.
Defined.
