(* ===== verification/Typing.v ===== *)
(** * The types of the answers

    Rust's types bound what a value can be: a [u64] is below 2^64, a [String] is UTF-8, an
    array has its length.  The model writes integers as [Z] and strings as bytes, so the
    bounds are predicates here: [well_typed] is one per record, with what the code promises
    beyond the type (names end at a NUL, listings are ordered, counts are capped).  The
    theorem is type soundness: on any source, opening a container and every query give
    well-typed answers, and the answers are well-typed arguments of further queries. *)
From S2P Require Import Prelude Bytes Text Reader Object Container Node Walk BTree Omap Checkpoint Volume FsRecord Inode Dir Extent Xattr Compression FileData Snapshot Spaceman Reaper Apfs Session.
Import BTreeNodeHeader(is_leaf).

(** ** The types *)
Class Typed (A : Type) := well_typed : A → Prop.

(** A decoded name. *)
Definition text (s : bytes) : Prop := is_utf8 s = true ∧ x00 ∉ s.

#[export] Instance typed_option {A} `{Typed A} : Typed (option A) := λ o, ∀ a, o = Some a → well_typed a.
#[export] Instance typed_list {A} `{Typed A} : Typed (list A) := Forall well_typed.

#[export] Instance typed_superblock : Typed NxSuperblock.t := λ sb,
  in_u64 (NxSuperblock.xid sb) ∧ zlen (NxSuperblock.uuid sb) = 16 ∧ in_u32 (NxSuperblock.block_size sb) ∧
  in_u64 (NxSuperblock.block_count sb) ∧ in_u64 (NxSuperblock.incompatible_features sb) ∧
  in_u64 (NxSuperblock.xp_desc_base sb) ∧ 0 <= NxSuperblock.xp_desc_blocks sb < 2 ^ 31 ∧
  in_u64 (NxSuperblock.xp_data_base sb) ∧ 0 <= NxSuperblock.xp_data_blocks sb < 2 ^ 31 ∧
  in_u64 (NxSuperblock.omap_oid sb) ∧ in_u64 (NxSuperblock.spaceman_oid sb) ∧ in_u64 (NxSuperblock.reaper_oid sb) ∧
  Forall (λ oid, in_u64 oid ∧ oid ≠ 0) (NxSuperblock.fs_oids sb) ∧
  zlen (NxSuperblock.fs_oids sb) <= NX_MAX_FILE_SYSTEMS.

#[export] Instance typed_volume : Typed ApfsVolume.t := λ v,
  in_u64 (ApfsVolume.oid v) ∧ in_u64 (ApfsVolume.xid v) ∧ in_u32 (ApfsVolume.fs_index v) ∧
  in_u64 (ApfsVolume.features v) ∧ in_u64 (ApfsVolume.readonly_compatible_features v) ∧
  in_u64 (ApfsVolume.incompatible_features v) ∧ in_u32 (ApfsVolume.root_tree_type v) ∧
  in_u64 (ApfsVolume.omap_oid v) ∧ in_u64 (ApfsVolume.root_tree_oid v) ∧
  in_u64 (ApfsVolume.extentref_tree_oid v) ∧ in_u64 (ApfsVolume.snap_meta_tree_oid v) ∧
  zlen (ApfsVolume.uuid v) = 16 ∧ in_u64 (ApfsVolume.fs_flags v) ∧ text (ApfsVolume.name v).

#[export] Instance typed_dir_entry : Typed DirEntry.t := λ d,
  text (DirEntry.name d) ∧ in_u64 (DirEntry.file_id d) ∧ in_u64 (DirEntry.date_added d) ∧ in_u16 (DirEntry.flags d).

#[export] Instance typed_inode : Typed Inode.t := λ i,
  in_u64 (Inode.oid i) ∧ Inode.in_range i ∧ (∀ name, Inode.name i = Some name → text name) ∧
  (∀ size, Inode.size i = Some size → in_u64 size).

#[export] Instance typed_xattr : Typed Xattr.t := λ x,
  text (Xattr.name x) ∧ in_u16 (Xattr.flags x) ∧
  match Xattr.value x with
  | Embedded data => in_u16 (zlen data)
  | Stream oid size => in_u64 oid ∧ in_u64 size
  end.

#[export] Instance typed_extent : Typed FileExtent.t := extent_ok.

#[export] Instance typed_snapshot : Typed Snapshot.t := λ s,
  0 <= Snapshot.xid s < 2 ^ 60 ∧ text (Snapshot.name s) ∧ in_u64 (Snapshot.create_time s) ∧
  in_u64 (Snapshot.change_time s) ∧ in_u64 (Snapshot.sblock_oid s) ∧ in_u64 (Snapshot.extentref_tree_oid s) ∧
  in_u64 (Snapshot.inum s) ∧ in_u32 (Snapshot.flags s).

#[export] Instance typed_mapping : Typed CheckpointMapping.t := λ m,
  in_u64 (CheckpointMapping.oid m) ∧ in_u64 (CheckpointMapping.paddr m) ∧
  in_u32 (CheckpointMapping.obj_type m) ∧ in_u32 (CheckpointMapping.subtype m).

#[export] Instance typed_pending : Typed ReapPending.t := λ p,
  in_u64 (ReapPending.oid p) ∧ ReapPending.oid p ≠ 0 ∧ in_u32 (ReapPending.obj_type p).

#[export] Instance typed_omap_entry : Typed OmapEntry.t := λ e,
  in_u64 (OmapEntry.oid e) ∧ in_u64 (OmapEntry.xid e) ∧ in_u64 (OmapEntry.paddr e) ∧
  in_u32 (OmapEntry.size e) ∧ in_u32 (OmapEntry.flags e).

#[export] Instance typed_container {R} : Typed (ApfsContainer.t R) := λ c,
  well_typed (ApfsContainer.superblock c) ∧ in_u64 (ApfsContainer.live_superblock_paddr c) ∧
  well_typed (ApfsContainer.checkpoint_mappings c).

(** The arguments a query needs typed, and what it answers. *)
Definition query_ok (q : query) : Prop :=
  match q with
  | ReadData _ inode _ | DataSize _ inode _ => well_typed inode
  | MountSnapshot live _ _ => well_typed live
  | _ => True
  end.

Definition answer_ok (q : query) : answer q → Prop :=
  match q return answer q → Prop with
  | VolumeAddrs sb => λ addrs, Forall in_u64 addrs ∧ length addrs = length (NxSuperblock.fs_oids sb)
  | ListDir _ _ _ => well_typed
  | LookupChild _ _ _ _ => λ o, ∀ oid, o = Some oid → in_u64 oid
  | OpenPath _ _ _ => well_typed
  | ListXattrs _ _ _ => well_typed
  | SymlinkTarget _ _ _ => λ o, ∀ target, o = Some target → text target
  | ListExtents _ _ _ => λ es, well_typed es ∧ StronglySorted (key_le FileExtent.logical_offset) es
  | ReadData _ _ _ => λ data, in_u64 (zlen data)
  | DataSize _ _ _ => in_u64
  | ListSnapshots _ _ => λ ss, well_typed ss ∧ StronglySorted (key_le Snapshot.xid) ss
  | MountSnapshot _ _ _ => well_typed
  | IsBlockFree _ _ _ => λ _, True
  | PendingObjects _ _ _ => well_typed
  end.

(** ** Operations that yield typed values *)
Definition Yields {R A} (P : A → Prop) (m : M R A) : Prop := ∀ r a r', m r = (Ok a, r') → P a.

Create HintDb typed discriminated.

Section yields.
Context {R : Type}.

Lemma Yields_ret {A} (P : A → Prop) a : P a → Yields P (mret (M := M R) a).
Proof. by intros Ha r a' r' [= <- <-]. Qed.
Lemma Yields_throw {A} (P : A → Prop) e : Yields P (throw (R := R) e).
Proof. by intros r a r' [=]. Qed.
Lemma Yields_lift {A} (P : A → Prop) (o : outcome A) : (∀ a, o = Ok a → P a) → Yields P (lift (R := R) o).
Proof. by intros Ho r a r' [= -> <-]; apply Ho. Qed.
Lemma Yields_any {A} (m : M R A) : Yields (λ _, True) m.
Proof. done. Qed.
Lemma Yields_mono {A} (P Q : A → Prop) (m : M R A) : Yields P m → (∀ a, P a → Q a) → Yields Q m.
Proof. intros Hm HPQ r a r' E. by eapply HPQ, Hm. Qed.

Lemma Yields_bind {A B} (P : A → Prop) (Q : B → Prop) (m : M R A) (k : A → M R B) :
  Yields P m → (∀ a, P a → Yields Q (k a)) → Yields Q (m ≫= k).
Proof.
  intros Hm Hk r b r'. cbv [mbind M_bind]. destruct (m r) as [[a|e|] r1] eqn:E; [|done|done].
  intros Ek. by eapply Hk, Ek; eapply Hm.
Qed.

Lemma Yields_bind_any {A B} (Q : B → Prop) (m : M R A) (k : A → M R B) :
  (∀ a, Yields Q (k a)) → Yields Q (m ≫= k).
Proof. intros Hk. apply (Yields_bind (λ _, True)); [apply Yields_any|auto]. Qed.

Lemma Yields_foldM_in {A S} (P : S → Prop) (body : A → S → M R S) l s :
  P s → (∀ a s, a ∈ l → P s → Yields P (body a s)) → Yields P (foldM body l s).
Proof.
  revert s. induction l as [|a l IH]; intros s Hs Hb; cbn [foldM]; [by apply Yields_ret|].
  apply (Yields_bind P); [by apply Hb; [by left|]|]. intros s' Hs'. apply IH; [done|]. intros a' s0 Ha'.
  apply Hb. by right.
Qed.

Lemma Yields_foldM {A S} (P : S → Prop) (body : A → S → M R S) l s :
  P s → (∀ a s, P s → Yields P (body a s)) → Yields P (foldM body l s).
Proof. intros Hs Hb. apply Yields_foldM_in; auto. Qed.

Lemma visit_all_inv {S} (P : S → Prop) (visit : S → bytes → bytes → S) es s :
  P s → (∀ s k v, P s → P (visit s k v)) → P (visit_all visit es s).
Proof. intros Hs Hv. revert s Hs. induction es as [|e es IH]; intros s Hs; [done|]. apply IH. by apply Hv. Qed.
End yields.

(** ** Parsers *)

#[export] Hint Resolve le_u16_range le_u32_range le_u64_range : typed.

Lemma text_cstr data : text (decode_cstr data).
Proof. apply decode_cstr_spec. Qed.
Lemma text_nil : text [].
Proof. split; [done|apply not_elem_of_nil]. Qed.
#[export] Hint Resolve text_cstr text_nil : typed.

Lemma superblock_typed block sb : NxSuperblock.parse block = Ok sb → well_typed sb.
Proof.
  intros E. pose proof (nx_parse_ranges _ _ E) as (_ & _ & _ & _ & _ & Hcap). revert E Hcap.
  unfold NxSuperblock.parse. repeat split_if; try discriminate. intros [= <-] Hcap.
  assert (Hclear : ∀ x, in_u32 x → 0 <= Z.ldiff x XP_BLOCKS_TREE_FLAG < 2 ^ 31).
  { intros x Hx. rewrite (proj1 (clear_tree_flag x Hx)). by apply Z.mod_pos_bound. }
  unfold well_typed, typed_superblock. cbn in *. split_and!; try apply le_u64_range; try apply le_u32_range;
    try apply Hclear, le_u32_range; try done.
  - unfold zlen. by rewrite length_arr.
  - apply Forall_forall. intros oid (Hne & i & _ & ->)%fs_oids_spec. split; [apply le_u64_range|exact Hne].
Qed.

Lemma volume_typed block v : ApfsVolume.parse block = Ok v → well_typed v.
Proof.
  intros E. pose proof (volume_name_ok _ _ E) as Hname. revert E Hname. unfold ApfsVolume.parse.
  destruct (_ <? _); [done|]. destruct (ObjPhys.parse block) as [hdr|] eqn:Hp; [|done].
  do 3 (destruct (negb _); [done|]). intros [= <-] Hname.
  destruct (obj_phys_parse_Some _ _ Hp) as (_ & Ho & Hx & _).
  unfold well_typed, typed_volume. cbn in *. rewrite Ho, Hx.
  split_and!; try apply le_u64_range; try apply le_u32_range; try apply Hname.
  unfold zlen. by rewrite length_arr.
Qed.

Lemma omap_entry_typed key value : well_typed (omap_entry key value).
Proof. unfold well_typed, typed_omap_entry. cbn. split_and!; try apply le_u64_range; apply le_u32_range. Qed.

Lemma dir_entry_typed key value d : parse_dir_entry key value = Some d → well_typed d.
Proof.
  unfold parse_dir_entry. intros (name & Hn & [= <-])%bind_Some. unfold well_typed, typed_dir_entry. cbn.
  split; [|split_and!; try apply le_u64_range; apply le_u16_range].
  assert (Hat : ∀ off len, name_at key off len = Some name → text name).
  { intros off len. unfold name_at. destruct (0 <? len); [|done]. intros (n & _ & [= <-])%bind_Some. apply text_cstr. }
  unfold decode_drec_name in Hn. destruct (name_at key 12 _) as [n|] eqn:E; [injection Hn as ->|]; eauto.
Qed.

Lemma as_i32_range z : - 2 ^ 31 <= as_i32 z < 2 ^ 31.
Proof. unfold as_i32. pose proof (Z.mod_pos_bound (z + 2 ^ 31) (2 ^ 32) ltac:(done)). lia. Qed.

(** The name and the size the extended fields give. *)
Definition fields_ok (st : option bytes * option Z) : Prop :=
  (∀ name, st.1 = Some name → text name) ∧ (∀ size, st.2 = Some size → in_u64 size).

Lemma inode_typed oid value i : in_u64 oid → Inode.parse oid value = Ok i → well_typed i.
Proof.
  intros Ho (st & Hst & [= <-])%outcome_bind_Ok. unfold well_typed, typed_inode, Inode.in_range. cbn.
  assert (Hok : fields_ok st).
  { destruct (OFF_XFIELDS <? zlen value); [|by injection Hst as <-].
    apply outcome_bind_Ok in Hst as (blob & _ & Hst). apply outcome_bind_Ok in Hst as (fields & _ & [= <-]).
    enough (Hgen : ∀ st0, fields_ok st0 → fields_ok (fold_left Inode.xfield_step fields st0)) by by apply Hgen.
    induction fields as [|f fields IH]; intros st0 [Hn Hs]; [done|]. cbn. apply IH. unfold Inode.xfield_step.
    destruct (f.1 =? _); [split; [intros ? [= <-]; apply text_cstr|exact Hs]|].
    destruct (f.1 =? _); [|done]. split; [exact Hn|]. intros ? [= <-]. apply le_u64_range. }
  split; [exact Ho|]. split; [|exact Hok].
  split_and!; try apply le_u64_range; try apply le_u32_range; try apply as_i32_range. apply le_u16_range.
Qed.

Lemma xattr_typed key value x : parse_xattr key value = Some x → well_typed x.
Proof.
  unfold parse_xattr. destruct (_ =? 0); [done|]. intros (name & _ & [= <-])%bind_Some.
  unfold well_typed, typed_xattr. cbn. split; [apply text_cstr|]. split; [apply le_u16_range|].
  destruct (negb _); [split; apply le_u64_range|].
  destruct (get_range value _ _) as [data|] eqn:E; cbn; [|done]. apply get_range_length in E.
  pose proof (le_u16_range value OFF_XATTR_VAL_XDATA_LEN). urange.
Qed.

Lemma extent_typed key value : well_typed (parse_extent key value).
Proof. apply parse_extent_ranges. Qed.

Lemma snapshot_typed w value : well_typed (parse_snap_metadata (decode_jkey w).1 value).
Proof.
  unfold well_typed, typed_snapshot, parse_snap_metadata. cbn. split; [apply decode_jkey_oid|].
  split; [|split_and!; try apply le_u64_range; apply le_u32_range].
  destruct (get_range value _ _); auto with typed.
Qed.

Lemma mappings_typed buf : well_typed (block_mappings buf).
Proof.
  unfold block_mappings. apply Forall_fmap, Forall_forall. intros m _. unfold well_typed, typed_mapping. cbn.
  split_and!; try apply le_u64_range; apply le_u32_range.
Qed.

Lemma pending_typed oid ty : in_u64 oid → oid ≠ 0 → in_u32 ty → well_typed (ReapPending.mk oid ty).
Proof. done. Qed.

(** ** Walks *)
Section walks.
Context {R : Type} `{ReadSeek R}.

Lemma Yields_walk fetch cap mask subtype {S} (P : S → Prop) (visit : S → bytes → bytes → S) n id V s :
  P s → (∀ s k v, P s → P (visit s k v)) →
  Yields (λ st, P st.2) (walk (R := R) fetch cap mask subtype visit n id (V, s)).
Proof.
  intros Hs Hv. revert id V s Hs. induction n as [|n IH]; intros id V s Hs; cbn [walk]; [apply Yields_throw|].
  case_decide; [apply Yields_throw|]. apply Yields_bind_any. intros [buf|]; [|by apply Yields_ret].
  destruct (parse_node_header buf) as [hdr|]; [|by apply Yields_ret].
  destruct (is_leaf hdr); [apply Yields_ret; by apply visit_all_inv|].
  apply Yields_foldM; [done|]. intros k [V' s'] Hs'. by apply IH.
Qed.

Lemma Yields_find_leaf bs subtype {S} (P : S → Prop) (visit : S → bytes → bytes → S) cmp root s :
  P s → (∀ s k v, P s → P (visit s k v)) → Yields P (find_leaf (R := R) bs subtype visit cmp root s).
Proof.
  intros Hs Hv. unfold find_leaf. generalize (∅ : gset Z) root.
  induction (Z.to_nat MAX_BTREE_DEPTH) as [|n IH]; intros V p; cbn [find_leaf_loop]; [apply Yields_throw|].
  case_decide; [apply Yields_throw|]. apply Yields_bind_any. intros [buf|]; [|by apply Yields_ret].
  destruct (parse_node_header buf) as [hdr|]; [|by apply Yields_ret].
  destruct (is_leaf hdr); [apply Yields_ret; by apply visit_all_inv|].
  destruct (node_entries buf subtype); [by apply Yields_ret|apply IH].
Qed.

Lemma Yields_resolve om oid xid bs : Yields well_typed (resolve (R := R) om oid xid bs).
Proof.
  unfold resolve. apply (Yields_bind well_typed).
  - apply Yields_find_leaf; [done|]. intros best k v Hb. unfold omap_visit.
    destruct (decode_omap_key k) as [ko kx]. destruct (_ || _); [done|].
    destruct best as [b|]; [destruct (_ <? _); [|done]|]; intros e [= <-]; apply omap_entry_typed.
  - intros best Hb. apply Yields_lift. intros e ->%ok_or_Ok. by apply Hb.
Qed.

Lemma Yields_ext {A} (P : A → Prop) (m m' : M R A) : (∀ r, m r = m' r) → Yields P m' → Yields P m.
Proof. intros E Hm r a r'. rewrite E. apply Hm. Qed.

Lemma Yields_fs_records v bs oid {S} (P : S → Prop) (visit : S → bytes → bytes → S) s :
  P s → (∀ s k v, P s → P (visit s k v)) → Yields P (for_each_fs_record_for_oid (R := R) v bs oid visit s).
Proof.
  intros Hs Hv. unfold for_each_fs_record_for_oid, walk_fs_tree. apply Yields_bind_any. intros om.
  apply (Yields_bind (λ st, P st.2)).
  - eapply Yields_ext; [intros r; apply descend_virtual_walk|]. by apply Yields_walk.
  - intros st Hst. by apply Yields_ret.
Qed.

Lemma Yields_list_dir v oid bs : Yields well_typed (list_dir (R := R) v oid bs).
Proof.
  apply Yields_fs_records; [constructor|]. intros out k val Hout. unfold list_dir_visit.
  destruct (decode_jkey _) as [o ty]. destruct (_ || _); [done|].
  destruct (parse_dir_entry k val) as [d|] eqn:E; [|done].
  apply Forall_app. split; [done|]. apply Forall_singleton. by eapply dir_entry_typed.
Qed.

Lemma Yields_lookup_child v oid name bs : Yields (λ o, ∀ x, o = Some x → in_u64 x) (lookup_child (R := R) v oid name bs).
Proof.
  apply Yields_fs_records; [done|]. intros found k val Hf. unfold lookup_visit.
  destruct found; [done|]. destruct (decode_jkey _) as [o ty]. destruct (_ || _); [done|].
  destruct (parse_dir_entry k val) as [d|] eqn:E; [|done]. case_bool_decide; [|done].
  intros x [= <-]. by apply dir_entry_typed in E as (_ & ? & _).
Qed.

Lemma Yields_load_inode v oid bs : in_u64 oid → Yields well_typed (load_inode (R := R) v oid bs).
Proof.
  intros Ho. unfold load_inode. apply Yields_bind_any. intros val. apply Yields_bind_any. intros data.
  apply Yields_lift. intros i. by apply inode_typed.
Qed.

Lemma Yields_open_path v path bs : Yields well_typed (open_path (R := R) v path bs).
Proof.
  unfold open_path. apply (Yields_bind in_u64); [|intros oid Ho; by apply Yields_load_inode].
  apply Yields_foldM; [done|]. intros c cur Hc. eapply Yields_bind; [apply Yields_lookup_child|].
  intros [child|] Hch; [apply Yields_ret; by apply Hch|apply Yields_throw].
Qed.

Lemma Yields_list_xattrs v oid bs : Yields well_typed (list_xattrs (R := R) v oid bs).
Proof.
  apply Yields_fs_records; [constructor|]. intros out k val Hout. unfold xattrs_visit.
  destruct (decode_jkey _) as [o ty]. destruct (_ || _); [done|].
  destruct (parse_xattr k val) as [x|] eqn:E; [|done].
  apply Forall_app. split; [done|]. apply Forall_singleton. by eapply xattr_typed.
Qed.

Lemma Yields_symlink_target v oid bs : Yields (λ o, ∀ t, o = Some t → text t) (symlink_target (R := R) v oid bs).
Proof.
  unfold symlink_target. apply Yields_bind_any. intros x. apply Yields_ret.
  destruct x as [[data|]|]; [|done..]. intros t [= <-]. apply text_cstr.
Qed.

Lemma Yields_list_extents v oid bs :
  Yields (λ es, well_typed es ∧ StronglySorted (key_le FileExtent.logical_offset) es) (list_extents (R := R) v oid bs).
Proof.
  unfold list_extents. apply (Yields_bind well_typed).
  - apply Yields_fs_records; [constructor|]. intros out k val Hout. unfold extents_visit.
    destruct (decode_jkey _) as [o ty]. destruct (_ || _); [done|].
    apply Forall_app. split; [done|]. apply Forall_singleton. apply extent_typed.
  - intros es Hes. apply Yields_ret. split; [|apply sort_by_key_sorted].
    unfold well_typed, typed_list in *. by rewrite sort_by_key_perm.
Qed.

Lemma Yields_mount_snapshot live s bs : well_typed live → Yields well_typed (mount_snapshot (R := R) live s bs).
Proof.
  intros Hl. unfold mount_snapshot. apply Yields_bind_any. intros buf.
  apply (Yields_bind well_typed); [apply Yields_lift, volume_typed|]. intros v Hv. apply Yields_ret.
  unfold well_typed, typed_volume in *. cbn. naive_solver.
Qed.

Lemma Yields_pending_objects p ms bs : Yields well_typed (pending_objects (R := R) p ms bs).
Proof.
  unfold pending_objects. apply Yields_bind_any. intros reaper.
  assert (Hin : well_typed (in_progress reaper)).
  { unfold in_progress. destruct (Z.eqb_spec (le_u64 reaper NR_OID) 0) as [|Hne]; cbn [negb]; [constructor|].
    apply Forall_singleton, pending_typed; [apply le_u64_range|exact Hne|apply le_u32_range]. }
  revert Hin. generalize (∅ : gset Z) (le_u64 reaper NR_HEAD) (in_progress reaper).
  induction (Z.to_nat MAX_REAP_LISTS) as [|n IH]; intros seen oid out Hout; cbn [reap_lists];
    (destruct (oid =? 0); [by apply Yields_ret|]); [apply Yields_throw|].
  case_decide; [apply Yields_throw|]. apply Yields_bind_any. intros paddr. apply Yields_bind_any. intros block.
  apply IH. rewrite push_entries. apply Forall_app. split; [done|].
  apply Forall_forall. intros x [Hne (i & -> & _)%list_elem_of_fmap]%list_elem_of_filter.
  apply pending_typed; [apply le_u64_range|exact Hne|apply le_u32_range].
Qed.

Lemma Yields_resolve_volumes sb :
  Yields (λ addrs, Forall in_u64 addrs ∧ length addrs = length (NxSuperblock.fs_oids sb))
    (ApfsContainer.resolve_volumes (R := R) sb).
Proof.
  unfold ApfsContainer.resolve_volumes. destruct (negb _); [apply Yields_throw|].
  apply Yields_bind_any. intros buf. apply Yields_bind_any. intros om.
  assert (Hgen : ∀ l acc, Forall in_u64 acc → Yields (λ addrs, Forall in_u64 addrs ∧ length addrs = (length acc + length l)%nat)
    (foldM (λ fs_oid addrs, entry ← resolve om fs_oid (NxSuperblock.xid sb) (NxSuperblock.block_size sb);
                            mret (M := M R) (addrs ++ [OmapEntry.paddr entry])) l acc)).
  { induction l as [|o l IH]; intros acc Hacc; cbn [foldM]; [apply Yields_ret; split; [done|simpl; lia]|].
    apply (Yields_bind (λ a, Forall in_u64 a ∧ length a = S (length acc))).
    - apply (Yields_bind well_typed); [apply Yields_resolve|]. intros e He. apply Yields_ret.
      rewrite length_app, Forall_app, Forall_singleton. simpl. split; [split; [done|apply He]|lia].
    - intros a [Ha Hl]. eapply Yields_mono; [by apply IH|]. cbn. intros a' [? ?]. split; [done|lia]. }
  by apply (Hgen _ []).
Qed.
End walks.

(** ** Snapshots, contents and the container *)
Section sources.
Context {R : Type} `{LawfulReader R}.
Context (zlib : bytes → option bytes) (lzvn : bytes → Z → option bytes) (lzfse : bytes → option bytes).

Lemma Yields_snap_records v bs {S} (P : S → Prop) (visit : S → bytes → bytes → S) s :
  P s → (∀ s k val, P s → P (visit s k val)) → Yields P (for_each_snap_record (R := R) v bs visit s).
Proof.
  intros Hs Hv. unfold for_each_snap_record. apply Yields_bind_any. intros om.
  apply (Yields_bind (λ st, P st.2)); [|intros st Hst; by apply Yields_ret].
  assert (Hgen : ∀ n b id (st : gset Z * S), P st.2 →
    Yields (λ st, P st.2) (descend_snap (R := R) om (ApfsVolume.xid v) bs visit n b id st)); [|by apply Hgen].
  clear s Hs. induction n as [|n IH]; intros b id [V s] Hs; cbn [descend_snap]; [apply Yields_throw|].
  case_decide; [apply Yields_throw|]. apply Yields_bind_any. intros buf.
  destruct (parse_node_header buf) as [hdr|]; [|by apply Yields_ret].
  destruct (is_leaf hdr); [apply Yields_ret; by apply visit_all_inv|].
  apply Yields_foldM; [done|]. intros k st Hst. by apply IH.
Qed.

Lemma Yields_list_snapshots v bs :
  Yields (λ ss, well_typed ss ∧ StronglySorted (key_le Snapshot.xid) ss) (list_snapshots (R := R) v bs).
Proof.
  unfold list_snapshots. apply (Yields_bind well_typed).
  - apply Yields_snap_records; [constructor|]. intros out k val Hout. unfold snapshots_visit.
    pose proof (snapshot_typed (le_u64 k 0) val) as Hs. destruct (decode_jkey _) as [x ty].
    case_bool_decide; [|done]. apply Forall_app. split; [done|]. by apply Forall_singleton.
  - intros ss Hss. apply Yields_ret. split; [|apply sort_by_key_sorted].
    unfold well_typed, typed_list in *. by rewrite sort_by_key_perm.
Qed.

Lemma Yields_data_size v i bs : well_typed i → Yields in_u64 (data_size (R := R) v i bs).
Proof.
  intros (_ & _ & _ & Hs). unfold data_size. apply Yields_bind_any. intros [header|].
  - apply Yields_lift. intros size E. by apply uncompressed_size_Ok in E as (_ & _ & _ & ?).
  - apply Yields_ret. destruct (Inode.size i); [by apply Hs|done].
Qed.

Lemma Yields_read_data v i bs : well_typed i → Yields (λ data, in_u64 (zlen data)) (read_data zlib lzvn lzfse (R := R) v i bs).
Proof.
  intros Hi r data r' E. assert (Hv : eval (read_data zlib lzvn lzfse v i bs) r = Ok data) by (unfold eval; by rewrite E).
  assert (Hsize : 0 <= default 0 (Inode.size i)).
  { destruct Hi as (_ & _ & _ & Hs). destruct (Inode.size i) as [size|]; [|done]. by destruct (Hs size eq_refl). }
  pose proof (data_size_is_read_length zlib lzvn lzfse v i bs r data Hsize Hv) as Hd. unfold eval in Hd.
  destruct (data_size v i bs r) as [o r2] eqn:Ed. cbn in Hd. subst o. by apply (Yields_data_size v i bs Hi r _ r2).
Qed.

Lemma Yields_live sb : well_typed sb →
  Yields (λ live, in_u64 (LiveCheckpoint.superblock_paddr live) ∧ well_typed (LiveCheckpoint.mappings live))
    (resolve_live_checkpoint (R := R) sb).
Proof.
  intros (_ & _ & _ & _ & _ & Hbase & Hslots & _). unfold resolve_live_checkpoint.
  destruct (NxSuperblock.xp_desc_is_tree sb); [apply Yields_throw|]. destruct (negb _); [apply Yields_throw|].
  assert (Hpaddr : ∀ i, i ∈ seqZ 0 (NxSuperblock.xp_desc_blocks sb) →
    Yields in_u64 (lift (R := R) (add_u64 (NxSuperblock.xp_desc_base sb) i))).
  { intros i Hi%elem_of_seqZ. apply Yields_lift. intros p. unfold add_u64. destruct (_ <=? _) eqn:E; [|done].
    intros [= <-]. urange. }
  apply (Yields_bind (λ st, ∀ x p, best st = Some (x, p) → in_u64 p)).
  - apply Yields_foldM_in; [done|]. intros i st Hi Hst. unfold scan_slot. eapply Yields_bind; [by apply Hpaddr|].
    intros p Hp. apply Yields_bind_any. intros [buf|]; [|by apply Yields_ret]. apply Yields_ret.
    rewrite scan_block_best. destruct (nxsb_xid buf) as [x|]; [|done].
    destruct (best st) as [[bx bp]|]; [destruct (bx <? x)|]; naive_solver.
  - intros st Hst. destruct (best st) as [[x p]|] eqn:Eb; [|apply Yields_throw].
    apply (Yields_bind well_typed).
    + apply Yields_foldM_in; [constructor|]. intros i ms Hi Hms. unfold collect_slot. apply Yields_bind_any. intros q.
      apply Yields_bind_any. intros [buf|]; [|by apply Yields_ret]. apply Yields_ret. rewrite collect_block_mappings.
      apply Forall_app. split; [done|]. unfold map_mappings. destruct (ObjPhys.parse buf); [|constructor].
      destruct (_ && _); [apply mappings_typed|constructor].
    + intros ms Hms. apply Yields_ret. split; [by eapply Hst|done].
Qed.

Lemma open_typed (r : R) c : ApfsContainer.open r = Ok c → well_typed c.
Proof.
  intros (live & E & Hp & Hm)%open_Ok.
  assert (Hy : Yields (λ p, well_typed p.1 ∧ in_u64 (LiveCheckpoint.superblock_paddr p.2) ∧ well_typed (LiveCheckpoint.mappings p.2))
    (ApfsContainer.open_state (R := R))).
  { unfold ApfsContainer.open_state. apply Yields_bind_any. intros [block0|]; [|apply Yields_throw].
    apply (Yields_bind well_typed); [apply Yields_lift, superblock_typed|]. intros sb Hsb.
    destruct (is_fusion sb); [apply Yields_throw|]. eapply Yields_bind; [by apply Yields_live|]. intros lc Hlc.
    apply Yields_bind_any. intros buf. apply (Yields_bind well_typed); [apply Yields_lift, superblock_typed|].
    intros sb' Hsb'. by apply Yields_ret. }
  apply Hy in E as (Hsb & Hpa & Hms). cbn in *. unfold well_typed, typed_container. by rewrite Hp, Hm.
Qed.

Lemma Yields_run q : query_ok q → Yields (answer_ok q) (run (R := R) zlib lzvn lzfse q).
Proof.
  destruct q; cbn [run answer_ok query_ok]; intros Hq.
  - apply Yields_resolve_volumes.
  - apply Yields_list_dir.
  - apply Yields_lookup_child.
  - apply Yields_open_path.
  - apply Yields_list_xattrs.
  - apply Yields_symlink_target.
  - apply Yields_list_extents.
  - by apply Yields_read_data.
  - by apply Yields_data_size.
  - apply Yields_list_snapshots.
  - by apply Yields_mount_snapshot.
  - apply Yields_any.
  - apply Yields_pending_objects.
Qed.

(** C25 Type soundness: on any source, an opened container is well typed (its superblock,
    the address of the live one, its mappings), a block that parses as a volume is a
    well-typed volume, and every query gives a well-typed answer: integers fit the width of
    their Rust type, names and link targets are UTF-8 without a NUL, an identifier array has
    16 bytes, at most a hundred volumes are listed, one address for each, extents and
    snapshots come in order, and contents have a length the address space holds. *)
Theorem answers_well_typed :
  (∀ (r : R) c, ApfsContainer.open r = Ok c → well_typed c) ∧
  (∀ block v, ApfsVolume.parse block = Ok v → well_typed v) ∧
  (∀ q (r : R) a, query_ok q → eval (run zlib lzvn lzfse q) r = Ok a → answer_ok q a).
Proof.
  split; [apply open_typed|]. split; [apply volume_typed|]. intros q r a Hq E. unfold eval in E.
  destruct (run zlib lzvn lzfse q r) as [o r'] eqn:Er. cbn in E. subst o. by eapply Yields_run.
Qed.
End sources.

(** The path of the demo container's file gives a typed inode, which is a typed argument:
    the length of its content is announced as a [u64]. *)
Lemma answers_well_typed_witness :
  ∃ i, eval (run demo_codec demo_lzvn demo_codec (OpenPath session_volume (str "/a.txt") 4096)) (cursor demo_container) = Ok i ∧
    well_typed i ∧
    ∀ size, eval (run demo_codec demo_lzvn demo_codec (DataSize session_volume i 4096)) (cursor demo_container) = Ok size →
      in_u64 size.
Proof.
  destruct (answers_well_typed (R := Cursor) demo_codec demo_lzvn demo_codec) as (_ & _ & Hrun).
  assert (Hi : ∃ i, eval (run demo_codec demo_lzvn demo_codec (OpenPath session_volume (str "/a.txt") 4096)) (cursor demo_container)
    = Ok i) by (eexists; vm_compute; reflexivity).
  destruct Hi as [i Hi]. exists i. split; [exact Hi|].
  pose proof (Hrun (OpenPath session_volume (str "/a.txt") 4096) (cursor demo_container) i I Hi) as Ht.
  split; [exact Ht|]. intros size Hs. exact (Hrun (DataSize session_volume i 4096) (cursor demo_container) size Ht Hs).
Defined.
