(* ===== verification/Damage.v ===== *)
(** * Damage the checksums detect

    Every metadata block the crate follows is checked before a field of it is used.  Here
    two states of a source are compared: [detectable bs r r'] says that block by block
    the second answers as the first or with a block that fails its checksum.  An operation
    is [Evident] when on the second source it gives the answer of the first or a named
    error, never another answer.  The class is closed under the combinators and the
    walks, so that every operation on metadata has it. *)
From S2P Require Import Prelude Bytes Reader Object Container Node Build Walk BTree Omap Volume FsRecord Inode Dir Extent Xattr Compression FileData Snapshot Spaceman Reaper Apfs Session.
Import BTreeNodeHeader(is_leaf).

(** The errors that report a damaged block. *)
Definition names_damage (e : ApfsError) : Prop :=
  match e with ChecksumMismatch _ _ _ | UnexpectedObjectType _ _ _ => True | _ => False end.

Definition damaged_outcome {A} (o : outcome A) : Prop := ∃ e, o = Err e ∧ names_damage e.

Definition detectable {R} `{ReadSeek R} (bs : Z) (r r' : R) : Prop :=
  ∀ p, let off := saturating_mul p bs in
    eval (read_at off bs) r' = eval (read_at off bs) r ∨
    ∃ buf, eval (read_at off bs) r' = Ok buf ∧ cksum_ok buf = false.

(** The same answer, or an error that names the damage. *)
Class Evident {R} `{ReadSeek R} (bs : Z) {A} (m : M R A) : Prop :=
  evident r r' : detectable bs r r' → eval m r' = eval m r ∨ damaged_outcome (eval m r').

Create HintDb evident discriminated.
#[export] Hint Constants Opaque : evident.
#[export] Hint Variables Transparent : evident.

(** ** Combinators *)
Section combinators.
Context {R : Type} `{LawfulReader R} (bs : Z).

Lemma Evident_lift {A} (o : outcome A) : Evident bs (lift (R := R) o).
Proof. intros r r' _. by left. Qed.

Lemma Evident_ret {A} (a : A) : Evident bs (mret (M := M R) a).
Proof. intros r r' _. by left. Qed.

Lemma Evident_throw {A} e : Evident bs (throw (R := R) (A := A) e).
Proof. apply Evident_lift. Qed.

Lemma Evident_ext {A} (m m' : M R A) : (∀ r, m r = m' r) → Evident bs m' → Evident bs m.
Proof. intros He Hm r r' Hd. rewrite !(eval_ext _ _ _ (He _)). by apply Hm. Qed.

Lemma damaged_bind {A B} (o : outcome A) (k : A → outcome B) : damaged_outcome o → damaged_outcome (o ≫= k).
Proof. intros (e & -> & He). by exists e. Qed.

Lemma Evident_bind {A B} (m : M R A) (k : A → M R B) :
  Stable m → (∀ a, Stable (k a)) → Evident bs m → (∀ a, Evident bs (k a)) → Evident bs (m ≫= k).
Proof.
  intros Hsm Hsk Hm Hk r r' Hd. rewrite !eval_bind by done.
  destruct (Hm r r' Hd) as [->|Hbad]; [|right; by apply damaged_bind].
  destruct (eval m r); simpl; [by apply Hk|by left|by left].
Qed.

Lemma Evident_foldM {A S} (body : A → S → M R S) l s :
  (∀ x s, Stable (body x s)) → (∀ x s, Evident bs (body x s)) → Evident bs (foldM body l s).
Proof.
  intros Hs Hb. revert s. induction l as [|x l IH]; intros s; simpl; [apply Evident_ret|].
  apply Evident_bind; auto using Stable_foldM.
Qed.

(** A block read, then a gate: what fails the checksum is refused by name. *)
Lemma Evident_read_gate {A} p (gate : bytes → outcome A) :
  (∀ buf, cksum_ok buf = false → damaged_outcome (gate buf)) →
  Evident bs (read_at (R := R) (saturating_mul p bs) bs ≫= λ buf, lift (gate buf)).
Proof.
  intros Hg r r' Hd. rewrite !eval_bind by solve_stable.
  destruct (Hd p) as [->|(buf & -> & Hc)]; [by left|]. right. by apply Hg.
Qed.
End combinators.
#[export] Hint Resolve Evident_lift Evident_ret Evident_throw : evident.

(** Prove an operation evident by following its binds and branches. *)
Ltac solve_evident :=
  intros; unfold throw;
  repeat first
  [ progress intros
  | solve [eauto with evident]
  | solve [solve_stable]
  | apply Evident_bind
  | apply Evident_foldM
  | match goal with
    | |- Evident _ (if ?b then _ else _) => destruct b
    | |- Evident _ (match ?x with _ => _ end) => destruct x
    | |- Evident _ (let '(_, _) := ?x in _) => destruct x
    end ].

(** ** The gates *)

(** The gate of the operations that check a block before they parse it. *)
Definition node_gate (p : Z) (buf : bytes) : outcome bytes :=
  if cksum_ok buf then Ok buf else Err (checksum_error p buf).

Lemma node_gate_damaged p buf : cksum_ok buf = false → damaged_outcome (node_gate p buf).
Proof. intros Hc. unfold node_gate. rewrite Hc. by eexists. Qed.

Lemma omap_gate_damaged buf : cksum_ok buf = false → damaged_outcome (ObjectMap.parse buf).
Proof.
  intros Hc. unfold ObjectMap.parse. case_match; [by eexists|]. case_match; [|by eexists].
  case_match; [by eexists|]. unfold cksum_ok in Hc. rewrite Hc. by eexists.
Qed.

Lemma volume_gate_damaged buf : cksum_ok buf = false → damaged_outcome (ApfsVolume.parse buf).
Proof.
  intros Hc. unfold ApfsVolume.parse. case_match; [by eexists|]. case_match; [|by eexists].
  case_match; [by eexists|]. cbv zeta. case_match; [by eexists|]. unfold cksum_ok in Hc. rewrite Hc. by eexists.
Qed.

Section operations.
Context {R : Type} `{LawfulReader R} (bs : Z).

Lemma read_gate_if {A} p (f : bytes → A) (buf : bytes) r :
  ((if cksum_ok buf then mret (f buf) else throw (checksum_error p buf)) : M R A) r =
  lift (outcome_map f (node_gate p buf)) r.
Proof. unfold node_gate. by destruct (cksum_ok buf). Qed.

Lemma damaged_map {A B} (f : A → B) o : damaged_outcome o → damaged_outcome (outcome_map f o).
Proof. intros (e & -> & He). by exists e. Qed.

(** The three ways to fetch a node. *)
Lemma Evident_checked_block {A} p q (f : bytes → A) :
  Evident bs (buf ← read_at (R := R) (saturating_mul p bs) bs;
              if cksum_ok buf then mret (f buf) else throw (checksum_error q buf)).
Proof.
  eapply Evident_ext; [intros r; apply M_bind_ext; [done|intros; apply read_gate_if]|].
  apply (Evident_read_gate bs p (λ buf, outcome_map f (node_gate q buf))).
  intros buf Hc. by apply damaged_map, node_gate_damaged.
Qed.

Lemma Evident_checked_buffer p q :
  Evident bs (buf ← read_at (R := R) (saturating_mul p bs) bs;
              if cksum_ok buf then mret buf else throw (checksum_error q buf)).
Proof. apply (Evident_checked_block p q (λ b, b)). Qed.

Lemma Evident_read_verified_node p : Evident bs (read_verified_node (R := R) p bs).
Proof.
  unfold read_verified_node. destruct (checked_mul p bs) as [off|] eqn:Hm; [|apply Evident_ret].
  apply checked_mul_Some in Hm as [-> Hm]. replace (p * bs) with (saturating_mul p bs) by (unfold saturating_mul; lia).
  apply Evident_checked_block.
Qed.
#[local] Hint Resolve Evident_read_verified_node : evident.

Lemma Evident_find_leaf_loop subtype {S} (visit : S → bytes → bytes → S) cmp n visited p s :
  Evident bs (find_leaf_loop (R := R) bs subtype visit cmp n visited p s).
Proof. revert visited p s. induction n as [|n IH]; intros visited p s; cbn [find_leaf_loop]; solve_evident. Qed.
#[local] Hint Resolve Evident_find_leaf_loop : evident.

Lemma Evident_resolve om oid xid : Evident bs (resolve (R := R) om oid xid bs).
Proof. unfold resolve, find_leaf. solve_evident. Qed.
#[local] Hint Resolve Evident_resolve : evident.

Lemma Evident_fetch_virtual om xid p : Evident bs (fetch_virtual (R := R) om xid bs p).
Proof. unfold fetch_virtual. apply Evident_bind; [solve_stable|solve_stable|solve_evident|]. intros. apply Evident_checked_buffer. Qed.

Lemma Evident_fetch_snap om xid is_root p : Evident bs (fetch_snap (R := R) om xid bs is_root p).
Proof.
  unfold fetch_snap. apply Evident_bind; [solve_stable|solve_stable|solve_evident|]. intros. apply Evident_checked_buffer.
Qed.
#[local] Hint Resolve Evident_fetch_virtual Evident_fetch_snap : evident.
#[local] Hint Resolve Stable_fetch_snap Stable_descend_snap : stable.

Lemma Evident_read_obj_block p : Evident bs (read_obj_block (R := R) p bs).
Proof.
  unfold read_obj_block. eapply Evident_ext; [|apply (Evident_read_gate bs p
    (λ buf, if cksum_ok buf then Ok buf else Err (ChecksumMismatch (le_u64 buf 8) (fletcher64_stored buf) (fletcher64_checksum buf))))].
  - intros r. apply M_bind_ext; [done|]. intros buf r'. unfold cksum_ok. cbv zeta. by destruct (_ =? _).
  - intros buf ->. by eexists.
Qed.
#[local] Hint Resolve Evident_read_obj_block : evident.

(** ** The walks *)
Lemma Evident_walk fetch cap mask subtype {S} (visit : S → bytes → bytes → S) n p st :
  (∀ p, Stable (fetch p)) → (∀ p, Evident bs (fetch p)) →
  Evident bs (walk (R := R) fetch cap mask subtype visit n p st).
Proof.
  intros Hs He. assert (Hw : ∀ n q st, Stable (walk fetch cap mask subtype visit n q st)) by (intros; by apply Stable_walk).
  revert p st. induction n as [|n IH]; intros p [visited s]; cbn [walk]; solve_evident.
Qed.

Lemma Evident_read_omap v : Evident bs (read_omap (R := R) v bs).
Proof. apply Evident_read_gate, omap_gate_damaged. Qed.
#[local] Hint Resolve Evident_read_omap : evident.

Lemma Evident_descend_virtual om xid target {S} (visit : S → bytes → bytes → S) n p st :
  Evident bs (descend_virtual (R := R) om xid bs target visit n p st).
Proof.
  eapply Evident_ext; [intros r; apply descend_virtual_walk|]. apply Evident_walk; [apply _|].
  intros q. unfold fetch_node. solve_evident.
Qed.
#[local] Hint Resolve Evident_descend_virtual : evident.

Lemma Evident_walk_fs_tree v target {S} (visit : S → bytes → bytes → S) s :
  Evident bs (walk_fs_tree (R := R) v bs target visit s).
Proof. unfold walk_fs_tree. solve_evident. Qed.

Lemma Evident_for_each_fs_record_for_oid v oid {S} (visit : S → bytes → bytes → S) s :
  Evident bs (for_each_fs_record_for_oid (R := R) v bs oid visit s).
Proof. apply Evident_walk_fs_tree. Qed.
#[local] Hint Resolve Evident_for_each_fs_record_for_oid : evident.

Lemma Evident_descend_snap om xid {S} (visit : S → bytes → bytes → S) n is_root p st :
  Evident bs (descend_snap (R := R) om xid bs visit n is_root p st).
Proof. revert is_root p st. induction n as [|n IH]; intros is_root p st; cbn [descend_snap]; solve_evident. Qed.
#[local] Hint Resolve Evident_descend_snap : evident.

Lemma Evident_for_each_snap_record v {S} (visit : S → bytes → bytes → S) s :
  Evident bs (for_each_snap_record (R := R) v bs visit s).
Proof. unfold for_each_snap_record. solve_evident. Qed.
#[local] Hint Resolve Evident_for_each_snap_record : evident.

(** ** The operations on metadata *)
Lemma Evident_list_dir v oid : Evident bs (list_dir (R := R) v oid bs).
Proof. unfold list_dir. solve_evident. Qed.
Lemma Evident_lookup_child v oid name : Evident bs (lookup_child (R := R) v oid name bs).
Proof. unfold lookup_child. solve_evident. Qed.
#[local] Hint Resolve Evident_lookup_child : evident.
Lemma Evident_load_inode v oid : Evident bs (load_inode (R := R) v oid bs).
Proof. unfold load_inode. solve_evident. Qed.
#[local] Hint Resolve Evident_load_inode : evident.
Lemma Evident_open_path v path : Evident bs (open_path (R := R) v path bs).
Proof. unfold open_path. solve_evident. Qed.
Lemma Evident_list_extents v oid : Evident bs (list_extents (R := R) v oid bs).
Proof. unfold list_extents. solve_evident. Qed.
Lemma Evident_list_xattrs v oid : Evident bs (list_xattrs (R := R) v oid bs).
Proof. unfold list_xattrs. solve_evident. Qed.
Lemma Evident_symlink_target v oid : Evident bs (symlink_target (R := R) v oid bs).
Proof. unfold symlink_target, get_xattr, list_xattrs. solve_evident. Qed.
Lemma Evident_list_snapshots v : Evident bs (list_snapshots (R := R) v bs).
Proof. unfold list_snapshots. solve_evident. Qed.

Lemma Evident_mount_snapshot v s : Evident bs (mount_snapshot (R := R) v s bs).
Proof.
  unfold mount_snapshot. eapply Evident_ext; [intros r; symmetry; apply M_bind_assoc|].
  apply Evident_bind; [solve_stable|solve_stable|apply Evident_read_gate, volume_gate_damaged|solve_evident].
Qed.

Lemma Evident_reap_lists mappings n k seen oid out : Evident bs (reap_lists (R := R) mappings bs n k seen oid out).
Proof. revert seen oid out. induction k as [|k IH]; intros seen oid out; cbn [reap_lists]; solve_evident. Qed.
#[local] Hint Resolve Evident_reap_lists : evident.
Lemma Evident_pending_objects p mappings : Evident bs (pending_objects (R := R) p mappings bs).
Proof. unfold pending_objects. solve_evident. Qed.

Lemma Evident_resolve_volumes sb : NxSuperblock.block_size sb = bs → Evident bs (ApfsContainer.resolve_volumes (R := R) sb).
Proof.
  intros Hb. unfold ApfsContainer.resolve_volumes. rewrite Hb. case_match; [apply Evident_throw|].
  eapply Evident_ext; [intros r; symmetry; apply M_bind_assoc|].
  apply Evident_bind; [solve_stable|solve_stable|apply Evident_read_gate, omap_gate_damaged|solve_evident].
Qed.
End operations.

(** ** Damaged images *)

(** One 32-bit word of a sealed block is another: any word, its checksum's too, but the
    exchange of all zeroes and all ones, which Fletcher-64 cannot tell apart. *)
Definition word_damage (b b' : bytes) : Prop :=
  cksum_ok b = true ∧ ∃ pre w w' post k,
    b = pre ++ w ++ post ∧ b' = pre ++ w' ++ post ∧ zlen pre = 4 * Z.of_nat k ∧
    length w = 4%nat ∧ length w' = 4%nat ∧ w ≠ w' ∧
    ¬ (w = [x00; x00; x00; x00] ∧ w' = [xff; xff; xff; xff]) ∧
    ¬ (w = [xff; xff; xff; xff] ∧ w' = [x00; x00; x00; x00]).

(** Block [i] of an image, if it lies inside. *)
Definition block_at (bs : Z) (data : bytes) (i : Z) : option bytes := get_range data (i * bs) (i * bs + bs).

(** Any number of sealed blocks of the image are damaged, each in one word. *)
Definition damaged_image (bs : Z) (data data' : bytes) : Prop :=
  zlen data' = zlen data ∧ ∀ i,
    block_at bs data' i = block_at bs data i ∨
    ∃ b b', block_at bs data i = Some b ∧ block_at bs data' i = Some b' ∧ word_damage b b'.

(** The checksum does not depend on the words it is stored in. *)
Lemma fletcher64_head h h' t : length h = 8%nat → length h' = 8%nat →
  fletcher64_checksum (h ++ t) = fletcher64_checksum (h' ++ t).
Proof.
  intros Hh Hh'. unfold fletcher64_checksum.
  do 9 (destruct h as [|? h]; try discriminate). do 9 (destruct h' as [|? h']; try discriminate). reflexivity.
Qed.

Lemma fletcher64_stored_head h t : length h = 8%nat → fletcher64_stored (h ++ t) = from_le_bytes h.
Proof.
  intros Hh. unfold fletcher64_stored, le_u64. rewrite le_read_app_l by (unfold zlen; lia).
  rewrite le_read_in by (unfold zlen; lia). simpl. by rewrite drop_0, take_ge by lia.
Qed.

Lemma word_damage_detected b b' : 8 <= zlen b → word_damage b b' → cksum_ok b' = false.
Proof.
  intros Hl (Hok & pre & w & w' & post & k & -> & -> & Hp & Hw & Hw' & Hne & H01 & H10).
  apply not_true_iff_false. intros Hok'. destruct (decide (2 ≤ k)%nat) as [Hk|Hk].
  { apply (cksum_word_iff pre w w' post k) in Hok'; [|done..]. destruct Hok' as [?|[?|?]]; auto. }
  set (n := (8 - length pre - 4)%nat). set (s := take n post). set (t := drop n post).
  assert (E : ∀ v, pre ++ v ++ post = (pre ++ v ++ s) ++ t)
    by (intros v; unfold s, t; by rewrite <- !app_assoc, take_drop).
  assert (Hs : length (pre ++ w ++ s) = 8%nat).
  { unfold s, n, zlen in *. rewrite !length_app in *. rewrite length_take. lia. }
  rewrite E in Hok, Hok'.
  assert (Hs' : length (pre ++ w' ++ s) = 8%nat) by (rewrite !length_app in *; lia).
  unfold cksum_ok in *. rewrite Z.eqb_eq in Hok, Hok'. rewrite (fletcher64_head _ _ t Hs Hs') in Hok. rewrite <- Hok' in Hok.
  rewrite !fletcher64_stored_head in Hok by done. apply from_le_bytes_inj in Hok; [|congruence].
  apply app_inv_head in Hok. by apply app_inj_1 in Hok as [? _]; [|congruence].
Qed.

Lemma damaged_image_detectable bs data data' : 8 <= bs → zlen data <= u64_max → damaged_image bs data data' →
  detectable bs (cursor data) (cursor data').
Proof.
  intros Hbs Hmax (Hlen & Hblocks) p. cbv zeta. rewrite !cursor_read_at.
  destruct (Z.leb_spec (p * bs) u64_max) as [Hp|Hp].
  - replace (saturating_mul p bs) with (p * bs) by (unfold saturating_mul; lia).
    destruct (Hblocks p) as [E|(b & b' & E & E' & Hd)]; unfold block_at in *; [rewrite E; by left|].
    rewrite E'. right. exists b'. split; [done|]. apply (word_damage_detected b); [|done].
    apply get_range_length in E. lia.
  - replace (saturating_mul p bs) with u64_max by (unfold saturating_mul; lia).
    rewrite !(proj2 (get_range_None _ _ _)) by lia. by left.
Qed.

(** One word of one sealed block. *)
Lemma one_word_damaged bs pre w w' post j k b :
  0 < bs → zlen pre = j * bs + 4 * Z.of_nat k → 4 * Z.of_nat k + 4 <= bs → length w = 4%nat → length w' = 4%nat → w ≠ w' →
  ¬ (w = [x00; x00; x00; x00] ∧ w' = [xff; xff; xff; xff]) →
  ¬ (w = [xff; xff; xff; xff] ∧ w' = [x00; x00; x00; x00]) → 0 <= j →
  block_at bs (pre ++ w ++ post) j = Some b → cksum_ok b = true →
  damaged_image bs (pre ++ w ++ post) (pre ++ w' ++ post).
Proof.
  intros Hbs Hp Hk Hw Hw' Hne H01 H10 Hj Hb Hok.
  assert (Hlen : zlen (pre ++ w' ++ post) = zlen (pre ++ w ++ post)) by (unfold zlen; rewrite !length_app; lia).
  split; [done|]. intros i. destruct (Z.lt_trichotomy i j) as [Hi|[->|Hi]].
  - left. unfold block_at. rewrite !get_range_app_l by nia. done.
  - right. exists b. set (c := 4 * Z.of_nat k) in *.
    assert (E : ∀ v, length v = 4%nat → ∀ b, block_at bs (pre ++ v ++ post) j = Some b →
      b = drop (Z.to_nat (j * bs)) pre ++ v ++ take (Z.to_nat (bs - c - 4)) post).
    { intros v Hv b0 E. unfold block_at in E. apply get_range_Some in E as [Hr ->].
      unfold zlen in Hp. rewrite drop_app_le by lia. rewrite !take_app. rewrite !length_drop.
      rewrite (take_ge (drop _ pre)) by (rewrite length_drop; lia). f_equal. rewrite (take_ge v) by lia. do 2 f_equal. lia. }
    assert (Hb' : ∃ b', block_at bs (pre ++ w' ++ post) j = Some b').
    { unfold block_at in *. destruct (get_range (pre ++ w' ++ post) _ _) eqn:E'; [eauto|].
      apply get_range_None in E'. apply get_range_Some in Hb as [Hr _]. rewrite Hlen in E'. lia. }
    destruct Hb' as [b' Hb']. exists b'. split; [done|]. split; [done|]. split; [done|].
    exists (drop (Z.to_nat (j * bs)) pre), w, w', (take (Z.to_nat (bs - c - 4)) post), k.
    split; [by apply E|]. split; [by apply E|]. split_and!; try done.
    unfold zlen in *. rewrite length_drop. lia.
  - left. unfold block_at. rewrite !app_assoc. rewrite !get_range_skip by (rewrite zlen_app; unfold zlen at 2; nia).
    rewrite !zlen_app. unfold zlen at 2 4 6 8. by rewrite Hw, Hw'.
Qed.

(** The same, at an offset of an image. *)
Lemma word_at_damaged bs data n w w' j k b :
  0 < bs → Z.of_nat n = j * bs + 4 * Z.of_nat k → 4 * Z.of_nat k + 4 <= bs → 0 <= j →
  take 4 (drop n data) = w → length w = 4%nat → length w' = 4%nat → w ≠ w' →
  ¬ (w = [x00; x00; x00; x00] ∧ w' = [xff; xff; xff; xff]) →
  ¬ (w = [xff; xff; xff; xff] ∧ w' = [x00; x00; x00; x00]) →
  block_at bs data j = Some b → cksum_ok b = true →
  damaged_image bs data (take n data ++ w' ++ drop (n + 4) data).
Proof.
  intros Hbs Hn Hk Hj <- Hw Hw' Hne H01 H10 Hb Hok.
  assert (E : data = take n data ++ take 4 (drop n data) ++ drop (n + 4) data) by by rewrite <- drop_drop, !take_drop.
  rewrite E in Hb. rewrite E at 1.
  apply (one_word_damaged bs _ _ _ _ j k b); try done.
  unfold zlen. rewrite length_take. rewrite length_take, length_drop in Hw. lia.
Qed.

(** ** Properties *)

(** The block size of a query whose every read is of a checked block; none for those that
    read contents or bitmaps, which the format does not check. *)
Definition checked_block_size (q : query) : option Z :=
  match q with
  | VolumeAddrs sb => Some (NxSuperblock.block_size sb)
  | ListDir _ _ bs | LookupChild _ _ _ bs | OpenPath _ _ bs | ListXattrs _ _ bs | SymlinkTarget _ _ bs
  | ListExtents _ _ bs | ListSnapshots _ bs | MountSnapshot _ _ bs | PendingObjects _ _ bs => Some bs
  | ReadData _ _ _ | DataSize _ _ _ | IsBlockFree _ _ _ => None
  end.

(** C5 Damage never changes an answer: when any number of sealed blocks of an image have
    one word damaged each, every query that reads checked blocks (volume addresses,
    directories, lookups, paths, attributes, links, extents, snapshots, mounts, pending
    deletions) either gives on the damaged image the answer it gives on the image, or
    fails with an error that names the damage (a checksum mismatch or an unexpected
    object type); it never gives a different answer, nor an error of another kind. *)
Theorem damage_never_changes_an_answer zlib lzvn lzfse q bs data data' :
  checked_block_size q = Some bs → 8 <= bs → zlen data <= u64_max → damaged_image bs data data' →
  eval (run zlib lzvn lzfse q) (cursor data') = eval (run zlib lzvn lzfse q) (cursor data) ∨
  ∃ e, eval (run zlib lzvn lzfse q) (cursor data') = Err e ∧ names_damage e.
Proof.
  intros Hq Hbs Hmax Hd. pose proof (damaged_image_detectable bs data data' Hbs Hmax Hd) as Hdet.
  assert (He : Evident bs (run (R := Cursor) zlib lzvn lzfse q)); [|exact (He _ _ Hdet)].
  destruct q; try discriminate Hq; injection Hq as Hq; try (subst block_size); cbn [run answer].
  - by apply Evident_resolve_volumes.
  - apply Evident_list_dir.
  - apply Evident_lookup_child.
  - apply Evident_open_path.
  - apply Evident_list_xattrs.
  - apply Evident_symlink_target.
  - apply Evident_list_extents.
  - apply Evident_list_snapshots.
  - apply Evident_mount_snapshot.
  - apply Evident_pending_objects.
Qed.

(** ** Witness: the file a directory entry names is changed to the root directory *)
Definition entry_word : nat := Z.to_nat (15 * 4096 + 3940).
Definition demo_damaged : bytes :=
  take entry_word demo_container ++ [x00; x00; x02; x00] ++ drop (entry_word + 4) demo_container.

Lemma demo_damaged_ok : damaged_image 4096 demo_container demo_damaged.
Proof.
  assert (Hw : take 4 (drop entry_word demo_container) = [x00; x00; x10; x00]) by (vm_compute; reflexivity).
  assert (Hn : Z.of_nat entry_word = 15 * 4096 + 4 * Z.of_nat 985) by (vm_compute; reflexivity).
  assert (Hb : ∃ b, block_at 4096 demo_container 15 = Some b ∧ cksum_ok b = true)
    by (eexists; split; [vm_compute; reflexivity|vm_compute; reflexivity]).
  destruct Hb as (b & Hb & Hok). unfold demo_damaged. revert Hw Hb Hn.
  generalize demo_container entry_word. intros data n Hw Hb Hn.
  apply (word_at_damaged 4096 data n [x00; x00; x10; x00] [x00; x00; x02; x00] 15 985 b);
    [lia|exact Hn|lia|lia|exact Hw|reflexivity|reflexivity|discriminate|by intros []|by intros []|exact Hb|exact Hok].
Qed.

Lemma damage_never_changes_an_answer_witness :
  let q := LookupChild session_volume 2 (str "a.txt") 4096 in
  eval (run demo_codec demo_lzvn demo_codec q) (cursor demo_container) = Ok (Some 16) ∧
  ∃ e, eval (run demo_codec demo_lzvn demo_codec q) (cursor demo_damaged) = Err e ∧ names_damage e.
Proof.
  assert (Hv : eval (lookup_child session_volume 2 (str "a.txt") 4096) (cursor demo_container) = Ok (Some 16))
    by (vm_compute; reflexivity).
  assert (Hd : eval (lookup_child session_volume 2 (str "a.txt") 4096) (cursor demo_damaged) ≠ Ok (Some 16))
    by (vm_compute; discriminate).
  split; [exact Hv|].
  assert (Hz : zlen demo_container <= u64_max) by (vm_compute; discriminate).
  destruct (damage_never_changes_an_answer demo_codec demo_lzvn demo_codec (LookupChild session_volume 2 (str "a.txt") 4096)
    4096 demo_container demo_damaged eq_refl ltac:(lia) Hz demo_damaged_ok) as [E|E]; [|exact E].
  exfalso. apply Hd. etrans; [exact E|exact Hv].
Defined.
