(* ===== verification/Work.v ===== *)
(** * How much an image can make the reader do

    A source with a log: the same reader, which also records every offset it is sought
    to.  [costs r m Q] is the contract of an operation [m] over a source in a state of
    [r]: whatever was logged before, it appends some offsets and ends with an outcome
    that [Q] relates.  The theorems bound the work of the walks on any image, and show
    where it is not bounded. *)
From S2P Require Import Prelude Bytes Reader Object Container Node Build Walk BTree Omap Checkpoint Volume FsRecord Inode Dir Snapshot Spaceman Reaper Apfs Damage.
Import BTreeNodeHeader(is_leaf).

Record logged (R : Type) := { source : R; log : list Z }.
Arguments source {R}.
Arguments log {R}.

(** ** The instrumented source *)
Section instrument.
Context {R : Type} `{LawfulReader R}.

#[export] Instance logged_reader : ReadSeek (logged R) :=
  {| rs_seek off l := let '(o, r) := rs_seek off (source l) in (o, {| source := r; log := log l ++ [off] |});
     rs_read_exact n l := let '(o, r) := rs_read_exact n (source l) in (o, {| source := r; log := log l |}) |}.

(** The source in state [r], with an empty log. *)
Definition observe (r : R) : logged R := {| source := r; log := [] |}.

(** The offsets an operation seeks to. *)
Definition seeks {A} (m : M (logged R) A) (r : R) : list Z := log (m (observe r)).2.

Definition costs {A} (r : R) (m : M (logged R) A) (Q : list Z → outcome A → Prop) : Prop :=
  ∀ l, same_source (source l) r →
    ∃ offs, log (m l).2 = log l ++ offs ∧ same_source (source (m l).2) r ∧ Q offs (m l).1.

Lemma costs_seeks {A} r (m : M (logged R) A) Q : costs r m Q → Q (seeks m r) (eval m (observe r)).
Proof. intros Hm. destruct (Hm (observe r)) as (offs & E & _ & HQ); [done|]. unfold seeks. by rewrite E. Qed.

Lemma costs_weaken {A} r (m : M (logged R) A) (Q Q' : list Z → outcome A → Prop) :
  costs r m Q → (∀ offs o, Q offs o → Q' offs o) → costs r m Q'.
Proof. intros Hm HQ l Hl. destruct (Hm l Hl) as (offs & ? & ? & ?). exists offs. eauto. Qed.

Lemma costs_lift {A} r (o : outcome A) : costs r (lift o) (λ offs o', offs = [] ∧ o' = o).
Proof. intros l Hl. exists []. by rewrite app_nil_r. Qed.

Lemma costs_ret {A} r (a : A) : costs r (mret (M := M (logged R)) a) (λ offs o, offs = [] ∧ o = Ok a).
Proof. intros l Hl. exists []. by rewrite app_nil_r. Qed.

(** A bind: both logs, or the first one and its error. *)
Definition then_costs {A B} (Q : list Z → outcome A → Prop) (Q' : A → list Z → outcome B → Prop)
    (offs : list Z) (o : outcome B) : Prop :=
  (∃ a offs1 offs2, offs = offs1 ++ offs2 ∧ Q offs1 (Ok a) ∧ Q' a offs2 o) ∨
  (∃ e, o = Err e ∧ Q offs (Err e)) ∨ (o = Panic ∧ Q offs Panic).

(** The second operation may use what the first one ensures of its result. *)
Lemma costs_bind_ok {A B} r (m : M (logged R) A) (k : A → M (logged R) B) Q Q' :
  costs r m Q → (∀ a offs, Q offs (Ok a) → costs r (k a) (Q' a)) → costs r (m ≫= k) (then_costs Q Q').
Proof.
  intros Hm Hk l Hl. destruct (Hm l Hl) as (offs & E & Hs & HQ). cbv [mbind M_bind].
  destruct (m l) as [[a|e|] l1]; cbn [fst snd] in *.
  - destruct (Hk a offs HQ l1 Hs) as (offs' & E' & Hs' & HQ'). exists (offs ++ offs').
    rewrite E', E, app_assoc. split; [done|]. split; [done|]. left. by exists a, offs, offs'.
  - exists offs. split; [done|]. split; [done|]. right. left. by exists e.
  - exists offs. split; [done|]. split; [done|]. by right; right.
Qed.

Lemma costs_bind {A B} r (m : M (logged R) A) (k : A → M (logged R) B) Q Q' :
  costs r m Q → (∀ a, costs r (k a) (Q' a)) → costs r (m ≫= k) (then_costs Q Q').
Proof. intros Hm Hk. eapply costs_bind_ok; [done|]. intros a _ _. apply Hk. Qed.

(** A first operation with one value. *)
Lemma costs_bind_value {A B} r (m : M (logged R) A) (k : A → M (logged R) B) (P : list Z → Prop) a Q :
  costs r m (λ offs o, P offs ∧ o = Ok a) → costs r (k a) Q →
  costs r (m ≫= k) (λ offs o, ∃ offs1 offs2, offs = offs1 ++ offs2 ∧ P offs1 ∧ Q offs2 o).
Proof.
  intros Hm Hk. eapply costs_weaken.
  - apply (costs_bind_ok r _ _ (λ offs o, P offs ∧ o = Ok a) (λ a' offs o, a' = a ∧ Q offs o)); [done|].
    intros a' offs [_ [= ->]]. eapply costs_weaken; [done|]. auto.
  - intros offs o [(a' & o1 & o2 & -> & [? _] & _ & ?)|[(e & _ & _ & [=])|(_ & _ & [=])]]. by exists o1, o2.
Qed.

Lemma costs_read_at r off n : costs r (read_at off n) (λ offs o, offs = [off] ∧ o = eval (read_at off n) r).
Proof.
  intros [s lg] Hl. cbn [source log] in *. exists [off]. unfold eval, read_at, seek, read_exact, io.
  cbv [mbind M_bind]. cbn [rs_seek logged_reader rs_read_exact source log].
  pose proof (seek_value off s r Hl) as Hv. pose proof (seek_keeps off s) as Hk. pose proof (read_value off n s r Hl) as Hr.
  destruct (rs_seek off s) as [[e|[]] s1], (rs_seek off r) as [[e'|[]] r1]; cbn [fst snd source log] in *; simplify_eq.
  - split; [done|]. split; [by etrans|done].
  - pose proof (read_keeps n s1) as Hk2. cbn [rs_read_exact source log].
    destruct (rs_read_exact n s1) as [o s2], (rs_read_exact n r1) as [o' r2]; cbn [fst snd source log] in *. subst o'.
    destruct o; cbn [fst snd source log]; (split; [done|split; [etrans; [done|by etrans]|done]]).
Qed.

Lemma costs_read_at_eof r off n :
  costs r (read_at_eof off n) (λ offs o, offs = [off] ∧ o = eval (read_at_eof off n) r).
Proof.
  intros [s lg] Hl. cbn [source log] in *. exists [off]. unfold eval, read_at_eof, seek, read_exact_eof, io.
  cbv [mbind M_bind]. cbn [rs_seek logged_reader rs_read_exact source log].
  pose proof (seek_value off s r Hl) as Hv. pose proof (seek_keeps off s) as Hk. pose proof (read_value off n s r Hl) as Hr.
  destruct (rs_seek off s) as [[e|[]] s1], (rs_seek off r) as [[e'|[]] r1]; cbn [fst snd source log] in *; simplify_eq.
  - split; [done|]. split; [by etrans|done].
  - pose proof (read_keeps n s1) as Hk2. cbn [rs_read_exact source log].
    destruct (rs_read_exact n s1) as [o s2], (rs_read_exact n r1) as [o' r2]; cbn [fst snd source log] in *. subst o'.
    destruct o as [e|buf]; [destruct (kind e)|]; cbn [fst snd source log]; (split; [done|split; [etrans; [done|by etrans]|done]]).
Qed.
End instrument.

(** ** Node reads and walks *)
Section walks.
Context {R : Type} `{LawfulReader R} (r : R) (bs : Z).

(** The block can be read whole. *)
Definition readable_block (p : Z) : Prop := ∃ buf, eval (read_at (p * bs) bs) r = Ok buf.

Definition node_cost (p : Z) (offs : list Z) (o : outcome (option bytes)) : Prop :=
  (offs = [] ∧ o = Ok None) ∨ (offs = [p * bs] ∧ ∀ node, o = Ok node → readable_block p).

Lemma costs_read_verified_node p : costs r (read_verified_node p bs) (node_cost p).
Proof.
  unfold read_verified_node. destruct (checked_mul p bs) as [off|] eqn:Hm.
  2:{ eapply costs_weaken; [apply costs_ret|]. intros offs o [-> ->]. by left. }
  apply checked_mul_Some in Hm as [-> _]. eapply costs_weaken.
  { apply costs_bind; [apply costs_read_at|]. intros buf.
    instantiate (1 := λ buf offs o, offs = [] ∧ o = if cksum_ok buf then Ok (Some buf) else Err (checksum_error p buf)).
    cbv beta. destruct (cksum_ok buf); apply costs_lift. }
  intros offs o [(buf & o1 & o2 & -> & [-> E] & -> & Ho)|[(e & -> & -> & E)|(-> & -> & E)]]; right.
  - split; [by rewrite app_nil_r|]. intros ? _. by exists buf.
  - split; [done|]. by intros ? ?.
  - split; [done|]. by intros ? ?.
Qed.

Context (subtype : BTreeSubtype) {S : Type} (visit : S → bytes → bytes → S).

(** The blocks read from a set of visited ones: all new, each once, each readable but
    the last of a walk that fails. *)
Definition fresh_reads (V : gset Z) (offs : list Z) (o : outcome (gset Z * S)) : Prop :=
  ∃ ps tail, offs = (λ p, p * bs) <$> (ps ++ tail) ∧ NoDup (ps ++ tail) ∧ (∀ p, p ∈ ps ++ tail → p ∉ V) ∧
    Forall readable_block ps ∧ (length tail ≤ 1)%nat ∧
    ∀ st', o = Ok st' → tail = [] ∧ V ⊆ st'.1 ∧ ∀ p, p ∈ ps → p ∈ st'.1.

Lemma fresh_none V o : (∀ st', o = Ok st' → V ⊆ st'.1) → fresh_reads V [] o.
Proof.
  intros Ho. exists [], []. split_and!; [done|constructor|set_solver|constructor|simpl; lia|].
  intros st' E. split_and!; [done|by apply Ho|set_solver].
Qed.

Lemma fresh_then V V1 s1 offs1 offs2 o :
  fresh_reads V offs1 (Ok (V1, s1)) → fresh_reads V1 offs2 o → fresh_reads V (offs1 ++ offs2) o.
Proof.
  intros (ps1 & t1 & -> & Hn1 & Hv1 & Hr1 & _ & Ho1) (ps2 & t2 & -> & Hn2 & Hv2 & Hr2 & Ht2 & Ho2).
  destruct (Ho1 _ eq_refl) as (-> & HV & Hp1). cbn [fst] in *. rewrite app_nil_r in *.
  exists (ps1 ++ ps2), t2. rewrite <- !app_assoc, <- fmap_app. split_and!; [done| | | |done|].
  - apply NoDup_app. split_and!; [done| |done]. intros p Hp Hp2. by apply (Hv2 p), Hp1.
  - set_solver.
  - by apply Forall_app.
  - intros st' E. destruct (Ho2 _ E) as (-> & HV' & Hp2). split_and!; [done|set_solver|set_solver].
Qed.

Lemma fresh_read p V offs o : p ∉ V → fresh_reads ({[p]} ∪ V) offs o → readable_block p →
  fresh_reads V (p * bs :: offs) o.
Proof.
  intros Hp (ps & tail & -> & Hn & Hv & Hr & Ht & Ho) Hb. exists (p :: ps), tail.
  split_and!; [done|constructor; [|done]|set_solver|by constructor|done|].
  - intros Hin. apply (Hv p Hin). set_solver.
  - intros st' E. destruct (Ho _ E) as (-> & ? & ?). set_solver.
Qed.

Lemma fresh_skip p V offs o : fresh_reads ({[p]} ∪ V) offs o → fresh_reads V offs o.
Proof.
  intros (ps & tail & -> & Hn & Hv & Hr & Ht & Ho). exists ps, tail. split_and!; [done|done|set_solver|done|done|].
  intros st' E. destruct (Ho _ E) as (-> & ? & ?). set_solver.
Qed.

Lemma costs_foldM_fresh (body : Z → gset Z * S → M (logged R) (gset Z * S)) l V s :
  (∀ p V s, costs r (body p (V, s)) (fresh_reads V)) → costs r (foldM body l (V, s)) (fresh_reads V).
Proof.
  intros Hb. revert V s. induction l as [|p l IH]; intros V s; cbn [foldM].
  - eapply costs_weaken; [apply costs_ret|]. intros offs o [-> ->]. apply fresh_none. by intros st' [= <-].
  - eapply costs_weaken; [apply (costs_bind r _ _ (fresh_reads V) (λ st, fresh_reads st.1)); [apply Hb|intros [V1 s1]; apply IH]|].
    intros offs o [([V1 s1] & o1 & o2 & -> & H1 & H2)|[(e & -> & HQ)|(-> & HQ)]]; [by eapply fresh_then| |].
    all: destruct HQ as (ps & tail & ? & ? & ? & ? & ? & _); exists ps, tail; split_and!; done.
Qed.

Lemma costs_descend n p V s : costs r (descend bs subtype visit n p (V, s)) (fresh_reads V).
Proof.
  revert p V s. induction n as [|n IH]; intros p V s; cbn [descend].
  { eapply costs_weaken; [apply costs_lift|]. intros offs o [-> ->]. by apply fresh_none. }
  case_decide as Hp.
  { eapply costs_weaken; [apply costs_lift|]. intros offs o [-> ->]. by apply fresh_none. }
  assert (Hret : ∀ s', costs r (mret ({[p]} ∪ V, s')) (fresh_reads ({[p]} ∪ V))).
  { intros s'. eapply costs_weaken; [apply costs_ret|]. intros offs o [-> ->]. apply fresh_none. by intros st' [= <-]. }
  eapply costs_weaken.
  { apply costs_bind; [apply costs_read_verified_node|]. instantiate (1 := λ _, fresh_reads ({[p]} ∪ V)).
    intros [buf|]; [|apply Hret]. destruct (parse_node_header buf) as [hdr|]; [|apply Hret].
    destruct (is_leaf hdr); [apply Hret|]. by apply costs_foldM_fresh. }
  assert (Hfail : ∀ offs o, (∀ st', o ≠ Ok st') → offs = [] ∨ offs = [p * bs] → fresh_reads V offs o).
  { intros offs o Ho [->| ->]; [by apply fresh_none; intros st' E; destruct (Ho st')|].
    exists [], [p]. split_and!; [done|apply NoDup_singleton|set_solver|constructor|simpl; lia|by intros st' E; destruct (Ho st')]. }
  intros offs o [(node & o1 & o2 & -> & [[-> E]|[-> Hb]] & H2)|[(e & -> & [[-> E]|[-> _]])|(-> & [[-> E]|[-> _]])]]; try done.
  - by eapply fresh_skip.
  - cbn [app]. apply fresh_read; [done|done|by eapply Hb].
  - apply Hfail; auto.
  - apply Hfail; auto.
Qed.

(** A search reads at most one block a level. *)
Lemma costs_find_leaf_loop cmp n V p s :
  costs r (find_leaf_loop bs subtype visit cmp n V p s) (λ offs _, (length offs ≤ n)%nat).
Proof.
  revert V p s. induction n as [|n IH]; intros V p s; cbn [find_leaf_loop].
  { eapply costs_weaken; [apply costs_lift|]. by intros offs o [-> ->]. }
  case_decide; [eapply costs_weaken; [apply costs_lift|]; intros offs o [-> ->]; simpl; lia|].
  assert (Hret : ∀ s', costs r (mret s') (λ offs (_ : outcome S), (length offs ≤ n)%nat)).
  { intros s'. eapply costs_weaken; [apply costs_ret|]. intros offs o [-> ->]. simpl. lia. }
  eapply costs_weaken.
  { apply costs_bind; [apply costs_read_verified_node|]. instantiate (1 := λ _ offs _, (length offs ≤ n)%nat).
    intros [buf|]; [|apply Hret]. destruct (parse_node_header buf) as [hdr|]; [|apply Hret].
    destruct (is_leaf hdr); [apply Hret|]. destruct (node_entries buf subtype); [apply Hret|apply IH]. }
  intros offs o [(node & o1 & o2 & -> & [[-> _]|[-> _]] & Hl)|[(e & -> & [[-> _]|[-> _]])|(-> & [[-> _]|[-> _]])]]; simpl; lia.
Qed.
End walks.

(** ** Counting *)

(** How many reads. *)
Definition reads {R} `{LawfulReader R} {A} (m : M (logged R) A) (r : R) : Z := zlen (seeks m r).

(** At most [n] reads, from any state. *)
Definition within {R} `{LawfulReader R} {A} (n : nat) (m : M (logged R) A) : Prop :=
  ∀ r, costs r m (λ offs _, (length offs ≤ n)%nat).

Section counting.
Context {R : Type} `{LawfulReader R}.

Lemma within_reads {A} n (m : M (logged R) A) r : within n m → reads m r <= Z.of_nat n.
Proof. unfold reads. intros Hm. pose proof (costs_seeks r m _ (Hm r)) as Hn. cbv beta in Hn. unfold zlen. lia. Qed.

Lemma within_le {A} n n' (m : M (logged R) A) : within n m → (n ≤ n')%nat → within n' m.
Proof. intros Hm Hn r. eapply costs_weaken; [apply Hm|]. cbv beta. lia. Qed.

Lemma within_lift {A} n (o : outcome A) : within n (lift o).
Proof. intros r. eapply costs_weaken; [apply costs_lift|]. intros offs ? [-> _]. simpl. lia. Qed.

Lemma within_bind {A B} n1 n2 (m : M (logged R) A) (k : A → M (logged R) B) :
  within n1 m → (∀ a, within n2 (k a)) → within (n1 + n2) (m ≫= k).
Proof.
  intros Hm Hk r. eapply costs_weaken; [apply costs_bind; [apply Hm|intros a; apply Hk]|].
  intros offs o [(a & o1 & o2 & -> & ? & ?)|[(e & _ & ?)|(_ & ?)]]; rewrite ?length_app; lia.
Qed.

Lemma within_foldM {A S} n (body : A → S → M (logged R) S) l s :
  (∀ a s, within n (body a s)) → within (length l * n) (foldM body l s).
Proof.
  intros Hb. revert s. induction l as [|a l IH]; intros s; cbn [foldM length]; [apply within_lift|].
  apply within_bind; auto.
Qed.

Lemma within_read_at off n : within 1 (read_at (R := logged R) off n).
Proof. intros r. eapply costs_weaken; [apply costs_read_at|]. by intros offs o [-> _]. Qed.

Lemma within_read_at_eof off n : within 1 (read_at_eof (R := logged R) off n).
Proof. intros r. eapply costs_weaken; [apply costs_read_at_eof|]. by intros offs o [-> _]. Qed.

Lemma within_read_obj_block p bs : within 1 (read_obj_block (R := logged R) p bs).
Proof.
  unfold read_obj_block. apply (within_bind 1 0); [apply within_read_at|]. intros buf.
  destruct (negb _); apply within_lift.
Qed.

Lemma within_find_leaf {S} bs subtype (visit : S → bytes → bytes → S) cmp root s :
  within (Z.to_nat MAX_BTREE_DEPTH) (find_leaf (R := logged R) bs subtype visit cmp root s).
Proof. intros r. apply costs_find_leaf_loop. Qed.

Lemma within_resolve om oid xid bs : within 64 (resolve (R := logged R) om oid xid bs).
Proof.
  unfold resolve. apply (within_le (Z.to_nat MAX_BTREE_DEPTH + 0)); [|done].
  apply within_bind; [apply within_find_leaf|]. intros best. apply within_lift.
Qed.

Lemma within_fetch_virtual om xid bs oid : within 65 (fetch_virtual (R := logged R) om xid bs oid).
Proof.
  unfold fetch_virtual. apply (within_bind 64 1); [apply within_resolve|]. intros entry.
  apply (within_bind 1 0); [apply within_read_at|]. intros buf. destruct (cksum_ok buf); apply within_lift.
Qed.

Lemma within_reap_lists ms bs k n seen oid out : within n (reap_lists (R := logged R) ms bs k n seen oid out).
Proof.
  revert seen oid out. induction n as [|n IH]; intros seen oid out; cbn [reap_lists];
    (destruct (oid =? 0); [apply within_lift|]); [apply within_lift|].
  case_decide; [apply within_lift|]. apply (within_bind 0 (S n)); [apply within_lift|]. intros paddr.
  apply (within_bind 1 n); [apply within_read_obj_block|]. intros block. apply IH.
Qed.

Lemma within_pending_objects p ms bs : within 4097 (pending_objects (R := logged R) p ms bs).
Proof.
  unfold pending_objects. apply (within_le (1 + Z.to_nat MAX_REAP_LISTS)); [|done].
  apply within_bind; [apply within_read_obj_block|]. intros reaper. apply within_reap_lists.
Qed.

Lemma within_is_block_free p b bs : within 3 (is_block_free (R := logged R) p b bs).
Proof.
  assert (Hlift : ∀ A n (o : outcome A), within n (lift (R := logged R) o)) by (intros; apply within_lift).
  unfold is_block_free. apply (within_bind 1 2); [apply within_read_obj_block|]. intros sm.
  do 3 (case_match; [apply Hlift|]). apply (within_bind 0 2); [apply Hlift|]. intros chunk.
  case_match; [apply Hlift|]. apply (within_bind 0 2); [apply Hlift|]. intros cib_idx.
  case_match; [apply Hlift|]. apply (within_bind 0 2); [apply Hlift|]. intros slot.
  apply (within_bind 1 1); [apply within_read_obj_block|]. intros cib.
  do 2 (case_match; [apply Hlift|]). apply (within_bind 1 0); [apply within_read_at|]. intros bitmap. apply Hlift.
Qed.

Lemma within_ring bootstrap :
  within (2 * Z.to_nat (NxSuperblock.xp_desc_blocks bootstrap)) (resolve_live_checkpoint (R := logged R) bootstrap).
Proof.
  assert (Hlift : ∀ A n (o : outcome A), within n (lift (R := logged R) o)) by (intros; apply within_lift).
  assert (Hslot : ∀ S base bs i (k : Z → option bytes → S),
    within 1 (paddr ← lift (add_u64 base i); node ← read_block (R := logged R) paddr bs; mret (k paddr node))).
  { intros S base bs i k. apply (within_bind 0 1); [apply Hlift|]. intros paddr. apply (within_bind 1 0).
    - unfold read_block. destruct (checked_mul paddr bs); [apply within_read_at_eof|apply Hlift].
    - intros node. apply Hlift. }
  unfold resolve_live_checkpoint. destruct (NxSuperblock.xp_desc_is_tree bootstrap); [apply Hlift|].
  destruct (negb _); [apply Hlift|]. set (slots := seqZ 0 _).
  assert (Hlen : length slots = Z.to_nat (NxSuperblock.xp_desc_blocks bootstrap)) by apply length_seqZ.
  apply (within_le (length slots * 1 + length slots * 1)); [|lia].
  apply within_bind; [apply within_foldM; intros i s|].
  { apply (Hslot _ _ _ i (λ p node, match node with None => s | Some buf => scan_block p buf s end)). }
  intros st.
  destruct (best st) as [[xid p]|]; [|apply Hlift].
  apply (within_le (length slots * 1 + 0)); [|lia].
  apply within_bind; [apply within_foldM; intros i s|].
  { apply (Hslot _ _ _ i (λ _ node, match node with None => s | Some buf => collect_block xid buf s end)). }
  intros ms. apply Hlift.
Qed.
End counting.

(** ** Any walk costs what its image can name

    A node is fetched with at most [c] reads and is one of [blocks]; so a walk fetches
    its root and nodes named by an entry of one of [blocks], each once. *)
Section linked.
Context (subtype : BTreeSubtype) (blocks : list bytes).

(** The child ids of all the blocks. *)
Definition linked : list Z := concat ((λ b, child_id <$> node_entries b subtype) <$> blocks).

Lemma keep_incl {B} (m : list bool) (l : list B) x : x ∈ keep m l → x ∈ l.
Proof. revert l. induction m as [|[] m IH]; intros [|y l]; simpl; set_solver. Qed.

Lemma linked_child mask buf id : buf ∈ blocks → id ∈ child_id <$> children mask subtype buf → id ∈ linked.
Proof.
  intros Hb (e & -> & He)%list_elem_of_fmap. unfold linked. rewrite list_elem_of_In, in_concat.
  exists (child_id <$> node_entries buf subtype). split.
  - apply list_elem_of_In, list_elem_of_fmap. by exists buf.
  - apply list_elem_of_In, list_elem_of_fmap_2. by eapply keep_incl.
Qed.

Context {R : Type} `{LawfulReader R} (r : R) (fetch : Z → M (logged R) (option bytes)) (c : nat).
Context (cap : Z) (mask : list Entry → list bool) {S : Type} (visit : S → bytes → bytes → S).

Definition fetch_cost (offs : list Z) (o : outcome (option bytes)) : Prop :=
  (length offs ≤ c)%nat ∧ ∀ buf, o = Ok (Some buf) → buf ∈ blocks.

(** The ids fetched from a set of visited ones. *)
Definition visits (named : Z → Prop) (V : gset Z) (offs : list Z) (o : outcome (gset Z * S)) : Prop :=
  ∃ ids, NoDup ids ∧ (∀ id, id ∈ ids → id ∉ V ∧ named id) ∧ (length offs ≤ c * length ids)%nat ∧
    ∀ st', o = Ok st' → V ⊆ st'.1 ∧ ∀ id, id ∈ ids → id ∈ st'.1.

Lemma visits_none named V o : (∀ st', o = Ok st' → V ⊆ st'.1) → visits named V [] o.
Proof. intros Ho. exists []. split_and!; [constructor|set_solver|simpl; lia|set_solver]. Qed.

Lemma visits_then named V V1 s1 offs1 offs2 o :
  visits named V offs1 (Ok (V1, s1)) → visits named V1 offs2 o → visits named V (offs1 ++ offs2) o.
Proof.
  intros (l1 & Hn1 & Hv1 & Hc1 & Ho1) (l2 & Hn2 & Hv2 & Hc2 & Ho2). destruct (Ho1 _ eq_refl) as [HV Hl1].
  cbn [fst] in *. exists (l1 ++ l2). rewrite !length_app. split_and!; [|set_solver|lia|].
  - apply NoDup_app. split_and!; [done| |done]. intros id Hid Hid2. by apply (Hv2 id), Hl1.
  - intros st' E. destruct (Ho2 _ E). set_solver.
Qed.

Lemma visits_weaken (named named' : Z → Prop) V offs o :
  visits named V offs o → (∀ id, named id → named' id) → visits named' V offs o.
Proof. intros (l & ? & Hv & ? & ?) Hn. exists l. split_and!; [done|naive_solver|done|done]. Qed.

Lemma costs_foldM_visits (body : Z → gset Z * S → M (logged R) (gset Z * S)) named l V s :
  (∀ id V s, id ∈ l → costs r (body id (V, s)) (visits named V)) → costs r (foldM body l (V, s)) (visits named V).
Proof.
  revert V s. induction l as [|p l IH]; intros V s Hb; cbn [foldM].
  - eapply costs_weaken; [apply costs_ret|]. intros offs o [-> ->]. apply visits_none. by intros st' [= <-].
  - eapply costs_weaken.
    { apply (costs_bind r _ _ (visits named V) (λ st, visits named st.1)); [apply Hb, list_elem_of_here|].
      intros [V1 s1]. apply IH. intros id V' s' Hid. by apply Hb, list_elem_of_further. }
    intros offs o [([V1 s1] & o1 & o2 & -> & H1 & H2)|[(e & -> & HQ)|(-> & HQ)]]; [by eapply visits_then| |].
    all: destruct HQ as (ids & ? & ? & ? & _); exists ids; split_and!; done.
Qed.

Context (Hfetch : ∀ id, costs r (fetch id) (λ offs o, fetch_cost offs o)).

Lemma costs_walk n id V s :
  costs r (walk fetch cap mask subtype visit n id (V, s)) (visits (λ i, i = id ∨ i ∈ linked) V).
Proof.
  revert id V s. induction n as [|n IH]; intros id V s; cbn [walk].
  { eapply costs_weaken; [apply costs_lift|]. intros offs o [-> ->]. by apply visits_none. }
  case_decide as Hid.
  { eapply costs_weaken; [apply costs_lift|]. intros offs o [-> ->]. by apply visits_none. }
  set (named := λ i, i = id ∨ i ∈ linked).
  assert (Hret : ∀ s', costs r (mret ({[id]} ∪ V, s')) (visits named ({[id]} ∪ V))).
  { intros s'. eapply costs_weaken; [apply costs_ret|]. intros offs o [-> ->]. apply visits_none. by intros st' [= <-]. }
  assert (Hone : ∀ offs (o : outcome (gset Z * S)), (length offs ≤ c)%nat → (∀ st', o ≠ Ok st') → visits named V offs o).
  { intros offs o Hlen Ho. exists [id]. split_and!; [apply NoDup_singleton| |simpl; lia|].
    - intros i ->%list_elem_of_singleton. split; [done|by left].
    - intros st' E. by destruct (Ho st'). }
  eapply costs_weaken.
  { apply (costs_bind_ok r _ _ fetch_cost (λ _, visits named ({[id]} ∪ V))); [apply Hfetch|].
    intros [buf|] offs1 [_ Hin]; [|apply Hret]. specialize (Hin buf eq_refl).
    destruct (parse_node_header buf) as [hdr|]; [|apply Hret]. destruct (is_leaf hdr); [apply Hret|].
    apply costs_foldM_visits. intros k V' s' Hk. eapply costs_weaken; [apply IH|]. intros offs o Hv.
    eapply visits_weaken; [apply Hv|]. intros i [->|Hi]; right; [by eapply linked_child|done]. }
  intros offs o [(node & o1 & o2 & -> & [Hlen _] & (ids & Hn & Hv & Hc & Ho))|[(e & -> & [Hlen _])|(-> & [Hlen _])]];
    [|by apply Hone..].
  exists (id :: ids). rewrite length_app. split_and!; [constructor; [|done]| |simpl; lia|].
  - intros Hin. destruct (Hv _ Hin). set_solver.
  - intros i [->|Hi]%elem_of_cons; [split; [done|by left]|]. destruct (Hv _ Hi). set_solver.
  - intros st' E. destruct (Ho _ E). set_solver.
Qed.
End linked.

(** ** The walks over an image *)
Section images.
Context (data : bytes) (bs : Z) (Hbs : 0 < bs).

Definition image_blocks : list bytes := omap (block_at bs data) (seqZ 0 (zlen data / bs)).

Lemma image_blocks_spec p buf : get_range data (p * bs) (p * bs + bs) = Some buf → buf ∈ image_blocks.
Proof.
  intros E. unfold image_blocks. apply list_elem_of_omap. exists p. split; [|done].
  apply get_range_Some in E as [? _]. apply elem_of_seqZ. split; [nia|].
  enough (p + 1 <= zlen data / bs) by lia. apply Z.div_le_lower_bound; nia.
Qed.

Lemma toc_loop_fits block l n i :
  0 <= toc_start l → 4 <= entry_len l → 0 <= i → i <= zlen block / 4 →
  zlen (toc_loop block l n i) <= zlen block / 4 - i.
Proof.
  intros Hs He. revert i. induction n as [|n IH]; intros i Hi Hz; cbn [toc_loop]; [unfold zlen at 1; simpl; lia|].
  destruct (toc_entry block l i) as [| |e] eqn:E; [unfold zlen at 1; simpl; lia| |];
    (assert (Hin : i + 1 <= zlen block / 4);
     [apply Z.div_le_lower_bound; [lia|]; unfold toc_entry in E;
      destruct ((key_area l <? _) || _) eqn:Hb; [done|]; apply orb_false_iff in Hb as [_ ?%Z.ltb_ge]; nia|]).
  - specialize (IH (i + 1)). lia.
  - rewrite zlen_cons. specialize (IH (i + 1)). lia.
Qed.

Lemma node_entries_length buf subtype : zlen (node_entries buf subtype) <= zlen buf / 4.
Proof.
  pose proof (Z.div_pos (zlen buf) 4 (zlen_nonneg _) eq_refl).
  unfold node_entries. destruct (parse_node_header buf) as [hdr|]; [|unfold zlen at 1; simpl; lia].
  etrans; [apply toc_loop_fits|lia]; [| |lia|lia]; unfold node_layout; cbn [toc_start entry_len].
  - pose proof (le_u16_range buf OFF_BTN_TABLE_SPACE). unfold BTN_DATA_OFF. urange.
  - by destruct (BTreeNodeHeader.is_fixed_kv hdr).
Qed.

Lemma zlen_omap {A B} (f : A → option B) l : zlen (omap f l) <= zlen l.
Proof. induction l as [|x l IH]; [done|]. cbn. destruct (f x); rewrite !zlen_cons; lia. Qed.

(** The image names at most one node for every four bytes of it. *)
Lemma linked_length subtype : zlen (linked subtype image_blocks) <= zlen data / 4.
Proof.
  assert (Hall : Forall (λ b, zlen b = bs) image_blocks).
  { apply Forall_forall. intros b (p & _ & E)%list_elem_of_omap. unfold block_at in E.
    apply get_range_length in E. lia. }
  assert (Hlen : zlen image_blocks <= zlen data / bs).
  { unfold image_blocks. pose proof (zlen_omap (block_at bs data) (seqZ 0 (zlen data / bs))) as Hl.
    pose proof (Z.div_pos (zlen data) bs (zlen_nonneg _) Hbs). unfold zlen at 3 in Hl. rewrite length_seqZ in Hl. lia. }
  assert (Hsum : zlen (linked subtype image_blocks) <= zlen image_blocks * (bs / 4)).
  { clear Hlen. unfold linked. induction Hall as [|b l Hb _ IH]; [done|]. rewrite fmap_cons. cbn [concat].
    rewrite zlen_app, zlen_cons. unfold zlen at 1. rewrite length_fmap. fold (zlen (node_entries b subtype)).
    pose proof (node_entries_length b subtype) as Hn. rewrite Hb in Hn. lia. }
  pose proof (Z.div_pos bs 4 ltac:(lia) ltac:(lia)) as HK. pose proof (Z.div_pos (zlen data) bs (zlen_nonneg _) Hbs) as HN.
  pose proof (Z.mul_div_le bs 4 ltac:(lia)) as HK4. pose proof (Z.mul_div_le (zlen data) bs Hbs) as HNbs.
  apply Z.div_le_lower_bound; [lia|]. revert Hlen Hsum HK HN HK4 HNbs.
  generalize (zlen data / bs). generalize (bs / 4) (zlen image_blocks) (zlen (linked subtype image_blocks)) (zlen data).
  intros K B L D N ??????. assert (B * K <= N * K) by nia. assert (4 * K * N <= bs * N) by nia. lia.
Qed.
End images.

Lemma costs_ext {R} `{LawfulReader R} {A} r (m m' : M (logged R) A) Q :
  (∀ l, m l = m' l) → costs r m' Q → costs r m Q.
Proof. intros E Hm l Hl. rewrite E. by apply Hm. Qed.

Section walks_of_images.
Context (data : bytes) (bs : Z) (Hbs : 0 < bs) (Hdata : zlen data <= u64_max).
Notation R := (logged Cursor).

(** A verified block of the image. *)
Lemma costs_block p :
  costs (cursor data) (buf ← read_at (saturating_mul p bs) bs;
                       if cksum_ok buf then mret (Some buf) else throw (R := R) (checksum_error p buf))
    (fetch_cost (image_blocks data bs) 1).
Proof.
  eapply costs_weaken.
  { eapply (costs_bind_ok _ _ _ _ (λ buf offs o, offs = [] ∧ (o = Ok (Some buf) ∨ o = Err (checksum_error p buf))));
      [apply costs_read_at|].
    intros buf _ _. destruct (cksum_ok buf); (eapply costs_weaken; [apply costs_lift|]); naive_solver. }
  intros offs o [(buf & o1 & o2 & -> & [-> E] & -> & Ho)|[(e & -> & -> & _)|(-> & -> & _)]]; (split; [simpl; lia|]); try done.
  intros buf' E'. destruct Ho as [->| ->]; [|done]. injection E' as <-. rewrite cursor_read_at in E.
  destruct (get_range data _ _) as [b|] eqn:Hb; [|done]. injection E as ->.
  unfold saturating_mul in Hb. destruct (Z.min_spec (p * bs) u64_max) as [[Hlt Em]|[Hge Em]]; rewrite Em in Hb.
  - by eapply image_blocks_spec.
  - apply get_range_Some in Hb as [? _]. lia.
Qed.

Lemma costs_after n m {A} (f : M R A) (k : A → M R (option bytes)) :
  within n f → (∀ a, costs (cursor data) (k a) (fetch_cost (image_blocks data bs) m)) →
  costs (cursor data) (f ≫= k) (fetch_cost (image_blocks data bs) (n + m)).
Proof.
  intros Hf Hk. eapply costs_weaken; [apply costs_bind; [apply Hf|apply Hk]|].
  intros offs o [(a & o1 & o2 & -> & ? & ? & ?)|[(e & -> & ?)|(-> & ?)]]; split; rewrite ?length_app; by lia || eauto.
Qed.

Lemma costs_fetch_node om xid id : costs (cursor data) (fetch_node om xid bs id) (fetch_cost (image_blocks data bs) 65).
Proof.
  eapply costs_ext; [|eapply (costs_after 64 1); [apply (within_resolve om id xid bs)|]].
  2:{ intros entry. apply (costs_block (OmapEntry.paddr entry)). }
  intros l. unfold fetch_node, fetch_virtual. rewrite M_bind_assoc. apply M_bind_ext; [done|]. intros entry l'.
  rewrite M_bind_assoc. apply M_bind_ext; [done|]. intros buf l2. by destruct (cksum_ok buf).
Qed.

Lemma costs_fetch_snap_node om xid root id :
  costs (cursor data) (fetch_snap_node om xid bs root id) (fetch_cost (image_blocks data bs) 65).
Proof.
  set (addr := if bool_decide (id = root) then mret id
               else entry ← resolve (R := R) om id xid bs; mret (OmapEntry.paddr entry)).
  assert (Haddr : within 64 addr).
  { unfold addr. case_bool_decide; [apply within_lift|]. apply (within_bind 64 0); [apply within_resolve|].
    intros entry. apply within_lift. }
  eapply costs_ext; [|eapply (costs_after 64 1); [apply Haddr|intros p; apply (costs_block p)]].
  intros l. unfold fetch_snap_node, fetch_snap. fold addr. rewrite M_bind_assoc. apply M_bind_ext; [done|]. intros p l'.
  rewrite M_bind_assoc. apply M_bind_ext; [done|]. intros buf l2. by destruct (cksum_ok buf).
Qed.

(** The root and every node the image names. *)
Definition walk_bound : Z := 65 * (1 + zlen data / 4).

Lemma walk_bounded fetch cap mask {S} (visit : S → bytes → bytes → S) n id s
  (Hfetch : ∀ i, costs (cursor data) (fetch i) (fetch_cost (image_blocks data bs) 65)) :
  costs (cursor data) (walk fetch cap mask FsTree visit n id (∅, s)) (λ offs _, zlen offs <= walk_bound).
Proof.
  eapply costs_weaken; [by apply costs_walk|]. intros offs o (ids & Hn & Hv & Hc & _).
  assert (Hids : (length ids ≤ length (id :: linked FsTree (image_blocks data bs)))%nat).
  { apply submseteq_length, NoDup_submseteq; [done|]. intros i Hi. destruct (Hv i Hi) as [_ [->|?]]; set_solver. }
  pose proof (linked_length data bs Hbs FsTree). unfold walk_bound, zlen in *. cbn [length] in Hids. lia.
Qed.

Lemma costs_then_bounded {A B} n c (f : M R A) (k : A → M R B) :
  within n f → (∀ a, costs (cursor data) (k a) (λ offs _, zlen offs <= c)) → 0 <= c →
  costs (cursor data) (f ≫= k) (λ offs _, zlen offs <= Z.of_nat n + c).
Proof.
  intros Hf Hk Hc. eapply costs_weaken; [apply costs_bind; [apply Hf|apply Hk]|].
  intros offs o [(a & o1 & o2 & -> & ? & ?)|[(e & -> & ?)|(-> & ?)]]; rewrite ?zlen_app; unfold zlen in *; lia.
Qed.

Lemma costs_then_pure {A B} c (f : M R A) (k : A → outcome B) :
  costs (cursor data) f (λ offs _, zlen offs <= c) →
  costs (cursor data) (f ≫= λ a, lift (k a)) (λ offs _, zlen offs <= c).
Proof.
  intros Hf. eapply costs_weaken; [apply costs_bind; [apply Hf|intros a; apply costs_lift]|].
  intros offs o [(a & o1 & o2 & -> & ? & -> & _)|[(e & -> & ?)|(-> & ?)]]; rewrite ?app_nil_r; done.
Qed.

Lemma within_read_omap v : within 1 (read_omap (R := R) v bs).
Proof. unfold read_omap. apply (within_bind 1 0); [apply within_read_at|]. intros buf. apply within_lift. Qed.

Lemma walk_bound_nonneg : 0 <= walk_bound.
Proof. pose proof (Z.div_pos (zlen data) 4 (zlen_nonneg _) eq_refl). unfold walk_bound. lia. Qed.

Lemma costs_walk_fs_tree v target {S} (visit : S → bytes → bytes → S) s :
  costs (cursor data) (walk_fs_tree v bs target visit s) (λ offs _, zlen offs <= 1 + walk_bound).
Proof.
  unfold walk_fs_tree. apply (costs_then_bounded 1); [apply within_read_omap| |apply walk_bound_nonneg].
  intros om. apply costs_then_pure. eapply costs_ext; [intros l; apply descend_virtual_walk|].
  apply walk_bounded. intros i. apply costs_fetch_node.
Qed.

Lemma costs_list_snapshots v :
  costs (cursor data) (list_snapshots v bs) (λ offs _, zlen offs <= 1 + walk_bound).
Proof.
  unfold list_snapshots. apply costs_then_pure. unfold for_each_snap_record.
  apply (costs_then_bounded 1); [apply within_read_omap| |apply walk_bound_nonneg].
  intros om. apply costs_then_pure. set (root := ApfsVolume.snap_meta_tree_oid v). eapply costs_ext.
  - intros l. pose proof (descend_snap_walk om (ApfsVolume.xid v) bs root snapshots_visit
      (Z.to_nat MAX_SNAP_TREE_DEPTH) root (∅, []) l) as E. cbv zeta in E.
    rewrite decide_False, bool_decide_true in E by (done || set_solver). exact (E (or_introl eq_refl)).
  - apply walk_bounded. intros i. apply costs_fetch_snap_node.
Qed.
End walks_of_images.

(** ** The bounds *)
Section bounds.
Context (data : bytes) (bs : Z) (Hbs : 0 < bs).

Lemma readable_block_in p : readable_block (cursor data) bs p → p ∈ seqZ 0 (zlen data / bs).
Proof.
  intros [buf E]. rewrite cursor_read_at in E. destruct (get_range data _ _) eqn:Hg; [|done].
  apply get_range_Some in Hg as [? _]. apply elem_of_seqZ. split; [nia|].
  enough (p + 1 <= zlen data / bs) by lia. apply Z.div_le_lower_bound; nia.
Qed.

Lemma fresh_bounded {S} V offs (o : outcome (gset Z * S)) :
  fresh_reads (cursor data) bs V offs o → NoDup offs ∧ zlen offs <= zlen data / bs + 1.
Proof.
  intros (ps & tail & -> & Hn & _ & Hr & Ht & _). split.
  - apply NoDup_fmap_2; [|done]. intros p q. nia.
  - assert (Hps : (length ps ≤ length (seqZ 0 (zlen data / bs)))%nat).
    { apply submseteq_length, NoDup_submseteq; [by apply NoDup_app in Hn as (? & _)|].
      intros p Hp. apply readable_block_in. by eapply Forall_forall in Hr. }
    pose proof (Z.div_pos (zlen data) bs (zlen_nonneg _) Hbs) as HN. rewrite length_seqZ in Hps.
    unfold zlen at 1. rewrite length_fmap, length_app. lia.
Qed.

Lemma for_each_leaf_entry_bounded subtype {S} (visit : S → bytes → bytes → S) root s :
  let offs := seeks (for_each_leaf_entry bs subtype visit root s) (cursor data) in
  NoDup offs ∧ zlen offs <= zlen data / bs + 1.
Proof.
  cbv zeta. pattern (seeks (for_each_leaf_entry bs subtype visit root s) (cursor data)).
  apply (costs_seeks _ _ (λ offs _, NoDup offs ∧ zlen offs <= zlen data / bs + 1)).
  unfold for_each_leaf_entry. eapply costs_weaken; [apply costs_bind|].
  - apply costs_descend.
  - intros st. apply costs_ret.
  - intros offs o [(st & o1 & o2 & -> & H1 & -> & _)|[(e & -> & H1)|(-> & H1)]];
      rewrite ?app_nil_r; by eapply fresh_bounded.
Qed.
End bounds.

(** C16 No image can make the reader loop: whatever an image holds, the full walk of a
    physical tree seeks to no offset twice, so to no more than the image has blocks, and
    one; a search in an object map makes at most 64 reads; a walk of a file-system tree
    ([list_dir], [lookup_child], [load_inode], [list_extents], [list_xattrs]) and
    [list_snapshots] make at most 65 for the root and for every four bytes of the image,
    and one for the object map; [pending_objects] at most 4097, [is_block_free] at most
    three, and the scan of the checkpoint ring two for each slot the superblock claims. *)
Theorem reads_bounded (data : bytes) (bs : Z) (Hbs : 0 < bs) (Hdata : zlen data <= u64_max) :
  let r := cursor data in
  let tree_reads := 1 + 65 * (1 + zlen data / 4) in
  (∀ subtype S (visit : S → bytes → bytes → S) root s,
    NoDup (seeks (for_each_leaf_entry bs subtype visit root s) r) ∧
    reads (for_each_leaf_entry bs subtype visit root s) r <= zlen data / bs + 1) ∧
  (∀ om oid xid, reads (resolve om oid xid bs) r <= 64) ∧
  (∀ v target S (visit : S → bytes → bytes → S) s, reads (walk_fs_tree v bs target visit s) r <= tree_reads) ∧
  (∀ v, reads (list_snapshots v bs) r <= tree_reads) ∧
  (∀ reaper mappings, reads (pending_objects reaper mappings bs) r <= 4097) ∧
  (∀ spaceman block, reads (is_block_free spaceman block bs) r <= 3) ∧
  (∀ superblock, reads (resolve_live_checkpoint superblock) r <= 2 * Z.max 0 (NxSuperblock.xp_desc_blocks superblock)).
Proof.
  cbv zeta. split_and!.
  - intros. by apply for_each_leaf_entry_bounded.
  - intros. apply (within_reads 64), within_resolve.
  - intros v target S visit s. unfold reads. apply (costs_seeks _ _ (λ offs _, zlen offs <= _)), costs_walk_fs_tree; done.
  - intros v. unfold reads. apply (costs_seeks _ _ (λ offs _, zlen offs <= _)), costs_list_snapshots; done.
  - intros. apply (within_reads 4097), within_pending_objects.
  - intros. apply (within_reads 3), within_is_block_free.
  - intros sb. pose proof (within_reads _ _ (cursor data) (within_ring sb)). lia.
Qed.

(** A search of the demo object map reads its root and one leaf. *)
Lemma reads_bounded_witness :
  0 < 256 ∧ zlen demo_omap <= u64_max ∧
  seeks (resolve demo_om 5 3 256) (cursor demo_omap) = [0; 256] ∧
  reads (resolve demo_om 5 3 256) (cursor demo_omap) <= 64.
Proof.
  assert (Hlen : zlen demo_omap <= u64_max) by (apply (bool_decide_unpack _); vm_compute; exact I).
  split; [done|]. split; [exact Hlen|]. split; [vm_compute; reflexivity|].
  exact (proj1 (proj2 (reads_bounded demo_omap 256 eq_refl Hlen)) demo_om 5 3).
Defined.

(** ** The ring is as long as its superblock says

    Every other count the reader takes from an image is capped; the number of slots is
    not, and a slot past the end of the image is skipped after it is tried.  So an image
    of one block can cost two thousand million reads. *)
Section ring_work.
Context (data : bytes) (superblock : NxSuperblock.t).
Notation base := (NxSuperblock.xp_desc_base superblock).
Notation bs := (NxSuperblock.block_size superblock).
Notation slots := (NxSuperblock.xp_desc_blocks superblock).
Context (Htree : NxSuperblock.xp_desc_is_tree superblock = false) (Hok : block_size_ok bs = true).
Context (Hslots : 0 <= slots) (Hbase : 0 <= base) (Hpast : zlen data <= base * bs) (Hmax : (base + slots) * bs <= u64_max).
Notation start := {| best := None; checked := 0; last_magic := 0 |}.

Lemma costs_empty_slot i : 0 <= i < slots →
  costs (cursor data) (scan_slot base bs i start) (λ offs o, zlen offs = 1 ∧ o = Ok start).
Proof.
  intros Hi. assert (Hbs : 4096 <= bs) by (unfold block_size_ok, NX_MINIMUM_BLOCK_SIZE in Hok; lia).
  unfold scan_slot. rewrite add_u64_Ok by nia. unfold read_block, checked_mul.
  assert (Hm : ((base + i) * bs <=? u64_max) = true) by nia.
  intros l Hl. destruct (costs_read_at_eof (cursor data) ((base + i) * bs) bs l Hl) as (offs & E1 & Hs & -> & E2).
  assert (E : eval (read_at_eof ((base + i) * bs) bs) (cursor data) = Ok None).
  { unfold eval, read_at_eof, seek, read_exact_eof, io. cbv [mbind M_bind]. cbn. unfold cursor_read_exact. cbn.
    by rewrite (proj2 (get_range_None _ _ _)) by nia. }
  exists [(base + i) * bs]. cbv [mbind M_bind lift]. rewrite Hm. rewrite E in E2.
  destruct (read_at_eof ((base + i) * bs) bs l) as [o l1]. cbn [fst snd] in *. subst o. done.
Qed.

Lemma costs_empty_ring l : Forall (λ i, 0 <= i < slots) l →
  costs (cursor data) (foldM (scan_slot base bs) l start) (λ offs o, zlen offs = zlen l ∧ o = Ok start).
Proof.
  induction 1 as [|i l Hi _ IH]; cbn [foldM].
  - eapply costs_weaken; [apply costs_ret|]. by intros offs o [-> ->].
  - eapply costs_weaken; [by eapply costs_bind_value; [apply costs_empty_slot|]|].
    intros offs o (o1 & o2 & -> & H1 & H2 & ->). rewrite zlen_app, zlen_cons. split; [lia|done].
Qed.

Lemma costs_ring : costs (cursor data) (resolve_live_checkpoint superblock)
  (λ offs o, zlen offs = slots ∧ o = Err (NoValidSuperblock 0 0)).
Proof.
  unfold resolve_live_checkpoint. rewrite Htree, Hok. cbn [negb]. eapply costs_weaken.
  - eapply costs_bind_value; [apply costs_empty_ring|apply costs_lift].
    apply Forall_forall. intros i Hi%elem_of_seqZ. lia.
  - intros offs o (o1 & o2 & -> & H1 & -> & ->). rewrite app_nil_r, H1. unfold zlen. rewrite length_seqZ. split; [lia|done].
Qed.

(** Opening a container whose superblock claims a ring past its end tries every slot. *)
Lemma open_reads block0 :
  get_range data 0 NX_MINIMUM_BLOCK_SIZE = Some block0 → NxSuperblock.parse block0 = Ok superblock →
  is_fusion superblock = false →
  reads ApfsContainer.open_state (cursor data) = 1 + slots ∧
  eval ApfsContainer.open_state (observe (cursor data)) = Err (NoValidSuperblock 0 0).
Proof.
  intros Hg Hp Hf. apply (costs_seeks (cursor data) _ (λ offs o, zlen offs = 1 + slots ∧ o = Err (NoValidSuperblock 0 0))).
  assert (E : eval (read_at_eof 0 NX_MINIMUM_BLOCK_SIZE) (cursor data) = Ok (Some block0)).
  { unfold eval, read_at_eof, seek, read_exact_eof, io. cbv [mbind M_bind]. cbn. unfold cursor_read_exact.
    cbn [cur_data cur_pos cursor]. by rewrite Z.add_0_l, Hg. }
  unfold ApfsContainer.open_state. eapply costs_weaken.
  - eapply costs_bind_value; [rewrite <- E; apply costs_read_at_eof|].
    eapply costs_bind_value; [rewrite Hp; apply costs_lift|]. rewrite Hf.
    eapply (costs_bind_ok _ _ _ _ (λ _ _ _, True)); [apply costs_ring|]. by intros live ? [_ [=]].
  - intros offs o (o1 & o2 & -> & -> & o3 & o4 & -> & -> & Ho). cbn [app]. rewrite zlen_cons.
    destruct Ho as [(a & ? & ? & _ & [_ [=]] & _)|[(e & -> & H1 & [= ->])|(_ & _ & [=])]]. split; [lia|done].
Qed.
End ring_work.

(** An image of one block that claims a ring of 2^31 - 1 slots after it. *)
Definition long_ring : bytes := nxsb_block 4096 5 1 2147483647 10 [1026].

Definition long_ring_superblock : NxSuperblock.t :=
  Eval vm_compute in match NxSuperblock.parse long_ring with Ok sb => sb | _ => demo_sb 0 0 end.

(** C37 The scan of the ring is not bounded by the image: there is an image of one block
    of 4096 bytes, a container superblock that passes its gates and claims 2^31 - 1 ring
    slots after itself, whose opening makes 2^31 reads and is then refused with
    [NoValidSuperblock], no slot checked. *)
Theorem ring_is_unbounded :
  zlen long_ring = 4096 ∧ reads ApfsContainer.open_state (cursor long_ring) = 2147483648 ∧
  eval ApfsContainer.open_state (observe (cursor long_ring)) = Err (NoValidSuperblock 0 0).
Proof.
  assert (Hlen : zlen long_ring = 4096) by (apply (bool_decide_unpack _); vm_compute; exact I).
  assert (Hp : NxSuperblock.parse long_ring = Ok long_ring_superblock) by (vm_compute; reflexivity).
  assert (Hg : get_range long_ring 0 NX_MINIMUM_BLOCK_SIZE = Some long_ring) by (vm_compute; reflexivity).
  split; [exact Hlen|]. revert Hlen Hp Hg. generalize long_ring. intros data Hlen Hp Hg.
  apply (open_reads data long_ring_superblock) with (block0 := data);
    [reflexivity|reflexivity|done|done| |done|exact Hg|exact Hp|reflexivity].
  rewrite Hlen. done.
Qed.
