(* ===== verification/ForensicVfs.v ===== *)
(** * The contract of the crate [forensic_vfs], as far as the adapter uses it

    The crate is not part of the repository.  What the adapter cannot name of it is
    abstract in the class [ForensicVfs]: the other identity domains, the named streams,
    debug texts, run flags.  The variants and the fields the adapter writes are
    constructors and records. *)
From S2P Require Import Prelude Reader.

(** ** The interface of [forensic_vfs] *)
Class ForensicVfs := {
  (** the identity domains of the other file systems, and the named streams *)
  OtherFileId : Type;
  NamedStream : Type;
  debug_file_id : OtherFileId → string;
  debug_stream : NamedStream → string;
  (** [RunFlags { sparse, ..RunFlags::default() }] is [set_sparse sparse default_flags] *)
  RunFlags : Type;
  default_flags : RunFlags;
  set_sparse : bool → RunFlags → RunFlags;
  sparse : RunFlags → bool;
  (** [SmallHex::new] *)
  SmallHex : Type;
  small_hex : bytes → SmallHex;
  (** the elements of [FsMeta]'s stream list, its link target, the items of a node stream *)
  StreamMeta : Type;
  LinkTarget : Type;
  NodeItem : Type;
  (** the text of an I/O error *)
  io_display : io_error → string;
}.

(** Setting a field sets it. *)
Class LawfulVfs `{ForensicVfs} := sparse_set_sparse b f : sparse (set_sparse b f) = b.

(** The variant of this file system, and the others. *)
Inductive FileId `{ForensicVfs} := ApfsOid (oid xid : Z) | OtherId (id : OtherFileId).

Module StreamId.
Inductive t `{ForensicVfs} := Default | Other (stream : NamedStream).
End StreamId.

(** The variants the adapter builds. *)
Module VfsError.
Inductive t `{ForensicVfs} :=
  | Unsupported (layer scheme : string)
  | Io (op : string) (source : io_error)
  | Decode (layer : string) (offset : Z) (detail : string) (bytes : SmallHex)
  | Bootstrap (stage detail : string).
End VfsError.

(** [VfsResult], or a panic. *)
Inductive vfs_outcome `{ForensicVfs} (A : Type) : Type :=
  | VOk (a : A)
  | VErr (e : VfsError.t)
  | VPanic.
Arguments VOk {_ A} a.
Arguments VErr {_ A} e.
Arguments VPanic {_ A}.

Module NodeKind.
Inductive t := Dir | File | Symlink | Other.
End NodeKind.

(** The enums of which the adapter names one variant. *)
Inductive FsKind := Apfs.
Inductive TimeZonePolicy := Utc.
Inductive Allocation := Allocated.
Inductive RunAlloc := RunAllocated.
Inductive ResidencyKind := NonResident.
Inductive TimeSource := InodeTable.
Inductive TimeResolution := Nanos.

Record TimeStamp := { unix_nanos : Z; ts_source : TimeSource; ts_resolution : TimeResolution }.
Record MacbTimes := { born : option TimeStamp; modified : option TimeStamp;
                      changed : option TimeStamp; accessed : option TimeStamp }.
Record SectorSizes := { logical : Z; physical : Z; cluster_or_block : Z }.

Module VfsEntry.
Record t `{ForensicVfs} := mk { kind : NodeKind.t; name : bytes; id : FileId }.
End VfsEntry.
Module ByteRun.
Record t `{ForensicVfs} := mk { image_offset : Z; len : Z; flags : RunFlags }.
End ByteRun.
Module RunInfo.
Record t `{ForensicVfs} := mk { run : ByteRun.t; alloc : RunAlloc }.
End RunInfo.
Module FsMeta.
Record t `{ForensicVfs} := mk {
  ino : Z;
  kind : NodeKind.t;
  allocated : Allocation;
  size : Z;
  nlink : Z;
  uid : option Z;
  gid : option Z;
  mode : option Z;
  times : MacbTimes;
  streams : list StreamMeta;
  residency : ResidencyKind;
  link_target : option LinkTarget;
}.
End FsMeta.
