(* ===== verification/Vfs.v ===== *)
(** * The virtual file system adapter ([src/src/vfs.rs])

    [ApfsFs] mounts a volume behind a mutex and serves the navigation contract of
    [forensic_vfs].  An operation is an [access]: an answer, or a critical section of
    calls into the reader made under the lock, so that [Workers] can interleave the
    operations of several threads at those calls, and [run_access] runs one alone. *)
From S2P Require Import Prelude Bytes Text Reader Display Container Build Volume Inode Dir Extent FileData Snapshot Apfs ForensicVfs.

Definition S_IFMT : Z := 0xF000.
Definition S_IFDIR : Z := 0x4000.
Definition S_IFREG : Z := 0x8000.
Definition S_IFLNK : Z := 0xA000.
Definition DT_MASK : Z := 0x0F.
Definition DT_DIR : Z := 4.
Definition DT_REG : Z := 8.
Definition DT_LNK : Z := 10.

(** [std::sync::Mutex], as its owner sees it between calls. *)
Module Mutex.
Record t (R : Type) := mk { inner : R; is_poisoned : bool }.
Arguments mk {R}.
Arguments inner {R}.
Arguments is_poisoned {R}.
End Mutex.

(** ** Mounting *)
Module ApfsFs.
Record t (R : Type) := mk {
  reader : Mutex.t R;
  volume : ApfsVolume.t;
  block_size : Z;
  root_xid : Z;
}.
Arguments mk {R}.
Arguments reader {R}.
Arguments volume {R}.
Arguments block_size {R}.
Arguments root_xid {R}.

Section mount.
Context {R : Type} `{ReadSeek R}.

(** An operation on a reader that is owned: its value and the reader it leaves. *)
Definition owned {A} (m : M R A) (reader : R) : outcome (A * R) :=
  match m reader with
  | (Ok a, reader') => Ok (a, reader')
  | (Err e, _) => Err e
  | (Panic, _) => Panic
  end.

(** The addresses of the volumes, and the reader taken back from the container. *)
Definition open_first_volume (reader : R) : outcome (R * ApfsVolume.t * Z) :=
  container ← ApfsContainer.open reader;
  let block_size := NxSuperblock.block_size (ApfsContainer.superblock container) in
  let '(addrs, container) := ApfsContainer.volume_superblock_addrs container in
  addrs ← addrs;
  vaddr ← ok_or (NoValidSuperblock 0 0) (head addrs);
  let reader := ApfsContainer.into_reader container in
  let offset := saturating_mul vaddr block_size in
  '(buf, reader) ← owned (read_at offset block_size) reader;
  volume ← ApfsVolume.parse buf;
  Ok (reader, volume, block_size).

Definition mount (reader : R) (volume : ApfsVolume.t) (block_size root_xid : Z) : t R :=
  {| reader := {| Mutex.inner := reader; Mutex.is_poisoned := false |};
     volume := volume; block_size := block_size; root_xid := root_xid |}.

Definition open (reader : R) : outcome (t R) :=
  '(reader, volume, block_size) ← open_first_volume reader;
  let root_xid := ApfsVolume.xid volume in
  Ok (mount reader volume block_size root_xid).

Definition open_snapshot (reader : R) (xid : Z) : outcome (t R) :=
  '(reader, live, block_size) ← open_first_volume reader;
  if xid =? ApfsVolume.xid live then Ok (mount reader live block_size xid) else
  '(snaps, reader) ← owned (list_snapshots live block_size) reader;
  snapshot ← ok_or (SnapshotNotFound xid) (head (filter (λ s, Snapshot.xid s = xid) snaps));
  '(volume, reader) ← owned (mount_snapshot live snapshot block_size) reader;
  Ok (mount reader volume block_size xid).

Definition snapshots (reader : R) : outcome (list Snapshot.t) :=
  '(reader, volume, block_size) ← open_first_volume reader;
  '(snaps, _) ← owned (list_snapshots volume block_size) reader;
  Ok snaps.
End mount.
End ApfsFs.

(** ** Operations *)

(** The calls an operation makes under the lock, each with its continuation. *)
Inductive critical `{ForensicVfs} (R A : Type) : Type :=
  | Done (o : vfs_outcome A)
  | Call (B : Set) (m : M R B) (k : vfs_outcome B → critical R A).
Arguments Done {_ R A} o.
Arguments Call {_ R A B} m k.

(** An operation: an answer without the lock, or a critical section. *)
Inductive access `{ForensicVfs} (R A : Type) : Type :=
  | Answer (o : vfs_outcome A)
  | Locked (body : critical R A).
Arguments Answer {_ R A} o.
Arguments Locked {_ R A} body.

Module Vfs.
Section vfs.
Context `{ForensicVfs}.

Definition oid_of (id : FileId) : vfs_outcome Z :=
  match id with
  | ApfsOid oid _ => VOk oid
  | OtherId other => VErr (VfsError.Unsupported "apfs file-id" (debug_file_id other))
  end.

Definition require_default_stream (stream : StreamId.t) : vfs_outcome unit :=
  match stream with
  | StreamId.Default => VOk tt
  | StreamId.Other other => VErr (VfsError.Unsupported "apfs stream" (debug_stream other))
  end.

Definition map_err (e : ApfsError) : VfsError.t :=
  match e with
  | Io source => VfsError.Io "apfs read" source
  | other => VfsError.Decode "apfs" 0 (to_string io_display other) (small_hex [])
  end.

Definition poisoned : VfsError.t := VfsError.Bootstrap "apfs reader lock" "interior reader mutex poisoned".

Definition dt_to_kind (flags : Z) : NodeKind.t :=
  let dt := Z.land flags DT_MASK in
  if dt =? DT_DIR then NodeKind.Dir
  else if dt =? DT_REG then NodeKind.File
  else if dt =? DT_LNK then NodeKind.Symlink
  else NodeKind.Other.

Definition mode_to_kind (mode : Z) : NodeKind.t :=
  let fmt := Z.land mode S_IFMT in
  if fmt =? S_IFDIR then NodeKind.Dir
  else if fmt =? S_IFREG then NodeKind.File
  else if fmt =? S_IFLNK then NodeKind.Symlink
  else NodeKind.Other.

Definition build_meta (inode : Inode.t) (size : Z) : FsMeta.t :=
  let ts := λ ns, {| unix_nanos := ns; ts_source := InodeTable; ts_resolution := Nanos |} in
  {| FsMeta.ino := Inode.oid inode;
     FsMeta.kind := mode_to_kind (Inode.mode inode);
     FsMeta.allocated := Allocated;
     FsMeta.size := size;
     FsMeta.nlink := Z.max (Inode.nlink_or_nchildren inode) 0;
     FsMeta.uid := Some (Inode.uid inode);
     FsMeta.gid := Some (Inode.gid inode);
     FsMeta.mode := Some (Inode.mode inode);
     FsMeta.times := {|
       born := Some (ts (Inode.create_time inode));
       modified := Some (ts (Inode.mod_time inode));
       changed := Some (ts (Inode.change_time inode));
       accessed := Some (ts (Inode.access_time inode)) |};
     FsMeta.streams := [];
     FsMeta.residency := NonResident;
     FsMeta.link_target := None |}.

(** [.map_err(map_err)]. *)
Definition mapped {A} (o : outcome A) : vfs_outcome A :=
  match o with Ok a => VOk a | Err e => VErr (map_err e) | Panic => VPanic end.

(** The [?] after a call under the lock, and after a check before it. *)
Definition under {R A} {B : Set} (m : M R B) (k : B → critical R A) : critical R A :=
  Call m (λ o, match o with VOk b => k b | VErr e => Done (VErr e) | VPanic => Done VPanic end).
Definition checked {R A B} (o : vfs_outcome B) (k : B → access R A) : access R A :=
  match o with VOk b => k b | VErr e => Answer (VErr e) | VPanic => Answer VPanic end.
End vfs.

Notation "x ⇐ m ; k" := (under m (λ x, k)) (at level 100, m at next level, k at level 200, right associativity) : apfs_scope.
Notation "x ⟸ o ; k" := (checked o (λ x, k)) (at level 100, o at next level, k at level 200, right associativity) : apfs_scope.

Section operations.
Context `{ForensicVfs} {R : Type} `{ReadSeek R}.
Context (zlib : bytes → option bytes) (lzvn : bytes → Z → option bytes) (lzfse : bytes → option bytes).
Context (fs : ApfsFs.t R).

Definition kind : FsKind := Apfs.

Definition root : FileId := ApfsOid ROOT_DIR_INO_NUM (ApfsFs.root_xid fs).

Definition sector_sizes : SectorSizes :=
  let bs := ApfsFs.block_size fs `mod` 2 ^ 32 in
  {| logical := bs; physical := bs; cluster_or_block := bs |}.

Definition timestamp_zone : TimeZonePolicy := Utc.

Definition dir_item (xid : Z) (e : DirEntry.t) : vfs_outcome VfsEntry.t :=
  VOk {| VfsEntry.kind := dt_to_kind (DirEntry.flags e);
         VfsEntry.name := DirEntry.name e;
         VfsEntry.id := ApfsOid (DirEntry.file_id e) xid |}.

(** A stream is the list of its items. *)
Definition read_dir (ino : FileId) : access R (list (vfs_outcome VfsEntry.t)) :=
  parent ⟸ oid_of ino;
  let xid := ApfsFs.root_xid fs in
  Locked (
    entries ⇐ list_dir (ApfsFs.volume fs) parent (ApfsFs.block_size fs);
    let out := dir_item xid <$> entries in
    Done (VOk out)).

Definition run_item (bs : Z) (x : FileExtent.t) : vfs_outcome RunInfo.t :=
  let sparse := FileExtent.phys_block_num x =? 0 in
  VOk {| RunInfo.run := {|
           ByteRun.image_offset := saturating_mul (FileExtent.phys_block_num x) bs;
           ByteRun.len := FileExtent.len x;
           ByteRun.flags := set_sparse sparse default_flags |};
         RunInfo.alloc := RunAllocated |}.

Definition extents (ino : FileId) (stream : StreamId.t) : access R (list (vfs_outcome RunInfo.t)) :=
  node ⟸ oid_of ino;
  _ ⟸ require_default_stream stream;
  let bs := ApfsFs.block_size fs in
  Locked (
    inode ⇐ load_inode (ApfsFs.volume fs) node bs;
    exts ⇐ list_extents (ApfsFs.volume fs) (Inode.private_id inode) bs;
    let out := run_item bs <$> exts in
    Done (VOk out)).

Definition lookup (parent : FileId) (name : bytes) : access R (option FileId) :=
  parent ⟸ oid_of parent;
  let xid := ApfsFs.root_xid fs in
  if negb (is_utf8 name) then Answer (VOk None) else
  Locked (
    found ⇐ lookup_child (ApfsFs.volume fs) parent name (ApfsFs.block_size fs);
    Done (VOk ((λ oid, ApfsOid oid xid) <$> found))).

Definition meta (ino : FileId) : access R FsMeta.t :=
  node ⟸ oid_of ino;
  Locked (
    inode ⇐ load_inode (ApfsFs.volume fs) node (ApfsFs.block_size fs);
    size ⇐ data_size (ApfsFs.volume fs) inode (ApfsFs.block_size fs);
    Done (VOk (build_meta inode size))).

(** The window [off..] of the content, copied over the start of [buf]: the count and the
    buffer.  On an error the buffer is as it was. *)
Definition copy_window (data : bytes) (off : Z) (buf : bytes) : Z * bytes :=
  let start := off in
  if zlen data <=? start then (0, buf) else
  let n := Z.min (zlen buf) (zlen data - start) in
  match get_range buf 0 n, get_range data start (start + n) with
  | Some dst, Some src => (n, put buf (0, src))
  | _, _ => (0, buf)
  end.

Definition read_at (ino : FileId) (stream : StreamId.t) (off : Z) (buf : bytes) : access R (Z * bytes) :=
  node ⟸ oid_of ino;
  _ ⟸ require_default_stream stream;
  let bs := ApfsFs.block_size fs in
  Locked (
    inode ⇐ load_inode (ApfsFs.volume fs) node bs;
    data ⇐ read_data zlib lzvn lzfse (ApfsFs.volume fs) inode bs;
    Done (VOk (copy_window data off buf))).

Definition read_link (ino : FileId) (cap : Z) : access R bytes := Answer (VOk []).
Definition deleted : access R (list (vfs_outcome NodeItem)) := Answer (VOk []).
Definition unallocated : access R (list (vfs_outcome RunInfo.t)) := Answer (VOk []).

(** ** Running one operation alone *)

Fixpoint run_critical {A} (body : critical R A) (r : R) : vfs_outcome A * R :=
  match body with
  | Done o => (o, r)
  | Call m k => let '(o, r') := m r in run_critical (k (mapped o)) r'
  end.

Definition is_panic {A} (o : vfs_outcome A) : bool := match o with VPanic => true | _ => false end.
End operations.

(** Lock, run, release: a panic under the lock poisons it.  The five methods that take the
    lock ([read_dir], [extents], [lookup], [meta] and [read_at]) have this shape in common:
    [self.reader.lock().map_err(..)?], the body with the guard, the drop of the guard. *)
Definition run_access `{ForensicVfs} {R A} (a : access R A) (fs : ApfsFs.t R) : vfs_outcome A * ApfsFs.t R :=
  match a with
  | Answer o => (o, fs)
  | Locked body =>
      if Mutex.is_poisoned (ApfsFs.reader fs) then (VErr poisoned, fs) else
      let '(o, r') := run_critical body (Mutex.inner (ApfsFs.reader fs)) in
      (o, {| ApfsFs.reader := {| Mutex.inner := r'; Mutex.is_poisoned := is_panic o |};
             ApfsFs.volume := ApfsFs.volume fs; ApfsFs.block_size := ApfsFs.block_size fs;
             ApfsFs.root_xid := ApfsFs.root_xid fs |})
  end.
End Vfs.

Import Vfs.

(** ** Calls as data: any operation of the trait on nodes *)
Inductive vfs_call `{ForensicVfs} :=
  | ReadDir (ino : FileId)
  | Extents (ino : FileId) (stream : StreamId.t)
  | Lookup (parent : FileId) (name : bytes)
  | Meta (ino : FileId)
  | ReadAt (ino : FileId) (stream : StreamId.t) (off : Z) (buf : bytes)
  | ReadLink (ino : FileId) (cap : Z)
  | Deleted
  | Unallocated.

Definition vfs_answer `{ForensicVfs} (c : vfs_call) : Type :=
  match c with
  | ReadDir _ => list (vfs_outcome VfsEntry.t)
  | Extents _ _ => list (vfs_outcome RunInfo.t)
  | Lookup _ _ => option FileId
  | Meta _ => FsMeta.t
  | ReadAt _ _ _ _ => Z * bytes
  | ReadLink _ _ => bytes
  | Deleted => list (vfs_outcome NodeItem)
  | Unallocated => list (vfs_outcome RunInfo.t)
  end.

Definition dispatch `{ForensicVfs} {R} `{ReadSeek R} zlib lzvn lzfse (fs : ApfsFs.t R) (c : vfs_call) : access R (vfs_answer c) :=
  match c with
  | ReadDir ino => read_dir fs ino
  | Extents ino stream => extents fs ino stream
  | Lookup parent name => lookup fs parent name
  | Meta ino => meta fs ino
  | ReadAt ino stream off buf => read_at zlib lzvn lzfse fs ino stream off buf
  | ReadLink ino cap => read_link ino cap
  | Deleted => deleted
  | Unallocated => unallocated
  end.
