(* ===== verification/Mounted.v ===== *)
(** * What a mounted file system promises ([src/src/vfs.rs])

    A handle is [mounted] when its lock is sane, its source is the one it was opened on
    and its block size is in range; mounting gives such a handle and every operation
    keeps it.  On it the operations refine the abstract file system of the volume's
    records, content is read window by window, and refusals are named. *)
From S2P Require Import Prelude Bytes Text Reader Display Object Container Node Build Walk BTree Omap Checkpoint Volume FsRecord Inode Dir Extent Xattr Compression FileData Snapshot Apfs ForensicVfs Vfs.
Import Vfs.

(** ** Critical sections *)
Section critical.
Context `{ForensicVfs} {R : Type} `{LawfulReader R}.

(** At most [n] calls, each stable. *)
Fixpoint steady {A} (n : nat) (body : critical R A) {struct body} : Prop :=
  match body with
  | Done _ => True
  | Call m k => match n with O => False | S n' => Stable m ∧ ∀ o, steady n' (k o) end
  end.

Definition critical_value {A} (body : critical R A) (r : R) : vfs_outcome A := (run_critical body r).1.

Lemma run_critical_steady {A} n (body : critical R A) r r' : steady n body → same_source r r' →
  critical_value body r = critical_value body r' ∧ same_source (run_critical body r).2 r.
Proof.
  unfold critical_value. revert n r r'. induction body as [o|B m k IH]; intros n r r' Hs Hr; [done|].
  destruct n as [|n]; [done|]. destruct Hs as [Hm Hk]. cbn [run_critical].
  pose proof (stable_value (m := m) r r' Hr) as Hv. pose proof (stable_keeps (m := m) r) as Hk1.
  pose proof (stable_keeps (m := m) r') as Hk2. unfold eval in Hv.
  destruct (m r) as [o r1], (m r') as [o' r2]. cbn [fst snd] in *. subst o'.
  destruct (IH (mapped o) n r1 r2 (Hk _)) as [E1 E2]; [by rewrite Hk1, Hk2|].
  split; [done|]. by rewrite E2.
Qed.

Lemma steady_mono {A} n n' (body : critical R A) : (n ≤ n')%nat → steady n body → steady n' body.
Proof.
  revert n n'. induction body as [o|B m k IH]; intros n n' Hn Hs; [exact I|].
  destruct n as [|n]; [done|]. destruct n' as [|n']; [lia|]. destruct Hs as [Hm Hk].
  split; [done|]. intros o. apply (IH o n); [lia|done].
Qed.

Lemma steady_under {A} {B : Set} n (m : M R B) (k : B → critical R A) :
  Stable m → (∀ b, steady n (k b)) → steady (S n) (under m k).
Proof. intros Hm Hk. split; [done|]. by intros [b|e|]. Qed.

(** The value of a call is the call's value, its error mapped. *)
Lemma critical_value_under {A} {B : Set} n (m : M R B) (k : B → critical R A) r :
  Stable m → (∀ b, steady n (k b)) →
  critical_value (under m k) r =
    match eval m r with Ok b => critical_value (k b) r | Err e => VErr (map_err e) | Panic => VPanic end.
Proof.
  intros Hm Hk. unfold critical_value at 1, under. cbn [run_critical].
  pose proof (stable_keeps (m := m) r) as Hr. unfold eval. destruct (m r) as [[b|e|] r1]; [|done..].
  cbn [fst snd mapped] in *. by apply (run_critical_steady n).
Qed.
End critical.
#[export] Hint Resolve steady_under : stable.

(** ** The operations are critical sections of at most two stable calls *)
Section operations.
Context `{ForensicVfs} {R : Type} `{LawfulReader R}.
Context (zlib : bytes → option bytes) (lzvn : bytes → Z → option bytes) (lzfse : bytes → option bytes).

Lemma dispatch_steady (fs : ApfsFs.t R) c :
  match dispatch zlib lzvn lzfse fs c with Answer o => o ≠ VPanic | Locked body => steady 2 body end.
Proof.
  destruct c as [[]|[] []|[] name| []|[] []|ino cap| |]; cbn [dispatch read_dir extents lookup meta read_at oid_of
    require_default_stream checked vfs_answer]; try done.
  - apply steady_under; [solve_stable|intros; exact I].
  - apply steady_under; [solve_stable|]. intros. apply steady_under; [solve_stable|intros; exact I].
  - destruct (negb _); [done|]. apply steady_under; [solve_stable|intros; exact I].
  - apply steady_under; [solve_stable|]. intros. apply steady_under; [solve_stable|intros; exact I].
  - apply steady_under; [solve_stable|]. intros. apply steady_under; [solve_stable|intros; exact I].
Qed.
End operations.

(** ** Mounting *)
Section mounting.
Context {R : Type} `{LawfulReader R}.
Import ApfsFs.

Lemma owned_eval {A} (m : M R A) r : owned m r = (a ← eval m r; Ok (a, (m r).2)).
Proof. unfold owned, eval. by destruct (m r) as [[a|e|] r']. Qed.

(** [live] is the first volume of the container on [r], whose blocks have [bs] bytes. *)
Record first_volume (r : R) (live : ApfsVolume.t) (bs : Z) : Prop := {
  fv_block_size : block_size_ok bs = true;
  fv_stored : ∃ c a addrs block,
    ApfsContainer.open r = Ok c ∧ NxSuperblock.block_size (ApfsContainer.superblock c) = bs ∧
    eval (ApfsContainer.resolve_volumes (ApfsContainer.superblock c)) r = Ok (a :: addrs) ∧
    eval (Reader.read_at (saturating_mul a bs) bs) r = Ok block ∧ ApfsVolume.parse block = Ok live;
}.

Lemma opened_source r c : ApfsContainer.open r = Ok c → same_source (ApfsContainer.reader c) r.
Proof.
  intros (live & Ho & _)%open_Ok. pose proof (stable_keeps (Stable := Stable_open_state) r) as Hk. by rewrite Ho in Hk.
Qed.

Lemma open_first_volume_inv r r' live bs :
  open_first_volume r = Ok (r', live, bs) → first_volume r live bs ∧ same_source r' r.
Proof.
  unfold open_first_volume. intros (c & Hc & E)%outcome_bind_Ok. pose proof (opened_source r c Hc) as Hr.
  destruct (ApfsContainer.volume_superblock_addrs c) as [o c'] eqn:Hv.
  apply outcome_bind_Ok in E as (addrs & -> & E). apply outcome_bind_Ok in E as (a & Ha & E).
  apply ok_or_Ok in Ha. destruct addrs as [|a' addrs]; [done|]. injection Ha as ->.
  rewrite owned_eval in E. apply outcome_bind_Ok in E as ([block r2] & E1 & E).
  apply outcome_bind_Ok in E1 as (block' & Hb & [= -> <-]). apply outcome_bind_Ok in E as (v & Hp & [= <- -> Hbs]).
  unfold ApfsContainer.volume_superblock_addrs in Hv.
  pose proof (stable_value (Stable := Stable_resolve_volumes (ApfsContainer.superblock c)) _ _ Hr) as Hval.
  pose proof (stable_keeps (Stable := Stable_resolve_volumes (ApfsContainer.superblock c)) (ApfsContainer.reader c)) as Hk.
  unfold eval at 1 in Hval. destruct (ApfsContainer.resolve_volumes _ _) as [o r3]. injection Hv as -> <-.
  unfold ApfsContainer.into_reader in *. cbn [fst snd ApfsContainer.reader] in *.
  subst bs. assert (Hr3 : same_source r3 r) by (by etrans). split; [split|].
  - unfold ApfsContainer.resolve_volumes in Hval. destruct (block_size_ok _); [done|].
    cbn [negb] in Hval. by rewrite eval_throw in Hval.
  - exists c, a, addrs, block. split_and!; try done.
    by rewrite <- (stable_value (Stable := Stable_read_at _ _) r3 r).
  - etrans; [|exact Hr3]. apply (stable_keeps (Stable := Stable_read_at _ _)).
Qed.

Lemma open_first_volume_Ok r live bs : first_volume r live bs →
  ∃ r', open_first_volume r = Ok (r', live, bs) ∧ same_source r' r.
Proof.
  intros [Hbs (c & a & addrs & block & Hc & Hbsc & Ha & Hb & Hp)]. pose proof (opened_source r c Hc) as Hr.
  enough (∃ r', open_first_volume r = Ok (r', live, bs)) as [r' E].
  { exists r'. split; [done|]. by apply open_first_volume_inv in E as [_ ?]. }
  subst bs. unfold open_first_volume. rewrite Hc, bind_Ok. unfold ApfsContainer.volume_superblock_addrs.
  pose proof (stable_value (Stable := Stable_resolve_volumes (ApfsContainer.superblock c)) _ _ Hr) as Hval.
  pose proof (stable_keeps (Stable := Stable_resolve_volumes (ApfsContainer.superblock c)) (ApfsContainer.reader c)) as Hk.
  rewrite Ha in Hval. unfold eval at 1 in Hval. destruct (ApfsContainer.resolve_volumes _ _) as [o r3].
  cbn [fst snd] in *. subst o. rewrite bind_Ok. cbn [head hd_error ok_or]. rewrite bind_Ok, owned_eval.
  unfold ApfsContainer.into_reader. cbn [ApfsContainer.reader].
  rewrite (stable_value (Stable := Stable_read_at _ _) r3 r) by (by etrans).
  rewrite Hb, !bind_Ok, Hp, bind_Ok. by eexists.
Qed.

(** What a mounted file system is: its lock is sane, its source is [r], its blocks have a
    size in range, and its volume is a superblock of the source that passed the gates,
    with an object map. *)
Record mounted (r : R) (fs : t R) : Prop := {
  mt_sane : Mutex.is_poisoned (reader fs) = false;
  mt_source : same_source (Mutex.inner (reader fs)) r;
  mt_block_size : block_size_ok (block_size fs) = true;
  mt_volume : ∃ off block frozen omap,
    eval (Reader.read_at off (block_size fs)) r = Ok block ∧ ApfsVolume.parse block = Ok frozen ∧
    volume fs = ApfsVolume.with_omap_oid frozen omap;
}.

Lemma mounted_live r r' live bs xid : first_volume r live bs → same_source r' r → mounted r (mount r' live bs xid).
Proof.
  intros [Hbs (c & a & addrs & block & _ & _ & _ & Hb & Hp)] Hr. split; [done..|].
  exists (saturating_mul a bs), block, live, (ApfsVolume.omap_oid live). split_and!; [done..|]. by destruct live.
Qed.

(** [open_snapshot] on a first volume, its cases. *)
Lemma open_snapshot_cases r live bs xid : first_volume r live bs →
  ∃ r', same_source r' r ∧ open_snapshot r xid =
    (if xid =? ApfsVolume.xid live then Ok (mount r' live bs xid) else
     snaps ← eval (list_snapshots live bs) r;
     snapshot ← ok_or (SnapshotNotFound xid) (head (filter (λ s, Snapshot.xid s = xid) snaps));
     volume ← eval (mount_snapshot live snapshot bs) r;
     Ok (mount r' volume bs xid)) ∧
    (xid = ApfsVolume.xid live → open r = Ok (mount r' live bs xid)).
Proof.
  intros Hv. destruct (open_first_volume_Ok r live bs Hv) as (r1 & Ho & Hr1).
  unfold open_snapshot, open. rewrite Ho, !bind_Ok. destruct (Z.eqb_spec xid (ApfsVolume.xid live)) as [->|Hx].
  { by exists r1. }
  set (r2 := (list_snapshots live bs r1).2).
  assert (Hr2 : same_source r2 r) by (etrans; [apply (stable_keeps (Stable := Stable_list_snapshots _ _))|exact Hr1]).
  rewrite owned_eval, (stable_value (Stable := Stable_list_snapshots _ _) r1 r) by done.
  destruct (eval (list_snapshots live bs) r) as [snaps|e|]; [|by exists r2..]. rewrite !bind_Ok. fold r2. setoid_rewrite bind_Ok.
  destruct (head _) as [s|]; [|by exists r2]. cbn [ok_or]. setoid_rewrite bind_Ok. rewrite owned_eval.
  rewrite (stable_value (Stable := Stable_mount_snapshot _ _ _) r2 r) by done.
  exists (mount_snapshot live s bs r2).2. split; [|by destruct (eval (mount_snapshot live s bs) r)].
  etrans; [apply (stable_keeps (Stable := Stable_mount_snapshot _ _ _))|exact Hr2].
Qed.

Lemma open_snapshot_mounted r live bs xid fs : first_volume r live bs → open_snapshot r xid = Ok fs →
  block_size fs = bs ∧ root_xid fs = xid ∧ mounted r fs.
Proof.
  intros Hv. destruct (open_snapshot_cases r live bs xid Hv) as (r' & Hr' & -> & _).
  destruct (xid =? ApfsVolume.xid live).
  { intros [= <-]. split_and!; [done..|]. by apply (mounted_live r r'). }
  intros (snaps & _ & E)%outcome_bind_Ok. apply outcome_bind_Ok in E as (s & _ & E).
  apply outcome_bind_Ok in E as (v & Hm & [= <-]). split_and!; [done..|].
  unfold mount_snapshot in Hm. rewrite eval_bind in Hm by solve_stable.
  apply outcome_bind_Ok in Hm as (block & Hb & Hm). rewrite eval_bind in Hm by solve_stable.
  rewrite eval_lift in Hm. apply outcome_bind_Ok in Hm as (frozen & Hp & [= <-]).
  split; [done..|apply Hv|]. by eexists _, block, frozen, _.
Qed.

Lemma open_mounted r fs : open r = Ok fs → mounted r fs ∧ root_xid fs = ApfsVolume.xid (volume fs).
Proof.
  unfold open. intros ([[r' live] bs] & Ho & [= <-])%outcome_bind_Ok.
  apply open_first_volume_inv in Ho as [Hv Hr]. split; [|done]. by apply (mounted_live r r').
Qed.

(** C17 Mounting at a transaction: over a container whose first volume has a well-formed
    snapshot tree, [snapshots] lists the tree's metadata records ordered by transaction;
    [open_snapshot] at the live transaction is [open] and mounts the live volume; at
    another it mounts the volume frozen at the first snapshot record of that
    transaction, with the live object map, or gives that mount's error, and
    when no record has the transaction it gives [SnapshotNotFound] with it. *)
Theorem open_snapshot_point_in_time r live bs om t :
  first_volume r live bs → snap_tree live bs r om t →
  snapshots r = Ok (sort_by_key Snapshot.xid (snapshots_of (entries t))) ∧
  open r = open_snapshot r (ApfsVolume.xid live) ∧
  ∀ xid,
    (∀ fs, open_snapshot r xid = Ok fs → block_size fs = bs ∧ root_xid fs = xid ∧ mounted r fs) ∧
    outcome_map volume (open_snapshot r xid) =
      if xid =? ApfsVolume.xid live then Ok live else
      match head (filter (λ s, Snapshot.xid s = xid) (snapshots_of (entries t))) with
      | Some s => eval (mount_snapshot live s bs) r
      | None => Err (SnapshotNotFound xid)
      end.
Proof.
  intros Hv Ht. pose proof (list_snapshots_eval live bs r om t Ht) as Hl. split_and!.
  - destruct (open_first_volume_Ok r live bs Hv) as (r1 & Ho & Hr1).
    unfold snapshots. rewrite Ho, bind_Ok, owned_eval.
    by rewrite (stable_value (Stable := Stable_list_snapshots _ _) r1 r Hr1), Hl.
  - destruct (open_snapshot_cases r live bs (ApfsVolume.xid live) Hv) as (r' & _ & -> & Ho).
    by rewrite Z.eqb_refl, Ho.
  - intros xid. split; [by intros fs; apply (open_snapshot_mounted r live)|].
    destruct (open_snapshot_cases r live bs xid Hv) as (r' & _ & -> & _). rewrite Hl.
    destruct (xid =? ApfsVolume.xid live); [done|].
    rewrite bind_Ok, sort_by_key_stable. destruct (head _) as [s|]; [|done]. cbn [ok_or]. rewrite bind_Ok.
    by destruct (eval (mount_snapshot live s bs) r).
Qed.
End mounting.

(** ** Properties *)
Section properties.
Context `{ForensicVfs} {R : Type} `{LawfulReader R}.
Context (zlib : bytes → option bytes) (lzvn : bytes → Z → option bytes) (lzfse : bytes → option bytes).

(** The answer of an operation run alone. *)
Definition answer_alone (fs : ApfsFs.t R) (c : vfs_call) : vfs_outcome (vfs_answer c) :=
  (run_access (dispatch zlib lzvn lzfse fs c) fs).1.

Lemma run_locked {A} (fs : ApfsFs.t R) (body : critical R A) r : mounted r fs → steady 2 body →
  (run_access (Locked body) fs).1 = critical_value body r.
Proof.
  intros [Hp Hs _ _] Hb. unfold run_access. rewrite Hp.
  destruct (run_critical_steady 2 body _ _ Hb Hs) as [E _]. unfold critical_value in E.
  destruct (run_critical body (Mutex.inner (ApfsFs.reader fs))) as [o r']. cbn [fst] in *. done.
Qed.

Lemma block_size_ok_pos bs : block_size_ok bs = true → 4096 <= bs <= 65536.
Proof. unfold block_size_ok, NX_MINIMUM_BLOCK_SIZE, NX_MAXIMUM_BLOCK_SIZE. lia. Qed.

(** Under the lock nothing panics: the block size of a mounted file system is not zero. *)
Lemma under_no_panic {A} {B : Set} n (m : M R B) (k : B → critical R A) r : Stable m → (∀ b, steady n (k b)) →
  eval m r ≠ Panic → (∀ b, critical_value (k b) r ≠ VPanic) → critical_value (under m k) r ≠ VPanic.
Proof. intros Hm Hk Hp Hv. rewrite (critical_value_under n) by done. by destruct (eval m r). Qed.

Lemma dispatch_no_panic (fs : ApfsFs.t R) c body r : block_size_ok (ApfsFs.block_size fs) = true →
  dispatch zlib lzvn lzfse fs c = Locked body → critical_value body r ≠ VPanic.
Proof.
  intros Hbs%block_size_ok_pos. assert (Hnz : ApfsFs.block_size fs ≠ 0) by lia.
  destruct c as [[]|[] []|[] name| []|[] []|ino cap| |]; cbn [dispatch read_dir extents lookup meta read_at oid_of
    require_default_stream checked vfs_answer]; try done; try (destruct (negb _); [done|]); intros [= <-].
  - apply (under_no_panic 0); [solve_stable|intros; exact I|apply Safe_list_dir|done].
  - apply (under_no_panic 1); [solve_stable|intros; apply steady_under; [solve_stable|intros; exact I]|apply Safe_load_inode|].
    intros i. apply (under_no_panic 0); [solve_stable|intros; exact I|by apply Safe_list_extents|done].
  - apply (under_no_panic 0); [solve_stable|intros; exact I|apply Safe_lookup_child|done].
  - apply (under_no_panic 1); [solve_stable|intros; apply steady_under; [solve_stable|intros; exact I]|apply Safe_load_inode|].
    intros i. apply (under_no_panic 0); [solve_stable|intros; exact I|by apply data_size_no_panic|done].
  - apply (under_no_panic 1); [solve_stable|intros; apply steady_under; [solve_stable|intros; exact I]|apply Safe_load_inode|].
    intros i. apply (under_no_panic 0); [solve_stable|intros; exact I|by apply read_data_no_panic|done].
Qed.

Lemma run_dispatch_mounted r (fs : ApfsFs.t R) c : mounted r fs →
  let '(o, fs') := run_access (dispatch zlib lzvn lzfse fs c) fs in
  o ≠ VPanic ∧ mounted r fs' ∧ ApfsFs.volume fs' = ApfsFs.volume fs ∧
  ApfsFs.block_size fs' = ApfsFs.block_size fs ∧ ApfsFs.root_xid fs' = ApfsFs.root_xid fs.
Proof.
  intros Hm. pose proof (dispatch_steady zlib lzvn lzfse fs c) as Hs.
  destruct (dispatch zlib lzvn lzfse fs c) as [o|body] eqn:Hd; [done|].
  pose proof (dispatch_no_panic fs c body r (mt_block_size r fs Hm) Hd) as Hp.
  pose proof (run_locked fs body r Hm Hs) as Hv. destruct Hm as [Hpo Hsrc Hbs Hvol]. unfold run_access in *. rewrite Hpo in *.
  destruct (run_critical_steady 2 body _ _ Hs Hsrc) as [_ Hk].
  destruct (run_critical body (Mutex.inner (ApfsFs.reader fs))) as [o r']. cbn [fst snd] in *. subst o.
  split; [done|]. split; [|done]. split; [by destruct (critical_value body r)|by etrans|done|done].
Qed.

(** C19 The type of a mounted file system is an invariant: [open] and [open_snapshot] give
    a handle with a sane lock, a block size in range, a volume parsed from the source
    and the transaction asked for; on such a handle every operation returns an answer or
    an error and never panics, so it never poisons the lock, and it leaves a handle of
    the same volume, block size and transaction over the same source. *)
Theorem mounted_preserved (r : R) :
  (∀ fs, ApfsFs.open r = Ok fs → mounted r fs ∧ ApfsFs.root_xid fs = ApfsVolume.xid (ApfsFs.volume fs)) ∧
  (∀ xid fs, ApfsFs.open_snapshot r xid = Ok fs → mounted r fs ∧ ApfsFs.root_xid fs = xid) ∧
  (∀ fs c, mounted r fs →
    let '(o, fs') := run_access (dispatch zlib lzvn lzfse fs c) fs in
    o ≠ VPanic ∧ mounted r fs' ∧ ApfsFs.volume fs' = ApfsFs.volume fs ∧
    ApfsFs.block_size fs' = ApfsFs.block_size fs ∧ ApfsFs.root_xid fs' = ApfsFs.root_xid fs).
Proof.
  split_and!; [apply open_mounted| |].
  - intros xid fs Ho. assert (Hv : ∃ live bs, first_volume r live bs).
    { unfold ApfsFs.open_snapshot in Ho. apply outcome_bind_Ok in Ho as ([[r' live] bs] & Ho & _).
      apply open_first_volume_inv in Ho as [? _]. eauto. }
    destruct Hv as (live & bs & Hv). by destruct (open_snapshot_mounted r live bs xid fs Hv Ho) as (_ & ? & ?).
  - intros fs c. apply run_dispatch_mounted.
Qed.

(** *** The answers, as outcomes of the reader *)
Section answers.
Context (fs : ApfsFs.t R) (r : R) (Hm : mounted r fs).
Notation volume := (ApfsFs.volume fs).
Notation bs := (ApfsFs.block_size fs).
Notation xid := (ApfsFs.root_xid fs).

Lemma answer_locked c body : dispatch zlib lzvn lzfse fs c = Locked body →
  answer_alone fs c = critical_value body r.
Proof.
  intros Hd. pose proof (dispatch_steady zlib lzvn lzfse fs c) as Hs. unfold answer_alone. rewrite Hd in *.
  by apply run_locked.
Qed.

(** A section of one call, and one of two. *)
Lemma one_call {A} {B : Set} (m : M R B) (f : B → A) : Stable m →
  critical_value (under m (λ b, Done (VOk (f b)))) r = mapped (outcome_map f (eval m r)).
Proof. intros Hs. rewrite (critical_value_under 0); [|done|by intros]. by destruct (eval m r). Qed.

Lemma two_calls {A} {B C : Set} (m : M R B) (m' : B → M R C) (f : B → C → A) : Stable m → (∀ b, Stable (m' b)) →
  critical_value (under m (λ b, under (m' b) (λ c, Done (VOk (f b c))))) r =
    mapped (b ← eval m r; outcome_map (f b) (eval (m' b) r)).
Proof.
  intros Hs Hs'. rewrite (critical_value_under 1); [|done|by intros; apply steady_under].
  destruct (eval m r) as [b|e|]; [|done..]. by rewrite bind_Ok, one_call.
Qed.

Lemma answer_read_dir oid x :
  answer_alone fs (ReadDir (ApfsOid oid x)) = mapped (outcome_map (fmap (dir_item xid)) (eval (list_dir volume oid bs) r)).
Proof. erewrite answer_locked; [|reflexivity]. apply (one_call (B := list DirEntry.t) _ (fmap (dir_item xid))). solve_stable. Qed.

Lemma answer_lookup oid x name :
  answer_alone fs (Lookup (ApfsOid oid x) name) =
    if is_utf8 name
    then mapped (outcome_map (fmap (λ o, ApfsOid o xid)) (eval (lookup_child volume oid name bs) r))
    else VOk None.
Proof.
  destruct (is_utf8 name) eqn:Hu.
  - assert (Hd : dispatch zlib lzvn lzfse fs (Lookup (ApfsOid oid x) name) = Locked
      (under (lookup_child volume oid name bs) (λ found, Done (VOk ((λ oid, ApfsOid oid xid) <$> found)))))
      by (cbn [dispatch lookup oid_of checked]; by rewrite Hu).
    rewrite (answer_locked _ _ Hd). apply (one_call (B := option Z) _ (fmap (λ o, ApfsOid o xid))). solve_stable.
  - unfold answer_alone. cbn [dispatch lookup oid_of checked]. by rewrite Hu.
Qed.

Lemma answer_extents oid x :
  answer_alone fs (Extents (ApfsOid oid x) StreamId.Default) =
    mapped (inode ← eval (load_inode volume oid bs) r;
            outcome_map (fmap (run_item bs)) (eval (list_extents volume (Inode.private_id inode) bs) r)).
Proof. erewrite answer_locked; [|reflexivity]. apply (two_calls (C := list FileExtent.t) _ _ (λ _, fmap (run_item bs))); solve_stable. Qed.

Lemma answer_meta oid x :
  answer_alone fs (Meta (ApfsOid oid x)) =
    mapped (inode ← eval (load_inode volume oid bs) r;
            outcome_map (build_meta inode) (eval (data_size volume inode bs) r)).
Proof. erewrite answer_locked; [|reflexivity]. apply (two_calls _ _ build_meta); solve_stable. Qed.

Lemma answer_read_at oid x off buf :
  answer_alone fs (ReadAt (ApfsOid oid x) StreamId.Default off buf) =
    mapped (inode ← eval (load_inode volume oid bs) r;
            outcome_map (λ data, copy_window data off buf) (eval (read_data zlib lzvn lzfse volume inode bs) r)).
Proof.
  erewrite answer_locked; [|reflexivity]. apply (two_calls _ _ (λ _ data, copy_window data off buf)); solve_stable.
Qed.
End answers.

(** The inode the records of a volume hold for an object. *)
Definition inode_at (volume : ApfsVolume.t) (records : list Entry) (oid : Z) : outcome Inode.t :=
  match inode_value records oid with
  | Some v => Inode.parse oid v
  | None => Err (OmapUnresolved oid (ApfsVolume.xid volume))
  end.

(** A name the listing has is UTF-8 text. *)
Lemma child_utf8 records parent name o : child records parent name = Some o → is_utf8 name = true.
Proof.
  unfold child. destruct (head (filter _ _)) as [d|] eqn:Hh; [|done]. intros _.
  assert (Hin : d ∈ filter (λ d, DirEntry.name d = name) (directory records parent)).
  { destruct (filter _ _); [done|]. injection Hh as ->. left. }
  apply list_elem_of_filter in Hin as [<- Hin]. unfold directory in Hin.
  apply list_elem_of_omap in Hin as (e & _ & Hp). unfold parse_dir_entry, decode_drec_name, name_at in Hp.
  repeat case_match; simplify_option_eq; apply decode_cstr_spec.
Qed.

(** C2 The adapter refines the abstract file system of the volume's records, whatever
    transaction the caller's ids carry: [read_dir] streams the entries of the directory
    in key order with the kinds of their types; [lookup] is the first child of that
    name, none for a name that is not UTF-8; [extents] streams the runs of the inode's
    main fork in logical order, sparse exactly when no block is allocated; [meta] is the
    inode's metadata with the length of its content; a missing inode is a decode error
    with the reader's message.  Every id handed out carries the mounted transaction. *)
Theorem operations_refine `{!LawfulVfs} (fs : ApfsFs.t R) r om t :
  let volume := ApfsFs.volume fs in
  let bs := ApfsFs.block_size fs in
  let xid := ApfsFs.root_xid fs in
  let records := entries t in
  mounted r fs → fs_tree volume bs r om t →
  ∀ oid x,
  answer_alone fs (ReadDir (ApfsOid oid x)) = VOk (dir_item xid <$> directory records oid) ∧
  (∀ name, answer_alone fs (Lookup (ApfsOid oid x) name) = VOk ((λ o, ApfsOid o xid) <$> child records oid name)) ∧
  answer_alone fs (Extents (ApfsOid oid x) StreamId.Default) =
    mapped (inode ← inode_at volume records oid;
            Ok (run_item bs <$> sort_by_key FileExtent.logical_offset (extents_of records (Inode.private_id inode)))) ∧
  (∀ ext i, run_item bs ext = VOk i →
    sparse (ByteRun.flags (RunInfo.run i)) = (FileExtent.phys_block_num ext =? 0)) ∧
  answer_alone fs (Meta (ApfsOid oid x)) =
    mapped (inode ← inode_at volume records oid; outcome_map (build_meta inode) (eval (data_size volume inode bs) r)).
Proof.
  intros volume bs xid records Hm Ht oid x. split_and!.
  - rewrite (answer_read_dir fs r Hm). fold volume bs. by rewrite (list_dir_eval _ _ _ _ _ _ Ht).
  - intros name. rewrite (answer_lookup fs r Hm). fold volume bs. rewrite (lookup_child_eval _ _ _ _ _ _ _ Ht).
    fold records. destruct (child records oid name) as [o|] eqn:Hc.
    + by rewrite (child_utf8 _ _ _ _ Hc).
    + by destruct (is_utf8 name).
  - rewrite (answer_extents fs r Hm). fold volume bs. rewrite (load_inode_eval _ _ _ _ _ _ Ht).
    fold records. unfold inode_at. destruct (match inode_value records oid with Some _ => _ | None => _ end); [|done..].
    by rewrite !bind_Ok, (list_extents_eval _ _ _ _ _ _ Ht).
  - intros ext i [= <-]. apply sparse_set_sparse.
  - rewrite (answer_meta fs r Hm). fold volume bs. by rewrite (load_inode_eval _ _ _ _ _ _ Ht).
Qed.

(** *** Reading content *)

(** The copy, without its guards. *)
Lemma copy_window_spec data off buf : 0 <= off →
  let n := Z.min (zlen buf) (Z.max 0 (zlen data - off)) in
  copy_window data off buf = (n, take (Z.to_nat n) (drop (Z.to_nat off) data) ++ drop (Z.to_nat n) buf).
Proof.
  intros Ho. cbv zeta. unfold copy_window. pose proof (zlen_nonneg buf). pose proof (zlen_nonneg data).
  destruct (Z.leb_spec (zlen data) off).
  { rewrite Z.max_l, Z.min_r by lia. done. }
  rewrite Z.max_r by lia. set (n := Z.min _ _).
  destruct (get_range buf 0 n) eqn:E1; [|apply get_range_None in E1; lia].
  destruct (get_range data off (off + n)) as [src|] eqn:E2; [|apply get_range_None in E2; lia].
  pose proof (get_range_length _ _ _ _ E2) as Hl. apply get_range_Some in E2 as [_ ->].
  f_equal. unfold put. cbn [fst snd]. replace (Z.to_nat (off + n - off)) with (Z.to_nat n) in * by lia.
  replace (length _) with (Z.to_nat n) by (unfold zlen in Hl; lia). done.
Qed.

Lemma load_inode_size v oid bs r inode : eval (load_inode (R := R) v oid bs) r = Ok inode → 0 <= default 0 (Inode.size inode).
Proof.
  unfold load_inode. rewrite eval_bind by solve_stable. intros (o & _ & E)%outcome_bind_Ok.
  rewrite eval_bind in E by solve_stable. apply outcome_bind_Ok in E as (val & _ & E).
  rewrite eval_lift in E. by apply inode_parse_size in E.
Qed.

(** A client that reads a file in windows of [chunk] bytes until it gets none. *)
Fixpoint read_all (fs : ApfsFs.t R) (id : FileId) (chunk off : Z) (fuel : nat) : option bytes * ApfsFs.t R :=
  match fuel with
  | O => (None, fs)
  | S fuel' =>
      match run_access (read_at zlib lzvn lzfse fs id StreamId.Default off (zeroed chunk)) fs with
      | (VOk (n, buf), fs') =>
          if n =? 0 then (Some [], fs') else
          let '(rest, fs'') := read_all fs' id chunk (off + n) fuel' in
          (app (take (Z.to_nat n) buf) <$> rest, fs'')
      | (_, fs') => (None, fs')
      end
  end.

Lemma read_all_content r oid x chunk inode data fuel (fs : ApfsFs.t R) off :
  mounted r fs → 0 < chunk → 0 <= off → Z.max 0 (zlen data - off) < Z.of_nat fuel →
  eval (load_inode (ApfsFs.volume fs) oid (ApfsFs.block_size fs)) r = Ok inode →
  eval (read_data zlib lzvn lzfse (ApfsFs.volume fs) inode (ApfsFs.block_size fs)) r = Ok data →
  (read_all fs (ApfsOid oid x) chunk off fuel).1 = Some (drop (Z.to_nat off) data).
Proof.
  revert fs off. induction fuel as [|fuel IH]; intros fs off Hm Hc Ho Hf Hi Hd; [lia|]. cbn [read_all].
  pose proof (run_dispatch_mounted r fs (ReadAt (ApfsOid oid x) StreamId.Default off (zeroed chunk)) Hm) as Hk.
  pose proof (answer_read_at fs r Hm oid x off (zeroed chunk)) as Ha. unfold answer_alone in Ha. cbn [dispatch vfs_answer] in *.
  rewrite Hi, bind_Ok, Hd, outcome_map_Ok, copy_window_spec, zlen_zeroed in Ha by lia.
  destruct (run_access _ fs) as [o fs']. cbn [fst] in Ha. subst o. cbn [mapped].
  set (n := Z.min chunk _) in *. destruct Hk as (_ & Hm' & Hv & Hbs & _). pose proof (zlen_nonneg data).
  destruct (Z.eqb_spec n 0) as [Hn|Hn].
  - cbn [fst]. f_equal. symmetry. apply nil_length_inv. rewrite length_drop. unfold zlen in *. lia.
  - specialize (IH fs' (off + n) Hm' Hc ltac:(lia) ltac:(lia)). rewrite Hv, Hbs in IH. specialize (IH Hi Hd).
    destruct (read_all fs' (ApfsOid oid x) chunk (off + n) fuel) as [rest fs'']. cbn [fst] in *. subst rest.
    cbn [fmap option_fmap option_map]. f_equal.
    rewrite take_app_length' by (rewrite length_take, length_drop; unfold zlen in *; lia).
    replace (Z.to_nat (off + n)) with (Z.to_nat off + Z.to_nat n)%nat by lia.
    rewrite <- drop_drop. apply take_drop.
Qed.

(** C18 File content through the adapter: on a mounted handle, whatever its source, when
    the reader loads an inode and its content, [read_at] copies exactly the window of
    the content at the offset, cut to the buffer and to the end, and leaves the rest of
    the buffer as it was; reading windows of any positive size until one is empty
    gives the whole content; and [meta] announces its length. *)
Theorem content_reassembles (fs : ApfsFs.t R) r oid x inode data :
  mounted r fs →
  eval (load_inode (ApfsFs.volume fs) oid (ApfsFs.block_size fs)) r = Ok inode →
  eval (read_data zlib lzvn lzfse (ApfsFs.volume fs) inode (ApfsFs.block_size fs)) r = Ok data →
  (∀ off buf, 0 <= off →
    let n := Z.min (zlen buf) (Z.max 0 (zlen data - off)) in
    answer_alone fs (ReadAt (ApfsOid oid x) StreamId.Default off buf) =
      VOk (n, take (Z.to_nat n) (drop (Z.to_nat off) data) ++ drop (Z.to_nat n) buf)) ∧
  (∀ chunk, 0 < chunk → (read_all fs (ApfsOid oid x) chunk 0 (S (length data))).1 = Some data) ∧
  ∃ m, answer_alone fs (Meta (ApfsOid oid x)) = VOk m ∧ FsMeta.size m = zlen data.
Proof.
  intros Hm Hi Hd. split_and!.
  - intros off buf Ho. cbv zeta. rewrite (answer_read_at fs r Hm), Hi, bind_Ok, Hd. by rewrite <- copy_window_spec.
  - intros chunk Hc. apply (read_all_content r oid x chunk inode data); [done..| |done|done]. unfold zlen. lia.
  - rewrite (answer_meta fs r Hm), Hi, bind_Ok.
    rewrite (data_size_is_read_length zlib lzvn lzfse _ _ _ _ data), outcome_map_Ok; [by eexists|eapply load_inode_size, Hi|done].
Qed.

(** *** Refusals *)

(** The node a call is about, and the stream it asks for. *)
Definition call_node (c : vfs_call) : option FileId :=
  match c with
  | ReadDir id | Extents id _ | Lookup id _ | Meta id | ReadAt id _ _ _ => Some id
  | _ => None
  end.
Definition call_stream (c : vfs_call) : StreamId.t :=
  match c with Extents _ s | ReadAt _ s _ _ => s | _ => StreamId.Default end.

(** The text a call looks up, when it is not UTF-8. *)
Definition call_not_text (c : vfs_call) : bool :=
  match c with Lookup _ name => negb (is_utf8 name) | _ => false end.

(** How the calls into the reader that serve a call end, on the source [r]. *)
Definition reader_result (fs : ApfsFs.t R) (r : R) (oid : Z) (c : vfs_call) : outcome unit :=
  let v := ApfsFs.volume fs in
  let bs := ApfsFs.block_size fs in
  match c with
  | ReadDir _ => outcome_map (λ _, tt) (eval (list_dir v oid bs) r)
  | Lookup _ name => outcome_map (λ _, tt) (eval (lookup_child v oid name bs) r)
  | Extents _ _ =>
      i ← eval (load_inode v oid bs) r; outcome_map (λ _, tt) (eval (list_extents v (Inode.private_id i) bs) r)
  | Meta _ => i ← eval (load_inode v oid bs) r; outcome_map (λ _, tt) (eval (data_size v i bs) r)
  | ReadAt _ _ _ _ =>
      i ← eval (load_inode v oid bs) r; outcome_map (λ _, tt) (eval (read_data zlib lzvn lzfse v i bs) r)
  | _ => Ok tt
  end.

(** C20 Refusals are decided before the lock and named: a node of another identity domain
    and a stream other than the default are [Unsupported] with their debug text, on any
    handle, even one whose lock is poisoned, and the handle is not touched; a poisoned
    lock is reported by every other call that needs the reader; and under a sane lock an
    I/O error of the reader stays an I/O error and every other error becomes a decode
    error with its message. *)
Theorem refusals_named (fs : ApfsFs.t R) c :
  let run := run_access (dispatch zlib lzvn lzfse fs c) fs in
  (∀ id, call_node c = Some (OtherId id) →
    run = (VErr (VfsError.Unsupported "apfs file-id" (debug_file_id id)), fs)) ∧
  (∀ oid x s, call_node c = Some (ApfsOid oid x) → call_stream c = StreamId.Other s →
    run = (VErr (VfsError.Unsupported "apfs stream" (debug_stream s)), fs)) ∧
  (∀ oid x, call_node c = Some (ApfsOid oid x) → call_stream c = StreamId.Default → call_not_text c = false →
    (Mutex.is_poisoned (ApfsFs.reader fs) = true → run = (VErr poisoned, fs)) ∧
    (∀ r err, mounted r fs → reader_result fs r oid c = Err err →
      run.1 = VErr match err with
                   | Io source => VfsError.Io "apfs read" source
                   | _ => VfsError.Decode "apfs" 0 (to_string io_display err) (small_hex [])
                   end)).
Proof.
  cbv zeta. split_and!.
  - intros id Hn. destruct c; simplify_eq/=; done.
  - intros oid x s Hn Hs. destruct c; simplify_eq/=; done.
  - intros oid x Hn Hs Ht. split.
    + intros Hp. destruct c; simplify_eq/=; rewrite ?Hp; try done.
      apply negb_false_iff in Ht. unfold run_access, lookup. cbn [oid_of checked]. by rewrite Ht, Hp.
    + intros r err Hm He. change (answer_alone fs c = VErr (map_err err)).
      destruct c; simplify_eq/=.
      * rewrite (answer_read_dir fs r Hm). by destruct (eval _ r); simplify_eq/=.
      * rewrite (answer_extents fs r Hm). destruct (eval (load_inode _ _ _) r); simplify_eq/=; [|done].
        by destruct (eval _ r); simplify_eq/=.
      * apply negb_false_iff in Ht. rewrite (answer_lookup fs r Hm), Ht. by destruct (eval _ r); simplify_eq/=.
      * rewrite (answer_meta fs r Hm). destruct (eval (load_inode _ _ _) r); simplify_eq/=; [|done].
        by destruct (eval _ r); simplify_eq/=.
      * rewrite (answer_read_at fs r Hm). destruct (eval (load_inode _ _ _) r); simplify_eq/=; [|done].
        by destruct (eval _ r); simplify_eq/=.
Qed.
End properties.

(** ** Witnesses: an instance of the interface, and a container with one volume, a file of
    twelve bytes in it, and a snapshot of transaction 5 in which the file is absent *)
#[export] Instance demo_forensic_vfs : ForensicVfs := {|
  OtherFileId := Z; NamedStream := string;
  debug_file_id := λ record, "Ntfs " +:+ decimal record; debug_stream := λ name, "Named " +:+ name;
  RunFlags := bool * bool; default_flags := (false, false);
  set_sparse := λ b f, (b, f.2); sparse := fst;
  SmallHex := bytes; small_hex := λ b, b; StreamMeta := unit; LinkTarget := bytes; NodeItem := unit;
  io_display := λ e, match Reader.kind e with UnexpectedEof => "unexpected end of file"%string | OtherKind => "other"%string end;
|}.

#[export] Instance demo_lawful_vfs : LawfulVfs.
Proof. done. Qed.

Definition vfs_records : list Entry :=
  [ demo_inode_rec demo_root_inode []; demo_drec 2 "a.txt" 16; demo_inode_rec demo_file demo_file_fields;
    demo_extent 16 0 12 17 ].
Definition vfs_snap_records : list Entry :=
  [ {| key := snap_jkey 1 5; value := snap_meta_val 21 1000 (str "before") |};
    {| key := snap_name_key (str "before"); value := to_le_bytes 8 5 |} ].

Definition vfs_container : bytes :=
  image 4096
    [ (0, nxsb_block 4096 7 1 1 10 [1026]); (1, nxsb_block 4096 7 1 1 10 [1026]);
      (10, omap_block 4096 10 11); (11, omap_leaf 4096 11 [(1026, 7, 12)]);
      (12, apsb 4096 1026 7 13 100 20 (str "Data")); (13, omap_block 4096 13 14);
      (14, omap_leaf 4096 14 [(100, 5, 16); (100, 7, 15)]);
      (15, btree_node 4096 100 7 true vfs_records);
      (16, btree_node 4096 100 5 true [demo_inode_rec demo_root_inode []]);
      (17, str "hello, apfs!" ++ zeroed 4084);
      (20, btree_node 4096 20 7 true vfs_snap_records);
      (21, apsb 4096 1026 5 0 100 0 (str "Data")) ].

Definition vfs_live : ApfsVolume.t :=
  Eval vm_compute in
    match ApfsVolume.parse (apsb 4096 1026 7 13 100 20 (str "Data")) with Ok v => v | _ => demo_volume end.
Definition vfs_frozen : ApfsVolume.t :=
  Eval vm_compute in
    match ApfsVolume.parse (apsb 4096 1026 5 0 100 0 (str "Data")) with
    | Ok v => ApfsVolume.with_omap_oid v 13
    | _ => demo_volume
    end.
Definition vfs_om : ObjectMap.t :=
  {| ObjectMap.self_flags := 0; ObjectMap.self_tree_type := 0x40000002; ObjectMap.self_tree_oid := 14; ObjectMap.self_snapshot_tree_oid := 0 |}.

Definition vfs_mounted : ApfsFs.t Cursor := ApfsFs.mount (cursor vfs_container) vfs_live 4096 7.

Lemma vfs_mounted_ok : mounted (cursor vfs_container) vfs_mounted.
Proof.
  split; [done..|]. exists (12 * 4096), (apsb 4096 1026 7 13 100 20 (str "Data")), vfs_live, 13.
  split_and!; vm_compute; reflexivity.
Qed.

Lemma vfs_first_volume : first_volume (cursor vfs_container) vfs_live 4096.
Proof.
  assert (Ho : match ApfsFs.open_first_volume (cursor vfs_container) with Ok (_, v, bs) => (v, bs) | _ => (demo_volume, 0) end
    = (vfs_live, 4096)) by (vm_compute; reflexivity).
  destruct (ApfsFs.open_first_volume (cursor vfs_container)) as [[[r' v] bs]|e|] eqn:E; [|discriminate Ho..].
  injection Ho as -> ->. by apply open_first_volume_inv in E as [Hv _].
Qed.

Lemma vfs_snap_ok : snap_tree vfs_live 4096 (cursor vfs_container) vfs_om (Leaf 20 vfs_snap_records).
Proof.
  assert (Hl : load (fetch_snap_node vfs_om 7 4096 20) all_children FsTree (cursor vfs_container) 1 20
    = Some (Leaf 20 vfs_snap_records)) by (vm_compute; reflexivity).
  apply load_stored in Hl as [_ Hst]. split; [by vm_compute|done|done|].
  split; [apply NoDup_singleton|vm_compute; lia].
Qed.

Lemma vfs_fs_ok : fs_tree vfs_live 4096 (cursor vfs_container) vfs_om (Leaf 100 vfs_records).
Proof.
  assert (Hl : load (fetch_node vfs_om 7 4096) all_children FsTree (cursor vfs_container) 1 100
    = Some (Leaf 100 vfs_records)) by (vm_compute; reflexivity).
  apply load_stored in Hl as [_ Hst]. split; [by vm_compute|done|done| |constructor|].
  - split; [apply NoDup_singleton|vm_compute; lia].
  - change (StronglySorted Z.le [2; 2; 16; 16]). repeat constructor; lia.
Qed.

Lemma open_snapshot_point_in_time_witness :
  (∃ fs, ApfsFs.open_snapshot (cursor vfs_container) 5 = Ok fs ∧ ApfsFs.volume fs = vfs_frozen ∧
    ApfsFs.root_xid fs = 5 ∧ mounted (cursor vfs_container) fs) ∧
  outcome_map ApfsFs.volume (ApfsFs.open_snapshot (cursor vfs_container) 6) = Err (SnapshotNotFound 6).
Proof.
  destruct (open_snapshot_point_in_time (cursor vfs_container) vfs_live 4096 vfs_om (Leaf 20 vfs_snap_records)
    vfs_first_volume vfs_snap_ok) as (_ & _ & Hx).
  split; [|rewrite (proj2 (Hx 6)); vm_compute; reflexivity]. destruct (Hx 5) as [Hm Hv].
  assert (E : outcome_map ApfsFs.volume (ApfsFs.open_snapshot (cursor vfs_container) 5) = Ok vfs_frozen)
    by (rewrite Hv; vm_compute; reflexivity).
  destruct (ApfsFs.open_snapshot (cursor vfs_container) 5) as [fs|e|]; [|discriminate E..].
  injection E as E. exists fs. destruct (Hm fs eq_refl) as (_ & Hr & Hmt).
  split; [reflexivity|]. split; [exact E|]. split; [exact Hr|exact Hmt].
Defined.

(** The operations of the demo handle. *)
Abbreviation demo_run c := (run_access (dispatch demo_codec demo_lzvn demo_codec vfs_mounted c) vfs_mounted).

Lemma mounted_preserved_witness :
  (∃ fs, ApfsFs.open (cursor vfs_container) = Ok fs ∧ mounted (cursor vfs_container) fs) ∧
  (demo_run (Meta (ApfsOid 99 7))).1 ≠ VPanic ∧ mounted (cursor vfs_container) (demo_run (Meta (ApfsOid 99 7))).2.
Proof.
  destruct (mounted_preserved demo_codec demo_lzvn demo_codec (cursor vfs_container)) as (Ho & _ & Hrun). split.
  - assert (Hok : match ApfsFs.open (cursor vfs_container) with Ok _ => true | _ => false end = true)
      by (vm_compute; reflexivity).
    destruct (ApfsFs.open (cursor vfs_container)) as [fs|e|] eqn:E; [|discriminate Hok..].
    exists fs. split; [reflexivity|]. apply (Ho fs eq_refl).
  - specialize (Hrun vfs_mounted (Meta (ApfsOid 99 7)) vfs_mounted_ok).
    destruct (demo_run (Meta (ApfsOid 99 7))) as [o fs']. destruct Hrun as (Hp & Hm & _).
    split; [exact Hp|exact Hm].
Defined.

(** The ids passed in carry a stale transaction; the ids that come back carry the mounted one. *)
Lemma operations_refine_witness :
  answer_alone demo_codec demo_lzvn demo_codec vfs_mounted (ReadDir (ApfsOid 2 1)) =
    VOk [VOk {| VfsEntry.kind := NodeKind.File; VfsEntry.name := str "a.txt"; VfsEntry.id := ApfsOid 16 7 |}] ∧
  answer_alone demo_codec demo_lzvn demo_codec vfs_mounted (Lookup (ApfsOid 2 999) (str "a.txt")) = VOk (Some (ApfsOid 16 7)) ∧
  answer_alone demo_codec demo_lzvn demo_codec vfs_mounted (Extents (ApfsOid 16 1) StreamId.Default) =
    VOk [VOk {| RunInfo.run := {| ByteRun.image_offset := 17 * 4096; ByteRun.len := 12; ByteRun.flags := (false, false) |};
               RunInfo.alloc := RunAllocated |}].
Proof.
  pose proof (operations_refine demo_codec demo_lzvn demo_codec vfs_mounted (cursor vfs_container) vfs_om (Leaf 100 vfs_records)
    vfs_mounted_ok vfs_fs_ok) as Hr. split_and!.
  - rewrite (proj1 (Hr 2 1)). vm_compute. reflexivity.
  - destruct (Hr 2 999) as (_ & Hl & _). rewrite Hl. vm_compute. reflexivity.
  - destruct (Hr 16 1) as (_ & _ & He & _). rewrite He. vm_compute. reflexivity.
Defined.

Lemma content_reassembles_witness :
  (read_all demo_codec demo_lzvn demo_codec vfs_mounted (ApfsOid 16 7) 5 0 13).1 = Some (str "hello, apfs!") ∧
  answer_alone demo_codec demo_lzvn demo_codec vfs_mounted (ReadAt (ApfsOid 16 7) StreamId.Default 7 (zeroed 8)) =
    VOk (5, str "apfs!" ++ zeroed 3).
Proof.
  destruct (content_reassembles demo_codec demo_lzvn demo_codec vfs_mounted (cursor vfs_container) 16 7 demo_file
    (str "hello, apfs!") vfs_mounted_ok) as (Hw & Hall & _); [vm_compute; reflexivity|vm_compute; reflexivity|].
  split; [apply (Hall 5 ltac:(lia))|]. rewrite (Hw 7 (zeroed 8) ltac:(lia)). vm_compute. reflexivity.
Defined.

Definition demo_foreign_id : FileId := @OtherId demo_forensic_vfs (5 : Z).
Definition demo_named_stream : StreamId.t := @StreamId.Other demo_forensic_vfs ("ads" : string).

Lemma refusals_named_witness :
  (demo_run (Meta demo_foreign_id)).1 = VErr (VfsError.Unsupported "apfs file-id" "Ntfs 5") ∧
  (demo_run (Extents (ApfsOid 16 7) demo_named_stream)).1 = VErr (VfsError.Unsupported "apfs stream" "Named ads") ∧
  (demo_run (Meta (ApfsOid 99 7))).1 =
    VErr (VfsError.Decode "apfs" 0 "omap could not resolve virtual oid 0x63 at xid 7" []).
Proof.
  split_and!.
  - destruct (refusals_named demo_codec demo_lzvn demo_codec vfs_mounted (Meta demo_foreign_id)) as (Hf & _).
    rewrite (Hf (5 : Z) eq_refl). reflexivity.
  - destruct (refusals_named demo_codec demo_lzvn demo_codec vfs_mounted (Extents (ApfsOid 16 7) demo_named_stream))
      as (_ & Hs & _). rewrite (Hs 16 7 ("ads" : string) eq_refl eq_refl). reflexivity.
  - destruct (refusals_named demo_codec demo_lzvn demo_codec vfs_mounted (Meta (ApfsOid 99 7))) as (_ & _ & He).
    destruct (He 99 7 eq_refl eq_refl eq_refl) as [_ Hr].
    rewrite (Hr (cursor vfs_container) (OmapUnresolved 99 7) vfs_mounted_ok); [reflexivity|vm_compute; reflexivity].
Defined.
