(* ===== verification/Workers.v ===== *)
(** * Workers over one mounted handle ([src/src/vfs.rs])

    "One handle serves N workers": threads call the operations of one [ApfsFs] through a
    shared reference, and the mutex is all that orders them.  The state is the handle,
    who holds its lock, and what each worker has left, is doing, and has been answered.
    A step is one worker calling an operation, taking the lock, making one call into the
    reader under it, or releasing it; a scheduler picks the worker.  The theorems: every
    answer is the one the call gives alone, at most one worker is under the lock, and
    every run ends, in a bounded number of steps, with every call answered. *)
From stdpp Require Import relations.
From S2P Require Import Prelude Bytes Reader Container Build Volume Inode Dir Extent Compression FileData Snapshot Apfs ForensicVfs Vfs Mounted.
Import Vfs.

Section workers.
Context `{ForensicVfs} {R : Type} `{ReadSeek R}.
Context (zlib : bytes → option bytes) (lzvn : bytes → Z → option bytes) (lzfse : bytes → option bytes).

Inductive phase :=
  | Idle
  | Waiting (c : vfs_call) (body : critical R (vfs_answer c))
  | Holding (c : vfs_call) (body : critical R (vfs_answer c)).

Definition answered : Type := { c : vfs_call & vfs_outcome (vfs_answer c) }.

Record worker := { todo : list vfs_call; now : phase; answers : list answered }.

Record system := { handle : ApfsFs.t R; holder : option nat; workers : list worker }.

(** The handle after its mutex's data or flag has changed. *)
Definition with_mutex (fs : ApfsFs.t R) (m : Mutex.t R) : ApfsFs.t R :=
  {| ApfsFs.reader := m; ApfsFs.volume := ApfsFs.volume fs; ApfsFs.block_size := ApfsFs.block_size fs;
     ApfsFs.root_xid := ApfsFs.root_xid fs |}.

(** The worker is done with a call; a panic unwinds its thread. *)
Definition finish (w : worker) (c : vfs_call) (o : vfs_outcome (vfs_answer c)) (rest : list vfs_call) : worker :=
  {| todo := if is_panic o then [] else rest; now := Idle; answers := answers w ++ [existT c o] |}.

(** The step of worker [i], if it has one: [None] when it is finished or blocked.  It is what
    one thread does around the lock in each of the five methods that take it ([read_dir],
    [extents], [lookup], [meta] and [read_at] of [vfs.rs], at their
    [self.reader.lock().map_err(..)?]): the refusals before it, the wait, the refusal of a
    poisoned lock, one call into the reader at a time, and the drop of the guard at the end
    of the method.  Which worker steps is the schedule's choice, and no code of the crate. *)
Definition advance (s : system) (i : nat) : option system :=
  w ← workers s !! i;
  let fs := handle s in
  let set w' := <[i := w']> (workers s) in
  match now w with
  | Idle =>
      match todo w with
      | [] => None
      | c :: rest =>
          match dispatch zlib lzvn lzfse fs c with
          | Answer o => Some {| handle := fs; holder := holder s; workers := set (finish w c o rest) |}
          | Locked body =>
              Some {| handle := fs; holder := holder s;
                      workers := set {| todo := rest; now := Waiting c body; answers := answers w |} |}
          end
      end
  | Waiting c body =>
      match holder s with
      | Some _ => None
      | None =>
          if Mutex.is_poisoned (ApfsFs.reader fs)
          then Some {| handle := fs; holder := None; workers := set (finish w c (VErr poisoned) (todo w)) |}
          else Some {| handle := fs; holder := Some i;
                       workers := set {| todo := todo w; now := Holding c body; answers := answers w |} |}
      end
  | Holding c (Call m k) =>
      let '(o, r') := m (Mutex.inner (ApfsFs.reader fs)) in
      Some {| handle := with_mutex fs {| Mutex.inner := r'; Mutex.is_poisoned := Mutex.is_poisoned (ApfsFs.reader fs) |};
              holder := holder s;
              workers := set {| todo := todo w; now := Holding c (k (mapped o)); answers := answers w |} |}
  | Holding c (Done o) =>
      Some {| handle := with_mutex fs {| Mutex.inner := Mutex.inner (ApfsFs.reader fs); Mutex.is_poisoned := is_panic o |};
              holder := None; workers := set (finish w c o (todo w)) |}
  end.

Definition step (s s' : system) : Prop := ∃ i, advance s i = Some s'.

Definition start (fs : ApfsFs.t R) (programs : list (list vfs_call)) : system :=
  {| handle := fs; holder := None; workers := (λ p, {| todo := p; now := Idle; answers := [] |}) <$> programs |}.

(** Run a schedule, skipping the turns of workers that cannot step. *)
Definition run_schedule (s : system) (schedule : list nat) : system :=
  fold_left (λ s i, default s (advance s i)) schedule s.

(** ** Specification *)

(** The answers of a program, each call alone on the handle. *)
Definition expected (fs : ApfsFs.t R) (p : list vfs_call) : list answered :=
  (λ c, existT c (answer_alone zlib lzvn lzfse fs c)) <$> p.

Definition holds (w : worker) : Prop := match now w with Holding _ _ => True | _ => False end.

Definition all_answered (fs : ApfsFs.t R) (programs : list (list vfs_call)) (s : system) : Prop :=
  answers <$> workers s = expected fs <$> programs.

(** Every run from [s] reaches a state in [P]. *)
Inductive eventually (P : system → Prop) (s : system) : Prop :=
  | eventually_now : P s → eventually P s
  | eventually_step : (∃ s', step s s') → (∀ s', step s s' → eventually P s') → eventually P s.
End workers.
Arguments Waiting {_ R} c body.
Arguments Holding {_ R} c body.
Arguments Idle {_ R}.

(** ** Lemmas *)
Section lemmas.
Context `{ForensicVfs} {R : Type} `{LawfulReader R}.
Context (zlib : bytes → option bytes) (lzvn : bytes → Z → option bytes) (lzfse : bytes → option bytes).
Context (r : R) (fs0 : ApfsFs.t R) (programs : list (list vfs_call)).
Context (Hm0 : mounted r fs0).
Notation alone := (answer_alone zlib lzvn lzfse fs0).
Notation dispatched := (dispatch zlib lzvn lzfse fs0).

(** The handle of a state is the first one, up to the position of the reader. *)
Record same_handle (fs : ApfsFs.t R) : Prop := {
  sh_mounted : mounted r fs;
  sh_volume : ApfsFs.volume fs = ApfsFs.volume fs0;
  sh_block_size : ApfsFs.block_size fs = ApfsFs.block_size fs0;
  sh_root_xid : ApfsFs.root_xid fs = ApfsFs.root_xid fs0;
}.

Lemma dispatch_same fs c : same_handle fs → dispatch zlib lzvn lzfse fs c = dispatched c.
Proof.
  intros [_ Hv Hb Hx]. destruct fs, fs0. simpl in *. subst. by destruct c.
Qed.

(** The call a worker is at. *)
Definition current {R'} (w : worker (R := R')) : list vfs_call :=
  match now w with Idle => [] | Waiting c _ | Holding c _ => [c] end.

Definition phase_ok (holder : option nat) (i : nat) (p : phase (R := R)) : Prop :=
  match p with
  | Idle => True
  | Waiting c body => dispatched c = Locked body
  | Holding c body => holder = Some i ∧ critical_value body r = alone c ∧ steady 2 body
  end.

Definition worker_ok (holder : option nat) (i : nat) (w : worker (R := R)) (p : list vfs_call) : Prop :=
  phase_ok holder i (now w) ∧
  ∃ done, p = done ++ current w ++ todo w ∧ answers w = expected zlib lzvn lzfse fs0 done.

Record invariant (s : system (R := R)) : Prop := {
  inv_handle : same_handle (handle s);
  inv_workers : length (workers s) = length programs;
  inv_worker i w p : workers s !! i = Some w → programs !! i = Some p → worker_ok (holder s) i w p;
  inv_holder i : holder s = Some i → ∃ w, workers s !! i = Some w ∧ holds w;
}.

Lemma invariant_start : invariant (start fs0 programs).
Proof.
  split; [by split|apply length_fmap| |done].
  intros i w p Hw Hp. unfold start in Hw. cbn [workers] in Hw. rewrite list_lookup_fmap, Hp in Hw. injection Hw as <-.
  split; [done|]. by exists [].
Qed.

(** Replacing the state of worker [i] keeps the invariant when the others are not affected
    by the lock's change of hands. *)
Lemma invariant_update s i w w' fs' h' : invariant s → workers s !! i = Some w → same_handle fs' →
  (∀ p, programs !! i = Some p → worker_ok (holder s) i w p → worker_ok h' i w' p) →
  (h' = holder s ∧ (holds w → holds w') ∨ h' = None ∧ holder s = Some i ∨ h' = Some i ∧ holder s = None ∧ holds w') →
  invariant {| handle := fs'; holder := h'; workers := <[i := w']> (workers s) |}.
Proof.
  intros [Hh Hl Hw Hho] Hi Hfs Hok Hhold. split; cbn [handle holder workers]; [done|by rewrite length_insert| |].
  - intros j x p Hj Hp. destruct (decide (i = j)) as [->|Hne].
    + rewrite list_lookup_insert_eq in Hj by (by eapply lookup_lt_Some). injection Hj as <-.
      apply Hok; [done|]. by apply Hw.
    + rewrite list_lookup_insert_ne in Hj by done. destruct (Hw j x p Hj Hp) as [Hph Hd]. split; [|done].
      destruct (now x) as [|c body|c body]; [done|done|]. destruct Hph as (Hj' & Hph). split; [|done].
      destruct Hhold as [[-> _]|[[-> E]|[-> [E _]]]]; [done|congruence..].
  - intros j Hj. destruct (decide (i = j)) as [->|Hne].
    + exists w'. rewrite list_lookup_insert_eq by (by eapply lookup_lt_Some). split; [done|].
      destruct Hhold as [[-> Hk]|[[-> E]|[-> [E Hk]]]]; [|done|done].
      destruct (Hho j Hj) as (x & Hx & Hhx). apply Hk. congruence.
    + rewrite list_lookup_insert_ne by done. apply Hho.
      destruct Hhold as [[-> _]|[[-> E]|[-> [E _]]]]; [done|done|congruence].
Qed.

Lemma with_mutex_same fs r' b : same_handle fs → same_source r' r → b = false →
  same_handle (with_mutex fs {| Mutex.inner := r'; Mutex.is_poisoned := b |}).
Proof. intros [[Hp Hs Hb Hv] ? ? ?] Hr ->. by repeat split. Qed.

Lemma expected_snoc done c : expected zlib lzvn lzfse fs0 (done ++ [c]) =
  expected zlib lzvn lzfse fs0 done ++ [existT c (alone c)].
Proof. unfold expected. by rewrite fmap_app. Qed.

(** A call that is done has the answer it has alone, which is no panic. *)
Lemma finish_ok h h' i w c o rest p : worker_ok h i w p → current w ++ todo w = c :: rest →
  o = alone c → worker_ok h' i (finish w c o rest) p.
Proof.
  intros [_ (dn & -> & Ha)] Hc ->.
  assert (Hp : is_panic (alone c) = false).
  { pose proof (run_dispatch_mounted zlib lzvn lzfse r fs0 c Hm0) as Hr. unfold answer_alone.
    destruct (run_access _ _) as [o' fs']. destruct Hr as [Hr _]. by destruct o'. }
  unfold finish. rewrite Hp. split; [done|]. exists (dn ++ [c]). cbn [current now todo answers app].
  rewrite Hc, <- app_assoc, Ha, expected_snoc. done.
Qed.

Lemma invariant_step s i s' : invariant s → advance zlib lzvn lzfse s i = Some s' → invariant s'.
Proof.
  intros Hinv. unfold advance. destruct (workers s !! i) as [w|] eqn:Hi; [|done]. cbn [mbind option_bind].
  pose proof (inv_handle s Hinv) as Hh. destruct (now w) as [|c body|c body] eqn:Hn.
  - destruct (todo w) as [|c rest] eqn:Ht; [done|]. rewrite (dispatch_same _ _ Hh).
    destruct (dispatched c) as [o|body] eqn:Hd; intros [= <-]; (apply (invariant_update s i w); [done..| |]).
    + intros p _ Hok. apply (finish_ok (holder s)); [done|by unfold current; rewrite Hn, Ht|].
      unfold answer_alone. by rewrite Hd.
    + left. unfold holds. by rewrite Hn.
    + intros p _ [_ (dn & -> & Ha)]. split; [done|]. exists dn. unfold current. cbn [now todo answers]. by rewrite Hn, Ht.
    + left. unfold holds. by rewrite Hn.
  - destruct (holder s) eqn:Hho; [done|]. rewrite (mt_sane _ _ (sh_mounted _ Hh)). intros [= <-].
    apply (invariant_update s i w); [done..| |].
    + intros p Hp [Hph (dn & -> & Ha)]. rewrite Hn in Hph. cbn [phase_ok] in Hph. split.
      * split; [done|]. split; [symmetry; by apply answer_locked|].
        pose proof (dispatch_steady zlib lzvn lzfse fs0 c) as Hs. by rewrite Hph in Hs.
      * exists dn. unfold current. cbn [now todo answers]. by rewrite Hn.
    + right; right. by rewrite Hho.
  - assert (Hph : phase_ok (holder s) i (now w)).
    { destruct (lookup_lt_is_Some_2 programs i) as [p Hp]; [rewrite <- (inv_workers s Hinv); by eapply lookup_lt_Some|].
      by destruct (inv_worker s Hinv i w p Hi Hp) as [? _]. }
    rewrite Hn in Hph. cbn [phase_ok] in Hph. destruct Hph as (Hho & Hv & Hs).
    destruct Hh as [[Hpo Hsrc Hbs Hvol] E1 E2 E3].
    destruct body as [o|B m k]; [intros [= <-]; apply (invariant_update s i w); [done..| | |]|].
    + apply with_mutex_same; [by repeat split|done|]. change (o = alone c) in Hv. rewrite Hv.
      pose proof (run_dispatch_mounted zlib lzvn lzfse r fs0 c Hm0) as Hr. unfold answer_alone.
      destruct (run_access _ _) as [o' fs']. destruct Hr as [Hr _]. by destruct o'.
    + intros p _ Hok. apply (finish_ok (holder s)); [done|unfold current; by rewrite Hn|exact Hv].
    + right; left. done.
    + pose proof (stable_value (Stable := proj1 Hs) _ _ Hsrc) as Hval.
      pose proof (stable_keeps (Stable := proj1 Hs) (Mutex.inner (ApfsFs.reader (handle s)))) as Hk.
      unfold eval in Hval. destruct (m (Mutex.inner _)) as [o r'] eqn:Hm. cbn [fst snd] in *.
      intros [= <-]. apply (invariant_update s i w); [done..| | |].
      * apply with_mutex_same; [by repeat split|by etrans|done].
      * intros p _ [_ (dn & -> & Ha)]. split.
        -- split; [done|]. split; [|by apply (steady_mono 1), Hs; lia].
           rewrite <- Hv. unfold critical_value. cbn [run_critical].
           pose proof (stable_keeps (Stable := proj1 Hs) r) as Hkr. destruct (m r) as [o2 r2]. cbn [fst snd] in *. subst o2.
           symmetry. by apply (run_critical_steady 1); [apply Hs|].
        -- exists dn. unfold current. cbn [now todo answers]. by rewrite Hn.
      * left. done.
Qed.

Lemma invariant_reachable s : rtc (step zlib lzvn lzfse) (start fs0 programs) s → invariant s.
Proof.
  revert s. apply (rtc_ind_r invariant); [apply invariant_start|].
  intros s s' _ [i Hi] IH. by apply (invariant_step s i).
Qed.

(** ** Progress and rank *)

Definition finished {R'} (w : worker (R := R')) : Prop := now w = Idle ∧ todo w = [].

#[local] Instance finished_dec {R'} (w : worker (R := R')) : Decision (finished w).
Proof.
  unfold finished. destruct (now w) as [|c body|c body]; [destruct (todo w) as [|c t]|right..].
  - by left.
  - right. by intros [_ ?].
  - by intros [? _].
  - by intros [? _].
Defined.

(** Some worker can step unless all have finished: the one under the lock, or any other
    when there is none. *)
Lemma progress s : invariant s → Forall finished (workers s) ∨ ∃ s', step zlib lzvn lzfse s s'.
Proof.
  intros Hinv. destruct (holder s) as [j|] eqn:Hj.
  - right. destruct (inv_holder s Hinv j Hj) as (w & Hw & Hh). unfold step, advance.
    cut (is_Some (advance zlib lzvn lzfse s j)); [intros [s' Hs]; by exists s', j|].
    unfold advance. rewrite Hw. cbn [mbind option_bind]. unfold holds in Hh. destruct (now w) as [|c body|c body]; [done..|].
    destruct body as [o|B m k]; [by eexists|]. destruct (m _) as [o r']. by eexists.
  - destruct (decide (Forall finished (workers s))) as [Hf|Hf]; [by left|right].
    apply not_Forall_Exists, Exists_exists in Hf as (w & Hin & Hnf); [|apply _].
    apply list_elem_of_lookup in Hin as [i Hi].
    cut (is_Some (advance zlib lzvn lzfse s i)); [intros [s' Hs]; by exists s', i|].
    unfold advance. rewrite Hi. cbn [mbind option_bind]. unfold finished in Hnf.
    destruct (now w) as [|c body|c body] eqn:Hn.
    + destruct (todo w) as [|c rest] eqn:Ht; [by destruct Hnf|]. by destruct (dispatch _ _ _ _ c).
    + rewrite Hj. by destruct (Mutex.is_poisoned _).
    + destruct body as [o|B m k]; [by eexists|]. destruct (m _) as [o r']. by eexists.
Qed.

(** An upper bound on the steps a worker has left: five for each call to come (calling,
    taking the lock, two calls into the reader, releasing it). *)
Definition ranked (w : worker (R := R)) (n : nat) : Prop :=
  match now w with
  | Idle => n = 5 * length (todo w)
  | Waiting _ body => steady 2 body ∧ n = 5 * length (todo w) + 4
  | Holding _ body => ∃ k, steady k body ∧ n = 5 * length (todo w) + 1 + k
  end%nat.

Definition system_ranked (s : system (R := R)) (n : nat) : Prop :=
  ∃ ns, Forall2 ranked (workers s) ns ∧ n = sum_list ns.

Lemma sum_list_insert ns i n n' : ns !! i = Some n →
  (sum_list (<[i := n']> ns) + n = sum_list ns + n')%nat.
Proof.
  revert i. induction ns as [|m ns IH]; intros [|i] Hi; simplify_eq/=; [lia|]. specialize (IH i Hi). lia.
Qed.

Lemma ranked_finish w c o rest n : (5 * length rest < n)%nat → ∃ n', (n' < n)%nat ∧ ranked (finish w c o rest) n'.
Proof. intros Hn. eexists. split; [|done]. cbn [finish todo]. destruct (is_panic o); simpl; lia. Qed.

Lemma advance_worker s i s' w n : advance zlib lzvn lzfse s i = Some s' → workers s !! i = Some w → ranked w n →
  ∃ w' n', workers s' = <[i := w']> (workers s) ∧ (n' < n)%nat ∧ ranked w' n'.
Proof.
  unfold advance, ranked at 1. intros Hs Hi. rewrite Hi in Hs. cbn [mbind option_bind] in Hs.
  destruct (now w) as [|c body|c body].
  - destruct (todo w) as [|c rest]; [done|]. intros ->.
    pose proof (dispatch_steady zlib lzvn lzfse (handle s) c) as Hst.
    destruct (dispatch _ _ _ _ c) as [o|body]; injection Hs as <-.
    + destruct (ranked_finish w c o rest (5 * length (c :: rest))) as (n' & Hn & Hr); [simpl; lia|eauto].
    + eexists _, _. split; [done|]. split; [|by split]. simpl. lia.
  - intros [Hst ->]. destruct (holder s); [done|]. destruct (Mutex.is_poisoned _); injection Hs as <-.
    + destruct (ranked_finish w c (VErr poisoned) (todo w) (5 * length (todo w) + 4)) as (n' & Hn & Hr); [lia|eauto].
    + eexists _, _. split; [done|]. split; [|by exists 2%nat]. simpl. lia.
  - intros (k & Hst & ->). destruct body as [o|B m k'].
    + injection Hs as <-.
      destruct (ranked_finish w c o (todo w) (5 * length (todo w) + 1 + k)) as (n' & Hn & Hr); [lia|eauto].
    + destruct k as [|k]; [done|]. destruct Hst as [_ Hst]. destruct (m _) as [o r']. injection Hs as <-.
      eexists _, _. split; [done|]. split; [|exists k; by split]. simpl. lia.
Qed.

Lemma rank_decreases s s' n : step zlib lzvn lzfse s s' → system_ranked s n →
  ∃ n', (n' < n)%nat ∧ system_ranked s' n'.
Proof.
  intros [i Hs] (ns & Hns & ->).
  assert (Hi : is_Some (workers s !! i)) by (unfold advance in Hs; by destruct (workers s !! i)).
  destruct Hi as [w Hi]. destruct (Forall2_lookup_l _ _ _ _ _ Hns Hi) as (n & Hn & Hr).
  destruct (advance_worker s i s' w n Hs Hi Hr) as (w' & n' & Hw & Hlt & Hr').
  exists (sum_list (<[i := n']> ns)). pose proof (sum_list_insert ns i n n' Hn). split; [lia|].
  exists (<[i := n']> ns). split; [|done]. rewrite Hw. by apply Forall2_insert.
Qed.

Lemma rank_start : system_ranked (start fs0 programs) (5 * sum_list (length <$> programs)).
Proof.
  exists ((λ p, 5 * length p)%nat <$> programs). split.
  - apply Forall2_fmap, Forall_Forall2_diag, Forall_forall. done.
  - induction programs as [|p ps IH]; [done|]. change (5 * (length p + sum_list (length <$> ps)) = 5 * length p + sum_list ((λ p, 5 * length p) <$> ps))%nat. lia.
Qed.

(** When every worker has finished, every call is answered. *)
Lemma finished_answered s : invariant s → Forall finished (workers s) → all_answered zlib lzvn lzfse fs0 programs s.
Proof.
  intros Hinv Hf. unfold all_answered. apply list_eq. intros i. rewrite !list_lookup_fmap.
  destruct (programs !! i) as [p|] eqn:Hp.
  - destruct (lookup_lt_is_Some_2 (workers s) i) as [w Hw]; [rewrite (inv_workers s Hinv); by eapply lookup_lt_Some|].
    rewrite Hw. destruct (inv_worker s Hinv i w p Hw Hp) as [_ (dn & -> & Ha)].
    eapply Forall_lookup_1 in Hf as [Hn Ht]; [|exact Hw]. unfold current. rewrite Hn, Ht. simpl. by rewrite app_nil_r, Ha.
  - apply lookup_ge_None in Hp. rewrite <- (inv_workers s Hinv) in Hp. apply lookup_ge_None in Hp. by rewrite Hp.
Qed.
End lemmas.

(** ** Properties *)
Section properties.
Context `{ForensicVfs} {R : Type} `{LawfulReader R}.
Context (zlib : bytes → option bytes) (lzvn : bytes → Z → option bytes) (lzfse : bytes → option bytes).
Context (r : R) (fs : ApfsFs.t R) (programs : list (list vfs_call)).
Notation steps := (rtc (step zlib lzvn lzfse) (start fs programs)).

(** C3 One handle serves N workers: in every state that any schedule reaches from a mounted
    handle, at most one worker is under the lock, the lock is not poisoned, and each
    worker has received, in order, exactly the answers its calls give alone on the
    handle as it was mounted, whatever the other workers do in between; a worker that
    has finished has received all of them. *)
Theorem workers_answers_alone s :
  mounted r fs → steps s →
  Mutex.is_poisoned (ApfsFs.reader (handle s)) = false ∧
  (∀ i j w w', workers s !! i = Some w → workers s !! j = Some w' → holds w → holds w' → i = j) ∧
  (∀ i w p, workers s !! i = Some w → programs !! i = Some p →
    answers w `prefix_of` expected zlib lzvn lzfse fs p ∧
    (now w = Idle → todo w = [] → answers w = expected zlib lzvn lzfse fs p)).
Proof.
  intros Hm Hs. pose proof (invariant_reachable zlib lzvn lzfse r fs programs Hm s Hs) as Hinv.
  assert (Hheld : ∀ i w, workers s !! i = Some w → holds w → holder s = Some i).
  { intros i w Hw Hh. destruct (lookup_lt_is_Some_2 programs i) as [p Hp].
    { rewrite <- (inv_workers _ _ _ _ _ _ _ Hinv). by eapply lookup_lt_Some. }
    destruct (inv_worker _ _ _ _ _ _ _ Hinv i w p Hw Hp) as [Hph _]. unfold holds in Hh.
    destruct (now w); [done..|apply Hph]. }
  split_and!.
  - by destruct Hinv as [[[] _ _ _] _ _ _].
  - intros i j w w' Hw Hw' Hh Hh'. apply Hheld in Hw, Hw'; [|done..]. congruence.
  - intros i w p Hw Hp. destruct (inv_worker _ _ _ _ _ _ _ Hinv i w p Hw Hp) as [_ (dn & -> & Ha)]. split.
    + rewrite Ha. unfold expected. rewrite fmap_app. by apply prefix_app_r.
    + intros Hn Ht. unfold current. by rewrite Hn, Ht, !app_nil_r.
Qed.

(** C4 Every call is answered, without any fairness of the scheduler: from every reachable
    state every run leads to a state where all workers have all their answers (no
    deadlock, no lost wake-up, no livelock), and no run has more than five steps for
    each call. *)
Theorem workers_all_answered :
  mounted r fs →
  (∀ s, steps s → eventually zlib lzvn lzfse (all_answered zlib lzvn lzfse fs programs) s) ∧
  (∀ n s, nsteps (step zlib lzvn lzfse) n (start fs programs) s → (n ≤ 5 * sum_list (length <$> programs))%nat).
Proof.
  intros Hm. split.
  - assert (Hrank : ∀ s, steps s → ∃ n, system_ranked s n).
    { apply (rtc_ind_r (λ s, ∃ n, system_ranked s n)); [eexists; apply rank_start|].
      intros s s' _ Hs [n Hn]. destruct (rank_decreases zlib lzvn lzfse s s' n Hs Hn) as (n' & _ & ?). eauto. }
    intros s Hs. destruct (Hrank s Hs) as [n Hn]. clear Hrank. revert s Hs Hn.
    induction (lt_wf n) as [n _ IH]. intros s Hs Hn.
    pose proof (invariant_reachable zlib lzvn lzfse r fs programs Hm s Hs) as Hinv.
    destruct (progress zlib lzvn lzfse r fs programs s Hinv) as [Hf|Hstep].
    + apply eventually_now. by apply (finished_answered zlib lzvn lzfse r).
    + apply eventually_step; [done|]. intros s' Hs'.
      destruct (rank_decreases zlib lzvn lzfse s s' n Hs' Hn) as (n' & Hlt & Hn').
      apply (IH n' Hlt); [|done]. by eapply rtc_r.
  - assert (Hgen : ∀ n s s' k, nsteps (step zlib lzvn lzfse) n s s' → system_ranked s k → (n ≤ k)%nat).
    { intros n s s' k Hn. revert k. induction Hn as [|n x y z Hxy _ IH]; intros k Hk; [lia|].
      destruct (rank_decreases zlib lzvn lzfse x y k Hxy Hk) as (k' & Hlt & Hk'). specialize (IH k' Hk'). lia. }
    intros n s Hn. eapply Hgen; [done|apply rank_start].
Qed.
End properties.

(** ** Witness: two workers, one schedule that interleaves their critical sections *)
Definition demo_programs : list (list vfs_call) :=
  [ [Lookup (ApfsOid 2 7) (str "a.txt"); ReadAt (ApfsOid 16 7) StreamId.Default 0 (zeroed 5)];
    [Meta demo_foreign_id; Lookup (ApfsOid 2 7) (str "b.txt")] ].

Definition demo_state : system (R := Cursor) :=
  run_schedule demo_codec demo_lzvn demo_codec (start vfs_mounted demo_programs) [0; 1; 1; 0; 1; 0; 0; 1; 1; 1; 0; 0; 0; 0; 0; 0; 0]%nat.

Lemma run_schedule_steps `{ForensicVfs} {R} `{ReadSeek R} zlib lzvn lzfse (s : system (R := R)) schedule :
  rtc (step zlib lzvn lzfse) s (run_schedule zlib lzvn lzfse s schedule).
Proof.
  unfold run_schedule. revert s. induction schedule as [|i schedule IH]; intros s; [done|]. simpl.
  destruct (advance zlib lzvn lzfse s i) as [s'|] eqn:E; simpl; [|apply IH].
  eapply rtc_l; [by exists i|apply IH].
Qed.

Lemma workers_answers_alone_witness :
  match workers demo_state with
  | [w; w'] =>
      answers w = [existT (Lookup (ApfsOid 2 7) (str "a.txt")) (VOk (Some (ApfsOid 16 7)));
                   existT (ReadAt (ApfsOid 16 7) StreamId.Default 0 (zeroed 5)) (VOk (5, str "hello"))] ∧
      answers w' `prefix_of` expected demo_codec demo_lzvn demo_codec vfs_mounted
        [Meta demo_foreign_id; Lookup (ApfsOid 2 7) (str "b.txt")]
  | _ => False
  end.
Proof.
  destruct (workers_answers_alone demo_codec demo_lzvn demo_codec (cursor vfs_container) vfs_mounted demo_programs demo_state
    vfs_mounted_ok (run_schedule_steps _ _ _ _ _)) as (_ & _ & Hw).
  assert (Hshape : match workers demo_state with [w; w'] => match now w, todo w with Idle, [] => true | _, _ => false end | _ => false end = true)
    by (vm_compute; reflexivity).
  destruct (workers demo_state) as [|w [|w' [|]]]; try discriminate Hshape.
  destruct (Hw 0%nat w _ eq_refl eq_refl) as [_ Hall]. destruct (Hw 1%nat w' _ eq_refl eq_refl) as [Hpre _].
  split; [|exact Hpre]. destruct (now w), (todo w); try discriminate Hshape.
  rewrite (Hall eq_refl eq_refl). vm_compute. reflexivity.
Defined.

Lemma workers_all_answered_witness :
  eventually demo_codec demo_lzvn demo_codec (all_answered demo_codec demo_lzvn demo_codec vfs_mounted demo_programs)
    (start vfs_mounted demo_programs).
Proof.
  apply (proj1 (workers_all_answered demo_codec demo_lzvn demo_codec (cursor vfs_container) vfs_mounted demo_programs vfs_mounted_ok)).
  constructor.
Defined.
