(* ===== verification/Files.v ===== *)
(** * Files as the records and blocks of a volume

    The crate only reads.  Here is what a writer would put: the records of a root
    directory with any list of files, and their contents in consecutive blocks.  On any
    source with a file-system tree of these records, the adapter reads the files back
    ([reads_back]); [Layout] builds such sources. *)
From S2P Require Import Prelude Bytes Text Reader Object Container Node Build Walk BTree Omap Volume FsRecord Inode Dir Extent Xattr Compression FileData Apfs ForensicVfs Vfs Mounted.
Import Vfs.

Record file := { fname : bytes; fattr : Inode.t; fcontent : bytes }.

(** The blocks a content takes. *)
Definition content_blocks (f : file) : Z := (zlen (fcontent f) + 4095) / 4096.

(** The inode of the [k]-th file: its attributes, its place in the root, its size. *)
Definition file_inode (k : Z) (f : file) : Inode.t :=
  let a := fattr f in
  Inode.mk (16 + k) ROOT_DIR_INO_NUM (16 + k) (Inode.create_time a) (Inode.mod_time a) (Inode.change_time a)
    (Inode.access_time a) (Inode.internal_flags a) (Inode.nlink_or_nchildren a) (Inode.bsd_flags a) (Inode.uid a)
    (Inode.gid a) (Inode.mode a) None (Some (zlen (fcontent f))).

Definition drec (k : Z) (f : file) : Entry :=
  {| key := hashed_drec_key ROOT_DIR_INO_NUM 0 (fname f);
     value := to_le_bytes 8 (16 + k) ++ to_le_bytes 8 0 ++ to_le_bytes 2 8 |}.

Definition inode_rec (i : Inode.t) (fields : list (Z * bytes)) : Entry :=
  {| key := to_le_bytes 8 (jkey 3 (Inode.oid i)); value := Inode.encode i (zeroed 8) fields |}.

Definition extent_rec (k blk : Z) (f : file) : Entry :=
  {| key := to_le_bytes 8 (jkey 8 (16 + k)) ++ to_le_bytes 8 0;
     value := to_le_bytes 8 (zlen (fcontent f)) ++ to_le_bytes 8 blk ++ to_le_bytes 8 0 |}.

Definition size_field (f : file) : list (Z * bytes) := [(8, to_le_bytes 8 (zlen (fcontent f)) ++ zeroed 32)].

(** The records of the files from the [k]-th, whose content starts at block [blk]. *)
Fixpoint drecs (k : Z) (files : list file) : list Entry :=
  match files with [] => [] | f :: files' => drec k f :: drecs (k + 1) files' end.
Fixpoint file_records (k blk : Z) (files : list file) : list Entry :=
  match files with
  | [] => []
  | f :: files' =>
      inode_rec (file_inode k f) (size_field f) :: extent_rec k blk f ::
      file_records (k + 1) (blk + content_blocks f) files'
  end.

(** The root directory with its files, their contents from block [blk]. *)
Definition format_records (blk : Z) (files : list file) : list Entry :=
  inode_rec demo_root_inode [] :: drecs 0 files ++ file_records 0 blk files.

(** The contents, each padded to its blocks. *)
Definition padded (f : file) : bytes := fcontent f ++ zeroed (content_blocks f * 4096 - zlen (fcontent f)).
Definition contents (files : list file) : bytes := concat (padded <$> files).

(** The block after the contents of some files. *)
Definition blocks_of (files : list file) : Z := foldr Z.add 0 (content_blocks <$> files).

(** What can be stored from block [blk]: names of at most 1022 bytes of UTF-8 without
    NUL, attributes in range, contents under the reader's cap, fewer than 2^32 files. *)
Record storable (blk : Z) (files : list file) : Prop := {
  fm_names : Forall (λ f, is_utf8 (fname f) = true ∧ x00 ∉ fname f ∧ zlen (fname f) < 1023) files;
  fm_attrs : Forall (λ f, Inode.in_range (fattr f)) files;
  fm_sizes : Forall (λ f, zlen (fcontent f) <= MAX_FILE_BYTES) files;
  fm_few : zlen files < 2 ^ 32;
}.

(** ** The records *)

Lemma record_key_le ty id rest : 0 <= id < 2 ^ 60 →
  record_key (to_le_bytes 8 (jkey (RecordType.to_u4 ty) id) ++ rest) = (id, Some ty).
Proof.
  intros Hid. unfold record_key, le_u64. rewrite le_read_here; [by apply decode_jkey_jkey|].
  rewrite jkey_sum by (try done; by destruct ty). destruct ty; simpl; lia.
Qed.

Lemma record_key_drec k f : record_key (key (drec k f)) = (2, Some DirRec).
Proof. by apply (record_key_le DirRec). Qed.

Lemma record_key_inode i fields : 0 <= Inode.oid i < 2 ^ 60 →
  record_key (key (inode_rec i fields)) = (Inode.oid i, Some FsRecord.Inode).
Proof.
  intros Hi. unfold inode_rec. cbn [key]. rewrite <- (app_nil_r (to_le_bytes 8 _)). by apply (record_key_le FsRecord.Inode).
Qed.

Lemma record_key_extent k blk f : 0 <= 16 + k < 2 ^ 60 →
  record_key (key (extent_rec k blk f)) = (16 + k, Some FsRecord.FileExtent).
Proof. intros. by apply (record_key_le FsRecord.FileExtent). Qed.

(** Records of a type that is not among those of a list. *)
Lemma records_of_app es es' oid ty : records_of (es ++ es') oid ty = records_of es oid ty ++ records_of es' oid ty.
Proof. apply filter_app. Qed.

Lemma records_of_cons e es oid ty : records_of (e :: es) oid ty =
  if decide (record_key (key e) = (oid, Some ty)) then e :: records_of es oid ty else records_of es oid ty.
Proof. unfold records_of. by rewrite filter_cons. Qed.

Lemma records_of_drecs k files oid ty : records_of (drecs k files) oid ty =
  if decide ((oid, ty) = (2, DirRec)) then drecs k files else [].
Proof.
  revert k. induction files as [|f files IH]; intros k; [by case_decide|]. cbn [drecs].
  rewrite records_of_cons, record_key_drec, IH. repeat case_decide; naive_solver.
Qed.

(** The records of a file with object id [16 + k] whose content is at [blk]. *)
Definition own_records (k blk : Z) (f : file) (ty : RecordType) : list Entry :=
  match ty with
  | FsRecord.Inode => [inode_rec (file_inode k f) (size_field f)]
  | FsRecord.FileExtent => [extent_rec k blk f]
  | _ => []
  end.

Lemma records_of_two k blk f es oid ty : 0 <= k → 16 + k < 2 ^ 60 →
  records_of (inode_rec (file_inode k f) (size_field f) :: extent_rec k blk f :: es) oid ty =
    (if decide (oid = 16 + k) then own_records k blk f ty else []) ++ records_of es oid ty.
Proof.
  intros Hk Hk'. rewrite !records_of_cons, record_key_extent by lia. rewrite record_key_inode by (simpl; lia).
  cbn [Inode.oid file_inode]. destruct (decide (oid = 16 + k)) as [->|Hne].
  - destruct ty; cbn [own_records app]; repeat case_decide; naive_solver.
  - rewrite !decide_False by congruence. done.
Qed.

Lemma records_of_before k blk files oid ty : 0 <= k → 16 + k + zlen files < 2 ^ 60 → oid < 16 + k →
  records_of (file_records k blk files) oid ty = [].
Proof.
  revert k blk. induction files as [|f files IH]; intros k blk Hk Hn Ho; [done|]. cbn [file_records].
  rewrite zlen_cons in Hn. pose proof (zlen_nonneg files).
  rewrite records_of_two, decide_False, IH by lia. done.
Qed.

Lemma records_of_file k blk files j f ty : 0 <= k → 16 + k + zlen files < 2 ^ 60 → files !! j = Some f →
  records_of (file_records k blk files) (16 + (k + Z.of_nat j)) ty =
    own_records (k + Z.of_nat j) (blk + blocks_of (take j files)) f ty.
Proof.
  revert k blk j. induction files as [|g files IH]; intros k blk [|j] Hk Hn Hf; simplify_eq/=.
  - rewrite zlen_cons in Hn. pose proof (zlen_nonneg files).
    rewrite Z.add_0_r, records_of_two, decide_True, records_of_before, app_nil_r by lia. unfold blocks_of. simpl.
    by rewrite Z.add_0_r.
  - rewrite zlen_cons in Hn. pose proof (zlen_nonneg files).
    rewrite records_of_two, decide_False by lia. cbn [app].
    replace (k + Z.of_nat (S j)) with (k + 1 + Z.of_nat j) by lia. rewrite IH by (done || lia).
    unfold blocks_of. rewrite fmap_cons. cbn [foldr]. by rewrite Z.add_assoc.
Qed.

Lemma records_of_other k blk files oid ty : 0 <= k → 16 + k + zlen files < 2 ^ 60 →
  ty ≠ FsRecord.Inode → ty ≠ FsRecord.FileExtent → records_of (file_records k blk files) oid ty = [].
Proof.
  intros Hk Hn Hi He. revert k blk Hk Hn. induction files as [|f files IH]; intros k blk Hk Hn; [done|]. cbn [file_records].
  rewrite zlen_cons in Hn. pose proof (zlen_nonneg files).
  rewrite records_of_two, IH, app_nil_r by lia. case_decide; [|done]. by destruct ty.
Qed.

(** *** The abstract file system of the records *)
Section records.
Context (blk : Z) (files : list file) (Hn : 16 + zlen files < 2 ^ 60).
Notation records := (format_records blk files).

Lemma format_records_of oid ty : records_of records oid ty =
  (if decide ((oid, ty) = (2, FsRecord.Inode)) then [inode_rec demo_root_inode []] else []) ++
  (if decide ((oid, ty) = (2, DirRec)) then drecs 0 files else []) ++
  records_of (file_records 0 blk files) oid ty.
Proof.
  unfold format_records. rewrite records_of_cons, records_of_app, records_of_drecs.
  rewrite record_key_inode by done. cbn [Inode.oid demo_root_inode]. repeat case_decide; naive_solver.
Qed.

(** The entry of the [k]-th file. *)
Definition entry_of (k : Z) (f : file) : DirEntry.t := DirEntry.mk (fname f) (16 + k) 0 8.

Lemma parse_drec k f : 0 <= 16 + k < 2 ^ 64 → is_utf8 (fname f) = true → x00 ∉ fname f → zlen (fname f) < 1023 →
  parse_dir_entry (key (drec k f)) (value (drec k f)) = Some (entry_of k f).
Proof.
  intros Hk Hu Hz Hl. unfold parse_dir_entry, drec. cbn [key value]. rewrite decode_hashed_drec by done. cbn [mbind option_bind].
  unfold entry_of. do 2 f_equal.
  unfold OFF_DREC_FILE_ID. read_field. lia.
Qed.

Lemma format_directory : Forall (λ f, is_utf8 (fname f) = true ∧ x00 ∉ fname f ∧ zlen (fname f) < 1023) files →
  directory records 2 = imap (λ k f, entry_of (Z.of_nat k) f) files.
Proof.
  intros Hf. unfold directory. rewrite format_records_of, decide_False, decide_True by done.
  rewrite records_of_before by lia. cbn [app]. rewrite app_nil_r.
  assert (Hgen : ∀ k, 0 <= k → 16 + k + zlen files < 2 ^ 60 →
    omap (λ e, parse_dir_entry (key e) (value e)) (drecs k files) = imap (λ j f, entry_of (k + Z.of_nat j) f) files).
  { clear Hn. induction Hf as [|f fs (Hu & Hz & Hl) _ IH]; intros k Hk Hb; [done|]. rewrite zlen_cons in Hb.
    pose proof (zlen_nonneg fs). cbn [drecs]. cbn [omap list_omap].
    rewrite parse_drec by (done || lia). cbn [imap]. rewrite Z.add_0_r. f_equal.
    etrans; [apply IH; lia|]. apply imap_ext. intros i x _. simpl. f_equal. lia. }
  rewrite Hgen by lia. done.
Qed.

Lemma format_own j f ty : files !! j = Some f → ty ≠ DirRec →
  records_of records (16 + Z.of_nat j) ty =
    own_records (Z.of_nat j) (blk + blocks_of (take j files)) f ty.
Proof.
  intros Hf Hty. rewrite format_records_of, !decide_False by (intros [= ? ?]; lia || congruence). cbn [app].
  by apply (records_of_file 0).
Qed.

Lemma format_inode j f : files !! j = Some f →
  inode_value records (16 + Z.of_nat j) = Some (value (inode_rec (file_inode (Z.of_nat j) f) (size_field f))).
Proof. intros Hf. unfold inode_value. by rewrite (format_own j f). Qed.

Lemma format_extents j f : files !! j = Some f → zlen (fcontent f) <= MAX_FILE_BYTES →
  0 <= blk + blocks_of (take j files) < 2 ^ 64 →
  extents_of records (16 + Z.of_nat j) =
    [FileExtent.mk 0 (zlen (fcontent f)) (blk + blocks_of (take j files))].
Proof.
  intros Hf Hl Hb. unfold extents_of. rewrite (format_own j f) by done. cbn [own_records fmap list_fmap].
  pose proof (zlen_nonneg (fcontent f)). unfold MAX_FILE_BYTES in Hl.
  f_equal. unfold parse_extent, extent_rec. cbn [key value]. f_equal.
  - change J_FILE_EXTENT_LEN_MASK with (Z.ones 56). rewrite Z.land_ones by done.
    unfold OFF_FEXT_LEN_AND_FLAGS, le_u64. rewrite le_read_here by lia. apply Z.mod_small. lia.
  - unfold OFF_FEXT_PHYS_BLOCK. read_field. lia.
Qed.

Lemma format_xattrs oid : xattrs_of records oid = [].
Proof.
  unfold xattrs_of. rewrite format_records_of, !decide_False by (intros [= ? ?]). cbn [app].
  by rewrite records_of_other by (done || lia).
Qed.

Lemma format_sorted : StronglySorted Z.le ((λ e, key_oid (key e)) <$> records).
Proof.
  assert (Hfiles : ∀ fs k b, 0 <= k → 16 + k + zlen fs < 2 ^ 60 →
    StronglySorted Z.le ((λ e, key_oid (key e)) <$> file_records k b fs) ∧
    Forall (λ o, 16 + k <= o) ((λ e, key_oid (key e)) <$> file_records k b fs)).
  { induction fs as [|f fs IH]; intros k b Hk Hb; [split; constructor|]. rewrite zlen_cons in Hb.
    pose proof (zlen_nonneg fs). destruct (IH (k + 1) (b + content_blocks f)) as [Hs Hge]; [lia..|].
    cbn [file_records]. rewrite !fmap_cons. unfold key_oid at 1 2 4 5.
    rewrite record_key_extent, record_key_inode by (simpl; lia). cbn [fst Inode.oid file_inode].
    assert (Hge' : Forall (Z.le (16 + k)) ((λ e, key_oid (key e)) <$> file_records (k + 1) (b + content_blocks f) fs))
      by (eapply Forall_impl; [exact Hge|]; simpl; lia).
    split; repeat constructor; (done || lia). }
  destruct (Hfiles files 0 blk) as [Hs Hge]; [lia..|].
  unfold format_records. rewrite fmap_cons, fmap_app.
  assert (Hd : ∀ k, (λ e, key_oid (key e)) <$> drecs k files = replicate (length files) 2).
  { clear. induction files as [|f fs IH]; intros k; [done|]. cbn [drecs length replicate]. rewrite fmap_cons, IH.
    unfold key_oid. by rewrite record_key_drec. }
  rewrite Hd. unfold key_oid at 1. rewrite record_key_inode by done. cbn [fst Inode.oid demo_root_inode].
  change (2 :: replicate (length files) 2 ++ ?l) with (replicate (S (length files)) 2 ++ l).
  induction (S (length files)) as [|n IH]; [exact Hs|]. cbn [replicate app]. constructor; [exact IH|].
  apply Forall_app. split; [apply Forall_replicate; lia|]. eapply Forall_impl; [exact Hge|]. simpl. lia.
Qed.
End records.

Lemma file_inode_parses k f : 0 <= k → Inode.in_range (fattr f) → zlen (fcontent f) <= MAX_FILE_BYTES → 16 + k < 2 ^ 60 →
  Inode.parse (16 + k) (value (inode_rec (file_inode k f) (size_field f))) = Ok (file_inode k f).
Proof.
  intros Hk Ha Hs Hb. pose proof (zlen_nonneg (fcontent f)). unfold MAX_FILE_BYTES in Hs.
  apply (inode_parse_encode (file_inode k f)).
  - destruct Ha as (?&?&?&?&?&?&?&?&?&?&?&?). unfold Inode.in_range, file_inode. cbn. split_and!; try done; unfold in_u64; lia.
  - done.
  - repeat constructor; done.
  - done.
  - cbn [fold_left size_field]. unfold Inode.xfield_step. cbn [fst snd].
    change (8 =? INO_EXT_TYPE_NAME) with false. change (8 =? INO_EXT_TYPE_DSTREAM) with true. cbn iota.
    unfold le_u64. rewrite le_read_here by lia. done.
Qed.

(** ** The contents *)
Lemma content_blocks_ge f : zlen (fcontent f) <= content_blocks f * 4096 ∧ 0 <= content_blocks f.
Proof.
  unfold content_blocks. pose proof (zlen_nonneg (fcontent f)).
  pose proof (Z.div_mod (zlen (fcontent f) + 4095) 4096 ltac:(lia)).
  pose proof (Z.mod_pos_bound (zlen (fcontent f) + 4095) 4096 ltac:(lia)). lia.
Qed.

Lemma zlen_padded f : zlen (padded f) = content_blocks f * 4096.
Proof. unfold padded. pose proof (content_blocks_ge f). rewrite zlen_app, zlen_zeroed by lia. lia. Qed.

Lemma zlen_contents files : zlen (contents files) = blocks_of files * 4096 ∧ 0 <= blocks_of files.
Proof.
  unfold contents, blocks_of. induction files as [|f files [IH1 IH2]]; [done|]. rewrite !fmap_cons. cbn [concat foldr].
  pose proof (content_blocks_ge f). rewrite zlen_app, IH1, zlen_padded. lia.
Qed.

(** The content of a file among the contents. *)
Lemma contents_split files j f : files !! j = Some f →
  ∃ after, contents files = contents (take j files) ++ fcontent f ++ after.
Proof.
  intros Hf. assert (E : contents files = contents (take j files ++ f :: drop (S j) files)) by by rewrite take_drop_middle.
  rewrite E. unfold contents. rewrite fmap_app, concat_app, fmap_cons.
  cbn [concat]. change (padded f) with (fcontent f ++ zeroed (content_blocks f * 4096 - zlen (fcontent f))).
  rewrite <- app_assoc. eauto.
Qed.

(** The first file of a name. *)
Definition first_named (files : list file) (j : nat) (f : file) : Prop :=
  files !! j = Some f ∧ ∀ i g, files !! i = Some g → fname g = fname f → (j ≤ i)%nat.

Lemma head_named files j f k : first_named files j f →
  head (filter (λ d, DirEntry.name d = fname f) (imap (λ i f, entry_of (k + Z.of_nat i) f) files)) =
  Some (entry_of (k + Z.of_nat j) f).
Proof.
  intros [Hf Hfirst]. revert k j Hf Hfirst. induction files as [|g files IH]; intros k j Hf Hfirst; [done|].
  cbn [imap]. rewrite filter_cons. cbn [DirEntry.name entry_of compose]. destruct j as [|j].
  - injection Hf as ->. by rewrite decide_True.
  - rewrite decide_False by (intros E; specialize (Hfirst 0%nat g eq_refl E); lia).
    etrans; [|etrans; [apply (IH (k + 1) j)|]].
    + f_equal. f_equal. apply imap_ext. intros i x _. simpl. f_equal. lia.
    + done.
    + intros i x Hi Hx. specialize (Hfirst (S i) x Hi Hx). lia.
    + do 2 f_equal. lia.
Qed.

Lemma no_named files name k : name ∉ fname <$> files →
  filter (λ d, DirEntry.name d = name) (imap (λ i f, entry_of (k + Z.of_nat i) f) files) = [].
Proof.
  revert k. induction files as [|g files IH]; intros k Hn; [done|].
  rewrite fmap_cons in Hn. apply not_elem_of_cons in Hn as [Hg Hn].
  cbn [imap]. rewrite filter_cons. cbn [DirEntry.name entry_of]. rewrite decide_False by done.
  etrans; [|apply (IH (k + 1) Hn)]. f_equal. apply imap_ext. intros i x _. simpl. f_equal. lia.
Qed.

(** ** Reading a volume that stores the files *)

Lemma put_whole content : put (zeroed (zlen content)) (0, content) = content.
Proof.
  unfold put. cbn [fst snd]. change (Z.to_nat 0) with 0%nat. rewrite drop_ge; [by rewrite app_nil_r|].
  unfold zeroed, zlen. rewrite length_replicate. lia.
Qed.

Section volume.
Context (blk : Z) (files : list file) (Hok : storable blk files) (Hpos : 0 < blk).
Context (data : bytes) (Hdata : zlen data <= u64_max).
Context (volume : ApfsVolume.t) (om : ObjectMap.t) (t : tree).
Notation r := (cursor data).
Notation records := (format_records blk files).
Notation place j := (blk + blocks_of (take j files)).
Context (Ht : fs_tree volume 4096 r om t) (Hrecords : entries t = records).
Context (Hcontent : ∀ j f, files !! j = Some f →
  get_range data (place j * 4096) (place j * 4096 + zlen (fcontent f)) = Some (fcontent f)).

Lemma format_few : zlen files < 2 ^ 32.
Proof. exact (fm_few _ _ Hok). Qed.

Lemma format_read_stream j f : files !! j = Some f →
  eval (read_stream volume (16 + Z.of_nat j) (zlen (fcontent f)) 4096) r = Ok (fcontent f).
Proof.
  intros Hf. pose proof format_few as Hfew. pose proof (zlen_nonneg (fcontent f)) as H0.
  assert (Hs : zlen (fcontent f) <= MAX_FILE_BYTES) by (eapply Forall_lookup_1 in Hf; [exact Hf|apply Hok]).
  destruct (zlen_contents (take j files)) as [_ Hc0].
  pose proof (Hcontent j f Hf) as Hrc. pose proof (proj1 (get_range_Some _ _ _ _) Hrc) as [Hrange _].
  unfold u64_max in Hdata. set (b := place j) in *. assert (Hb : 0 < b < 2 ^ 64) by (unfold b in *; lia).
  unfold read_stream. replace (MAX_FILE_BYTES <? _) with false by lia. rewrite eval_bind by solve_stable.
  rewrite (list_extents_eval _ _ _ _ _ _ Ht), bind_Ok, eval_foldM by solve_stable.
  rewrite Hrecords. rewrite (format_extents blk files ltac:(lia) j f Hf Hs) by (fold b; lia). fold b.
  cbn [sort_by_key insert_by_key foldM].
  rewrite eval_read_extent; [|repeat split; cbn; unfold MAX_FILE_BYTES in *; lia|done|by apply zlen_zeroed|done].
  cbn [FileExtent.logical_offset FileExtent.len FileExtent.phys_block_num]. rewrite Z.sub_0_r, Z.min_id.
  destruct (Z.leb_spec (zlen (fcontent f)) 0) as [Hz|Hz]; cbn [orb].
  - assert (fcontent f = []) as -> by (apply nil_length_inv; unfold zlen in *; lia). done.
  - replace (b =? 0) with false by lia. cbv zeta. replace (u64_max <? b * 4096) with false by (unfold u64_max; lia).
    rewrite Hrc, bind_Ok. by rewrite put_whole.
Qed.

Lemma format_read_data zlib lzvn lzfse j f : files !! j = Some f →
  eval (read_data zlib lzvn lzfse volume (file_inode (Z.of_nat j) f) 4096) r = Ok (fcontent f).
Proof.
  intros Hf. pose proof format_few as Hfew. unfold read_data, decmpfs_header. rewrite eval_bind by solve_stable.
  rewrite eval_bind by solve_stable. rewrite (get_xattr_eval _ _ _ _ _ _ _ Ht).
  rewrite Hrecords. rewrite format_xattrs by lia. rewrite bind_Ok.
  assert (Hx : find_xattr XATTR_NAME_DECMPFS [] = None) by reflexivity. rewrite Hx, eval_ret, bind_Ok.
  cbn [Inode.size Inode.private_id file_inode default]. by apply format_read_stream.
Qed.

Lemma format_load_inode j f : files !! j = Some f →
  eval (load_inode volume (16 + Z.of_nat j) 4096) r = Ok (file_inode (Z.of_nat j) f).
Proof.
  intros Hf. pose proof format_few as Hfew. rewrite (load_inode_eval _ _ _ _ _ _ Ht). rewrite Hrecords.
  rewrite (format_inode blk files ltac:(lia) j f Hf). pose proof (lookup_lt_Some _ _ _ Hf).
  apply file_inode_parses; [lia| | |unfold zlen in Hfew; lia]; eapply Forall_lookup_1 in Hf; try exact Hf; apply Hok.
Qed.

Lemma format_list : directory records ROOT_DIR_INO_NUM = imap (λ k f, entry_of (Z.of_nat k) f) files.
Proof. pose proof format_few. apply format_directory; [lia|apply Hok]. Qed.

Section adapter.
Context `{ForensicVfs} (zlib : bytes → option bytes) (lzvn : bytes → Z → option bytes) (lzfse : bytes → option bytes).

(** A mounted file system reads the files back: its root directory lists exactly the
    files, in order, as regular files; each file's metadata are its attributes with the
    length of its content; reading it in windows of any size gives its content; its name
    is looked up to the first file of that name, and a name that is not there to none. *)
Definition reads_back {R} `{ReadSeek R} (fs : ApfsFs.t R) (files : list file) : Prop :=
  let id k := ApfsOid (16 + Z.of_nat k) (ApfsFs.root_xid fs) in
  answer_alone zlib lzvn lzfse fs (ReadDir (root fs)) =
    VOk (imap (λ k f, VOk {| VfsEntry.kind := NodeKind.File; VfsEntry.name := fname f; VfsEntry.id := id k |}) files) ∧
  (∀ j f, files !! j = Some f →
    answer_alone zlib lzvn lzfse fs (Meta (id j)) = VOk (build_meta (file_inode (Z.of_nat j) f) (zlen (fcontent f))) ∧
    (∀ chunk, 0 < chunk →
      (read_all zlib lzvn lzfse fs (id j) chunk 0 (S (length (fcontent f)))).1 = Some (fcontent f)) ∧
    (first_named files j f → answer_alone zlib lzvn lzfse fs (Lookup (root fs) (fname f)) = VOk (Some (id j)))) ∧
  (∀ name, name ∉ fname <$> files → answer_alone zlib lzvn lzfse fs (Lookup (root fs) name) = VOk None).

Context (fs : ApfsFs.t Cursor) (Hm : mounted r fs) (Hv : ApfsFs.volume fs = volume) (Hb : ApfsFs.block_size fs = 4096).

Lemma volume_lookup name : answer_alone zlib lzvn lzfse fs (Lookup (root fs) name) =
  VOk ((λ o, ApfsOid o (ApfsFs.root_xid fs)) <$> child records ROOT_DIR_INO_NUM name).
Proof.
  unfold root. rewrite (answer_lookup _ _ _ fs _ Hm), Hv, Hb, (lookup_child_eval _ _ _ _ _ _ _ Ht). rewrite Hrecords.
  destruct (child _ _ name) as [o|] eqn:Hc; [by rewrite (child_utf8 _ _ _ _ Hc)|by destruct (is_utf8 name)].
Qed.

Lemma volume_reads_back : reads_back fs files.
Proof.
  unfold reads_back. cbv zeta. split_and!.
  - unfold root. rewrite (answer_read_dir _ _ _ fs _ Hm), Hv, Hb, (list_dir_eval _ _ _ _ _ _ Ht). rewrite Hrecords.
    rewrite format_list, outcome_map_Ok. cbn [mapped]. by rewrite fmap_imap.
  - intros j f Hf. pose proof (format_load_inode j f Hf) as Hi. pose proof (format_read_data zlib lzvn lzfse j f Hf) as Hd.
    rewrite <- Hv, <- Hb in Hi, Hd. split_and!.
    + rewrite (answer_meta _ _ _ fs _ Hm), Hi, bind_Ok,
        (data_size_is_read_length zlib lzvn lzfse _ _ _ _ (fcontent f)); [done|apply zlen_nonneg|done].
    + intros chunk Hc. change (fcontent f) with (drop (Z.to_nat 0) (fcontent f)) at 2.
      apply (read_all_content _ _ _ r _ _ _ (file_inode (Z.of_nat j) f)); try done. unfold zlen. lia.
    + intros Hfirst. rewrite volume_lookup. unfold child. rewrite format_list.
      assert (E : head (filter (λ d, DirEntry.name d = fname f) (imap (λ k f, entry_of (Z.of_nat k) f) files)) =
        Some (entry_of (Z.of_nat j) f)) by exact (head_named files j f 0 Hfirst).
      by rewrite E.
  - intros name Hnot. rewrite volume_lookup. unfold child. rewrite format_list.
    assert (E : filter (λ d, DirEntry.name d = name) (imap (λ k f, entry_of (Z.of_nat k) f) files) = [])
      by exact (no_named files name 0 Hnot).
    by rewrite E.
Qed.
End adapter.
End volume.
