(* ===== verification/Layout.v ===== *)
(** * Laying out a container with snapshots

    [format] writes a container of one volume, with the builders of the crate's own
    tests: two copies of the superblock, the container's object map, the live volume
    superblock, the volume's object map, the snapshot tree, for each snapshot the
    superblock frozen then, for every time the tree of its files, and their contents.
    The three kinds of tree have any shape ([Forest]); the object map has a mapping for
    every node of the trees.  [Format] reads such an image back; here is what the parts
    are to the reader: trees of one leaf, object maps, runs of blocks, superblocks. *)
From S2P Require Import Prelude Bytes Text Reader Object Container Node Build Walk BTree Forest Omap Checkpoint Volume FsRecord Inode Dir Extent Compression FileData Snapshot Apfs ForensicVfs Vfs Mounted Files.
Import Vfs.

(** ** The writer *)

(** The live transaction; those of the snapshots are below it.  The ids of the nodes of
    the snapshot tree under its root, and of the file trees. *)
Definition LIVE_XID : Z := 2 ^ 32.
Definition SNAP_OID : Z := 2 ^ 53.
Definition FS_OID : Z := 2 ^ 54.

(** A snapshot: its transaction, its name, when it was taken, the files then, and the
    shape of their tree. *)
Record moment := { mxid : Z; mname : bytes; mtime : Z; mfiles : list file; mshape : shape }.

(** What is written: the snapshots, the live files and the shape of their tree, and the
    shapes of the volume's object map and of the snapshot tree. *)
Record plan := { snaps : list moment; live : list file; live_shape : shape; omap_shape : shape; snap_shape : shape }.

Definition superblock_block : bytes := Eval vm_compute in nxsb_block 4096 LIVE_XID 1 1 2 [1026].
Definition container_omap_block : bytes := Eval vm_compute in omap_block 4096 2 3.
Definition container_maps : list (Z * Z * Z) := [(1026, LIVE_XID, 4)].
Definition container_omap_leaf : bytes := Eval vm_compute in omap_leaf 4096 3 container_maps.
Definition live_block : bytes := Eval vm_compute in apsb 4096 1026 LIVE_XID 5 FS_OID 7 (str "Data").
Definition volume_omap_block : bytes := Eval vm_compute in omap_block 4096 5 6.
Definition frozen_block (xid : Z) : bytes := apsb 4096 1026 xid 0 FS_OID 0 (str "Data").

(** The records of an object map. *)
Definition mappings (maps : list (Z * Z * Z)) : list Entry :=
  (λ m, {| key := omap_key m.1.1 m.1.2; value := zeroed 8 ++ to_le_bytes 8 m.2 |}) <$> maps.

(** The nodes of the three kinds of tree. *)
Definition omap_format : node_format := {| nf_xid := 0; nf_subtype := 0x0b; nf_fixed := true; nf_root := 6 |}.
Definition snap_format : node_format := {| nf_xid := LIVE_XID; nf_subtype := 0x10; nf_fixed := false; nf_root := 7 |}.
Definition files_format (xid : Z) : node_format := {| nf_xid := xid; nf_subtype := 0x10; nf_fixed := false; nf_root := FS_OID |}.

(** A transaction with its files and the shape of their tree. *)
Record time := { txid : Z; tfiles : list file; tshape : shape }.

Section writer.
Context (p : plan).

(** Every time, the live one last. *)
Definition times : list time :=
  ((λ m, {| txid := mxid m; tfiles := mfiles m; tshape := mshape m |}) <$> snaps p) ++
  [{| txid := LIVE_XID; tfiles := live p; tshape := live_shape p |}].

(** Where the blocks are: the roots of the object map and of the snapshot tree in blocks 6
    and 7, then their other nodes, the frozen superblocks, the nodes of the files of each
    time, and the contents. *)
Definition omap_rest : Z := 8.
Definition snap_rest : Z := 7 + Z.of_nat (size (omap_shape p)).
Definition frozen_at (i : nat) : Z := snap_rest + Z.of_nat (size (snap_shape p)) - 1 + Z.of_nat i.
Definition nodes_at (i : nat) : Z := frozen_at (length (snaps p)) + Z.of_nat (list_sum ((λ t, size (tshape t)) <$> take i times)).
Definition content_at (i : nat) : Z := nodes_at (length times) + blocks_of (concat (tfiles <$> take i times)).

(** The mappings: a block for every node of the snapshot tree under its root, and for
    every node of the files at every time, ordered by id and transaction. *)
Definition snap_maps : list (Z * Z * Z) :=
  (λ j, (SNAP_OID + j, LIVE_XID, snap_rest + j)) <$> seqZ 0 (Z.of_nat (size (snap_shape p)) - 1).
Definition time_maps (i : nat) (t : time) : list (Z * Z * Z) :=
  (λ j, (FS_OID + j, txid t, nodes_at i + j)) <$> seqZ 0 (Z.of_nat (size (tshape t))).
Definition map_code (m : Z * Z * Z) : Z := m.1.1 * 2 ^ 64 + m.1.2.
Definition volume_maps : list (Z * Z * Z) := sort_by_key map_code (snap_maps ++ concat (imap time_maps times)).

(** The records of the snapshot tree. *)
Definition meta_rec (i : nat) (m : moment) : Entry :=
  {| key := snap_jkey 1 (mxid m); value := snap_meta_val (frozen_at i) (mtime m) (mname m) |}.
Definition name_rec (m : moment) : Entry :=
  {| key := snap_name_key (mname m); value := to_le_bytes 8 (mxid m) |}.
Definition snapshot_records : list Entry := imap meta_rec (snaps p) ++ (name_rec <$> snaps p).

(** The trees. *)
Definition omap_nodes : tree := grow_at (omap_shape p) 6 omap_rest (mappings volume_maps).
Definition snap_nodes : tree := grow_at (snap_shape p) 7 SNAP_OID snapshot_records.
Definition time_records (i : nat) (t : time) : list Entry := format_records (content_at i) (tfiles t).
Definition time_nodes (i : nat) (t : time) : tree := grow_at (tshape t) FS_OID (FS_OID + 1) (time_records i t).

Definition format_blocks : list bytes :=
  [ superblock_block; superblock_block; container_omap_block; container_omap_leaf;
    live_block; volume_omap_block; node_block omap_format omap_nodes; node_block snap_format snap_nodes ] ++
  (node_block omap_format <$> tail (nodes omap_nodes)) ++
  (node_block snap_format <$> tail (nodes snap_nodes)) ++
  (frozen_block <$> (mxid <$> snaps p)) ++
  concat (imap (λ i t, node_block (files_format (txid t)) <$> nodes (time_nodes i t)) times).

Definition format : bytes := concat format_blocks ++ contents (concat (tfiles <$> times)).

(** What can be written: increasing transactions below the live one, names of UTF-8
    without NUL, files that can be stored, shapes that hold their records in nodes of one
    block each, an image within the address space. *)
Record formattable : Prop := {
  fm_order : StronglySorted Z.lt (mxid <$> snaps p);
  fm_xids : Forall (λ m, 0 <= mxid m < LIVE_XID) (snaps p);
  fm_snaps : Forall (λ m, is_utf8 (mname m) = true ∧ x00 ∉ mname m ∧ zlen (mname m) < MAX_SNAP_NAME_LEN ∧ in_u64 (mtime m)) (snaps p);
  fm_omap : fills omap_format omap_rest (omap_shape p) (mappings volume_maps);
  fm_tree : fills snap_format SNAP_OID (snap_shape p) snapshot_records;
  fm_files : ∀ i t, times !! i = Some t →
    storable (content_at i) (tfiles t) ∧ fills (files_format (txid t)) (FS_OID + 1) (tshape t) (time_records i t);
  fm_image : zlen format <= u64_max;
}.

(** The snapshot as the reader lists it. *)
Definition snapshot_at (i : nat) (m : moment) : Snapshot.t :=
  Snapshot.mk (mxid m) (mname m) (mtime m) 0 (frozen_at i) 0 0 0.
End writer.

(** What the reader makes of the fixed blocks. *)
Definition format_sb : NxSuperblock.t :=
  Eval vm_compute in
    match NxSuperblock.parse superblock_block with Ok sb => sb | _ => demo_sb 0 0 end.
Definition live_volume : ApfsVolume.t :=
  Eval vm_compute in
    match ApfsVolume.parse live_block with Ok v => v | _ => demo_volume end.
Definition format_om (tree_oid : Z) : ObjectMap.t :=
  {| ObjectMap.self_flags := 0; ObjectMap.self_tree_type := 0x40000002; ObjectMap.self_tree_oid := tree_oid; ObjectMap.self_snapshot_tree_oid := 0 |}.

(** The volume frozen at a transaction, with its object map. *)
Definition frozen_volume (xid omap : Z) : ApfsVolume.t :=
  ApfsVolume.mk 1026 xid 0 0 0 0 0 omap FS_OID 0 0 (zeroed 16) 0 (str "Data").

(** ** Trees of one leaf *)

(** A stored leaf is the encoding of its records. *)
Lemma stored_encoded_leaf {R} `{ReadSeek R} fetch mask subtype (r : R) bs id xid o_type o_subtype root fixed_kv level records :
  eval (fetch id) r = Ok (Some (encode_node bs id xid o_type o_subtype root true fixed_kv level records)) →
  in_u16 level → node_used root fixed_kv records <= bs → bs <= 65536 →
  Forall (record_fits subtype true fixed_kv) records →
  stored fetch mask subtype r (Leaf id records).
Proof.
  intros Hf Hl Hu Hb Hr.
  rewrite <- (node_entries_encoded bs id xid o_type o_subtype root true fixed_kv level subtype records) by done.
  eapply stored_leaf; [exact Hf|by apply (encode_node_header _ _ _ _ _ _ _ _ _ subtype)|].
  by apply (encoded_is_leaf bs _ _ _ _ subtype).
Qed.

(** An object map of one leaf. *)
Lemma omap_leaf_tree {R} `{LawfulReader R} (r : R) p maps :
  eval (Reader.read_at (p * 4096) 4096) r = Ok (omap_leaf 4096 p maps) →
  0 <= p <= 65536 → node_used true true (mappings maps) <= 4096 →
  StronglySorted omap_lt ((λ e, decode_omap_key (key e)) <$> mappings maps) →
  omap_tree 4096 r (Leaf p (mappings maps)).
Proof.
  intros Hg Hp Hu Hs. split; [| |constructor|exact Hs].
  - apply (stored_encoded_leaf _ _ _ r 4096 p 0 0x40000002 0x0b true true 0 (mappings maps)); [|done|exact Hu|done|].
    + unfold read_verified_node, checked_mul. replace (p * 4096 <=? u64_max) with true by (unfold u64_max; lia).
      rewrite eval_bind by solve_stable. rewrite Hg, bind_Ok. unfold omap_leaf. by rewrite encode_node_cksum.
    + unfold mappings. apply Forall_fmap, Forall_forall. intros m _. done.
  - split; [apply NoDup_singleton|vm_compute; lia].
Qed.


(** In an object map of one id with increasing transactions, the newest mapping at a
    mapped transaction is that one. *)
Lemma omap_key_decodes oid xid : in_u64 oid → in_u64 xid → decode_omap_key (omap_key oid xid) = (oid, xid).
Proof.
  intros Ho Hx. unfold decode_omap_key, omap_key. rewrite <- (app_nil_r (to_le_bytes 8 xid)).
  f_equal; read_field; assumption.
Qed.

Lemma mapping_entry oid xid p : in_u64 oid → in_u64 xid → in_u64 p →
  omap_entry (omap_key oid xid) (zeroed 8 ++ to_le_bytes 8 p) = OmapEntry.mk oid xid p 0 0.
Proof.
  intros Ho Hx Hp. unfold omap_entry. pose proof (omap_key_decodes oid xid Ho Hx) as Hk.
  injection Hk as -> ->. change (zeroed 8) with (to_le_bytes 4 0 ++ to_le_bytes 4 0).
  rewrite <- (app_nil_r (to_le_bytes 8 p)), <- !app_assoc. f_equal; read_field; done.
Qed.

Lemma newest_mapping maps oid xid p :
  Forall (λ m, in_u64 m.1.1 ∧ in_u64 m.1.2 ∧ in_u64 m.2) maps →
  StronglySorted omap_lt ((λ e, decode_omap_key (key e)) <$> mappings maps) →
  (oid, xid, p) ∈ maps →
  visit_all (omap_visit oid xid) (mappings maps) None = Some (OmapEntry.mk oid xid p 0 0).
Proof.
  intros Hr Hs Hin. pose proof (proj1 (Forall_forall _ _) Hr _ Hin) as (Ho & Hx & Hp). cbn in Ho, Hx, Hp.
  set (e := {| key := omap_key oid xid; value := zeroed 8 ++ to_le_bytes 8 p |}).
  pose proof (omap_key_decodes oid xid Ho Hx) as Hk. injection Hk as Hk1 Hk2.
  assert (He : e ∈ mappings maps) by (apply list_elem_of_fmap; by exists (oid, xid, p)).
  assert (Hc : candidate oid xid e) by (unfold candidate, e; cbn [key]; lia).
  pose proof (newest_of_spec oid xid (mappings maps)) as Hn.
  destruct (visit_all _ _ _) as [b|].
  - destruct Hn as (e' & He' & ->). assert (newest oid xid (mappings maps) e).
    { split; [done|]. split; [done|]. intros e0 _ [_ Hle]. unfold e. cbn [key]. lia. }
    rewrite (newest_unique oid xid _ _ _ Hs He' H). unfold e. cbn [key value]. by rewrite mapping_entry.
  - exfalso. exact (proj1 (Forall_forall _ _) Hn e He Hc).
Qed.

(** ** The blocks of an image *)

(** The [i]-th block of a run of whole blocks. *)
Lemma get_range_block (blocks : list bytes) rest i b :
  Forall (λ b, zlen b = 4096) blocks → blocks !! i = Some b →
  get_range (concat blocks ++ rest) (Z.of_nat i * 4096) (Z.of_nat i * 4096 + 4096) = Some b.
Proof.
  intros Hl. revert i. induction Hl as [|b0 blocks Hb _ IH]; intros [|i] Hi; simplify_eq/=.
  - rewrite <- app_assoc. apply get_range_here; lia.
  - rewrite <- app_assoc, get_range_skip, Hb by lia.
    replace (Z.of_nat (S i) * 4096 - 4096) with (Z.of_nat i * 4096) by lia.
    replace (Z.of_nat (S i) * 4096 + 4096 - 4096) with (Z.of_nat i * 4096 + 4096) by lia. by apply IH.
Qed.

Lemma zlen_concat_blocks (blocks : list bytes) :
  Forall (λ b, zlen b = 4096) blocks → zlen (concat blocks) = zlen blocks * 4096.
Proof. induction 1 as [|b blocks Hb _ IH]; [done|]. cbn [concat]. rewrite zlen_app, zlen_cons. lia. Qed.

(** A frozen superblock differs from another in its transaction only. *)
Definition frozen_tail : bytes := Eval vm_compute in drop 24 (frozen_block 0).

Lemma frozen_block_shape xid :
  frozen_block xid = seal (zeroed 8 ++ to_le_bytes 8 1026 ++ to_le_bytes 8 xid ++ frozen_tail).
Proof.
  unfold frozen_block, apsb, obj_block. apply (f_equal seal). reflexivity.
Qed.

Lemma frozen_fields hd xid : zlen hd = 24 → in_u64 xid → le_u64 hd 8 = 1026 → le_u64 hd 16 = xid →
  cksum_ok (hd ++ frozen_tail) = true → ApfsVolume.parse (hd ++ frozen_tail) = Ok (frozen_volume xid 0).
Proof.
  intros Hh Hxid Ho Hx Hck. unfold cksum_ok in Hck. apply Z.eqb_eq in Hck.
  assert (Hlen : zlen (hd ++ frozen_tail) = 4096) by (rewrite zlen_app, Hh; vm_compute; reflexivity).
  assert (Hread : ∀ n off, zlen hd <= off → le_read n (hd ++ frozen_tail) off = le_read n frozen_tail (off - zlen hd))
    by (intros; by apply le_read_skip).
  assert (Hrange : ∀ a b, zlen hd <= a → get_range (hd ++ frozen_tail) a b = get_range frozen_tail (a - zlen hd) (b - zlen hd))
    by (intros; by apply get_range_skip).
  assert (Ho' : le_u64 (hd ++ frozen_tail) 8 = 1026) by (rewrite <- Ho; apply le_read_app_l; lia).
  assert (Hx' : le_u64 (hd ++ frozen_tail) 16 = xid) by (rewrite <- Hx; apply le_read_app_l; lia).
  rewrite Hh in Hread, Hrange. unfold ApfsVolume.parse, ObjPhys.parse. cbv zeta. rewrite Hlen. cbn [ObjPhys.obj_type_raw].
  rewrite Hck, Z.eqb_refl, Ho', Hx'. clear Hck Ho Hx Ho' Hx' Hlen.
  unfold ApfsVolume.decode_volname, arr, le_u32, le_u64, ObjPhys.obj_type. cbn [ObjPhys.obj_type_raw ObjPhys.oid ObjPhys.xid].
  generalize (le_read 8 (hd ++ frozen_tail) 0). intros cksum.
  rewrite !Hread, !Hrange by (vm_compute; discriminate). vm_compute. reflexivity.
Qed.

Lemma frozen_parses xid : in_u64 xid → ApfsVolume.parse (frozen_block xid) = Ok (frozen_volume xid 0).
Proof.
  intros Hx. rewrite frozen_block_shape. set (l := zeroed 8 ++ _).
  assert (Hl : 8 <= zlen l) by (unfold l; rewrite zlen_app, zlen_zeroed by done; pose proof (zlen_nonneg (to_le_bytes 8 1026 ++ to_le_bytes 8 xid ++ frozen_tail)); lia).
  destruct (seal_cksum_ok l Hl) as (Hck & _). revert Hck. unfold seal at 1 2.
  assert (Hd : drop 8 l = to_le_bytes 8 1026 ++ to_le_bytes 8 xid ++ frozen_tail) by by apply drop_app_length'.
  rewrite Hd. intros Hck.
  rewrite !app_assoc in *. apply frozen_fields; [|exact Hx| | |exact Hck].
  - rewrite !zlen_app, !zlen_to_le_bytes. reflexivity.
  - rewrite <- app_assoc. read_field. lia.
  - rewrite <- (app_nil_r (to_le_bytes 8 xid)), <- !app_assoc. read_field. exact Hx.
Qed.

Lemma frozen_block_length xid : zlen (frozen_block xid) = 4096.
Proof.
  rewrite frozen_block_shape. set (l := zeroed 8 ++ _).
  assert (Hl : zlen l = 4096).
  { unfold l. rewrite !zlen_app, zlen_to_le_bytes, zlen_zeroed by done. vm_compute. reflexivity. }
  destruct (seal_cksum_ok l) as (_ & -> & _); lia.
Qed.

Lemma blocks_of_app fs gs : blocks_of (fs ++ gs) = blocks_of fs + blocks_of gs.
Proof. unfold blocks_of. induction fs as [|f fs IH]; [done|]. rewrite <- app_comm_cons, !fmap_cons. cbn [foldr]. lia. Qed.

Lemma contents_app fs gs : contents (fs ++ gs) = contents fs ++ contents gs.
Proof. unfold contents. by rewrite fmap_app, concat_app. Qed.

(** The first element with a key, in increasing order of keys. *)
Lemma head_filter_sorted {A} (f : A → Z) l i a :
  StronglySorted Z.lt (f <$> l) → l !! i = Some a → head (filter (λ x, f x = f a) l) = Some a.
Proof.
  revert i. induction l as [|x l IH]; intros i Hs Hi; [done|]. rewrite fmap_cons in Hs. inversion_clear Hs as [|?? Hs' Hall].
  rewrite filter_cons. destruct i as [|i]; simplify_eq/=; [by rewrite decide_True|].
  rewrite Forall_fmap in Hall. pose proof (Forall_lookup_1 _ _ _ _ Hall Hi) as Hlt. simpl in Hlt.
  rewrite decide_False by lia. by apply (IH i).
Qed.

(** The [j]-th element of the [i]-th of some lists. *)
Lemma concat_lookup {A} (ls : list (list A)) i l j a :
  ls !! i = Some l → l !! j = Some a → concat ls !! (list_sum (length <$> take i ls) + j)%nat = Some a.
Proof.
  revert i. induction ls as [|l0 ls IH]; intros [|i] Hi Hj; simplify_eq/=; [by apply lookup_app_l_Some|].
  rewrite <- Nat.add_assoc, lookup_app_r by lia. rewrite Nat.add_comm, Nat.add_sub. by apply IH.
Qed.

Lemma length_concat_sum {A} (ls : list (list A)) : length (concat ls) = list_sum (length <$> ls).
Proof. induction ls as [|l ls IH]; [done|]. cbn [concat fmap list_fmap list_sum fold_right]. by rewrite length_app, IH. Qed.

Lemma list_sum_take (l : list nat) i x : l !! i = Some x → (list_sum (take i l) + x ≤ list_sum l)%nat.
Proof.
  revert i. induction l as [|y l IH]; intros [|i] Hi; simplify_eq/=; [lia|]. specialize (IH i Hi). unfold list_sum in *. lia.
Qed.

Lemma elem_of_concat {A} (ls : list (list A)) x : x ∈ concat ls ↔ ∃ l, x ∈ l ∧ l ∈ ls.
Proof. setoid_rewrite list_elem_of_In. rewrite in_concat. naive_solver. Qed.

Lemma fmap_concat_imap {A B C} (f : B → C) (g : nat → A → list B) (h : A → list C) l :
  (∀ i a, f <$> g i a = h a) → f <$> concat (imap g l) = concat (h <$> l).
Proof.
  revert g. induction l as [|a l IH]; intros g Hg; [done|]. cbn [imap concat]. rewrite fmap_app, Hg, fmap_cons.
  cbn [concat]. f_equal. apply IH. intros i b. apply Hg.
Qed.

(** Groups told apart by an increasing mark. *)
Lemma NoDup_concat_marked {A B} (mark : A → Z) (h : A → list (B * Z)) l :
  StronglySorted Z.lt (mark <$> l) → (∀ a, NoDup (h a)) → (∀ a b, b ∈ h a → b.2 = mark a) → NoDup (concat (h <$> l)).
Proof.
  intros Hs Hd Hm. induction l as [|a l IH]; [constructor|]. rewrite fmap_cons in Hs. rewrite fmap_cons. inversion_clear Hs as [|?? Hs' Hall].
  cbn [concat]. apply NoDup_app. split; [apply Hd|]. split; [|by apply IH].
  intros b Hb Hin. apply elem_of_concat in Hin as (l' & Hin & Hl). apply list_elem_of_fmap in Hl as (a' & -> & Ha').
  rewrite Forall_fmap, Forall_forall in Hall. specialize (Hall a' Ha'). simpl in Hall. apply Hm in Hb, Hin. lia.
Qed.

(** A sorted list whose keys are distinct is strictly sorted. *)
Lemma strictly_sorted {A B} (f : A → Z) (g : A → B) (P : A → Prop) (Q : B → B → Prop) l :
  StronglySorted (key_le f) l → NoDup (f <$> l) → Forall P l →
  (∀ x y, P x → P y → f x < f y → Q (g x) (g y)) → StronglySorted Q (g <$> l).
Proof.
  intros Hs Hd Hp Hq. induction Hs as [|x l Hs IH Hall]; [constructor|]. rewrite fmap_cons in Hd. rewrite fmap_cons.
  apply NoDup_cons in Hd as [Hx Hd]. apply Forall_cons in Hp as [Hpx Hp]. constructor; [by apply IH|].
  apply Forall_fmap, Forall_forall. intros y Hy. rewrite Forall_forall in *. apply Hq; [done|by apply Hp|].
  specialize (Hall y Hy). unfold key_le in Hall. assert (f x ≠ f y); [|lia].
  intros E. apply Hx. rewrite E. by apply list_elem_of_fmap_2.
Qed.

Lemma length_tail {A} (l : list A) : length (tail l) = pred (length l).
Proof. by destruct l. Qed.
