(* ===== verification/Format.v ===== *)
(** * Reading a written container back, end to end

    The theorem is the round trip of the whole program.  An image of [Layout] is mounted
    live and at each of any number of snapshots; every mount gives back the files of its
    time, and no other time is mounted.  The section goes through the image as the reader
    does: where each block is, the container, the object map of the volume, the
    snapshots, the files of each time. *)
From S2P Require Import Prelude Bytes Text Reader Object Container Node Build Walk BTree Forest Omap Checkpoint Volume FsRecord Inode Dir Extent Compression FileData Snapshot Apfs ForensicVfs Vfs Mounted Files Layout.
Import Vfs.

Section layout.
Context (p : plan) (Hok : formattable p).
Notation ts := (times p).

Lemma times_snap i m : snaps p !! i = Some m → ts !! i = Some {| txid := mxid m; tfiles := mfiles m; tshape := mshape m |}.
Proof. intros Hm. unfold times. apply lookup_app_l_Some. by rewrite list_lookup_fmap, Hm. Qed.

Lemma times_live : ts !! length (snaps p) = Some {| txid := LIVE_XID; tfiles := live p; tshape := live_shape p |}.
Proof. unfold times. by rewrite lookup_app_r, length_fmap, Nat.sub_diag by by rewrite length_fmap. Qed.

Lemma times_xids : txid <$> ts = (mxid <$> snaps p) ++ [LIVE_XID].
Proof. unfold times. by rewrite fmap_app, <- list_fmap_compose. Qed.

Lemma xids_sorted : StronglySorted Z.lt (txid <$> ts).
Proof.
  rewrite times_xids. apply StronglySorted_app. split_and!.
  - intros x y (m & -> & Hm)%list_elem_of_fmap ->%list_elem_of_singleton.
    by apply (proj1 (Forall_forall _ _) (fm_xids _ Hok)).
  - exact (fm_order _ Hok).
  - repeat constructor.
Qed.

Lemma xids_in_range i t : ts !! i = Some t → 0 <= txid t < 2 ^ 60.
Proof.
  intros Ht. assert (Hin : txid t ∈ txid <$> ts) by (apply list_elem_of_fmap; exists t; split; [done|by eapply list_elem_of_lookup_2]).
  rewrite times_xids in Hin. unfold LIVE_XID in *. apply elem_of_app in Hin as [(m & -> & Hm)%list_elem_of_fmap| ->%list_elem_of_singleton]; [|lia].
  apply (proj1 (Forall_forall _ _) (fm_xids _ Hok)) in Hm. unfold LIVE_XID in Hm. lia.
Qed.

(** *** The blocks *)

Lemma fills_at i t : ts !! i = Some t → fills (files_format (txid t)) (FS_OID + 1) (tshape t) (time_records p i t).
Proof. intros Ht. by apply (fm_files _ Hok). Qed.

Lemma fills_blocks f next s rs :
  fills f next s rs → Forall (λ b, zlen b = 4096) (node_block f <$> nodes (grow_at s (nf_root f) next rs)).
Proof. intros Hf. apply Forall_fmap, Forall_forall. intros n Hn. by apply (fills_block f next s rs). Qed.

Lemma nodes_head s root next rs : nodes (grow_at s root next rs) = grow_at s root next rs :: tail (nodes (grow_at s root next rs)).
Proof. by destruct s. Qed.

Lemma format_blocks_length : Forall (λ b, zlen b = 4096) (format_blocks p).
Proof.
  pose proof (fills_blocks _ _ _ _ (fm_omap _ Hok)) as Ho. pose proof (fills_blocks _ _ _ _ (fm_tree _ Hok)) as Hs.
  cbn [nf_root omap_format snap_format] in Ho, Hs. rewrite nodes_head, fmap_cons, Forall_cons in Ho, Hs.
  unfold format_blocks. cbn [app]. do 6 (constructor; [vm_compute; reflexivity|]).
  constructor; [apply Ho|]. constructor; [apply Hs|]. apply Forall_app. split; [apply Ho|]. apply Forall_app. split; [apply Hs|].
  apply Forall_app. split; [do 2 apply Forall_fmap; apply Forall_true; intros; apply frozen_block_length|].
  apply Forall_concat, Forall_lookup. intros i l. rewrite list_lookup_imap. intros (t & Ht & ->)%fmap_Some.
  exact (fills_blocks _ _ _ _ (fills_at i t Ht)).
Qed.

(** The sizes of the groups of node blocks. *)
Lemma groups_sizes k :
  list_sum (length <$> take k (imap (λ i t, node_block (files_format (txid t)) <$> nodes (time_nodes p i t)) ts)) =
  list_sum ((λ t, size (tshape t)) <$> take k ts).
Proof.
  f_equal. apply list_eq. intros i. rewrite !list_lookup_fmap. destruct (decide (i < k)%nat) as [Hi|Hi].
  - rewrite !lookup_take_lt, list_lookup_imap by lia. destruct (ts !! i) as [t|]; [|done]. cbn [fmap option_fmap option_map].
    unfold time_nodes. by rewrite length_fmap, length_nodes.
  - by rewrite !lookup_take_ge by lia.
Qed.

Lemma length_format_blocks : zlen (format_blocks p) = nodes_at p (length ts).
Proof.
  unfold format_blocks, zlen. rewrite !length_app, !length_fmap, !length_tail. unfold omap_nodes, snap_nodes.
  rewrite !length_nodes, length_concat_sum. cbn [length].
  pose proof (groups_sizes (length ts)) as Hg. rewrite take_ge in Hg by by rewrite length_imap. rewrite Hg.
  unfold nodes_at, frozen_at, snap_rest. destruct (omap_shape p), (snap_shape p); cbn [size]; lia.
Qed.

(** The image bounds every number of blocks. *)
Lemma format_size : zlen (format p) = (nodes_at p (length ts) + blocks_of (concat (tfiles <$> ts))) * 4096.
Proof.
  unfold format. rewrite zlen_app, (zlen_concat_blocks _ format_blocks_length), length_format_blocks.
  destruct (zlen_contents (concat (tfiles <$> ts))) as [-> _]. lia.
Qed.

Lemma few_blocks : 0 <= nodes_at p (length ts) < 2 ^ 52.
Proof.
  pose proof (fm_image _ Hok) as Hi. rewrite format_size in Hi. destruct (zlen_contents (concat (tfiles <$> ts))) as [_ Hc].
  rewrite <- length_format_blocks in *. pose proof (zlen_nonneg (format_blocks p)). unfold u64_max in Hi. lia.
Qed.

Lemma nodes_at_time i t : ts !! i = Some t →
  nodes_at p i + Z.of_nat (size (tshape t)) <= nodes_at p (length ts) ∧ 8 <= nodes_at p i.
Proof.
  intros Ht. unfold nodes_at. rewrite (take_ge ts (length ts)) by lia.
  pose proof (list_sum_take ((λ t, size (tshape t)) <$> ts) i (size (tshape t))) as Hs.
  rewrite <- fmap_take in Hs. rewrite list_lookup_fmap, Ht in Hs. specialize (Hs eq_refl).
  unfold frozen_at, snap_rest. destruct (omap_shape p), (snap_shape p); cbn [size]; lia.
Qed.

Lemma before_nodes : 7 + Z.of_nat (size (omap_shape p)) + Z.of_nat (size (snap_shape p)) - 1 + zlen (snaps p) <= nodes_at p (length ts).
Proof. unfold nodes_at, frozen_at, snap_rest, zlen. lia. Qed.

(** Where each block is. *)
Lemma omap_block_lookup j n : tail (nodes (omap_nodes p)) !! j = Some n →
  format_blocks p !! (8 + j)%nat = Some (node_block omap_format n).
Proof.
  intros Hn. unfold format_blocks. rewrite lookup_app_r by (simpl; lia). cbn [length].
  replace (8 + j - 8)%nat with j by lia. apply lookup_app_l_Some. by rewrite list_lookup_fmap, Hn.
Qed.

Lemma snap_block_lookup j n : tail (nodes (snap_nodes p)) !! j = Some n →
  format_blocks p !! (7 + size (omap_shape p) + j)%nat = Some (node_block snap_format n).
Proof.
  intros Hn. unfold format_blocks. assert (Hs : (0 < size (omap_shape p))%nat) by (destruct (omap_shape p); simpl; lia).
  rewrite lookup_app_r by (simpl; lia). cbn [length].
  rewrite lookup_app_r by (rewrite length_fmap, length_tail; unfold omap_nodes; rewrite length_nodes; lia).
  rewrite length_fmap, length_tail. unfold omap_nodes at 1. rewrite length_nodes.
  replace (7 + size (omap_shape p) + j - 8 - pred (size (omap_shape p)))%nat with j by lia.
  apply lookup_app_l_Some. by rewrite list_lookup_fmap, Hn.
Qed.

(** The blocks after the nodes of the two trees. *)
Lemma later_block_lookup j b :
  ((frozen_block <$> (mxid <$> snaps p)) ++
   concat (imap (λ i t, node_block (files_format (txid t)) <$> nodes (time_nodes p i t)) ts)) !! j = Some b →
  format_blocks p !! (6 + size (omap_shape p) + size (snap_shape p) + j)%nat = Some b.
Proof.
  intros Hb. unfold format_blocks. assert (Hs : (0 < size (omap_shape p))%nat) by (destruct (omap_shape p); simpl; lia).
  assert (Hs' : (0 < size (snap_shape p))%nat) by (destruct (snap_shape p); simpl; lia).
  rewrite lookup_app_r by (simpl; lia). cbn [length].
  rewrite lookup_app_r by (rewrite length_fmap, length_tail; unfold omap_nodes; rewrite length_nodes; lia).
  rewrite length_fmap, length_tail. unfold omap_nodes at 1. rewrite length_nodes.
  rewrite lookup_app_r by (rewrite length_fmap, length_tail; unfold snap_nodes; rewrite length_nodes; lia).
  rewrite length_fmap, length_tail. unfold snap_nodes at 1. rewrite length_nodes.
  rewrite <- Hb. f_equal. lia.
Qed.

Lemma frozen_block_lookup i m : snaps p !! i = Some m →
  format_blocks p !! (6 + size (omap_shape p) + size (snap_shape p) + i)%nat = Some (frozen_block (mxid m)).
Proof.
  intros Hm. apply later_block_lookup, lookup_app_l_Some. by rewrite !list_lookup_fmap, Hm.
Qed.

Lemma time_block_lookup i t j n : ts !! i = Some t → nodes (time_nodes p i t) !! j = Some n →
  format_blocks p !! (6 + size (omap_shape p) + size (snap_shape p) +
    (length (snaps p) + (list_sum ((λ t, size (tshape t)) <$> take i ts) + j)))%nat =
  Some (node_block (files_format (txid t)) n).
Proof.
  intros Ht Hn. apply later_block_lookup. rewrite lookup_app_r by (rewrite !length_fmap; lia).
  rewrite !length_fmap, Nat.add_comm, Nat.add_sub, <- groups_sizes.
  apply (concat_lookup _ _ (node_block (files_format (txid t)) <$> nodes (time_nodes p i t))).
  - by rewrite list_lookup_imap, Ht.
  - by rewrite list_lookup_fmap, Hn.
Qed.

(** *** The source *)
Context (data : bytes) (Hdata : data = format p).
Notation r := (cursor data).

Lemma read_block_at k b off : format_blocks p !! k = Some b → off = Z.of_nat k * 4096 →
  eval (Reader.read_at off 4096) r = Ok b.
Proof.
  intros Hk ->. rewrite cursor_read_at, Hdata. unfold format.
  by rewrite (get_range_block _ _ k b format_blocks_length Hk).
Qed.

Lemma read_contents i t j f : ts !! i = Some t → tfiles t !! j = Some f →
  let off := (content_at p i + blocks_of (take j (tfiles t))) * 4096 in
  get_range data off (off + zlen (fcontent f)) = Some (fcontent f).
Proof.
  intros Ht Hf off. pose proof (zlen_concat_blocks _ format_blocks_length) as Hl. rewrite length_format_blocks in Hl.
  destruct (contents_split (tfiles t) j f Hf) as (rest & Hc), (zlen_contents (take j (tfiles t))) as [Ht1 Ht2].
  destruct (zlen_contents (concat (tfiles <$> take i ts))) as [Hb1 Hb2]. pose proof (zlen_nonneg (fcontent f)).
  pose proof few_blocks. rewrite Hdata. unfold format.
  assert (Hsplit : concat (tfiles <$> ts) = concat (tfiles <$> take i ts) ++ tfiles t ++ concat (tfiles <$> drop (S i) ts)).
  { rewrite <- (take_drop_middle ts i t Ht) at 1. by rewrite fmap_app, concat_app. }
  rewrite Hsplit, !contents_app, Hc, <- !app_assoc. unfold off, content_at.
  rewrite !get_range_skip by lia. rewrite Hl, Hb1, Ht1. apply get_range_here; lia.
Qed.

(** *** The container *)

Lemma read_superblock off : off = 0 ∨ off = 4096 → eval (Reader.read_at off 4096) r = Ok superblock_block.
Proof. intros [->| ->]; [by apply (read_block_at 0)|by apply (read_block_at 1)]. Qed.

(** The ring of one slot holds the live superblock. *)
Lemma format_live : eval (resolve_live_checkpoint format_sb) r = Ok (LiveCheckpoint.mk 1 LIVE_XID []).
Proof.
  rewrite eval_resolve_live by (done || apply cursor_readable).
  assert (Hslot : slot_of r 1 4096 0 = Some superblock_block).
  { unfold slot_of, read_block. change (checked_mul (1 + 0) 4096) with (Some 4096).
    pose proof (proj2 (read_at_eof_Some _ _ _ _) (read_superblock 4096 (or_intror eq_refl))) as E.
    cbv iota. by rewrite E. }
  change (NxSuperblock.xp_desc_base format_sb) with 1. change (NxSuperblock.block_size format_sb) with 4096.
  change (NxSuperblock.xp_desc_blocks format_sb) with 1. change (seqZ 0 1) with [0]. cbn [fold_left].
  assert (Hbest : best (scan_block (1 + 0) superblock_block {| best := None; Checkpoint.checked := 0; last_magic := 0 |})
    = Some (LIVE_XID, 1)) by (vm_compute; reflexivity).
  assert (Hms : map_mappings LIVE_XID superblock_block = []) by (vm_compute; reflexivity).
  unfold scan_step. rewrite Hslot, Hbest. unfold ring_mappings. change (seqZ 0 1) with [0].
  cbn [fmap list_fmap]. by rewrite Hslot, Hms.
Qed.

Lemma container_tree : omap_tree 4096 r (Leaf 3 (mappings container_maps)).
Proof.
  apply omap_leaf_tree; [|done|vm_compute; discriminate|repeat constructor].
  by apply (read_block_at 3).
Qed.

Lemma format_volumes : eval (ApfsContainer.resolve_volumes format_sb) r = Ok [4].
Proof.
  pose proof container_tree as Ht.
  unfold ApfsContainer.resolve_volumes. change (block_size_ok _) with true. cbn [negb].
  rewrite eval_bind by solve_stable. change (NxSuperblock.block_size format_sb) with 4096.
  change (saturating_mul _ _) with 8192.
  rewrite (read_block_at 2 container_omap_block 8192) by reflexivity.
  rewrite bind_Ok, eval_bind by solve_stable. rewrite eval_lift.
  assert (Hom : ObjectMap.parse container_omap_block = Ok (format_om 3)) by (vm_compute; reflexivity).
  rewrite Hom, bind_Ok. change (NxSuperblock.fs_oids format_sb) with [1026]. change (NxSuperblock.xid format_sb) with LIVE_XID.
  rewrite (resolve_volumes_loop (format_om 3) LIVE_XID 4096 r _ [1026] [] Ht eq_refl). vm_compute. reflexivity.
Qed.

Lemma format_open_state : eval ApfsContainer.open_state r = Ok (format_sb, LiveCheckpoint.mk 1 LIVE_XID []).
Proof.
  assert (Hsb : NxSuperblock.parse superblock_block = Ok format_sb) by (vm_compute; reflexivity).
  rewrite (open_state_eval r _ _ (read_superblock 0 (or_introl eq_refl)) Hsb).
  assert (Hf : is_fusion format_sb = false) by reflexivity. rewrite Hf, format_live, bind_Ok. clear Hf.
  assert (Ha : saturating_mul (LiveCheckpoint.superblock_paddr (LiveCheckpoint.mk 1 LIVE_XID [])) (NxSuperblock.block_size format_sb)
    = 4096) by reflexivity.
  rewrite Ha. assert (Hb : NxSuperblock.block_size format_sb = 4096) by reflexivity.
  rewrite Hb, (read_superblock 4096 (or_intror eq_refl)), bind_Ok, Hsb, bind_Ok. reflexivity.
Qed.

(** The container opens on its live superblock, and the first volume is the one written. *)
Lemma format_first_volume : first_volume r live_volume 4096.
Proof.
  split; [reflexivity|]. destruct (ApfsContainer.open_state r) as [o r'] eqn:E.
  assert (o = Ok (format_sb, LiveCheckpoint.mk 1 LIVE_XID [])) as ->
    by (rewrite <- (eval_pair _ _ _ _ E); exact format_open_state).
  exists (ApfsContainer.mk r' format_sb 1 []), 4, [], live_block.
  split; [apply open_Ok; exists (LiveCheckpoint.mk 1 LIVE_XID []); split; [exact E|split; reflexivity]|].
  split; [reflexivity|]. split; [apply format_volumes|].
  split; [apply (read_block_at 4); reflexivity|vm_compute; reflexivity].
Qed.

(** *** The object map of the volume *)

Lemma raw_maps_in_range : Forall (λ m, in_u64 m.1.1 ∧ in_u64 m.1.2 ∧ in_u64 m.2) (snap_maps p ++ concat (imap (time_maps p) ts)).
Proof.
  pose proof few_blocks as Hf. pose proof before_nodes as Hb. pose proof (zlen_nonneg (snaps p)).
  apply Forall_app. split.
  - apply Forall_fmap, Forall_forall. intros j Hj%elem_of_seqZ. cbn [compose fst snd].
    unfold in_u64, SNAP_OID, LIVE_XID, snap_rest. lia.
  - apply Forall_concat, Forall_lookup. intros i l. rewrite list_lookup_imap. intros (t & Ht & ->)%fmap_Some.
    pose proof (xids_in_range i t Ht). destruct (nodes_at_time i t Ht).
    apply Forall_fmap, Forall_forall. intros j Hj%elem_of_seqZ. cbn [compose fst snd]. unfold in_u64, FS_OID. lia.
Qed.

Lemma raw_keys :
  fst <$> (snap_maps p ++ concat (imap (time_maps p) ts)) =
  ((λ j, (SNAP_OID + j, LIVE_XID)) <$> seqZ 0 (Z.of_nat (size (snap_shape p)) - 1)) ++
  concat ((λ t, (λ j, (FS_OID + j, txid t)) <$> seqZ 0 (Z.of_nat (size (tshape t)))) <$> ts).
Proof.
  rewrite fmap_app. f_equal; [by unfold snap_maps; rewrite <- list_fmap_compose|].
  apply fmap_concat_imap. intros i t. unfold time_maps. by rewrite <- list_fmap_compose.
Qed.

Lemma raw_keys_distinct : NoDup (fst <$> (snap_maps p ++ concat (imap (time_maps p) ts))).
Proof.
  rewrite raw_keys. apply NoDup_app. split_and!.
  - apply NoDup_fmap_2; [|apply NoDup_seqZ]. intros j k [= E]. lia.
  - intros k (j & -> & Hj%elem_of_seqZ)%list_elem_of_fmap Hin. apply elem_of_concat in Hin as (l & Hin & Hl).
    apply list_elem_of_fmap in Hl as (t & -> & _). apply list_elem_of_fmap in Hin as (j' & E & Hj'%elem_of_seqZ).
    injection E as E _. pose proof few_blocks. pose proof before_nodes. pose proof (zlen_nonneg (snaps p)).
    unfold SNAP_OID, FS_OID in E. lia.
  - apply (NoDup_concat_marked txid); [exact xids_sorted| |].
    + intros t. apply NoDup_fmap_2; [|apply NoDup_seqZ]. intros j k [= E]. lia.
    + by intros t k (j & -> & _)%list_elem_of_fmap.
Qed.

Lemma volume_maps_perm : volume_maps p ≡ₚ snap_maps p ++ concat (imap (time_maps p) ts).
Proof. apply sort_by_key_perm. Qed.

Lemma volume_maps_in_range : Forall (λ m, in_u64 m.1.1 ∧ in_u64 m.1.2 ∧ in_u64 m.2) (volume_maps p).
Proof. rewrite volume_maps_perm. apply raw_maps_in_range. Qed.

Lemma volume_codes_distinct : NoDup (map_code <$> volume_maps p).
Proof.
  pose proof raw_maps_in_range as Hr. rewrite Forall_forall in Hr.
  rewrite volume_maps_perm. change map_code with ((λ k : Z * Z, k.1 * 2 ^ 64 + k.2) ∘ @fst (Z * Z) Z). rewrite list_fmap_compose.
  apply NoDup_fmap_2_strong; [|exact raw_keys_distinct].
  intros k k' (m & -> & Hm)%list_elem_of_fmap (m' & -> & Hm')%list_elem_of_fmap E.
  destruct (Hr m Hm) as (_ & Hx & _), (Hr m' Hm') as (_ & Hx' & _). unfold in_u64 in *.
  destruct m as [[o x] q], m' as [[o' x'] q']. cbn [fst snd] in *. f_equal; lia.
Qed.

Lemma volume_keys_sorted : StronglySorted omap_lt ((λ e, decode_omap_key (key e)) <$> mappings (volume_maps p)).
Proof.
  unfold mappings. rewrite <- list_fmap_compose.
  apply (strictly_sorted map_code _ (λ m, in_u64 m.1.1 ∧ in_u64 m.1.2 ∧ in_u64 m.2)).
  - apply sort_by_key_sorted.
  - exact volume_codes_distinct.
  - exact volume_maps_in_range.
  - intros m m' (Ho & Hx & _) (Ho' & Hx' & _) Hlt. cbn [compose key]. rewrite !omap_key_decodes by done.
    apply omap_lt_iff. cbn [fst snd]. unfold map_code, in_u64 in *. lia.
Qed.

Lemma time_map_in i t j : ts !! i = Some t → (j < size (tshape t))%nat →
  (FS_OID + Z.of_nat j, txid t, nodes_at p i + Z.of_nat j) ∈ volume_maps p.
Proof.
  intros Ht Hj. rewrite volume_maps_perm. apply elem_of_app. right. apply elem_of_concat.
  exists (time_maps p i t). split.
  - apply list_elem_of_fmap. exists (Z.of_nat j). split; [done|]. apply elem_of_seqZ. lia.
  - apply list_elem_of_lookup. exists i. by rewrite list_lookup_imap, Ht.
Qed.

Lemma snap_map_in j : (j < pred (size (snap_shape p)))%nat →
  (SNAP_OID + Z.of_nat j, LIVE_XID, snap_rest p + Z.of_nat j) ∈ volume_maps p.
Proof.
  intros Hj. rewrite volume_maps_perm. apply elem_of_app. left. apply list_elem_of_fmap.
  exists (Z.of_nat j). split; [done|]. apply elem_of_seqZ. lia.
Qed.

(** A read of block [k] by its number. *)
Lemma read_verified_block k b : format_blocks p !! k = Some b → cksum_ok b = true →
  eval (read_verified_node (Z.of_nat k) 4096) r = Ok (Some b).
Proof.
  intros Hk Hc. pose proof few_blocks as Hf. rewrite <- length_format_blocks in Hf. apply lookup_lt_Some in Hk as Hlt.
  unfold read_verified_node, checked_mul. replace (Z.of_nat k * 4096 <=? u64_max) with true by (unfold u64_max, zlen in *; lia).
  rewrite eval_bind by solve_stable. rewrite (read_block_at k b _ Hk eq_refl), bind_Ok. by rewrite Hc.
Qed.

Lemma volume_tree : omap_tree 4096 r (omap_nodes p) ∧ entries (omap_nodes p) = mappings (volume_maps p).
Proof.
  pose proof (fm_omap _ Hok) as Hfill. pose proof few_blocks. pose proof before_nodes. pose proof (zlen_nonneg (snaps p)).
  assert (Hnode : ∀ k n, n ∈ nodes (omap_nodes p) → format_blocks p !! k = Some (node_block omap_format n) →
    tree_id n = Z.of_nat k → eval (read_verified_node (tree_id n) 4096) r = Ok (Some (node_block omap_format n))).
  { intros k n Hn Hk ->. apply read_verified_block; [done|]. exact (proj2 (fills_block _ _ _ _ n Hfill Hn)). }
  destruct (grown_tree (λ q, read_verified_node q 4096) Omap r omap_format omap_rest (omap_shape p) (mappings (volume_maps p)) Hfill)
    as (_ & He & Hst & Hsh & Hsep); try done.
  - unfold omap_rest. lia.
  - unfold omap_rest. cbn. lia.
  - apply Forall_fmap, Forall_true. done.
  - intros n Hn. change (grow_at _ _ _ _) with (omap_nodes p) in Hn. pose proof Hn as Hn'. unfold omap_nodes in Hn'.
    rewrite nodes_head in Hn'. apply elem_of_cons in Hn' as [->|(j & Hj)%list_elem_of_lookup].
    + apply (Hnode 6%nat); [done|reflexivity|apply tree_id_grow_at].
    + apply (Hnode (8 + j)%nat); [done|by apply omap_block_lookup|].
      rewrite (grow_at_tail _ _ _ _ _ _ Hj). unfold omap_rest. lia.
  - split; [|exact He]. split; [exact Hst|exact Hsh|apply Hsep|]. unfold omap_nodes. cbn [nf_root omap_format] in He.
    rewrite He. exact volume_keys_sorted.
Qed.

(** A mapped node is resolved to its block at its transaction, and read. *)
Lemma resolve_mapped oid xid q : (oid, xid, q) ∈ volume_maps p →
  eval (resolve (format_om 6) oid xid 4096) r = Ok (OmapEntry.mk oid xid q 0 0).
Proof.
  intros Hin. destruct volume_tree as [Ht He].
  rewrite (resolve_landing (format_om 6) oid xid 4096 r _ Ht (tree_id_grow_at _ _ _ _)), He.
  by rewrite (newest_mapping _ _ _ _ volume_maps_in_range volume_keys_sorted Hin).
Qed.

Lemma format_read_omap v : ApfsVolume.omap_oid v = 5 → eval (read_omap v 4096) r = Ok (format_om 6).
Proof.
  intros Ho. unfold read_omap. rewrite Ho, eval_bind by solve_stable.
  rewrite (read_block_at 5 volume_omap_block) by reflexivity. rewrite bind_Ok, eval_lift. vm_compute. reflexivity.
Qed.

(** *** The snapshots *)

Lemma format_snap_tree : snap_tree live_volume 4096 r (format_om 6) (snap_nodes p) ∧ entries (snap_nodes p) = snapshot_records p.
Proof.
  pose proof (fm_tree _ Hok) as Hfill. pose proof few_blocks. pose proof before_nodes. pose proof (zlen_nonneg (snaps p)).
  destruct (grown_tree (fetch_snap_node (format_om 6) LIVE_XID 4096 7) FsTree r snap_format SNAP_OID (snap_shape p) (snapshot_records p) Hfill)
    as (Hid & He & Hst & Hsh & Hsep); try done.
  - unfold SNAP_OID. lia.
  - unfold SNAP_OID. cbn. lia.
  - by apply Forall_true.
  - intros n Hn. change (grow_at _ _ _ _) with (snap_nodes p) in Hn. pose proof Hn as Hn'. unfold snap_nodes in Hn'.
    assert (Hck : cksum_ok (node_block snap_format n) = true) by exact (proj2 (fills_block _ _ _ _ n Hfill Hn)).
    unfold fetch_snap_node, fetch_snap. rewrite eval_bind by solve_stable. rewrite eval_bind by solve_stable.
    rewrite nodes_head in Hn'. apply elem_of_cons in Hn' as [->|(j & Hj)%list_elem_of_lookup].
    + rewrite tree_id_grow_at, bool_decide_true, eval_ret, bind_Ok by done. cbv zeta. rewrite eval_bind by solve_stable.
      fold (snap_nodes p). rewrite (read_block_at 7 (node_block snap_format (snap_nodes p))) by reflexivity.
      rewrite bind_Ok. fold (snap_nodes p) in Hck. by rewrite Hck, eval_ret, bind_Ok, eval_ret.
    + pose proof (lookup_lt_Some _ _ _ Hj) as Hlt. rewrite length_tail, length_nodes in Hlt.
      rewrite (grow_at_tail _ _ _ _ _ _ Hj). rewrite bool_decide_false by (unfold SNAP_OID; lia).
      rewrite eval_bind by solve_stable. rewrite (resolve_mapped _ _ _ (snap_map_in j Hlt)), bind_Ok, eval_ret, bind_Ok.
      cbn [OmapEntry.paddr]. cbv zeta. rewrite eval_bind by solve_stable.
      rewrite (read_block_at (7 + size (omap_shape p) + j) (node_block snap_format n)); [|by apply snap_block_lookup|].
      * rewrite bind_Ok, Hck. by rewrite eval_ret, bind_Ok, eval_ret.
      * unfold saturating_mul, snap_rest, u64_max. lia.
  - split; [|exact He]. split; [by apply format_read_omap|exact Hid|exact Hst|exact Hsh].
Qed.

(** The records of the tree are the snapshots, in order. *)
Lemma snapshots_of_app es es' : snapshots_of (es ++ es') = snapshots_of es ++ snapshots_of es'.
Proof. unfold snapshots_of. by rewrite filter_app, fmap_app. Qed.

Lemma snapshots_of_each es ss : Forall2 (λ e s, snapshots_of [e] = [s]) es ss → snapshots_of es = ss.
Proof. induction 1 as [|e s es ss He _ IH]; [done|]. change (e :: es) with ([e] ++ es). by rewrite snapshots_of_app, He, IH. Qed.

Lemma snapshots_of_none es : Forall (λ e, snapshots_of [e] = []) es → snapshots_of es = [].
Proof. induction 1 as [|e es He _ IH]; [done|]. change (e :: es) with ([e] ++ es). by rewrite snapshots_of_app, He, IH. Qed.

Lemma snaps_lookup i m : snaps p !! i = Some m →
  0 <= mxid m < LIVE_XID ∧ in_u64 (frozen_at p i) ∧ frozen_at p i < 2 ^ 52 ∧
  is_utf8 (mname m) = true ∧ x00 ∉ mname m ∧ zlen (mname m) < MAX_SNAP_NAME_LEN ∧ in_u64 (mtime m).
Proof.
  intros Hm. pose proof few_blocks as Hf. pose proof before_nodes. pose proof (lookup_lt_Some _ _ _ Hm) as Hi.
  split; [by apply (Forall_lookup_1 _ _ _ _ (fm_xids _ Hok) Hm)|].
  split; [unfold frozen_at, snap_rest, in_u64, zlen in *; lia|]. split; [unfold frozen_at, snap_rest, zlen in *; lia|].
  by apply (Forall_lookup_1 _ _ _ _ (fm_snaps _ Hok) Hm).
Qed.

Lemma meta_rec_reads i m : snaps p !! i = Some m →
  snapshots_of [meta_rec p i m] = [snapshot_at p i m] ∧ snapshots_of [name_rec m] = [].
Proof.
  intros (Hx & Hs & _ & Hu & Hz & Hl & Ht)%snaps_lookup. unfold LIVE_XID in Hx.
  destruct (snap_record_roundtrip (mxid m) (frozen_at p i) (mtime m) (mname m)) as (Hm & _ & Hk); try done; [lia|].
  split; [exact Hm|]. unfold snapshots_of. rewrite filter_cons. unfold name_rec. cbn [key]. by rewrite Hk.
Qed.

Lemma snapshots_of_records : snapshots_of (snapshot_records p) = imap (snapshot_at p) (snaps p).
Proof.
  unfold snapshot_records. rewrite snapshots_of_app, (snapshots_of_each _ (imap (snapshot_at p) (snaps p))), snapshots_of_none, app_nil_r; [done| |].
  - apply Forall_fmap, Forall_lookup. intros i m Hm. exact (proj2 (meta_rec_reads i m Hm)).
  - apply Forall2_lookup. intros i. rewrite !list_lookup_imap. destruct (snaps p !! i) as [m|] eqn:Hm; constructor.
    exact (proj1 (meta_rec_reads i m Hm)).
Qed.

Lemma snapshot_xids : Snapshot.xid <$> imap (snapshot_at p) (snaps p) = mxid <$> snaps p.
Proof. apply list_eq. intros i. rewrite !list_lookup_fmap, list_lookup_imap. by destruct (snaps p !! i). Qed.

Lemma format_snapshots : eval (list_snapshots live_volume 4096) r = Ok (imap (snapshot_at p) (snaps p)).
Proof.
  destruct format_snap_tree as [Ht He]. rewrite (list_snapshots_eval _ _ _ _ _ Ht), He, snapshots_of_records. f_equal.
  apply sort_by_key_id. pose proof (fm_order _ Hok) as Hs. rewrite <- snapshot_xids in Hs.
  induction (imap (snapshot_at p) (snaps p)) as [|s l IH]; [constructor|]. inversion_clear Hs as [|?? Hs' Hall].
  constructor; [by apply IH|]. rewrite Forall_fmap in Hall. eapply Forall_impl; [exact Hall|].
  intros s' Hlt. unfold key_le. simpl in Hlt. lia.
Qed.

(** The snapshot of a transaction is the one taken then. *)
Lemma snapshot_found i m : snaps p !! i = Some m →
  head (filter (λ s, Snapshot.xid s = mxid m) (imap (snapshot_at p) (snaps p))) = Some (snapshot_at p i m).
Proof.
  intros Hm. apply (head_filter_sorted Snapshot.xid _ i (snapshot_at p i m)).
  - rewrite snapshot_xids. exact (fm_order _ Hok).
  - by rewrite list_lookup_imap, Hm.
Qed.

Lemma snapshot_absent xid : xid ∉ mxid <$> snaps p → filter (λ s, Snapshot.xid s = xid) (imap (snapshot_at p) (snaps p)) = [].
Proof.
  intros Hx. destruct (filter _ _) as [|s l] eqn:E; [done|]. exfalso. apply Hx.
  assert (Hs : s ∈ filter (λ s, Snapshot.xid s = xid) (imap (snapshot_at p) (snaps p))) by (rewrite E; by left).
  apply list_elem_of_filter in Hs as [<- Hs]. rewrite <- snapshot_xids. by apply list_elem_of_fmap_2.
Qed.

(** *** The files of each time *)

Lemma format_mount_snapshot i m : snaps p !! i = Some m →
  eval (mount_snapshot live_volume (snapshot_at p i m) 4096) r = Ok (frozen_volume (mxid m) 5).
Proof.
  intros Hm. destruct (snaps_lookup i m Hm) as (Hx & _ & Hi & _). unfold LIVE_XID in Hx.
  unfold mount_snapshot. rewrite eval_bind by solve_stable.
  rewrite (read_block_at (6 + size (omap_shape p) + size (snap_shape p) + i) (frozen_block (mxid m))); [|by apply frozen_block_lookup|].
  - rewrite bind_Ok, eval_bind by solve_stable. rewrite eval_lift, frozen_parses, bind_Ok by (unfold in_u64; lia).
    by rewrite eval_ret.
  - change (Snapshot.sblock_oid (snapshot_at p i m)) with (frozen_at p i). unfold saturating_mul, frozen_at, snap_rest, u64_max in *. lia.
Qed.

(** The file-system tree of a volume at a time is the tree written for that time. *)
Lemma format_fs_tree v i t :
  ts !! i = Some t → ApfsVolume.omap_oid v = 5 → ApfsVolume.root_tree_oid v = FS_OID → ApfsVolume.xid v = txid t →
  fs_tree v 4096 r (format_om 6) (time_nodes p i t) ∧ entries (time_nodes p i t) = time_records p i t.
Proof.
  intros Ht Ho Hroot Hx. destruct (fm_files _ Hok i t Ht) as [Hst Hfill]. pose proof (fm_few _ _ Hst) as Hfew.
  pose proof few_blocks. destruct (nodes_at_time i t Ht).
  destruct (grown_tree (fetch_node (format_om 6) (txid t) 4096) FsTree r (files_format (txid t)) (FS_OID + 1) (tshape t) (time_records p i t) Hfill)
    as (Hid & He & Hstored & Hsh & Hsep); try done.
  - unfold FS_OID. lia.
  - cbn [nf_root files_format]. unfold FS_OID. lia.
  - by apply Forall_true.
  - intros n Hn. assert (Hck : cksum_ok (node_block (files_format (txid t)) n) = true) by exact (proj2 (fills_block _ _ _ _ n Hfill Hn)).
    change (grow_at _ _ _ _) with (time_nodes p i t) in Hn. apply list_elem_of_lookup in Hn as [j Hj].
    pose proof (lookup_lt_Some _ _ _ Hj) as Hlt. unfold time_nodes in Hlt. rewrite length_nodes in Hlt.
    assert (Hidn : tree_id n = FS_OID + Z.of_nat j).
    { unfold time_nodes in Hj. rewrite nodes_head in Hj. destruct j as [|j]; [injection Hj as <-; by rewrite tree_id_grow_at|].
      rewrite (grow_at_tail _ _ _ _ j n) by exact Hj. lia. }
    rewrite Hidn. unfold fetch_node, fetch_virtual. rewrite eval_bind by solve_stable. rewrite eval_bind by solve_stable.
    rewrite (resolve_mapped _ _ _ (time_map_in i t j Ht Hlt)), bind_Ok. cbv zeta. rewrite eval_bind by solve_stable.
    cbn [OmapEntry.paddr].
    rewrite (read_block_at _ _ _ (time_block_lookup i t j n Ht Hj)).
    + rewrite bind_Ok, Hck. by rewrite eval_ret, bind_Ok, eval_ret.
    + unfold saturating_mul, nodes_at, frozen_at, snap_rest, u64_max in *. lia.
  - split; [|exact He]. split; [by apply format_read_omap|by rewrite Hroot|by rewrite Hx|exact Hsh|apply Hsep|].
    unfold time_nodes. cbn [nf_root files_format] in He. rewrite He. apply format_sorted. lia.
Qed.

(** A mounted handle whose volume is that of a time reads back the files of that time. *)
Lemma time_reads_back `{ForensicVfs} zlib lzvn lzfse (fs : ApfsFs.t Cursor) i t :
  mounted r fs → ApfsFs.block_size fs = 4096 → ts !! i = Some t →
  ApfsVolume.omap_oid (ApfsFs.volume fs) = 5 → ApfsVolume.root_tree_oid (ApfsFs.volume fs) = FS_OID →
  ApfsVolume.xid (ApfsFs.volume fs) = txid t →
  reads_back zlib lzvn lzfse fs (tfiles t).
Proof.
  intros Hm Hb Ht Ho Hroot Hx. destruct (format_fs_tree _ i t Ht Ho Hroot Hx) as [Htree He].
  assert (Hpos : 0 < content_at p i).
  { destruct (zlen_contents (concat (tfiles <$> take i ts))) as [_ Hb0]. destruct (nodes_at_time i t Ht). unfold content_at. lia. }
  assert (Hrange : zlen data <= u64_max) by (rewrite Hdata; exact (fm_image _ Hok)).
  apply (volume_reads_back (content_at p i) (tfiles t) (proj1 (fm_files _ Hok i t Ht)) Hpos data Hrange (ApfsFs.volume fs) (format_om 6)
    (time_nodes p i t) Htree He (λ j f, read_contents i t j f Ht)); done.
Qed.
End layout.

(** ** The round trip *)
Section roundtrip.
Context `{ForensicVfs}.
Context (zlib : bytes → option bytes) (lzvn : bytes → Z → option bytes) (lzfse : bytes → option bytes).

(** C1 Everything written is read back, at every time: for any number of snapshots with
    their files, any live files, and trees of any shape whose nodes fit their blocks, the
    image [format] writes lists exactly the snapshots, with their transactions, names and
    times; mounted live it reads back the live files, and mounted at a snapshot's
    transaction the files of that snapshot, as if nothing was written before or after; at
    any other transaction it is not mounted.  To read back ([reads_back]) is to list
    exactly the files in order, to give their attributes, sizes and contents (in windows
    of any size), to look each name up to its first file, and every other name to none. *)
Theorem format_mount_roundtrip p :
  formattable p →
  let image := cursor (format p) in
  ApfsFs.snapshots image = Ok (imap (snapshot_at p) (snaps p)) ∧
  (∃ fs, ApfsFs.open image = Ok fs ∧ ApfsFs.root_xid fs = LIVE_XID ∧ reads_back zlib lzvn lzfse fs (live p)) ∧
  (∀ i m, snaps p !! i = Some m →
     ∃ fs, ApfsFs.open_snapshot image (mxid m) = Ok fs ∧ ApfsFs.root_xid fs = mxid m ∧
       reads_back zlib lzvn lzfse fs (mfiles m)) ∧
  (∀ xid, xid ≠ LIVE_XID → xid ∉ mxid <$> snaps p → ApfsFs.open_snapshot image xid = Err (SnapshotNotFound xid)).
Proof.
  intros Hok. cbv zeta. remember (format p) as data eqn:Hdata.
  pose proof (format_first_volume p Hok data Hdata) as Hv.
  pose proof (format_snapshots p Hok data Hdata) as Hs.
  pose proof (open_snapshot_cases (cursor data) live_volume 4096) as Hcases.
  pose proof (time_reads_back p Hok data Hdata zlib lzvn lzfse) as Hread. split_and!.
  - destruct (open_first_volume_Ok _ _ _ Hv) as (r1 & Ho & Hr1). unfold ApfsFs.snapshots.
    by rewrite Ho, bind_Ok, owned_eval, (stable_value (Stable := Stable_list_snapshots _ _) r1 (cursor data) Hr1), Hs.
  - destruct (Hcases LIVE_XID Hv) as (r' & Hr' & _ & Ho). specialize (Ho eq_refl).
    eexists. split; [exact Ho|]. split; [done|].
    apply (Hread _ _ _ (mounted_live _ r' _ _ _ Hv Hr') eq_refl (times_live p)); reflexivity.
  - intros i m Hm. destruct (Hcases (mxid m) Hv) as (r' & Hr' & Ho & _). rewrite Hs, bind_Ok in Ho.
    destruct (snaps_lookup p Hok i m Hm) as (Hx & _).
    assert (Hne : mxid m =? ApfsVolume.xid live_volume = false) by (change (ApfsVolume.xid live_volume) with LIVE_XID; lia).
    rewrite Hne, (snapshot_found p Hok i m Hm) in Ho. cbn [ok_or] in Ho.
    rewrite bind_Ok, (format_mount_snapshot p Hok data Hdata i m Hm), bind_Ok in Ho.
    eexists. split; [exact Ho|]. split; [done|].
    destruct (open_snapshot_mounted _ _ _ _ _ Hv Ho) as (_ & _ & Hmt).
    apply (Hread _ _ _ Hmt eq_refl (times_snap p i m Hm)); reflexivity.
  - intros xid Hl Hx. destruct (Hcases xid Hv) as (r' & _ & Ho & _). rewrite Hs, bind_Ok in Ho.
    rewrite Ho. change (ApfsVolume.xid live_volume) with LIVE_XID. rewrite (proj2 (Z.eqb_neq _ _)) by done.
    by rewrite (snapshot_absent p xid Hx).
Qed.
End roundtrip.

(** ** Witness: a snapshot of three files in a tree of three levels, an empty one, and one
    file live *)
Definition demo_b : file := {| fname := str "b.bin"; fattr := demo_root_inode; fcontent := replicate 5000 x41 |}.
Definition demo_before : list file :=
  [ {| fname := str "a.txt"; fattr := demo_file; fcontent := str "hello, apfs!" |};
    {| fname := str "empty"; fattr := demo_file; fcontent := [] |};
    demo_b ].
Definition demo_c : file := {| fname := str "b.bin"; fattr := demo_root_inode; fcontent := str "rewritten" |}.
Definition demo_after : list file := [ demo_c ].
Definition demo_full : moment :=
  {| mxid := 3; mname := str "full"; mtime := 1000; mfiles := demo_before;
     mshape := SIndex [SIndex [SLeaf 3; SLeaf 4]; SIndex [SLeaf 3]] |}.
Definition demo_empty : moment := {| mxid := 9; mname := str "empty"; mtime := 2000; mfiles := []; mshape := SLeaf 1 |}.
Definition demo_plan : plan :=
  {| snaps := [ demo_full; demo_empty ]; live := demo_after; live_shape := SIndex [SLeaf 2; SLeaf 2];
     omap_shape := SIndex [SLeaf 5; SLeaf 7]; snap_shape := SIndex [SLeaf 1; SLeaf 3] |}.

Ltac by_bool := apply (bool_decide_unpack _); vm_compute; exact I.
Ltac fills_demo := split; [vm_compute; reflexivity|vm_compute; reflexivity|by_bool|by_bool].
Ltac storable_demo :=
  split;
  [ repeat constructor; (reflexivity || by_bool)
  | repeat constructor; vm_compute; discriminate
  | repeat constructor; vm_compute; discriminate
  | vm_compute; reflexivity ].

Lemma demo_files i t : times demo_plan !! i = Some t →
  storable (content_at demo_plan i) (tfiles t) ∧
  fills (files_format (txid t)) (FS_OID + 1) (tshape t) (time_records demo_plan i t).
Proof. destruct i as [|[|[|i]]]; [intros [= <-]..|intros [=]]; (split; [storable_demo|fills_demo]). Qed.

Lemma demo_formattable : formattable demo_plan.
Proof.
  split; [repeat constructor|repeat constructor; vm_compute; discriminate| |fills_demo|fills_demo|exact demo_files|
    vm_compute; discriminate].
  repeat constructor; (reflexivity || (vm_compute; discriminate) || by_bool).
Qed.

Lemma first_of_before : first_named demo_before 2 demo_b.
Proof.
  split; [reflexivity|]. intros i g Hi Hg. destruct i as [|[|i]]; [| |lia]; injection Hi as <-; discriminate Hg.
Qed.

Lemma format_mount_roundtrip_witness :
  let image := cursor (format demo_plan) in
  (∃ fs, ApfsFs.open image = Ok fs ∧
    (read_all demo_codec demo_lzvn demo_codec fs (ApfsOid 16 LIVE_XID) 4096 0 10).1 = Some (str "rewritten")) ∧
  (∃ fs, ApfsFs.open_snapshot image 3 = Ok fs ∧
    answer_alone demo_codec demo_lzvn demo_codec fs (Lookup (root fs) (str "b.bin")) = VOk (Some (ApfsOid 18 3)) ∧
    (read_all demo_codec demo_lzvn demo_codec fs (ApfsOid 18 3) 4096 0 5001).1 = Some (replicate 5000 x41)) ∧
  (∃ fs, ApfsFs.open_snapshot image 9 = Ok fs ∧
    answer_alone demo_codec demo_lzvn demo_codec fs (Lookup (root fs) (str "b.bin")) = VOk None) ∧
  ApfsFs.open_snapshot image 8 = Err (SnapshotNotFound 8).
Proof.
  destruct (format_mount_roundtrip demo_codec demo_lzvn demo_codec demo_plan demo_formattable)
    as (_ & (fs0 & Hlive & Hlx & _ & Hla & _) & Hsnap & Hno).
  destruct (Hsnap 0%nat demo_full eq_refl) as (fs & Ho & Hx & _ & Hf & _).
  destruct (Hsnap 1%nat demo_empty eq_refl) as (fs' & Ho' & _ & _ & _ & Hn).
  assert (Hc : 0 < 4096) by reflexivity. rewrite Hlx in Hla. rewrite Hx in Hf. split_and!.
  - exists fs0. split; [exact Hlive|]. destruct (Hla 0%nat demo_c eq_refl) as (_ & Hr & _). exact (Hr 4096 Hc).
  - exists fs. destruct (Hf 2%nat demo_b eq_refl) as (_ & Hr & Hl).
    split; [exact Ho|]. split; [exact (Hl first_of_before)|exact (Hr 4096 Hc)].
  - exists fs'. split; [exact Ho'|]. apply Hn. apply not_elem_of_nil.
  - apply Hno; [discriminate|]. apply (bool_decide_unpack _). vm_compute. exact I.
Defined.
