(* ===== verification/Tests.v ===== *)
(** * The unit tests ([#[cfg(test)]] modules of [src/src/*.rs])

    The synthetic unit tests of the crate, run on the model: each test is a boolean, and
    the kernel computes it.  A panic and a failed [expect] are [false].  The tests over
    whole images and over binary fixtures are in [ImageTests]. *)
From S2P Require Import Prelude Bytes Text Reader Object Container Node Build Checkpoint FsRecord Dir Decmpfs Compression Snapshot Reaper Sealed Keybag.

(** [assert_eq!], and a body after [expect] or [unwrap]. *)
Notation "a '==?' b" := (bool_decide (a = b)) (at level 70) : apfs_scope.

Definition expect {A} (o : outcome A) (body : A → bool) : bool :=
  match o with Ok a => body a | _ => false end.

Definition expect_some {A} (o : option A) (body : A → bool) : bool :=
  match o with Some a => body a | None => false end.

(** ** [bytes.rs] *)
Module BytesTests.
Definition le_reads_in_bounds : bool :=
  let d := [x01; x02; x03; x04; x05; x06; x07; x08] in
  (le_u32 d 0 ==? 0x04030201) && (le_u64 d 0 ==? 0x0807060504030201) && (arr 4 d 2 ==? [x03; x04; x05; x06]).

Definition out_of_range_yields_zero : bool :=
  let d := [xaa; xaa; xaa] in
  (le_u32 d 0 ==? 0) && (le_u64 d 0 ==? 0) && (arr 8 d 0 ==? zeroed 8).

Definition offset_past_end_yields_zero : bool :=
  let d := [x11; x22] in (le_u32 d 100 ==? 0) && (arr 2 d 100 ==? zeroed 2).

Lemma bytes_tests_pass : [le_reads_in_bounds; out_of_range_yields_zero; offset_past_end_yields_zero] = [true; true; true].
Proof. reflexivity. Qed.
End BytesTests.

(** ** [fusion.rs] *)
Module FusionTests.
Definition is_unsupported_fusion (o : outcome Z) : bool :=
  match o with Err UnsupportedFusion => true | _ => false end.

Definition translate_address_fails_loud_not_panics : bool :=
  let tier2 := Z.shiftr FUSION_TIER2_DEVICE_BYTE_ADDR 12 in
  is_unsupported_fusion (translate_address tier2) && is_unsupported_fusion (translate_address 5).

Lemma fusion_tests_pass : translate_address_fails_loud_not_panics = true.
Proof. reflexivity. Qed.
End FusionTests.

(** ** [decmpfs.rs] *)
Module DecmpfsTests.
#[export] Instance Compression_eq_dec : EqDecision Compression.
Proof. solve_decision. Defined.

Definition magic_is_cmpf_little_endian : bool :=
  (MAGIC ==? 0x636d7066) && (to_le_bytes 4 MAGIC ==? str "fpmc").

Definition header_layout_constants : bool :=
  (HEADER_LEN ==? 16) && (COMPRESSION_TYPE_OFFSET ==? 4) && (UNCOMPRESSED_SIZE_OFFSET ==? 8) && (CHUNK_SIZE ==? 65536).

Definition zlib_types_3_inline_4_resource_fork : bool :=
  (classify 3 ==? Some {| algorithm := Zlib; storage := Inline |}) &&
  (classify 4 ==? Some {| algorithm := Zlib; storage := ResourceFork |}).

Definition lzvn_types_7_inline_8_resource_fork : bool :=
  (classify 7 ==? Some {| algorithm := Lzvn; storage := Inline |}) &&
  (classify 8 ==? Some {| algorithm := Lzvn; storage := ResourceFork |}).

Definition lzfse_types_11_inline_12_resource_fork : bool :=
  (classify 11 ==? Some {| algorithm := Lzfse; storage := Inline |}) &&
  (classify 12 ==? Some {| algorithm := Lzfse; storage := ResourceFork |}).

Definition uncompressed_types_1_9_inline_10_resource_fork : bool :=
  forallb (λ inline, classify inline ==? Some {| algorithm := Uncompressed; storage := Inline |}) [1; 9] &&
  (classify 10 ==? Some {| algorithm := Uncompressed; storage := ResourceFork |}).

Definition lzbitmap_types_13_inline_14_resource_fork : bool :=
  (classify 13 ==? Some {| algorithm := LzBitmap; storage := Inline |}) &&
  (classify 14 ==? Some {| algorithm := LzBitmap; storage := ResourceFork |}).

Definition dedup_type_5_and_unknown_types_are_none : bool :=
  (classify 5 ==? None) && (classify 0 ==? None) && (classify 2 ==? None) && (classify 99 ==? None).

Definition parity_rule_odd_inline_even_resource_fork : bool :=
  forallb (λ t, expect_some (classify t) (λ c,
    let expected := if t `mod` 2 =? 1 then Inline else ResourceFork in
    storage c ==? expected)) [3; 4; 7; 8; 11; 12; 13; 14].

Lemma decmpfs_tests_pass :
  [magic_is_cmpf_little_endian; header_layout_constants; zlib_types_3_inline_4_resource_fork;
   lzvn_types_7_inline_8_resource_fork; lzfse_types_11_inline_12_resource_fork;
   uncompressed_types_1_9_inline_10_resource_fork; lzbitmap_types_13_inline_14_resource_fork;
   dedup_type_5_and_unknown_types_are_none; parity_rule_odd_inline_even_resource_fork] = replicate 9 true.
Proof. reflexivity. Qed.
End DecmpfsTests.

(** ** [dir.rs] *)
Module DirTests.
Definition jkey (ty oid : Z) : bytes := to_le_bytes 8 (Z.lor (Z.shiftl ty 60) oid).

Definition decode_hashed_drec_name : bool :=
  let key := jkey 9 2 ++ to_le_bytes 4 5 ++ str "abcd" ++ [x00] in
  decode_drec_name key ==? Some (str "abcd").

Definition child_pruning_selects_only_covering_subtrees : bool :=
  negb (child_may_contain_oid 0 (Some 10) 15) &&
  child_may_contain_oid 10 (Some 20) 15 &&
  negb (child_may_contain_oid 20 None 15) &&
  child_may_contain_oid 5 (Some 10) 10 &&
  child_may_contain_oid 10 (Some 20) 10 &&
  child_may_contain_oid 5 None 999 &&
  negb (child_may_contain_oid 0 (Some 5) 10).

Definition decode_unhashed_drec_name : bool :=
  let key := jkey 9 2 ++ to_le_bytes 2 3 ++ str "Xy" ++ [x00] in
  decode_drec_name key ==? Some (str "Xy").

Definition decode_drec_name_rejects_overlong_length : bool :=
  let key := jkey 9 2 ++ to_le_bytes 4 0 in
  decode_drec_name key ==? None.

Definition decode_drec_name_unhashed_length_past_key_is_none : bool :=
  let key := jkey 9 2 ++ to_le_bytes 2 200 ++ str "z" in
  decode_drec_name key ==? None.

Definition parse_dir_entry_decodes_value : bool :=
  let key := jkey 9 2 ++ to_le_bytes 4 5 ++ str "abcd" ++ [x00] in
  let value := to_le_bytes 8 42 ++ to_le_bytes 8 1234 ++ to_le_bytes 2 7 in
  expect_some (parse_dir_entry key value) (λ e,
    (DirEntry.name e ==? str "abcd") && (DirEntry.file_id e ==? 42) &&
    (DirEntry.date_added e ==? 1234) && (DirEntry.flags e ==? 7)).

Definition parse_dir_entry_rejects_unnamed_key : bool :=
  let key := jkey 9 2 ++ to_le_bytes 4 0 in
  match parse_dir_entry key (zeroed 18) with None => true | Some _ => false end.

Lemma dir_tests_pass :
  [decode_hashed_drec_name; child_pruning_selects_only_covering_subtrees; decode_unhashed_drec_name;
   decode_drec_name_rejects_overlong_length; decode_drec_name_unhashed_length_past_key_is_none;
   parse_dir_entry_decodes_value; parse_dir_entry_rejects_unnamed_key] = replicate 7 true.
Proof. vm_compute. reflexivity. Qed.
End DirTests.

(** ** [snapshot.rs] *)
Module SnapshotTests.
Definition parse_snap_metadata_value_decodes_all_fields : bool :=
  let v := to_le_bytes 8 0x11 ++ to_le_bytes 8 0x22 ++ to_le_bytes 8 1000 ++ to_le_bytes 8 2000 ++
    to_le_bytes 8 99 ++ to_le_bytes 4 0x40000002 ++ to_le_bytes 4 1 ++ to_le_bytes 2 6 ++ str "snap1" ++ [x00] in
  let s := parse_snap_metadata 42 v in
  (Snapshot.xid s ==? 42) && (Snapshot.extentref_tree_oid s ==? 0x11) && (Snapshot.sblock_oid s ==? 0x22) &&
  (Snapshot.create_time s ==? 1000) && (Snapshot.change_time s ==? 2000) && (Snapshot.inum s ==? 99) &&
  (Snapshot.flags s ==? 1) && (Snapshot.name s ==? str "snap1").

Definition parse_snap_metadata_clamps_overlong_name : bool :=
  let v := put (zeroed OFF_SNAP_NAME) (OFF_SNAP_NAME_LEN, to_le_bytes 2 50000) in
  let s := parse_snap_metadata 1 v in
  Snapshot.name s ==? [].

Definition parse_snap_metadata_truncated_value_reads_zero : bool :=
  let s := parse_snap_metadata 7 (zeroed 4) in
  (Snapshot.sblock_oid s ==? 0) && (Snapshot.create_time s ==? 0) && (Snapshot.name s ==? []).

Definition snap_meta_tree_subtype_is_snapmetatree : bool := snap_meta_tree_subtype ==? 0x10.

Definition jkey (ty oid : Z) : bytes := to_le_bytes 8 (Z.lor (Z.shiftl ty 60) oid).

Definition decode_snap_name_key_reads_name : bool :=
  let key := jkey 11 0 ++ to_le_bytes 2 6 ++ str "snap1" ++ [x00] in
  decode_snap_name_key key ==? Some (str "snap1").

Definition decode_snap_name_key_rejects_zero_and_overlong : bool :=
  let zero := jkey 11 0 ++ to_le_bytes 2 0 in
  let overlong := jkey 11 0 ++ to_le_bytes 2 200 ++ str "z" in
  (decode_snap_name_key zero ==? None) && (decode_snap_name_key overlong ==? None).

Lemma snapshot_tests_pass :
  [parse_snap_metadata_value_decodes_all_fields; parse_snap_metadata_clamps_overlong_name;
   parse_snap_metadata_truncated_value_reads_zero; snap_meta_tree_subtype_is_snapmetatree;
   decode_snap_name_key_reads_name; decode_snap_name_key_rejects_zero_and_overlong] = replicate 6 true.
Proof. vm_compute. reflexivity. Qed.
End SnapshotTests.

(** ** [encryption.rs] *)
Module EncryptionTests.
(** One turn of the builder's loop: header fields, then padding to sixteen bytes. *)
Definition keybag_entry_bytes (tag keylen : Z) : bytes :=
  let e := zeroed (24 + keylen) in
  let e := put e (16, to_le_bytes 2 tag) in
  let e := put e (18, to_le_bytes 2 keylen) in
  let padded := Z.ldiff (zlen e + 15) 15 in
  e ++ zeroed (padded - zlen e).

Definition keybag (entries : list (Z * Z)) : bytes :=
  let data := zeroed 16 in
  let data := put data (0, to_le_bytes 2 1) in
  let data := put data (2, to_le_bytes 2 (zlen entries)) in
  let data := fold_left (λ data e, data ++ keybag_entry_bytes e.1 e.2) entries data in
  let nbytes := zlen data in
  put data (4, to_le_bytes 4 nbytes).

Definition reads_volume_key_and_hint_tags : bool :=
  let kb := keybag [(0x02, 32); (0x04, 8)] in
  expect (read_keybag kb) (λ st,
    EncryptionState.encrypted st &&
    bool_decide (VolumeKey ∈ EncryptionState.tags_present st) &&
    bool_decide (VolumePassphraseHint ∈ EncryptionState.tags_present st) &&
    EncryptionState.has_passphrase_hint st).

Definition empty_keybag_reports_not_encrypted : bool :=
  let kb := keybag [] in
  expect (read_keybag kb) (λ st,
    negb (EncryptionState.encrypted st) && (EncryptionState.tags_present st ==? []) &&
    negb (EncryptionState.has_passphrase_hint st)).

Definition unknown_tag_maps_to_unknown_and_records_raw_value : bool :=
  let kb := keybag [(0x55, 4)] in
  expect (read_keybag kb) (λ st,
    bool_decide (Unknown ∈ EncryptionState.tags_present st) && (EncryptionState.unknown_tags st ==? [(0x55, 16)])).

Lemma encryption_tests_pass :
  [reads_volume_key_and_hint_tags; empty_keybag_reports_not_encrypted;
   unknown_tag_maps_to_unknown_and_records_raw_value] = replicate 3 true.
Proof. vm_compute. reflexivity. Qed.
End EncryptionTests.

(** ** [sealed.rs] *)
Module SealedTests.
Definition integrity_block (version flags hash_type broken_xid : Z) : bytes :=
  let b := zeroed 4096 in
  let b := put b (32, to_le_bytes 4 version) in
  let b := put b (36, to_le_bytes 4 flags) in
  let b := put b (40, to_le_bytes 4 hash_type) in
  let b := put b (48, to_le_bytes 8 broken_xid) in
  let cks := fletcher64_checksum b in
  put b (0, to_le_bytes 8 cks).

Definition parses_fields_including_broken_xid : bool :=
  let block := integrity_block 1 0 1 42 in
  expect (IntegrityMeta.parse block) (λ im,
    (IntegrityMeta.version im ==? 1) && (IntegrityMeta.hash_type im ==? 1) && (IntegrityMeta.broken_xid im ==? 42)).

Definition unbroken_seal_has_zero_broken_xid : bool :=
  let block := integrity_block 1 0 1 0 in
  expect (IntegrityMeta.parse block) (λ im, IntegrityMeta.broken_xid im ==? 0).

(** [block[i] ^= 0xff]. *)
Definition flip_byte (i : Z) (block : bytes) : bytes :=
  alter (λ b, byte_of (Z.lxor (byte_val b) 0xff)) (Z.to_nat i) block.

Definition rejects_corrupted_block : bool :=
  let block := flip_byte 100 (integrity_block 1 0 1 0) in
  match IntegrityMeta.parse block with Err _ => true | _ => false end.

Lemma sealed_tests_pass :
  [parses_fields_including_broken_xid; unbroken_seal_has_zero_broken_xid; rejects_corrupted_block] = replicate 3 true.
Proof. vm_compute. reflexivity. Qed.
End SealedTests.

(** ** [reaper.rs] *)
Module ReaperTests.
Definition BS : Z := 4096.

Definition stamp (img : bytes) (b : Z) : bytes :=
  let blk := take (Z.to_nat BS) (drop (Z.to_nat (b * BS)) img) in
  let cks := to_le_bytes 8 (fletcher64_checksum blk) in
  put img (b * BS, cks).

Definition put_u64 (img : bytes) (b off v : Z) : bytes := put img (b * BS + off, to_le_bytes 8 v).
Definition put_u32 (img : bytes) (b off v : Z) : bytes := put img (b * BS + off, to_le_bytes 4 v).

Definition walks_reap_list_entries_via_mappings : bool :=
  let img := zeroed (BS * 4) in
  let reaper_b := 1 in
  let list_b := 2 in
  let list_oid := 0x4001 in
  let img := put_u64 img reaper_b 48 list_oid in
  let img := put_u64 img reaper_b 56 list_oid in
  let img := stamp img reaper_b in
  let img := put_u64 img list_b 32 0 in
  let img := put_u32 img list_b 48 2 in
  let img := put_u32 img list_b (64 + 8) 0x4000000d in
  let img := put_u64 img list_b (64 + 24) 500 in
  let img := put_u32 img list_b (104 + 8) 0x40000002 in
  let img := put_u64 img list_b (104 + 24) 600 in
  let img := stamp img list_b in
  let mappings := [ {| CheckpointMapping.oid := list_oid; CheckpointMapping.paddr := list_b;
                       CheckpointMapping.obj_type := 0x80000012; CheckpointMapping.subtype := 0 |} ] in
  expect (eval (pending_objects reaper_b mappings BS) (cursor img)) (λ pending,
    let got := (λ p, (ReapPending.oid p, ReapPending.obj_type p)) <$> pending in
    got ==? [(500, 0x4000000d); (600, 0x40000002)]).

Definition reports_in_progress_object : bool :=
  let img := zeroed (BS * 2) in
  let reaper_b := 1 in
  let img := put_u64 img reaper_b 48 0 in
  let img := put_u32 img reaper_b 72 0x4000000d in
  let img := put_u64 img reaper_b 88 777 in
  let img := stamp img reaper_b in
  expect (eval (pending_objects reaper_b [] BS) (cursor img)) (λ pending,
    (zlen pending ==? 1) &&
    expect_some (get pending 0) (λ p, (ReapPending.oid p, ReapPending.obj_type p) ==? (777, 0x4000000d))).

Lemma reaper_tests_pass : [walks_reap_list_entries_via_mappings; reports_in_progress_object] = [true; true].
Proof. vm_compute. reflexivity. Qed.
End ReaperTests.
