(* ===== verification/ImageTests.v ===== *)
(** * The unit tests over whole images

    The tests of [snapshot.rs] over a synthetic image of a thousand blocks, and the tests
    of [snapshot.rs], [dir.rs] and [vfs.rs] over the repository's binary fixtures.  The
    synthetic images are too large to compute with, so the tests are proved: [image_block]
    reads one block of an image, and [walk_from_table] computes a walk from the few blocks
    it fetches.  A fixture is a parameter: each of its tests is a function of the bytes of
    the fixture, and the theorem says of which bytes the test passes. *)
From S2P Require Import Prelude Bytes Text Reader Object Container Node Build Walk BTree Omap Volume FsRecord Inode Dir FileData Snapshot Apfs ForensicVfs Vfs Mounted Layout Tests.
Import BTreeNodeHeader(is_leaf).

(** ** Blocks of an image *)

Lemma get_range_concat {A} bs (ls : list (list A)) i l :
  Forall (λ l, zlen l = bs) ls → ls !! i = Some l →
  get_range (concat ls) (Z.of_nat i * bs) (Z.of_nat i * bs + bs) = Some l.
Proof.
  intros Hall. revert i. induction Hall as [|x ls Hx Hall IH]; intros i Hi; [done|].
  pose proof (zlen_nonneg x). cbn [concat]. destruct i as [|i].
  - injection Hi as ->. apply get_range_here; lia.
  - rewrite get_range_skip by nia. rewrite <- (IH i Hi). f_equal; lia.
Qed.

(** The block an image holds at an index. *)
Definition image_slot (bs : Z) (blocks : list (Z * bytes)) (i : Z) : bytes :=
  match list_find (λ b, b.1 = i) (rev blocks) with Some (_, b) => b.2 | None => zeroed bs end.

Lemma image_block bs blocks i b :
  0 <= bs → Forall (λ b, zlen b.2 = bs) blocks → In (i, b) blocks → 0 <= i → image_slot bs blocks i = b →
  get_range (image bs blocks) (i * bs) (i * bs + bs) = Some b.
Proof.
  intros Hbs Hlen Hin Hi Hb.
  assert (Hmax : i <= foldr Z.max 0 blocks.*1).
  { clear Hlen Hb. induction blocks as [|x l IH]; [done|]. destruct Hin as [->|Hin]; cbn; [lia|].
    specialize (IH Hin). cbn in IH. lia. }
  unfold image. fold (image_slot bs blocks).
  pose proof (get_range_concat bs (image_slot bs blocks <$> seqZ 0 (foldr Z.max 0 blocks.*1 + 1)) (Z.to_nat i) b) as Hc.
  rewrite Z2Nat.id in Hc by lia. apply Hc.
  - apply Forall_fmap, Forall_forall. intros j _. cbn. unfold image_slot.
    destruct (list_find _ _) as [[n c]|] eqn:E; [|by apply zlen_zeroed].
    apply list_find_Some in E as (Hn & _ & _). eapply Forall_forall in Hlen; [exact Hlen|].
    apply list_elem_of_In, in_rev, list_elem_of_In. by eapply list_elem_of_lookup_2.
  - rewrite list_lookup_fmap, lookup_seqZ_lt by lia. cbn. f_equal. rewrite <- Hb. f_equal. lia.
Qed.

(** ** A walk computed from a table of its nodes *)
Section table.
Context (cap : Z) (mask : list Entry → list bool) (subtype : BTreeSubtype) {S : Type} (visit : S → bytes → bytes → S).

Fixpoint table_walk (fetch : Z → outcome (option bytes)) (budget : nat) (id : Z) (st : gset Z * S) : outcome (gset Z * S) :=
  match budget with
  | O => Err (CycleGuard cap)
  | Datatypes.S budget' =>
      let '(visited, s) := st in
      if decide (id ∈ visited) then Err (CycleGuard cap) else
      node ← fetch id;
      match node with
      | None => Ok ({[id]} ∪ visited, s)
      | Some buf =>
          match parse_node_header buf with
          | None => Ok ({[id]} ∪ visited, s)
          | Some hdr =>
              if is_leaf hdr
              then Ok ({[id]} ∪ visited, visit_all visit (node_entries buf subtype) s)
              else foldM (table_walk fetch budget') (child_id <$> children mask subtype buf) ({[id]} ∪ visited, s)
          end
      end
  end.

(** What a table says of an id, and [Panic] for the others. *)
Definition in_table (table : list (Z * outcome (option bytes))) (id : Z) : outcome (option bytes) :=
  match list_find (λ p, p.1 = id) table with Some (_, p) => p.2 | None => Panic end.

Lemma foldM_defined {A T} (f g : A → T → outcome T) l s :
  (∀ a s, f a s ≠ Panic → g a s = f a s) → foldM f l s ≠ Panic → foldM g l s = foldM f l s.
Proof.
  intros Hfg. revert s. induction l as [|a l IH]; intros s; cbn [foldM]; [done|].
  pose proof (Hfg a s) as Ha. destruct (f a s) as [s'|e|]; intros Hn; [|by rewrite Ha|done].
  rewrite Ha by done. apply IH, Hn.
Qed.

Lemma walk_from_table {R} `{LawfulReader R} fetch {Hst : ∀ id, Stable (fetch id)} (r : R) table n id st :
  Forall (λ p, eval (fetch p.1) r = p.2) table →
  table_walk (in_table table) n id st ≠ Panic →
  eval (walk fetch cap mask subtype visit n id st) r = table_walk (in_table table) n id st.
Proof.
  intros Htab. revert id st. induction n as [|n IH]; intros id [visited s]; [done|].
  rewrite eval_walk_S by done. cbn [table_walk]. case_decide; [done|].
  assert (Hf : in_table table id = Panic ∨ eval (fetch id) r = in_table table id).
  { unfold in_table. destruct (list_find _ table) as [[i p]|] eqn:E; [|by left]. right.
    apply list_find_Some in E as (Hp & <- & _). eapply Forall_forall in Htab; [exact Htab|].
    by eapply list_elem_of_lookup_2. }
  destruct Hf as [->| ->]; [done|]. destruct (in_table table id) as [[buf|]| |]; [|done..].
  cbn. destruct (parse_node_header buf) as [hdr|]; [|done].
  destruct (is_leaf hdr); [done|]. apply foldM_defined. intros k st' Hk. by apply IH.
Qed.
End table.

(** ** [snapshot.rs]: the builders *)
Module SnapshotImages.
Definition BS : Z := 4096.

Definition obj_hdr (block : bytes) (oid xid o_type o_subtype : Z) : bytes :=
  fold_left put
    [(8, to_le_bytes 8 oid); (16, to_le_bytes 8 xid); (24, to_le_bytes 4 o_type); (28, to_le_bytes 4 o_subtype)] block.

Definition apsb (oid xid omap_oid snap_meta_oid : Z) : bytes :=
  let b := zeroed BS in
  let b := put b (32, to_le_bytes 4 0x42535041) in
  let b := put b (128, to_le_bytes 8 omap_oid) in
  let b := put b (152, to_le_bytes 8 snap_meta_oid) in
  seal (obj_hdr b oid xid 0xd 0).

Definition parse_slice (buf : bytes) : outcome ApfsVolume.t :=
  block ← index_range buf (1026 * BS) (1027 * BS);
  ApfsVolume.parse block.

(** A volume whose snapshot tree is the leaf of the records. *)
Definition single_leaf_volume (snap_records : list Entry) : outcome (bytes * ApfsVolume.t) :=
  let snap_leaf := btree_node BS 50 7 true snap_records in
  let omap := omap_block BS 40 41 in
  let omap_tree := omap_leaf BS 41 [] in
  let apsb_b := apsb 1026 7 40 50 in
  let buf := image BS [(40, omap); (41, omap_tree); (50, snap_leaf); (1026, apsb_b)] in
  vol ← parse_slice buf;
  Ok (buf, vol).

Definition record (key value : bytes) : Entry := {| key := key; value := value |}.

(** ** The tests *)

Definition lists_snapshots_from_populated_leaf : bool :=
  let records :=
    [ record (snap_jkey 1 5) (snap_meta_val 0x200 1000 (str "snapA"));
      record (snap_jkey 1 9) (snap_meta_val 0x300 2000 (str "snapB"));
      record (snap_name_key (str "snapA")) (to_le_bytes 8 5) ] in
  expect (single_leaf_volume records) (λ '(buf, vol),
    expect (eval (list_snapshots vol BS) (cursor buf)) (λ snaps,
      (zlen snaps ==? 2) &&
      expect_some (get snaps 0) (λ s,
        (Snapshot.xid s ==? 5) && (Snapshot.name s ==? str "snapA") &&
        (Snapshot.sblock_oid s ==? 0x200) && (Snapshot.create_time s ==? 1000)) &&
      expect_some (get snaps 1) (λ s, (Snapshot.xid s ==? 9) && (Snapshot.name s ==? str "snapB")))).

Definition resolves_snap_name_from_populated_leaf : bool :=
  let records :=
    [ record (snap_jkey 1 5) (snap_meta_val 0x200 1000 (str "snapA"));
      record (snap_name_key (str "snapA")) (to_le_bytes 8 5);
      record (snap_name_key (str "snapB")) (to_le_bytes 8 9) ] in
  expect (single_leaf_volume records) (λ '(buf, vol),
    let calls : M Cursor (option Z * option Z * option Z) :=
      b ← resolve_snapshot_xid vol (str "snapB") BS;
      a ← resolve_snapshot_xid vol (str "snapA") BS;
      absent ← resolve_snapshot_xid vol (str "absent") BS;
      mret (b, a, absent) in
    expect (eval calls (cursor buf)) (λ answers, answers ==? (Some 9, Some 5, None))).

Definition walks_index_node_resolving_child_virtually : bool :=
  let leaf := btree_node BS 60 7 true [record (snap_jkey 1 3) (snap_meta_val 0x99 500 (str "s"))] in
  let index := btree_node BS 50 7 false [record (snap_jkey 1 3) (to_le_bytes 8 1500)] in
  let omap := omap_block BS 40 41 in
  let omap_tree := omap_leaf BS 41 [(1500, 7, 60)] in
  let apsb_b := apsb 1026 7 40 50 in
  let buf := image BS [(40, omap); (41, omap_tree); (50, index); (60, leaf); (1026, apsb_b)] in
  expect (parse_slice buf) (λ vol,
    expect (eval (list_snapshots vol BS) (cursor buf)) (λ snaps,
      (zlen snaps ==? 1) &&
      expect_some (get snaps 0) (λ s, (Snapshot.xid s ==? 3) && (Snapshot.sblock_oid s ==? 0x99)))).

Definition is_checksum_mismatch {A} (o : outcome A) : bool :=
  match o with Err (ChecksumMismatch _ _ _) => true | _ => false end.
Definition is_cycle_guard {A} (o : outcome A) : bool :=
  match o with Err (CycleGuard _) => true | _ => false end.

Definition snap_tree_checksum_mismatch_is_loud : bool :=
  let records := [record (snap_jkey 1 5) (snap_meta_val 0x200 1000 (str "snapA"))] in
  expect (single_leaf_volume records) (λ '(buf, vol),
    let buf := SealedTests.flip_byte (50 * BS + 100) buf in
    is_checksum_mismatch (eval (list_snapshots vol BS) (cursor buf))).

Definition snap_tree_cycle_is_rejected : bool :=
  let index := btree_node BS 50 7 false [record (snap_jkey 1 3) (to_le_bytes 8 1500)] in
  let omap := omap_block BS 40 41 in
  let omap_tree := omap_leaf BS 41 [(1500, 7, 50)] in
  let apsb_b := apsb 1026 7 40 50 in
  let buf := image BS [(40, omap); (41, omap_tree); (50, index); (1026, apsb_b)] in
  expect (parse_slice buf) (λ vol, is_cycle_guard (eval (list_snapshots vol BS) (cursor buf))).

(** ** Running them *)

Definition test_volume : ApfsVolume.t :=
  Eval vm_compute in match ApfsVolume.parse (apsb 1026 7 40 50) with Ok v => v | _ => demo_volume end.

Section run.
Context (buf node : bytes) (maps : list (Z * Z * Z)).
Notation r := (cursor buf).
Context (H40 : eval (read_at (40 * 4096) 4096) r = Ok (omap_block 4096 40 41)).
Context (H41 : eval (read_at (41 * 4096) 4096) r = Ok (omap_leaf 4096 41 maps)).
Context (H50 : eval (read_at (50 * 4096) 4096) r = Ok node).
Notation om := (format_om 41).

Lemma run_read_omap : eval (read_omap test_volume 4096) r = Ok om.
Proof.
  unfold read_omap. assert (Ha : saturating_mul (ApfsVolume.omap_oid test_volume) 4096 = 40 * 4096) by reflexivity.
  rewrite Ha, eval_bind by solve_stable. rewrite H40, bind_Ok, eval_lift. vm_compute. reflexivity.
Qed.

Lemma run_fetch_root :
  eval (fetch_snap_node om 7 4096 50 50) r = if cksum_ok node then Ok (Some node) else Err (checksum_error 50 node).
Proof.
  unfold fetch_snap_node, fetch_snap. rewrite bool_decide_true by done.
  rewrite eval_bind by solve_stable. rewrite eval_bind by solve_stable. rewrite eval_ret, bind_Ok. cbv zeta.
  assert (Ha : saturating_mul 50 4096 = 50 * 4096) by reflexivity.
  rewrite Ha, eval_bind by solve_stable. rewrite H50, bind_Ok. by destruct (cksum_ok node).
Qed.

Lemma run_fetch_child oid p child :
  eval (resolve om oid 7 4096) r = Ok (OmapEntry.mk oid 7 p 0 0) → oid ≠ 50 → 0 <= p <= 65536 →
  eval (read_at (p * 4096) 4096) r = Ok child → cksum_ok child = true →
  eval (fetch_snap_node om 7 4096 50 oid) r = Ok (Some child).
Proof.
  intros Hr Hne Hp Hc Hck. unfold fetch_snap_node, fetch_snap. rewrite bool_decide_false by done.
  rewrite eval_bind by solve_stable. rewrite eval_bind by solve_stable. rewrite eval_bind by solve_stable.
  rewrite Hr, bind_Ok, eval_ret, bind_Ok. cbv zeta. cbn [OmapEntry.paddr].
  assert (Ha : saturating_mul p 4096 = p * 4096) by (unfold saturating_mul, u64_max; lia).
  rewrite Ha, eval_bind by solve_stable. by rewrite Hc, bind_Ok, Hck.
Qed.

(** The walk, from the table of the nodes it fetches. *)
Lemma run_records {S} (visit : S → bytes → bytes → S) s table res :
  Forall (λ p, eval (fetch_snap_node om 7 4096 50 p.1) r = p.2) table →
  table_walk MAX_SNAP_TREE_DEPTH all_children FsTree visit (in_table table) 64 50 (∅, s) = res → res ≠ Panic →
  eval (for_each_snap_record test_volume 4096 visit s) r = (st ← res; Ok st.2).
Proof.
  intros Htab Hres Hn. pose proof (for_each_snap_record_walk test_volume 4096 r om visit s run_read_omap) as E. cbv zeta in E. rewrite E.
  assert (Ew : eval (walk (fetch_snap_node om 7 4096 50) MAX_SNAP_TREE_DEPTH all_children FsTree visit 64 50 (∅, s)) r = res).
  { rewrite <- Hres in *. exact (walk_from_table _ all_children FsTree visit (fetch_snap_node om 7 4096 50) r table 64 50 (∅, s) Htab Hn). }
  by rewrite <- Ew.
Qed.

Lemma run_list table res :
  Forall (λ p, eval (fetch_snap_node om 7 4096 50 p.1) r = p.2) table →
  table_walk MAX_SNAP_TREE_DEPTH all_children FsTree snapshots_visit (in_table table) 64 50 (∅, []) = res → res ≠ Panic →
  eval (list_snapshots test_volume 4096) r = (out ← (st ← res; Ok st.2); Ok (sort_by_key Snapshot.xid out)).
Proof.
  intros Htab Hres Hn. unfold list_snapshots. rewrite eval_bind by solve_stable.
  by rewrite (run_records _ _ _ _ Htab Hres Hn).
Qed.
Lemma run_resolve oid e :
  node_used true true (mappings maps) <= 4096 →
  StronglySorted omap_lt ((λ e, decode_omap_key (key e)) <$> mappings maps) →
  visit_all (omap_visit oid 7) (mappings maps) None = Some e →
  eval (resolve om oid 7 4096) r = Ok e.
Proof.
  intros Hu Hs He. assert (Ht : omap_tree 4096 r (Leaf 41 (mappings maps))) by (by apply omap_leaf_tree).
  rewrite (resolve_landing om oid 7 4096 r _ Ht eq_refl). cbn [entries]. by rewrite He.
Qed.
End run.

(** The blocks of the two shapes of image. *)
Section images.
Context (o t n l a : bytes).
Context (Ho : zlen o = BS) (Ht : zlen t = BS) (Hn : zlen n = BS) (Hl : zlen l = BS) (Ha : zlen a = BS).
Notation four := (image BS [(40, o); (41, t); (50, n); (1026, a)]).
Notation five := (image BS [(40, o); (41, t); (50, n); (60, l); (1026, a)]).

Ltac read_block :=
  rewrite cursor_read_at; erewrite image_block;
    [reflexivity|done|by repeat constructor|simpl; tauto|done|reflexivity].

Lemma read_four :
  eval (read_at (40 * BS) BS) (cursor four) = Ok o ∧ eval (read_at (41 * BS) BS) (cursor four) = Ok t ∧
  eval (read_at (50 * BS) BS) (cursor four) = Ok n ∧ parse_slice four = ApfsVolume.parse a.
Proof. 
  split; [read_block|]. split; [read_block|]. split; [read_block|].
  unfold parse_slice, index_range. change (1027 * BS) with (1026 * BS + BS). erewrite image_block;
    [reflexivity|done|by repeat constructor|simpl; tauto|done|reflexivity].
Qed.

Lemma read_five :
  eval (read_at (40 * BS) BS) (cursor five) = Ok o ∧ eval (read_at (41 * BS) BS) (cursor five) = Ok t ∧
  eval (read_at (50 * BS) BS) (cursor five) = Ok n ∧ eval (read_at (60 * BS) BS) (cursor five) = Ok l ∧
  parse_slice five = ApfsVolume.parse a.
Proof. 
  split; [read_block|]. split; [read_block|]. split; [read_block|]. split; [read_block|].
  unfold parse_slice, index_range. change (1027 * BS) with (1026 * BS + BS). erewrite image_block;
    [reflexivity|done|by repeat constructor|simpl; tauto|done|reflexivity].
Qed.
End images.

Lemma apsb_parses : zlen (apsb 1026 7 40 50) = BS ∧ ApfsVolume.parse (apsb 1026 7 40 50) = Ok test_volume.
Proof. split; vm_compute; reflexivity. Qed.

Lemma block_lengths : zlen (omap_block BS 40 41) = BS ∧ zlen (omap_leaf BS 41 []) = BS.
Proof. split; vm_compute; reflexivity. Qed.

(** The image of a snapshot leaf. *)
Lemma leaf_image records :
  zlen (btree_node BS 50 7 true records) = BS →
  ∃ buf, single_leaf_volume records = Ok (buf, test_volume) ∧
    eval (read_at (40 * 4096) 4096) (cursor buf) = Ok (omap_block 4096 40 41) ∧
    eval (read_at (41 * 4096) 4096) (cursor buf) = Ok (omap_leaf 4096 41 []) ∧
    eval (read_at (50 * 4096) 4096) (cursor buf) = Ok (btree_node 4096 50 7 true records).
Proof.
  destruct apsb_parses as [Ha Hp], block_lengths as [Ho Ht]. unfold single_leaf_volume. cbv zeta.
  revert Ha Hp Ho Ht. change BS with 4096.
  generalize (btree_node 4096 50 7 true records) (omap_block 4096 40 41) (omap_leaf 4096 41 []) (apsb 1026 7 40 50).
  intros n o t a Ha Hp Ho Ht Hn. pose proof (read_four o t n a Ho Ht Hn Ha) as (E40 & E41 & E50 & Es).
  change BS with 4096 in *.
  exists (image 4096 [(40, o); (41, t); (50, n); (1026, a)]). rewrite Es, Hp, bind_Ok.
  split; [exact eq_refl|exact (conj E40 (conj E41 E50))].
Qed.

Lemma leaf_tree buf records :
  eval (read_at (40 * 4096) 4096) (cursor buf) = Ok (omap_block 4096 40 41) →
  eval (read_at (50 * 4096) 4096) (cursor buf) = Ok (btree_node 4096 50 7 true records) →
  node_used true false records <= 4096 →
  snap_tree test_volume 4096 (cursor buf) (format_om 41) (Leaf 50 records).
Proof.
  intros H40 H50 Hu. split; [by apply run_read_omap|reflexivity| |split; [apply NoDup_singleton|vm_compute; lia]].
  apply (stored_encoded_leaf _ _ _ _ 4096 50 7 0x40000002 0x10 true false 0 records);
    [|done|exact Hu|done|by apply Forall_forall].
  change (ApfsVolume.xid test_volume) with 7. change (ApfsVolume.snap_meta_tree_oid test_volume) with 50.
  rewrite (run_fetch_root _ _ H50). unfold btree_node. by rewrite encode_node_cksum.
Qed.

Lemma lists_snapshots_from_populated_leaf_passes : lists_snapshots_from_populated_leaf = true.
Proof.
  unfold lists_snapshots_from_populated_leaf. cbv zeta. set (records := [_; _; _]).
  destruct (leaf_image records) as (buf & -> & H40 & _ & H50); [vm_compute; reflexivity|]. cbn [expect].
  rewrite (list_snapshots_eval test_volume 4096 (cursor buf) (format_om 41) (Leaf 50 records)).
  - vm_compute. reflexivity.
  - apply leaf_tree; [exact H40|exact H50|vm_compute; discriminate].
Qed.

Lemma resolves_snap_name_from_populated_leaf_passes : resolves_snap_name_from_populated_leaf = true.
Proof.
  unfold resolves_snap_name_from_populated_leaf. cbv zeta. set (records := [_; _; _]).
  destruct (leaf_image records) as (buf & -> & H40 & _ & H50); [vm_compute; reflexivity|]. cbn [expect].
  assert (Hname : ∀ name, eval (resolve_snapshot_xid test_volume name 4096) (cursor buf) =
    Ok (visit_all (snap_name_visit name) records None)).
  { intros name. apply (for_each_snap_record_eval test_volume 4096 (cursor buf) (format_om 41) (Leaf 50 records)).
    apply leaf_tree; [exact H40|exact H50|vm_compute; discriminate]. }
  assert (Hst : ∀ name, Stable (resolve_snapshot_xid (R := Cursor) test_volume name 4096))
    by (intros; apply Stable_for_each_snap_record).
  change BS with 4096. rewrite eval_bind by solve_stable. rewrite Hname, bind_Ok.
  rewrite eval_bind by solve_stable. rewrite Hname, bind_Ok.
  rewrite eval_bind by solve_stable. rewrite Hname, bind_Ok. vm_compute. reflexivity.
Qed.

(** The image of a snapshot index over the virtual id 1500. *)
Definition index_node : bytes := btree_node BS 50 7 false [record (snap_jkey 1 3) (to_le_bytes 8 1500)].

Lemma index_length : zlen index_node = BS ∧ cksum_ok index_node = true.
Proof. split; vm_compute; reflexivity. Qed.

Lemma walks_index_node_resolving_child_virtually_passes : walks_index_node_resolving_child_virtually = true.
Proof.
  unfold walks_index_node_resolving_child_virtually. cbv zeta. fold index_node.
  destruct apsb_parses as [Ha Hp], block_lengths as [Ho _], index_length as [Hi Hick].
  set (maps := [(1500, 7, 60)]). set (leaf := btree_node BS 60 7 true _).
  assert (Ht : zlen (omap_leaf BS 41 maps) = BS) by (vm_compute; reflexivity).
  assert (Hl : zlen leaf = BS) by (vm_compute; reflexivity).
  assert (Hlck : cksum_ok leaf = true) by (vm_compute; reflexivity).
  pose proof (read_five _ _ _ _ _ Ho Ht Hi Hl Ha) as (E40 & E41 & E50 & E60 & Es).
  rewrite Es, Hp. cbn [expect]. revert E40 E41 E50 E60. generalize (image BS [(40, omap_block BS 40 41);
    (41, omap_leaf BS 41 maps); (50, index_node); (60, leaf); (1026, apsb 1026 7 40 50)]). intros buf E40 E41 E50 E60.
  assert (Hres : eval (resolve (format_om 41) 1500 7 4096) (cursor buf) = Ok (OmapEntry.mk 1500 7 60 0 0)).
  { apply (run_resolve buf maps E41); [vm_compute; discriminate|repeat constructor|vm_compute; reflexivity]. }
  change BS with 4096 in *. erewrite (run_list buf E40 [(50, Ok (Some index_node)); (1500, Ok (Some leaf))]);
    [|constructor; [|constructor; [|constructor]]; cbn [fst snd]|reflexivity|].
  - vm_compute. reflexivity.
  - rewrite (run_fetch_root _ _ E50), Hick. done.
  - exact (run_fetch_child buf 1500 60 leaf Hres ltac:(discriminate) ltac:(lia) E60 Hlck).
  - vm_compute. discriminate.
Qed.

Lemma snap_tree_cycle_is_rejected_passes : snap_tree_cycle_is_rejected = true.
Proof.
  unfold snap_tree_cycle_is_rejected. cbv zeta. fold index_node.
  destruct apsb_parses as [Ha Hp], block_lengths as [Ho _], index_length as [Hi Hick].
  set (maps := [(1500, 7, 50)]).
  assert (Ht : zlen (omap_leaf BS 41 maps) = BS) by (vm_compute; reflexivity).
  pose proof (read_four _ _ _ _ Ho Ht Hi Ha) as (E40 & E41 & E50 & Es).
  rewrite Es, Hp. cbn [expect]. revert E40 E41 E50. generalize (image BS [(40, omap_block BS 40 41);
    (41, omap_leaf BS 41 maps); (50, index_node); (1026, apsb 1026 7 40 50)]). intros buf E40 E41 E50.
  assert (Hres : eval (resolve (format_om 41) 1500 7 4096) (cursor buf) = Ok (OmapEntry.mk 1500 7 50 0 0)).
  { apply (run_resolve buf maps E41); [vm_compute; discriminate|repeat constructor|vm_compute; reflexivity]. }
  change BS with 4096 in *. erewrite (run_list buf E40 [(50, Ok (Some index_node)); (1500, Ok (Some index_node))]);
    [|constructor; [|constructor; [|constructor]]; cbn [fst snd]|reflexivity|].
  - vm_compute. reflexivity.
  - rewrite (run_fetch_root _ _ E50), Hick. done.
  - exact (run_fetch_child buf 1500 50 index_node Hres ltac:(discriminate) ltac:(lia) E50 Hick).
  - vm_compute. discriminate.
Qed.

(** A byte changed inside one block. *)
Lemma read_flipped buf i j k b :
  0 <= i → 0 <= j → 0 <= k < 4096 → get_range buf (j * 4096) (j * 4096 + 4096) = Some b →
  get_range (SealedTests.flip_byte (i * 4096 + k) buf) (j * 4096) (j * 4096 + 4096) =
    Some (if j =? i then SealedTests.flip_byte k b else b).
Proof.
  intros Hi Hj Hk [[Hr Hz] ->]%get_range_Some. unfold SealedTests.flip_byte. set (f := λ b, _).
  apply get_range_Some. unfold zlen in *. rewrite length_alter. split; [lia|].
  set (n := Z.to_nat (j * 4096 + 4096 - j * 4096)). set (m := Z.to_nat (j * 4096)).
  assert (Hn : n = Z.to_nat 4096) by lia. destruct (Z.eqb_spec j i) as [->|Hne].
  - rewrite drop_alter_ge, take_alter_lt by lia. do 2 f_equal. lia.
  - destruct (decide (j < i)) as [Hlt|Hge].
    + by rewrite drop_alter_ge, take_alter_ge by lia.
    + by rewrite drop_alter_lt by lia.
Qed.

Lemma snap_tree_checksum_mismatch_is_loud_passes : snap_tree_checksum_mismatch_is_loud = true.
Proof.
  unfold snap_tree_checksum_mismatch_is_loud. cbv zeta. set (records := [_]).
  destruct (leaf_image records) as (buf & -> & H40 & _ & H50); [vm_compute; reflexivity|]. cbn [expect].
  set (node := btree_node 4096 50 7 true records) in *.
  assert (F40 : eval (read_at (40 * 4096) 4096) (cursor (SealedTests.flip_byte (50 * 4096 + 100) buf)) = Ok (omap_block 4096 40 41)).
  { rewrite cursor_read_at in *. destruct (get_range buf (40 * 4096) _) as [b|] eqn:E; [|done]. injection H40 as <-.
    by rewrite (read_flipped buf 50 40 100 b). }
  assert (F50 : eval (read_at (50 * 4096) 4096) (cursor (SealedTests.flip_byte (50 * 4096 + 100) buf)) = Ok (SealedTests.flip_byte 100 node)).
  { rewrite cursor_read_at in *. destruct (get_range buf (50 * 4096) _) as [b|] eqn:E; [|done]. injection H50 as <-.
    by rewrite (read_flipped buf 50 50 100 b). }
  change BS with 4096. revert F40 F50. generalize (SealedTests.flip_byte (50 * 4096 + 100) buf). intros data F40 F50.
  assert (Hck : cksum_ok (SealedTests.flip_byte 100 node) = false) by (vm_compute; reflexivity).
  erewrite (run_list data F40 [(50, Err (checksum_error 50 (SealedTests.flip_byte 100 node)))]);
    [|constructor; [|constructor]; cbn [fst snd]|reflexivity|].
  - vm_compute. reflexivity.
  - rewrite (run_fetch_root _ _ F50), Hck. done.
  - vm_compute. discriminate.
Qed.
End SnapshotImages.

(** ** [snapshot.rs] over [apfs_content.bin] *)
Module MountFixture.
Section fixture.
Context (P4_CONTENT : bytes).

Definition P4_BLOCK_SIZE : Z := 4096.
Definition P4_APSB_BLOCK : Z := 438.

Definition snapshot_pointing_at (sblock_oid : Z) : Snapshot.t :=
  {| Snapshot.xid := 0;
     Snapshot.name := str "synthetic-pointer";
     Snapshot.create_time := 0;
     Snapshot.change_time := 0;
     Snapshot.sblock_oid := sblock_oid;
     Snapshot.extentref_tree_oid := 0;
     Snapshot.inum := 0;
     Snapshot.flags := 0 |}.

(** [ApfsVolume::parse(&P4_CONTENT[start..start + P4_BLOCK_SIZE])]. *)
Definition parse_apsb : outcome ApfsVolume.t :=
  let start := P4_APSB_BLOCK * P4_BLOCK_SIZE in
  block ← index_range P4_CONTENT start (start + P4_BLOCK_SIZE);
  ApfsVolume.parse block.

Definition mount_snapshot_reads_sblock_as_volume : bool :=
  let r := cursor P4_CONTENT in
  expect parse_apsb (λ live,
    let snap := snapshot_pointing_at P4_APSB_BLOCK in
    expect (eval (mount_snapshot live snap P4_BLOCK_SIZE) r) (λ mounted,
      (ApfsVolume.oid mounted ==? ApfsVolume.oid live) &&
      (ApfsVolume.xid mounted ==? ApfsVolume.xid live) &&
      (ApfsVolume.omap_oid mounted ==? ApfsVolume.omap_oid live) &&
      (ApfsVolume.root_tree_oid mounted ==? ApfsVolume.root_tree_oid live) &&
      (ApfsVolume.name mounted ==? ApfsVolume.name live) &&
      (ApfsVolume.name mounted ==? str "APFSP4"))).

Definition mount_snapshot_grafts_live_omap_over_snapshot_zero : bool :=
  let r := cursor P4_CONTENT in
  expect parse_apsb (λ block438,
    let live := ApfsVolume.with_omap_oid block438 999111 in
    let snap := snapshot_pointing_at P4_APSB_BLOCK in
    expect (eval (mount_snapshot live snap P4_BLOCK_SIZE) r) (λ mounted,
      (ApfsVolume.omap_oid mounted ==? 999111) &&
      (ApfsVolume.xid mounted ==? ApfsVolume.xid block438) &&
      (ApfsVolume.root_tree_oid mounted ==? ApfsVolume.root_tree_oid block438))).

Definition mount_snapshot_rejects_non_apsb_block : bool :=
  let r := cursor P4_CONTENT in
  expect parse_apsb (λ live,
    let snap := snapshot_pointing_at 0 in
    match eval (mount_snapshot live snap P4_BLOCK_SIZE) r with
    | Err (UnexpectedObjectType _ _ _) => true
    | _ => false
    end).

(** What the tests take from the fixture: a volume named "APFSP4" in block 438, and in
    block zero an object of another type. *)
Context (live : ApfsVolume.t) (block0 : bytes) (hdr : ObjPhys.t).
Context (Hlive : parse_apsb = Ok live) (Hname : ApfsVolume.name live = str "APFSP4").
Context (H0 : get_range P4_CONTENT 0 P4_BLOCK_SIZE = Some block0) (Hhdr : ObjPhys.parse block0 = Some hdr).
Context (Htype : ObjPhys.obj_type hdr ≠ Volume.OBJECT_TYPE_FS).

Lemma mount_apsb v :
  eval (mount_snapshot v (snapshot_pointing_at P4_APSB_BLOCK) P4_BLOCK_SIZE) (cursor P4_CONTENT) =
  Ok (ApfsVolume.with_omap_oid live (ApfsVolume.omap_oid v)).
Proof.
  unfold parse_apsb, index_range in Hlive. cbv zeta in Hlive.
  destruct (get_range P4_CONTENT _ _) as [block|] eqn:Hb; [|done]. cbn in Hlive.
  unfold mount_snapshot. rewrite eval_bind by solve_stable.
  assert (Ha : saturating_mul (Snapshot.sblock_oid (snapshot_pointing_at P4_APSB_BLOCK)) P4_BLOCK_SIZE
    = P4_APSB_BLOCK * P4_BLOCK_SIZE) by reflexivity.
  rewrite Ha, cursor_read_at, Hb, bind_Ok, eval_bind by solve_stable. by rewrite eval_lift, Hlive.
Qed.

Lemma mount_fixture_tests_pass :
  [mount_snapshot_reads_sblock_as_volume; mount_snapshot_grafts_live_omap_over_snapshot_zero;
   mount_snapshot_rejects_non_apsb_block] = [true; true; true].
Proof.
  unfold mount_snapshot_reads_sblock_as_volume, mount_snapshot_grafts_live_omap_over_snapshot_zero,
    mount_snapshot_rejects_non_apsb_block. cbv zeta. rewrite Hlive. cbn [expect]. rewrite !mount_apsb.
  assert (Hrej : ∃ e f g, eval (mount_snapshot live (snapshot_pointing_at 0) P4_BLOCK_SIZE) (cursor P4_CONTENT)
    = Err (UnexpectedObjectType e f g)).
  { unfold mount_snapshot. rewrite eval_bind by solve_stable.
    assert (Ha : saturating_mul (Snapshot.sblock_oid (snapshot_pointing_at 0)) P4_BLOCK_SIZE = 0) by reflexivity.
    rewrite Ha, cursor_read_at, Z.add_0_l, H0, bind_Ok, eval_bind by solve_stable. rewrite eval_lift.
    unfold ApfsVolume.parse. destruct (zlen block0 <? _); [by eexists _, _, _|]. rewrite Hhdr.
    rewrite (proj2 (Z.eqb_neq _ _) Htype). by eexists _, _, _. }
  destruct Hrej as (e & f & g & ->). cbn [expect]. unfold ApfsVolume.with_omap_oid. cbn.
  rewrite Hname, !bool_decide_true by done. done.
Qed.
End fixture.
End MountFixture.

(** ** [dir.rs] over [apfs_fstree.bin] *)
Module DirFixture.
Section fixture.
Context (FSTREE : bytes).

Definition FSTREE_BLOCK_SIZE : Z := 4096.
Definition FSTREE_APSB_BLOCK : Z := 371.

Definition fstree_volume : outcome ApfsVolume.t :=
  b ← index_range FSTREE (FSTREE_APSB_BLOCK * FSTREE_BLOCK_SIZE) ((FSTREE_APSB_BLOCK + 1) * FSTREE_BLOCK_SIZE);
  ApfsVolume.parse b.

(** The closure both walks run. *)
Definition push_key (oid : Z) (out : list bytes) (k _v : bytes) : list bytes :=
  if (decode_jkey (le_u64 k 0)).1 =? oid then out ++ [k] else out.

Definition keys_for_oid_full (oid : Z) : outcome (list bytes) :=
  let r := cursor FSTREE in
  vol ← fstree_volume;
  eval (walk_fs_tree vol FSTREE_BLOCK_SIZE None (push_key oid) []) r.

Definition keys_for_oid_keyed (oid : Z) : outcome (list bytes) :=
  let r := cursor FSTREE in
  vol ← fstree_volume;
  eval (for_each_fs_record_for_oid vol FSTREE_BLOCK_SIZE oid (push_key oid) []) r.

Definition same_keys (oid : Z) : bool :=
  expect (keys_for_oid_keyed oid) (λ keyed, expect (keys_for_oid_full oid) (λ full, keyed ==? full)).

Definition keyed_walk_matches_full_walk_on_real_fs_tree : bool :=
  forallb same_keys [2; 18; 22] &&
  expect (keys_for_oid_keyed 999999) (λ keys, keys ==? []) && same_keys 999999.

(** What the test takes from the fixture: a volume whose tree is well formed and has no
    record of the object 999999. *)
Context (vol : ApfsVolume.t) (om : ObjectMap.t) (t : tree).
Context (Hvol : fstree_volume = Ok vol) (Ht : fs_tree vol FSTREE_BLOCK_SIZE (cursor FSTREE) om t).
Context (Hnone : Forall (λ e, key_oid (key e) ≠ 999999) (entries t)).

Lemma push_key_other oid s e : key_oid (key e) ≠ oid → push_key oid s (key e) (value e) = s.
Proof. intros Hne. unfold push_key. change (decode_jkey (le_u64 (key e) 0)).1 with (key_oid (key e)). by rewrite (proj2 (Z.eqb_neq _ _) Hne). Qed.

Lemma keys_agree oid :
  keys_for_oid_keyed oid = Ok (visit_all (push_key oid) (entries t) []) ∧ keys_for_oid_full oid = keys_for_oid_keyed oid.
Proof.
  unfold keys_for_oid_full, keys_for_oid_keyed. rewrite Hvol, !bind_Ok.
  rewrite (full_walk vol FSTREE_BLOCK_SIZE (cursor FSTREE) om t Ht).
  rewrite (keyed_walk vol FSTREE_BLOCK_SIZE (cursor FSTREE) om t Ht); [done|]. intros. by apply push_key_other.
Qed.

Lemma dir_fixture_test_passes : keyed_walk_matches_full_walk_on_real_fs_tree = true.
Proof.
  assert (Hsame : ∀ oid, same_keys oid = true).
  { intros oid. unfold same_keys. destruct (keys_agree oid) as [E ->]. rewrite E. cbn [expect]. by rewrite bool_decide_true. }
  unfold keyed_walk_matches_full_walk_on_real_fs_tree. cbn [forallb]. rewrite !Hsame. destruct (keys_agree 999999) as [-> _].
  cbn [expect andb]. rewrite bool_decide_true; [done|].
  induction Hnone as [|e es He _ IH]; [done|]. rewrite visit_all_cons, push_key_other; [|done].
  apply IH. by apply Forall_cons in Hnone as [_ ?].
Qed.
End fixture.
End DirFixture.

(** ** [vfs.rs] over [apfs_content.bin] *)
Module VfsFixture.
Section fixture.
Context `{ForensicVfs} (zlib : bytes → option bytes) (lzvn : bytes → Z → option bytes) (lzfse : bytes → option bytes).
Context (CONTENT : bytes).

(** [expect] on the answer of an operation, and the handle it leaves. *)
Definition answered {A} (run : vfs_outcome A * ApfsFs.t Cursor) (body : A → ApfsFs.t Cursor → bool) : bool :=
  match run with (VOk a, fs) => body a fs | _ => false end.

Definition live_xid : outcome Z :=
  fs ← ApfsFs.open (cursor CONTENT);
  Ok (ApfsFs.root_xid fs).

Definition p4_fixture_lists_zero_snapshots : bool :=
  expect (ApfsFs.snapshots (cursor CONTENT)) (λ snaps, match snaps with [] => true | _ => false end).

Definition open_snapshot_at_live_xid_reads_plain_txt : bool :=
  expect live_xid (λ live_xid,
  expect (ApfsFs.open_snapshot (cursor CONTENT) live_xid) (λ fs,
    let root := Vfs.root fs in
    answered (Vfs.run_access (Vfs.lookup fs root (str "plain.txt")) fs) (λ found fs,
    expect_some found (λ found,
    let buf := zeroed 64 in
    answered (Vfs.run_access (Vfs.read_at zlib lzvn lzfse fs found StreamId.Default 0 buf) fs) (λ '(n, _) _, 0 <? n))))).

Definition open_snapshot_unknown_xid_fails_loud : bool :=
  expect live_xid (λ live_xid,
    let bogus := (live_xid + 0xdeadbeef) `mod` 2 ^ 64 in
    match ApfsFs.open_snapshot (cursor CONTENT) bogus with
    | Err (SnapshotNotFound xid) => xid =? bogus
    | _ => false
    end).

(** What the tests take from the fixture: a first volume without snapshots, whose root
    directory has a file "plain.txt" with content. *)
Context (live : ApfsVolume.t) (bs oid : Z) (inode : Inode.t) (data : bytes).
Context (Hfirst : first_volume (cursor CONTENT) live bs).
Context (Hsnaps : eval (list_snapshots live bs) (cursor CONTENT) = Ok []).
Context (Hplain : eval (lookup_child live ROOT_DIR_INO_NUM (str "plain.txt") bs) (cursor CONTENT) = Ok (Some oid)).
Context (Hinode : eval (load_inode live oid bs) (cursor CONTENT) = Ok inode).
Context (Hdata : eval (read_data zlib lzvn lzfse live inode bs) (cursor CONTENT) = Ok data) (Hlen : data ≠ []).

Lemma live_xid_eval : live_xid = Ok (ApfsVolume.xid live) ∧
  ∃ r', same_source r' (cursor CONTENT) ∧
    ApfsFs.open_snapshot (cursor CONTENT) (ApfsVolume.xid live) = Ok (ApfsFs.mount r' live bs (ApfsVolume.xid live)).
Proof.
  destruct (open_snapshot_cases _ live bs (ApfsVolume.xid live) Hfirst) as (r' & Hr & Hs & Ho).
  unfold live_xid. rewrite (Ho eq_refl), bind_Ok. split; [done|]. exists r'. by rewrite Hs, Z.eqb_refl.
Qed.

Lemma zero_snapshots_passes : p4_fixture_lists_zero_snapshots = true.
Proof.
  unfold p4_fixture_lists_zero_snapshots, ApfsFs.snapshots.
  destruct (open_first_volume_Ok _ live bs Hfirst) as (r1 & -> & Hr). rewrite bind_Ok, owned_eval.
  by rewrite (stable_value (Stable := Stable_list_snapshots _ _) r1 (cursor CONTENT) Hr), Hsnaps.
Qed.

Lemma unknown_xid_passes : in_u64 (ApfsVolume.xid live) → open_snapshot_unknown_xid_fails_loud = true.
Proof.
  intros Hx. unfold open_snapshot_unknown_xid_fails_loud. destruct live_xid_eval as [-> _]. cbn [expect].
  set (bogus := (_ + _) `mod` _). assert (Hne : bogus ≠ ApfsVolume.xid live).
  { intros E. assert (Hm : (ApfsVolume.xid live + 0xdeadbeef) `mod` 2 ^ 64 = ApfsVolume.xid live) by exact E.
    pose proof (Z.div_mod (ApfsVolume.xid live + 0xdeadbeef) (2 ^ 64) ltac:(lia)). lia. }
  destruct (open_snapshot_cases _ live bs bogus Hfirst) as (r' & _ & -> & _).
  rewrite (proj2 (Z.eqb_neq _ _) Hne), Hsnaps. cbn. by rewrite Z.eqb_refl.
Qed.

Lemma plain_txt_passes : open_snapshot_at_live_xid_reads_plain_txt = true.
Proof.
  unfold open_snapshot_at_live_xid_reads_plain_txt. cbv zeta. destruct live_xid_eval as (-> & r' & Hr & E). cbn [expect].
  rewrite E. cbn [expect]. set (fs := ApfsFs.mount r' live bs (ApfsVolume.xid live)).
  assert (Hm : mounted (cursor CONTENT) fs) by (by apply (mounted_live _ r')).
  assert (Hl : answer_alone zlib lzvn lzfse fs (Lookup (Vfs.root fs) (str "plain.txt")) = VOk (Some (ApfsOid oid (ApfsVolume.xid live)))).
  { unfold Vfs.root. rewrite (answer_lookup zlib lzvn lzfse fs (cursor CONTENT) Hm).
    change (is_utf8 (str "plain.txt")) with true. cbv iota. cbn [ApfsFs.volume ApfsFs.block_size fs ApfsFs.mount]. by rewrite Hplain. }
  pose proof (run_dispatch_mounted zlib lzvn lzfse (cursor CONTENT) fs (Lookup (Vfs.root fs) (str "plain.txt")) Hm) as Hk.
  assert (Hl' : (Vfs.run_access (Vfs.lookup fs (Vfs.root fs) (str "plain.txt")) fs).1 = VOk (Some (ApfsOid oid (ApfsVolume.xid live))))
    by exact Hl.
  cbn [dispatch vfs_answer] in Hk.
  destruct (Vfs.run_access (Vfs.lookup fs (Vfs.root fs) (str "plain.txt")) fs) as [o fs1]. cbn [fst] in Hl'. subst o.
  cbn [answered expect_some]. destruct Hk as (_ & Hm1 & Hv1 & Hb1 & _).
  assert (Hr1 : answer_alone zlib lzvn lzfse fs1 (ReadAt (ApfsOid oid (ApfsVolume.xid live)) StreamId.Default 0 (zeroed 64))
    = VOk (Vfs.copy_window data 0 (zeroed 64))).
  { rewrite (answer_read_at zlib lzvn lzfse fs1 (cursor CONTENT) Hm1), Hv1, Hb1.
    cbn [ApfsFs.volume ApfsFs.block_size fs ApfsFs.mount]. by rewrite Hinode, bind_Ok, Hdata. }
  assert (Hr1' : (Vfs.run_access (Vfs.read_at zlib lzvn lzfse fs1 (ApfsOid oid (ApfsVolume.xid live)) StreamId.Default 0 (zeroed 64)) fs1).1
    = VOk (Vfs.copy_window data 0 (zeroed 64))) by exact Hr1.
  destruct (Vfs.run_access (Vfs.read_at _ _ _ fs1 _ _ _ _) fs1) as [o fs2]. cbn [fst] in Hr1'. subst o. cbn [answered].
  rewrite copy_window_spec by done. assert (0 < zlen data) by (destruct data; [done|unfold zlen; simpl; lia]).
  rewrite zlen_zeroed by done. lia.
Qed.
End fixture.
End VfsFixture.
